(* ===== verification/_CoqProject ===== *)
-Q . S2P
Prelude.v
Types.v
Effects.v
Log.v
Node.v
Election.v
Handlers.v
Replication.v
Hoare.v
Contracts.v
Terms.v
Functional.v
Cluster.v
ElectionSafety.v
Protocol.v
ProtocolSafety.v
Replay.v
LogContract.v
Abstraction.v
Simulation.v
SectionSim.v
SnapshotSim.v
LeaderSim.v
Refinement.v
Safety.v
Invariants.v
Starvation.v
Bounds.v
Total.v
Progress.v
Bytes.v
Utf8.v
Json.v
Codec.v
FileStore.v
FileStoreSpec.v
Recovery.v
Kv.v
KvServer.v
ClusterConfig.v
Rpc.v
Client.v
Service.v
ServiceProgress.v
System.v
SpecStore.v
Sim.v
ServiceSim.v
Deployment.v
Scenarios.v
Findings.v
