(* ===== verification/Prelude.v ===== *)
(** * RaftDB: a verification development

    RaftDB (src/) is a replicated key-value store in Go.  [cmd/raftd] runs one
    node: package [raft] is the consensus algorithm, package [storage] its files,
    package [rpc] the gRPC boundary to the other nodes, package [kv] the state
    machine and the server clients talk to, package [config] the static
    membership.  [cmd/raftctl] is the client.  This library models these parts,
    composes them as main does, and proves that the whole keeps the promises of
    Raft: down to the bytes in the files and up to what a client is told.

    ** Parts and files

    - Prelude (this file): uint64 arithmetic that wraps ([+w], [-w]) on [N],
      slices, record update, generic lemmas and tactics.
    - Types, Effects: the structs of raft/types.go and raft/node.go, and the two
      monads.  [Io D] is code that touches the disk [D]; it collects every disk a
      crash inside it can leave.  [M D SM] is one critical section of a node (the
      code between taking and releasing rn.mu): it reads clock and random source,
      changes the node and the disk, starts goroutines, may panic.
    - Log, Node, Election, Handlers, Replication: the functions of raft/node.go,
      election.go, handlers.go and replication.go under their own names.  A
      function that releases the mutex is cut there: sendSnapshot and the goroutine
      it is, handleInstallSnapshotReply, the collection of a vote
      (handleRequestVoteReply), and the applier, whose program counter is part of
      the node ([applierStep]).
    - Cluster: nodes, network and crashes as a step relation; [boot] is a process
      start as in cmd/raftd/main.go, [mainStarts] and [mainStops] what main does
      with the node once its servers serve and after a signal.
    - Bytes, Utf8, Json: what the sources use of encoding/binary, hash/crc32,
      encoding/base64, unicode/utf8 and encoding/json.
    - Replay, Codec, FileStore: storage/wal.go, storage.go and snapshot.go:
      records, their JSON and framing, and every operation as its sequence of
      system calls, the temporary file of a replacement included.
    - Kv, KvServer: kv/kv.go, store.go and server.go.
    - ClusterConfig, Rpc, Client: config/config.go, rpc/transport.go and server.go
      with the connections they make and close, cmd/raftctl/main.go with all its
      commands.
    - Service, System: every node with its server; and raftd, the service on the
      file store, the key-value store and a loaded configuration.
    - SpecStore, Sim, ServiceSim, Scenarios, Deployment: a reference store and
      executable schedulers; concrete runs at which the theorems are instantiated.
    - Findings: executions that end badly.

    ** Interfaces

    The raft core is proved against classes, not against implementations:
    [StateStoreSpec] (Contracts) and [LogStoreSpec] (LogContract) say what the
    stores promise, [StateMachineSpec] what the state machine does, [Membership]
    what the nodes agree on, and [Reliable] (Contracts) that the stores answer as
    long as no call of the system fails.  FileStoreSpec, Kv and ClusterConfig
    discharge them, and System puts the instances together.

    ** What is shown

    - Functional: each of RequestVote, the merging of AppendEntries, the commit
      rule, Propose and the election timer, on every branch.
    - Hoare, Terms, ElectionSafety: a program logic for sections; terms and votes
      only move forward, on disk before they are answered; one leader per term.
    - Protocol, ProtocolSafety: an abstract protocol of single-node moves and its
      invariant, with log matching and leader completeness.
    - Abstraction, Simulation, SectionSim, SnapshotSim, LeaderSim, Refinement: the
      code refines it; every section, at every point a crash can hit it, is a
      sequence of protocol moves.
    - Safety, Invariants: the consequences for the cluster: one committed log that
      all nodes and state machines follow, permanent and durable commits, complete
      leaders, matching logs; what every node and disk keeps; log repair makes
      progress.  Leader Completeness is about the leaders of a term that a
      majority has reached when the entry is committed; the stronger form the
      code asserts (entries committed in former terms) fails, see Findings.
    - Bounds: every way a section can panic.  Apart from failing stores, Start
      and the Leader Completeness assertion there is one, in the applier
      after a snapshot was installed under it; all other index and slice
      expressions are in range.
    - Total, Progress: a total-correctness logic for sections, and with it what the
      cluster can do from every reachable state.  A leader whose calls work brings
      the followers it can reach up to date, however far their logs are off, by
      repairing them entry by entry or with a snapshot, and commits what was
      proposed to it; a majority of nodes that run elects one of themselves.
    - Service, System: a write that was acknowledged is never lost and is what Get
      answers; raftd is safe for every configuration that Load accepts, and its
      main starts a node as the cluster model does or dies where that may die.
    - ServiceProgress, System: raftd is available.  From every reachable state in
      which a majority runs, an execution leads to a Put or Delete being answered
      with success.  These theorems are about executions there are, under a
      schedule that is kind from then on; that every fair execution makes
      progress cannot be shown, elections may fail forever.
    - Recovery, Codec: interrupted at any system call or any byte of a write, the
      files recover to the old state or the new one.
    - KvServer: a success is an apply of exactly the proposed entry, nothing
      blocks, a registered request is answered.
    - Kv, ClusterConfig, Rpc, Client: the store is the log of its writes, snapshots
      and commands round-trip, validation is exact, the RPC boundary is
      transparent, the client finds the leader.
    - Starvation, Findings, and the ends of Recovery and KvServer: eight defects.
      Four are reachable states of the cluster and what follows from them, in
      Starvation for every continuation; the others are stated for every log
      file, entry or server state they can hit.  Two lose acknowledged entries and lie outside the assumptions
      below (read errors, oversize records); the others cost availability or a
      client's answer, not safety.

    ** Assumptions and bounds

    - Terms and indexes stay below the top of uint64 ([in_range]): an execution
      that leaves the range is too long to happen.  Arithmetic wraps in the model;
      the theorems are about executions within the range.
    - A proposed command fits a log record ([admits], Refinement).  The code does
      not check it, and an oversize record is lost (Recovery).  Election Safety
      holds without this assumption.  Nothing is assumed about delayed
      goroutines: in particular sendSnapshot, which reads the store without the
      mutex, may send a newer snapshot under the term of a deposed leader.
    - A crash is the end of the process: what was written stays, a write may have
      stopped at any byte, a rename is atomic.  Reads of the log file do not fail,
      and nobody else changes the files.
    - A section is atomic, as it holds the mutex; time and randomness are arbitrary.
      A panic ends the process at once: that the deferred Unlock of a section
      runs while the panic unwinds, so that another goroutine could still take
      the mutex before the process is gone, is not modelled.
    - gRPC and protobuf lose messages or deliver them unchanged ([exact] in Rpc).
    - Fuel: loops run on the structure of lists where they can; the scans of the
      log run on the difference of two indexes, the WAL reader on the length of the
      file, the JSON parser on the length of its input, printing of a number on 20
      digits.  The lemmas about each of them show that this is enough.

    ** Not modelled

    Generated protobuf code (a parameter of Rpc); the graceful stop of the gRPC
    servers, which only happens when a process ends; the parsing of flags and
    the waiting for signals in the two main functions (dialling and listening are
    parameters of [raftdMain] and [do]); logging; the padding of
    raftctl's table; temporary files that a crash has left behind; power loss that
    undoes writes which were not yet synced; the test harness. *)

From stdpp Require Export base tactics numbers list gmap strings fin_maps functions relations sorting.
From Stdlib Require Export NArith Lia.

#[global] Open Scope N_scope.

(** ** Record update

    [r <| f := v |>] is the record [r] with field [f] replaced.  A record type
    opts in by declaring an [Eta] instance, its constructor applied to its own
    projections; the setter of a projection is then found by abstracting that
    projection in the eta-expansion. *)

Class Eta (R : Type) := eta : R → R.

Class Update {R A : Type} (proj : R → A) := upd : (A → A) → R → R.
Arguments upd {R A} proj {_} f r.

Ltac mk_update p :=
  match type of p with
  | ?R -> ?A =>
    let e := constr:(_ : Eta R) in
    let e := eval hnf in e in
    exact (fun (f : A -> A) (r : R) =>
      ltac:(let t := eval cbv beta in (e r) in
            match eval pattern (p r) in t with
            | ?h _ => let t' := eval cbv beta in (h (f (p r))) in exact t'
            end))
  end.

#[export] Hint Extern 1 (Update ?p) => unfold Update; mk_update p : typeclass_instances.

Declare Scope record_scope.
#[global] Open Scope record_scope.
Notation "r <| p := v |>" := (upd p (fun _ => v) r)
  (at level 1, left associativity, p at level 9, format "r <| p  :=  v |>") : record_scope.

(** ** 64-bit unsigned integers

    Go's [uint64] is a number below [2^64]; addition and subtraction wrap. *)

Definition u64_size : N := 18446744073709551616.

Definition u64_add (a b : N) : N := (a + b) mod u64_size.
Definition u64_sub (a b : N) : N := (a + u64_size - b) mod u64_size.

Declare Scope u64_scope.
Infix "+w" := u64_add (at level 50, left associativity) : u64_scope.
Infix "-w" := u64_sub (at level 50, left associativity) : u64_scope.
#[global] Open Scope u64_scope.

Lemma u64_add_small a b : a + b < u64_size → a +w b = a + b.
Proof. intros. unfold u64_add. by apply N.mod_small. Qed.

Lemma u64_sub_small a b : b ≤ a → a < u64_size → a -w b = a - b.
Proof.
  intros. unfold u64_sub. replace (a + u64_size - b) with (a - b + 1 * u64_size) by lia.
  rewrite N.Div0.mod_add. apply N.mod_small. lia.
Qed.

(** Subtracting past zero wraps to the top of the range. *)
Lemma u64_sub_wraps a b : a < b → b < u64_size → a -w b = u64_size - (b - a).
Proof. intros. unfold u64_sub. rewrite N.mod_small; lia. Qed.

Lemma u64_sub_mod a b : b < u64_size → a -w b = (a mod u64_size) -w b.
Proof.
  intros Hb. unfold u64_sub. pose proof (N.div_mod' a u64_size) as Ha.
  rewrite N.mul_comm in Ha. rewrite Ha at 1.
  generalize (a mod u64_size), (a / u64_size). intros r q.
  replace (q * u64_size + r + u64_size - b) with (r + u64_size - b + q * u64_size) by lia.
  by rewrite N.Div0.mod_add.
Qed.

(** The predecessor determines the number. *)
Lemma u64_pred_inv a : (a -w 1) + 1 < u64_size → a mod u64_size = (a -w 1) + 1.
Proof.
  rewrite u64_sub_mod by done. pose proof (N.mod_lt a u64_size ltac:(done)) as Hlt. revert Hlt.
  generalize (a mod u64_size). intros r Hlt. destruct (decide (r = 0)) as [->|]; [done|].
  rewrite u64_sub_small by lia. lia.
Qed.

Lemma u64_add_lt a b : a +w b < u64_size.
Proof. apply N.mod_lt. done. Qed.

Lemma u64_sub_lt a b : a -w b < u64_size.
Proof. apply N.mod_lt. done. Qed.

(** ** Slices

    Index and slice expressions with an unsigned 64-bit operand.  [None] is the
    run-time panic of an operand out of range.  The bounds test comes first, so
    that a wrapped (huge) operand is rejected without being converted. *)

Definition lenN {A} (l : list A) : N := N.of_nat (length l).

Definition slice_get {A} (l : list A) (i : N) : option A :=
  if i <? lenN l then l !! N.to_nat i else None.

(** [l[i:]] *)
Definition slice_from {A} (l : list A) (i : N) : option (list A) :=
  if i <=? lenN l then Some (drop (N.to_nat i) l) else None.

(** [l[:i]], for a slice whose capacity is its length *)
Definition slice_to {A} (l : list A) (i : N) : option (list A) :=
  if i <=? lenN l then Some (take (N.to_nat i) l) else None.

Lemma slice_get_Some {A} (l : list A) i x :
  slice_get l i = Some x ↔ l !! N.to_nat i = Some x.
Proof.
  unfold slice_get. destruct (N.ltb_spec i (lenN l)) as [H|H]; [done|].
  split; [done|]. intros Hl%lookup_lt_Some. unfold lenN in H. lia.
Qed.

Lemma slice_get_lt {A} (l : list A) i : i < lenN l → ∃ x, slice_get l i = Some x.
Proof.
  intros H. destruct (lookup_lt_is_Some_2 l (N.to_nat i)) as [x Hx].
  { unfold lenN in H. lia. }
  exists x. by apply slice_get_Some.
Qed.

Lemma slice_get_ge {A} (l : list A) i : lenN l ≤ i → slice_get l i = None.
Proof. intros H. unfold slice_get. by rewrite (proj2 (N.ltb_ge _ _) H). Qed.

Lemma slice_from_le {A} (l : list A) i :
  i ≤ lenN l → slice_from l i = Some (drop (N.to_nat i) l).
Proof. intros H. unfold slice_from. by rewrite (proj2 (N.leb_le _ _) H). Qed.

Lemma slice_to_le {A} (l : list A) i :
  i ≤ lenN l → slice_to l i = Some (take (N.to_nat i) l).
Proof. intros H. unfold slice_to. by rewrite (proj2 (N.leb_le _ _) H). Qed.

(** ** Automation *)

(** Split the boolean comparisons of a translated guard, in goal and context. *)
Ltac split_guards :=
  repeat match goal with
  | |- context [N.ltb ?a ?b] => destruct (N.ltb_spec a b)
  | |- context [N.leb ?a ?b] => destruct (N.leb_spec a b)
  | |- context [N.eqb ?a ?b] => destruct (N.eqb_spec a b)
  | H : context [N.ltb ?a ?b] |- _ => destruct (N.ltb_spec a b)
  | H : context [N.leb ?a ?b] |- _ => destruct (N.leb_spec a b)
  | H : context [N.eqb ?a ?b] |- _ => destruct (N.eqb_spec a b)
  end.

Create HintDb raftdb.
#[export] Hint Resolve u64_add_lt u64_sub_lt : raftdb.
