(* ===== verification/Types.v ===== *)
(** * Data types of package raft (src/raft/types.go and src/raft/node.go)

    The domain types exchanged between a node, its stores, its peers and its
    state machine, and the node record itself.  Go's [uint64] fields are [N]
    (operations on them wrap, see Prelude), strings and byte slices are
    [string], durations and instants are [Z] nanoseconds.  A [[]byte] that the
    code compares with nil is an [option]. *)

From S2P Require Import Prelude.

Abbreviation bytes := string (only parsing).

Record HardState := mkHardState {
  HS_CurrentTerm : N;
  HS_VotedFor : string
}.

Record LogEntry := mkEntry {
  Term : N;
  Index : N;
  Command : bytes
}.

Record Snapshot := mkSnapshot {
  LastIncludedIndex : N;
  LastIncludedTerm : N;
  SnapData : option bytes
}.

Record InstallSnapshotArgs := mkISArgs {
  ISA_Term : N;
  ISA_LeaderID : string;
  ISA_LastIncludedIndex : N;
  ISA_LastIncludedTerm : N;
  ISA_Offset : N;
  ISA_Data : option bytes;
  ISA_Done : bool
}.

Record InstallSnapshotReply := mkISReply { ISR_Term : N }.

Record RequestVoteArgs := mkRVArgs {
  RVA_Term : N;
  RVA_CandidateID : string;
  RVA_LastLogIndex : N;
  RVA_LastLogTerm : N
}.

Record RequestVoteReply := mkRVReply {
  RVR_Term : N;
  RVR_VoteGranted : bool
}.

Record AppendEntriesArgs := mkAEArgs {
  AEA_Term : N;
  AEA_LeaderID : string;
  AEA_PrevLogIndex : N;
  AEA_PrevLogTerm : N;
  AEA_Entries : list LogEntry;
  AEA_LeaderCommit : N
}.

Record AppendEntriesReply := mkAEReply {
  AER_Term : N;
  AER_Success : bool;
  AER_ConflictIndex : N;
  AER_ConflictTerm : N
}.

(** The role a node plays (node.go, type State). *)
Inductive State := Follower | Candidate | Leader.

(** State.String.  The default branch of the source covers integers that are no
    constant of the type; no such value exists here. *)
Definition State_String (s : State) : string :=
  match s with
  | Follower => "Follower"
  | Candidate => "Candidate"
  | Leader => "Leader"
  end.

(** "no vote cast" / "no known leader" *)
Definition None_ : string := "".

(** Config.  The interface-valued fields (Store, LogStore, Transport,
    SnapshotStore) are recorded as "is not nil"; the stores themselves are the
    [Storage] interface of file Effects. *)
Record Config := mkConfig {
  CfgID : string;
  CfgPeers : list string;
  HasStore : bool;
  HasLogStore : bool;
  HasTransport : bool;
  HasSnapshotStore : bool;
  SnapshotThreshold : N;
  ElectionTimeoutMin : Z;
  ElectionTimeoutMax : Z;
  HeartbeatInterval : Z;
  RPCTimeout : Z
}.

(** Where the applier goroutine (runApplier) is between two critical sections.
    [ApOff]: not started, or returned.  [ApWaiting]: at the head of its loop.
    [ApRestoring]: lock released, about to call stateMachine.Restore.
    [ApApplying todo n]: lock released, [todo] left of a batch of [n] entries.
    [ApSnapshotting i t]: lock released, about to call stateMachine.Snapshot. *)
Inductive ApplierPC :=
  | ApOff
  | ApWaiting
  | ApRestoring (snap : Snapshot)
  | ApApplying (todo : list LogEntry) (n : N)
  | ApSnapshotting (snapIndex snapTerm : N).

(** RaftNode.  [SM] is the type of the state machine's state; [stateMachine] is
    [None] for a nil interface.  [triggerCh] tells whether the one-slot channel
    holds a kick.  [votes] holds the vote counters that startElectionLocked's
    reply goroutines share, keyed by the term of their election; [applier] is
    the program counter of the applier goroutine. *)
Record RaftNode {SM : Type} := mkNode {
  cfg : Config;
  node_id : string;
  peers : list string;
  currentTerm : N;
  votedFor : string;
  log : list LogEntry;
  commitIndex : N;
  lastApplied : N;
  nextIndex : gmap string N;
  matchIndex : gmap string N;
  state : State;
  leaderID : string;
  electionResetAt : Z;
  electionTimeout : Z;
  stateMachine : option SM;
  pendingSnapshot : option Snapshot;
  initialSnapshotData : option bytes;
  triggerCh : bool;
  started : bool;
  stopped : bool;
  votes : gmap N N;
  applier : ApplierPC
}.
Arguments RaftNode : clear implicits.
Arguments mkNode {SM}.

(** The externally observable state (node.go, type Status). *)
Record Status := mkStatus {
  St_ID : string;
  St_State : State;
  St_CurrentTerm : N;
  St_VotedFor : string;
  St_LeaderID : string;
  St_CommitIndex : N;
  St_LastApplied : N;
  St_LastLogIndex : N;
  St_LastLogTerm : N;
  St_FirstLogIndex : N
}.

#[export] Instance eta_Config : Eta Config := fun r =>
  {| CfgID := CfgID r; CfgPeers := CfgPeers r; HasStore := HasStore r;
     HasLogStore := HasLogStore r; HasTransport := HasTransport r;
     HasSnapshotStore := HasSnapshotStore r; SnapshotThreshold := SnapshotThreshold r;
     ElectionTimeoutMin := ElectionTimeoutMin r; ElectionTimeoutMax := ElectionTimeoutMax r;
     HeartbeatInterval := HeartbeatInterval r; RPCTimeout := RPCTimeout r |}.

#[export] Instance eta_AEReply : Eta AppendEntriesReply := fun r =>
  {| AER_Term := AER_Term r; AER_Success := AER_Success r;
     AER_ConflictIndex := AER_ConflictIndex r; AER_ConflictTerm := AER_ConflictTerm r |}.

#[export] Instance eta_RaftNode SM : Eta (RaftNode SM) := fun r =>
  {| cfg := cfg r; node_id := node_id r; peers := peers r;
     currentTerm := currentTerm r; votedFor := votedFor r; log := log r;
     commitIndex := commitIndex r; lastApplied := lastApplied r;
     nextIndex := nextIndex r; matchIndex := matchIndex r; state := state r;
     leaderID := leaderID r; electionResetAt := electionResetAt r;
     electionTimeout := electionTimeout r; stateMachine := stateMachine r;
     pendingSnapshot := pendingSnapshot r; initialSnapshotData := initialSnapshotData r;
     triggerCh := triggerCh r; started := started r; stopped := stopped r;
     votes := votes r; applier := applier r |}.

#[export] Instance HardState_eq_dec : EqDecision HardState.
Proof. solve_decision. Defined.
#[export] Instance LogEntry_eq_dec : EqDecision LogEntry.
Proof. solve_decision. Defined.
#[export] Instance Snapshot_eq_dec : EqDecision Snapshot.
Proof. solve_decision. Defined.
#[export] Instance State_eq_dec : EqDecision State.
Proof. solve_decision. Defined.
#[export] Instance RVArgs_eq_dec : EqDecision RequestVoteArgs.
Proof. solve_decision. Defined.
#[export] Instance RVReply_eq_dec : EqDecision RequestVoteReply.
Proof. solve_decision. Defined.
#[export] Instance AEArgs_eq_dec : EqDecision AppendEntriesArgs.
Proof. solve_decision. Defined.
#[export] Instance AEReply_eq_dec : EqDecision AppendEntriesReply.
Proof. solve_decision. Defined.
#[export] Instance ISArgs_eq_dec : EqDecision InstallSnapshotArgs.
Proof. solve_decision. Defined.
#[export] Instance ISReply_eq_dec : EqDecision InstallSnapshotReply.
Proof. solve_decision. Defined.
