(* ===== verification/Effects.v ===== *)
(** * Effects of the raft core

    The interfaces a node depends on (StateStore, LogStore, SnapshotStore and
    StateMachine of src/raft/types.go and src/raft/node.go) and the monads its
    code is written in.

    [Io D] threads a disk state and records every disk state a crash in the
    middle of the operation could leave behind.  [M] is the code of one critical
    section of a node: it reads the clock and the random source, updates the
    node record and the disk, emits the goroutines it starts, and may panic. *)

From S2P Require Import Prelude Types.

(** ** Disk operations *)

(** The result of a disk operation: [io_mid] are the states the medium goes
    through (what a crash can leave), [io_disk] the state when it returns. *)
Record IoRes (D A : Type) := mkIo {
  io_mid : list D;
  io_disk : D;
  io_res : string + A
}.
Arguments mkIo {D A}.
Arguments io_mid {D A}.
Arguments io_disk {D A}.
Arguments io_res {D A}.

Definition Io (D A : Type) : Type := D → IoRes D A.

Definition io_ret {D A} (a : A) : Io D A := fun d => mkIo [] d (inr a).
Definition io_fail {D A} (e : string) : Io D A := fun d => mkIo [] d (inl e).
Definition io_bind {D A B} (k : A → Io D B) (m : Io D A) : Io D B := fun d =>
  let r := m d in
  match io_res r with
  | inl e => mkIo (io_mid r) (io_disk r) (inl e)
  | inr a =>
    let r' := k a (io_disk r) in
    mkIo (io_mid r ++ io_disk r :: io_mid r') (io_disk r') (io_res r')
  end.

#[export] Instance io_mret D : MRet (Io D) := @io_ret D.
#[export] Instance io_mbind D : MBind (Io D) := @io_bind D.

(** The three store interfaces, implemented together by one medium [D] (as
    storage.FileStore does), and the constructor that opens it.  An error result is the Go [error]. *)
Class Storage (D : Type) := {
  Open : Io D unit;
  SaveHardState : HardState → Io D unit;
  LoadHardState : Io D (option HardState);
  AppendEntries : list LogEntry → Io D unit;
  TruncateSuffix : N → Io D unit;
  LoadEntries : Io D (list LogEntry);
  Compact : list LogEntry → Io D unit;
  SaveSnapshot : Snapshot → Io D unit;
  LoadSnapshot : Io D (option Snapshot)
}.

(** The consumer of committed entries (node.go, interface StateMachine); an
    Apply that panics has no result. *)
Class StateMachine (SM : Type) := {
  Apply : LogEntry → SM → option SM;
  SMSnapshot : SM → string + option bytes;
  Restore : option bytes → SM → string + SM
}.

(** ** Critical sections *)

(** Goroutines started by a critical section, and the wake-up of the applier. *)
Inductive Effect :=
  | GoRequestVote (peer : string) (args : RequestVoteArgs)
  | GoAppendEntries (peer : string) (term : N) (args : AppendEntriesArgs)
  | GoSendSnapshot (peer : string) (term : N)
  | GoInstallSnapshot (peer : string) (term : N) (args : InstallSnapshotArgs)
  | GoReplication (term : N)
  | GoElectionTicker
  | GoApplier
  | Signal.

(** The clock (time.Now) and the random source (rand.N) a section reads. *)
Record Env := mkEnv { now : Z; rnd : Z }.

Record Ctx (D SM : Type) := mkCtx {
  rn : RaftNode SM;
  disk : D;
  crash : list D;
  out : list Effect
}.
Arguments mkCtx {D SM}.
Arguments rn {D SM}.
Arguments disk {D SM}.
Arguments crash {D SM}.
Arguments out {D SM}.

#[export] Instance eta_Ctx D SM : Eta (Ctx D SM) := fun r =>
  {| rn := rn r; disk := disk r; crash := crash r; out := out r |}.

Inductive Result (D SM A : Type) :=
  | Ret (a : A) (c : Ctx D SM)
  | Panic (why : string) (c : Ctx D SM).
Arguments Ret {D SM A}.
Arguments Panic {D SM A}.

Definition M (D SM A : Type) : Type := Env → Ctx D SM → Result D SM A.

Section monad.
Context {D SM : Type}.

Definition m_ret {A} (a : A) : M D SM A := fun _ c => Ret a c.
Definition m_bind {A B} (k : A → M D SM B) (m : M D SM A) : M D SM B := fun e c =>
  match m e c with
  | Ret a c' => k a e c'
  | Panic why c' => Panic why c'
  end.

Definition panic {A} (why : string) : M D SM A := fun _ c => Panic why c.
Definition get : M D SM (RaftNode SM) := fun _ c => Ret (rn c) c.
Definition modify (f : RaftNode SM → RaftNode SM) : M D SM unit :=
  fun _ c => Ret tt (c <| rn := f (rn c) |>).
Definition ask : M D SM Env := fun e c => Ret e c.
Definition emit (x : Effect) : M D SM unit :=
  fun _ c => Ret tt (c <| out := out c ++ [x] |>).

(** An index or slice expression: [None] is the run-time panic. *)
Definition index {A} (o : option A) : M D SM A :=
  match o with
  | Some a => m_ret a
  | None => panic "index out of range"
  end.

(** A store call whose error is returned to the caller. *)
Definition try {A} (op : Io D A) : M D SM (string + A) := fun _ c =>
  let r := op (disk c) in
  Ret (io_res r) (c <| disk := io_disk r |> <| crash := crash c ++ io_mid r ++ [io_disk r] |>).

(** A store call whose error is a panic. *)
Definition must {A} (what : string) (op : Io D A) : M D SM A := fun e c =>
  match try op e c with
  | Ret (inr a) c' => Ret a c'
  | Ret (inl _) c' => Panic what c'
  | Panic why c' => Panic why c'
  end.
End monad.

#[export] Instance m_mret D SM : MRet (M D SM) := @m_ret D SM.
#[export] Instance m_mbind D SM : MBind (M D SM) := @m_bind D SM.

(** [when b m] is Go's [if b { m }]. *)
Definition when {D SM} (b : bool) (m : M D SM unit) : M D SM unit :=
  if b then m else m_ret tt.

Fixpoint for_each {D SM A} (f : A → M D SM unit) (l : list A) : M D SM unit :=
  match l with
  | [] => m_ret tt
  | x :: l' => f x ;; for_each f l'
  end.

(** Unfold the combinators of a section that is being run. *)
Ltac run_m :=
  cbv [mbind m_mbind m_bind mret m_mret m_ret get modify emit ask must try when index panic
       io_mbind io_mret io_bind io_ret io_fail] in *;
  cbn [rn disk crash out upd] in *.
