(* ===== verification/Log.v ===== *)
(** * The in-memory log (src/raft/node.go, src/raft/replication.go)

    The log is a slice whose slot 0 is a sentinel carrying the (index, term) of
    the compaction boundary.  This file holds the index-to-position arithmetic
    of lastLogIndex, lastLogTerm, firstLogIndex, termAt, entriesFrom and the
    slicing of truncateLogLocked and compactLogLocked, as functions of the
    slice; [None] is a run-time panic.  [log_wf] is the shape every node keeps:
    a sentinel followed by entries whose indexes are consecutive. *)

From S2P Require Import Prelude Types.

(** [rn.log[len(rn.log)-1]] *)
Definition lastEntry (l : list LogEntry) : option LogEntry := last l.

Definition lastLogIndex (l : list LogEntry) : option N := Index <$> lastEntry l.
Definition lastLogTerm (l : list LogEntry) : option N := Term <$> lastEntry l.

(** [rn.log[0].Index] *)
Definition baseIndex (l : list LogEntry) : option N := Index <$> head l.
Definition firstLogIndex (l : list LogEntry) : option N := (λ b, b +w 1) <$> baseIndex l.

Definition termAt (l : list LogEntry) (index : N) : option N :=
  base ← baseIndex l; Term <$> slice_get l (index -w base).

(** the entry at [index] (for statements) *)
Definition entryAt (l : list LogEntry) (index : N) : option LogEntry :=
  base ← baseIndex l; slice_get l (index -w base).

Definition entriesFrom (l : list LogEntry) (from : N) : option (list LogEntry) :=
  base ← baseIndex l; slice_from l (from -w base).

(** the slice left by truncateLogLocked *)
Definition truncated (l : list LogEntry) (from : N) : option (list LogEntry) :=
  base ← baseIndex l; slice_to l (from -w base).

(** the slice built by compactLogLocked and HandleInstallSnapshot *)
Definition rebased (index term : N) (suffix : list LogEntry) : list LogEntry :=
  mkEntry term index "" :: suffix.

(** Consecutive indexes from [i] on, below the top of the [uint64] range. *)
Fixpoint consecutive (i : N) (l : list LogEntry) : Prop :=
  match l with
  | [] => True
  | e :: l' => Index e = i ∧ consecutive (i + 1) l'
  end.

Definition log_wf (l : list LogEntry) : Prop :=
  match l with
  | [] => False
  | s :: es => consecutive (Index s + 1) es ∧ Index s + lenN l < u64_size
  end.

#[export] Instance consecutive_dec i l : Decision (consecutive i l).
Proof. revert i. induction l as [|e l IH]; intros i; simpl; apply _. Defined.
#[export] Instance log_wf_dec l : Decision (log_wf l).
Proof. destruct l; apply _. Defined.

(** ** Consecutive runs *)

Lemma lenN_cons {A} (x : A) l : lenN (x :: l) = lenN l + 1.
Proof. unfold lenN. simpl. lia. Qed.

Lemma lenN_app {A} (l k : list A) : lenN (l ++ k) = lenN l + lenN k.
Proof. unfold lenN. rewrite length_app. lia. Qed.

Lemma lenN_nil {A} : lenN (@nil A) = 0.
Proof. done. Qed.

Lemma consecutive_app i l k :
  consecutive i (l ++ k) ↔ consecutive i l ∧ consecutive (i + lenN l) k.
Proof.
  revert i. induction l as [|e l IH]; intros i; simpl.
  - rewrite lenN_nil, N.add_0_r. tauto.
  - rewrite IH, lenN_cons. replace (i + 1 + lenN l) with (i + (lenN l + 1)) by lia. tauto.
Qed.

Lemma consecutive_lookup i l k e :
  consecutive i l → l !! k = Some e → Index e = i + N.of_nat k.
Proof.
  revert i k. induction l as [|x l IH]; intros i k; [done|].
  destruct k as [|k]; simpl.
  - intros [? _] [= ->]. lia.
  - intros [_ H] Hk. rewrite (IH _ _ H Hk). lia.
Qed.

Lemma consecutive_take i l n : consecutive i l → consecutive i (take n l).
Proof. intros H. rewrite <-(take_drop n l) in H. by apply consecutive_app in H as [? _]. Qed.

Lemma consecutive_drop i l n :
  (n ≤ length l)%nat → consecutive i l → consecutive (i + N.of_nat n) (drop n l).
Proof.
  intros Hn H. rewrite <-(take_drop n l) in H. apply consecutive_app in H as [_ H].
  unfold lenN in H. by rewrite length_take_le in H by done.
Qed.

Lemma consecutive_snoc i l e :
  consecutive i (l ++ [e]) ↔ consecutive i l ∧ Index e = i + lenN l.
Proof. rewrite consecutive_app. simpl. tauto. Qed.

(** ** The shape of a well-formed log *)

Section wf.
Context (l : list LogEntry) (Hwf : log_wf l).

Lemma log_wf_base : ∃ s, head l = Some s ∧ baseIndex l = Some (Index s).
Proof. destruct l as [|s es]; [done|]. by exists s. Qed.

Lemma log_wf_lookup k e b :
  baseIndex l = Some b → l !! k = Some e → Index e = b + N.of_nat k.
Proof.
  destruct l as [|s es]; [done|]. intros [= <-]. destruct Hwf as [Hc _].
  destruct k as [|k]; simpl; [intros [= ->]; lia|].
  intros Hk. rewrite (consecutive_lookup _ _ _ _ Hc Hk). lia.
Qed.

Lemma log_wf_last b :
  baseIndex l = Some b → lastLogIndex l = Some (b + lenN l - 1).
Proof.
  intros Hb. unfold lastLogIndex, lastEntry. destruct (last l) as [e|] eqn:He.
  - rewrite last_lookup in He. simpl. f_equal.
    rewrite (log_wf_lookup _ _ _ Hb He). destruct l; [done|]. unfold lenN. simpl. lia.
  - apply last_None in He. by subst.
Qed.

Lemma log_wf_range b : baseIndex l = Some b → b + lenN l < u64_size ∧ 1 ≤ lenN l.
Proof.
  destruct l as [|s es]; [done|]. intros [= <-]. destruct Hwf. split; [done|].
  rewrite lenN_cons. lia.
Qed.

(** Inside the log, position arithmetic does not wrap. *)
Lemma termAt_in_range b i :
  baseIndex l = Some b → b ≤ i → i < b + lenN l →
  ∃ e, l !! N.to_nat (i - b) = Some e ∧ Index e = i ∧ termAt l i = Some (Term e).
Proof.
  intros Hb ? ?. destruct (log_wf_range b Hb).
  destruct (slice_get_lt l (i - b)) as [e He]; [lia|].
  exists e. unfold termAt. rewrite Hb. simpl. rewrite u64_sub_small, He by lia.
  apply slice_get_Some in He. split; [done|]. split; [|done].
  rewrite (log_wf_lookup _ _ _ Hb He). lia.
Qed.

(** Below the compaction boundary the subtraction wraps and the access
    panics. *)
Lemma termAt_below b i : baseIndex l = Some b → i < b → termAt l i = None.
Proof.
  intros Hb ?. destruct (log_wf_range b Hb). unfold termAt. rewrite Hb. simpl.
  rewrite u64_sub_wraps by lia. rewrite slice_get_ge by lia. done.
Qed.

Lemma entriesFrom_in_range b i :
  baseIndex l = Some b → b ≤ i → i ≤ b + lenN l →
  entriesFrom l i = Some (drop (N.to_nat (i - b)) l).
Proof.
  intros Hb ? ?. destruct (log_wf_range b Hb). unfold entriesFrom. rewrite Hb. simpl.
  rewrite u64_sub_small by lia. apply slice_from_le. lia.
Qed.

Lemma truncated_in_range b i :
  baseIndex l = Some b → b ≤ i → i ≤ b + lenN l →
  truncated l i = Some (take (N.to_nat (i - b)) l).
Proof.
  intros Hb ? ?. destruct (log_wf_range b Hb). unfold truncated. rewrite Hb. simpl.
  rewrite u64_sub_small by lia. apply slice_to_le. lia.
Qed.

Lemma log_wf_take n : (0 < n)%nat → log_wf (take n l).
Proof.
  intros Hn. destruct l as [|s es]; [done|]. destruct n as [|n]; [lia|]. simpl.
  destruct Hwf as [Hc Hr]. split; [by apply consecutive_take|].
  rewrite lenN_cons in *. unfold lenN in *. rewrite length_take. lia.
Qed.

Lemma log_wf_app es b :
  baseIndex l = Some b → consecutive (b + lenN l) es →
  b + lenN l + lenN es < u64_size → log_wf (l ++ es).
Proof.
  destruct l as [|s k]; [done|]. intros [= <-] Hes Hr. simpl. destruct Hwf as [Hc _].
  rewrite lenN_cons in *. split; [|rewrite lenN_app; lia].
  apply consecutive_app. split; [done|].
  by replace (Index s + 1 + lenN k) with (Index s + (lenN k + 1)) by lia.
Qed.

Lemma log_wf_rebased b i t :
  baseIndex l = Some b → b ≤ i → i < b + lenN l →
  log_wf (rebased i t (drop (N.to_nat (i + 1 - b)) l)).
Proof.
  intros Hb ? ?. destruct (log_wf_range b Hb) as [Hr _]. unfold rebased. simpl.
  destruct l as [|s es]; [done|]. injection Hb as <-. destruct Hwf as [Hc _].
  rewrite lenN_cons in *. replace (N.to_nat (i + 1 - Index s)) with (S (N.to_nat (i - Index s))) by lia.
  simpl. split.
  - replace (i + 1) with (Index s + 1 + N.of_nat (N.to_nat (i - Index s))) by lia.
    apply consecutive_drop; [|done]. unfold lenN in *. lia.
  - unfold lenN in *. rewrite length_drop. lia.
Qed.
End wf.

Lemma log_wf_sentinel i t : i + 1 < u64_size → log_wf (rebased i t []).
Proof. intros. simpl. split; [done|]. unfold lenN. simpl. lia. Qed.
