(* ===== verification/Node.v ===== *)
(** * The node: construction, recovery and shared transitions (src/raft/node.go)

    Each definition is the Go function of the same name.  Functions documented
    "callers must hold rn.mu" are fragments of a critical section ([M]);
    [NewNode] runs before the node is shared and only touches the disk. *)

From S2P Require Import Prelude Types Effects Log.

Definition ErrNotLeader : string := "raft: not the leader".

Definition ms (n : Z) : Z := (n * 1000000)%Z.

Definition withDefaults (c : Config) : Config :=
  let dflt (v d : Z) := if (v =? 0)%Z then d else v in
  c <| ElectionTimeoutMin := dflt (ElectionTimeoutMin c) (ms 150) |>
    <| ElectionTimeoutMax := dflt (ElectionTimeoutMax c) (ms 300) |>
    <| HeartbeatInterval := dflt (HeartbeatInterval c) (ms 50) |>
    <| RPCTimeout := dflt (RPCTimeout c) (ms 100) |>.

(** [fmt.Errorf("prefix: %w", err)] *)
Definition wrapErr {D A} (prefix : string) (m : Io D A) : Io D A := fun d =>
  let r := m d in
  mkIo (io_mid r) (io_disk r)
    (match io_res r with inl e => inl (prefix +:+ e) | inr a => inr a end).

(** The majority size for a cluster of [ps] peers and the node itself. *)
Definition quorum (ps : list string) : N := (lenN ps + 1) / 2 + 1.

Section node.
Context {D SM : Type} `{!Storage D} `{!StateMachine SM}.

(** *** Construction and recovery *)

(** The struct literal of NewNode. *)
Definition initialNode (c : Config) : RaftNode SM :=
  {| cfg := c; node_id := CfgID c; peers := CfgPeers c;
     currentTerm := 0; votedFor := None_; log := [mkEntry 0 0 ""];
     commitIndex := 0; lastApplied := 0; nextIndex := ∅; matchIndex := ∅;
     state := Follower; leaderID := None_; electionResetAt := 0; electionTimeout := 0;
     stateMachine := None; pendingSnapshot := None; initialSnapshotData := None;
     triggerCh := false; started := false; stopped := false;
     votes := ∅; applier := ApOff |}.

Definition recoverHardState (n : RaftNode SM) (hs : option HardState) : RaftNode SM :=
  match hs with
  | Some h => n <| currentTerm := HS_CurrentTerm h |> <| votedFor := HS_VotedFor h |>
  | None => n
  end.

Definition recoverSnapshot (n : RaftNode SM) (s : option Snapshot) : RaftNode SM :=
  match s with
  | Some snap =>
    n <| log := <[0%nat := mkEntry (LastIncludedTerm snap) (LastIncludedIndex snap) ""]> (log n) |>
      <| commitIndex := LastIncludedIndex snap |>
      <| lastApplied := LastIncludedIndex snap |>
      <| initialSnapshotData := SnapData snap |>
  | None => n
  end.

(** The loop over the recovered entries: those the snapshot covers are
    skipped, the others must be consecutive. *)
Fixpoint recoverLog (base want : N) (es l : list LogEntry) : string + list LogEntry :=
  match es with
  | [] => inr l
  | e :: es' =>
    if Index e <=? base then recoverLog base want es' l
    else if negb (Index e =? want) then inl "raft: recovered log is not contiguous"
    else recoverLog base (want +w 1) es' (l ++ [e])
  end.

Definition recoverEntries (n : RaftNode SM) (es : list LogEntry) : Io D (RaftNode SM) :=
  match baseIndex (log n) with
  | None => io_fail "index out of range"
  | Some base =>
    match recoverLog base (base +w 1) es (log n) with
    | inl e => io_fail e
    | inr l => io_ret (n <| log := l |>)
    end
  end.

Definition NewNode (c0 : Config) : Io D (RaftNode SM) :=
  if String.eqb (CfgID c0) "" then io_fail "raft: config.ID is required"
  else if negb (HasStore c0) then io_fail "raft: config.Store is required"
  else
    let c := withDefaults c0 in
    if (ElectionTimeoutMax c <? ElectionTimeoutMin c)%Z then
      io_fail "raft: ElectionTimeoutMin > ElectionTimeoutMax"
    else if (ElectionTimeoutMin c <=? HeartbeatInterval c)%Z then
      io_fail "raft: HeartbeatInterval must be well below ElectionTimeoutMin"
    else
      hs ← wrapErr "raft: loading hard state: " LoadHardState;
      let n := recoverHardState (initialNode c) hs in
      snap ← (if HasSnapshotStore c then wrapErr "raft: loading snapshot: " LoadSnapshot
              else io_ret None);
      let n := recoverSnapshot n snap in
      if HasLogStore c then
        es ← wrapErr "raft: loading log: " LoadEntries;
        recoverEntries n es
      else io_ret n.

(** *** Persistence *)

Definition persistLocked : M D SM unit :=
  n ← get;
  must "persisting hard state" (SaveHardState (mkHardState (currentTerm n) (votedFor n))).

Definition resetElectionTimerLocked : M D SM unit :=
  e ← ask;
  n ← get;
  let spread := (ElectionTimeoutMax (cfg n) - ElectionTimeoutMin (cfg n))%Z in
  let timeout := ElectionTimeoutMin (cfg n) in
  modify (λ n, n <| electionResetAt := now e |>
                 <| electionTimeout :=
                      if (0 <? spread)%Z then (timeout + rnd e mod spread)%Z else timeout |>).

Definition becomeFollowerLocked (term : N) : M D SM unit :=
  n ← get;
  when (currentTerm n <? term)
    (modify (λ n, n <| currentTerm := term |> <| votedFor := None_ |> <| leaderID := None_ |>) ;;
     persistLocked ;;
     resetElectionTimerLocked) ;;
  modify (λ n, n <| state := Follower |>).

(** *** The log *)

Definition appendLogLocked (es : list LogEntry) : M D SM unit :=
  n ← get;
  when (HasLogStore (cfg n)) (must "persisting log entries" (AppendEntries es)) ;;
  modify (λ n, n <| log := log n ++ es |>).

Definition truncateLogLocked (from : N) : M D SM unit :=
  n ← get;
  when (HasLogStore (cfg n)) (must "persisting log truncation" (TruncateSuffix from)) ;;
  l ← index (truncated (log n) from);
  modify (λ n, n <| log := l |>).

Definition compactLogLocked (idx term : N) : M D SM unit :=
  n ← get;
  base ← index (baseIndex (log n));
  if idx <=? base then mret tt
  else
    last ← index (lastLogIndex (log n));
    suffix ← (if idx <? last then index (entriesFrom (log n) (idx +w 1)) else mret []);
    when (HasLogStore (cfg n)) (must "compacting log" (Compact suffix)) ;;
    modify (λ n, n <| log := rebased idx term suffix |>).

(** *** Lifecycle *)

Definition SetStateMachine (sm : SM) : M D SM unit :=
  n ← get;
  if started n then panic "raft: SetStateMachine after Start"
  else modify (λ n, n <| stateMachine := Some sm |>).

(** The part of Start that follows the restore of a recovered snapshot. *)
Definition launch : M D SM (string + unit) :=
  modify (λ n, n <| started := true |>) ;;
  resetElectionTimerLocked ;;
  modify (λ n, n <| applier := ApWaiting |>) ;;
  emit GoElectionTicker ;;
  emit GoApplier ;;
  mret (inr tt).

Definition Start : M D SM (string + unit) :=
  n ← get;
  if negb (HasTransport (cfg n)) then mret (inl "raft: config.Transport is required to Start")
  else if started n then mret (inl "raft: already started")
  else
    match initialSnapshotData n with
    | None => launch
    | Some data =>
      match stateMachine n with
      | None => mret (inl "raft: recovered a snapshot but no state machine is wired")
      | Some sm =>
        match Restore (Some data) sm with
        | inl e => mret (inl ("raft: restoring recovered snapshot: " +:+ e))
        | inr sm' =>
          modify (λ n, n <| stateMachine := Some sm' |> <| initialSnapshotData := None |>) ;;
          launch
        end
      end
    end.

Definition Stop : M D SM unit :=
  n ← get;
  if stopped n then mret tt
  else modify (λ n, n <| stopped := true |>) ;; emit Signal.

(** Status *)
Definition GetStatus : M D SM Status :=
  n ← get;
  li ← index (lastLogIndex (log n));
  lt ← index (lastLogTerm (log n));
  fi ← index (firstLogIndex (log n));
  mret {| St_ID := node_id n; St_State := state n; St_CurrentTerm := currentTerm n;
          St_VotedFor := votedFor n; St_LeaderID := leaderID n;
          St_CommitIndex := commitIndex n; St_LastApplied := lastApplied n;
          St_LastLogIndex := li; St_LastLogTerm := lt; St_FirstLogIndex := fi |}.
End node.
