(* ===== verification/Election.v ===== *)
(** * Leader election (src/raft/election.go) *)

From S2P Require Import Prelude Types Effects Log Node.

Section election.
Context {D SM : Type} `{!Storage D} `{!StateMachine SM}.

Definition becomeLeaderLocked : M D SM unit :=
  modify (λ n, n <| state := Leader |> <| leaderID := node_id n |>) ;;
  n ← get;
  lastI ← index (lastLogIndex (log n));
  modify (λ n, n <| nextIndex := list_to_map ((λ p, (p, lastI +w 1)) <$> peers n) |>
                 <| matchIndex := list_to_map ((λ p, (p, 0)) <$> peers n) |>) ;;
  emit (GoReplication (currentTerm n)).

(** The counter [votes] of the source is the entry of [votes] at the new
    term; one goroutine per peer is started to collect a reply. *)
Definition startElectionLocked : M D SM unit :=
  modify (λ n, n <| state := Candidate |>
                 <| currentTerm := currentTerm n +w 1 |>
                 <| votedFor := node_id n |>
                 <| leaderID := None_ |>) ;;
  persistLocked ;;
  resetElectionTimerLocked ;;
  n ← get;
  let term := currentTerm n in
  lastI ← index (lastLogIndex (log n));
  lastT ← index (lastLogTerm (log n));
  let args := mkRVArgs term (node_id n) lastI lastT in
  modify (λ n, n <| votes := <[term := 1]> (votes n) |>) ;;
  if quorum (peers n) <=? 1 then becomeLeaderLocked
  else for_each (λ peer, emit (GoRequestVote peer args)) (peers n).

(** One iteration of runElectionTicker. *)
Definition electionTick : M D SM unit :=
  e ← ask;
  n ← get;
  when (negb (bool_decide (state n = Leader)) &&
        (electionTimeout n <=? now e - electionResetAt n)%Z)
    startElectionLocked.

(** The reply goroutine of the election of [term], after the RPC returned. *)
Definition handleRequestVoteReply (term : N) (reply : RequestVoteReply) : M D SM unit :=
  n ← get;
  if stopped n then mret tt
  else if currentTerm n <? RVR_Term reply then becomeFollowerLocked (RVR_Term reply)
  else if negb (bool_decide (state n = Candidate)) || negb (currentTerm n =? term) then mret tt
  else if RVR_VoteGranted reply then
    let v := default 0 (votes n !! term) + 1 in
    modify (λ n, n <| votes := <[term := v]> (votes n) |>) ;;
    when (v =? quorum (peers n)) becomeLeaderLocked
  else mret tt.
End election.
