(* ===== verification/Handlers.v ===== *)
(** * RPC receivers (src/raft/handlers.go) *)

From S2P Require Import Prelude Types Effects Log Node.

(** The election restriction: (lastLogTerm, lastLogIndex) of the candidate is at
    least as up-to-date as ours. *)
Definition upToDate (candTerm candIndex ourTerm ourIndex : N) : bool :=
  (ourTerm <? candTerm) || ((candTerm =? ourTerm) && (ourIndex <=? candIndex)).

(** The loop that looks for the first index of the conflicting term.  It runs at
    most [first - (base+1)] times, which is the fuel its caller passes. *)
Fixpoint conflictScan (l : list LogEntry) (base have : N) (fuel : nat) (first : N) : option N :=
  match fuel with
  | O => Some first
  | S fuel' =>
    if base +w 1 <? first then
      t ← termAt l (first -w 1);
      if t =? have then conflictScan l base have fuel' (first -w 1) else Some first
    else Some first
  end.

Section handlers.
Context {D SM : Type} `{!Storage D} `{!StateMachine SM}.

Definition HandleRequestVote (args : RequestVoteArgs) : M D SM RequestVoteReply :=
  n ← get;
  if stopped n then mret (mkRVReply (currentTerm n) false)
  else
    when (currentTerm n <? RVA_Term args) (becomeFollowerLocked (RVA_Term args)) ;;
    n ← get;
    if RVA_Term args <? currentTerm n then mret (mkRVReply (currentTerm n) false)
    else
      lastT ← index (lastLogTerm (log n));
      lastI ← index (lastLogIndex (log n));
      if negb (upToDate (RVA_LastLogTerm args) (RVA_LastLogIndex args) lastT lastI) then
        mret (mkRVReply (currentTerm n) false)
      else if String.eqb (votedFor n) None_ || String.eqb (votedFor n) (RVA_CandidateID args) then
        modify (λ n, n <| votedFor := RVA_CandidateID args |>) ;;
        persistLocked ;;
        resetElectionTimerLocked ;;
        mret (mkRVReply (currentTerm n) true)
      else mret (mkRVReply (currentTerm n) false).

(** The walk over the incoming entries. *)
Fixpoint appendWalk (base : N) (es : list LogEntry) : M D SM unit :=
  match es with
  | [] => mret tt
  | e :: es' =>
    if Index e <=? base then appendWalk base es'
    else
      n ← get;
      last ← index (lastLogIndex (log n));
      if Index e <=? last then
        t ← index (termAt (log n) (Index e));
        if t =? Term e then appendWalk base es'
        else if Index e <=? commitIndex n then panic "Leader Completeness violated"
        else truncateLogLocked (Index e) ;; appendLogLocked es
      else appendLogLocked es
  end.

(** Figure 2 receiver step 5 *)
Definition advanceFollowerCommit (args : AppendEntriesArgs) : M D SM unit :=
  n ← get;
  when (commitIndex n <? AEA_LeaderCommit args)
    (let lastNew := AEA_PrevLogIndex args +w lenN (AEA_Entries args) in
     let newCommit := N.min (AEA_LeaderCommit args) lastNew in
     when (commitIndex n <? newCommit)
       (modify (λ n, n <| commitIndex := newCommit |>) ;; emit Signal)).

(** The consistency check: [None] is success, [Some reply] a rejection. *)
Definition consistencyCheck (args : AppendEntriesArgs) (reply : AppendEntriesReply) :
    M D SM (option AppendEntriesReply) :=
  n ← get;
  base ← index (baseIndex (log n));
  last ← index (lastLogIndex (log n));
  if last <? AEA_PrevLogIndex args then
    mret (Some (reply <| AER_ConflictTerm := 0 |> <| AER_ConflictIndex := last +w 1 |>))
  else if base <=? AEA_PrevLogIndex args then
    have ← index (termAt (log n) (AEA_PrevLogIndex args));
    if negb (have =? AEA_PrevLogTerm args) then
      first ← index (conflictScan (log n) base have
                       (N.to_nat (AEA_PrevLogIndex args - (base +w 1))) (AEA_PrevLogIndex args));
      mret (Some (reply <| AER_ConflictTerm := have |> <| AER_ConflictIndex := first |>))
    else mret None
  else mret None.

(** Leader contact in the current term, shared by HandleAppendEntries and
    HandleInstallSnapshot. *)
Definition acceptLeader (term : N) (leader : string) : M D SM unit :=
  n ← get;
  when (negb (bool_decide (state n = Follower))) (becomeFollowerLocked term) ;;
  modify (λ n, n <| leaderID := leader |>) ;;
  resetElectionTimerLocked.

(** The rest of HandleAppendEntries once the consistency check has passed. *)
Definition takeEntries (args : AppendEntriesArgs) (reply : AppendEntriesReply) :
    M D SM AppendEntriesReply :=
  n ← get;
  base ← index (baseIndex (log n));
  appendWalk base (AEA_Entries args) ;;
  advanceFollowerCommit args ;;
  mret (reply <| AER_Success := true |>).

Definition HandleAppendEntries (args : AppendEntriesArgs) : M D SM AppendEntriesReply :=
  n ← get;
  if stopped n then mret (mkAEReply (currentTerm n) false 0 0)
  else
    when (currentTerm n <? AEA_Term args) (becomeFollowerLocked (AEA_Term args)) ;;
    n ← get;
    let reply := mkAEReply (currentTerm n) false 0 0 in
    if AEA_Term args <? currentTerm n then mret reply
    else
      acceptLeader (AEA_Term args) (AEA_LeaderID args) ;;
      rejection ← consistencyCheck args reply;
      match rejection with
      | Some r => mret r
      | None => takeEntries args reply
      end.

(** The suffix of our log that survives a snapshot. *)
Definition retainedSuffix (l : list LogEntry) (lii lit : N) : option (list LogEntry) :=
  last ← lastLogIndex l;
  base ← baseIndex l;
  if (lii <=? last) && (base <=? lii) then
    t ← termAt l lii;
    if t =? lit then entriesFrom l (lii +w 1) else Some []
  else Some [].

Definition HandleInstallSnapshot (args : InstallSnapshotArgs) : M D SM InstallSnapshotReply :=
  n ← get;
  if stopped n then mret (mkISReply (currentTerm n))
  else
    when (currentTerm n <? ISA_Term args) (becomeFollowerLocked (ISA_Term args)) ;;
    n ← get;
    let reply := mkISReply (currentTerm n) in
    if ISA_Term args <? currentTerm n then mret reply
    else
      acceptLeader (ISA_Term args) (ISA_LeaderID args) ;;
      n ← get;
      if ISA_LastIncludedIndex args <=? commitIndex n then mret reply
      else
        suffix ← index (retainedSuffix (log n) (ISA_LastIncludedIndex args)
                          (ISA_LastIncludedTerm args));
        let snap := mkSnapshot (ISA_LastIncludedIndex args) (ISA_LastIncludedTerm args)
                      (ISA_Data args) in
        when (HasSnapshotStore (cfg n)) (must "persisting installed snapshot" (SaveSnapshot snap)) ;;
        when (HasLogStore (cfg n)) (must "compacting log for snapshot" (Compact suffix)) ;;
        modify (λ n, n <| log := rebased (ISA_LastIncludedIndex args)
                                   (ISA_LastIncludedTerm args) suffix |>
                       <| commitIndex := ISA_LastIncludedIndex args |>
                       <| pendingSnapshot := Some snap |>) ;;
        emit Signal ;;
        mret reply.
End handlers.
