(* ===== verification/Replication.v ===== *)
(** * Log replication, leader side, and the applier (src/raft/replication.go,
      Propose of src/raft/node.go) *)

From S2P Require Import Prelude Types Effects Log Node.

(** The backwards scan for the leader's last entry of the conflicting term, over
    the entries from the last one down to slot 1. *)
Fixpoint rejectionScan (conflictTerm : N) (rl : list LogEntry) : option N :=
  match rl with
  | [] => None
  | e :: rl' =>
    if Term e =? conflictTerm then Some (Index e +w 1)
    else if Term e <? conflictTerm then None
    else rejectionScan conflictTerm rl'
  end.

Definition nextIndexAfterRejection (l : list LogEntry) (prevLogIndex : N)
    (reply : AppendEntriesReply) : N :=
  if AER_ConflictTerm reply =? 0 then
    if 1 <=? AER_ConflictIndex reply then AER_ConflictIndex reply
    else if 1 <=? prevLogIndex then prevLogIndex
    else 1
  else
    match rejectionScan (AER_ConflictTerm reply) (reverse (tail l)) with
    | Some i => i
    | None => AER_ConflictIndex reply
    end.

(** Servers known to hold index [k]: the leader, and each peer whose matchIndex
    reaches it. *)
Definition replicaCount (ps : list string) (mi : gmap string N) (k : N) : N :=
  1 + lenN (filter (λ p, k ≤ default 0 (mi !! p)) ps).

(** The loop of advanceCommitIndexLocked, from [k] down to commitIndex.  The
    outer [option] is the panic of an access out of range, the inner one tells
    whether an index can be committed.  It runs at most [k - commitIndex]
    times, the fuel its caller passes. *)
Fixpoint commitScan (l : list LogEntry) (ci ct : N) (ps : list string) (mi : gmap string N)
    (fuel : nat) (k : N) : option (option N) :=
  match fuel with
  | O => Some None
  | S fuel' =>
    if ci <? k then
      t ← termAt l k;
      if negb (t =? ct) then Some None
      else if quorum ps <=? replicaCount ps mi k then Some (Some k)
      else commitScan l ci ct ps mi fuel' (k -w 1)
    else Some None
  end.

Section replication.
Context {D SM : Type} `{!Storage D} `{!StateMachine SM}.

(** A non-blocking send on the one-slot channel. *)
Definition kick : M D SM unit := modify (λ n, n <| triggerCh := true |>).

(** *** The leader's rounds *)

(** The message of one round for one peer: a snapshot when the entry it needs
    next has been compacted away, AppendEntries otherwise. *)
Definition outboundFor (n : RaftNode SM) (base term : N) (peer : string) : option Effect :=
  let next := default 0 (nextIndex n !! peer) in
  if next <=? base then Some (GoSendSnapshot peer term)
  else
    let prevIndex := next -w 1 in
    prevTerm ← termAt (log n) prevIndex;
    es ← entriesFrom (log n) next;
    Some (GoAppendEntries peer term
            (mkAEArgs term (node_id n) prevIndex prevTerm es (commitIndex n))).

(** The critical section of replicationRound, then the goroutines it starts. *)
Definition replicationRound (term : N) : M D SM bool :=
  n ← get;
  if negb (bool_decide (state n = Leader)) || negb (currentTerm n =? term) then mret false
  else
    base ← index (baseIndex (log n));
    msgs ← index (mapM (outboundFor n base term) (peers n));
    for_each emit msgs ;;
    mret true.

(** runReplication takes the kick off the channel before its next round. *)
Definition consumeTrigger : M D SM unit := modify (λ n, n <| triggerCh := false |>).

Definition advanceCommitIndexLocked : M D SM unit :=
  n ← get;
  if negb (bool_decide (state n = Leader)) then mret tt
  else
    last ← index (lastLogIndex (log n));
    r ← index (commitScan (log n) (commitIndex n) (currentTerm n) (peers n) (matchIndex n)
                 (N.to_nat (last - commitIndex n)) last);
    match r with
    | Some k => modify (λ n, n <| commitIndex := k |>) ;; emit Signal
    | None => mret tt
    end.

Definition Propose (command : bytes) : M D SM (string + (N * N)) :=
  n ← get;
  if negb (bool_decide (state n = Leader)) then mret (inl ErrNotLeader)
  else
    last ← index (lastLogIndex (log n));
    let idx := last +w 1 in
    let term := currentTerm n in
    appendLogLocked [mkEntry term idx command] ;;
    advanceCommitIndexLocked ;;
    kick ;;
    mret (inr (idx, term)).

Definition handleAppendEntriesReply (peer : string) (term : N) (args : AppendEntriesArgs)
    (reply : AppendEntriesReply) : M D SM unit :=
  n ← get;
  if stopped n then mret tt
  else if currentTerm n <? AER_Term reply then becomeFollowerLocked (AER_Term reply)
  else if negb (bool_decide (state n = Leader)) || negb (currentTerm n =? term) then mret tt
  else if AER_Success reply then
    let matched := AEA_PrevLogIndex args +w lenN (AEA_Entries args) in
    when (default 0 (matchIndex n !! peer) <? matched)
      (modify (λ n, n <| matchIndex := <[peer := matched]> (matchIndex n) |>
                      <| nextIndex := <[peer := matched +w 1]> (nextIndex n) |>) ;;
       advanceCommitIndexLocked)
  else
    let next := nextIndexAfterRejection (log n) (AEA_PrevLogIndex args) reply in
    when (next <? default 0 (nextIndex n !! peer))
      (modify (λ n, n <| nextIndex := <[peer := next]> (nextIndex n) |>)) ;;
    kick.

(** *** Snapshots to lagging followers *)

(** sendSnapshot up to its RPC.  It runs without the lock. *)
Definition sendSnapshot (peer : string) (term : N) : M D SM unit :=
  n ← get;
  if negb (HasSnapshotStore (cfg n)) then panic "nil SnapshotStore"
  else
    r ← try LoadSnapshot;
    match r with
    | inr (Some snap) =>
      emit (GoInstallSnapshot peer term
              (mkISArgs term (node_id n) (LastIncludedIndex snap) (LastIncludedTerm snap)
                 0 (SnapData snap) true))
    | _ => mret tt
    end.

(** sendSnapshot after its RPC returned. *)
Definition handleInstallSnapshotReply (peer : string) (term : N) (args : InstallSnapshotArgs)
    (reply : InstallSnapshotReply) : M D SM unit :=
  n ← get;
  if stopped n then mret tt
  else if currentTerm n <? ISR_Term reply then becomeFollowerLocked (ISR_Term reply)
  else if negb (bool_decide (state n = Leader)) || negb (currentTerm n =? term) then mret tt
  else
    let lii := ISA_LastIncludedIndex args in
    when (default 0 (matchIndex n !! peer) <? lii)
      (modify (λ n, n <| matchIndex := <[peer := lii]> (matchIndex n) |>
                      <| nextIndex := <[peer := lii +w 1]> (nextIndex n) |>)).

(** *** The applier *)

(** maybeSnapshotLocked up to the point where it releases the lock. *)
Definition maybeSnapshotLocked : M D SM unit :=
  n ← get;
  match stateMachine n with
  | None => mret tt
  | Some _ =>
    if negb (HasSnapshotStore (cfg n)) || (SnapshotThreshold (cfg n) =? 0) then mret tt
    else
      base ← index (baseIndex (log n));
      if lastApplied n -w base <? SnapshotThreshold (cfg n) then mret tt
      else
        snapTerm ← index (termAt (log n) (lastApplied n));
        modify (λ n', n' <| applier := ApSnapshotting (lastApplied n) snapTerm |>)
  end.

(** ... and from stateMachine.Snapshot to its end. *)
Definition finishSnapshot (snapIndex snapTerm : N) : M D SM unit :=
  n ← get;
  match stateMachine n with
  | None => panic "nil StateMachine"
  | Some sm =>
    match SMSnapshot sm with
    | inl _ => panic "serializing state machine snapshot"
    | inr data =>
      modify (λ n, n <| applier := ApWaiting |>) ;;
      base ← index (baseIndex (log n));
      if snapIndex <=? base then mret tt
      else
        must "persisting snapshot" (SaveSnapshot (mkSnapshot snapIndex snapTerm data)) ;;
        compactLogLocked snapIndex snapTerm
    end
  end.

(** The head of runApplier's loop: wait, return, take a parked snapshot, or
    take a batch of committed entries. *)
Definition applierWake : M D SM unit :=
  n ← get;
  match pendingSnapshot n with
  | None =>
    if negb (stopped n) && (commitIndex n <=? lastApplied n) then mret tt
    else if stopped n then modify (λ n, n <| applier := ApOff |>)
    else
      tl ← index (entriesFrom (log n) (lastApplied n +w 1));
      batch ← index (slice_to tl (commitIndex n -w lastApplied n));
      modify (λ n, n <| applier := ApApplying batch (lenN batch) |>)
  | Some snap =>
    if stopped n then modify (λ n, n <| applier := ApOff |>)
    else
      modify (λ n, n <| pendingSnapshot := None |>) ;;
      when (lastApplied n <? LastIncludedIndex snap)
        (modify (λ n, n <| applier := ApRestoring snap |>))
  end.

(** stateMachine.Restore, then the lock is taken again. *)
Definition applierRestore (snap : Snapshot) : M D SM unit :=
  n ← get;
  match stateMachine n with
  | None => panic "nil StateMachine"
  | Some sm =>
    match Restore (SnapData snap) sm with
    | inl _ => panic "restoring snapshot"
    | inr sm' =>
      modify (λ n, n <| stateMachine := Some sm' |>
                     <| lastApplied := LastIncludedIndex snap |>
                     <| applier := ApWaiting |>)
    end
  end.

(** The next step of runApplier's goroutine. *)
Definition applierStep : M D SM unit :=
  n ← get;
  match applier n with
  | ApOff => mret tt
  | ApWaiting => applierWake
  | ApRestoring snap => applierRestore snap
  | ApApplying (e :: todo) k =>
    match stateMachine n with
    | None => modify (λ n, n <| applier := ApApplying todo k |>)
    | Some sm =>
      sm' ← match Apply e sm with Some sm' => mret sm' | None => panic "Apply" end;
      modify (λ n, n <| stateMachine := Some sm' |> <| applier := ApApplying todo k |>)
    end
  | ApApplying [] k =>
    modify (λ n, n <| lastApplied := lastApplied n +w k |> <| applier := ApWaiting |>) ;;
    maybeSnapshotLocked
  | ApSnapshotting i t => finishSnapshot i t
  end.
End replication.
