(* ===== verification/Hoare.v ===== *)
(** * A program logic for critical sections

    [hoare P m Q X]: started in a context satisfying [P], the section [m] either
    returns with [Q] or panics with [X].  [keeps I X m] is the special case of
    an invariant [I]; its rules are hints of the database [hoare], so that the
    preservation of an invariant by a handler follows from its preservation by
    the primitive steps of that handler. *)

From S2P Require Import Prelude Types Effects.

Section hoare.
Context {D SM : Type}.
Implicit Types (P X I : Ctx D SM → Prop).

Definition hoare {A} P (m : M D SM A) (Q : A → Ctx D SM → Prop) X : Prop :=
  ∀ e c, P c → match m e c with Ret a c' => Q a c' | Panic _ c' => X c' end.

Lemma hoare_conseq {A} P P' (m : M D SM A) (Q Q' : A → Ctx D SM → Prop) X X' :
  hoare P m Q X → (∀ c, P' c → P c) → (∀ a c, Q a c → Q' a c) → (∀ c, X c → X' c) →
  hoare P' m Q' X'.
Proof.
  intros H HP HQ HX e c Hc. specialize (H e c (HP c Hc)). destruct (m e c); eauto.
Qed.

Lemma hoare_ret {A} P (a : A) Q X : (∀ c, P c → Q a c) → hoare P (mret a) Q X.
Proof. intros H e c Hc. by apply H. Qed.

Lemma hoare_ret_bind {A B} P (a : A) (k : A → M D SM B) Q X :
  hoare P (k a) Q X → hoare P (mret a ≫= k) Q X.
Proof. done. Qed.

Lemma hoare_bind {A B} P (m : M D SM A) (k : A → M D SM B) R Q X :
  hoare P m R X → (∀ a, hoare (R a) (k a) Q X) → hoare P (m ≫= k) Q X.
Proof.
  intros Hm Hk e c Hc. specialize (Hm e c Hc). unfold mbind, m_mbind, m_bind.
  destruct (m e c); [|done]. by apply Hk.
Qed.

Lemma hoare_get {A} P (k : RaftNode SM → M D SM A) Q X :
  (∀ n, hoare (λ c, P c ∧ rn c = n) (k n) Q X) → hoare P (get ≫= k) Q X.
Proof. intros H e c Hc. by apply (H (rn c) e c). Qed.

Lemma hoare_ask {A} P (k : Env → M D SM A) Q X :
  (∀ e, hoare P (k e) Q X) → hoare P (ask ≫= k) Q X.
Proof. intros H e c Hc. by apply (H e e c). Qed.

Lemma hoare_modify P f (Q : unit → Ctx D SM → Prop) X :
  (∀ c, P c → Q tt (c <| rn := f (rn c) |>)) → hoare P (modify f) Q X.
Proof. intros H e c Hc. by apply H. Qed.

Lemma hoare_emit P x (Q : unit → Ctx D SM → Prop) X :
  (∀ c, P c → Q tt (c <| out := out c ++ [x] |>)) → hoare P (emit x) Q X.
Proof. intros H e c Hc. by apply H. Qed.

Lemma hoare_panic {A} P why (Q : A → Ctx D SM → Prop) X :
  (∀ c, P c → X c) → hoare P (panic why) Q X.
Proof. intros H e c Hc. by apply H. Qed.

Lemma hoare_index {A} P (o : option A) (Q : A → Ctx D SM → Prop) X :
  (∀ c, P c → o = None → X c) → (∀ a c, P c → o = Some a → Q a c) →
  hoare P (index o) Q X.
Proof. intros HX HQ e c Hc. destruct o; simpl; eauto. Qed.

Lemma hoare_try {A} P (op : Io D A) (Q : string + A → Ctx D SM → Prop) X :
  (∀ c, P c → let r := op (disk c) in
     Q (io_res r) (c <| disk := io_disk r |> <| crash := crash c ++ io_mid r ++ [io_disk r] |>)) →
  hoare P (try op) Q X.
Proof. intros H e c Hc. by apply H. Qed.

Lemma hoare_must {A} P what (op : Io D A) (Q : A → Ctx D SM → Prop) X :
  (∀ c, P c → let r := op (disk c) in
     let c' := c <| disk := io_disk r |> <| crash := crash c ++ io_mid r ++ [io_disk r] |> in
     match io_res r with inl _ => X c' | inr a => Q a c' end) →
  hoare P (must what op) Q X.
Proof. intros H e c Hc. specialize (H c Hc). unfold must, try. cbv zeta in *. by destruct (io_res (op (disk c))). Qed.

Lemma hoare_pre_pure {A} P (φ : Prop) (m : M D SM A) Q X :
  (φ → hoare P m Q X) → hoare (λ c, P c ∧ φ) m Q X.
Proof. intros H e c [Hc Hφ]. by apply (H Hφ). Qed.

Lemma hoare_when P (b : bool) m (Q : unit → Ctx D SM → Prop) X :
  (b = true → hoare P m Q X) → (b = false → ∀ c, P c → Q tt c) → hoare P (when b m) Q X.
Proof. destruct b; intros H1 H2; [by apply H1|]. by apply hoare_ret, H2. Qed.

Lemma hoare_and {A} P P' (m : M D SM A) (Q Q' : A → Ctx D SM → Prop) X X' :
  hoare P m Q X → hoare P' m Q' X' →
  hoare (λ c, P c ∧ P' c) m (λ a c, Q a c ∧ Q' a c) (λ c, X c ∧ X' c).
Proof.
  intros H H' e c [Hc Hc']. specialize (H e c Hc). specialize (H' e c Hc').
  by destruct (m e c).
Qed.

(** Running a section from a context, as a value-level fact. *)
Lemma hoare_Ret {A} P (m : M D SM A) Q X e c a c' :
  hoare P m Q X → P c → m e c = Ret a c' → Q a c'.
Proof. intros H Hc Hr. specialize (H e c Hc). by rewrite Hr in H. Qed.

Lemma hoare_Panic {A} P (m : M D SM A) Q X e c w c' :
  hoare P m Q X → P c → m e c = Panic w c' → X c'.
Proof. intros H Hc Hr. specialize (H e c Hc). by rewrite Hr in H. Qed.

(** *** Invariants *)

Definition keeps {A} I X (m : M D SM A) : Prop := hoare I m (λ _, I) X.

Context (I X : Ctx D SM → Prop) (HIX : ∀ c, I c → X c).

Lemma keeps_ret {A} (a : A) : keeps I X (mret a).
Proof. by apply hoare_ret. Qed.
Lemma keeps_m_ret {A} (a : A) : keeps I X (m_ret a).
Proof. by apply hoare_ret. Qed.
Lemma keeps_bind {A B} (m : M D SM A) (k : A → M D SM B) :
  keeps I X m → (∀ a, keeps I X (k a)) → keeps I X (m ≫= k).
Proof. intros. by eapply hoare_bind. Qed.
Lemma keeps_get : keeps I X get.
Proof. intros e c Hc. done. Qed.
Lemma keeps_ask : keeps I X ask.
Proof. intros e c Hc. done. Qed.
Lemma keeps_panic {A} why : keeps I X (@panic D SM A why).
Proof. by apply hoare_panic. Qed.
Lemma keeps_index {A} (o : option A) : keeps I X (index o).
Proof. apply hoare_index; auto. Qed.
Lemma keeps_when b m : keeps I X m → keeps I X (when b m).
Proof. intros. by apply hoare_when. Qed.
Lemma keeps_if {A} (b : bool) (m1 m2 : M D SM A) :
  keeps I X m1 → keeps I X m2 → keeps I X (if b then m1 else m2).
Proof. by destruct b. Qed.
Lemma keeps_for_each {A} (f : A → M D SM unit) l :
  (∀ x, keeps I X (f x)) → keeps I X (for_each f l).
Proof.
  intros. induction l; simpl; [by apply hoare_ret|]. apply keeps_bind; auto.
Qed.
End hoare.

(** ** Disk programs

    [io_hoare I P m Q]: from a disk satisfying [P], every state [m] goes through
    satisfies [I], and a successful return satisfies [Q]. *)

Definition io_hoare {D A} (I P : D → Prop) (m : Io D A) (Q : A → D → Prop) : Prop :=
  ∀ d, P d → Forall I (io_mid (m d)) ∧ I (io_disk (m d)) ∧
             (∀ a, io_res (m d) = inr a → Q a (io_disk (m d))).

Lemma io_hoare_ret {D A} (I P : D → Prop) (a : A) Q :
  (∀ d, P d → I d ∧ Q a d) → io_hoare I P (io_ret a) Q.
Proof.
  intros H d Hd. destruct (H d Hd). repeat split; simpl; [by constructor|done|].
  by intros b [= <-].
Qed.

Lemma io_hoare_fail {D A} (I P : D → Prop) err (Q : A → D → Prop) :
  (∀ d, P d → I d) → io_hoare I P (io_fail err) Q.
Proof. intros H d Hd. repeat split; simpl; [by constructor|auto|done]. Qed.

Lemma io_hoare_bind {D A B} (I P : D → Prop) (m : Io D A) (k : A → Io D B) R Q :
  io_hoare I P m R → (∀ a, io_hoare I (R a) (k a) Q) → io_hoare I P (m ≫= k) Q.
Proof.
  intros Hm Hk d Hd. destruct (Hm d Hd) as (Hmid & Hfin & Hres).
  unfold mbind, io_mbind, io_bind. destruct (io_res (m d)) as [err|a] eqn:Ha; simpl.
  - repeat split; done.
  - destruct (Hk a _ (Hres a eq_refl)) as (Hmid' & Hfin' & Hres').
    repeat split; [|done|done]. apply Forall_app. split; [done|]. by constructor.
Qed.

Lemma io_hoare_impl {D A} (I J P : D → Prop) (m : Io D A) Q :
  (∀ d, I d → J d) → io_hoare I P m Q → io_hoare J P m Q.
Proof.
  intros HIJ Hm d Hd. destruct (Hm d Hd) as (? & ? & ?). split; [by eapply Forall_impl|auto].
Qed.

Lemma io_hoare_weaken {D A} (I P : D → Prop) (m : Io D A) (Q Q' : A → D → Prop) :
  io_hoare I P m Q → (∀ a d, Q a d → Q' a d) → io_hoare I P m Q'.
Proof. intros Hm HQ d Hd. destruct (Hm d Hd) as (? & ? & ?). split; [done|]. split; auto. Qed.

Create HintDb hoare.
#[export] Hint Resolve keeps_ret keeps_m_ret keeps_bind keeps_get keeps_ask keeps_panic
  keeps_index keeps_when keeps_if keeps_for_each : hoare.

(** Walk through a section with the invariant rules; matches are split. *)
Ltac keeps_step :=
  match goal with
  | |- ∀ _, _ => intros ?
  | |- context [match ?x with _ => _ end] =>
      match goal with |- keeps _ _ (match x with _ => _ end) => destruct x end
  | _ => solve [eauto 4 with hoare]
  | _ => apply keeps_bind
  | _ => apply keeps_if
  | _ => apply keeps_when
  | _ => apply keeps_for_each
  end.
Ltac keeps_auto := repeat keeps_step.
