(* ===== verification/Contracts.v ===== *)
(** * Durability contracts of the stores (the interfaces of src/raft/types.go)

    [StateStoreSpec] is what StateStore promises and what the other store calls
    leave alone: a hard state that survives crashes, replaced atomically by
    SaveHardState.  The theorems about votes and terms are proved against it;
    the storage implementation discharges it.  [StateMachineSpec] is what
    StateMachine promises.  [Reliable] is for progress: on a disk that works the
    calls return without an error, and the disk goes on working. *)

From S2P Require Import Prelude Types Effects.

(** The state a medium that was never written reads as. *)
Definition zeroHardState : HardState := mkHardState 0 None_.

(** Every disk state a call goes through satisfies [P]. *)
Definition through {D A} (P : D → Prop) (r : IoRes D A) : Prop :=
  Forall P (io_mid r) ∧ P (io_disk r).

(** The state machine after the entries [es], from its initial state [sm]; it
    stays where it is once an Apply panics. *)
Definition applyAll `{!StateMachine SM} (sm : SM) (es : list LogEntry) : SM :=
  foldl (λ sm e, default sm (Apply e sm)) sm es.

(** What StateMachine promises (node.go): no sequence of entries makes Apply
    panic; a snapshot is not nil, and restoring it yields the state it was taken
    of, whatever the state before. *)
Class StateMachineSpec (SM : Type) `{!StateMachine SM} := {
  genesis : SM;
  Apply_total es e : is_Some (Apply e (applyAll genesis es));
  Snapshot_Restore es data :
    SMSnapshot (applyAll genesis es) = inr data →
    is_Some data ∧ ∀ sm, Restore data sm = inr (applyAll genesis es)
}.

Lemma applyAll_snoc `{!StateMachine SM, !StateMachineSpec SM} es e :
  Apply e (applyAll genesis es) = Some (applyAll genesis (es ++ [e])).
Proof.
  destruct (Apply_total es e) as [sm Hsm]. unfold applyAll in *. rewrite foldl_app. simpl.
  by rewrite Hsm.
Qed.

Class StateStoreSpec (D : Type) `{!Storage D} := {
  (** the hard state a recovery would read *)
  hard : D → HardState;
  (** a live process may issue writes *)
  ready : D → Prop;
  (** a state a crash can leave; recovery starts from it *)
  survives : D → Prop;
  ready_survives d : ready d → survives d;
  (** the node names the store can hold *)
  name_ok : string → bool;
  name_ok_none : name_ok None_ = true;

  Open_spec d : survives d → through (λ d', survives d' ∧ hard d' = hard d) (Open d);
  SaveHardState_spec hs d :
    HS_CurrentTerm hs < u64_size → name_ok (HS_VotedFor hs) = true → ready d →
    through (λ d', survives d' ∧ (hard d' = hard d ∨ hard d' = hs)) (SaveHardState hs d) ∧
    (∀ a, io_res (SaveHardState hs d) = inr a →
       ready (io_disk (SaveHardState hs d)) ∧ hard (io_disk (SaveHardState hs d)) = hs);
  LoadHardState_spec d : survives d →
    through (λ d', survives d' ∧ hard d' = hard d) (LoadHardState d) ∧
    (∀ o, io_res (LoadHardState d) = inr o → hard d = default zeroHardState o);

  AppendEntries_frame es d : ready d →
    through (λ d', survives d' ∧ hard d' = hard d) (AppendEntries es d) ∧
    (∀ a, io_res (AppendEntries es d) = inr a → ready (io_disk (AppendEntries es d)));
  TruncateSuffix_frame from d : ready d →
    through (λ d', survives d' ∧ hard d' = hard d) (TruncateSuffix from d) ∧
    (∀ a, io_res (TruncateSuffix from d) = inr a → ready (io_disk (TruncateSuffix from d)));
  Compact_frame es d : ready d →
    through (λ d', survives d' ∧ hard d' = hard d) (Compact es d) ∧
    (∀ a, io_res (Compact es d) = inr a → ready (io_disk (Compact es d)));
  SaveSnapshot_frame s d : ready d →
    through (λ d', survives d' ∧ hard d' = hard d) (SaveSnapshot s d) ∧
    (∀ a, io_res (SaveSnapshot s d) = inr a → ready (io_disk (SaveSnapshot s d)));
  LoadEntries_frame d : survives d →
    through (λ d', survives d' ∧ hard d' = hard d) (LoadEntries d) ∧
    (∀ a, io_res (LoadEntries d) = inr a → ready (io_disk (LoadEntries d)));
  LoadSnapshot_frame d : survives d →
    through (λ d', survives d' ∧ hard d' = hard d) (LoadSnapshot d) ∧
    (ready d → ready (io_disk (LoadSnapshot d)))
}.

(** ** Stores that work *)

(** From a disk that works the call succeeds and leaves one. *)
Definition goes_well {D A} (works : D → Prop) (op : Io D A) : Prop :=
  ∀ d, works d → (∃ a, io_res (op d) = inr a) ∧ works (io_disk (op d)).

(** Every call on a disk that works succeeds, for as long as nothing but these
    calls happens to it. *)
Class Reliable (D : Type) `{!Storage D} (works : D → Prop) : Prop := {
  works_SaveHardState hs : goes_well works (SaveHardState hs);
  works_AppendEntries es : goes_well works (AppendEntries es);
  works_TruncateSuffix from : goes_well works (TruncateSuffix from);
  works_Compact es : goes_well works (Compact es);
  works_SaveSnapshot s : LastIncludedIndex s < u64_size → LastIncludedTerm s < u64_size →
    goes_well works (SaveSnapshot s);
  works_LoadSnapshot : goes_well works LoadSnapshot
}.
