(* ===== verification/Terms.v ===== *)
(** * Terms and votes: the discipline every critical section keeps

    The hard state of a node, the pair (currentTerm, votedFor), only moves
    forward: to a higher term, or within a term from "no vote" to a vote.  This
    file proves that of every critical section, at every point a crash can hit,
    and characterises the sections that create candidates, grant votes and
    create leaders. *)

From S2P Require Import Prelude Types Effects Log Node Election Handlers Replication Hoare Contracts.

(** ** The order on hard states *)

Definition hs_le (a b : HardState) : Prop :=
  HS_CurrentTerm a < HS_CurrentTerm b ∨
  (HS_CurrentTerm a = HS_CurrentTerm b ∧
   (HS_VotedFor a = None_ ∨ HS_VotedFor a = HS_VotedFor b)).

#[export] Instance hs_le_preorder : PreOrder hs_le.
Proof.
  split.
  - intros a. right. auto.
  - intros a b c [H1|[H1 H2]] [H3|[H3 H4]]; unfold hs_le; [left; lia..|].
    right. split; [lia|]. destruct H2 as [H2|H2]; [auto|]. rewrite H2. destruct H4; auto.
Qed.

Lemma hs_le_term a b : hs_le a b → HS_CurrentTerm a ≤ HS_CurrentTerm b.
Proof. intros [?|[? _]]; lia. Qed.

Lemma hs_le_vote t v b :
  hs_le (mkHardState t v) b → HS_CurrentTerm b = t → v ≠ None_ → HS_VotedFor b = v.
Proof. intros [H|[_ [H|H]]] Ht Hv; simpl in *; [lia|done|done]. Qed.

Definition node_hs {SM} (n : RaftNode SM) : HardState := mkHardState (currentTerm n) (votedFor n).

(** An effect that belongs to an election. *)
Definition electoral (x : Effect) : Prop :=
  match x with GoRequestVote _ _ | GoReplication _ => True | _ => False end.

Section terms.
Context {D SM : Type} `{!Storage D} `{!StateMachine SM} `{!StateStoreSpec D}.
Implicit Types (n : RaftNode SM) (c : Ctx D SM).

Definition same_identity n n' : Prop :=
  cfg n' = cfg n ∧ node_id n' = node_id n ∧ peers n' = peers n.

(** A crash-surviving disk that has not forgotten the node's hard state. *)
Definition kept n (d : D) : Prop := survives d ∧ hs_le (node_hs n) (hard d).

(** Every disk state since the section began has kept the hard state. *)
Definition durable n c : Prop := Forall (kept n) (crash c) ∧ kept n (disk c).

(** Memory and disk agree, and the hard state moved forward from [n]. *)
Definition synced n c : Prop :=
  same_identity n (rn c) ∧ ready (disk c) ∧ hard (disk c) = node_hs (rn c) ∧
  hs_le (node_hs n) (node_hs (rn c)) ∧ Forall (kept n) (crash c).

(** A section that is no election: the role is kept within the term or given
    up, no vote is counted, no electoral goroutine starts. *)
Definition quiet n c : Prop :=
  synced n c ∧
  (state (rn c) = Follower ∨ (state (rn c) = state n ∧ currentTerm (rn c) = currentTerm n)) ∧
  votes (rn c) = votes n ∧ Forall (λ x, ¬ electoral x) (out c).

Lemma synced_durable n c : synced n c → durable n c.
Proof.
  intros (_ & Hr & Hh & Hle & Hc). split; [done|]. split; [by apply ready_survives|].
  by rewrite Hh.
Qed.

Lemma quiet_durable n c : quiet n c → durable n c.
Proof. intros [H _]. by apply synced_durable. Qed.
Hint Resolve synced_durable quiet_durable : hoare.

(** *** Steps that leave term, vote, role and identity alone *)

Definition inert (f : RaftNode SM → RaftNode SM) : Prop := ∀ n,
  same_identity n (f n) ∧ node_hs (f n) = node_hs n ∧ state (f n) = state n ∧
  votes (f n) = votes n.

Lemma quiet_inert n f : inert f → keeps (quiet n) (durable n) (modify f).
Proof.
  intros Hf. apply hoare_modify. intros c [(Hid & Hr & Hh & Hle & Hc) (Hs & Hv & Ho)].
  destruct (Hf (rn c)) as ((? & ? & ?) & Hhs & Hst & Hvo).
  assert (currentTerm (f (rn c)) = currentTerm (rn c)) as Hct by (injection Hhs; auto).
  destruct Hid as (? & ? & ?).
  repeat split; simpl; rewrite ?Hhs, ?Hst, ?Hvo, ?Hct; auto; congruence.
Qed.

Lemma quiet_emit n x : ¬ electoral x → keeps (quiet n) (durable n) (emit x).
Proof.
  intros Hx. apply hoare_emit. intros c [Hs (Hst & Hv & Ho)].
  split; [exact Hs|]. split; [exact Hst|]. split; [exact Hv|].
  apply Forall_app; split; [done|]. by constructor.
Qed.

(** A store call that leaves the hard state alone. *)
Lemma quiet_frame {A} n (op : Io D A) what :
  (∀ d, ready d → through (λ d', survives d' ∧ hard d' = hard d) (op d) ∧
                  (∀ a, io_res (op d) = inr a → ready (io_disk (op d)))) →
  keeps (quiet n) (durable n) (must what op).
Proof.
  intros Hop. apply hoare_must. intros c [(Hid & Hr & Hh & Hle & Hc) (Hs & Hv & Ho)].
  destruct (Hop _ Hr) as [[Hmid [Hfin Hfh]] Hok]. cbv zeta.
  assert (Forall (kept n) (crash c ++ io_mid (op (disk c)) ++ [io_disk (op (disk c))])) as Hall.
  { apply Forall_app; split; [done|]. apply Forall_app; split.
    - eapply Forall_impl; [exact Hmid|]. intros d [? Hd]. split; [done|]. by rewrite Hd, Hh.
    - constructor; [|constructor]. split; [done|]. by rewrite Hfh, Hh. }
  destruct (io_res _) as [err|a] eqn:Hres.
  - split; [done|]. split; [done|]. simpl. by rewrite Hfh, Hh.
  - split; [|done]. repeat split; simpl; try apply Hid; eauto. by rewrite Hfh.
Qed.

Lemma quiet_AppendEntries n es what : keeps (quiet n) (durable n) (must what (AppendEntries es)).
Proof. apply quiet_frame. intros. by apply AppendEntries_frame. Qed.
Lemma quiet_TruncateSuffix n i what : keeps (quiet n) (durable n) (must what (TruncateSuffix i)).
Proof. apply quiet_frame. intros. by apply TruncateSuffix_frame. Qed.
Lemma quiet_Compact n es what : keeps (quiet n) (durable n) (must what (Compact es)).
Proof. apply quiet_frame. intros. by apply Compact_frame. Qed.
Lemma quiet_SaveSnapshot n s what : keeps (quiet n) (durable n) (must what (SaveSnapshot s)).
Proof. apply quiet_frame. intros. by apply SaveSnapshot_frame. Qed.

Lemma quiet_try_LoadSnapshot n : keeps (quiet n) (durable n) (try LoadSnapshot).
Proof.
  apply hoare_try. intros c [(Hid & Hr & Hh & Hle & Hc) (Hs & Hv & Ho)].
  destruct (LoadSnapshot_frame (disk c)) as [[Hmid [Hfin Hfh]] Hok]; [by apply ready_survives|].
  split; [|done]. repeat split; simpl; try apply Hid; eauto; [by rewrite Hfh|].
  apply Forall_app; split; [done|]. apply Forall_app; split.
  - eapply Forall_impl; [exact Hmid|]. intros d [? Hd]. split; [done|]. by rewrite Hd, Hh.
  - constructor; [|constructor]. split; [done|]. by rewrite Hfh, Hh.
Qed.

(** *** Persisting a new hard state *)

(** A hard state the store can hold. *)
Definition storable (h : HardState) : Prop :=
  HS_CurrentTerm h < u64_size ∧ name_ok (HS_VotedFor h) = true.

(** Between the update of the fields and the return of persistLocked, memory
    is ahead of the disk. *)
Lemma persist_advances n (P : RaftNode SM → Prop) (E : list Effect → Prop) :
  hoare (λ c, same_identity n (rn c) ∧ ready (disk c) ∧ hs_le (node_hs n) (hard (disk c)) ∧
              hs_le (node_hs n) (node_hs (rn c)) ∧ Forall (kept n) (crash c) ∧
              storable (node_hs (rn c)) ∧ P (rn c) ∧ E (out c))
    persistLocked
    (λ _ c, synced n c ∧ P (rn c) ∧ E (out c))
    (durable n).
Proof.
  apply hoare_get. intros m. apply hoare_must.
  intros c [(Hid & Hr & Hd & Hle & Hc & [Hst Hsn] & HP & HE) Hm]. subst m. cbv zeta.
  destruct (SaveHardState_spec (node_hs (rn c)) (disk c) Hst Hsn Hr) as [[Hmid Hfin] Hok].
  assert (∀ d, survives d ∧ (hard d = hard (disk c) ∨ hard d = node_hs (rn c)) → kept n d) as Hk.
  { intros d [Hsv [Hh|Hh]]; split; try done; by rewrite Hh. }
  assert (Forall (kept n) (crash c ++ io_mid (SaveHardState (node_hs (rn c)) (disk c)) ++
                           [io_disk (SaveHardState (node_hs (rn c)) (disk c))])) as Hall.
  { apply Forall_app; split; [done|]. apply Forall_app; split.
    - eapply Forall_impl; [exact Hmid|done].
    - constructor; [by apply Hk|constructor]. }
  unfold node_hs in *. destruct (io_res _) as [err|u] eqn:Hres.
  - split; [done|]. by apply Hk.
  - destruct (Hok u eq_refl) as [Hr' Hh']. split; [|done]. split; [done|]. split; [done|].
    split; [done|]. split; done.
Qed.

Lemma synced_reset n (P : RaftNode SM → Prop) (E : list Effect → Prop) :
  (∀ n' a b, P n' → P (n' <| electionResetAt := a |> <| electionTimeout := b |>)) →
  hoare (λ c, synced n c ∧ P (rn c) ∧ E (out c)) resetElectionTimerLocked
    (λ _ c, synced n c ∧ P (rn c) ∧ E (out c)) (durable n).
Proof.
  intros HP. apply hoare_ask. intros e. apply hoare_get. intros m. apply hoare_modify.
  intros c [(Hs & HPc & HE) _]. split; [|split; [|done]]; [exact Hs|]. apply HP, HPc.
Qed.

Lemma quiet_reset n : keeps (quiet n) (durable n) resetElectionTimerLocked.
Proof.
  unfold resetElectionTimerLocked. keeps_auto.
  apply quiet_inert. intros m. by repeat split.
Qed.

Lemma quiet_becomeFollower n t :
  t < u64_size → keeps (quiet n) (durable n) (becomeFollowerLocked t).
Proof.
  intros Htr.
  apply hoare_get. intros m. eapply hoare_bind.
  - apply hoare_when.
    + intros Ht. eapply hoare_bind; [|intros ?; eapply hoare_bind].
      * apply (hoare_modify _ _ (λ _ c,
          same_identity n (rn c) ∧ ready (disk c) ∧ hs_le (node_hs n) (hard (disk c)) ∧
          hs_le (node_hs n) (node_hs (rn c)) ∧ Forall (kept n) (crash c) ∧
          storable (node_hs (rn c)) ∧ votes (rn c) = votes n ∧ Forall (λ x, ¬ electoral x) (out c))).
        intros c [[(Hid & Hr & Hh & Hle & Hc) (Hs & Hv & Ho)] Hm].
        split; [exact Hid|]. split; [done|]. simpl. rewrite Hh. split; [done|].
        split; [|split; [done|]; split; [|done]; split; [done|apply name_ok_none]].
        apply N.ltb_lt in Ht. subst m. left. simpl. apply hs_le_term in Hle. simpl in *. lia.
      * apply (persist_advances n (λ n', votes n' = votes n)
                 (Forall (λ x, ¬ electoral x))).
      * intros ?. apply (synced_reset n (λ n', votes n' = votes n)
                           (Forall (λ x, ¬ electoral x))). done.
    + intros _ c [[Hs (_ & Hv & Ho)] _]. done.
  - intros ?. apply hoare_modify. intros c (Hs & Hv & Ho).
    split; [exact Hs|]. split; [by left|]. done.
Qed.

Hint Resolve quiet_AppendEntries quiet_TruncateSuffix quiet_Compact quiet_SaveSnapshot
  quiet_try_LoadSnapshot quiet_reset quiet_becomeFollower : hoare.
Hint Extern 3 (keeps (quiet _) _ (modify _)) =>
  apply quiet_inert; intros ?; by repeat split : hoare.
Hint Extern 3 (keeps (quiet _) _ (emit _)) => apply quiet_emit; simpl; tauto : hoare.

(** *** The sections that hold no election *)

Lemma quiet_appendLog n es : keeps (quiet n) (durable n) (appendLogLocked es).
Proof. unfold appendLogLocked. keeps_auto. Qed.
Lemma quiet_truncateLog n i : keeps (quiet n) (durable n) (truncateLogLocked i).
Proof. unfold truncateLogLocked. keeps_auto. Qed.
Lemma quiet_compactLog n i t : keeps (quiet n) (durable n) (compactLogLocked i t).
Proof. unfold compactLogLocked. keeps_auto. Qed.
Hint Resolve quiet_appendLog quiet_truncateLog quiet_compactLog : hoare.

Lemma quiet_appendWalk n b es : keeps (quiet n) (durable n) (appendWalk b es).
Proof. induction es; simpl; keeps_auto. Qed.
Lemma quiet_consistencyCheck n a r : keeps (quiet n) (durable n) (consistencyCheck a r).
Proof. unfold consistencyCheck. keeps_auto. Qed.
Lemma quiet_acceptLeader n t l :
  t < u64_size → keeps (quiet n) (durable n) (acceptLeader t l).
Proof. intros. unfold acceptLeader. keeps_auto. Qed.
Lemma quiet_advanceFollowerCommit n a : keeps (quiet n) (durable n) (advanceFollowerCommit a).
Proof. unfold advanceFollowerCommit. keeps_auto. Qed.
Hint Resolve quiet_appendWalk quiet_consistencyCheck quiet_acceptLeader
  quiet_advanceFollowerCommit : hoare.

Lemma quiet_HandleAppendEntries n a :
  AEA_Term a < u64_size → keeps (quiet n) (durable n) (HandleAppendEntries a).
Proof. intros. unfold HandleAppendEntries, takeEntries. keeps_auto. Qed.
Lemma quiet_HandleInstallSnapshot n a :
  ISA_Term a < u64_size → keeps (quiet n) (durable n) (HandleInstallSnapshot a).
Proof. intros. unfold HandleInstallSnapshot. keeps_auto. Qed.

Lemma quiet_advanceCommit n : keeps (quiet n) (durable n) advanceCommitIndexLocked.
Proof. unfold advanceCommitIndexLocked. keeps_auto. Qed.
Hint Resolve quiet_advanceCommit : hoare.

Lemma quiet_Propose n cmd : keeps (quiet n) (durable n) (Propose cmd).
Proof. unfold Propose, kick. keeps_auto. Qed.
Lemma quiet_handleAppendEntriesReply n p t a r :
  AER_Term r < u64_size → keeps (quiet n) (durable n) (handleAppendEntriesReply p t a r).
Proof. intros. unfold handleAppendEntriesReply, kick. keeps_auto. Qed.
Lemma quiet_sendSnapshot n p t : keeps (quiet n) (durable n) (sendSnapshot p t).
Proof. unfold sendSnapshot. keeps_auto. Qed.
Lemma quiet_handleInstallSnapshotReply n p t a r :
  ISR_Term r < u64_size → keeps (quiet n) (durable n) (handleInstallSnapshotReply p t a r).
Proof. intros. unfold handleInstallSnapshotReply. keeps_auto. Qed.
Lemma quiet_consumeTrigger n : keeps (quiet n) (durable n) consumeTrigger.
Proof. unfold consumeTrigger. keeps_auto. Qed.

Lemma outboundFor_quiet n b t p x : outboundFor n b t p = Some x → ¬ electoral x.
Proof.
  unfold outboundFor. intros H. split_guards; simplify_option_eq; simpl; tauto.
Qed.

Lemma quiet_replicationRound n t : keeps (quiet n) (durable n) (replicationRound t).
Proof.
  apply hoare_get. intros m. destruct (_ || _).
  { apply hoare_ret. by intros c [? _]. }
  eapply hoare_bind; [apply hoare_index; [intros c [? _] _; eauto with hoare|]|].
  { intros b c [Hc _] _. exact Hc. }
  intros b. eapply hoare_bind.
  - apply (hoare_index _ _ (λ msgs c, quiet n c ∧ Forall (λ x, ¬ electoral x) msgs)).
    + intros c Hc _. eauto with hoare.
    + intros msgs c Hc Hmsgs. split; [done|]. apply mapM_Some in Hmsgs.
      eapply Forall2_Forall_r; [exact Hmsgs|]. apply Forall_forall. intros p _ x.
      apply outboundFor_quiet.
  - intros msgs. apply hoare_pre_pure. intros Hq. eapply hoare_bind.
    + instantiate (1 := λ _, quiet n). induction Hq as [|x l Hx Hl IH]; simpl.
      * by apply hoare_ret.
      * eapply keeps_bind; [by apply quiet_emit|]. intros _. exact IH.
    + intros ?. by apply hoare_ret.
Qed.

Lemma quiet_applierStep n : keeps (quiet n) (durable n) applierStep.
Proof.
  unfold applierStep, applierWake, applierRestore, maybeSnapshotLocked, finishSnapshot.
  keeps_auto.
Qed.
Lemma quiet_Stop n : keeps (quiet n) (durable n) Stop.
Proof. unfold Stop. keeps_auto. Qed.
Lemma quiet_Start n : keeps (quiet n) (durable n) Start.
Proof. unfold Start, launch. keeps_auto. Qed.

(** *** Granting a vote *)

Lemma becomeFollower_term t :
  hoare (λ _, True) (becomeFollowerLocked t) (λ _ c, t ≤ currentTerm (rn c)) (λ _, True).
Proof.
  intros e c _. unfold becomeFollowerLocked, persistLocked, resetElectionTimerLocked. run_m.
  destruct (N.ltb_spec (currentTerm (rn c)) t) as [Hlt|Hge]; [|done].
  by destruct (io_res (SaveHardState _ _)).
Qed.

(** Adopting a higher term of a request, the opening move of every receiver. *)
Lemma quiet_adopt n m t :
  t < u64_size →
  hoare (λ c, quiet n c ∧ rn c = m) (when (currentTerm m <? t) (becomeFollowerLocked t))
    (λ _ c, quiet n c ∧ t ≤ currentTerm (rn c)) (durable n).
Proof.
  intros Ht. apply hoare_when.
  - intros _. eapply hoare_conseq;
      [apply hoare_and; [apply (quiet_becomeFollower n t Ht)|apply (becomeFollower_term t)]|..].
    + by intros c [Hc _].
    + by intros a c [H1 H2].
    + by intros c [H _].
  - intros Hge c [Hc Hm]. split; [done|]. subst. by apply N.ltb_ge in Hge.
Qed.

(** The node a granted vote leaves behind. *)
Definition voted_for n (args : RequestVoteArgs) (n' : RaftNode SM) : Prop :=
  node_hs n' = mkHardState (RVA_Term args) (RVA_CandidateID args) ∧ votes n' = votes n ∧
  (state n' = Follower ∨ (state n' = state n ∧ currentTerm n' = currentTerm n)).

(** HandleRequestVote keeps the discipline, and a granted vote is on disk, for
    that candidate in that term, when the reply leaves. *)
Lemma HandleRequestVote_votes n args :
  storable (mkHardState (RVA_Term args) (RVA_CandidateID args)) →
  hoare (quiet n) (HandleRequestVote args)
    (λ r c, quiet n c ∧
       (RVR_VoteGranted r = true →
        hard (disk c) = mkHardState (RVA_Term args) (RVA_CandidateID args)))
    (durable n).
Proof.
  intros Hst. apply hoare_get. intros m. destruct (stopped m).
  { apply hoare_ret. by intros c [Hc _]. }
  eapply hoare_bind; [apply quiet_adopt, Hst|]. intros ?. apply hoare_get. intros m1.
  destruct (N.ltb_spec (RVA_Term args) (currentTerm m1)) as [|Hge].
  { apply hoare_ret. by intros c [[Hc _] _]. }
  eapply hoare_bind; [apply hoare_index|].
  { intros c [[Hc _] _] _. by apply quiet_durable. }
  { intros lt c Hc _. exact Hc. }
  intros lt. eapply hoare_bind; [apply hoare_index|].
  { intros c [[Hc _] _] _. by apply quiet_durable. }
  { intros li c Hc _. exact Hc. }
  intros li. destruct (negb _).
  { apply hoare_ret. by intros c [[Hc _] _]. }
  destruct (String.eqb_spec (votedFor m1) None_) as [Hv|Hv]; simpl;
    [|destruct (String.eqb_spec (votedFor m1) (RVA_CandidateID args)) as [Hv'|Hv'];
      [|apply hoare_ret; by intros c [[Hc _] _]]].
  1, 2: eapply hoare_bind; [|intros ?; eapply hoare_bind;
    [apply (persist_advances n (voted_for n args) (Forall (λ x, ¬ electoral x)))|]].
  1, 3: apply hoare_modify; intros c [[[(Hid & Hr & Hh & Hle & Hcr) (Hs & Hvo & Ho)] Hge'] Hm];
    subst m1; simpl; split; [exact Hid|]; split; [done|]; rewrite Hh; split; [done|];
    assert (currentTerm (rn c) = RVA_Term args) as Hct by lia;
    split; [etrans; [exact Hle|]; right; simpl; split; [done|]; auto|];
    split; [done|]; split; [by unfold node_hs; simpl; rewrite Hct|];
    split; [|done]; split; [by unfold node_hs; simpl; rewrite Hct|]; done.
  all: intros ?; eapply hoare_bind;
    [apply (synced_reset n (voted_for n args) (Forall (λ x, ¬ electoral x))); by intros|];
    intros ?; apply hoare_ret; intros c (Hs & (Hhs & Hvo & Hrole) & Ho);
    split; [split; [exact Hs|]; done|]; intros _; destruct Hs as (_ & _ & -> & _); exact Hhs.
Qed.

(** *** Elections *)

(** The node became a candidate of the next term, having persisted its own
    vote; with no peers it already is the leader. *)
Definition candidacy n c : Prop :=
  let T := currentTerm n + 1 in
  synced n c ∧ currentTerm (rn c) = T ∧ votedFor (rn c) = node_id n ∧
  votes (rn c) = <[T := 1]> (votes n) ∧
  ((state (rn c) = Candidate ∧ 1 < quorum (peers n) ∧
    ∃ li lt, out c = (λ p, GoRequestVote p (mkRVArgs T (node_id n) li lt)) <$> peers n) ∨
   (state (rn c) = Leader ∧ quorum (peers n) ≤ 1 ∧ out c = [GoReplication T])).

(** What a candidate node is like before the requests leave. *)
Definition standing n (n' : RaftNode SM) : Prop :=
  currentTerm n' = currentTerm n + 1 ∧ votedFor n' = node_id n ∧ votes n' = votes n ∧
  state n' = Candidate.

Lemma for_each_emit (xs : list Effect) (I : Ctx D SM → Prop) X e c :
  (∀ c o, I c → I (c <| out := o |>)) → I c →
  match for_each emit xs e c with
  | Ret _ c' => I c' ∧ out c' = out c ++ xs ∧ rn c' = rn c
  | Panic _ c' => X c'
  end.
Proof.
  intros HI. revert c. induction xs as [|x xs IH]; intros c Hc; simpl; run_m.
  - by rewrite app_nil_r.
  - specialize (IH (c <| out := out c ++ [x] |>) (HI _ _ Hc)). simpl in IH.
    destruct (for_each _ _ _ _); [|done]. by rewrite <-app_assoc in IH.
Qed.

Lemma becomeLeader_spec n (P : RaftNode SM → Prop) :
  (∀ n' l a b, P n' → P (n' <| state := Leader |> <| leaderID := l |>
                            <| nextIndex := a |> <| matchIndex := b |>)) →
  hoare (λ c, synced n c ∧ P (rn c) ∧ out c = []) becomeLeaderLocked
    (λ _ c, synced n c ∧ P (rn c) ∧ state (rn c) = Leader ∧
            out c = [GoReplication (currentTerm (rn c))])
    (durable n).
Proof.
  intros HP e c (Hs & Hc & Ho). unfold becomeLeaderLocked. run_m.
  destruct (lastLogIndex _) as [li|]; simpl.
  - rewrite Ho. split; [exact Hs|]. split; [|done].
    apply (HP (rn c)). done.
  - apply (synced_durable _ c Hs).
Qed.

Lemma requests_emit args ps :
  for_each (λ peer, emit (GoRequestVote peer args)) ps =
  @for_each D SM _ emit ((λ peer, GoRequestVote peer args) <$> ps).
Proof. induction ps as [|p ps IH]; [done|]. simpl. by rewrite IH. Qed.

Lemma electionTick_spec n :
  currentTerm n + 1 < u64_size → name_ok (node_id n) = true →
  hoare (λ c, quiet n c ∧ rn c = n ∧ out c = []) electionTick
    (λ _ c, quiet n c ∨ candidacy n c) (durable n).
Proof.
  intros Hrange Hname. apply hoare_ask. intros e. apply hoare_get. intros m. apply hoare_when.
  2: { intros _ c [(Hc & _) _]. by left. }
  intros _. eapply hoare_bind; [|intros ?; eapply hoare_bind;
    [apply (persist_advances n (standing n) (λ o, o = []))|
     intros ?; eapply hoare_bind;
       [apply (synced_reset n (standing n) (λ o, o = [])); by intros|]]].
  - apply hoare_modify. intros c [(Hq & Hn & Ho) _].
    destruct Hq as [(Hid & Hr & Hh & Hle & Hcr) (Hst & Hvo & _)].
    simpl. rewrite Hn in *. rewrite Hh. simpl. unfold standing. simpl.
    rewrite u64_add_small by done.
    repeat split; try done. left. simpl. lia.
  - intros ?. apply hoare_get. intros m1.
    eapply hoare_bind; [apply hoare_index|].
    { intros c [(Hs & _) _] _. by apply synced_durable. }
    { intros li c Hc _. exact Hc. }
    intros li. eapply hoare_bind; [apply hoare_index|].
    { intros c [(Hs & _) _] _. by apply synced_durable. }
    { intros lt c Hc _. exact Hc. }
    intros lt. eapply hoare_bind with (R := λ _ c, synced n c ∧ peers (rn c) = peers m1 ∧
      peers m1 = peers n ∧ node_id m1 = node_id n ∧ currentTerm m1 = currentTerm n + 1 ∧
      (currentTerm (rn c) = currentTerm n + 1 ∧ votedFor (rn c) = node_id n ∧
       votes (rn c) = <[currentTerm n + 1 := 1]> (votes n) ∧ state (rn c) = Candidate) ∧
      out c = []).
    { apply hoare_modify. intros c [(Hs & (Ht & Hv & Hvo & Hst) & Ho) Hm]. subst m1. simpl.
      assert (Hid := Hs). destruct Hid as ((_ & Hid & Hp) & _). rewrite Hvo, Ht.
      split; [exact Hs|]. done. }
    intros ?. destruct (N.leb_spec (quorum (peers m1)) 1) as [Hq|Hq].
    + eapply hoare_conseq; [apply (becomeLeader_spec n (λ n',
        currentTerm n' = currentTerm n + 1 ∧ votedFor n' = node_id n ∧
        votes n' = <[currentTerm n + 1 := 1]> (votes n) ∧
        quorum (peers n) ≤ 1)); by intros| | |done].
      * intros c (Hs & _ & Hp & _ & _ & (Ht & Hv & Hvo & _) & Ho). rewrite <-Hp. done.
      * intros u c (Hs & (Ht & Hv & Hvo & Hq') & Hst & Ho). right. split; [done|].
        rewrite Ht in Ho. split; [done|]. split; [done|]. split; [done|]. by right.
    + intros e' c (Hs & Hp & Hp' & Hid & Hm & (Ht & Hv & Hvo & Hst) & Ho).
      rewrite Hp', Hid, Hm.
      pose proof (for_each_emit ((λ p, GoRequestVote p (mkRVArgs (currentTerm n + 1) (node_id n) li lt))
                    <$> peers n) (synced n) (durable n) e' c (λ c o H, H) Hs) as Hf.
      rewrite (requests_emit (mkRVArgs (currentTerm n + 1) (node_id n) li lt)). destruct (for_each emit _ e' c) as [a' c'|w c']; [|done].
      destruct Hf as (Hs' & Ho' & Hrn). right. split; [done|]. rewrite Hrn.
      split; [done|]. split; [done|]. split; [done|]. left. split; [done|].
      destruct Hs as ((_ & _ & Hpn) & _). rewrite <-Hpn, Hp. split; [done|].
      exists li, lt. by rewrite Ho', Ho, <-Hpn, Hp.
Qed.

(** A vote was counted in the candidate's own election; the one that completes
    the quorum makes the leader. *)
Definition counted n (term : N) c : Prop :=
  let v := default 0 (votes n !! term) + 1 in
  synced n c ∧ node_hs (rn c) = node_hs n ∧ state n = Candidate ∧ currentTerm n = term ∧
  votes (rn c) = <[term := v]> (votes n) ∧
  ((state (rn c) = Candidate ∧ out c = []) ∨
   (state (rn c) = Leader ∧ v = quorum (peers n) ∧ out c = [GoReplication term])).

Lemma handleRequestVoteReply_spec n term r :
  RVR_Term r < u64_size →
  hoare (λ c, quiet n c ∧ rn c = n ∧ out c = []) (handleRequestVoteReply term r)
    (λ _ c, quiet n c ∨ (RVR_VoteGranted r = true ∧ counted n term c)) (durable n).
Proof.
  intros Hr. apply hoare_get. intros m. destruct (stopped m).
  { apply hoare_ret. intros c [(Hc & _) _]. by left. }
  destruct (_ <? _).
  { eapply hoare_conseq; [by apply quiet_becomeFollower|..]; [|by left|done].
    by intros c [(Hc & _) _]. }
  destruct (bool_decide_reflect (state m = Candidate)) as [Hcand|]; simpl.
  2: { apply hoare_ret. intros c [(Hc & _) _]. by left. }
  destruct (N.eqb_spec (currentTerm m) term) as [Hterm|]; simpl.
  2: { apply hoare_ret. intros c [(Hc & _) _]. by left. }
  destruct (RVR_VoteGranted r).
  2: { apply hoare_ret. intros c [(Hc & _) _]. by left. }
  eapply hoare_bind with (R := λ _ c, m = n ∧ synced n c ∧
    (node_hs (rn c) = node_hs n ∧
     votes (rn c) = <[term := default 0 (votes n !! term) + 1]> (votes n)) ∧
    state (rn c) = Candidate ∧ out c = []).
  { apply hoare_modify. intros c [(Hq & Hn & Ho) Hm]. rewrite Hn in Hm. subst m.
    destruct Hq as [Hs _]. split; [done|]. simpl. rewrite Hn. split; [|done].
    unfold synced in *. rewrite Hn in Hs. exact Hs. }
  intros ?. apply hoare_when.
  - intros Hq%N.eqb_eq. eapply hoare_conseq; [apply (becomeLeader_spec n (λ n',
      m = n ∧ node_hs n' = node_hs n ∧
      votes n' = <[term := default 0 (votes n !! term) + 1]> (votes n))); by intros| | |done].
    + intros c (Hm & Hs & (Hhs & Hv) & _ & Ho). done.
    + intros u c (Hs & (-> & Hhs & Hv) & Hst & Ho). right. split; [done|]. split; [done|].
      assert (currentTerm (rn c) = currentTerm n) as Hct by (injection Hhs; auto).
      rewrite Hct, Hterm in Ho. repeat (split; [done|]). right. done.
  - intros _ c (-> & Hs & (Hhs & Hv) & Hst & Ho). right. split; [done|].
    split; [done|]. repeat (split; [done|]). by left.
Qed.

(** *** Recovery *)

Lemma io_hoare_wrapErr {A} (I P : D → Prop) s (m : Io D A) Q :
  io_hoare I P m Q → io_hoare I P (wrapErr s m) Q.
Proof.
  intros H d Hd. destruct (H d Hd) as (? & ? & Hres). repeat split; [done..|]. simpl.
  intros a Ha. destruct (io_res (m d)) as [|b]; [done|]. injection Ha as <-. by apply Hres.
Qed.

(** A node read back from disk [d] remembers the hard state and nothing of its
    former role. *)
Definition recovered (c : Config) (h : HardState) n : Prop :=
  node_id n = CfgID c ∧ peers n = CfgPeers c ∧ state n = Follower ∧ votes n = ∅ ∧
  node_hs n = h.

Lemma recoverSnapshot_recovered (cf : Config) h n s :
  recovered cf h n → recovered cf h (recoverSnapshot n s).
Proof. by destruct s. Qed.

Lemma NewNode_recovers (c : Config) h :
  HasLogStore c = true →
  io_hoare (λ d, survives d ∧ hard d = h) (λ d, survives d ∧ hard d = h) (NewNode c)
    (λ n d, recovered c h n ∧ ready d ∧ hard d = h).
Proof.
  intros Hls. unfold NewNode.
  destruct (String.eqb _ _); [by apply io_hoare_fail|].
  destruct (negb _); [by apply io_hoare_fail|].
  destruct (_ <? _)%Z; [by apply io_hoare_fail|].
  destruct (_ <=? _)%Z; [by apply io_hoare_fail|].
  eapply io_hoare_bind with
    (R := λ o d, (survives d ∧ hard d = h) ∧ h = default zeroHardState o).
  { apply io_hoare_wrapErr. intros d [Hd Hh]. destruct (LoadHardState_spec d Hd) as [[H1 H2] H3].
    rewrite Hh in H1, H2. split; [done|]. split; [done|]. intros o Ho. split; [done|].
    rewrite <-Hh. by apply H3. }
  intros o. eapply io_hoare_bind with
    (R := λ s d, (survives d ∧ hard d = h) ∧ h = default zeroHardState o).
  { destruct (HasSnapshotStore _); [|apply io_hoare_ret; by intros d [[? ?] ?]].
    apply io_hoare_wrapErr. intros d [[Hd Hh] Ho]. destruct (LoadSnapshot_frame d Hd) as [[H1 H2] H3].
    rewrite Hh in H1, H2. done. }
  intros s. cbn [HasLogStore withDefaults upd]. rewrite Hls.
  eapply io_hoare_bind with
    (R := λ s d, (ready d ∧ hard d = h) ∧ h = default zeroHardState o).
  { apply io_hoare_wrapErr. intros d [[Hd Hh] Ho]. destruct (LoadEntries_frame d Hd) as [[H1 H2] H3].
    rewrite Hh in H1, H2. split; [done|]. split; [done|]. intros a Ha.
    split; [|done]. split; [by apply (H3 a)|]. by destruct H2. }
  intros es. unfold recoverEntries.
  destruct (baseIndex _); [|apply io_hoare_fail; intros d [[? ?] ?]; eauto using ready_survives].
  destruct (recoverLog _ _ _ _); [apply io_hoare_fail; intros d [[? ?] ?]; eauto using ready_survives|].
  apply io_hoare_ret. intros d [[Hr Hh] Ho]. split; [eauto using ready_survives|].
  split; [|done]. assert (recovered c h (recoverHardState (initialNode (withDefaults c)) o)) as Hrec.
  { subst h. destruct o as [[]|]; by repeat split. }
  apply (recoverSnapshot_recovered _ _ _ s) in Hrec. exact Hrec.
Qed.
End terms.
