(* ===== verification/Functional.v ===== *)
(** * What the sections of a node compute (src/raft)

    The behaviour of the main handlers on every branch, independent of the rest
    of the cluster: when a vote is granted and that it is on disk before the
    reply, which index the leader commits, what a follower's log becomes, what
    Propose answers, and when the election timer may fire.  A section that does not return has met a failing
    store call, or the violation it checks for. *)

From S2P Require Import Prelude Types Effects Log Node Election Handlers Replication Hoare Contracts Terms.

(** ** RequestVote *)

(** The three conditions of Figure 2, with the fourth of a running node. *)
Definition grants {SM} (n : RaftNode SM) (args : RequestVoteArgs) : bool :=
  negb (stopped n) && (currentTerm n <=? RVA_Term args) &&
  upToDate (RVA_LastLogTerm args) (RVA_LastLogIndex args)
    (default 0 (lastLogTerm (log n))) (default 0 (lastLogIndex (log n))) &&
  ((currentTerm n <? RVA_Term args) || String.eqb (votedFor n) None_ ||
   String.eqb (votedFor n) (RVA_CandidateID args)).

(** ** The commit rule *)

(** Index [k] may be committed by counting replicas: it is of the leader's own
    term, and a majority holds it. *)
Definition committable (l : list LogEntry) (ct : N) (ps : list string) (mi : gmap string N) (k : N) : Prop :=
  termAt l k = Some ct ∧ quorum ps ≤ replicaCount ps mi k.

(** The terms of a leader's log do not decrease, and none is above its own. *)
Definition termsUpTo (l : list LogEntry) (ct : N) : Prop :=
  ∀ i j t u, i ≤ j → j < u64_size → termAt l i = Some t → termAt l j = Some u → t ≤ u ∧ u ≤ ct.

(** The scan stops at the first index of another term; below it there is nothing
    to find. *)
Lemma commitScan_spec l b ci ct ps mi fuel k :
  log_wf l → baseIndex l = Some b → termsUpTo l ct → b ≤ ci → k < b + lenN l → fuel = N.to_nat (k - ci) →
  ∃ r, commitScan l ci ct ps mi fuel k = Some r ∧
    match r with
    | Some m => ci < m ∧ m ≤ k ∧ committable l ct ps mi m ∧ ∀ j, m < j → j ≤ k → ¬ committable l ct ps mi j
    | None => ∀ j, ci < j → j ≤ k → ¬ committable l ct ps mi j
    end.
Proof.
  intros Hwf Hb Hs Hci. revert k. induction fuel as [|fuel IH]; intros k Hk Hf; cbn [commitScan].
  { exists None. split; [done|]. intros j. lia. }
  rewrite (proj2 (N.ltb_lt ci k)) by lia. destruct (log_wf_range l Hwf b Hb) as [Hr _].
  destruct (termAt_in_range l Hwf b k Hb) as (e & _ & _ & Ht); [lia|lia|]. rewrite Ht. cbn [mbind option_bind].
  destruct (N.eqb_spec (Term e) ct) as [Heq|Hne]; cbn [negb].
  - destruct (N.leb_spec (quorum ps) (replicaCount ps mi k)) as [Hq|Hq].
    + exists (Some k). split; [done|]. split; [lia|]. split; [lia|]. split; [by split; [congruence|]|]. intros j. lia.
    + rewrite u64_sub_small by lia. destruct (IH (k - 1)) as (r & -> & Hspec); [lia|lia|]. exists r. split; [done|].
      assert (¬ committable l ct ps mi k) as Hk' by (intros [_ ?]; lia).
      destruct r as [m|].
      * destruct Hspec as (? & ? & ? & Hmax). split; [done|]. split; [lia|]. split; [done|]. intros j ? ?.
        destruct (decide (j = k)) as [->|]; [done|]. apply Hmax; lia.
      * intros j ? ?. destruct (decide (j = k)) as [->|]; [done|]. apply Hspec; lia.
  - exists None. split; [done|]. intros j ? ? [Hj _]. destruct (Hs j k _ _ ltac:(lia) ltac:(lia) Hj Ht). lia.
Qed.

Lemma commitScan_total l b ci ct ps mi fuel k :
  log_wf l → baseIndex l = Some b → b ≤ ci → k < b + lenN l → ∃ r, commitScan l ci ct ps mi fuel k = Some r.
Proof.
  intros Hwf Hb Hci. revert k. induction fuel as [|fuel IH]; intros k Hk; cbn [commitScan]; [by eexists|].
  destruct (N.ltb_spec ci k); [|by eexists]. destruct (log_wf_range l Hwf b Hb).
  destruct (termAt_in_range l Hwf b k Hb) as (e & _ & _ & ->); [lia|lia|]. cbn [mbind option_bind].
  destruct (negb _); [by eexists|]. destruct (_ <=? _); [by eexists|]. rewrite u64_sub_small by lia. apply IH. lia.
Qed.

(** ** Merging entries into a log *)

(** The entries of [es], which start at [p], replace everything from [p] on. *)
Definition spliced (l : list LogEntry) (b p : N) (es : list LogEntry) : list LogEntry :=
  take (N.to_nat (p - b)) l ++ es.

Lemma slice_get_lookup {A} (l : list A) i : slice_get l i = l !! N.to_nat i.
Proof. apply option_eq. intros x. apply slice_get_Some. Qed.

Section splice.
Context (l : list LogEntry) (b p : N) (es : list LogEntry).
Context (Hwf : log_wf l) (Hb : baseIndex l = Some b) (Hbp : b < p) (Hpl : p ≤ b + lenN l).
Context (Hes : consecutive p es) (Hrange : p + lenN es < u64_size).

Lemma spliced_base : baseIndex (spliced l b p es) = Some b.
Proof.
  unfold spliced. destruct l as [|x k]; [done|]. injection Hb as <-.
  by replace (N.to_nat (p - Index x)) with (S (N.to_nat (p - Index x - 1))) by lia.
Qed.

Lemma spliced_wf : log_wf (spliced l b p es).
Proof.
  assert (lenN (take (N.to_nat (p - b)) l) = p - b) as Hlen by (unfold lenN in *; rewrite length_take; lia).
  apply (log_wf_app _ (log_wf_take l Hwf (N.to_nat (p - b)) ltac:(lia)) es b); rewrite ?Hlen.
  - pose proof spliced_base as Hsb. unfold spliced in Hsb. destruct (take (N.to_nat (p - b)) l) eqn:Ht; [|done].
    rewrite lenN_nil in Hlen. lia.
  - by replace (b + (p - b)) with p by lia.
  - lia.
Qed.

Lemma spliced_below k : b ≤ k → k < p → termAt (spliced l b p es) k = termAt l k.
Proof.
  intros. destruct (log_wf_range l Hwf b Hb). unfold termAt. rewrite spliced_base, Hb. simpl.
  rewrite u64_sub_small by lia. f_equal. unfold spliced. rewrite !slice_get_lookup.
  rewrite lookup_app_l by (rewrite length_take; unfold lenN in *; lia). apply lookup_take_lt. lia.
Qed.

Lemma spliced_above en : en ∈ es → termAt (spliced l b p es) (Index en) = Some (Term en).
Proof.
  intros [k Hk]%list_elem_of_lookup. pose proof (consecutive_lookup _ _ _ _ Hes Hk) as Hi.
  pose proof (lookup_lt_Some _ _ _ Hk) as Hlt. unfold termAt. rewrite spliced_base. simpl.
  rewrite u64_sub_small by (unfold lenN in *; lia). unfold spliced. rewrite slice_get_lookup.
  rewrite lookup_app_r by (rewrite length_take; unfold lenN in *; lia). rewrite length_take.
  replace (N.to_nat (Index en - b) - N.to_nat (p - b) `min` length l)%nat with k by (unfold lenN in *; lia).
  by rewrite Hk.
Qed.
End splice.

(** An incoming entry contradicts the log: it has another term at its index. *)
Definition conflicts (l : list LogEntry) (b : N) (en : LogEntry) : Prop :=
  b < Index en ∧ ∃ t, termAt l (Index en) = Some t ∧ t ≠ Term en.

(** [l'] is [l], or [l] with the last of [es] in place of everything from the index
    of the first of them on. *)
Definition taken (l : list LogEntry) (b : N) (es l' : list LogEntry) : Prop :=
  l' = l ∨ ∃ q es', es' `suffix_of` es ∧ consecutive q es' ∧ b < q ∧ q ≤ b + lenN l ∧ l' = spliced l b q es'.

(** [l'] is [l] with the entries [es], which start at [p], merged in. *)
Definition merged (l : list LogEntry) (b p : N) (es l' : list LogEntry) : Prop :=
  log_wf l' ∧ baseIndex l' = Some b ∧
  (∀ k, b ≤ k → k < p → termAt l' k = termAt l k) ∧
  (∀ en, en ∈ es → b < Index en → termAt l' (Index en) = Some (Term en)) ∧
  (l `prefix_of` l' ∨ ∃ en, en ∈ es ∧ conflicts l b en) ∧ taken l b es l'.

Lemma taken_cons l b en es l' : taken l b es l' → taken l b (en :: es) l'.
Proof. intros [->|(q & es' & ? & ?)]; [by left|right]. exists q, es'. split; [by apply suffix_cons_r|done]. Qed.

(** Entries that the log already has, or that lie below its boundary. *)
Lemma merged_cons l b p en es l' :
  Index en = p → b < p → termAt l p = Some (Term en) → merged l b (p + 1) es l' → merged l b p (en :: es) l'.
Proof.
  intros <- Hb Ht (Hwf & Hb' & Hlow & Hin & Hpre & Htk). split; [done|]. split; [done|]. split; [|split; [|split; [|by apply taken_cons]]].
  - intros k ? ?. apply Hlow; lia.
  - intros x [->|Hx]%elem_of_cons ?; [|by apply Hin]. rewrite Hlow by lia. done.
  - destruct Hpre as [?|(x & Hx & ?)]; [by left|right]. exists x. split; [by right|done].
Qed.

Lemma merged_skip l b p en es l' :
  Index en = p → p ≤ b → merged l b (p + 1) es l' → merged l b p (en :: es) l'.
Proof.
  intros <- Hb (Hwf & Hb' & Hlow & Hin & Hpre & Htk). split; [done|]. split; [done|]. split; [|split; [|split; [|by apply taken_cons]]].
  - intros k ? ?. apply Hlow; lia.
  - intros x [->|Hx]%elem_of_cons ?; [lia|by apply Hin].
  - destruct Hpre as [?|(x & Hx & ?)]; [by left|right]. exists x. split; [by right|done].
Qed.

Lemma merged_splice l b p es :
  log_wf l → baseIndex l = Some b → b < p → p ≤ b + lenN l → consecutive p es → p + lenN es < u64_size →
  p = b + lenN l ∨ (∃ en, en ∈ es ∧ conflicts l b en) → merged l b p es (spliced l b p es).
Proof.
  intros Hwf Hb Hbp Hpl Hes Hr Hor. split; [by apply spliced_wf|]. split; [by apply spliced_base|].
  split; [intros; by apply spliced_below|]. split; [intros; by apply spliced_above|].
  split; [|right; by exists p, es]. destruct Hor as [->|?]; [left|by right]. unfold spliced. exists es. f_equal. apply take_ge. unfold lenN. lia.
Qed.

Section functional.
Context {D SM : Type} `{!Storage D} `{!StateMachine SM} `{!StateStoreSpec D}.
Implicit Types (n : RaftNode SM) (d : D).

Lemma last_some n : log n ≠ [] → ∃ t i, lastLogTerm (log n) = Some t ∧ lastLogIndex (log n) = Some i.
Proof.
  intros Hl. unfold lastLogTerm, lastLogIndex, lastEntry. destruct (last (log n)) as [x|] eqn:Hx; [by eexists _, _|].
  by apply last_None in Hx.
Qed.

(** A save that returned is on disk. *)
Lemma saved hs d :
  HS_CurrentTerm hs < u64_size → name_ok (HS_VotedFor hs) = true → ready d → io_res (SaveHardState hs d) = inr tt →
  ready (io_disk (SaveHardState hs d)) ∧ hard (io_disk (SaveHardState hs d)) = hs.
Proof. intros Ht Hv Hd Hr. destruct (SaveHardState_spec hs d Ht Hv Hd) as [_ H]. by apply (H tt). Qed.

(** The save of the node's hard state to [d] failed, and left the disk of [x]. *)
Definition save_fails d (x : Ctx D SM) : Prop :=
  ∃ err, io_res (SaveHardState (node_hs (rn x)) d) = inl err ∧ disk x = io_disk (SaveHardState (node_hs (rn x)) d).

(** [d1] is [d], or a save to [d] succeeded and left it. *)
Definition saved_once d d1 : Prop :=
  d1 = d ∨ ∃ hs, io_res (SaveHardState hs d) = inr tt ∧ d1 = io_disk (SaveHardState hs d).

(** The first save to [d], or the one after it, failed. *)
Definition save_failed d (x : Ctx D SM) : Prop := ∃ d1, saved_once d d1 ∧ save_fails d1 x.

(** Adopting a newer term. *)
Lemma adopt_spec n d cr o e t :
  ready d → hard d = node_hs n → t < u64_size →
  match when (currentTerm n <? t) (becomeFollowerLocked t) e (mkCtx n d cr o) with
  | Ret _ x =>
    ready (disk x) ∧ hard (disk x) = node_hs (rn x) ∧ currentTerm (rn x) = N.max (currentTerm n) t ∧
    votedFor (rn x) = (if currentTerm n <? t then None_ else votedFor n) ∧
    log (rn x) = log n ∧ commitIndex (rn x) = commitIndex n ∧ saved_once d (disk x)
  | Panic _ x => save_fails d x
  end.
Proof.
  intros Hd Hh Ht. unfold becomeFollowerLocked, persistLocked, resetElectionTimerLocked. run_m.
  destruct (currentTerm n <? t) eqn:Hlt; cbn; [rewrite Hlt; cbn; apply N.ltb_lt in Hlt|apply N.ltb_ge in Hlt; split_and!; (done || lia || by left)].
  destruct (io_res (SaveHardState _ d)) as [err|[]] eqn:Hs; cbn; [by exists err|].
  destruct (saved (mkHardState t None_) d Ht name_ok_none Hd Hs) as [? ?].
  split_and!; try (done || lia). right. by eexists.
Qed.

(** Recording a vote. *)
Lemma cast_spec n d cr o e v :
  ready d → currentTerm n < u64_size → name_ok v = true →
  match (modify (λ n, n <| votedFor := v |>) ;; persistLocked ;; resetElectionTimerLocked) e (mkCtx n d cr o) with
  | Ret _ x =>
    hard (disk x) = node_hs (rn x) ∧ currentTerm (rn x) = currentTerm n ∧ votedFor (rn x) = v ∧
    log (rn x) = log n ∧ commitIndex (rn x) = commitIndex n
  | Panic _ x => save_fails d x
  end.
Proof.
  intros Hd Ht Hv. unfold persistLocked, resetElectionTimerLocked. run_m. cbn.
  destruct (io_res (SaveHardState _ d)) as [err|[]] eqn:Hs; cbn; [by exists err|].
  by destruct (saved (mkHardState (currentTerm n) v) d Ht Hv Hd Hs) as [? ?].
Qed.

(** C20. RequestVote, in full: a running node grants its vote exactly when the
    candidate's term is not older than its own, the candidate's log is at least
    as up-to-date, and it has not voted for anyone else in that term.  The reply
    carries the term the node is in afterwards, the larger of the two; log and
    commitIndex are untouched; and a granted vote is in the stored hard state
    when the section returns.  It does not return only if a save it made, of the
    new term or of the vote, failed. *)
Theorem request_vote_spec n d e args :
  log n ≠ [] → ready d → hard d = node_hs n →
  RVA_Term args < u64_size → name_ok (RVA_CandidateID args) = true →
  match HandleRequestVote args e (mkCtx n d [] []) with
  | Ret r x =>
    RVR_VoteGranted r = grants n args ∧ RVR_Term r = currentTerm (rn x) ∧
    currentTerm (rn x) = (if stopped n then currentTerm n else N.max (currentTerm n) (RVA_Term args)) ∧
    log (rn x) = log n ∧ commitIndex (rn x) = commitIndex n ∧ hard (disk x) = node_hs (rn x) ∧
    (grants n args = true → hard (disk x) = mkHardState (RVA_Term args) (RVA_CandidateID args))
  | Panic _ x => save_failed d x
  end.
Proof.
  intros Hlog Hd Hh Ht Hc. destruct (last_some n Hlog) as (lt & li & HlT & HlI). unfold grants. rewrite HlT, HlI. change (default 0 (Some lt)) with lt. change (default 0 (Some li)) with li.
  unfold HandleRequestVote. cbv [mbind m_mbind m_bind mret m_mret m_ret get]. cbn [rn].
  destruct (stopped n); [done|].
  pose proof (adopt_spec n d [] [] e (RVA_Term args) Hd Hh Ht) as Ha.
  destruct (when _ _ e _) as [u x|w x]; [|exists d; by split; [left|]].
  destruct Ha as (Hr & Hh' & Hterm & Hvote & Hl & Hci & Honce). rewrite Hl, HlT, HlI, Hterm. cbn [index m_ret default negb andb].
  destruct (N.ltb_spec (RVA_Term args) (N.max (currentTerm n) (RVA_Term args))) as [Hold|Hnew].
  { rewrite (proj2 (N.leb_gt (currentTerm n) _)) by lia. cbn. rewrite Hterm. split_and!; (done || lia). }
  rewrite (proj2 (N.leb_le (currentTerm n) _)) by lia. cbn [andb].
  destruct (upToDate _ _ lt li); cbn [negb andb]; [|cbn; rewrite ?Hterm; split_and!; (done || lia)].
  assert (currentTerm (rn x) = RVA_Term args) as Hcur by lia.
  assert ((String.eqb (votedFor (rn x)) None_ || String.eqb (votedFor (rn x)) (RVA_CandidateID args)) =
          ((currentTerm n <? RVA_Term args) || String.eqb (votedFor n) None_ || String.eqb (votedFor n) (RVA_CandidateID args))) as ->.
  { rewrite Hvote. by destruct (currentTerm n <? RVA_Term args). }
  destruct (_ || _ || _); [|cbn; rewrite ?Hterm; split_and!; (done || lia)].
  pose proof (cast_spec (rn x) (disk x) (crash x) (out x) e (RVA_CandidateID args) Hr ltac:(lia) Hc) as Hv.
  cbv [mbind m_mbind m_bind] in Hv. destruct x as [n1 d1 cr1 o1]. cbn [rn disk crash out] in *.
  destruct (modify _ e _) as [? y|]; [|by exists d1]. destruct (persistLocked e y) as [? z|]; [|by exists d1].
  destruct (resetElectionTimerLocked e z) as [? w|]; [|by exists d1].
  destruct Hv as (Hh2 & Ht2 & Hv2 & Hl2 & Hc2).
  cbn [RVR_Term RVR_VoteGranted]. split_and!; try done; [lia|lia|congruence|congruence|]. intros _. rewrite Hh2. unfold node_hs. congruence.
Qed.

(** *** The commit rule *)

(** C22. The commit rule: on a leader, advanceCommitIndexLocked returns, changes at
    most commitIndex, and moves it to the greatest index of the leader's own
    term that a majority holds, if there is one above it: never to an entry of
    an older term, never backwards, and never short of what could be
    committed. *)
Theorem commit_rule n d e b last :
  state n = Leader → log_wf (log n) → termsUpTo (log n) (currentTerm n) →
  baseIndex (log n) = Some b → lastLogIndex (log n) = Some last → b ≤ commitIndex n →
  ∃ ci o, advanceCommitIndexLocked e (mkCtx n d [] []) = Ret tt (mkCtx (n <| commitIndex := ci |>) d [] o) ∧
    (ci = commitIndex n ∨ (commitIndex n < ci ∧ committable (log n) (currentTerm n) (peers n) (matchIndex n) ci ∧
                           o = [Signal])) ∧
    ∀ j, ci < j → j ≤ last → ¬ committable (log n) (currentTerm n) (peers n) (matchIndex n) j.
Proof.
  intros Hst Hwf Hs Hb Hl Hci. unfold advanceCommitIndexLocked. run_m. rewrite Hst, Hl. rewrite bool_decide_true by done.
  cbn [negb]. rewrite (log_wf_last _ Hwf b Hb) in Hl. injection Hl as <-. destruct (log_wf_range _ Hwf b Hb).
  destruct (commitScan_spec (log n) b (commitIndex n) (currentTerm n) (peers n) (matchIndex n) _ (b + lenN (log n) - 1)
    Hwf Hb Hs Hci ltac:(lia) eq_refl) as (r & Hr & Hspec).
  rewrite Hr. destruct r as [m|].
  - destruct Hspec as (? & ? & ? & ?). exists m, [Signal]. split; [done|]. split; [by right|done].
  - exists (commitIndex n), []. split; [by destruct n|]. split; [by left|done].
Qed.

(** *** AppendEntries *)

(** The append of [es] to [d] failed, and left the disk of [x]. *)
Definition append_fails es d (x : Ctx D SM) : Prop :=
  ∃ err, io_res (AppendEntries es d) = inl err ∧ disk x = io_disk (AppendEntries es d).

(** The truncation of [d] failed, or the append after it. *)
Definition replace_fails from es d (x : Ctx D SM) : Prop :=
  match io_res (TruncateSuffix from d) with
  | inl _ => disk x = io_disk (TruncateSuffix from d)
  | inr _ => append_fails es (io_disk (TruncateSuffix from d)) x
  end.

(** Appending the last of [es] to [d] failed, or putting them in the place of others. *)
Definition append_failed es d (x : Ctx D SM) : Prop :=
  ∃ es', es' `suffix_of` es ∧ (append_fails es' d x ∨ ∃ from, replace_fails from es' d x).

Lemma append_failed_cons en es d x : append_failed es d x → append_failed (en :: es) d x.
Proof. intros (es' & ? & ?). exists es'. split; [by apply suffix_cons_r|done]. Qed.

Lemma append_returns n d e es cr o :
  match appendLogLocked es e (mkCtx n d cr o) with
  | Ret _ x => rn x = n <| log := log n ++ es |>
  | Panic _ x => append_fails es d x
  end.
Proof.
  unfold appendLogLocked. run_m. destruct (HasLogStore (cfg n)); [|done].
  cbn [disk crash out rn]. destruct (io_res (AppendEntries es d)) as [err|] eqn:Hr; [|done]. by exists err.
Qed.

Lemma truncate_append_returns n d e from es b cr o :
  log_wf (log n) → baseIndex (log n) = Some b → b ≤ from → from ≤ b + lenN (log n) →
  match (truncateLogLocked from ;; appendLogLocked es) e (mkCtx n d cr o) with
  | Ret _ x => rn x = n <| log := spliced (log n) b from es |>
  | Panic _ x => replace_fails from es d x
  end.
Proof.
  intros Hwf Hb H1 H2.
  cbv [mbind m_mbind m_bind]. unfold truncateLogLocked, replace_fails.
  cbv [mbind m_mbind m_bind get modify must try when index m_ret]. cbn [rn].
  rewrite (truncated_in_range _ Hwf b from Hb H1 H2). destruct (HasLogStore (cfg n)) eqn:Hst; cbn [disk].
  - destruct (io_res (TruncateSuffix from d)) as [err|]; [done|]. cbn [crash out disk rn upd].
    pose proof (append_returns (n <| log := take (N.to_nat (from - b)) (log n) |>) (io_disk (TruncateSuffix from d)) e es
      (cr ++ io_mid (TruncateSuffix from d) ++ [io_disk (TruncateSuffix from d)]) o) as H.
    cbn in H |- *. destruct (appendLogLocked _ _ _); [|exact H]. rewrite H. by destruct n.
  - unfold appendLogLocked. run_m. cbn. rewrite Hst. by destruct n.
Qed.

Lemma appendWalk_spec d e es : ∀ n b p cr o,
  log_wf (log n) → baseIndex (log n) = Some b → consecutive p es → p ≤ b + lenN (log n) →
  p + lenN es < u64_size →
  match appendWalk b es e (mkCtx n d cr o) with
  | Ret _ x => rn x = n <| log := log (rn x) |> ∧ merged (log n) b p es (log (rn x))
  | Panic _ x => append_failed es d x ∨ ∃ en, en ∈ es ∧ conflicts (log n) b en ∧ Index en ≤ commitIndex n
  end.
Proof.
  induction es as [|en es IH]; intros n b p cr o Hwf Hb Hes Hp Hr.
  { cbn. split; [by destruct n|]. split; [done|]. split; [done|]. split; [done|].
    split; [by intros ? ?%elem_of_nil|]. split; by left. }
  pose proof Hes as [Hi Hes']. rewrite lenN_cons in Hr.
  assert (p + 1 ≤ b + lenN (log n) → (∀ l', merged (log n) b (p + 1) es l' → merged (log n) b p (en :: es) l') →
    match appendWalk b es e (mkCtx n d cr o) with
    | Ret _ x => rn x = n <| log := log (rn x) |> ∧ merged (log n) b p (en :: es) (log (rn x))
    | Panic _ x => append_failed (en :: es) d x ∨ ∃ x, x ∈ en :: es ∧ conflicts (log n) b x ∧ Index x ≤ commitIndex n
    end) as Hrec.
  { intros Hp' Hm. pose proof (IH n b (p + 1) cr o Hwf Hb Hes' Hp' ltac:(lia)) as H.
    destruct (appendWalk b es e _) as [u x|w x].
    - destruct H as [H1 H2]. auto.
    - destruct H as [?|(x' & ? & ?)]; [left; by apply append_failed_cons|right]. exists x'. split; [by right|done]. }
  destruct (log_wf_range _ Hwf b Hb) as [Hlen1 Hlen2]. cbn [appendWalk]. rewrite Hi.
  destruct (N.leb_spec p b) as [Hle|Hgt]; [apply Hrec; [lia|intros l'; by apply merged_skip]|].
  cbv [mbind m_mbind m_bind get index m_ret]. cbn [rn]. rewrite (log_wf_last _ Hwf b Hb).
  assert (lenN (en :: es) = lenN es + 1) as Hlen by apply lenN_cons.
  destruct (N.leb_spec p (b + lenN (log n) - 1)) as [Hin|Hout].
  - destruct (termAt_in_range _ Hwf b p Hb) as (old & _ & _ & Ht); [lia|lia|]. rewrite Ht.
    destruct (N.eqb_spec (Term old) (Term en)) as [Heq|Hne].
    { apply Hrec; [lia|]. intros l'. apply merged_cons; [done|done|congruence]. }
    assert (conflicts (log n) b en) as Hconf by (split; [lia|]; rewrite Hi; eauto).
    destruct (N.leb_spec p (commitIndex n)).
    { right. exists en. split; [by left|]. split; [done|lia]. }
    pose proof (truncate_append_returns n d e p (en :: es) b cr o Hwf Hb ltac:(lia) ltac:(lia)) as Hx.
    cbv [mbind m_mbind m_bind] in Hx. destruct (truncateLogLocked p e _) as [u y|w y]; [|left; by exists (en :: es); split; [|right; exists p]].
    destruct (appendLogLocked _ e y) as [u' x|w x]; [|left; by exists (en :: es); split; [|right; exists p]]. rewrite Hx. split; [by destruct n|].
    cbn. apply merged_splice; [done|done|lia|lia|done|lia|]. right. exists en. split; [by left|done].
  - pose proof (append_returns n d e (en :: es) cr o) as H. destruct (appendLogLocked _ e _) as [u x|w x]; [|left; by exists (en :: es); split; [|left]].
    rewrite H. split; [by destruct n|]. cbn. replace (log n ++ en :: es) with (spliced (log n) b p (en :: es)).
    + apply merged_splice; [done|done|lia|lia|done|lia|left; lia].
    + unfold spliced. f_equal. apply take_ge. unfold lenN in *. lia.
Qed.

(** C21. Merging of AppendEntries: for entries that continue a prefix of the log, the
    walk leaves the log up to them alone, ends with each of them at its index,
    and cuts nothing off unless one of them contradicts the log, so a stale or
    duplicated message never removes entries.  What is new in the log are entries
    of the message, commands included, and nothing else of the node changes.  It
    does not return only if writing them to the store failed or an entry
    contradicts a committed one. *)
Theorem append_merge n d e b p es :
  log_wf (log n) → baseIndex (log n) = Some b → consecutive p es → p ≤ b + lenN (log n) → p + lenN es < u64_size →
  match appendWalk b es e (mkCtx n d [] []) with
  | Ret _ x => rn x = n <| log := log (rn x) |> ∧ merged (log n) b p es (log (rn x))
  | Panic _ x => append_failed es d x ∨ ∃ en, en ∈ es ∧ conflicts (log n) b en ∧ Index en ≤ commitIndex n
  end.
Proof. apply appendWalk_spec. Qed.

(** *** Propose *)

(** advanceCommitIndexLocked returns, and touches commitIndex alone. *)
Lemma advance_returns n d e b cr o :
  log_wf (log n) → baseIndex (log n) = Some b → b ≤ commitIndex n →
  ∃ ci o', advanceCommitIndexLocked e (mkCtx n d cr o) = Ret tt (mkCtx (n <| commitIndex := ci |>) d cr o').
Proof.
  intros Hwf Hb Hci. unfold advanceCommitIndexLocked. run_m. destruct (log_wf_range _ Hwf b Hb).
  destruct (negb _); [exists (commitIndex n), o; by destruct n|]. rewrite (log_wf_last _ Hwf b Hb).
  destruct (commitScan_total (log n) b (commitIndex n) (currentTerm n) (peers n) (matchIndex n)
    (N.to_nat (b + lenN (log n) - 1 - commitIndex n)) (b + lenN (log n) - 1) Hwf Hb Hci ltac:(lia)) as [[m|] ->].
  - by eexists m, _.
  - exists (commitIndex n), o. by destruct n.
Qed.

(** C23. Propose, in full: on a node that is not the leader it answers ErrNotLeader
    and changes nothing; on a leader it appends the command, as an entry of the
    leader's term at the index after the last, and answers that index and term.
    It does not return only if writing that entry to the log store failed. *)
Theorem propose_spec n d e cmd b last :
  log_wf (log n) → baseIndex (log n) = Some b → lastLogIndex (log n) = Some last →
  b ≤ commitIndex n → last + 2 < u64_size →
  match Propose cmd e (mkCtx n d [] []) with
  | Ret (inl err) x => err = ErrNotLeader ∧ state n ≠ Leader ∧ x = mkCtx n d [] []
  | Ret (inr (idx, t)) x =>
    state n = Leader ∧ idx = last + 1 ∧ t = currentTerm n ∧ log (rn x) = log n ++ [mkEntry t idx cmd] ∧
    currentTerm (rn x) = currentTerm n ∧ state (rn x) = Leader
  | Panic _ x => state n = Leader ∧ append_fails [mkEntry (currentTerm n) (last + 1) cmd] d x
  end.
Proof.
  intros Hwf Hb Hl Hci Hr. unfold Propose. cbv [mbind m_mbind m_bind mret m_mret m_ret get index]. cbn [rn].
  destruct (bool_decide_reflect (state n = Leader)) as [Hlead|Hlead]; cbn [negb]; [|done]. rewrite Hl. cbn iota beta.
  rewrite u64_add_small by lia. set (en := mkEntry (currentTerm n) (last + 1) cmd).
  pose proof (append_returns n d e [en] [] []) as Ha. destruct (appendLogLocked [en] e _) as [u x|w x]; [|done].
  pose proof (log_wf_last _ Hwf b Hb) as Hl'. rewrite Hl in Hl'. injection Hl' as Hlast. destruct (log_wf_range _ Hwf b Hb).
  assert (log_wf (log n ++ [en])) as Hwf'.
  { apply (log_wf_app _ Hwf _ b Hb); [split; [simpl; lia|done]|]. change (lenN [en]) with 1. lia. }
  destruct x as [n1 d1 cr1 o1]. cbn [rn] in Ha. subst n1.
  assert (baseIndex (log n ++ [en]) = Some b) as Hb' by (by destruct (log n)).
  match goal with |- context [advanceCommitIndexLocked e (mkCtx ?n1 _ _ _)] =>
    destruct (advance_returns n1 d1 e b cr1 o1 Hwf' Hb' Hci) as (ci & o' & ->) end. done.
Qed.

(** *** The election timer *)

(** The timer was reset at [t0], to a timeout of at least the configured minimum. *)
Definition timer_reset (t0 : Z) (g : Config) (x : Ctx D SM) : Prop :=
  electionResetAt (rn x) = t0 ∧ cfg (rn x) = g ∧ (ElectionTimeoutMin g ≤ electionTimeout (rn x))%Z.

Lemma keeps_on_node {A} (I : RaftNode SM → Prop) what (op : Io D A) :
  keeps (λ x, I (rn x)) (λ _, True) (must what op).
Proof. apply hoare_must. intros x Hx. cbv zeta. by case_match. Qed.

Lemma keeps_modify (I : RaftNode SM → Prop) f :
  (∀ n, I n → I (f n)) → keeps (λ x : Ctx D SM, I (rn x)) (λ _, True) (modify f).
Proof. intros Hf. apply hoare_modify. intros x. apply Hf. Qed.

Lemma keeps_emit (I : RaftNode SM → Prop) y : keeps (λ x : Ctx D SM, I (rn x)) (λ _, True) (emit y).
Proof. by apply hoare_emit. Qed.

(** Walk through a section that keeps [I] of the node. *)
Ltac keeps_node I :=
  let Hmust := fresh "Hmust" in let Hmod := fresh "Hmod" in let Hemit := fresh "Hemit" in
  pose proof (@keeps_on_node) as Hmust; specialize (Hmust unit I);
  pose proof (keeps_modify I) as Hmod; pose proof (keeps_emit I) as Hemit;
  repeat (apply Hmust || (apply Hmod; solve [done | by intros ? (? & ? & ?)]) || apply Hemit || keeps_step).

Lemma reset_timer e x x' u :
  resetElectionTimerLocked e x = Ret u x' → timer_reset (now e) (cfg (rn x)) x'.
Proof.
  unfold resetElectionTimerLocked. run_m. intros [= _ <-]. unfold timer_reset. cbn. split; [done|]. split; [done|].
  destruct (Z.ltb_spec 0 (ElectionTimeoutMax (cfg (rn x)) - ElectionTimeoutMin (cfg (rn x)))); [|lia].
  pose proof (Z.mod_pos_bound (rnd e) (ElectionTimeoutMax (cfg (rn x)) - ElectionTimeoutMin (cfg (rn x)))). lia.
Qed.

Lemma keeps_cfg_follow g t : keeps (λ x : Ctx D SM, cfg (rn x) = g) (λ _, True) (becomeFollowerLocked t).
Proof.
  unfold becomeFollowerLocked, persistLocked, resetElectionTimerLocked. keeps_node (λ n : RaftNode SM, cfg n = g).
Qed.

Lemma follow_term t e (x x' : Ctx D SM) u :
  becomeFollowerLocked t e x = Ret u x' → currentTerm (rn x) < t → currentTerm (rn x') = t.
Proof.
  intros Hrun Hlt%N.ltb_lt. revert Hrun. unfold becomeFollowerLocked, persistLocked, resetElectionTimerLocked. run_m.
  rewrite Hlt. cbn. destruct (io_res (SaveHardState _ _)); [done|]. by intros [= _ <-].
Qed.

Lemma accept_resets e x x' u t l :
  acceptLeader t l e x = Ret u x' → timer_reset (now e) (cfg (rn x)) x'.
Proof.
  unfold acceptLeader. cbv [mbind m_mbind m_bind get].
  pose proof (keeps_cfg_follow (cfg (rn x)) t e x eq_refl) as Hk.
  destruct (when _ _ e x) as [v y|] eqn:Hw; [|done].
  assert (cfg (rn y) = cfg (rn x)) as Hy.
  { unfold when in Hw. destruct (negb _); [by rewrite Hw in Hk|]. by injection Hw as _ <-. }
  unfold modify. intros H%reset_timer. cbn in H. by rewrite Hy in H.
Qed.

Lemma keeps_timer_append t0 g args reply :
  keeps (timer_reset t0 g) (λ _, True)
    (rejection ← consistencyCheck args reply;
     match rejection with Some r => mret r | None => takeEntries args reply end).
Proof.
  set (I := λ n : RaftNode SM, electionResetAt n = t0 ∧ cfg n = g ∧ (ElectionTimeoutMin g ≤ electionTimeout n)%Z).
  change (keeps (λ x, I (rn x)) (λ _, True)
    (rejection ← consistencyCheck args reply; match rejection with Some r => mret r | None => takeEntries args reply end)).
  assert (∀ es, keeps (λ x, I (rn x)) (λ _, True) (appendLogLocked es)) as Happ.
  { intros es. unfold appendLogLocked. keeps_node I. }
  assert (∀ b es, keeps (λ x, I (rn x)) (λ _, True) (appendWalk b es)) as Hwalk.
  { intros b es. induction es as [|en es IH]; cbn [appendWalk]; unfold truncateLogLocked; keeps_node I. }
  unfold consistencyCheck, takeEntries, advanceFollowerCommit.
  keeps_node I.
Qed.

(** A heartbeat holds elections off: when a running node has handled an
    AppendEntries of a term not older than its own at time [now e], then until
    the configured minimum election timeout has passed the election ticker does
    nothing. *)
Lemma heartbeat_defers n d e e' args r x :
  stopped n = false → currentTerm n ≤ AEA_Term args →
  HandleAppendEntries args e (mkCtx n d [] []) = Ret r x →
  (now e' - now e < ElectionTimeoutMin (cfg n))%Z → electionTick e' x = Ret tt x.
Proof.
  intros Hs Hle Hrun Hnow. assert (timer_reset (now e) (cfg n) x) as (Hat & Hcfg & Hmin).
  { unfold HandleAppendEntries in Hrun. cbv [mbind m_mbind m_bind get mret m_mret m_ret] in Hrun. cbn [rn] in Hrun. rewrite Hs in Hrun.
    pose proof (keeps_cfg_follow (cfg n) (AEA_Term args) e (mkCtx n d [] []) eq_refl) as Hk.
    destruct (when _ _ e _) as [v y|] eqn:Hw; [|done].
    assert (cfg (rn y) = cfg n ∧ currentTerm (rn y) ≤ AEA_Term args) as [Hy Hty].
    { unfold when in Hw. destruct (N.ltb_spec (currentTerm n) (AEA_Term args)) as [Hlt|]; [|by injection Hw as _ <-].
      rewrite Hw in Hk. split; [done|]. by rewrite (follow_term _ _ _ _ _ Hw Hlt). }
    rewrite (proj2 (N.ltb_ge _ _) Hty) in Hrun. destruct (acceptLeader _ _ e y) as [w z|] eqn:Ha; [|done].
    apply accept_resets in Ha. rewrite Hy in Ha.
    pose proof (keeps_timer_append (now e) (cfg n) args (mkAEReply (currentTerm (rn y)) false 0 0) e z Ha) as Hz.
    cbv [mbind m_mbind m_bind mret m_mret m_ret] in Hz. by rewrite Hrun in Hz. }
  unfold electionTick. run_m. rewrite Hat.
  rewrite (proj2 (Z.leb_gt _ _)) by lia. by rewrite andb_false_r.
Qed.
End functional.
