(* ===== verification/Cluster.v ===== *)
(** * The cluster: nodes, goroutines and the network

    The nodes of package raft composed the way raftd runs them.  A step is one
    critical section of one node (every section holds the node's mutex, so it
    is atomic), a crash, or a recovery.  The network may lose, delay, reorder
    and duplicate: requests and replies are remembered forever and may be
    delivered any number of times or never.  The one exception is the code's
    own: each goroutine that collects a vote takes at most one reply, so vote
    replies are consumed through [pend], the set of such goroutines still
    waiting.  A crash can hit between two sections or inside one; then the node
    loses its memory and its disk is one of the states the section's store
    calls went through. *)

From S2P Require Import Prelude Types Effects Log Node Election Handlers Replication.

(** One critical section of a node, with the input that triggers it. *)
Inductive Action :=
  | AStart
  | AStop
  | ATick
  | ARequestVote (src : string) (args : RequestVoteArgs)
  | AVoteReply (peer : string) (term : N) (reply : RequestVoteReply)
  | ARound (term : N)
  | AConsumeTrigger
  | AAppendEntries (src : string) (args : AppendEntriesArgs)
  | AAppendReply (peer : string) (term : N) (args : AppendEntriesArgs) (reply : AppendEntriesReply)
  | ASendSnapshot (peer : string) (term : N)
  | AInstallSnapshot (src : string) (args : InstallSnapshotArgs)
  | ASnapshotReply (peer : string) (term : N) (args : InstallSnapshotArgs)
      (reply : InstallSnapshotReply)
  | AApplier
  | APropose (command : bytes).

(** What a section answers to its caller. *)
Inductive Answer :=
  | NoAnswer
  | VoteAnswer (r : RequestVoteReply)
  | AppendAnswer (r : AppendEntriesReply)
  | SnapshotAnswer (r : InstallSnapshotReply)
  | ProposeAnswer (r : string + (N * N)).

Record Proc (D SM : Type) := mkProc {
  p_node : option (RaftNode SM);
  p_disk : D
}.
Arguments mkProc {D SM}.
Arguments p_node {D SM}.
Arguments p_disk {D SM}.

Record Cluster (D SM : Type) := mkCluster {
  procs : string → Proc D SM;
  sent : list (string * Effect);
  vreplies : list (string * string * RequestVoteArgs * RequestVoteReply);
  areplies : list (string * string * AppendEntriesArgs * AppendEntriesReply);
  sreplies : list (string * string * InstallSnapshotArgs * InstallSnapshotReply);
  pend : gset (string * N * string)
}.
Arguments mkCluster {D SM}.
Arguments procs {D SM}.
Arguments sent {D SM}.
Arguments vreplies {D SM}.
Arguments areplies {D SM}.
Arguments sreplies {D SM}.
Arguments pend {D SM}.

#[export] Instance eta_Cluster D SM : Eta (Cluster D SM) := fun r =>
  {| procs := procs r; sent := sent r; vreplies := vreplies r; areplies := areplies r;
     sreplies := sreplies r; pend := pend r |}.

(** The static membership every node is started with. *)
Class Membership (members : list string) (cfgOf : string → Config) : Prop := {
  members_nodup : NoDup members;
  members_named : None_ ∉ members;
  cfg_id i : i ∈ members → CfgID (cfgOf i) = i;
  cfg_peers i : i ∈ members → CfgPeers (cfgOf i) = filter (λ p, p ≠ i) members;
  cfg_logstore i : i ∈ members → HasLogStore (cfgOf i) = true;
  cfg_snapstore i : i ∈ members → HasSnapshotStore (cfgOf i) = true
}.

Section cluster.
Context {D SM : Type} `{!Storage D} `{!StateMachine SM}.
Context (members : list string) (cfgOf : string → Config) (sm0 : SM) (d0 : string → D).
(** the sections an execution may schedule; a theorem that holds for any choice
    of it is about all executions *)
Context (allow : RaftNode SM → Action → bool).

(** main once both servers serve: an error of Start ends the process. *)
Definition mainStarts : M D SM Answer :=
  r ← Start;
  match r with inl err => panic err | inr _ => mret NoAnswer end.

(** main after a signal; the servers it stops then are gRPC's. *)
Definition mainStops : M D SM Answer := Stop ;; mret NoAnswer.

Definition runAction (act : Action) : M D SM Answer :=
  match act with
  | AStart => mainStarts
  | AStop => mainStops
  | ATick => electionTick ;; mret NoAnswer
  | ARequestVote _ args => r ← HandleRequestVote args; mret (VoteAnswer r)
  | AVoteReply _ term reply => handleRequestVoteReply term reply ;; mret NoAnswer
  | ARound term => replicationRound term ;; mret NoAnswer
  | AConsumeTrigger => consumeTrigger ;; mret NoAnswer
  | AAppendEntries _ args => r ← HandleAppendEntries args; mret (AppendAnswer r)
  | AAppendReply peer term args reply =>
    handleAppendEntriesReply peer term args reply ;; mret NoAnswer
  | ASendSnapshot peer term => sendSnapshot peer term ;; mret NoAnswer
  | AInstallSnapshot _ args => r ← HandleInstallSnapshot args; mret (SnapshotAnswer r)
  | ASnapshotReply peer term args reply =>
    handleInstallSnapshotReply peer term args reply ;; mret NoAnswer
  | AApplier => applierStep ;; mret NoAnswer
  | APropose command => r ← Propose command; mret (ProposeAnswer r)
  end.

(** A process starts (cmd/raftd/main.go): the store is opened, NewNode recovers
    from it, SetStateMachine wires a new state machine in. *)
Definition wire (n : RaftNode SM) : Io D (RaftNode SM) := λ d,
  match SetStateMachine sm0 (mkEnv 0 0) (mkCtx n d [] []) with
  | Ret _ x => mkIo [] d (inr (rn x))
  | Panic w _ => mkIo [] d (inl w)
  end.

Definition boot (c : Config) : Io D (RaftNode SM) := Open ;; n ← NewNode c; wire n.

(** When node [i], in state [n], may run a section. *)
Definition enabled (c : Cluster D SM) (i : string) (n : RaftNode SM) (act : Action) : Prop :=
  match act with
  | AStart | AStop | AConsumeTrigger | AApplier | APropose _ => True
  | ATick => started n = true
  | ARequestVote src args => (src, GoRequestVote i args) ∈ sent c
  | AVoteReply peer term reply =>
    (i, term, peer) ∈ pend c ∧
    ∃ args, RVA_Term args = term ∧ (i, peer, args, reply) ∈ vreplies c
  | ARound term => (i, GoReplication term) ∈ sent c
  | AAppendEntries src args => ∃ term, (src, GoAppendEntries i term args) ∈ sent c
  | AAppendReply peer term args reply =>
    (i, GoAppendEntries peer term args) ∈ sent c ∧ (i, peer, args, reply) ∈ areplies c
  | ASendSnapshot peer term => (i, GoSendSnapshot peer term) ∈ sent c
  | AInstallSnapshot src args => ∃ term, (src, GoInstallSnapshot i term args) ∈ sent c
  | ASnapshotReply peer term args reply =>
    (i, GoInstallSnapshot peer term args) ∈ sent c ∧ (i, peer, args, reply) ∈ sreplies c
  end.

(** The vote-collecting goroutines a section starts. *)
Definition spawned (i : string) (xs : list Effect) : gset (string * N * string) :=
  list_to_set (omap (λ x, match x with
                          | GoRequestVote p args => Some (i, RVA_Term args, p)
                          | _ => None
                          end) xs).

(** The vote-collecting goroutine a section ends. *)
Definition consumed (i : string) (act : Action) : gset (string * N * string) :=
  match act with AVoteReply peer term _ => {[ (i, term, peer) ]} | _ => ∅ end.

(** The cluster after section [act] of node [i] returned [a] in context [x]. *)
Definition deliver (c : Cluster D SM) (i : string) (act : Action) (a : Answer)
    (x : Ctx D SM) : Cluster D SM :=
  {| procs := <[i := mkProc (Some (rn x)) (disk x)]> (procs c);
     sent := sent c ++ ((λ y, (i, y)) <$> out x);
     vreplies := match act, a with
                 | ARequestVote src args, VoteAnswer r => (src, i, args, r) :: vreplies c
                 | _, _ => vreplies c
                 end;
     areplies := match act, a with
                 | AAppendEntries src args, AppendAnswer r => (src, i, args, r) :: areplies c
                 | _, _ => areplies c
                 end;
     sreplies := match act, a with
                 | AInstallSnapshot src args, SnapshotAnswer r => (src, i, args, r) :: sreplies c
                 | _, _ => sreplies c
                 end;
     pend := (pend c ∖ consumed i act) ∪ spawned i (out x) |}.

(** Node [i] is gone, leaving disk [d]; its goroutines die with it. *)
Definition down (c : Cluster D SM) (i : string) (d : D) : Cluster D SM :=
  c <| procs := <[i := mkProc None d]> (procs c) |>
    <| pend := filter (λ x, x.1.1 ≠ i) (pend c) |>.

(** The disks a crash during a section can leave. *)
Definition crashPoints {A} (r : Result D SM A) : list D :=
  match r with Ret _ x => crash x | Panic _ x => disk x :: crash x end.

Inductive step (c : Cluster D SM) : Cluster D SM → Prop :=
| step_boot i n :
    i ∈ members → p_node (procs c i) = None →
    io_res (boot (cfgOf i) (p_disk (procs c i))) = inr n →
    step c (c <| procs := <[i := mkProc (Some n) (io_disk (boot (cfgOf i) (p_disk (procs c i))))]>
                            (procs c) |>)
| step_boot_dies i d :
    i ∈ members → p_node (procs c i) = None →
    (d ∈ io_mid (boot (cfgOf i) (p_disk (procs c i))) ∨
     d = io_disk (boot (cfgOf i) (p_disk (procs c i)))) →
    step c (down c i d)
| step_act i n act e a x :
    p_node (procs c i) = Some n → enabled c i n act → allow n act = true →
    runAction act e (mkCtx n (p_disk (procs c i)) [] []) = Ret a x →
    step c (deliver c i act a x)
| step_act_dies i n act e d :
    p_node (procs c i) = Some n → enabled c i n act → allow n act = true →
    d ∈ crashPoints (runAction act e (mkCtx n (p_disk (procs c i)) [] [])) →
    step c (down c i d)
| step_crash i n :
    p_node (procs c i) = Some n →
    step c (down c i (p_disk (procs c i))).

(** Every node is down, on the disk it starts from. *)
Definition initial : Cluster D SM :=
  {| procs := λ i, mkProc None (d0 i); sent := []; vreplies := []; areplies := [];
     sreplies := []; pend := ∅ |}.

(** The term a message carries. *)
Definition effect_term (x : Effect) : N :=
  match x with
  | GoRequestVote _ args => RVA_Term args
  | GoAppendEntries _ _ args => AEA_Term args
  | GoInstallSnapshot _ _ args => ISA_Term args
  | GoSendSnapshot _ term | GoReplication term => term
  | GoElectionTicker | GoApplier | Signal => 0
  end.

(** The terms and indexes in use are below the top of the [uint64] range.  A
    term grows by one per election and an index by one per command, so an
    execution that leaves the range would outlast any deployment; [reachable]
    ranges over the executions that do not. *)
Definition in_range (c : Cluster D SM) : Prop :=
  (∀ i n, p_node (procs c i) = Some n →
     currentTerm n + 1 < u64_size ∧ default 0 (lastLogIndex (log n)) + 2 < u64_size) ∧
  (∀ x, x ∈ sent c → effect_term x.2 < u64_size) ∧
  (∀ x, x ∈ vreplies c → RVR_Term x.2 < u64_size) ∧
  (∀ x, x ∈ areplies c → AER_Term x.2 < u64_size) ∧
  (∀ x, x ∈ sreplies c → ISR_Term x.2 < u64_size).

Inductive reachable : Cluster D SM → Prop :=
| reachable_initial : reachable initial
| reachable_step c c' : reachable c → in_range c → step c c' → reachable c'.
End cluster.
Arguments mainStarts {D SM _} /.
Arguments mainStops {D SM} /.

