(* ===== verification/ElectionSafety.v ===== *)
(** * Election Safety: at most one leader per term

    The invariant behind it: a vote is a promise recorded on the voter's disk,
    a voter makes at most one promise per term, and a leader holds promises
    from a majority. *)

From S2P Require Import Prelude Types Effects Log Node Election Handlers Replication Hoare Contracts Terms Cluster.

(** ** Majorities intersect *)

Lemma nodup_intersect {A} `{EqDecision A} (q1 q2 m : list A) :
  NoDup q1 → NoDup q2 → q1 ⊆ m → q2 ⊆ m →
  (length m < length q1 + length q2)%nat → ∃ x, x ∈ q1 ∧ x ∈ q2.
Proof.
  intros H1 H2 Hs1 Hs2 Hlen.
  destruct (decide (Exists (λ x, x ∈ q2) q1)) as [Hex|Hno].
  { by apply Exists_exists in Hex. }
  exfalso. assert (NoDup (q1 ++ q2)) as Hnd.
  { apply NoDup_app. split; [done|]. split; [|done]. intros x Hx Hx2. apply Hno.
    apply Exists_exists. eauto. }
  apply (NoDup_submseteq _ m) in Hnd; [|intros x [?|?]%elem_of_app; auto].
  apply submseteq_length in Hnd. rewrite length_app in Hnd. lia.
Qed.

Lemma length_others {A} `{EqDecision A} (i : A) (m : list A) :
  NoDup m → i ∈ m → length m = S (length (filter (λ p, p ≠ i) m)).
Proof.
  induction 1 as [|x m Hx Hm IH]; intros Hi; [by apply not_elem_of_nil in Hi|].
  rewrite filter_cons. destruct (decide (x ≠ i)) as [Hne|Heq]; simpl.
  - apply elem_of_cons in Hi as [->|Hi]; [done|]. by rewrite IH.
  - assert (x = i) as -> by (by destruct (decide (x = i))).
    f_equal. symmetry. f_equal. clear IH Hi Heq. induction m as [|y m IHm]; [done|].
    rewrite filter_cons. destruct (decide (y ≠ i)); [|set_solver].
    rewrite IHm; set_solver by (by inversion Hm).
Qed.

Section election_safety.
Context {D SM : Type} `{!Storage D} `{!StateMachine SM} `{!StateStoreSpec D}.
Context (members : list string) (cfgOf : string → Config) (sm0 : SM) (d0 : string → D).
Context (allow : RaftNode SM → Action → bool).
Context `{!Membership members cfgOf} (Hnames : ∀ i, i ∈ members → name_ok i = true).

Local Abbreviation peersOf i := (filter (λ p, p ≠ i) members).
Implicit Types (c : Cluster D SM) (n : RaftNode SM).

(** Node [i] voted for itself in term [t]: it asked for votes or won. *)
Definition selfVote c (i : string) (t : N) : Prop :=
  (∃ p args, (i, GoRequestVote p args) ∈ sent c ∧ RVA_Term args = t) ∨
  (i, GoReplication t) ∈ sent c.

(** Voter [w] gave its vote of term [t] to [i]. *)
Definition grant c (w : string) (t : N) (i : string) : Prop :=
  (∃ args r, (i, w, args, r) ∈ vreplies c ∧ RVR_VoteGranted r = true ∧ RVA_Term args = t) ∨
  (w = i ∧ selfVote c i t).

Record election_inv c : Prop := {
  inv_survives i : survives (p_disk (procs c i));
  inv_up i n : p_node (procs c i) = Some n →
    i ∈ members ∧ node_id n = i ∧ peers n = peersOf i ∧
    ready (p_disk (procs c i)) ∧ hard (p_disk (procs c i)) = node_hs n;
  inv_promise w t i : grant c w t i → hs_le (mkHardState t i) (hard (p_disk (procs c w)));
  inv_unique w t i j : grant c w t i → grant c w t j → i = j;
  inv_counts i n t : p_node (procs c i) = Some n →
    ∃ Gs, NoDup Gs ∧ (∀ p, p ∈ Gs → p ∈ peersOf i ∧ ¬ (i, t, p) ∈ pend c ∧ grant c p t i) ∧
          default 0 (votes n !! t) ≤ 1 + lenN Gs;
  inv_votes_term i n t v : p_node (procs c i) = Some n → votes n !! t = Some v →
    (t ≤ currentTerm n);
  inv_pend i t p : (i, t, p) ∈ pend c → p ∈ peersOf i;
  inv_candidate i n : p_node (procs c i) = Some n → state n = Candidate →
    selfVote c i (currentTerm n);
  inv_role i n : p_node (procs c i) = Some n → state n = Leader →
    (i, GoReplication (currentTerm n)) ∈ sent c;
  inv_quorum i t : (i, GoReplication t) ∈ sent c →
    i ∈ members ∧ ∃ Q, NoDup Q ∧ Q ⊆ members ∧ quorum (peersOf i) ≤ lenN Q ∧
                       ∀ w, w ∈ Q → grant c w t i;
  inv_requests i p args : (i, GoRequestVote p args) ∈ sent c →
    i ∈ members ∧ p ∈ peersOf i ∧ RVA_CandidateID args = i;
  inv_replies i w args r : (i, w, args, r) ∈ vreplies c → (i, GoRequestVote w args) ∈ sent c
}.

Lemma member_named i : i ∈ members → i ≠ None_.
Proof. intros Hi ->. by apply (members_named (members := members) (cfgOf := cfgOf)). Qed.

Lemma grant_member c w t i : election_inv c → grant c w t i → i ∈ members.
Proof.
  intros HI [(args & r & Hr & _)|[_ [(p & args & Hp & _)|Hl]]].
  - apply (inv_replies c HI) in Hr. by apply (inv_requests c HI) in Hr as [? _].
  - by apply (inv_requests c HI) in Hp as [? _].
  - by apply (inv_quorum c HI) in Hl as [? _].
Qed.

(** Two quorums of the cluster share a voter. *)
Lemma quorums_intersect i j Q1 Q2 :
  i ∈ members → j ∈ members → NoDup Q1 → NoDup Q2 → Q1 ⊆ members → Q2 ⊆ members →
  quorum (peersOf i) ≤ lenN Q1 → quorum (peersOf j) ≤ lenN Q2 →
  ∃ w, w ∈ Q1 ∧ w ∈ Q2.
Proof.
  intros Hi Hj ? ? ? ? H1 H2. eapply nodup_intersect; try done.
  pose proof (members_nodup (members := members) (cfgOf := cfgOf)) as Hnd.
  pose proof (length_others i members Hnd Hi). pose proof (length_others j members Hnd Hj).
  unfold quorum, lenN in *.
  pose proof (N.div_mod' (N.of_nat (length (peersOf i)) + 1) 2).
  pose proof (N.mod_lt (N.of_nat (length (peersOf i)) + 1) 2 ltac:(done)).
  pose proof (N.div_mod' (N.of_nat (length (peersOf j)) + 1) 2).
  pose proof (N.mod_lt (N.of_nat (length (peersOf j)) + 1) 2 ltac:(done)).
  lia.
Qed.

Lemma election_inv_unique c i j t :
  election_inv c → (i, GoReplication t) ∈ sent c → (j, GoReplication t) ∈ sent c → i = j.
Proof.
  intros HI Hi Hj.
  destruct (inv_quorum c HI _ _ Hi) as (Hmi & Q1 & ? & ? & ? & HQ1).
  destruct (inv_quorum c HI _ _ Hj) as (Hmj & Q2 & ? & ? & ? & HQ2).
  destruct (quorums_intersect i j Q1 Q2) as (w & Hw1 & Hw2); try done.
  eapply (inv_unique c HI w t); eauto.
Qed.

(** *** What one section does to terms and votes *)

Definition section_effect n act a (x : Ctx D SM) : Prop :=
  (quiet n x ∧ ∀ src args r, act = ARequestVote src args → a = VoteAnswer r →
     RVR_VoteGranted r = true →
     hard (disk x) = mkHardState (RVA_Term args) (RVA_CandidateID args)) ∨
  (act = ATick ∧ candidacy n x) ∨
  (∃ p term r, act = AVoteReply p term r ∧ RVR_VoteGranted r = true ∧ counted n term x).

(** The terms and names a section is given can be stored. *)
Definition input_ok n act : Prop :=
  match act with
  | ATick => currentTerm n + 1 < u64_size ∧ name_ok (node_id n) = true
  | ARequestVote _ args => storable (mkHardState (RVA_Term args) (RVA_CandidateID args))
  | AVoteReply _ _ reply => RVR_Term reply < u64_size
  | AAppendEntries _ args => AEA_Term args < u64_size
  | AAppendReply _ _ _ reply => AER_Term reply < u64_size
  | AInstallSnapshot _ args => ISA_Term args < u64_size
  | ASnapshotReply _ _ _ reply => ISR_Term reply < u64_size
  | _ => True
  end.

Lemma enabled_input_ok c i n act :
  election_inv c → in_range c → p_node (procs c i) = Some n → enabled c i n act →
  input_ok n act.
Proof.
  intros HI (Hn & Hs & Hv & Ha & Hi) Hup. destruct act; simpl; try done.
  - intros _. split; [by apply (Hn i)|]. destruct (inv_up c HI i n Hup) as (? & -> & _). auto.
  - intros Hen. split; [apply (Hs _ Hen)|]. simpl.
    destruct (inv_requests c HI _ _ _ Hen) as (? & _ & ->). auto.
  - intros (_ & args & _ & Hr). apply (Hv _ Hr).
  - intros (t & Hr). apply (Hs _ Hr).
  - intros (_ & Hr). apply (Ha _ Hr).
  - intros (t & Hr). apply (Hs _ Hr).
  - intros (_ & Hr). apply (Hi _ Hr).
Qed.

Lemma runAction_effect n d act e :
  ready d → hard d = node_hs n → input_ok n act →
  match runAction act e (mkCtx n d [] []) with
  | Ret a x => section_effect n act a x
  | Panic _ x => durable n x
  end.
Proof.
  intros Hr Hh Hok.
  assert (quiet n (mkCtx n d [] [])) as Hq.
  { split; [repeat split; try done|]. split; [by right|]. done. }
  assert (∀ A (m : M D SM A) (k : A → Answer),
    keeps (quiet n) (durable n) m → (∀ src args, act ≠ ARequestVote src args) →
    match (a ← m; mret (k a)) e (mkCtx n d [] []) with
    | Ret a x => section_effect n act a x
    | Panic _ x => durable n x
    end) as Hk.
  { intros A m k Hm Hact. specialize (Hm e _ Hq). run_m.
    destruct (m e _); [|done]. left. split; [done|]. intros src args r ->. by edestruct Hact. }
  destruct act as [| | |src args|p term r|term| |src args|p term args r|p term|src args|p term args r| |cmd];
    simpl in Hok |- *.
  - pose proof (quiet_Start n e _ Hq) as Hm. run_m. destruct (Start e _) as [[err|[]] x|w x].
    + by apply quiet_durable.
    + by left.
    + done.
  - apply (Hk _ _ (λ _, NoAnswer)); [apply quiet_Stop|done].
  - pose proof (electionTick_spec n (proj1 Hok) (proj2 Hok) e _ (conj Hq (conj eq_refl eq_refl))) as Hm. run_m.
    destruct (electionTick e _); [|done]. destruct Hm as [Hm|Hm]; [by left|by right; left].
  - pose proof (HandleRequestVote_votes n args Hok e _ Hq) as Hm. run_m.
    destruct (HandleRequestVote args e _); [|done]. destruct Hm as [Hm Hg]. left.
    split; [done|]. intros src' args' r [= <- <-] [= <-]. exact Hg.
  - pose proof (handleRequestVoteReply_spec n term r Hok e _ (conj Hq (conj eq_refl eq_refl))) as Hm.
    run_m. destruct (handleRequestVoteReply term r e _); [|done].
    destruct Hm as [Hm|[? Hm]]; [by left|]. right. right. by exists p, term, r.
  - apply (Hk _ _ (λ _, NoAnswer)); [apply quiet_replicationRound|done].
  - apply (Hk _ consumeTrigger (λ _, NoAnswer)); [apply quiet_consumeTrigger|done].
  - apply (Hk _ _ AppendAnswer); [by apply quiet_HandleAppendEntries|done].
  - apply (Hk _ _ (λ _, NoAnswer)); [by apply quiet_handleAppendEntriesReply|done].
  - apply (Hk _ _ (λ _, NoAnswer)); [apply quiet_sendSnapshot|done].
  - apply (Hk _ _ SnapshotAnswer); [by apply quiet_HandleInstallSnapshot|done].
  - apply (Hk _ _ (λ _, NoAnswer)); [by apply quiet_handleInstallSnapshotReply|done].
  - apply (Hk _ _ (λ _, NoAnswer)); [apply quiet_applierStep|done].
  - apply (Hk _ _ ProposeAnswer); [apply quiet_Propose|done].
Qed.

Lemma section_effect_synced n act a x : section_effect n act a x → synced n x.
Proof. intros [[[H _] _]|[[_ [H _]]|(p & t & r & _ & _ & H & _)]]; exact H. Qed.

Lemma runAction_crash n d act e d' :
  ready d → hard d = node_hs n → input_ok n act →
  d' ∈ crashPoints (runAction act e (mkCtx n d [] [])) → kept n d'.
Proof.
  intros Hr Hh Hok Hd'. pose proof (runAction_effect n d act e Hr Hh Hok) as H.
  destruct (runAction act e _) as [a x|w x]; simpl in Hd'.
  - apply section_effect_synced in H as (_ & _ & _ & _ & H).
    by eapply Forall_forall in H.
  - destruct H as [H1 H2]. apply elem_of_cons in Hd' as [->|Hd']; [done|].
    by eapply Forall_forall in H1.
Qed.

(** *** The invariant holds initially and is kept by every step *)

(** A node's disk may be replaced by one that kept its hard state, the node
    itself gone. *)
Lemma election_inv_down c i d :
  election_inv c → survives d → hs_le (hard (p_disk (procs c i))) (hard d) →
  election_inv (down c i d).
Proof.
  intros HI Hd Hle.
  assert (∀ j n, p_node (procs (down c i d) j) = Some n →
            j ≠ i ∧ p_node (procs c j) = Some n ∧ procs (down c i d) j = procs c j) as Hup.
  { intros j n. simpl. destruct (decide (j = i)) as [->|Hne].
    - by rewrite fn_lookup_insert.
    - by rewrite fn_lookup_insert_ne. }
  split.
  - intros j. simpl. destruct (decide (j = i)) as [->|Hne].
    + by rewrite fn_lookup_insert.
    + rewrite fn_lookup_insert_ne by done. by apply inv_survives.
  - intros j n Hj. destruct (Hup _ _ Hj) as (_ & Hj' & ->). by apply (inv_up c HI).
  - intros w t j Hg. apply (inv_promise c HI) in Hg. simpl.
    destruct (decide (w = i)) as [->|Hne].
    + rewrite fn_lookup_insert. by etrans.
    + by rewrite fn_lookup_insert_ne.
  - intros w t j k. apply (inv_unique c HI).
  - intros j n t Hj. destruct (Hup _ _ Hj) as (Hne & Hj' & _).
    destruct (inv_counts c HI j n t Hj') as (Gs & ? & HG & ?). exists Gs.
    split; [done|]. split; [|done]. intros p Hp. destruct (HG p Hp) as (? & Hpend & ?).
    split; [done|]. split; [|done]. simpl. intros [_ Hin]%elem_of_filter. done.
  - intros j n t v Hj. destruct (Hup _ _ Hj) as (_ & Hj' & _). by apply (inv_votes_term c HI j).
  - intros j t p H. simpl in H. apply elem_of_filter in H as [_ H]. by eapply (inv_pend c HI).
  - intros j n Hj. destruct (Hup _ _ Hj) as (_ & Hj' & _). by apply (inv_candidate c HI).
  - intros j n Hj. destruct (Hup _ _ Hj) as (_ & Hj' & _). by apply (inv_role c HI).
  - apply (inv_quorum c HI).
  - apply (inv_requests c HI).
  - apply (inv_replies c HI).
Qed.

(** A node is read back from its disk. *)
Lemma election_inv_boot c i n d :
  election_inv c → i ∈ members → recovered (cfgOf i) (hard (p_disk (procs c i))) n →
  ready d → hard d = hard (p_disk (procs c i)) →
  election_inv (c <| procs := <[i := mkProc (Some n) d]> (procs c) |>).
Proof.
  intros HI Hi (Hid & Hp & Hst & Hv & Hhs) Hr Hh.
  assert (∀ j m, p_node (<[i := mkProc (Some n) d]> (procs c) j) = Some m →
            (j = i ∧ m = n) ∨ (j ≠ i ∧ p_node (procs c j) = Some m)) as Hup.
  { intros j m. destruct (decide (j = i)) as [->|Hne].
    - rewrite fn_lookup_insert. intros [= <-]. by left.
    - rewrite fn_lookup_insert_ne by done. by right. }
  split; simpl.
  - intros j. destruct (decide (j = i)) as [->|Hne].
    + rewrite fn_lookup_insert. by apply ready_survives.
    + rewrite fn_lookup_insert_ne by done. by apply inv_survives.
  - intros j m Hj. destruct (Hup _ _ Hj) as [[-> ->]|[Hne Hj']].
    + rewrite fn_lookup_insert. simpl. rewrite Hid, Hp, cfg_id, cfg_peers by done.
      repeat split; try done. by rewrite Hh.
    + rewrite fn_lookup_insert_ne by done. by apply (inv_up c HI).
  - intros w t j Hg. apply (inv_promise c HI) in Hg.
    destruct (decide (w = i)) as [->|Hne].
    + rewrite fn_lookup_insert. simpl. by rewrite Hh.
    + by rewrite fn_lookup_insert_ne.
  - apply (inv_unique c HI).
  - intros j m t Hj. destruct (Hup _ _ Hj) as [[-> ->]|[Hne Hj']].
    + exists []. split; [constructor|]. split; [by intros p ?%not_elem_of_nil|].
      rewrite Hv, lookup_empty. simpl. lia.
    + by apply (inv_counts c HI).
  - intros j m t v Hj. destruct (Hup _ _ Hj) as [[-> ->]|[Hne Hj']].
    + by rewrite Hv, lookup_empty.
    + by apply (inv_votes_term c HI j).
  - apply (inv_pend c HI).
  - intros j m Hj. destruct (Hup _ _ Hj) as [[-> ->]|[Hne Hj']].
    + by rewrite Hst.
    + by apply (inv_candidate c HI).
  - intros j m Hj. destruct (Hup _ _ Hj) as [[-> ->]|[Hne Hj']].
    + by rewrite Hst.
    + by apply (inv_role c HI).
  - apply (inv_quorum c HI).
  - apply (inv_requests c HI).
  - apply (inv_replies c HI).
Qed.

Lemma boot_recovers i d :
  i ∈ members → survives d →
  io_hoare (λ d', survives d' ∧ hard d' = hard d) (λ d', survives d' ∧ hard d' = hard d)
    (boot sm0 (cfgOf i))
    (λ n d', recovered (cfgOf i) (hard d) n ∧ ready d' ∧ hard d' = hard d).
Proof.
  intros Hi Hd. eapply io_hoare_bind with (R := λ _ d', survives d' ∧ hard d' = hard d).
  { intros d' [Hd' Hh]. destruct (Open_spec d' Hd') as [Hm Hf]. rewrite Hh in Hm, Hf. done. }
  intros ?. eapply io_hoare_bind; [apply NewNode_recovers; by apply cfg_logstore|].
  intros n d' (Hrec & Hr & Hh). unfold wire, SetStateMachine. run_m.
  destruct (started n); simpl.
  - split; [apply Forall_nil_2|]. split; [|done]. split; [by apply ready_survives|done].
  - split; [apply Forall_nil_2|]. split; [split; [by apply ready_survives|done]|].
    by intros m [= <-].
Qed.

(** A vote granted by a section was already granted, or it is the hard state
    that section left on the voter's disk. *)
Lemma new_grant c j n act a x w t i :
  election_inv c → p_node (procs c j) = Some n → enabled c j n act →
  section_effect n act a x → grant (deliver c j act a x) w t i →
  grant c w t i ∨ (w = j ∧ hard (disk x) = mkHardState t i).
Proof.
  intros HI Hj Hen Hx Hg.
  destruct (inv_up c HI j n Hj) as (_ & Hid & Hp & _ & _).
  assert (∀ y, (i, y) ∈ sent (deliver c j act a x) →
            (i, y) ∈ sent c ∨ (i = j ∧ y ∈ out x)) as Hsent.
  { simpl. intros y [H|H]%elem_of_app; [by left|]. right.
    apply list_elem_of_fmap in H as (y' & [= -> ->] & H). done. }
  assert (w = i → selfVote (deliver c j act a x) i t →
          grant c w t i ∨ (w = j ∧ hard (disk x) = mkHardState t i)) as Hself.
  { intros -> Hs.
    assert (selfVote c i t ∨ (i = j ∧ ∃ y, electoral y ∧ y ∈ out x ∧
              (y = GoReplication t ∨ ∃ p args, y = GoRequestVote p args ∧ RVA_Term args = t)))
      as [Hold|(-> & y & Hy & Hout & Hyt)].
    { destruct Hs as [(p & args & Hin & Ht)|Hin]; apply Hsent in Hin as [Hin|[-> Hin]].
      - left. left. eauto.
      - right. split; [done|]. eexists. split; [|split; [exact Hin|]]; [done|]. right. eauto.
      - left. by right.
      - right. split; [done|]. eexists. split; [|split; [exact Hin|]]; [done|]. by left. }
    { left. right. done. }
    destruct Hx as [[(_ & _ & _ & Ho) _]|[[-> (Hsy & HT & HV & _ & Hc)]|
                    (p & term & r & -> & _ & Hsy & Hhs & Hst & Hterm & _ & Hc)]].
    - rewrite Forall_forall in Ho. by apply Ho in Hout.
    - right. split; [done|]. destruct Hsy as (_ & _ & -> & _). unfold node_hs.
      rewrite HT, HV, Hid. f_equal.
      destruct Hc as [(_ & _ & li & lt & Ho)|(_ & _ & Ho)]; rewrite Ho in Hout.
      + apply list_elem_of_fmap in Hout as (p & -> & _).
        destruct Hyt as [|(p' & args & [= <- <-] & Ht)]; done.
      + apply list_elem_of_singleton in Hout as ->. by destruct Hyt as [[= <-]|(? & ? & ? & _)].
    - destruct Hc as [(_ & Ho)|(_ & _ & Ho)]; rewrite Ho in Hout;
        [by apply not_elem_of_nil in Hout|]. apply list_elem_of_singleton in Hout as ->.
      destruct Hyt as [[= <-]|(? & ? & ? & _)]; [|done].
      left. right. split; [done|]. rewrite <-Hterm. by apply (inv_candidate c HI j n). }
  destruct Hg as [(args & r & Hin & Hgr & Ht)|[Hw Hs]]; [|by apply Hself].
  simpl in Hin.
  destruct act as [| | |src args'| | | | | | | | | | ]; try (left; left; by eauto).
  destruct a as [|r'| | |]; try (left; left; by eauto).
  apply elem_of_cons in Hin as [[= -> -> <- <-]|Hin]; [|left; left; by eauto].
  right. split; [done|]. simpl in Hen.
  destruct (inv_requests c HI _ _ _ Hen) as (_ & _ & Hcand).
  destruct Hx as [[_ Hv]|[[? _]|(? & ? & ? & ? & _)]]; [|done|done].
  rewrite (Hv src args r eq_refl eq_refl Hgr). by rewrite Ht, Hcand.
Qed.

Lemma grant_mono c j act a x w t i : grant c w t i → grant (deliver c j act a x) w t i.
Proof.
  assert (∀ y, y ∈ sent c → y ∈ sent (deliver c j act a x)) as Hs.
  { intros y Hy. simpl. apply elem_of_app. by left. }
  intros [(args & r & Hin & ? & ?)|[? [(p & args & ? & ?)|?]]].
  - left. exists args, r. split; [|done]. simpl.
    destruct act, a; try done. by apply elem_of_cons; right.
  - right. split; [done|]. left. eauto.
  - right. split; [done|]. right. auto.
Qed.

Lemma elem_of_spawned i xs k t p :
  (k, t, p) ∈ spawned i xs →
  k = i ∧ ∃ args, GoRequestVote p args ∈ xs ∧ RVA_Term args = t.
Proof.
  unfold spawned. rewrite elem_of_list_to_set, list_elem_of_omap.
  intros (y & Hy & Heq). destruct y; simplify_eq. eauto.
Qed.

(** The vote counter never exceeds the number of votes received. *)
Lemma deliver_counts c j n act a x t :
  election_inv c → p_node (procs c j) = Some n → enabled c j n act →
  section_effect n act a x →
  ∃ Gs, NoDup Gs ∧
    (∀ p, p ∈ Gs → p ∈ peersOf j ∧ ¬ (j, t, p) ∈ pend (deliver c j act a x) ∧
                   grant (deliver c j act a x) p t j) ∧
    default 0 (votes (rn x) !! t) ≤ 1 + lenN Gs.
Proof.
  intros HI Hj Hen Hx.
  destruct (inv_counts c HI j n t Hj) as (Gs & Hnd & HG & Hle).
  (* the votes held before are still held, unless their goroutine is respawned *)
  assert ((∀ p, (j, t, p) ∉ spawned j (out x)) → ∀ p, p ∈ Gs →
    p ∈ peersOf j ∧ ¬ (j, t, p) ∈ pend (deliver c j act a x) ∧
    grant (deliver c j act a x) p t j) as Hkeep.
  { intros Hsp p Hp. destruct (HG p Hp) as (? & Hpend & Hgr). split; [done|].
    split; [|by apply grant_mono]. simpl. intros [[? _]%elem_of_difference|?]%elem_of_union;
      [done|by eapply Hsp]. }
  destruct Hx as [[(_ & _ & Hv & Ho) _]|[[-> (_ & HT & _ & Hv & Hc)]|
                  (q & term & r & -> & Hgr & _ & _ & _ & Hterm & Hv & Hc)]]; rewrite Hv.
  - exists Gs. split; [done|]. split; [|done]. apply Hkeep.
    intros p (_ & args & Hin & _)%elem_of_spawned. rewrite Forall_forall in Ho.
    by apply Ho in Hin.
  - destruct (decide (t = currentTerm n + 1)) as [->|Hne].
    { exists []. split; [constructor|]. split; [by intros p ?%not_elem_of_nil|].
      rewrite lookup_insert_eq. simpl. lia. }
    rewrite lookup_insert_ne by done.
    exists Gs. split; [done|]. split; [|done]. apply Hkeep.
    intros p (_ & args & Hin & Ht)%elem_of_spawned.
    destruct Hc as [(_ & _ & li & lt & Ho)|(_ & _ & Ho)]; rewrite Ho in Hin.
    + apply list_elem_of_fmap in Hin as (p' & [= <- ->] & _). by simpl in Ht.
    + by apply list_elem_of_singleton in Hin.
  - assert (∀ t' p, (j, t', p) ∉ spawned j (out x)) as Hsp.
    { intros t' p (_ & args & Hin & Ht)%elem_of_spawned.
      destruct Hc as [(_ & Ho)|(_ & _ & Ho)]; rewrite Ho in Hin;
        [by apply not_elem_of_nil in Hin|by apply list_elem_of_singleton in Hin]. }
    destruct (decide (t = term)) as [->|Hne].
    2: { rewrite lookup_insert_ne by done. exists Gs. split; [done|]. split; [|done].
         apply Hkeep. intros p. apply Hsp. }
    destruct Hen as [Hpend (args & Hat & Hrep)].
    exists (q :: Gs). split; [|split].
    + constructor; [|done]. intros Hq. by destruct (HG q Hq) as (_ & ? & _).
    + intros p [->|Hp]%elem_of_cons; [|by apply Hkeep].
      split; [by eapply (inv_pend c HI)|]. split.
      * simpl. intros [[_ ?]%elem_of_difference|?]%elem_of_union; [set_solver|by eapply Hsp].
      * left. exists args, r. done.
    + rewrite lookup_insert_eq. simpl. rewrite lenN_cons. lia.
Qed.

Lemma self_not_peer i : i ∉ peersOf i.
Proof. intros [? _]%list_elem_of_filter. done. Qed.

(** A leader elected by this section holds a quorum of votes. *)
Lemma deliver_quorum c j n act a x t :
  election_inv c → p_node (procs c j) = Some n → enabled c j n act →
  section_effect n act a x → GoReplication t ∈ out x →
  ∃ Q, NoDup Q ∧ Q ⊆ members ∧ quorum (peersOf j) ≤ lenN Q ∧
       ∀ w, w ∈ Q → grant (deliver c j act a x) w t j.
Proof.
  intros HI Hj Hen Hx Hout.
  destruct (inv_up c HI j n Hj) as (Hmj & Hid & Hp & _ & _).
  destruct (deliver_counts c j n act a x t HI Hj Hen Hx) as (Gs & Hnd & HG & Hle).
  exists (j :: Gs). split; [|split; [|split]].
  - constructor; [|done]. intros Hin. destruct (HG j Hin) as [H _]. by apply self_not_peer in H.
  - intros w [->|Hw]%elem_of_cons; [done|]. destruct (HG w Hw) as [H _].
    by apply list_elem_of_filter in H as [_ H].
  - rewrite lenN_cons. rewrite <-Hp.
    destruct Hx as [[(_ & _ & _ & Ho) _]|[[-> (_ & HT & _ & Hv & Hc)]|
                    (q & term & r & -> & _ & _ & _ & _ & _ & Hv & Hc)]].
    + rewrite Forall_forall in Ho. by apply Ho in Hout.
    + destruct Hc as [(_ & _ & li & lt & Ho)|(_ & Hq & Ho)]; [|lia].
      rewrite Ho in Hout. by apply list_elem_of_fmap in Hout as (? & ? & _).
    + destruct Hc as [(_ & Ho)|(_ & Hq & Ho)]; rewrite Ho in Hout;
        [by apply not_elem_of_nil in Hout|].
      apply list_elem_of_singleton in Hout as [= ->].
      rewrite Hv, lookup_insert_eq in Hle. simpl in Hle. lia.
  - intros w [->|Hw]%elem_of_cons; [|by apply HG]. right. split; [done|]. right. simpl.
    apply elem_of_app. right. by apply list_elem_of_fmap_2.
Qed.

(** What a section leaves of the invariant, clause by clause. *)
Section delivery.
Context (c : Cluster D SM) (j : string) (n : RaftNode SM) (act : Action) (a : Answer) (x : Ctx D SM).
Context (HI : election_inv c) (Hj : p_node (procs c j) = Some n) (Hen : enabled c j n act).
Context (Hx : section_effect n act a x).
Local Abbreviation c' := (deliver c j act a x).

Lemma deliver_up k m :
  p_node (procs c' k) = Some m → (k = j ∧ m = rn x) ∨ (k ≠ j ∧ p_node (procs c k) = Some m).
Proof.
  simpl. destruct (decide (k = j)) as [->|Hne].
  - rewrite fn_lookup_insert. intros [= <-]. by left.
  - rewrite fn_lookup_insert_ne by done. by right.
Qed.

Lemma deliver_sent y : y ∈ sent c → y ∈ sent c'.
Proof. intros Hy. simpl. apply elem_of_app. by left. Qed.

Lemma deliver_sends y : y ∈ out x → (j, y) ∈ sent c'.
Proof. intros Hy. simpl. apply elem_of_app. right. by apply list_elem_of_fmap_2. Qed.

Lemma deliver_from k y : (k, y) ∈ sent c' → (k, y) ∈ sent c ∨ (k = j ∧ y ∈ out x).
Proof.
  simpl. intros [H|H]%elem_of_app; [by left|]. right.
  apply list_elem_of_fmap in H as (y' & [= -> ->] & H). done.
Qed.

Lemma deliver_selfVote i t : selfVote c i t → selfVote c' i t.
Proof. intros [(p & args & H & ?)|H]; apply deliver_sent in H; [left; eauto|by right]. Qed.

(** The vote requests of a section are those of a new candidate to its peers. *)
Lemma out_requests p args :
  GoRequestVote p args ∈ out x → p ∈ peers n ∧ RVA_CandidateID args = node_id n.
Proof.
  intros Hin. destruct Hx as [[(_ & _ & _ & Ho) _]|[[_ (_ & _ & _ & _ & Hc)]|
                              (q & term & r & _ & _ & _ & _ & _ & _ & _ & Hc)]].
  - rewrite Forall_forall in Ho. by apply Ho in Hin.
  - destruct Hc as [(_ & _ & li & lt & Ho)|(_ & _ & Ho)]; rewrite Ho in Hin.
    + by apply list_elem_of_fmap in Hin as (p' & [= <- ->] & ?).
    + by apply list_elem_of_singleton in Hin.
  - destruct Hc as [(_ & Ho)|(_ & _ & Ho)]; rewrite Ho in Hin;
      [by apply not_elem_of_nil in Hin|by apply list_elem_of_singleton in Hin].
Qed.

(** The hard state on the disk only moves forward past the promises made. *)
Lemma deliver_kept t i : grant c j t i → hs_le (mkHardState t i) (hard (disk x)).
Proof.
  intros Hg. destruct (inv_up c HI j n Hj) as (_ & _ & _ & _ & Hh).
  pose proof (section_effect_synced _ _ _ _ Hx) as (_ & _ & Hh' & Hle & _).
  apply (inv_promise c HI) in Hg. rewrite Hh in Hg. rewrite Hh'. by etrans.
Qed.

Lemma deliver_promise w t i : grant c' w t i → hs_le (mkHardState t i) (hard (p_disk (procs c' w))).
Proof.
  intros Hg. destruct (new_grant _ _ _ _ _ _ _ _ _ HI Hj Hen Hx Hg) as [Hg'|[-> Heq]]; simpl.
  - destruct (decide (w = j)) as [->|Hne].
    + rewrite fn_lookup_insert. by apply deliver_kept.
    + rewrite fn_lookup_insert_ne by done. by apply (inv_promise c HI).
  - rewrite fn_lookup_insert. simpl. by rewrite Heq.
Qed.

Lemma deliver_unique w t i k : grant c' w t i → grant c' w t k → i = k.
Proof.
  assert (∀ i k, grant c j t i → hard (disk x) = mkHardState t k → k = i) as Hone.
  { intros i' k' Hg Heq. pose proof (deliver_kept _ _ Hg) as H. rewrite Heq in H.
    apply hs_le_vote in H; [done|done|]. by eapply member_named, grant_member. }
  intros Hg1 Hg2.
  destruct (new_grant _ _ _ _ _ _ _ _ _ HI Hj Hen Hx Hg1) as [Hg1'|[-> Heq1]];
  destruct (new_grant _ _ _ _ _ _ _ _ _ HI Hj Hen Hx Hg2) as [Hg2'|[Hw2 Heq2]].
  - by eapply (inv_unique c HI).
  - subst w. symmetry. by apply Hone.
  - by apply Hone.
  - rewrite Heq1 in Heq2. by injection Heq2.
Qed.

Lemma deliver_counted k m t :
  p_node (procs c' k) = Some m →
  ∃ Gs, NoDup Gs ∧ (∀ p, p ∈ Gs → p ∈ peersOf k ∧ ¬ (k, t, p) ∈ pend c' ∧ grant c' p t k) ∧
        default 0 (votes m !! t) ≤ 1 + lenN Gs.
Proof.
  intros [[-> ->]|[Hne Hk]]%deliver_up; [by eapply deliver_counts|].
  destruct (inv_counts c HI k m t Hk) as (Gs & ? & HG & ?). exists Gs.
  split; [done|]. split; [|done]. intros p Hpin. destruct (HG p Hpin) as (? & Hpend & ?).
  split; [done|]. split; [|by apply grant_mono]. simpl.
  intros [[? _]%elem_of_difference|[? _]%elem_of_spawned]%elem_of_union; done.
Qed.

Lemma deliver_votes_term k m t v :
  p_node (procs c' k) = Some m → votes m !! t = Some v → t ≤ currentTerm m.
Proof.
  intros [[-> ->]|[Hne Hk]]%deliver_up; [|by apply (inv_votes_term c HI k)].
  pose proof (section_effect_synced _ _ _ _ Hx) as (_ & _ & _ & Hle & _).
  apply hs_le_term in Hle. simpl in Hle.
  assert (votes n !! t = Some v → t ≤ currentTerm (rn x)) as Hbefore.
  { intros Hl. pose proof (inv_votes_term c HI j n t v Hj Hl). lia. }
  destruct Hx as [[(_ & _ & Hv & _) _]|[[_ (_ & HT & _ & Hv & _)]|
                  (q & term & r & _ & _ & _ & Hhs & _ & Hterm & Hv & _)]]; rewrite Hv; [done| |];
    rewrite lookup_insert; destruct (decide _); auto; intros _; lia.
Qed.

Lemma deliver_pend k t p : (k, t, p) ∈ pend c' → p ∈ peersOf k.
Proof.
  simpl. intros [[H _]%elem_of_difference|(-> & args & Hin & _)%elem_of_spawned]%elem_of_union.
  - by eapply (inv_pend c HI).
  - destruct (inv_up c HI j n Hj) as (_ & _ & Hp & _). rewrite <-Hp. by apply (out_requests p args).
Qed.

Lemma deliver_candidate k m :
  p_node (procs c' k) = Some m → state m = Candidate → selfVote c' k (currentTerm m).
Proof.
  intros [[-> ->]|[Hne Hk]]%deliver_up Hst; [|by apply deliver_selfVote, (inv_candidate c HI)].
  destruct Hx as [[(_ & Hs & _) _]|[[_ (_ & HT & _ & _ & Hc)]|
                  (q & term & r & _ & _ & _ & Hhs & Hs & Hterm & _ & Hc)]].
  - destruct Hs as [Hs|[Hs Ht]]; [congruence|]. rewrite Ht. rewrite Hst in Hs.
    by apply deliver_selfVote, (inv_candidate c HI).
  - destruct Hc as [(_ & Hq & li & lt & Ho)|(Hl & _)]; [|congruence]. left.
    destruct (peers n) as [|p ps] eqn:Hps; [by vm_compute in Hq|].
    exists p, (mkRVArgs (currentTerm n + 1) (node_id n) li lt). split; [|simpl; lia].
    apply deliver_sends. rewrite Ho. by left.
  - assert (currentTerm (rn x) = currentTerm n) as -> by (injection Hhs; auto).
    by apply deliver_selfVote, (inv_candidate c HI).
Qed.

Lemma deliver_role k m :
  p_node (procs c' k) = Some m → state m = Leader → (k, GoReplication (currentTerm m)) ∈ sent c'.
Proof.
  intros [[-> ->]|[Hne Hk]]%deliver_up Hst; [|by apply deliver_sent, (inv_role c HI)].
  destruct Hx as [[(_ & Hs & _) _]|[[_ (_ & HT & _ & _ & Hc)]|
                  (q & term & r & _ & _ & _ & Hhs & Hs & Hterm & _ & Hc)]].
  - destruct Hs as [Hs|[Hs Ht]]; [congruence|]. rewrite Ht. rewrite Hst in Hs.
    by apply deliver_sent, (inv_role c HI).
  - destruct Hc as [(Hl & _)|(_ & _ & Ho)]; [congruence|]. apply deliver_sends. rewrite Ho, HT. by left.
  - assert (currentTerm (rn x) = currentTerm n) as -> by (injection Hhs; auto).
    destruct Hc as [(Hl & _)|(_ & _ & Ho)]; [congruence|]. apply deliver_sends. rewrite Ho, Hterm. by left.
Qed.

Lemma deliver_replies k w args r :
  (k, w, args, r) ∈ vreplies c' → (k, GoRequestVote w args) ∈ sent c'.
Proof.
  intros Hin. apply deliver_sent. simpl in Hin.
  destruct act; try (by apply (inv_replies c HI) in Hin).
  destruct a; try (by apply (inv_replies c HI) in Hin).
  apply elem_of_cons in Hin as [[= -> -> -> _]|Hin]; [done|].
  by apply (inv_replies c HI) in Hin.
Qed.

Lemma election_inv_deliver : election_inv c'.
Proof.
  destruct (inv_up c HI j n Hj) as (Hmj & Hid & Hp & _ & _).
  pose proof (section_effect_synced _ _ _ _ Hx) as ((Hcfg & Hid' & Hp') & Hr' & Hh' & _).
  split; eauto using deliver_promise, deliver_unique, deliver_counted, deliver_votes_term, deliver_pend,
    deliver_candidate, deliver_role, deliver_replies.
  - intros k. simpl. destruct (decide (k = j)) as [->|Hne].
    + rewrite fn_lookup_insert. by apply ready_survives.
    + rewrite fn_lookup_insert_ne by done. by apply inv_survives.
  - intros k m [[-> ->]|[Hne Hk]]%deliver_up; simpl.
    + rewrite fn_lookup_insert. simpl. rewrite Hid', Hp'. done.
    + rewrite fn_lookup_insert_ne by done. by apply (inv_up c HI).
  - intros k t [Hin|[-> Hin]]%deliver_from.
    + destruct (inv_quorum c HI k t Hin) as (? & Q & ? & ? & ? & HQ). split; [done|].
      exists Q. repeat (split; [done|]). intros w Hw. by apply grant_mono, HQ.
    + split; [done|]. by eapply deliver_quorum.
  - intros k p args [Hin|[-> Hin]]%deliver_from; [by apply (inv_requests c HI)|].
    destruct (out_requests p args Hin) as [Hpp ->]. split; [done|]. by rewrite <-Hp.
Qed.
End delivery.

Lemma election_inv_step c c' :
  election_inv c → in_range c → step members cfgOf sm0 allow c c' → election_inv c'.
Proof.
  intros HI Hrange Hstep. destruct Hstep as [i n Hi Hd Hb|i d Hi Hd Hb|i n act e a x Hn Hen Hal Hrun
    |i n act e d Hn Hen Hal Hd|i n Hn].
  - destruct (boot_recovers i _ Hi (inv_survives c HI i) _ (conj (inv_survives c HI i) eq_refl))
      as (_ & _ & Hres). destruct (Hres n Hb) as (Hrec & Hr & Hh).
    by apply election_inv_boot.
  - destruct (boot_recovers i _ Hi (inv_survives c HI i) _ (conj (inv_survives c HI i) eq_refl))
      as (Hmid & Hfin & _).
    assert (survives d ∧ hard d = hard (p_disk (procs c i))) as [? Heq].
    { destruct Hb as [Hb| ->]; [by eapply Forall_forall in Hmid|done]. }
    apply election_inv_down; [done|done|]. by rewrite Heq.
  - destruct (inv_up c HI i n Hn) as (_ & _ & _ & Hr & Hh).
    pose proof (runAction_effect n _ act e Hr Hh
      (enabled_input_ok c i n act HI Hrange Hn Hen)) as Hx. rewrite Hrun in Hx.
    by eapply election_inv_deliver.
  - destruct (inv_up c HI i n Hn) as (_ & _ & _ & Hr & Hh).
    apply runAction_crash in Hd as [? Hle]; [|done|done|by eapply enabled_input_ok].
    apply election_inv_down; [done|done|]. by rewrite Hh.
  - apply election_inv_down; [done|by apply (inv_survives c HI)|done].
Qed.

Context (Hd0 : ∀ i, survives (d0 i)) (Hd0h : ∀ i, hard (d0 i) = zeroHardState).

Lemma election_inv_initial : election_inv (initial d0).
Proof.
  split; simpl; try done.
  - intros w t i [(args & r & H & _)|[_ [(p & args & H & _)|H]]]; by apply not_elem_of_nil in H.
  - intros w t i j [(args & r & H & _)|[_ [(p & args & H & _)|H]]]; by apply not_elem_of_nil in H.
  - intros i t H. by apply not_elem_of_nil in H.
  - intros i p args H. by apply not_elem_of_nil in H.
  - intros i w args r H. by apply not_elem_of_nil in H.
Qed.

Lemma election_inv_reachable c : reachable members cfgOf sm0 d0 allow c → election_inv c.
Proof.
  induction 1 as [|c c' _ IH Hrange Hstep].
  - apply election_inv_initial.
  - by eapply election_inv_step.
Qed.

(** C1. Election Safety: over the whole history of the cluster at most one node
    ever starts leading a given term, under message loss, duplication and
    reordering and crashes at any point, and so no two live nodes are leaders
    of the same term. *)
Theorem election_safety c :
  reachable members cfgOf sm0 d0 allow c →
  (∀ i j t, (i, GoReplication t) ∈ sent c → (j, GoReplication t) ∈ sent c → i = j) ∧
  (∀ i j n m, p_node (procs c i) = Some n → p_node (procs c j) = Some m →
     state n = Leader → state m = Leader → currentTerm n = currentTerm m → i = j).
Proof.
  intros HI%election_inv_reachable. split.
  - intros i j t. by apply election_inv_unique.
  - intros i j n m Hi Hj Hn Hm Ht.
    apply (inv_role c HI i n Hi) in Hn. apply (inv_role c HI j m Hj) in Hm.
    rewrite Ht in Hn. by eapply election_inv_unique.
Qed.
End election_safety.
