(* ===== verification/Protocol.v ===== *)
(** * The replication protocol, abstractly

    What the log replication of package raft does to the persistent state of
    the nodes, without disks, messages or volatile state: each node has a term,
    a vote, a log and a floor below which its log is known to be committed
    (the position its snapshot covers); the history variables are the log of
    the leader of every term, the votes, the acknowledgements, and the
    committed log with the quorums that committed it.

    [pstep] lists the moves; [PInv] is preserved by all of them and contains
    the three log-level properties of Raft: leader logs agree with every entry
    they carry (log matching), a prefix that a quorum committed in a term is in
    the log of every leader of a later term (leader completeness), and the
    committed log only grows.  File
    Refinement shows that the critical sections of the program are sequences of
    these moves, at every point a crash can hit. *)

From S2P Require Import Prelude Types.

(** ** Logs

    A full log is a list whose position [k] holds the entry of index [k+1]. *)

(** The term of the entry of index [k]; zero before the first entry. *)
Definition tm (L : list LogEntry) (k : nat) : N :=
  match k with O => 0 | S j => default 0 (Term <$> L !! j) end.

(** The logs carry the same entries at positions [a] to [b-1]. *)
Definition agree (a b : nat) (L L' : list LogEntry) : Prop :=
  ∀ j, (a ≤ j)%nat → (j < b)%nat → L !! j = L' !! j.

Lemma agree_refl a b L : agree a b L L.
Proof. done. Qed.
Lemma agree_sym a b L L' : agree a b L L' → agree a b L' L.
Proof. intros H j ? ?. symmetry. by apply H. Qed.
Lemma agree_trans a b L1 L2 L3 : agree a b L1 L2 → agree a b L2 L3 → agree a b L1 L3.
Proof. intros H1 H2 j ? ?. rewrite H1 by done. by apply H2. Qed.
Lemma agree_weaken a b a' b' L L' :
  agree a b L L' → (a ≤ a')%nat → (b' ≤ b)%nat → agree a' b' L L'.
Proof. intros H ? ? j ? ?. apply H; lia. Qed.
Lemma agree_join a b c L L' : agree a b L L' → agree b c L L' → agree a c L L'.
Proof. intros H1 H2 j ? ?. destruct (decide (j < b)%nat); [apply H1|apply H2]; lia. Qed.
Lemma agree_empty a b L L' : (b ≤ a)%nat → agree a b L L'.
Proof. intros ? j ? ?. lia. Qed.
Lemma agree_prefix L L' : L `prefix_of` L' → agree 0 (length L) L L'.
Proof. intros [k ->] j _ Hj. by rewrite lookup_app_l. Qed.
Lemma agree_take a b n L : (b ≤ n)%nat → agree a b (take n L) L.
Proof. intros ? j ? ?. apply lookup_take_lt. lia. Qed.
Lemma agree_len b L L' : agree 0 b L L' → (b ≤ length L)%nat → (b ≤ length L')%nat.
Proof.
  intros H Hb. destruct b as [|b]; [lia|]. assert (is_Some (L' !! b)) as Hs.
  { rewrite <-H by lia. apply lookup_lt_is_Some. lia. }
  apply lookup_lt_is_Some in Hs. lia.
Qed.
Lemma agree_tm a b L L' k :
  agree a b L L' → (a < k)%nat → (k ≤ b)%nat → tm L k = tm L' k.
Proof. intros H ? ?. destruct k as [|k]; [lia|]. simpl. by rewrite H by lia. Qed.

Lemma tm_lookup L k e : L !! k = Some e → tm L (S k) = Term e.
Proof. simpl. by intros ->. Qed.
Lemma tm_inside L k : (0 < k)%nat → (k ≤ length L)%nat →
  ∃ e, L !! (k - 1)%nat = Some e ∧ tm L k = Term e.
Proof.
  intros ? ?. destruct k as [|k]; [lia|]. simpl.
  destruct (lookup_lt_is_Some_2 L k) as [e He]; [lia|]. exists e.
  by rewrite Nat.sub_0_r, He.
Qed.

(** Logs that do not agree differ at a first position. *)
Lemma agree_dec_witness b L L' :
  (b ≤ length L)%nat → (b ≤ length L')%nat →
  agree 0 b L L' ∨ ∃ j e e', (j < b)%nat ∧ L !! j = Some e ∧ L' !! j = Some e' ∧ e ≠ e'.
Proof.
  induction b as [|b IH]; intros HL HL'; [left; by apply agree_empty|].
  destruct IH as [IH|(j & e & e' & ? & ?)]; [lia..| |right; exists j, e, e'; auto with lia].
  destruct (lookup_lt_is_Some_2 L b) as [e He]; [lia|].
  destruct (lookup_lt_is_Some_2 L' b) as [e' He']; [lia|].
  destruct (decide (e = e')) as [->|]; [left|right; exists b, e, e'; auto with lia].
  intros j ? ?. destruct (decide (j = b)) as [->|]; [congruence|]. apply IH; lia.
Qed.

Lemma agree_take_eq b L L' : agree 0 b L L' → take b L = take b L'.
Proof.
  intros Hag. apply list_eq. intros k. destruct (decide (k < b)%nat).
  - rewrite !lookup_take_lt by done. apply Hag; lia.
  - by rewrite !lookup_take_ge by lia.
Qed.

(** A search over a list or below a bound ends one way or the other. *)
Lemma list_choice {A} (P : A → Prop) (l : list A) :
  (∀ x, P x ∨ ¬ P x) → (∃ x, x ∈ l ∧ P x) ∨ (∀ x, x ∈ l → ¬ P x).
Proof.
  intros Hdec. induction l as [|x l [(y & ? & ?)|IH]].
  - right. by intros x ?%elem_of_nil.
  - left. exists y. split; [by right|done].
  - destruct (Hdec x); [left; exists x; split; [by left|done]|right].
    intros y [->|?]%elem_of_cons; auto.
Qed.

Lemma bounded_choice (P : N → Prop) (v : N) :
  (∀ t, P t ∨ ¬ P t) → (∃ t, t ≤ v ∧ P t) ∨ (∀ t, t ≤ v → ¬ P t).
Proof.
  intros Hdec. induction v as [|v [(t & ? & ?)|IH]] using N.peano_ind.
  - destruct (Hdec 0); [left; by exists 0|right; intros t Ht]. by replace t with 0 by lia.
  - left. exists t. split; [lia|done].
  - destruct (Hdec (N.succ v)); [left; by exists (N.succ v)|right; intros t Ht].
    destruct (decide (t = N.succ v)) as [->|]; [done|apply IH; lia].
Qed.

Create HintDb agree.
#[export] Hint Resolve agree_refl agree_sym agree_empty agree_prefix : agree.

(** [(lt, li)], the last term and index of a log, is at least [(u, m)]. *)
Definition upto (lt : N) (li : nat) (u : N) (m : nat) : Prop :=
  u < lt ∨ (lt = u ∧ (m ≤ li)%nat).

Lemma upto_trans a i b j c k : upto a i b j → upto b j c k → upto a i c k.
Proof. unfold upto. lia. Qed.

(** ** States and moves *)

Record PNode := mkPNode {
  pterm : N;
  pvote : string;
  pfloor : nat;
  plog : list LogEntry
}.
#[export] Instance eta_PNode : Eta PNode := fun r =>
  {| pterm := pterm r; pvote := pvote r; pfloor := pfloor r; plog := plog r |}.

(** [ll] the log of each term's leader, [lead] who leads it and [qv] the quorum
    that elected it; [st] the last (term, index) a candidate of a term stood
    with; [gr w v i]: [w] voted for [i] in [v]; [ak w u m]: [w] acknowledged
    to the leader of [u] its log up to [m]; [cl] the committed log; [certs]:
    index, term and quorum of each commit. *)
Record PState := mkPState {
  pn : string → PNode;
  ll : N → option (list LogEntry);
  lead : N → string;
  qv : N → list string;
  st : string → N → option (N * nat);
  gr : string → N → string → Prop;
  ak : string → N → nat → Prop;
  cl : list LogEntry;
  certs : list (nat * N * list string)
}.
#[export] Instance eta_PState : Eta PState := fun r =>
  {| pn := pn r; ll := ll r; lead := lead r; qv := qv r; st := st r; gr := gr r; ak := ak r;
     cl := cl r; certs := certs r |}.

(** Some commit made in a term up to [t] covers index [b]. *)
Definition certified (s : PState) (b : nat) (t : N) : Prop :=
  b = 0%nat ∨ ∃ c u Q, (c, u, Q) ∈ certs s ∧ (b ≤ c)%nat ∧ u ≤ t.

(** That prefix of [L] is committed. *)
Definition settled (s : PState) (m : nat) (L : list LogEntry) : Prop :=
  (m ≤ length (cl s))%nat ∧ agree 0 m L (cl s).

Lemma settled_below s m k L : settled s m L → (k ≤ m)%nat → settled s k L.
Proof. intros [? Hag] ?. split; [lia|]. by eapply agree_weaken. Qed.

(** A log holds that prefix of [L], and is as up-to-date as it. *)
Definition holds (l L : list LogEntry) (u : N) (m : nat) : Prop :=
  (m ≤ length L)%nat ∧ agree 0 m L l ∧ upto (tm l (length l)) (length l) u m.

Section protocol.
Context (isQ : list string → Prop).
Implicit Types (s : PState) (p : PNode).

Definition setNode s (w : string) p : PState := s <| pn := <[w := p]> (pn s) |>.

Inductive pstep s : PState → Prop :=
(** a higher term was seen *)
| p_term w t :
    pterm (pn s w) < t →
    pstep s (setNode s w ((pn s w) <| pterm := t |> <| pvote := None_ |>))
(** a candidate of the current term stands with the end of its log; only when its
    snapshot is of that term or a later one can it find that term there *)
| p_stand w :
    let v := pterm (pn s w) in
    let l := plog (pn s w) in
    st s w v = None → (ll s v = None → certified s (pfloor (pn s w)) v → tm l (length l) < v) →
    pstep s (s <| st := λ i u, if decide (i = w ∧ u = v) then Some (tm l (length l), length l)
                               else st s i u |>)
(** a vote is granted to a candidate whose log is up-to-date *)
| p_grant w i lt li :
    let v := pterm (pn s w) in
    let l := plog (pn s w) in
    i ≠ None_ → (pvote (pn s w) = None_ ∨ pvote (pn s w) = i) → st s i v = Some (lt, li) →
    upto lt li (tm l (length l)) (length l) →
    pstep s ((setNode s w ((pn s w) <| pvote := i |>))
      <| gr := λ w' v' i', gr s w' v' i' ∨ (w' = w ∧ v' = v ∧ i' = i) |>)
(** a candidate with a quorum of votes leads its term *)
| p_win i Q :
    let v := pterm (pn s i) in
    ll s v = None → isQ Q → (∀ w, w ∈ Q → gr s w v i) →
    pstep s (s <| ll := λ u, if decide (u = v) then Some (plog (pn s i)) else ll s u |>
               <| lead := λ u, if decide (u = v) then i else lead s u |>
               <| qv := λ u, if decide (u = v) then Q else qv s u |>)
(** a leader appends a command to its log *)
| p_propose i e :
    let v := pterm (pn s i) in
    let l := plog (pn s i) in
    ll s v = Some l → lead s v = i → Term e = v → Index e = N.of_nat (length l) + 1 →
    pstep s ((setNode s i ((pn s i) <| plog := l ++ [e] |>))
      <| ll := λ u, if decide (u = v) then Some (l ++ [e]) else ll s u |>
      <| ak := λ w u m, ak s w u m ∨ (w = i ∧ u = v ∧ (m ≤ S (length l))%nat) |>)
(** a follower drops what conflicts with the leader of its term *)
| p_truncate w L j e e' :
    let l := plog (pn s w) in
    ll s (pterm (pn s w)) = Some L → (pfloor (pn s w) ≤ j)%nat →
    l !! j = Some e → L !! j = Some e' → e ≠ e' → agree (pfloor (pn s w)) j l L →
    pstep s (setNode s w ((pn s w) <| plog := take j l |>))
(** ... and copies more of the leader's log *)
| p_extend w L k :
    let l := plog (pn s w) in
    ll s (pterm (pn s w)) = Some L → agree (pfloor (pn s w)) (length l) l L →
    (length l ≤ k)%nat → (k ≤ length L)%nat →
    pstep s (setNode s w ((pn s w) <| plog := l ++ drop (length l) (take k L) |>))
(** ... and acknowledges what it holds of it *)
| p_ack w L m :
    let l := plog (pn s w) in
    ll s (pterm (pn s w)) = Some L → (m ≤ length l)%nat → (m ≤ length L)%nat →
    agree (pfloor (pn s w)) m l L →
    pstep s (s <| ak := λ w' u k, ak s w' u k ∨ (w' = w ∧ u = pterm (pn s w) ∧ (k ≤ m)%nat) |>)
(** an entry of the leader's own term, held by a quorum, is committed *)
| p_commit T L k Q :
    ll s T = Some L → (0 < k)%nat → (k ≤ length L)%nat → tm L k = T → isQ Q →
    (∀ w, w ∈ Q → ak s w T k) → ¬ settled s k L →
    pstep s (s <| cl := if decide (length (cl s) < k)%nat then take k L else cl s |>
               <| certs := (k, T, Q) :: certs s |>)
(** a committed prefix is compacted *)
| p_floor w b :
    (pfloor (pn s w) ≤ b)%nat → (b ≤ length (plog (pn s w)))%nat →
    (b ≤ length (cl s))%nat → agree (pfloor (pn s w)) b (plog (pn s w)) (cl s) →
    pstep s (setNode s w ((pn s w) <| pfloor := b |>))
(** a snapshot replaces a log that is shorter than it or conflicts with it; what
    lies beyond it is dropped, or kept when a crash hits half-way.  The leader
    that sends it may have been deposed, and have learnt of the commit in a term
    that the receiver does not know of. *)
| p_rebase w b rest :
    let l := plog (pn s w) in
    is_Some (ll s (pterm (pn s w))) → lead s (pterm (pn s w)) ≠ w → (pfloor (pn s w) < b)%nat →
    (b ≤ length (cl s))%nat →
    ((length l < b)%nat ∨ tm l b ≠ tm (cl s) b) → (rest = [] ∨ rest = drop b l) →
    pstep s (setNode s w ((pn s w) <| pfloor := b |> <| plog := take b (cl s) ++ rest |>)).
End protocol.
