(* ===== verification/ProtocolSafety.v ===== *)
(** * Safety of the replication protocol

    The invariant of the abstract protocol of file Protocol and its
    preservation by every move.  The argument for leader completeness is
    [completeness]: when a quorum acknowledged an entry of its leader's term,
    any later leader was elected by a quorum that shares a member with it, and
    that member only voted for a log at least as up-to-date as its own.

    A node may sit on a snapshot that is newer than its term says, because a
    delayed goroutine of a deposed leader sent it.  Its acknowledgements and
    votes then need not mean what they usually do; the invariant says that they
    no longer matter: what was acknowledged is committed or can no longer be
    acknowledged by any quorum ([blocked]), and a candidate with such a log can
    no longer be elected by any ([hopeless]). *)

From S2P Require Import Prelude Types Protocol.

Section safety.
Context (isQ : list string → Prop).
Context (isQ_meet : ∀ Q Q', isQ Q → isQ Q' → ∃ w, w ∈ Q ∧ w ∈ Q').
Implicit Types (s : PState) (p : PNode).

(** A log: committed up to [f]; above it, every entry is of a term up to [t] and
    came from the leader of its term together with what lies between. *)
Record based s (l : list LogEntry) (f : nat) (t : N) : Prop := {
  seat_floor : (f ≤ length l)%nat;
  seat_agree : agree 0 f l (cl s);
  seat_entry k e : (f ≤ k)%nat → l !! k = Some e →
    Term e ≤ t ∧ Index e = N.of_nat k + 1 ∧
    ∃ L, ll s (Term e) = Some L ∧ agree f (S k) l L
}.

Definition seated s p : Prop := based s (plog p) (pfloor p) (pterm p).

(** A vote of [w] that counts in the election of [v]. *)
Definition counts s w v i : Prop := gr s w v i ∧ (ll s v = None ∨ w ∈ qv s v).

(** No quorum can acknowledge that prefix any more: each has a member that went on
    to elect a later leader without having done so. *)
Definition blocked s (u : N) (m : nat) : Prop :=
  ∀ Q, isQ Q → ∃ y T, y ∈ Q ∧ ¬ ak s y u m ∧ u < T ∧ is_Some (ll s T) ∧ y ∈ qv s T.

(** No quorum can elect that candidate any more. *)
Definition hopeless s (i : string) (v : N) : Prop :=
  ∀ Q, isQ Q → ∃ y T, y ∈ Q ∧ ¬ gr s y v i ∧ v < T ∧ is_Some (ll s T) ∧ y ∈ qv s T.

(** A log a candidate of [v] may win with: it rests on what was committed before. *)
Definition viable s (l : list LogEntry) (v : N) : Prop :=
  tm l (length l) < v ∧ ∃ f, certified s f v ∧ based s l f v.

Record PInv s : Prop := {
  I_seated w : seated s (pn s w);
  I_wf T L k e : ll s T = Some L → L !! k = Some e →
    Term e ≤ T ∧ Index e = N.of_nat k + 1 ∧
    ∃ L', ll s (Term e) = Some L' ∧ agree 0 (S k) L L';
  I_cl : cl s = [] ∨ ∃ u Q, (length (cl s), u, Q) ∈ certs s;
  I_cert c u Q : (c, u, Q) ∈ certs s →
    isQ Q ∧ (0 < c)%nat ∧
    ∃ L, ll s u = Some L ∧ (c ≤ length L)%nat ∧ tm L c = u ∧ agree 0 c L (cl s);
  I_cert_log c u Q w L : (c, u, Q) ∈ certs s → ll s u = Some L → w ∈ Q →
    u ≤ pterm (pn s w) ∧ holds (plog (pn s w)) L u c;
  I_cert_grant c u Q w v i lt li : (c, u, Q) ∈ certs s → w ∈ Q → counts s w v i →
    st s i v = Some (lt, li) → u < v → upto lt li u c;
  I_ack w u m : ak s w u m →
    u ≤ pterm (pn s w) ∧ ∃ L, ll s u = Some L ∧ (m ≤ length L)%nat;
  I_ack_down w u m k : ak s w u m → (k ≤ m)%nat → ak s w u k;
  I_ack_dec w u m : ak s w u m ∨ ¬ ak s w u m;
  I_ack_log w u m L : ak s w u m → ll s u = Some L → (0 < m)%nat → tm L m = u →
    settled s m L ∨ holds (plog (pn s w)) L u m ∨ blocked s u m;
  I_ack_grant w u m L v i lt li : ak s w u m → ll s u = Some L → (0 < m)%nat → tm L m = u →
    counts s w v i → st s i v = Some (lt, li) → u < v →
    settled s m L ∨ upto lt li u m ∨ blocked s u m;
  I_grant w v i : gr s w v i →
    i ≠ None_ ∧ is_Some (st s i v) ∧ v ≤ pterm (pn s w) ∧
    (pterm (pn s w) = v → pvote (pn s w) = i);
  I_grant_unique w v i j : gr s w v i → gr s w v j → i = j;
  I_stand i v lt li : st s i v = Some (lt, li) →
    v ≤ pterm (pn s i) ∧
    (pterm (pn s i) = v → ll s v = None →
     let l := plog (pn s i) in lt = tm l (length l) ∧ li = length l ∧
     (hopeless s i v ∨ viable s l v));
  I_lead v L : ll s v = Some L →
    isQ (qv s v) ∧ (∀ w, w ∈ qv s v → gr s w v (lead s v)) ∧
    ∃ lt li, st s (lead s v) v = Some (lt, li) ∧ lt < v ∧ (li ≤ length L)%nat ∧ tm L li = lt ∧
             ∀ k, (li < k)%nat → (k ≤ length L)%nat → tm L k = v;
  I_self v L k : ll s v = Some L → (0 < k)%nat → (k ≤ length L)%nat → tm L k = v →
    ak s (lead s v) v k;
  I_own v L : ll s v = Some L → pterm (pn s (lead s v)) = v → plog (pn s (lead s v)) = L
}.

(** ** Consequences of the invariant *)

Section consequences.
Context s (HI : PInv s).

Lemma leader_terms T L k : ll s T = Some L → (k ≤ length L)%nat → tm L k ≤ T.
Proof.
  intros HT Hk. destruct (decide (k = 0%nat)) as [->|]; [simpl; lia|].
  destruct (tm_inside L k) as (e & He & ->); [lia..|]. exact (proj1 (I_wf s HI T L _ e HT He)).
Qed.

(** Log matching: a leader's log agrees, up to any of its entries, with the log
    of the leader that created this entry. *)
Lemma leader_matching T L k :
  ll s T = Some L → (0 < k)%nat → (k ≤ length L)%nat →
  ∃ L', ll s (tm L k) = Some L' ∧ (k ≤ length L')%nat ∧ agree 0 k L L'.
Proof.
  intros HT Hk0 Hk. destruct (tm_inside L k) as (e & He & ->); [lia..|].
  destruct (I_wf s HI T L _ e HT He) as (_ & _ & L' & HL' & Hag). exists L'.
  replace (S (k - 1)) with k in Hag by lia. eauto using agree_len.
Qed.

Lemma leader_sorted T L j k :
  ll s T = Some L → (j ≤ k)%nat → (k ≤ length L)%nat → tm L j ≤ tm L k.
Proof.
  intros HT Hjk Hk. destruct (decide (j = 0%nat)) as [->|]; [simpl; lia|].
  destruct (leader_matching T L k HT) as (L' & HL' & Hlen & Hag); [lia..|].
  rewrite (agree_tm 0 k L L' j Hag) by lia. eapply leader_terms; eauto with lia.
Qed.

(** A log that agrees with a leader's up to its end is at least as up-to-date
    as any prefix of it. *)
Lemma leader_upto T L l m u :
  ll s T = Some L → agree 0 (length l) l L → (0 < m)%nat → (m ≤ length l)%nat → tm L m = u →
  upto (tm l (length l)) (length l) u m.
Proof.
  intros HT Hag Hm0 Hm <-. pose proof (agree_len _ _ _ Hag ltac:(done)).
  rewrite (agree_tm _ _ _ _ (length l) Hag) by lia. unfold upto.
  pose proof (leader_sorted T L m (length l) HT Hm ltac:(done)). lia.
Qed.

(** When a quorum voted, in every election after [u], only for logs that are as
    up-to-date as that prefix, every leader has it.  [P] is a way out. *)
Lemma completeness (P : Prop) u L k Q v Lv :
  ll s u = Some L → (0 < k)%nat → (k ≤ length L)%nat → tm L k = u → isQ Q →
  (∀ w v' lt li, v' ≤ v → u < v' → w ∈ Q → w ∈ qv s v' → is_Some (ll s v') →
     st s (lead s v') v' = Some (lt, li) → upto lt li u k ∨ P) →
  u < v → ll s v = Some Lv → ((k ≤ length Lv)%nat ∧ agree 0 k L Lv) ∨ P.
Proof.
  intros Hu Hk0 Hk Htm HQ. revert Lv. induction (N.lt_wf_0 v) as [v _ IH]. intros Lv Hvotes Huv Hv.
  destruct (I_lead s HI v Lv Hv) as (HQv & Hgr & lt & li & Hst & Hltv & Hli & Htmli & _).
  destruct (isQ_meet _ _ HQ HQv) as (w & Hw & Hwv).
  destruct (Hvotes w v lt li ltac:(reflexivity) Huv Hw Hwv ltac:(by eexists) Hst) as [Hup|HP]; [|by right].
  assert (0 < li)%nat by (destruct li; [|lia]; simpl in Htmli; destruct Hup; lia).
  destruct (leader_matching v Lv li Hv) as (Ll & HLl & Hlen & Hag); [lia..|].
  rewrite Htmli in HLl. destruct Hup as [Hlt|[-> Hle]].
  - destruct (IH lt Hltv Ll) as [[Hkl Hagl]|HP]; [|done|done| |by right].
    { intros w' v' lt' li' Hv'. apply Hvotes. lia. }
    left. destruct (decide (k ≤ li)%nat) as [|Hnle].
    + split; [lia|]. eapply agree_trans; [exact Hagl|]. eapply agree_weaken; [by apply agree_sym|lia..].
    + pose proof (leader_terms u L li Hu ltac:(lia)) as Hle.
      rewrite (agree_tm _ _ _ _ li Hagl), <-(agree_tm _ _ _ _ li Hag) in Hle by lia. lia.
  - left. rewrite Hu in HLl. injection HLl as <-. split; [lia|].
    eapply agree_weaken; [by apply agree_sym|lia..].
Qed.

(** Leader completeness: a committed prefix is in the log of the leader of any
    term from that of the commit on. *)
Lemma cert_complete c u Q v Lv :
  (c, u, Q) ∈ certs s → u ≤ v → ll s v = Some Lv → (c ≤ length Lv)%nat ∧ agree 0 c Lv (cl s).
Proof.
  intros Hc Huv Hv. destruct (I_cert s HI c u Q Hc) as (HQ & Hc0 & L & HL & Hlen & Htm & Hag).
  destruct (decide (u = v)) as [->|]; [by simplify_eq|].
  destruct (completeness False u L c Q v Lv HL Hc0 Hlen Htm HQ) as [[? Hag']|[]]; [|lia|done|].
  { intros w v' lt li _ Hlt Hw Hwv [L' HL'] Hst. left. eapply (I_cert_grant s HI); try done.
    split; [by apply (I_lead s HI v' L' HL')|by right]. }
  split; [done|]. eapply agree_trans; [by apply agree_sym|done].
Qed.

Lemma certified_leader b t L v :
  certified s b t → t ≤ v → ll s v = Some L → (b ≤ length L)%nat ∧ agree 0 b L (cl s).
Proof.
  intros [->|(c & u & Q & Hc & Hb & Hu)] Hv HL; [split; [lia|by apply agree_empty]|].
  destruct (cert_complete c u Q v L Hc ltac:(lia) HL). split; [lia|].
  by eapply agree_weaken.
Qed.

Lemma certified_len b t : certified s b t → (b ≤ length (cl s))%nat.
Proof.
  intros [->|(c & u & Q & Hc & Hb & Hu)]; [lia|].
  destruct (I_cert s HI c u Q Hc) as (_ & _ & L & _ & Hlen & _ & Hag).
  pose proof (agree_len _ _ _ Hag Hlen). lia.
Qed.

(** The committed log is sorted by term. *)
Lemma cl_sorted j k : (j ≤ k)%nat → (k ≤ length (cl s))%nat → tm (cl s) j ≤ tm (cl s) k.
Proof.
  intros Hjk Hk. destruct (I_cl s HI) as [Hnil|(u & Q & Hc)].
  { rewrite Hnil in *. simpl in Hk. replace k with 0%nat by lia. by replace j with 0%nat by lia. }
  destruct (I_cert s HI _ _ _ Hc) as (_ & _ & L & HL & Hlen & _ & Hag).
  destruct (decide (j = 0%nat)) as [->|]; [simpl; lia|].
  rewrite <-!(agree_tm _ _ _ _ _ Hag) by lia. eapply leader_sorted; eauto with lia.
Qed.

(** Every committed entry is covered by a commit. *)
Lemma cl_cert k e : cl s !! k = Some e → ∃ c u Q, (c, u, Q) ∈ certs s ∧ (k < c)%nat.
Proof.
  intros He%lookup_lt_Some. destruct (I_cl s HI) as [Hnil|(u & Q & Hc)]; [by rewrite Hnil in He; simpl in He; lia|].
  by exists (length (cl s)), u, Q.
Qed.

(** A committed entry carries its index, and the leader of its term has it. *)
Lemma cl_entry k e :
  cl s !! k = Some e → Index e = N.of_nat k + 1 ∧ ∃ L, ll s (Term e) = Some L ∧ L !! k = Some e.
Proof.
  intros He. destruct (cl_cert k e He) as (c & u & Q & Hc & Hk).
  destruct (I_cert s HI _ _ _ Hc) as (_ & _ & L & HL & _ & _ & Hag).
  rewrite <-Hag in He by lia. destruct (I_wf s HI u L k e HL He) as (_ & Hidx & L' & HL' & Hag').
  split; [done|]. exists L'. split; [done|]. by rewrite <-Hag' by lia.
Qed.
(** The last commit covers the whole committed log. *)
Lemma cl_covered b : (0 < b)%nat → (b ≤ length (cl s))%nat →
  ∃ u Q L, (length (cl s), u, Q) ∈ certs s ∧ ll s u = Some L ∧ agree 0 (length (cl s)) L (cl s).
Proof.
  intros ? ?. destruct (I_cl s HI) as [Hnil|(u & Q & Hc)]; [rewrite Hnil in *; simpl in *; lia|].
  destruct (I_cert s HI _ _ _ Hc) as (_ & _ & L & HL & _ & _ & Hag). by exists u, Q, L.
Qed.

Lemma settled_dec m L : settled s m L ∨ ¬ settled s m L.
Proof.
  destruct (decide (m ≤ length (cl s))%nat) as [Hm|Hm]; [|right; by intros [? _]].
  destruct (decide (take m L = take m (cl s))) as [Heq|Hne].
  - left. split; [done|]. intros j _ Hj. rewrite <-(lookup_take_lt L m j), Heq by done. by apply lookup_take_lt.
  - right. intros [_ Hag]. by apply Hne, agree_take_eq.
Qed.

(** A prefix that ends in an entry of its leader's own term is in the log of a later
    leader, or committed, or no quorum can acknowledge it any more. *)
Lemma contend u L m v Lv :
  ll s u = Some L → (0 < m)%nat → (m ≤ length L)%nat → tm L m = u → u ≤ v → ll s v = Some Lv →
  ((m ≤ length Lv)%nat ∧ agree 0 m L Lv) ∨ settled s m L ∨ blocked s u m.
Proof.
  intros Hu Hm0 Hm Htm Huv Hv.
  destruct (decide (u = v)) as [Heq|]; [rewrite Heq in Hu; simplify_eq; left; split; [done|apply agree_refl]|].
  destruct (decide ((m ≤ length Lv)%nat ∧ take m L = take m Lv)) as [[Hle Heq]|Hno].
  { left. split; [done|]. intros j _ Hj. rewrite <-(lookup_take_lt L m j), Heq by done. by apply lookup_take_lt. }
  destruct (settled_dec m L) as [?|Hns]; [by auto|]. right. right. intros Q HQ.
  destruct (list_choice (λ y, ∃ T, T ≤ v ∧ (u < T ∧ is_Some (ll s T) ∧ y ∈ qv s T ∧ ¬ ak s y u m)) Q)
    as [(y & Hy & T & _ & ? & ? & ? & ?)|Hall]; [|by exists y, T|].
  { intros y. destruct (bounded_choice (λ T, u < T ∧ is_Some (ll s T) ∧ y ∈ qv s T ∧ ¬ ak s y u m) v)
      as [?|Hnot]; [|by left|right; intros (T & HT & ?); by apply (Hnot T)].
    intros T. destruct (I_ack_dec s HI y u m); [right; tauto|].
    destruct (decide (u < T)); [|right; tauto]. destruct (decide (is_Some (ll s T))); [|right; tauto].
    destruct (decide (y ∈ qv s T)); [left; tauto|right; tauto]. }
  destruct (completeness (∃ y T, y ∈ Q ∧ ¬ ak s y u m ∧ u < T ∧ is_Some (ll s T) ∧ y ∈ qv s T) u L m Q v Lv)
    as [[Hle Hag]|?]; try done; [|lia|].
  - intros w v' lt li Hv' Hlt Hw Hwv [L' HL'] Hst. assert (ak s w u m) as Ha.
    { destruct (I_ack_dec s HI w u m) as [|Hna]; [done|]. destruct (Hall w Hw). exists v'. by rewrite HL'. }
    destruct (I_lead s HI v' L' HL') as (_ & Hgr & _).
    destruct (I_ack_grant s HI w u m L v' _ lt li Ha Hu Hm0 Htm (conj (Hgr w Hwv) (or_intror Hwv)) Hst Hlt)
      as [?|[?|Hb]]; [done|by left|right; by apply Hb].
  - destruct Hno. split; [done|by apply agree_take_eq].
Qed.

(** ... in particular a prefix that a later leader's log contradicts. *)
Lemma contradicted u L m j e e' v Lv :
  ll s u = Some L → (0 < m)%nat → (m ≤ length L)%nat → tm L m = u → u ≤ v → ll s v = Some Lv → (j < m)%nat →
  L !! j = Some e → Lv !! j = Some e' → e ≠ e' → settled s m L ∨ blocked s u m.
Proof.
  intros Hu Hm0 Hm Htm Huv Hv Hj He He' Hne.
  destruct (contend u L m v Lv Hu Hm0 Hm Htm Huv Hv) as [[_ Hag]|?]; [|done].
  rewrite Hag in He by lia. congruence.
Qed.

(** ... or the committed log. *)
Lemma diverged u L m j e e' :
  ll s u = Some L → (0 < m)%nat → (m ≤ length L)%nat → tm L m = u → (j < m)%nat →
  L !! j = Some e → cl s !! j = Some e' → e ≠ e' → blocked s u m.
Proof.
  intros Hu Hm0 Hm Htm Hj He He' Hne. pose proof (lookup_lt_Some _ _ _ He') as Hlen.
  destruct (cl_covered (S j)) as (v & Q & Lv & Hc & Hv & Hag); [lia..|].
  assert (u ≤ v) as Huv.
  { destruct (decide (v ≤ u)) as [Hle|]; [exfalso|lia].
    destruct (cert_complete _ v Q u L Hc Hle Hu) as [_ Hag']. rewrite Hag' in He by lia. congruence. }
  destruct (contend u L m v Lv Hu Hm0 Hm Htm Huv Hv) as [[_ Hag']|[[_ Hag']|?]]; [| |done]; exfalso.
  - rewrite Hag', Hag in He by lia. congruence.
  - rewrite Hag' in He by lia. congruence.
Qed.
End consequences.

(** ** Histories only grow *)

Definition evolves s s' : Prop :=
  (∀ T L, ll s T = Some L → ∃ L', ll s' T = Some L' ∧ agree 0 (length L) L L') ∧
  agree 0 (length (cl s)) (cl s) (cl s') ∧ (∀ x, x ∈ certs s → x ∈ certs s').

Lemma certified_below s b b' t : certified s b t → (b' ≤ b)%nat → certified s b' t.
Proof.
  intros [->|(c & u & Q & HQ & ? & ?)] ?; [left; lia|]. right. exists c, u, Q. auto with lia.
Qed.

Lemma certified_mono s s' b t t' :
  evolves s s' → t ≤ t' → certified s b t → certified s' b t'.
Proof.
  intros (_ & _ & Hc) Ht [->|(c & u & Q & HQ & ? & ?)]; [by left|]. right.
  exists c, u, Q. repeat split; [auto|lia..].
Qed.

Lemma settled_mono s s' m L L' :
  evolves s s' → agree 0 m L L' → settled s m L → settled s' m L'.
Proof.
  intros (_ & Hcl & _) HL [Hm Hag]. assert (agree 0 m L' (cl s')) as Hag'.
  { eapply agree_trans; [apply agree_sym, HL|]. eapply agree_trans; [exact Hag|]. by eapply agree_weaken. }
  split; [|done]. pose proof (agree_len _ _ _ Hcl ltac:(done)). lia.
Qed.

Lemma based_mono s s' l f t : evolves s s' → based s l f t → based s' l f t.
Proof.
  intros (Hll & Hcl & _) [Hf Ha He]. pose proof (agree_len _ _ _ Ha Hf) as Hlen. split; [done| |].
  - eapply agree_trans; [exact Ha|]. by eapply agree_weaken.
  - intros k e Hk Hke. destruct (He k e Hk Hke) as (? & ? & L & HL & Hag).
    split; [done|]. split; [done|]. destruct (Hll _ _ HL) as (L' & HL' & HagL).
    exists L'. split; [done|]. rewrite Hag in Hke by lia. apply lookup_lt_Some in Hke.
    eapply agree_trans; [exact Hag|]. eapply agree_weaken; [exact HagL|lia..].
Qed.

Lemma viable_mono s s' l v : evolves s s' → viable s l v → viable s' l v.
Proof.
  intros Hev (Hlt & f & Hc & Hb). split; [done|]. exists f. split; [|by eapply based_mono].
  by eapply certified_mono.
Qed.

Lemma based_above s l f t t' : based s l f t → t ≤ t' → based s l f t'.
Proof.
  intros [? ? He] Ht. split; [done|done|]. intros k e Hk Hke. destruct (He k e Hk Hke) as (? & ?). split; [lia|done].
Qed.

(** Leaders and the quorums that elected them stay. *)
Definition elected_kept s s' : Prop :=
  ∀ T, is_Some (ll s T) → is_Some (ll s' T) ∧ qv s' T = qv s T.

(** A node past a term neither acknowledges nor votes in it. *)
Lemma elector_past s T y : PInv s → is_Some (ll s T) → y ∈ qv s T → T ≤ pterm (pn s y).
Proof.
  intros HI [L HL] Hy. destruct (I_lead s HI T L HL) as (_ & Hgr & _).
  by destruct (I_grant s HI _ _ _ (Hgr y Hy)) as (_ & _ & ? & _).
Qed.

Lemma blocked_mono s s' u m :
  PInv s → elected_kept s s' → (∀ y, ak s' y u m → ak s y u m ∨ pterm (pn s y) = u) →
  blocked s u m → blocked s' u m.
Proof.
  intros HI Hel Hak Hb Q HQ. destruct (Hb Q HQ) as (y & T & Hy & Hna & HT & HL & Hq).
  destruct (Hel T HL) as [? Hqv]. exists y, T. rewrite Hqv. split; [done|]. split; [|done].
  intros [?|Heq]%Hak; [done|]. pose proof (elector_past s T y HI HL Hq). lia.
Qed.

Lemma hopeless_mono s s' i v :
  PInv s → elected_kept s s' → (∀ y, gr s' y v i → gr s y v i ∨ pterm (pn s y) = v) →
  hopeless s i v → hopeless s' i v.
Proof.
  intros HI Hel Hgr Hh Q HQ. destruct (Hh Q HQ) as (y & T & Hy & Hna & HT & HL & Hq).
  destruct (Hel T HL) as [? Hqv]. exists y, T. rewrite Hqv. split; [done|]. split; [|done].
  intros [?|Heq]%Hgr; [done|]. pose proof (elector_past s T y HI HL Hq). lia.
Qed.

(** ** Moves of one node that leave the histories alone *)

Lemma setNode_eq s w p : pn (setNode s w p) w = p.
Proof. apply fn_lookup_insert. Qed.
Lemma setNode_ne s w p w' : w' ≠ w → pn (setNode s w p) w' = pn s w'.
Proof. intros. by apply fn_lookup_insert_ne. Qed.

Lemma setNode_term s w p w' :
  pterm (pn s w) ≤ pterm p → pterm (pn s w') ≤ pterm (pn (setNode s w p) w').
Proof. destruct (decide (w' = w)) as [->|]; [by rewrite setNode_eq|by rewrite setNode_ne]. Qed.

Lemma setNode_evolves s w p : evolves s (setNode s w p).
Proof. split; [|split]; simpl; eauto with agree. Qed.

(** The log [l'] keeps whatever [l] held of a leader's log in a term up to [t],
    unless it is committed anyway or can never be. *)
Definition retains s l l' t : Prop :=
  ∀ u L m, ll s u = Some L → (0 < m)%nat → tm L m = u → u ≤ t → holds l L u m →
    settled s m L ∨ holds l' L u m ∨ blocked s u m.

(** ... and what the quorum of a commit holds is never given up. *)
Definition retains_certs s l l' t : Prop :=
  ∀ c u Q L, (c, u, Q) ∈ certs s → ll s u = Some L → u ≤ t → holds l L u c → holds l' L u c.

Lemma retains_same s l t : retains s l l t.
Proof. intros u L m ? ? ? ? ?. by right; left. Qed.
Lemma retains_certs_same s l t : retains_certs s l l t.
Proof. by intros c u Q L ? ? ?. Qed.

Lemma local_inv s w p' :
  let p := pn s w in
  PInv s → pterm p ≤ pterm p' → (pterm p' = pterm p → pvote p' = pvote p) → seated s p' →
  retains s (plog p) (plog p') (pterm p) →
  retains_certs s (plog p) (plog p') (pterm p) →
  (pterm p' = pterm p → plog p' = plog p ∨ is_Some (ll s (pterm p'))) →
  (pterm p' = pterm p → lead s (pterm p) = w → ll s (pterm p) = Some (plog p) → plog p' = plog p) →
  PInv (setNode s w p').
Proof.
  intros p HI Ht Hv Hseat Hret Hcert Hlog Hown. pose proof (setNode_evolves s w p') as Hev.
  split.
  - intros w'. unfold seated. destruct (decide (w' = w)) as [->|].
    + rewrite setNode_eq. exact (based_mono _ _ _ _ _ (setNode_evolves s w p') Hseat).
    + rewrite setNode_ne by done. apply (based_mono s); [apply setNode_evolves|by apply I_seated].
  - apply (I_wf s HI).
  - apply (I_cl s HI).
  - apply (I_cert s HI).
  - intros c u Q w' L Hc HL Hw'. destruct (I_cert_log s HI c u Q w' L Hc HL Hw') as [Hu Hh].
    destruct (decide (w' = w)) as [->|]; [|by rewrite setNode_ne].
    rewrite setNode_eq. fold p in Hu, Hh. split; [lia|]. by eapply Hcert.
  - apply (I_cert_grant s HI).
  - intros w' u m Ha. destruct (I_ack s HI w' u m Ha) as [? ?]. split; [|done].
    destruct (decide (w' = w)) as [->|]; [rewrite setNode_eq; fold p in H|rewrite setNode_ne by done]; lia.
  - apply (I_ack_down s HI).
  - apply (I_ack_dec s HI).
  - intros w' u m L Ha HL Hm Htm. destruct (I_ack s HI w' u m Ha) as [Hu _].
    destruct (I_ack_log s HI w' u m L Ha HL Hm Htm) as [?|[Hh|Ho]]; [by left| |by right; right].
    destruct (decide (w' = w)) as [->|]; [rewrite setNode_eq; by apply Hret|].
    rewrite setNode_ne by done. by right; left.
  - apply (I_ack_grant s HI).
  - intros w' v i Hg. destruct (I_grant s HI w' v i Hg) as (? & ? & Hle & Hvo).
    split; [done|]. split; [done|].
    destruct (decide (w' = w)) as [->|]; [rewrite setNode_eq|by rewrite setNode_ne].
    fold p in Hle, Hvo. split; [lia|]. intros Heq. rewrite Hv by lia. apply Hvo. lia.
  - apply (I_grant_unique s HI).
  - intros i v lt li Hst. destruct (I_stand s HI i v lt li Hst) as (Hle & Hlast).
    destruct (decide (i = w)) as [->|].
    2: { rewrite setNode_ne by done. split; [done|]. intros Heq Hnone.
         destruct (Hlast Heq Hnone) as (? & ? & [?|?]); eauto 6 using viable_mono. }
    rewrite setNode_eq. fold p in Hle, Hlast. split; [lia|]. intros Heq Hnone. simpl in Hnone.
    destruct (Hlog ltac:(lia)) as [->|[L HL]]; [|rewrite Heq in HL; congruence].
    destruct Hlast as (? & ? & [?|?]); [lia|done|by auto|]. eauto 6 using viable_mono.
  - apply (I_lead s HI).
  - apply (I_self s HI).
  - intros v L HL Hvt. simpl in HL, Hvt. change (lead (setNode s w p') v) with (lead s v).
    destruct (decide (lead s v = w)) as [Hw|Hw]; [|rewrite setNode_ne by done; simpl; apply (I_own s HI v L HL);
      by rewrite fn_lookup_insert_ne in Hvt by done].
    rewrite Hw, fn_lookup_insert in Hvt. rewrite Hw, setNode_eq.
    assert (pterm p = v) as Hpv.
    { destruct (I_lead s HI v L HL) as (_ & _ & lt & li & Hst & _). rewrite Hw in Hst.
      destruct (I_stand s HI w v lt li Hst) as [Hle _]. fold p in Hle. lia. }
    assert (plog p = L) as Hpl by (subst p; rewrite <-Hw in Hpv |- *; by apply (I_own s HI v)).
    rewrite <-Hpl. apply Hown; congruence.
Qed.

Section local.
Context s (w : string) (HI : PInv s).
Local Abbreviation p := (pn s w).
Local Abbreviation l := (plog (pn s w)).

Lemma inv_term t :
  pterm p < t → PInv (setNode s w (p <| pterm := t |> <| pvote := None_ |>)).
Proof.
  intros Ht. apply local_inv; simpl; auto using retains_same, retains_certs_same; try lia.
  eapply based_above; [by apply I_seated|]. simpl. lia.
Qed.

(** A log that agrees with its term's leader above the floor is as up-to-date as
    any of its prefixes that this leader has as well. *)
Lemma tail_upto L l' u Lu m :
  ll s (pterm p) = Some L → (pfloor p ≤ length l')%nat → agree 0 (pfloor p) l' (cl s) →
  agree (pfloor p) (length l') l' L →
  (0 < m)%nat → (m ≤ length l')%nat → tm Lu m = u → agree 0 m Lu l' →
  ((pfloor p < length l')%nat → (length l' ≤ length L)%nat ∧ agree 0 m Lu L) →
  upto (tm l' (length l')) (length l') u m.
Proof.
  intros HL Hf Hlow Hag Hm0 Hm Htm Hagm Hin. unfold upto.
  destruct (decide (pfloor p = length l')) as [Heq|Hne].
  - pose proof (seat_floor _ _ _ _ (I_seated s HI w)) as Hfl.
    pose proof (agree_len _ _ _ (seat_agree _ _ _ _ (I_seated s HI w)) Hfl) as Hlen.
    rewrite (agree_tm _ _ _ _ m Hagm), (agree_tm _ _ _ _ m Hlow) in Htm by lia.
    rewrite (agree_tm _ _ _ _ (length l') Hlow) by lia. pose proof (cl_sorted s HI m (length l')). lia.
  - destruct Hin as [HlL HagL]; [lia|]. rewrite (agree_tm _ _ _ _ (length l') Hag) by lia.
    rewrite (agree_tm _ _ _ _ m HagL) in Htm by lia.
    pose proof (leader_sorted s HI _ L m (length l') HL ltac:(lia) ltac:(lia)). lia.
Qed.

Section follow.
Context (L l' : list LogEntry) (HL : ll s (pterm p) = Some L) (Hf : (pfloor p ≤ length l')%nat).
Context (Hlow : agree 0 (pfloor p) l' (cl s)) (Hag : agree (pfloor p) (length l') l' L).
Context (HlL : (pfloor p < length l')%nat → (length l' ≤ length L)%nat).

(** A log that follows its term's leader above the floor. *)
Lemma seated_leader : based s l' (pfloor p) (pterm p).
Proof.
  split; [done|done|]. intros j e Hj Hje. pose proof (lookup_lt_Some _ _ _ Hje).
  rewrite Hag in Hje by lia. destruct (I_wf s HI _ L j e HL Hje) as (Ht & Hi & L' & HL' & HagL).
  split; [done|]. split; [done|]. exists L'. split; [done|].
  eapply agree_trans; (eapply agree_weaken; [eassumption|lia..]).
Qed.

(** ... still holds whatever of the old log it has kept. *)
Lemma follow_retains u Lu m :
  ll s u = Some Lu → (0 < m)%nat → (m ≤ length Lu)%nat → tm Lu m = u → u ≤ pterm p →
  agree 0 m Lu l' → settled s m Lu ∨ holds l' Lu u m ∨ blocked s u m.
Proof.
  intros HLu Hm0 Hm Htm Hu Hagm.
  destruct (contend s HI u Lu m (pterm p) L HLu Hm0 Hm Htm Hu HL) as [[_ HagL]|[?|?]]; auto.
  right. left. split; [done|]. split; [done|]. eapply tail_upto; eauto using agree_len.
Qed.

Lemma follow_certs c u Q Lu :
  (c, u, Q) ∈ certs s → ll s u = Some Lu → u ≤ pterm p → agree 0 c Lu l' → holds l' Lu u c.
Proof.
  intros Hc HLu Hu Hagm. destruct (I_cert s HI c u Q Hc) as (_ & Hc0 & L1 & HL1 & Hlen & Htm & Hagc).
  simplify_eq. destruct (cert_complete s HI c _ Q _ L Hc Hu HL) as [_ HagL].
  split; [done|]. split; [done|]. eapply tail_upto; eauto using agree_len.
  intros ?. split; [auto|]. eapply agree_trans; [exact Hagc|by apply agree_sym].
Qed.
End follow.

Lemma inv_extend L k :
  ll s (pterm p) = Some L → agree (pfloor p) (length l) l L →
  (length l ≤ k)%nat → (k ≤ length L)%nat →
  PInv (setNode s w (p <| plog := l ++ drop (length l) (take k L) |>)).
Proof.
  intros HL Hag Hlk Hk. destruct (I_seated s HI w) as [Hf Ha _]. set (l' := l ++ _).
  assert (length l' = k) as Hlen by (unfold l'; rewrite length_app, length_drop, length_take; lia).
  assert (agree 0 (length l) l l') as Hl by apply agree_prefix, prefix_app_r, reflexivity.
  assert (agree (pfloor p) (length l') l' L) as Hag'.
  { rewrite Hlen. intros j Hj Hjk. destruct (decide (j < length l)%nat); [rewrite <-Hl, Hag by lia; done|].
    unfold l'. rewrite lookup_app_r, lookup_drop, lookup_take_lt by lia. f_equal. lia. }
  assert (agree 0 (pfloor p) l' (cl s)) as Hlow.
  { eapply agree_trans; [apply agree_sym; eapply agree_weaken; [exact Hl|lia..]|done]. }
  assert (∀ u Lu m, holds l Lu u m → agree 0 m Lu l') as Hkeep.
  { intros u Lu m (Hm & Hagm & _). eapply agree_trans; [exact Hagm|].
    eapply agree_weaken; [exact Hl|lia|]. by eapply agree_len. }
  assert (pfloor p ≤ length l')%nat as Hf' by lia. assert (length l' ≤ length L)%nat as HlL by lia.
  apply local_inv; simpl; try done; [|intros u Lu m ? ? ? ? Hh|intros c u Q Lu ? ? ? Hh|by right|].
  - by apply (seated_leader L).
  - eapply (follow_retains L); eauto. apply Hh.
  - eapply (follow_certs L); eauto.
  - intros _ _ HLl. simplify_eq. unfold l'. rewrite drop_ge by (rewrite length_take; lia). apply app_nil_r.
Qed.

Lemma inv_truncate L j e e' :
  ll s (pterm p) = Some L → (pfloor p ≤ j)%nat → l !! j = Some e → L !! j = Some e' → e ≠ e' →
  agree (pfloor p) j l L → PInv (setNode s w (p <| plog := take j l |>)).
Proof.
  intros HL Hf He He' Hne Hag. destruct (I_seated s HI w) as [_ Ha _].
  pose proof (lookup_lt_Some _ _ _ He). pose proof (lookup_lt_Some _ _ _ He').
  assert (length (take j l) = j) as Hlen by (rewrite length_take; lia).
  assert (agree 0 j l (take j l)) as Hl by (by apply agree_sym, agree_take).
  assert (agree (pfloor p) (length (take j l)) (take j l) L) as Hag'.
  { rewrite Hlen. eapply agree_trans; [by apply agree_take|done]. }
  assert (agree 0 (pfloor p) (take j l) (cl s)) as Hlow.
  { eapply agree_trans; [by apply agree_take|done]. }
  assert (pfloor p ≤ length (take j l))%nat as Hf' by lia.
  assert (length (take j l) ≤ length L)%nat as HlL by lia.
  apply local_inv; simpl; try done;
    [|intros u Lu m ? Hm0 ? ? (Hm & Hagm & _)|intros c u Q Lu Hc HLu Hu (Hm & Hagm & _)|by right|].
  - by apply (seated_leader L).
  - destruct (decide (m ≤ j)%nat) as [Hmj|Hmj].
    + eapply (follow_retains L); eauto. eapply agree_trans; [exact Hagm|by eapply agree_weaken].
    + assert (Lu !! j = Some e) as HLuj by (rewrite Hagm by lia; done).
      destruct (contradicted s HI u Lu m j e e' (pterm p) L) as [?|?]; auto with lia.
  - eapply (follow_certs L); eauto. destruct (decide (c ≤ j)%nat) as [|Hcj].
    { eapply agree_trans; [exact Hagm|by eapply agree_weaken]. }
    exfalso. destruct (I_cert s HI c u Q Hc) as (_ & _ & L1 & HL1 & _ & _ & Hagc). simplify_eq.
    destruct (cert_complete s HI c _ Q _ L Hc Hu HL) as [_ HagL].
    rewrite HagL, <-Hagc, Hagm, He in He' by lia. congruence.
  - intros _ _ HLl. simplify_eq.
Qed.

Lemma inv_floor b :
  (pfloor p ≤ b)%nat → (b ≤ length l)%nat →
  agree (pfloor p) b l (cl s) → PInv (setNode s w (p <| pfloor := b |>)).
Proof.
  intros Hf Hb Hag. destruct (I_seated s HI w) as [? Hag0 He].
  apply local_inv; simpl; auto using retains_same, retains_certs_same; try done.
  split; simpl; [done|by eapply agree_join|].
  intros k e Hk Hke. destruct (He k e) as (? & ? & L & ? & HagL); [lia|done|].
  split; [done|]. split; [done|]. exists L. split; [done|]. by eapply agree_weaken.
Qed.

Section rebase.
Context (b : nat) (rest : list LogEntry) (HL : is_Some (ll s (pterm p))).
Context (Hother : lead s (pterm p) ≠ w) (Hf : (pfloor p < b)%nat).
Context (Hcl : (b ≤ length (cl s))%nat).
Context (Hmis : (length l < b)%nat ∨ tm l b ≠ tm (cl s) b).
Context (Hrest : rest = [] ∨ rest = drop b l).
Local Abbreviation l' := (take b (cl s) ++ rest).

Lemma rebase_low : agree 0 b l' (cl s).
Proof.
  intros j _ Hj.
  rewrite lookup_app_l by (rewrite length_take; lia). by apply lookup_take_lt.
Qed.

Lemma rebase_length : (b ≤ length l')%nat ∧ (length l' = b ∨ length l' = length l).
Proof.
  rewrite length_app, length_take.
  destruct Hrest as [->| ->]; simpl; [lia|]. rewrite length_drop. lia.
Qed.

Lemma rebase_high j e : (b ≤ j)%nat → l' !! j = Some e → l !! j = Some e ∧ rest = drop b l.
Proof.
  intros Hj He.
  rewrite lookup_app_r in He by (rewrite length_take; lia). rewrite length_take in He.
  destruct Hrest as [->| ->]; [done|]. split; [|done]. rewrite lookup_drop in He.
  by replace (b + (j - b `min` length (cl s)))%nat with j in He by lia.
Qed.

(** A held prefix that reaches beyond the snapshot contradicts the mismatch. *)
Lemma rebase_mismatch u Lu m : holds l Lu u m → (b ≤ m)%nat →
  ∃ e e', Lu !! (b - 1)%nat = Some e ∧ cl s !! (b - 1)%nat = Some e' ∧ e ≠ e'.
Proof.
  intros (Hm & Hag & _) Hb.
  pose proof (agree_len _ _ _ Hag Hm). destruct Hmis as [?|Htm]; [lia|].
  destruct (tm_inside Lu b) as (e & He & Hte); [lia..|].
  destruct (tm_inside (cl s) b) as (e' & He' & Hte'); [lia..|]. exists e, e'.
  split; [done|]. split; [done|]. intros ->. apply Htm.
  rewrite <-(agree_tm _ _ _ _ b Hag) by lia. congruence.
Qed.

(** A held prefix that is below the snapshot and committed is still held. *)
Lemma rebase_held u Lu m :
  (0 < m)%nat → (m < b)%nat → tm Lu m = u → agree 0 m Lu (cl s) → holds l Lu u m → holds l' Lu u m.
Proof.
  intros Hm0 Hb Htm Hag (Hm & _ & Hup).
  pose proof rebase_low as Hlow. destruct rebase_length as [Hlen' Hlens].
  split; [done|]. split.
  - eapply agree_trans; [exact Hag|]. apply agree_sym. eapply agree_weaken; [exact Hlow|lia..].
  - destruct (decide (length l' = b)) as [Heq|Hneq].
    + rewrite Heq, (agree_tm _ _ _ _ b Hlow) by lia.
      rewrite (agree_tm _ _ _ _ m Hag) in Htm by lia. unfold upto.
      pose proof (cl_sorted s HI m b). lia.
    + destruct Hlens as [|Hlens]; [done|]. rewrite Hlens.
      replace (tm l' (length l)) with (tm l (length l)); [done|].
      destruct (tm_inside l' (length l)) as (e & He & ->); [lia..|].
      destruct (rebase_high (length l - 1) e ltac:(lia) He) as [He' _].
      replace (length l) with (S (length l - 1)) at 1 by lia. by rewrite (tm_lookup _ _ _ He').
Qed.

Lemma rebase_retains : retains s l l' (pterm p).
Proof.
  intros u Lu m HLu Hm0 Htm Hu Hh. assert (m ≤ length Lu)%nat as Hm by apply Hh.
  destruct (decide (b ≤ m)%nat) as [Hb|Hb].
  - destruct (rebase_mismatch u Lu m Hh Hb) as (e & e' & He & He' & Hne). right. right.
    eapply diverged with (j := (b - 1)%nat); try done. lia.
  - destruct (agree_dec_witness m Lu (cl s)) as [Hag|(j & e & e' & ? & ? & ? & ?)];
      [done|lia| |right; right; by eapply diverged].
    right. left. apply rebase_held; try done. lia.
Qed.

Lemma rebase_retains_certs : retains_certs s l l' (pterm p).
Proof.
  intros c u Q Lu Hc HLu Hu Hh.
  destruct (I_cert s HI c u Q Hc) as (_ & Hc0 & L' & HL' & Hlen & Htm & Hagc). simplify_eq.
  destruct (decide (b ≤ c)%nat) as [Hb|Hb]; [|apply rebase_held; try done; lia].
  destruct (rebase_mismatch _ _ c Hh Hb) as (e & e' & He & He' & Hne).
  rewrite Hagc in He by lia. congruence.
Qed.

Lemma inv_rebase : PInv (setNode s w (p <| pfloor := b |> <| plog := l' |>)).
Proof.
  destruct rebase_length as [Hlen' _]. apply local_inv; simpl; try done.
  - split; simpl; [done|apply rebase_low|].
    intros k e Hk Hke. destruct (rebase_high k e Hk Hke) as [He Hr].
    destruct (seat_entry _ _ _ _ (I_seated s HI w) k e ltac:(lia) He) as (? & ? & L' & ? & Hag).
    split; [done|]. split; [done|]. exists L'. split; [done|]. intros j Hj Hjk.
    rewrite <-Hag by lia. destruct (lookup_lt_is_Some_2 l' j) as [x Hx].
    { pose proof (lookup_lt_Some _ _ _ Hke). lia. }
    rewrite Hx. symmetry. by apply (rebase_high j x).
  - apply rebase_retains.
  - apply rebase_retains_certs.
  - by right.
Qed.
End rebase.
End local.

(** ** Moves that extend the histories *)

(** A candidate that stands on a floor committed in a later term cannot win. *)
Lemma stand_based s w :
  let v := pterm (pn s w) in
  PInv s → st s w v = None →
  hopeless s w v ∨ certified s (pfloor (pn s w)) v.
Proof.
  intros v HI Hnone. destruct (I_seated s HI w) as [Hf Ha _]. pose proof (agree_len _ _ _ Ha Hf) as Hlen.
  destruct (decide (pfloor (pn s w) = 0%nat)) as [Hz|Hz]; [right; by left|].
  destruct (cl_covered s HI (pfloor (pn s w))) as (u & Q & L & Hc & HL & _); [lia..|].
  destruct (decide (u ≤ v)) as [Hu|Hu]; [right; right; by exists (length (cl s)), u, Q|left].
  intros Q' HQ'. destruct (I_lead s HI u L HL) as (Hq & _). destruct (isQ_meet _ _ HQ' Hq) as (y & ? & ?).
  exists y, u. split_and!; [done| |lia|by eexists|done].
  intros Hg. destruct (I_grant s HI _ _ _ Hg) as (_ & [x Hx] & _). congruence.
Qed.

Lemma inv_stand s w :
  let v := pterm (pn s w) in
  let l := plog (pn s w) in
  PInv s → st s w v = None → (ll s v = None → certified s (pfloor (pn s w)) v → tm l (length l) < v) →
  PInv (s <| st := λ i u, if decide (i = w ∧ u = v) then Some (tm l (length l), length l)
                          else st s i u |>).
Proof.
  intros v l HI Hnone Hlast. set (s' := s <| st := _ |>).
  assert (evolves s s') as Hev by (split; [|split]; simpl; eauto with agree).
  assert (∀ w' u i x, counts s w' u i → st s' i u = Some x → st s i u = Some x) as Hst.
  { intros w' u i x [Hg _] Hx. destruct (I_grant s HI _ _ _ Hg) as (_ & [y Hy] & _). simpl in Hx.
    destruct (decide (i = w ∧ u = v)) as [[-> ->]|]; [congruence|done]. }
  split; simpl; try apply HI.
  - intros w'. eapply based_mono; [done|by apply I_seated].
  - intros c u Q w' u' i lt li Hc Hw Hct Hx. eapply (I_cert_grant s HI); eauto.
  - intros w' u m L u' i lt li Ha HL Hm Htm Hct Hx. eapply (I_ack_grant s HI); eauto.
  - intros w' u i Hg. destruct (I_grant s HI _ _ _ Hg) as (? & ? & ?). split; [done|].
    split; [|done]. by destruct (decide _).
  - intros i u lt li Hx. destruct (decide (i = w ∧ u = v)) as [[-> ->]|].
    + injection Hx as <- <-. split; [reflexivity|]. intros _ Hno. split; [done|]. split; [done|].
      destruct (stand_based s w HI Hnone) as [?|Hc]; [by left|right].
      apply (viable_mono s); [done|]. split; [by apply Hlast|]. exists (pfloor (pn s w)).
      split; [done|by apply I_seated].
    + destruct (I_stand s HI i u lt li Hx) as (? & Hl). split; [done|]. intros Ht Hn.
      destruct (Hl Ht Hn) as (? & ? & [?|?]); eauto 6 using viable_mono.
  - intros u L HL. destruct (I_lead s HI u L HL) as (HQ & Hgr & lt & li & Hx & ?).
    split; [done|]. split; [done|]. exists lt, li. split; [|done].
    destruct (decide _) as [[Hw ->]|]; [|done]. rewrite Hw in Hx. congruence.
Qed.

Section grant.
Context s (w i : string) (lt : N) (li : nat) (HI : PInv s).
Local Abbreviation v := (pterm (pn s w)).
Local Abbreviation l := (plog (pn s w)).
Context (Hi : i ≠ None_) (Hvote : pvote (pn s w) = None_ ∨ pvote (pn s w) = i).
Context (Hst : st s i v = Some (lt, li)) (Hup : upto lt li (tm l (length l)) (length l)).
Local Abbreviation s' := ((setNode s w ((pn s w) <| pvote := i |>))
  <| gr := λ w' v' i', gr s w' v' i' ∨ (w' = w ∧ v' = v ∧ i' = i) |>).

Lemma grant_evolves : evolves s s'.
Proof. split; [|split]; simpl; eauto with agree. Qed.

Lemma grant_same w' : pterm (pn s' w') = pterm (pn s w') ∧ plog (pn s' w') = plog (pn s w') ∧
  pfloor (pn s' w') = pfloor (pn s w').
Proof.
  simpl. destruct (decide (w' = w)) as [->|].
  - by rewrite fn_lookup_insert.
  - by rewrite fn_lookup_insert_ne.
Qed.

(** The vote of the term is given once. *)
Lemma grant_once j : gr s w v j → j = i.
Proof.
  intros Hg. destruct (I_grant s HI _ _ _ Hg) as (Hj & _ & _ & Hv). destruct Hvote as [Hv'|Hv'];
    rewrite Hv in Hv' by done; congruence.
Qed.

Lemma grant_counts w' v' j :
  counts s' w' v' j → counts s w' v' j ∨ (w' = w ∧ v' = v ∧ j = i ∧ ll s v = None).
Proof.
  intros [[Hg|(-> & -> & ->)] Hc]; [left; by split|].
  destruct (ll s v) as [L|] eqn:HL; [left|by right]. simpl in Hc.
  destruct Hc as [?|Hq]; [congruence|]. destruct (I_lead s HI v L HL) as (_ & Hgr & _).
  specialize (Hgr w Hq). rewrite (grant_once _ Hgr) in Hgr. split; [done|by right].
Qed.

Lemma grant_cert_grant c u Q w' u' j lt' li' :
  (c, u, Q) ∈ certs s' → w' ∈ Q → counts s' w' u' j → st s' j u' = Some (lt', li') → u < u' →
  upto lt' li' u c.
Proof.
  intros Hc Hw [Hct|(-> & -> & -> & HL)]%grant_counts Hx Hlt; [by eapply (I_cert_grant s HI)|].
  destruct (I_cert s HI c u Q Hc) as (_ & _ & L & HLu & _).
  destruct (I_cert_log s HI c u Q w L Hc HLu Hw) as (_ & _ & _ & Hh).
  simpl in Hx. rewrite Hst in Hx. injection Hx as <- <-. by eapply upto_trans.
Qed.

Lemma grant_ack_grant w' u m L u' j lt' li' :
  ak s' w' u m → ll s' u = Some L → (0 < m)%nat → tm L m = u → counts s' w' u' j →
  st s' j u' = Some (lt', li') → u < u' → settled s' m L ∨ upto lt' li' u m ∨ blocked s' u m.
Proof.
  intros Ha HL Hm Htm [Hct|(-> & -> & -> & HLv)]%grant_counts Hx Hlt; [by eapply (I_ack_grant s HI)|].
  simpl in Hx. rewrite Hst in Hx. injection Hx as <- <-.
  destruct (I_ack_log s HI w u m L Ha HL Hm Htm) as [?|[(_ & _ & Hh)|Ho]]; [by left| |by right; right].
  right. left. by eapply upto_trans.
Qed.

Lemma grant_promise w' v' j : gr s' w' v' j →
  j ≠ None_ ∧ is_Some (st s' j v') ∧ v' ≤ pterm (pn s' w') ∧ (pterm (pn s' w') = v' → pvote (pn s' w') = j).
Proof.
  intros [Hg|(-> & -> & ->)].
  - destruct (I_grant s HI _ _ _ Hg) as (? & ? & ? & Hv). split; [done|]. split; [done|].
    destruct (grant_same w') as (-> & _). split; [done|]. intros Heq. simpl.
    destruct (decide (w' = w)) as [->|]; [|by rewrite fn_lookup_insert_ne; auto].
    rewrite fn_lookup_insert. simpl. symmetry. apply grant_once. by rewrite <-Heq in Hg.
  - split; [done|]. split; [by eexists|]. destruct (grant_same w) as (-> & _). split; [done|].
    intros _. simpl. by rewrite fn_lookup_insert.
Qed.

Lemma inv_grant : PInv s'.
Proof.
  split; eauto using grant_cert_grant, grant_ack_grant, grant_promise.
  - intros w'. unfold seated. destruct (grant_same w') as (-> & -> & ->).
    eapply based_mono; [apply grant_evolves|by apply I_seated].
  - apply (I_wf s HI).
  - apply (I_cl s HI).
  - apply (I_cert s HI).
  - intros c u Q w' L. destruct (grant_same w') as (-> & -> & _). apply (I_cert_log s HI).
  - intros w' u m. destruct (grant_same w') as (-> & _). apply (I_ack s HI).
  - apply (I_ack_down s HI).
  - apply (I_ack_dec s HI).
  - intros w' u m L. destruct (grant_same w') as (_ & -> & _). apply (I_ack_log s HI).
  - intros w' v' j k [Hg|(-> & -> & ->)] [Hg'|(Hw & Hv & ->)].
    + by eapply (I_grant_unique s HI).
    + subst. by apply grant_once.
    + symmetry. by apply grant_once.
    + done.
  - intros j v' lt' li' Hx. destruct (grant_same j) as (-> & -> & _).
    destruct (I_stand s HI j v' lt' li' Hx) as (? & Hl). split; [done|]. intros Ht Hn.
    destruct (Hl Ht Hn) as (? & ? & [Hh|?]); [|by eauto 6 using viable_mono, grant_evolves].
    split; [done|]. split; [done|]. left. eapply (hopeless_mono s); [done|by intros T [L HT]| |done].
    intros y [?|(-> & -> & _)]; [by left|by right].
  - intros v' L HL. destruct (I_lead s HI v' L HL) as (? & Hgr & ?). split; [done|].
    split; [|done]. intros w' Hw'. left. by apply Hgr.
  - apply (I_self s HI).
  - intros v' L. change (lead s' v') with (lead s v'). destruct (grant_same (lead s v')) as (-> & -> & _).
    apply (I_own s HI).
Qed.
End grant.

(** *** Acknowledging *)

(** What a node acknowledges of its leader's log it holds, or it is committed, or
    never will be: the node may sit on a snapshot of a later term. *)
Lemma acked_held s w L k :
  let T := pterm (pn s w) in
  let l := plog (pn s w) in
  PInv s → ll s T = Some L → (k ≤ length l)%nat → (k ≤ length L)%nat → agree (pfloor (pn s w)) k l L →
  (0 < k)%nat → tm L k = T → settled s k L ∨ holds l L T k ∨ blocked s T k.
Proof.
  intros T l HI HL Hk HkL Hag Hk0 Htm. destruct (I_seated s HI w) as [Hf Ha He].
  fold l in Hf, Ha, He. pose proof (agree_len _ _ _ Ha Hf) as Hlen.
  destruct (agree_dec_witness (pfloor (pn s w) `min` k) L (cl s)) as [HagL|(j & e & e' & ? & ? & ? & ?)];
    [lia..| |right; right; eapply (diverged s HI T L k j); eauto with lia].
  destruct (decide (k ≤ pfloor (pn s w))%nat) as [Hkf|Hkf].
  { left. split; [lia|]. eapply agree_weaken; [exact HagL|lia..]. }
  assert (agree 0 k L l) as HLl.
  { eapply agree_join with (b := pfloor (pn s w)); [|by apply agree_sym].
    eapply agree_trans; [eapply agree_weaken; [exact HagL|lia..]|by apply agree_sym]. }
  right. left. split; [done|]. split; [done|].
  destruct (tm_inside l (length l)) as (e & Hlast & Hte); [lia..|].
  destruct (He (length l - 1)%nat e ltac:(lia) Hlast) as (_ & _ & L' & HL' & Hag').
  replace (S (length l - 1)) with (length l) in Hag' by lia. rewrite <-Hte in HL'.
  rewrite (agree_tm _ _ _ _ (length l) Hag') in HL' |- * by lia.
  assert (length l ≤ length L')%nat as HlenL.
  { assert (is_Some (L' !! (length l - 1)%nat)) as Hs by (rewrite <-Hag' by lia; by eexists).
    apply lookup_lt_is_Some in Hs. lia. }
  assert (tm L' k = T) as Htk.
  { rewrite <-(agree_tm _ _ _ _ k Hag') by lia. by rewrite <-(agree_tm _ _ _ _ k HLl) by lia. }
  pose proof (leader_sorted s HI _ L' k (length l) HL' Hk HlenL). unfold upto. lia.
Qed.

Lemma inv_ack s w L m :
  let T := pterm (pn s w) in
  let l := plog (pn s w) in
  PInv s → ll s T = Some L → (m ≤ length l)%nat → (m ≤ length L)%nat →
  agree (pfloor (pn s w)) m l L →
  PInv (s <| ak := λ w' u k, ak s w' u k ∨ (w' = w ∧ u = T ∧ (k ≤ m)%nat) |>).
Proof.
  intros T l HI HL Hm HmL Hag. set (s' := s <| ak := _ |>).
  assert (evolves s s') as Hev by (split; [|split]; simpl; eauto with agree).
  assert (∀ u k, blocked s u k → blocked s' u k) as Hbl.
  { intros u k. apply blocked_mono; [done|by intros T' [L' HL']|].
    intros y [?|(-> & -> & _)]; [by left|by right]. }
  split; try apply HI.
  - intros w'. eapply based_mono; [done|exact (I_seated s HI w')].
  - intros w' u k [Ha|(-> & -> & Hk)]; [by apply (I_ack s HI)|].
    split; [reflexivity|]. exists L. split; [done|lia].
  - intros w' u k k' [Ha|(-> & -> & Hk)] Hk'; [left; by eapply (I_ack_down s HI)|right].
    split; [done|]. split; [done|lia].
  - intros w' u k. simpl. destruct (I_ack_dec s HI w' u k); [by left; left|].
    destruct (decide (w' = w ∧ u = T ∧ (k ≤ m)%nat)); [by left; right|right; tauto].
  - intros w' u k L' [Ha|(-> & -> & Hk)] HL' Hk0 Htm.
    + destruct (I_ack_log s HI w' u k L' Ha HL' Hk0 Htm) as [?|[?|?]]; auto.
    + simpl in HL'. rewrite HL in HL'. injection HL' as <-.
      destruct (acked_held s w L k HI HL) as [?|[?|?]]; auto; [fold l; lia|lia|by eapply agree_weaken].
  - intros w' u k L' v i lt li [Ha|(-> & -> & Hk)] HL' Hk0 Htm Hct Hst Hlt.
    + destruct (I_ack_grant s HI w' u k L' v i lt li Ha HL' Hk0 Htm Hct Hst Hlt) as [?|[?|?]]; auto.
    + destruct Hct as [Hg _]. destruct (I_grant s HI _ _ _ Hg) as (_ & _ & Hle & _).
      fold T in Hle. lia.
  - intros i v lt li Hx. destruct (I_stand s HI i v lt li Hx) as (? & Hl). split; [done|]. intros Ht Hn.
    destruct (Hl Ht Hn) as (? & ? & [?|?]); eauto 6 using viable_mono.
  - intros v L' k HL' Hk0 Hk Htm. left. by eapply (I_self s HI).
Qed.

(** *** Winning an election *)

Section win.
Context s (i : string) (Q : list string) (HI : PInv s).
Local Abbreviation v := (pterm (pn s i)).
Local Abbreviation l := (plog (pn s i)).
Context (Hnone : ll s v = None) (HQ : isQ Q) (Hgr : ∀ w, w ∈ Q → gr s w v i).

(** The winner stood with the log it has now, and could win with it. *)
Lemma winner_stood : st s i v = Some (tm l (length l), length l) ∧ viable s l v.
Proof.
  destruct (isQ_meet Q Q HQ HQ) as (w & Hw & _).
  destruct (I_grant s HI w v i (Hgr w Hw)) as (_ & [[lt li] Hst] & _).
  destruct (I_stand s HI i v lt li Hst) as (_ & Hlast).
  destruct (Hlast eq_refl Hnone) as (-> & -> & [Hh|?]); [|done].
  destruct (Hh Q HQ) as (y & T & Hy & Hn & _). by destruct Hn; apply Hgr.
Qed.

(** A winner's log contains whatever was committed in an earlier term. *)
Lemma winner_upto c u Qc : (c, u, Qc) ∈ certs s → u ≤ v →
  u < v ∧ upto (tm l (length l)) (length l) u c.
Proof.
  intros Hc Hu. destruct (I_cert s HI c u Qc Hc) as (HQc & _ & L & HL & _).
  assert (u ≠ v) by congruence. split; [lia|].
  destruct (isQ_meet Q Qc HQ HQc) as (w & Hw & Hwc).
  eapply (I_cert_grant s HI); [done|done| |by apply winner_stood|lia]. split; [by apply Hgr|by left].
Qed.

(** The winner's log agrees with the leader of any term it carries. *)
Lemma winner_matching k e :
  l !! k = Some e →
  Term e < v ∧ Index e = N.of_nat k + 1 ∧ ∃ L', ll s (Term e) = Some L' ∧ agree 0 (S k) l L'.
Proof.
  intros He. destruct winner_stood as (_ & _ & f & Hcert & [Hf Ha Hent]).
  destruct (decide (k < f)%nat) as [Hkf|Hkf].
  - destruct Hcert as [Hz|(c & u & Qc & Hc & Hb & Hu)]; [lia|].
    destruct (winner_upto c u Qc Hc Hu) as [Huv _].
    destruct (I_cert s HI c u Qc Hc) as (_ & _ & L & HL & Hlen & _ & Hag).
    assert (agree 0 f l L) as HlL.
    { eapply agree_trans; [exact Ha|]. apply agree_sym. by eapply agree_weaken. }
    rewrite HlL in He by lia. destruct (I_wf s HI u L k e HL He) as (? & ? & L' & HL' & HagL).
    split; [lia|]. split; [done|]. exists L'. split; [done|].
    eapply agree_trans; [|exact HagL]. eapply agree_weaken; [exact HlL|lia..].
  - destruct (Hent k e ltac:(lia) He) as (Ht & Hi & L' & HL' & Hag').
    assert (Term e ≠ v) by congruence. split; [lia|]. split; [done|].
    exists L'. split; [done|]. eapply agree_join; [|exact Hag'].
    destruct Hcert as [Hz|(c & u & Qc & Hc & Hb & Hu)]; [apply agree_empty; lia|].
    destruct (winner_upto c u Qc Hc Hu) as [Huv Hup].
    pose proof (lookup_lt_Some _ _ _ He) as Hlt.
    destruct (tm_inside l (length l)) as (x & Hx & Htx); [lia..|].
    destruct (Hent (length l - 1)%nat x ltac:(lia) Hx) as (_ & _ & Ll & HLl & HagLl).
    replace (S (length l - 1)) with (length l) in HagLl by lia. rewrite <-Htx in HLl.
    destruct (cert_complete s HI c u Qc (tm l (length l)) Ll Hc ltac:(destruct Hup; lia) HLl) as [HcLl Hagc].
    assert (Ll !! k = Some e) as HeL by (rewrite <-HagLl by lia; done).
    destruct (I_wf s HI _ Ll k e HLl HeL) as (_ & _ & L'' & HL'' & HagL''). simplify_eq.
    eapply agree_trans; [exact Ha|]. eapply agree_trans; [apply agree_sym|].
    + eapply agree_weaken; [exact Hagc|lia..].
    + eapply agree_weaken; [exact HagL''|lia..].
Qed.

Lemma inv_win :
  PInv (s <| ll := λ u, if decide (u = v) then Some l else ll s u |>
          <| lead := λ u, if decide (u = v) then i else lead s u |>
          <| qv := λ u, if decide (u = v) then Q else qv s u |>).
Proof.
  set (s' := s <| ll := _ |> <| lead := _ |> <| qv := _ |>).
  assert (∀ u L, ll s u = Some L → ll s' u = Some L) as Hll.
  { intros u L HL. simpl. destruct (decide (u = v)) as [->|]; [congruence|done]. }
  assert (∀ u, ll s' u = None → ll s u = None) as Hlln.
  { intros u. simpl. by destruct (decide (u = v)). }
  assert (∀ w u m, ak s w u m → ll s' u = ll s u) as Hak.
  { intros w u m Ha. destruct (I_ack s HI _ _ _ Ha) as (_ & L & HL & _). rewrite HL. by apply Hll. }
  assert (evolves s s') as Hev.
  { split; [|split; [apply agree_refl|done]]. intros T L HL. exists L. eauto using agree_refl. }
  assert (∀ w u j, counts s' w u j → counts s w u j) as Hct.
  { intros w u j [Hg Hc]. split; [done|]. simpl in Hc.
    destruct (decide (u = v)) as [->|]; [by left|done]. }
  assert (elected_kept s s') as Hel.
  { intros T [L HT]. rewrite (Hll _ _ HT). simpl. split; [by eexists|].
    by destruct (decide (T = v)) as [->|]; [congruence|]. }
  split; try apply HI.
  - intros w. eapply based_mono; [done|exact (I_seated s HI w)].
  - intros T L k e HL He. simpl in HL. destruct (decide (T = v)) as [->|].
    + injection HL as <-. destruct (winner_matching k e He) as (? & ? & L' & HL' & ?).
      split; [lia|]. split; [done|]. eauto.
    + destruct (I_wf s HI T L k e HL He) as (? & ? & L' & HL' & ?). eauto 10.
  - intros c u Qc Hc. destruct (I_cert s HI c u Qc Hc) as (? & ? & L & ? & ?). eauto 10.
  - intros c u Qc w L Hc HL Hw. destruct (I_cert s HI c u Qc Hc) as (_ & _ & L0 & HL0 & _).
    rewrite (Hll _ _ HL0) in HL. simplify_eq. by eapply (I_cert_log s HI).
  - intros c u Qc w u' j lt li Hc Hw Hc'%Hct. by eapply (I_cert_grant s HI).
  - intros w u m Ha. rewrite (Hak _ _ _ Ha). by apply (I_ack s HI).
  - intros w u m L Ha HL Hm Htm. rewrite (Hak _ _ _ Ha) in HL.
    destruct (I_ack_log s HI w u m L Ha HL Hm Htm) as [?|[?|?]]; eauto 6 using blocked_mono.
  - intros w u m L u' j lt li Ha HL Hm Htm Hc%Hct Hst Hlt. rewrite (Hak _ _ _ Ha) in HL.
    destruct (I_ack_grant s HI w u m L u' j lt li Ha HL Hm Htm Hc Hst Hlt) as [?|[?|?]];
      eauto 6 using blocked_mono.
  - intros j u lt li Hst. destruct (I_stand s HI j u lt li Hst) as (? & Hlast).
    split; [done|]. intros Heq Hn. destruct (Hlast Heq (Hlln _ Hn)) as (? & ? & [?|?]);
      eauto 6 using viable_mono, hopeless_mono.
  - intros u L HL. simpl in *. destruct (decide (u = v)) as [->|]; [|by apply (I_lead s HI)].
    injection HL as <-. split; [done|]. split; [done|].
    destruct winner_stood as (? & ? & _). eexists _, _. do 4 (split; [done|]). lia.
  - intros u L k HL Hk0 Hk Htm. simpl in *. destruct (decide (u = v)) as [->|]; [|by eapply (I_self s HI)].
    injection HL as <-. destruct (tm_inside l k) as (e & He & Hte); [lia..|].
    apply winner_matching in He as (? & _). lia.
  - intros u L HL. simpl in *. destruct (decide (u = v)) as [->|]; [by injection HL|apply (I_own s HI u L HL)].
Qed.
End win.

(** *** Appending to the leader's log *)

Section propose.
Context s (i : string) (e : LogEntry) (HI : PInv s).
Local Abbreviation v := (pterm (pn s i)).
Local Abbreviation l := (plog (pn s i)).
Context (HL : ll s v = Some l) (Hlead : lead s v = i) (Het : Term e = v) (Hei : Index e = N.of_nat (length l) + 1).

Let s' := (setNode s i ((pn s i) <| plog := l ++ [e] |>))
  <| ll := λ u, if decide (u = v) then Some (l ++ [e]) else ll s u |>
  <| ak := λ w u m, ak s w u m ∨ (w = i ∧ u = v ∧ (m ≤ S (length l))%nat) |>.

Lemma propose_last : length (l ++ [e]) = S (length l) ∧ tm (l ++ [e]) (S (length l)) = v.
Proof. rewrite length_app. simpl. rewrite list_lookup_middle by done. simpl. split; [lia|done]. Qed.

Lemma propose_evolves : evolves s s'.
Proof.
  split; [|split; [apply agree_refl|done]]. intros T L HT. simpl. destruct (decide (T = v)) as [->|].
  - exists (l ++ [e]). split; [done|]. simplify_eq. apply agree_prefix. by apply prefix_app_r.
  - exists L. split; [done|apply agree_refl].
Qed.

Lemma propose_ll u L' :
  ll s' u = Some L' → ∃ L, ll s u = Some L ∧ agree 0 (length L) L L' ∧ (length L ≤ length L')%nat.
Proof.
  simpl. destruct (decide (u = v)) as [->|].
  - intros [= <-]. exists l. split; [done|]. split; [apply agree_prefix; by apply prefix_app_r|].
    rewrite length_app. lia.
  - intros H. exists L'. split; [done|]. split; [apply agree_refl|done].
Qed.

Lemma propose_node w : pterm (pn s' w) = pterm (pn s w) ∧ pvote (pn s' w) = pvote (pn s w).
Proof.
  simpl. destruct (decide (w = i)) as [->|].
  - by rewrite fn_lookup_insert.
  - by rewrite fn_lookup_insert_ne.
Qed.

(** The new entry only makes a log more up-to-date. *)
Lemma propose_holds w u L L' m :
  ll s u = Some L → agree 0 (length L) L L' → (length L ≤ length L')%nat → u ≤ pterm (pn s w) →
  holds (plog (pn s w)) L u m → holds (plog (pn s' w)) L' u m.
Proof.
  intros HLu Hag Hlen Hu (Hm & Hagm & Hup).
  assert (agree 0 m L' (plog (pn s w))) as Hagm'.
  { eapply agree_trans; [apply agree_sym; by eapply agree_weaken|done]. }
  split; [lia|]. simpl. destruct (decide (w = i)) as [->|].
  - rewrite fn_lookup_insert. simpl. pose proof (agree_len _ _ _ Hagm Hm). destruct propose_last as [-> ->].
    split; [|unfold upto; lia]. eapply agree_trans; [exact Hagm'|].
    eapply agree_weaken; [apply agree_prefix, prefix_app_r; reflexivity|lia..].
  - by rewrite fn_lookup_insert_ne.
Qed.

Lemma propose_seated w : seated s' (pn s' w).
Proof.
  pose proof propose_evolves as Hev.
  destruct (decide (w = i)) as [->|].
  2: { eapply based_mono; [exact Hev|]. simpl. rewrite fn_lookup_insert_ne by done.
       by apply I_seated. }
  destruct (based_mono s s' _ _ _ Hev (I_seated s HI i)) as [Hf Ha He].
  unfold seated. simpl pn. rewrite fn_lookup_insert. split; simpl pfloor; simpl plog; simpl pterm.
  - rewrite length_app. lia.
  - eapply agree_trans; [|exact Ha]. apply agree_sym.
    eapply agree_weaken; [apply agree_prefix, prefix_app_r; reflexivity|lia..].
  - intros k x Hk Hx. apply lookup_app_Some in Hx as [Hx|[Hlen Hx]].
    + destruct (He k x Hk Hx) as (? & ? & L' & HL' & Hag). split; [done|]. split; [done|].
      exists L'. split; [done|]. apply lookup_lt_Some in Hx.
      eapply agree_trans; [apply agree_sym|exact Hag].
      eapply agree_weaken; [apply agree_prefix, prefix_app_r; reflexivity|lia..].
    + apply list_lookup_singleton_Some in Hx as [Hz <-]. split; [lia|]. split; [rewrite Hei; lia|].
      exists (l ++ [e]). rewrite Het. simpl. destruct (decide _); [|done]. split; [done|].
      apply agree_refl.
Qed.

Lemma propose_wf T L k x : ll s' T = Some L → L !! k = Some x →
  Term x ≤ T ∧ Index x = N.of_nat k + 1 ∧ ∃ L', ll s' (Term x) = Some L' ∧ agree 0 (S k) L L'.
Proof.
  intros HT Hx. destruct (propose_ll T L HT) as (L0 & HL0 & Hag0 & Hlen0).
  destruct (decide (k < length L0)%nat) as [Hk|Hk].
  - rewrite <-Hag0 in Hx by lia. destruct (I_wf s HI T L0 k x HL0 Hx) as (? & ? & L1 & HL1 & Hag1).
    split; [done|]. split; [done|]. destruct propose_evolves as (Hev & _).
    destruct (Hev _ _ HL1) as (L2 & HL2 & Hag2). exists L2. split; [done|].
    pose proof (agree_len _ _ _ Hag1 ltac:(lia)).
    eapply agree_trans; [apply agree_sym; eapply agree_weaken; [exact Hag0|lia..]|].
    eapply agree_trans; [exact Hag1|]. eapply agree_weaken; [exact Hag2|lia..].
  - simpl in HT. destruct (decide (T = v)) as [->|]; [|apply lookup_lt_Some in Hx; simplify_eq; lia].
    injection HT as <-. simplify_eq. apply lookup_app_Some in Hx as [Hx|[_ Hx]];
      [apply lookup_lt_Some in Hx; lia|].
    apply list_lookup_singleton_Some in Hx as [Hz <-]. split; [lia|]. split; [rewrite Hei; lia|].
    exists (l ++ [e]). rewrite Het. simpl. destruct (decide _); [|done]. split; [done|apply agree_refl].
Qed.

Lemma propose_elected : elected_kept s s'.
Proof.
  intros T HT. split; [|done]. simpl. by destruct (decide (T = v)).
Qed.

Lemma propose_blocked u m : blocked s u m → blocked s' u m.
Proof.
  apply blocked_mono; [done|apply propose_elected|]. intros y [?|(-> & -> & _)]; [by left|by right].
Qed.

Lemma propose_none u : ll s' u = None → ll s u = None.
Proof. simpl. by destruct (decide (u = v)). Qed.

Lemma propose_counts w u j : counts s' w u j → counts s w u j.
Proof. intros [Hg [Hn|Hq]]; split; auto using propose_none. Qed.

Lemma propose_cert c u Q : (c, u, Q) ∈ certs s' →
  isQ Q ∧ (0 < c)%nat ∧ ∃ L, ll s' u = Some L ∧ (c ≤ length L)%nat ∧ tm L c = u ∧ agree 0 c L (cl s').
Proof.
  intros Hc. destruct (I_cert s HI c u Q Hc) as (? & ? & L & HLu & ? & Htm & Hag).
  split; [done|]. split; [done|]. destruct propose_evolves as (Hev & _). destruct (Hev _ _ HLu) as (L' & HL' & Hag').
  exists L'. assert (agree 0 c L L') as Hcc by (by eapply agree_weaken).
  split; [done|]. split; [eauto using agree_len|]. rewrite <-(agree_tm _ _ _ _ c Hcc) by lia.
  split; [done|]. eapply agree_trans; [by apply agree_sym|done].
Qed.

(** An acknowledgement from before is one of a prefix that is still there. *)
Lemma propose_acked w u m L' : ak s w u m → ll s' u = Some L' → (0 < m)%nat → tm L' m = u →
  ∃ L, ll s u = Some L ∧ agree 0 (length L) L L' ∧ (length L ≤ length L')%nat ∧ (m ≤ length L)%nat ∧
       tm L m = u ∧ u ≤ pterm (pn s w) ∧ (settled s m L → settled s' m L').
Proof.
  intros Ha HL' Hm0 Htm. destruct (propose_ll u L' HL') as (L & HLu & Hag & Hlen).
  destruct (I_ack s HI w u m Ha) as (Hu & L1 & HL1 & Hm1). rewrite HLu in HL1. injection HL1 as <-.
  rewrite <-(agree_tm _ _ _ _ m Hag) in Htm by lia. exists L. repeat (split; [done|]).
  intros ?. eapply (settled_mono s); [apply propose_evolves| |done]. eapply agree_weaken; [exact Hag|lia..].
Qed.

Lemma propose_ack w u m : ak s' w u m →
  u ≤ pterm (pn s' w) ∧ ∃ L, ll s' u = Some L ∧ (m ≤ length L)%nat.
Proof.
  intros [Ha|(-> & -> & Hm)].
  - destruct (I_ack s HI w u m Ha) as (Hu & L & HLu & Hm). destruct (propose_node w) as [-> _].
    split; [done|]. destruct propose_evolves as (Hev & _). destruct (Hev _ _ HLu) as (L' & HL' & Hag').
    exists L'. split; [done|]. pose proof (agree_len _ _ _ Hag' ltac:(done)). lia.
  - destruct (propose_node i) as [-> _]. split; [done|]. exists (l ++ [e]). simpl.
    destruct (decide _); [|done]. split; [done|]. destruct propose_last. lia.
Qed.

Lemma propose_ack_log w u m L' : ak s' w u m → ll s' u = Some L' → (0 < m)%nat → tm L' m = u →
  settled s' m L' ∨ holds (plog (pn s' w)) L' u m ∨ blocked s' u m.
Proof.
  intros [Ha|(-> & -> & Hm)] HL' Hm0 Htm.
  - destruct (propose_acked w u m L' Ha HL' Hm0 Htm) as (L & HLu & Hag & Hlen & Hm & Htm' & Hu & Hset).
    destruct (I_ack_log s HI w _ m L Ha HLu Hm0 Htm') as [?|[?|?]];
      [by left; auto|right; left; by eapply propose_holds|right; right; by apply propose_blocked].
  - simpl in HL'. destruct (decide (v = v)); [|done]. injection HL' as <-. right. left.
    simpl pn. rewrite fn_lookup_insert. simpl plog. destruct propose_last as [Hlen Hlast].
    split; [lia|]. split; [apply agree_refl|]. rewrite Hlen, Hlast. right. split; [done|lia].
Qed.

Lemma propose_ack_grant w u m L' u' j lt li :
  ak s' w u m → ll s' u = Some L' → (0 < m)%nat → tm L' m = u → counts s' w u' j →
  st s' j u' = Some (lt, li) → u < u' → settled s' m L' ∨ upto lt li u m ∨ blocked s' u m.
Proof.
  intros [Ha|(-> & -> & Hm)] HL' Hm0 Htm Hc%propose_counts Hst Hlt.
  - destruct (propose_acked w u m L' Ha HL' Hm0 Htm) as (L & HLu & Hag & Hlen & Hm & Htm' & _ & Hset).
    destruct (I_ack_grant s HI w _ m L u' j lt li Ha HLu Hm0 Htm' Hc Hst Hlt) as [?|[?|?]];
      [by left; auto|by right; left|right; right; by apply propose_blocked].
  - destruct Hc as [Hg _]. destruct (I_grant s HI _ _ _ Hg) as (_ & _ & Hle & _). lia.
Qed.

(** What [l ++ [e]] has beyond a prefix [L] of it. *)
Lemma propose_beyond u L L' k : ll s u = Some L → ll s' u = Some L' → (length L < k)%nat → (k ≤ length L')%nat →
  u = v ∧ k = S (length l) ∧ L' = l ++ [e].
Proof.
  intros HLu HL' Hgt Hk. simpl in HL'. destruct (decide (u = v)) as [->|]; [|simplify_eq; lia].
  injection HL' as <-. simplify_eq. destruct propose_last as [Hlen _]. split; [done|]. split; [lia|done].
Qed.

Lemma propose_lead u L' : ll s' u = Some L' →
  isQ (qv s' u) ∧ (∀ w, w ∈ qv s' u → gr s' w u (lead s' u)) ∧
  ∃ lt li, st s' (lead s' u) u = Some (lt, li) ∧ lt < u ∧ (li ≤ length L')%nat ∧ tm L' li = lt ∧
           ∀ k, (li < k)%nat → (k ≤ length L')%nat → tm L' k = u.
Proof.
  intros HL'. destruct (propose_ll u L' HL') as (L & HLu & Hag & Hlen).
  destruct (I_lead s HI u L HLu) as (? & ? & lt & li & Hst & ? & Hli & Htm & Hk).
  split; [done|]. split; [done|]. exists lt, li. split; [done|]. split; [done|]. split; [lia|].
  split; [destruct li; [done|]; by rewrite <-(agree_tm _ _ _ _ _ Hag) by lia|].
  intros k Hlk Hkl. destruct (decide (k ≤ length L)%nat) as [|Hgt].
  - rewrite <-(agree_tm _ _ _ _ k Hag) by lia. auto.
  - destruct (propose_beyond u L L' k HLu HL') as (-> & -> & ->); [lia|done|]. by destruct propose_last.
Qed.

Lemma inv_propose : PInv s'.
Proof.
  split; eauto using propose_seated, propose_wf, propose_cert, propose_ack, propose_ack_log,
    propose_ack_grant, propose_lead.
  - apply HI.
  - intros c u Q w L' Hc (L & HLu & Hag & Hlen)%propose_ll Hw.
    destruct (I_cert_log s HI c u Q w L Hc HLu Hw) as [Hu Hh].
    destruct (propose_node w) as [-> _]. split; [done|]. by eapply propose_holds.
  - intros c u Q w u' j lt li Hc Hw Hc'%propose_counts. by eapply (I_cert_grant s HI).
  - intros w u m m' [Ha|(-> & -> & Hm)] Hm'; [left; by eapply (I_ack_down s HI)|right].
    split; [done|]. split; [done|lia].
  - intros w u m. simpl. destruct (I_ack_dec s HI w u m); [by left; left|].
    destruct (decide (w = i ∧ u = v ∧ (m ≤ S (length l))%nat)); [by left; right|right; tauto].
  - intros w u j Hg. destruct (I_grant s HI w u j Hg) as (? & ? & ?).
    destruct (propose_node w) as [-> ->]. done.
  - apply (I_grant_unique s HI).
  - intros j u lt li Hst. destruct (I_stand s HI j u lt li Hst) as (? & Hlast).
    destruct (propose_node j) as [-> _]. split; [done|]. intros Heq Hn%propose_none.
    destruct (decide (j = i)) as [->|]; [congruence|].
    simpl pn. rewrite fn_lookup_insert_ne by done.
    destruct (Hlast Heq Hn) as (? & ? & [?|?]);
      eauto 6 using viable_mono, hopeless_mono, propose_elected, propose_evolves.
  - intros u L' k HL' Hk0 Hk Htm. destruct (propose_ll u L' HL') as (L & HLu & Hag & Hlen).
    destruct (decide (k ≤ length L)%nat) as [Hle|Hgt].
    + left. eapply (I_self s HI); try done. by rewrite (agree_tm _ _ _ _ k Hag) by lia.
    + destruct (propose_beyond u L L' k HLu HL') as (-> & -> & _); [lia|done|]. by right.
  - intros u L'. change (lead s' u) with (lead s u). destruct (propose_node (lead s u)) as [-> _]. simpl.
    destruct (decide (u = v)) as [->|].
    + intros [= <-] _. by rewrite Hlead, fn_lookup_insert.
    + intros HL' Hu. destruct (decide (lead s u = i)) as [Hi|]; [congruence|].
      rewrite fn_lookup_insert_ne by done. by apply (I_own s HI).
Qed.
End propose.

(** *** Committing *)

Section commit.
Context s (T : N) (L : list LogEntry) (k : nat) (Q : list string) (HI : PInv s).
Context (HL : ll s T = Some L) (Hk0 : (0 < k)%nat) (Hk : (k ≤ length L)%nat) (Htm : tm L k = T).
Context (HQ : isQ Q) (Hak : ∀ w, w ∈ Q → ak s w T k) (Hnew : ¬ settled s k L).

Lemma commit_possible : ¬ blocked s T k.
Proof. intros Hb. destruct (Hb Q HQ) as (y & _ & Hy & Hn & _). by destruct Hn; apply Hak. Qed.

(** Votes after the acknowledgement went to logs that are as up-to-date. *)
Lemma commit_votes w v i lt li :
  w ∈ Q → counts s w v i → st s i v = Some (lt, li) → T < v → upto lt li T k.
Proof.
  intros Hw Hct Hst Hlt.
  by destruct (I_ack_grant s HI w T k L v i lt li (Hak w Hw) HL Hk0 Htm Hct Hst Hlt)
    as [?|[?|?%commit_possible]].
Qed.

(** Every later leader has the entry. *)
Lemma commit_complete v Lv : T < v → ll s v = Some Lv → (k ≤ length Lv)%nat ∧ agree 0 k L Lv.
Proof.
  intros HT Hv. destruct (completeness s HI False T L k Q v Lv HL Hk0 Hk Htm HQ) as [?|[]]; try done.
  intros w v' lt li _ Hlt Hw Hwv [L' HL'] Hst. left. eapply commit_votes; try done.
  split; [by apply (I_lead s HI v' L' HL')|by right].
Qed.

Lemma commit_held w : w ∈ Q → T ≤ pterm (pn s w) ∧ holds (plog (pn s w)) L T k.
Proof.
  intros Hw. split; [by apply (I_ack s HI w T k), Hak|].
  by destruct (I_ack_log s HI w T k L (Hak w Hw) HL Hk0 Htm) as [?|[?|?%commit_possible]].
Qed.

(** What was committed before and what is committed now agree. *)
Lemma commit_compatible : agree 0 (length (cl s) `min` k) (cl s) L.
Proof.
  destruct (I_cl s HI) as [Hnil|(u & Qc & Hc)].
  { rewrite Hnil. by apply agree_empty. }
  destruct (I_cert s HI _ _ _ Hc) as (_ & _ & Lu & HLu & _ & _ & HagLu).
  destruct (decide (T < u)) as [Hlt|Hge].
  - destruct (commit_complete u Lu Hlt HLu) as [_ Hag].
    eapply agree_trans; apply agree_sym; eapply agree_weaken; [exact HagLu|lia|lia|exact Hag|lia|lia].
  - destruct (cert_complete s HI _ u Qc T L Hc ltac:(lia) HL) as [_ Hag].
    apply agree_sym. eapply agree_weaken; [exact Hag|lia..].
Qed.

Let cl' := if decide (length (cl s) < k)%nat then take k L else cl s.

Lemma commit_log : (k ≤ length cl')%nat ∧ agree 0 k L cl' ∧ agree 0 (length (cl s)) (cl s) cl'.
Proof.
  unfold cl'. pose proof commit_compatible as Hag. destruct (decide _) as [Hlt|Hge].
  - rewrite length_take. split; [lia|]. split; [apply agree_sym; by apply agree_take|].
    eapply agree_trans; [eapply agree_weaken; [exact Hag|lia..]|]. apply agree_sym, agree_take. lia.
  - split; [lia|]. split; [|apply agree_refl]. apply agree_sym. eapply agree_weaken; [exact Hag|lia..].
Qed.

Let s' := s <| cl := cl' |> <| certs := (k, T, Q) :: certs s |>.

Lemma commit_evolves : evolves s s'.
Proof.
  destruct commit_log as (_ & _ & Hag). split; [|split]; simpl; [|done|by right].
  intros u Lu HLu. exists Lu. eauto with agree.
Qed.

Lemma inv_commit : PInv s'.
Proof.
  pose proof commit_evolves as Hev. destruct commit_log as (Hlen & Hag & _). split; try apply HI.
  - intros w. eapply based_mono; [done|exact (I_seated s HI w)].
  - right. simpl. destruct (decide (length cl' = k)) as [->|Hne]; [exists T, Q; by left|].
    unfold cl' in *. destruct (decide _); [rewrite length_take in *; lia|].
    destruct (I_cl s HI) as [Hnil|(u & Qc & Hc)]; [rewrite Hnil in *; simpl in *; lia|].
    exists u, Qc. by right.
  - intros c u Qc. simpl. intros [[= -> -> ->]|Hc]%elem_of_cons; [by eauto 10|].
    destruct (I_cert s HI c u Qc Hc) as (? & ? & Lu & ? & Hlenu & ? & Hagu).
    split; [done|]. split; [done|]. exists Lu. repeat (split; [done|]).
    eapply agree_trans; [exact Hagu|]. destruct Hev as (_ & Hcl & _). eapply agree_weaken; [exact Hcl|lia|].
    by eapply agree_len.
  - intros c u Qc w Lu [[= -> -> ->]|Hc]%elem_of_cons HLu Hw; [|by eapply (I_cert_log s HI)].
    simpl in HLu. rewrite HL in HLu. injection HLu as <-. by apply commit_held.
  - intros c u Qc w v i lt li [[= -> -> ->]|Hc]%elem_of_cons Hw Hct Hst Hlt;
      [|by eapply (I_cert_grant s HI)].
    by eapply commit_votes.
  - intros w u m Lu Ha HLu Hm0 Htmu. destruct (I_ack_log s HI w u m Lu Ha HLu Hm0 Htmu) as [?|[?|?]];
      eauto using settled_mono, agree_refl.
  - intros w u m Lu v i lt li Ha HLu Hm0 Htmu Hct Hst Hlt.
    destruct (I_ack_grant s HI w u m Lu v i lt li Ha HLu Hm0 Htmu Hct Hst Hlt) as [?|[?|?]];
      eauto using settled_mono, agree_refl.
  - intros i v lt li Hst. destruct (I_stand s HI i v lt li Hst) as (? & Hlast). split; [done|].
    intros Heq Hn. destruct (Hlast Heq Hn) as (? & ? & [?|?]); eauto 6 using viable_mono.
Qed.
End commit.

(** ** Every move keeps the invariant and only extends the histories *)

Theorem pstep_inv s s' : PInv s → pstep isQ s s' → PInv s' ∧ evolves s s'.
Proof.
  intros HI Hstep. destruct Hstep.
  - split; [by apply inv_term|apply setNode_evolves].
  - split; [by apply inv_stand|]. split; [|split]; simpl; eauto with agree.
  - split; [by eapply inv_grant|]. split; [|split]; simpl; eauto with agree.
  - split; [by apply inv_win|]. split; [|split; [apply agree_refl|done]].
    intros T L HT. exists L. simpl. destruct (decide _) as [->|]; [congruence|eauto with agree].
  - split; [by apply inv_propose|by apply propose_evolves].
  - split; [by eapply inv_truncate|apply setNode_evolves].
  - split; [by eapply inv_extend|apply setNode_evolves].
  - split; [by eapply inv_ack|]. split; [|split]; simpl; eauto with agree.
  - split; [by eapply inv_commit|by eapply commit_evolves].
  - split; [by apply inv_floor|apply setNode_evolves].
  - split; [by apply inv_rebase|apply setNode_evolves].
Qed.

(** Everything that was said stays said. *)
Record grows s s' : Prop := {
  grows_evolves : evolves s s';
  grows_term w : pterm (pn s w) ≤ pterm (pn s' w);
  grows_gr w v i : gr s w v i → gr s' w v i;
  grows_ak w u m : ak s w u m → ak s' w u m;
  grows_st i v x : st s i v = Some x → st s' i v = Some x;
  grows_lead v L : ll s v = Some L → lead s' v = lead s v
}.

Lemma evolves_trans s1 s2 s3 : evolves s1 s2 → evolves s2 s3 → evolves s1 s3.
Proof.
  intros (Hl1 & Hc1 & Hq1) (Hl2 & Hc2 & Hq2). split; [|split; [|auto]].
  - intros T L HL. destruct (Hl1 T L HL) as (L1 & HL1 & Hag1). destruct (Hl2 T L1 HL1) as (L2 & HL2 & Hag2).
    exists L2. split; [done|]. eapply agree_trans; [exact Hag1|].
    eapply agree_weaken; [exact Hag2|lia|]. by eapply agree_len.
  - eapply agree_trans; [exact Hc1|]. eapply agree_weaken; [exact Hc2|lia|]. by eapply agree_len.
Qed.

#[export] Instance grows_preorder : PreOrder grows.
Proof.
  split.
  - intros s. split; try done. split; [|split]; eauto with agree.
  - intros s1 s2 s3 [E1 Ht1 ? ? ? Hl1] [E2 Ht2 ? ? ? Hl2]. split; try by eauto.
    + by eapply evolves_trans.
    + intros w. specialize (Ht1 w). specialize (Ht2 w). lia.
    + intros v L HL. destruct E1 as (E1 & _). destruct (E1 v L HL) as (L' & HL' & _).
      rewrite (Hl2 v L' HL'). by eapply Hl1.
Qed.

Lemma pstep_grows s s' : PInv s → pstep isQ s s' → grows s s'.
Proof.
  intros HI Hstep. pose proof (pstep_inv s s' HI Hstep) as [_ Hev].
  destruct Hstep; split; simpl; auto;
    try (intros w0; reflexivity || (apply setNode_term; simpl; lia)).
  - intros j u x Hx. destruct (decide (j = w ∧ u = _)) as [[-> ->]|]; [congruence|done].
  - intros u L HL. destruct (decide _) as [->|]; [congruence|done].
Qed.

Definition pinit : PState :=
  {| pn := λ _, mkPNode 0 None_ 0 []; ll := λ _, None; lead := λ _, None_; qv := λ _, [];
     st := λ _ _, None; gr := λ _ _ _, False; ak := λ _ _ _, False; cl := []; certs := [] |}.

Lemma pinit_inv : PInv pinit.
Proof.
  split; simpl; try done; [by left|by intros c u Q ?%elem_of_nil|intros _ _ _; right; by intros []].
Qed.
End safety.
