(* ===== verification/Replay.v ===== *)
(** * The write-ahead log as a record stream (src/storage/wal.go)

    What LoadEntries does with the records it decodes: appends must extend the
    log contiguously, truncations pop a suffix, anything else is refused.  The
    byte-level framing is the subject of the file store; this file is the
    meaning of a sequence of records. *)

From S2P Require Import Prelude Types Log.

Record walRecord := mkRecord {
  rec_Type : string;
  rec_Term : N;
  rec_Index : N;
  rec_Command : bytes;
  rec_From : N
}.

#[export] Instance walRecord_eq_dec : EqDecision walRecord.
Proof. solve_decision. Defined.

Definition recordAppend : string := "append".
Definition recordTruncate : string := "truncate".

(** the record AppendEntries and Compact write for an entry *)
Definition appendRecord (e : LogEntry) : walRecord :=
  mkRecord recordAppend (Term e) (Index e) (Command e) 0.

(** the record TruncateSuffix writes *)
Definition truncateRecord (from : N) : walRecord :=
  mkRecord recordTruncate 0 0 "" from.

(** wal.go, nextIndex *)
Definition nextIndexOf (entries : list LogEntry) : N :=
  match last entries with
  | None => 0
  | Some e => Index e +w 1
  end.

(** [for len(entries) > 0 && entries[len(entries)-1].Index >= from], on the
    reversed list *)
Fixpoint popFrom (from : N) (rl : list LogEntry) : list LogEntry :=
  match rl with
  | [] => []
  | e :: rl' => if from <=? Index e then popFrom from rl' else rl
  end.

Definition truncateEntries (from : N) (entries : list LogEntry) : list LogEntry :=
  reverse (popFrom from (reverse entries)).

(** The switch of LoadEntries; [inl] is the error that makes recovery refuse the
    file. *)
Definition replayRecord (entries : list LogEntry) (r : walRecord) : string + list LogEntry :=
  if String.eqb (rec_Type r) recordAppend then
    let want := nextIndexOf entries in
    if negb (want =? 0) && negb (rec_Index r =? want) then
      inl "storage: wal append record out of order"
    else inr (entries ++ [mkEntry (rec_Term r) (rec_Index r) (rec_Command r)])
  else if String.eqb (rec_Type r) recordTruncate then
    if rec_From r <? 1 then inl "storage: wal truncate record with from=0"
    else inr (truncateEntries (rec_From r) entries)
  else inl "storage: unknown wal record type".

Fixpoint replayFrom (entries : list LogEntry) (rs : list walRecord) : string + list LogEntry :=
  match rs with
  | [] => inr entries
  | r :: rs' =>
    match replayRecord entries r with
    | inl err => inl err
    | inr entries' => replayFrom entries' rs'
    end
  end.

Definition replay (rs : list walRecord) : string + list LogEntry := replayFrom [] rs.

(** ** Replay follows the operations that wrote the stream *)

Lemma replayFrom_app es rs rs' :
  replayFrom es (rs ++ rs') =
  match replayFrom es rs with inl err => inl err | inr es' => replayFrom es' rs' end.
Proof.
  revert es. induction rs as [|r rs IH]; intros es; simpl; [done|].
  destruct (replayRecord es r); [done|apply IH].
Qed.

Lemma replay_app rs rs' :
  replay (rs ++ rs') =
  match replay rs with inl err => inl err | inr es' => replayFrom es' rs' end.
Proof. apply replayFrom_app. Qed.

(** An error stays: whatever is written later, the stream is refused. *)
Lemma replay_app_err rs rs' err : replay rs = inl err → replay (rs ++ rs') = inl err.
Proof. intros H. by rewrite replay_app, H. Qed.

Lemma nextIndexOf_consecutive b es :
  consecutive b es → es ≠ [] → b + lenN es < u64_size → nextIndexOf es = b + lenN es.
Proof.
  intros Hc Hne Hr. unfold nextIndexOf. destruct (last es) as [e|] eqn:He.
  - rewrite last_lookup in He. rewrite (consecutive_lookup _ _ _ _ Hc He).
    assert (length es ≠ 0%nat) by (by destruct es).
    rewrite u64_add_small; unfold lenN in *; lia.
  - by apply last_None in He.
Qed.

Lemma replayRecord_append es e :
  es = [] ∨ nextIndexOf es = Index e →
  replayRecord es (appendRecord e) = inr (es ++ [e]).
Proof.
  intros H. unfold replayRecord, appendRecord. simpl. destruct e as [t i cmd]. simpl in *.
  destruct H as [->|H]; [done|]. rewrite H, N.eqb_refl. by rewrite andb_false_r.
Qed.

(** A contiguous batch of append records extends the log by the batch. *)
Lemma replayFrom_appends b es es' :
  consecutive b (es ++ es') → b + lenN (es ++ es') < u64_size →
  replayFrom es (appendRecord <$> es') = inr (es ++ es').
Proof.
  revert es. induction es' as [|e es' IH]; intros es Hc Hr; [simpl; by rewrite app_nil_r|].
  cbn [fmap list_fmap replayFrom]. rewrite replayRecord_append.
  - rewrite (cons_middle e es es') in *. rewrite app_assoc in *. by apply IH.
  - destruct es as [|x es]; [by left|right].
    apply consecutive_app in Hc as [Hc1 [Hc2 _]]. rewrite lenN_app in Hr.
    rewrite (nextIndexOf_consecutive b); [done|done|done|]. rewrite !lenN_cons in *. lia.
Qed.

(** Any batch can start a stream (a fresh, truncated or compacted file). *)
Lemma replay_appends b es :
  consecutive b es → b + lenN es < u64_size → replay (appendRecord <$> es) = inr es.
Proof. intros. by apply (replayFrom_appends b []). Qed.

(** A gap or an overlap is refused. *)
Lemma replayRecord_gap es e :
  es ≠ [] → nextIndexOf es ≠ 0 → Index e ≠ nextIndexOf es →
  replayRecord es (appendRecord e) = inl "storage: wal append record out of order".
Proof.
  intros Hne H0 Hi. unfold replayRecord, appendRecord. simpl.
  by rewrite (proj2 (N.eqb_neq _ _) H0), (proj2 (N.eqb_neq _ _) Hi).
Qed.

Lemma popFrom_consecutive b es k :
  consecutive b es → k ≤ lenN es →
  popFrom (b + k) (reverse es) = reverse (take (N.to_nat k) es).
Proof.
  induction es as [|e es IH] using rev_ind; intros Hc Hk; [by rewrite take_nil|].
  apply consecutive_snoc in Hc as [Hc He]. rewrite lenN_app in Hk. unfold lenN in Hk at 2.
  simpl in Hk. rewrite reverse_snoc. simpl.
  destruct (N.leb_spec (b + k) (Index e)).
  - rewrite IH by (done || lia). rewrite take_app_le; [done|]. unfold lenN in *. lia.
  - rewrite take_ge; [by rewrite reverse_snoc|]. rewrite length_app. simpl. unfold lenN in *. lia.
Qed.

(** Truncation keeps exactly the entries below [from]. *)
Lemma truncateEntries_consecutive b es from :
  consecutive b es → b ≤ from → from ≤ b + lenN es →
  truncateEntries from es = take (N.to_nat (from - b)) es.
Proof.
  intros Hc ? ?. unfold truncateEntries. replace from with (b + (from - b)) at 1 by lia.
  rewrite popFrom_consecutive by (done || lia). apply reverse_involutive.
Qed.
