(* ===== verification/LogContract.v ===== *)
(** * Durability contracts of LogStore and SnapshotStore (src/raft/types.go)

    [LogStoreSpec] describes a log store by the records it holds: AppendEntries
    and TruncateSuffix add records at the end, Compact replaces them all, and
    LoadEntries answers the replay of what is there.  A crash in the middle of
    AppendEntries may leave any prefix of the batch; the other calls are
    atomic.  The snapshot is replaced atomically.  SpecStore implements the
    contract trivially, the file store is proved to implement it. *)

From S2P Require Import Prelude Types Effects Contracts Log Replay.

Class LogStoreSpec (D : Type) `{!Storage D} `{!StateStoreSpec D} := {
  (** the records a recovery would replay *)
  records : D → list walRecord;
  (** the snapshot a recovery would read *)
  snapOf : D → option Snapshot;
  (** the stream ends in a whole record, and the next write goes there *)
  intact : D → Prop;
  (** the commands a record can hold *)
  cmd_ok : bytes → bool;

  Open_frame d :
    survives d → through (λ d', records d' = records d ∧ snapOf d' = snapOf d) (Open d);
  AppendEntries_spec es d :
    ready d → intact d →
    Forall (λ e, Term e < u64_size ∧ Index e < u64_size ∧ cmd_ok (Command e) = true) es →
    through (λ d', (∃ k, records d' = records d ++ (appendRecord <$> take k es)) ∧
                   snapOf d' = snapOf d) (AppendEntries es d) ∧
    (∀ a, io_res (AppendEntries es d) = inr a →
       intact (io_disk (AppendEntries es d)) ∧
       records (io_disk (AppendEntries es d)) = records d ++ (appendRecord <$> es));
  TruncateSuffix_spec from d :
    ready d → intact d → from < u64_size →
    through (λ d', (records d' = records d ∨ records d' = records d ++ [truncateRecord from]) ∧
                   snapOf d' = snapOf d) (TruncateSuffix from d) ∧
    (∀ a, io_res (TruncateSuffix from d) = inr a →
       intact (io_disk (TruncateSuffix from d)) ∧
       records (io_disk (TruncateSuffix from d)) = records d ++ [truncateRecord from]);
  Compact_spec es d :
    ready d →
    Forall (λ e, Term e < u64_size ∧ Index e < u64_size ∧ cmd_ok (Command e) = true) es →
    through (λ d', (records d' = records d ∨ records d' = appendRecord <$> es) ∧
                   snapOf d' = snapOf d) (Compact es d) ∧
    (∀ a, io_res (Compact es d) = inr a →
       intact (io_disk (Compact es d)) ∧
       records (io_disk (Compact es d)) = appendRecord <$> es);
  SaveSnapshot_spec s d :
    ready d → intact d → LastIncludedIndex s < u64_size → LastIncludedTerm s < u64_size →
    through (λ d', records d' = records d ∧ (snapOf d' = snapOf d ∨ snapOf d' = Some s))
      (SaveSnapshot s d) ∧
    (∀ a, io_res (SaveSnapshot s d) = inr a →
       intact (io_disk (SaveSnapshot s d)) ∧ snapOf (io_disk (SaveSnapshot s d)) = Some s);
  SaveHardState_frame hs d :
    ready d →
    through (λ d', records d' = records d ∧ snapOf d' = snapOf d) (SaveHardState hs d) ∧
    (intact d → intact (io_disk (SaveHardState hs d)));
  LoadHardState_frame d :
    survives d →
    through (λ d', records d' = records d ∧ snapOf d' = snapOf d) (LoadHardState d);
  LoadEntries_spec d :
    survives d →
    through (λ d', records d' = records d ∧ snapOf d' = snapOf d) (LoadEntries d) ∧
    (∀ es, io_res (LoadEntries d) = inr es →
       intact (io_disk (LoadEntries d)) ∧ replay (records d) = inr es);
  LoadSnapshot_spec d :
    survives d →
    through (λ d', records d' = records d ∧ snapOf d' = snapOf d) (LoadSnapshot d) ∧
    (∀ o, io_res (LoadSnapshot d) = inr o → snapOf d = o) ∧
    (intact d → intact (io_disk (LoadSnapshot d)))
}.

(** The disk of a running node. *)
Definition live `{LogStoreSpec D} (d : D) : Prop := ready d ∧ intact d.

(** An entry a record can hold. *)
Definition entry_fits `{LogStoreSpec D} (e : LogEntry) : Prop :=
  Term e < u64_size ∧ Index e < u64_size ∧ cmd_ok (Command e) = true.

Lemma through_and {D A} (P Q : D → Prop) (r : IoRes D A) :
  through P r → through Q r → through (λ d, P d ∧ Q d) r.
Proof. intros [? ?] [? ?]. split; [by apply Forall_and|done]. Qed.

Lemma through_impl {D A} (P Q : D → Prop) (r : IoRes D A) :
  (∀ d, P d → Q d) → through P r → through Q r.
Proof. intros HPQ [? ?]. split; [by eapply Forall_impl|auto]. Qed.

Lemma through_all {D A} (P : D → Prop) (r : IoRes D A) :
  through P r → Forall P (io_mid r ++ [io_disk r]).
Proof. intros [? ?]. apply Forall_app. split; [done|]. by constructor. Qed.
