(* ===== verification/Abstraction.v ===== *)
(** * Memory and disk of a node as images of the abstract node

    [memlog p] is the log slice of a node whose abstract state is [p]: the
    sentinel of the compaction boundary and the entries above it.  [diskrep d p]
    says that disk [d] recovers to [p]: its hard state, its snapshot position,
    and a record stream whose replay holds, above the snapshot, exactly the
    entries of [p] (or is refused altogether: a stream with a gap in it stays
    unreadable, see file Findings).  The lemmas compute the log operations of file
    Log and the store operations of LogContract on these images. *)

From S2P Require Import Prelude Types Effects Log Node Contracts Protocol ProtocolSafety Replay LogContract.

(** ** The log slice *)

Definition sentinelOf (p : PNode) : LogEntry :=
  mkEntry (tm (plog p) (pfloor p)) (N.of_nat (pfloor p)) "".

Definition memlog (p : PNode) : list LogEntry := sentinelOf p :: drop (pfloor p) (plog p).

(** What the log operations need to know of [p]. *)
Definition shaped (p : PNode) : Prop :=
  (pfloor p ≤ length (plog p))%nat ∧
  (∀ k e, (pfloor p ≤ k)%nat → plog p !! k = Some e → Index e = N.of_nat k + 1) ∧
  N.of_nat (length (plog p)) + 1 < u64_size.

Lemma consecutive_intro i l :
  (∀ k e, l !! k = Some e → Index e = i + N.of_nat k) → consecutive i l.
Proof.
  revert i. induction l as [|x l IH]; intros i H; simpl; [done|]. split.
  - specialize (H 0%nat x eq_refl). lia.
  - apply IH. intros k e Hk. specialize (H (S k) e Hk). lia.
Qed.

Section memlog.
Context (p : PNode) (Hp : shaped p).
Local Abbreviation b := (N.of_nat (pfloor p)).
Local Abbreviation len := (N.of_nat (length (plog p))).

Lemma suffix_consecutive k :
  (pfloor p ≤ k)%nat → consecutive (N.of_nat k + 1) (drop k (plog p)).
Proof.
  intros Hk. apply consecutive_intro. intros j e He. rewrite lookup_drop in He.
  destruct Hp as (_ & Hi & _). rewrite (Hi (k + j)%nat e) by (done || lia). lia.
Qed.

Lemma memlog_len : lenN (memlog p) = len - b + 1.
Proof.
  destruct Hp as (? & _). unfold memlog. rewrite lenN_cons. unfold lenN. rewrite length_drop. lia.
Qed.

Lemma memlog_base : baseIndex (memlog p) = Some b.
Proof. done. Qed.

Lemma memlog_wf : log_wf (memlog p).
Proof.
  pose proof memlog_len as Hlen. destruct Hp as (? & _ & ?). split.
  - by apply suffix_consecutive.
  - fold (memlog p). rewrite Hlen. simpl. lia.
Qed.

Lemma memlog_last : lastLogIndex (memlog p) = Some len.
Proof.
  rewrite (log_wf_last _ memlog_wf b memlog_base), memlog_len. destruct Hp as (? & _). f_equal. lia.
Qed.

Lemma memlog_lookup k :
  (pfloor p < k)%nat → (k ≤ length (plog p))%nat →
  memlog p !! (k - pfloor p)%nat = plog p !! (k - 1)%nat.
Proof.
  intros ? ?. unfold memlog. replace (k - pfloor p)%nat with (S (k - 1 - pfloor p)) by lia. simpl.
  rewrite lookup_drop. f_equal. lia.
Qed.

Lemma memlog_entryAt i :
  b < i → i ≤ len → entryAt (memlog p) i = plog p !! (N.to_nat i - 1)%nat.
Proof.
  intros ? ?. destruct Hp as (_ & _ & ?). unfold entryAt. rewrite memlog_base. simpl.
  rewrite u64_sub_small by lia. rewrite <-(memlog_lookup (N.to_nat i)) by lia.
  replace (N.to_nat i - pfloor p)%nat with (N.to_nat (i - b)) by lia.
  unfold slice_get. rewrite memlog_len, (proj2 (N.ltb_lt _ _)) by lia. done.
Qed.

Lemma memlog_termAt i :
  b ≤ i → i ≤ len → termAt (memlog p) i = Some (tm (plog p) (N.to_nat i)).
Proof.
  intros ? ?. destruct (termAt_in_range _ memlog_wf b i) as (e & He & _ & ->);
    [done|done|rewrite memlog_len; lia|]. f_equal.
  destruct (decide (i = b)) as [->|].
  - rewrite N.sub_diag in He. simpl in He. injection He as <-. simpl. by rewrite Nat2N.id.
  - replace (N.to_nat (i - b)) with (N.to_nat i - pfloor p)%nat in He by lia.
    rewrite memlog_lookup in He by lia.
    replace (N.to_nat i) with (S (N.to_nat i - 1)) by lia. by rewrite (tm_lookup _ _ _ He).
Qed.

(** An index the code can look up is one of the log's. *)
Lemma memlog_termAt_inv i t :
  i < u64_size → termAt (memlog p) i = Some t →
  b ≤ i ∧ i ≤ len ∧ t = tm (plog p) (N.to_nat i).
Proof.
  intros Hi Ht. destruct Hp as (? & _ & ?). assert (b ≤ i ∧ i ≤ len) as [? ?].
  { unfold termAt in Ht. rewrite memlog_base in Ht. simpl in Ht.
    destruct (decide (lenN (memlog p) ≤ i -w b)) as [Hge|Hlt].
    { by rewrite slice_get_ge in Ht. }
    rewrite memlog_len in Hlt. destruct (decide (b ≤ i)).
    - rewrite u64_sub_small in Hlt by lia. lia.
    - rewrite u64_sub_wraps in Hlt by lia. lia. }
  rewrite memlog_termAt in Ht by done. by injection Ht as <-.
Qed.

Lemma memlog_lastTerm : lastLogTerm (memlog p) = Some (tm (plog p) (length (plog p))).
Proof.
  destruct Hp as (Hf & _). pose proof (memlog_termAt len ltac:(lia) ltac:(lia)) as Ht.
  rewrite Nat2N.id in Ht. rewrite <-Ht.
  unfold lastLogTerm, lastEntry, termAt. rewrite memlog_base. simpl.
  destruct Hp as (_ & _ & Hr). rewrite u64_sub_small by lia. rewrite last_lookup.
  destruct (slice_get (memlog p) (len - b)) as [e|] eqn:He.
  - apply slice_get_Some in He. f_equal. rewrite <-He. f_equal. unfold memlog. simpl.
    rewrite length_drop. lia.
  - unfold slice_get in He. destruct (N.ltb_spec (len - b) (lenN (memlog p))); [|rewrite memlog_len in *; lia].
    f_equal. rewrite <-He. f_equal. unfold memlog. simpl. rewrite length_drop. lia.
Qed.

(** The entries after index [i]. *)
Lemma memlog_entriesFrom i :
  b ≤ i → i ≤ len → entriesFrom (memlog p) (i + 1) = Some (drop (N.to_nat i) (plog p)).
Proof.
  intros ? ?. rewrite (entriesFrom_in_range _ memlog_wf b); [|done|lia|rewrite memlog_len; lia].
  f_equal. replace (N.to_nat (i + 1 - b)) with (S (N.to_nat i - pfloor p)) by lia.
  unfold memlog. simpl. rewrite drop_drop. f_equal. lia.
Qed.

(** The two lookups of a replication round. *)
Lemma memlog_outbound next t es :
  termAt (memlog p) (next -w 1) = Some t → entriesFrom (memlog p) next = Some es →
  next -w 1 ≤ len ∧ t = tm (plog p) (N.to_nat (next -w 1)) ∧
  es = drop (N.to_nat (next -w 1)) (plog p).
Proof.
  intros Ht He. destruct (memlog_termAt_inv _ _ (u64_sub_lt _ _) Ht) as (? & ? & ->).
  split; [done|]. split; [done|]. destruct Hp as (? & _ & ?).
  assert (entriesFrom (memlog p) next = entriesFrom (memlog p) ((next -w 1) + 1)) as Heq.
  { unfold entriesFrom. rewrite memlog_base. simpl. rewrite u64_sub_mod by lia.
    rewrite u64_pred_inv by lia. done. }
  rewrite Heq, memlog_entriesFrom in He by done. by injection He as <-.
Qed.

(** Dropping the entries from index [i] on. *)
Lemma memlog_truncated i :
  b < i → i ≤ len + 1 →
  truncated (memlog p) i = Some (memlog (p <| plog := take (N.to_nat i - 1) (plog p) |>)).
Proof.
  intros ? ?. rewrite (truncated_in_range _ memlog_wf b); [|done|lia|rewrite memlog_len; lia].
  f_equal. unfold memlog, sentinelOf. simpl.
  replace (N.to_nat (i - b)) with (S (N.to_nat i - 1 - pfloor p)) by lia. simpl.
  rewrite skipn_firstn_comm. f_equal. f_equal.
  destruct (pfloor p) as [|f]; [done|]. simpl. by rewrite lookup_take_lt by lia.
Qed.

(** Appending after the last entry. *)
Lemma memlog_app es : memlog p ++ es = memlog (p <| plog := plog p ++ es |>).
Proof.
  destruct Hp as (Hf & _). unfold memlog, sentinelOf. simpl. rewrite drop_app_le by done. f_equal.
  f_equal. destruct (pfloor p) as [|f]; [done|]. simpl. by rewrite lookup_app_l by lia.
Qed.
End memlog.

(** Moving the boundary. *)
Lemma memlog_rebased p (b' : nat) :
  rebased (N.of_nat b') (tm (plog p) b') (drop b' (plog p)) = memlog (p <| pfloor := b' |>).
Proof. done. Qed.

(** ** Record streams *)

(** Entries above the boundary. *)
Definition above (b : N) (es : list LogEntry) : list LogEntry := filter (λ e, b < Index e) es.

(** The stream has a record of every entry of [es], and replays, if at all, to a
    contiguous run whose part above [b] is [es]. *)
Definition walrep (rs : list walRecord) (b : N) (es : list LogEntry) : Prop :=
  (∀ e, e ∈ es → appendRecord e ∈ rs) ∧
  ∀ l, replay rs = inr l →
    (∃ i, consecutive i l ∧ i + lenN l < u64_size) ∧ above b l = es.

Lemma above_all b i es : consecutive i es → b < i → above b es = es.
Proof.
  revert i. induction es as [|e es IH]; intros i Hc Hb; [done|]. destruct Hc as [Hi Hc].
  unfold above. rewrite filter_cons_True by lia. f_equal. apply (IH (i + 1)); [done|lia].
Qed.

Lemma above_drop b i es :
  consecutive i es → above b es = drop (N.to_nat (b + 1 - i)) es.
Proof.
  revert i. induction es as [|e es IH]; intros i Hc; [by rewrite drop_nil|].
  destruct (decide (b < i)) as [Hlt|Hge].
  - replace (N.to_nat (b + 1 - i)) with 0%nat by lia. by apply (above_all b i).
  - destruct Hc as [Hi Hc]. unfold above in *. rewrite filter_cons_False by lia.
    rewrite (IH (i + 1)) by done.
    replace (N.to_nat (b + 1 - i)) with (S (N.to_nat (b + 1 - (i + 1)))) by lia. done.
Qed.

Lemma above_above b b' es : b ≤ b' → above b' (above b es) = above b' es.
Proof.
  intros. unfold above. rewrite list_filter_filter. apply list_filter_iff. lia.
Qed.

Lemma above_app b es es' : above b (es ++ es') = above b es ++ above b es'.
Proof. apply filter_app. Qed.

Lemma truncateEntries_take i es from :
  consecutive i es → truncateEntries from es = take (N.to_nat (from - i)) es.
Proof.
  intros Hc. destruct (decide (from < i)) as [Hlt|Hge].
  - replace (N.to_nat (from - i)) with 0%nat by lia. unfold truncateEntries.
    assert (∀ rl, Forall (λ e, from ≤ Index e) rl → popFrom from rl = []) as Hpop.
    { induction 1 as [|e rl He _ IH]; simpl; [done|]. by rewrite (proj2 (N.leb_le _ _) He). }
    rewrite Hpop; [done|]. apply Forall_forall. intros e He. rewrite elem_of_reverse in He.
    apply list_elem_of_lookup in He as [k He]. rewrite (consecutive_lookup _ _ _ _ Hc He). lia.
  - destruct (decide (from ≤ i + lenN es)) as [|Hgt]; [apply truncateEntries_consecutive; lia || done|].
    unfold truncateEntries. rewrite take_ge by (unfold lenN in *; lia).
    destruct (reverse es) as [|e rl] eqn:Hr; simpl.
    { apply (f_equal reverse) in Hr. by rewrite reverse_involutive in Hr. }
    destruct (N.leb_spec from (Index e)) as [Hle|Hlt].
    + exfalso. assert (e ∈ es) as He by (rewrite <-(elem_of_reverse e es), Hr; by left).
      apply list_elem_of_lookup in He as [k He]. pose proof (lookup_lt_Some _ _ _ He).
      rewrite (consecutive_lookup _ _ _ _ Hc He) in Hle. unfold lenN in *. lia.
    + rewrite <-Hr. apply reverse_involutive.
Qed.

Section walrep.
Context (rs : list walRecord) (b : N) (es : list LogEntry).
Context (Hrep : walrep rs b es) (Hc : consecutive (b + 1) es).

Lemma walrep_append es' :
  consecutive (b + 1 + lenN es) es' → b + lenN es + lenN es' + 1 < u64_size →
  walrep (rs ++ (appendRecord <$> es')) b (es ++ es').
Proof.
  intros Hc' Hr'. split.
  { intros e [He|He]%elem_of_app; apply elem_of_app; [left; by apply Hrep|right; by apply list_elem_of_fmap_2]. }
  intros l Hl. rewrite replay_app in Hl.
  destruct (replay rs) as [err|l0] eqn:Hl0; [done|]. destruct (proj2 Hrep l0 Hl0) as ((i & Hi & Hir) & Habove).
  destruct es' as [|e es'].
  { simpl in Hl. injection Hl as <-. rewrite app_nil_r. eauto. }
  assert (consecutive i (l0 ++ e :: es') → i + lenN (l0 ++ e :: es') < u64_size →
          l = l0 ++ e :: es') as Hok.
  { intros H1 H2. rewrite (replayFrom_appends i) in Hl by done. by injection Hl. }
  assert (above b (l0 ++ e :: es') = es ++ e :: es') as Hab.
  { rewrite above_app, Habove. f_equal. apply (above_all b _ _ Hc'). lia. }
  destruct (decide (l0 = [])) as [->|Hne].
  - rewrite (replayFrom_appends (b + 1 + lenN es)) in Hl by (simpl; done || lia).
    injection Hl as <-. split; [|done]. exists (b + 1 + lenN es). split; [done|]. simpl. lia.
  - destruct (decide (i + lenN l0 = b + 1 + lenN es)) as [Heq|Hneq].
    + assert (consecutive i (l0 ++ e :: es')) as Hcc by (apply consecutive_app; rewrite Heq; done).
      assert (i + lenN (l0 ++ e :: es') < u64_size) as Hrr by (rewrite lenN_app; lia).
      rewrite (Hok Hcc Hrr). eauto.
    + exfalso. change (appendRecord <$> e :: es') with (appendRecord e :: (appendRecord <$> es')) in Hl.
      cbn [replayFrom] in Hl. destruct Hc' as [He _]. pose proof (nextIndexOf_consecutive i l0 Hi Hne Hir) as Hn.
      rewrite replayRecord_gap in Hl; [done|done|rewrite Hn|rewrite Hn, He; lia].
      assert (lenN l0 ≠ 0) by (unfold lenN; destruct l0; [done|simpl; lia]). lia.
Qed.

Lemma walrep_truncate from :
  b < from → walrep (rs ++ [truncateRecord from]) b (take (N.to_nat (from - (b + 1))) es).
Proof.
  intros Hf. split.
  { intros e He. apply elem_of_app. left. apply Hrep. eapply elem_of_subseteq; [apply subseteq_take|done]. }
  intros l Hl. rewrite replay_app in Hl.
  destruct (replay rs) as [err|l0] eqn:Hl0; [done|]. destruct (proj2 Hrep l0 Hl0) as ((i & Hi & Hir) & Habove).
  cbn [replayFrom] in Hl. unfold replayRecord in Hl. simpl in Hl.
  rewrite (proj2 (N.ltb_ge _ _)) in Hl by lia. rewrite (truncateEntries_take i) in Hl by done.
  injection Hl as <-. split.
  { exists i. split; [by apply consecutive_take|]. unfold lenN in *. rewrite length_take. lia. }
  rewrite (above_drop _ i) by (by apply consecutive_take). rewrite (above_drop _ i) in Habove by done.
  subst es. destruct (decide (b < i)) as [Hlt|Hge].
  - replace (N.to_nat (b + 1 - i)) with 0%nat in * by lia. rewrite !drop_0 in *.
    destruct l0 as [|e l0]; [by rewrite !take_nil|].
    destruct Hc as [? _], Hi as [? _]. f_equal. lia.
  - rewrite skipn_firstn_comm. f_equal. lia.
Qed.

Lemma walrep_raise b' : b ≤ b' → walrep rs b' (drop (N.to_nat (b' - b)) es).
Proof.
  intros Hb. split.
  { intros e He. apply Hrep. eapply elem_of_subseteq; [apply subseteq_drop|done]. }
  intros l Hl. destruct (proj2 Hrep l Hl) as (Hrun & Habove). split; [done|].
  rewrite <-(above_above b b') by done. rewrite Habove, (above_drop b' (b + 1)) by done.
  f_equal. lia.
Qed.
End walrep.

Lemma walrep_compact b es :
  consecutive (b + 1) es → b + lenN es + 1 < u64_size → walrep (appendRecord <$> es) b es.
Proof.
  intros Hc Hr. split; [intros e He; by apply list_elem_of_fmap_2|].
  intros l Hl. rewrite (replay_appends (b + 1)) in Hl by (done || lia). injection Hl as <-.
  split; [exists (b + 1); split; [done|lia]|]. apply (above_all b (b + 1)); [done|lia].
Qed.

(** NewNode's loop keeps exactly the entries above the snapshot. *)
Lemma recoverLog_above b want es l :
  consecutive want (above b es) → b < want → want + lenN (above b es) < u64_size →
  recoverLog b want es l = inr (l ++ above b es).
Proof.
  revert want l. induction es as [|e es IH]; intros want l Hc Hb Hr; simpl; [by rewrite app_nil_r|].
  destruct (N.leb_spec (Index e) b) as [Hle|Hgt].
  - unfold above in *. rewrite filter_cons_False in * by lia. by apply IH.
  - unfold above in *. rewrite filter_cons_True in * by lia. destruct Hc as [-> Hc].
    rewrite N.eqb_refl. simpl. rewrite lenN_cons in Hr. rewrite u64_add_small by lia.
    rewrite IH; [by rewrite <-app_assoc|done|lia|lia].
Qed.
