(* ===== verification/Simulation.v ===== *)
(** * Critical sections are sequences of protocol moves

    The representation relation between a live node and its abstract state
    ([node_rep]), the meaning of messages in the protocol's histories
    ([msg_rep]), and the effect of the store calls: each of them takes a disk
    that represents one protocol state to a disk that represents the next, and
    every disk a crash can leave in between represents a state that is
    reachable by protocol moves as well. *)

From S2P Require Import Prelude Types Effects Log Node Election Handlers Replication Hoare Contracts Terms Protocol ProtocolSafety Replay LogContract Abstraction.

Lemma hoare_exists {D SM A B} (P : B → Ctx D SM → Prop) (m : M D SM A) Q X :
  (∀ b, hoare (P b) m Q X) → hoare (λ c, ∃ b, P b c) m Q X.
Proof. intros H e c [b Hb]. by apply (H b). Qed.

Lemma hoare_weaken {D SM A} (P : Ctx D SM → Prop) (m : M D SM A)
    (Q Q' : A → Ctx D SM → Prop) X :
  hoare P m Q X → (∀ a c, Q a c → Q' a c) → hoare P m Q' X.
Proof. intros H HQ. by eapply hoare_conseq. Qed.

(** Prove a triple from one starting context at a time. *)
Lemma hoare_pointwise {D SM A} (P : Ctx D SM → Prop) (m : M D SM A) Q X :
  (∀ c0, P c0 → hoare (λ c, c = c0) m Q X) → hoare P m Q X.
Proof. intros H e c Hc. by apply (H c Hc). Qed.

Lemma hoare_from {D SM A} (P : Ctx D SM → Prop) (m : M D SM A) Q X c0 :
  hoare P m Q X → P c0 → hoare (λ c, c = c0) m Q X.
Proof. intros H Hc e c ->. by apply H. Qed.

Lemma hoare_get_at {D SM A} (k : RaftNode SM → M D SM A) Q X c0 :
  hoare (λ c, c = c0) (k (rn c0)) Q X → hoare (λ c, c = c0) (get ≫= k) Q X.
Proof. intros H e c ->. by apply (H e c0). Qed.

Section simulation.
Context {D SM : Type} `{!Storage D} `{!StateMachine SM} `{!StateMachineSpec SM} `{!StateStoreSpec D} `{!LogStoreSpec D}.
Context (members : list string).
Implicit Types (s : PState) (p : PNode) (n : RaftNode SM) (c : Ctx D SM) (i : string).

(** A majority of the members. *)
Definition isQ (Q : list string) : Prop :=
  NoDup Q ∧ Q ⊆ members ∧ (length members < 2 * length Q)%nat.

Local Abbreviation PI := (PInv isQ).

(** ** What the protocol state says about a node *)

(** Index [k] is committed, and [p] holds the committed entries up to it. *)
Definition committed s p (k : N) : Prop :=
  (pfloor p ≤ N.to_nat k)%nat ∧ (N.to_nat k ≤ length (plog p))%nat ∧
  settled s (N.to_nat k) (plog p).

(** The state machine after the first [k] committed entries, and the snapshot
    taken of it. *)
Definition state_at s (k : N) : SM := applyAll genesis (take (N.to_nat k) (cl s)).
Definition snapdata s (k : N) (data : option bytes) : Prop := SMSnapshot (state_at s k) = inr data.

(** Where the applier is: the committed entries up to lastApplied are applied,
    and during a batch those before its rest. *)
Definition applier_rep s n : Prop :=
  match applier n with
  | ApOff | ApWaiting => stateMachine n = Some (state_at s (lastApplied n))
  | ApApplying todo k =>
    lastApplied n + k ≤ commitIndex n ∧ lenN todo ≤ k ∧
    stateMachine n = Some (state_at s (lastApplied n + k - lenN todo)) ∧
    todo = drop (N.to_nat (lastApplied n + k - lenN todo)) (take (N.to_nat (lastApplied n + k)) (cl s))
  | ApRestoring snap =>
    stateMachine n = Some (state_at s (lastApplied n)) ∧
    LastIncludedIndex snap ≤ commitIndex n ∧ lastApplied n ≤ LastIncludedIndex snap ∧
    snapdata s (LastIncludedIndex snap) (SnapData snap)
  | ApSnapshotting i t =>
    i = lastApplied n ∧ t = tm (cl s) (N.to_nat i) ∧ stateMachine n = Some (state_at s i)
  end.

(** The applier never runs ahead of commitIndex; a recovered or a received
    snapshot waits to be restored. *)
Definition applying s n : Prop :=
  lastApplied n ≤ commitIndex n ∧ (started n = false → applier n = ApOff) ∧
  match initialSnapshotData n with
  | Some data => started n = false ∧ snapdata s (lastApplied n) (Some data)
  | None => applier_rep s n
  end ∧
  ∀ snap, pendingSnapshot n = Some snap →
    LastIncludedIndex snap ≤ commitIndex n ∧ snapdata s (LastIncludedIndex snap) (SnapData snap).

(** What was compacted away is applied, or about to be restored. *)
Definition covered p n : Prop :=
  N.of_nat (pfloor p) ≤ lastApplied n ∨
  (∃ sn, (pendingSnapshot n = Some sn ∨ applier n = ApRestoring sn) ∧
         N.of_nat (pfloor p) ≤ LastIncludedIndex sn).

Record node_core s i n : Prop := {
  nc_id : node_id n = i;
  nc_peers : peers n = filter (λ q, q ≠ i) members;
  nc_logstore : HasLogStore (cfg n) = true;
  nc_snapstore : HasSnapshotStore (cfg n) = true;
  nc_term : currentTerm n = pterm (pn s i);
  nc_vote : votedFor n = pvote (pn s i);
  nc_log : log n = memlog (pn s i);
  nc_commit : committed s (pn s i) (commitIndex n);
  nc_applying : applying s n;
  nc_covered : covered (pn s i) n
}.

(** A leader's log is the log of its term; a peer's matchIndex is committed or
    was acknowledged. *)
Definition role_rep s i n : Prop :=
  let t := pterm (pn s i) in
  match state n with
  | Follower => True
  | Candidate => (ll s t = None ∨ lead s t ≠ i) ∧ gr s i t i
  | Leader =>
    ll s t = Some (plog (pn s i)) ∧ lead s t = i ∧
    ∀ q m, matchIndex n !! q = Some m →
      settled s (N.to_nat m) (plog (pn s i)) ∨ ak s q t (N.to_nat m)
  end.

Definition node_rep s i n : Prop := node_core s i n ∧ role_rep s i n.

(** The snapshot on disk. *)
Definition snaprep (o : option Snapshot) p : Prop :=
  match o with
  | None => pfloor p = 0%nat
  | Some sn => LastIncludedIndex sn = N.of_nat (pfloor p) ∧
               LastIncludedTerm sn = tm (plog p) (pfloor p) ∧
               SMSnapshot (applyAll genesis (take (pfloor p) (plog p))) = inr (SnapData sn)
  end.

Definition diskrep (d : D) p : Prop :=
  hard d = mkHardState (pterm p) (pvote p) ∧ snaprep (snapOf d) p ∧
  walrep (records d) (N.of_nat (pfloor p)) (drop (pfloor p) (plog p)).

(** What a message of [i] says about the histories. *)
Definition msg_rep s i (x : Effect) : Prop :=
  match x with
  | GoRequestVote _ args =>
    st s i (RVA_Term args) = Some (RVA_LastLogTerm args, N.to_nat (RVA_LastLogIndex args)) ∧
    gr s i (RVA_Term args) i
  | GoAppendEntries _ t args =>
    AEA_Term args = t ∧ ∃ L, ll s t = Some L ∧
      let q := N.to_nat (AEA_PrevLogIndex args) in
      (q + length (AEA_Entries args) ≤ length L)%nat ∧ AEA_PrevLogTerm args = tm L q ∧
      (∀ k, (k < length (AEA_Entries args))%nat → AEA_Entries args !! k = L !! (q + k)%nat) ∧
      settled s (N.to_nat (AEA_LeaderCommit args)) L
  | GoInstallSnapshot q t args =>
    ISA_Term args = t ∧ q ≠ i ∧ lead s t = i ∧
    (∃ L, ll s t = Some L ∧
       (settled s (N.to_nat (ISA_LastIncludedIndex args)) L ∨ t < pterm (pn s i))) ∧
    (N.to_nat (ISA_LastIncludedIndex args) ≤ length (cl s))%nat ∧
    ISA_LastIncludedTerm args = tm (cl s) (N.to_nat (ISA_LastIncludedIndex args)) ∧
    snapdata s (ISA_LastIncludedIndex args) (ISA_Data args)
  | GoReplication t => is_Some (ll s t) ∧ lead s t = i ∧ gr s i t i
  | GoSendSnapshot q t => q ≠ i ∧ is_Some (ll s t) ∧ lead s t = i
  | GoElectionTicker | GoApplier | Signal => True
  end.

(** Leader logs fit the width of an index and the limits of the store. *)
Definition ranged s : Prop :=
  ∀ T L, ll s T = Some L → N.of_nat (length L) + 1 < u64_size ∧ Forall entry_fits L.

(** ** Moves of one node *)

Definition move i s s' : Prop :=
  pstep isQ s s' ∧ (∀ j, j ≠ i → pn s' j = pn s j) ∧ (∀ v, ll s v = None → ll s' v = None) ∧
  ranged s'.
Definition moves i : relation PState := rtc (move i).

Lemma isQ_meet Q Q' : isQ Q → isQ Q' → ∃ w, w ∈ Q ∧ w ∈ Q'.
Proof.
  intros (Hn & Hs & Hl) (Hn' & Hs' & Hl').
  destruct (decide (Exists (λ x, x ∈ Q') Q)) as [Hex|Hno]; [by apply Exists_exists in Hex|].
  exfalso. assert (NoDup (Q ++ Q')) as Hnd.
  { apply NoDup_app. split; [done|]. split; [|done]. intros x Hx Hx'. apply Hno.
    apply Exists_exists. eauto. }
  apply (NoDup_submseteq _ members) in Hnd; [|intros x [?|?]%elem_of_app; auto].
  apply submseteq_length in Hnd. rewrite length_app in Hnd. lia.
Qed.

Lemma move_facts i s s' : PI s → move i s s' → PI s' ∧ grows s s'.
Proof.
  intros HI (Hst & _). split; [by eapply (pstep_inv isQ isQ_meet)|by eapply (pstep_grows isQ isQ_meet)].
Qed.

Lemma moves_facts i s s' :
  PI s → ranged s → moves i s s' →
  PI s' ∧ ranged s' ∧ grows s s' ∧ (∀ j, j ≠ i → pn s' j = pn s j) ∧
  (∀ v, ll s v = None → ll s' v = None).
Proof.
  intros HI HR Hm. induction Hm as [s|s s1 s2 Hs _ IH]; [done|].
  destruct (move_facts i s s1 HI Hs) as [HI1 Hg1]. destruct Hs as (_ & Hf & Hn & HR1).
  destruct (IH HI1 HR1) as (? & ? & Hg2 & Hf2 & Hn2).
  split; [done|]. split; [done|]. split; [by etrans|]. split; [|auto].
  intros j Hj. rewrite Hf2 by done. auto.
Qed.

Lemma moves_one i s s' : move i s s' → moves i s s'.
Proof. apply rtc_once. Qed.

(** A move of node [i] that only changes its own state. *)
Lemma move_local i s p' :
  pstep isQ s (setNode s i p') → ranged s → move i s (setNode s i p').
Proof.
  intros Hst HR. split; [done|]. split; [|done]. intros j Hj. by apply setNode_ne.
Qed.

Lemma node_shaped s i : PI s → ranged s → shaped (pn s i).
Proof.
  intros HI HR. destruct (I_seated isQ s HI i) as [Hf Ha He]. split; [done|]. split.
  { intros k e Hk Hke. by apply (He k e Hk Hke). }
  destruct (decide (length (plog (pn s i)) = pfloor (pn s i))) as [Heq|Hne].
  - pose proof (agree_len _ _ _ Ha Hf) as Hlen. rewrite Heq.
    destruct (I_cl isQ s HI) as [Hnil|(u & Q & Hcert)].
    { rewrite Hnil in Hlen. simpl in Hlen. by replace (pfloor (pn s i)) with 0%nat by lia. }
    destruct (I_cert isQ s HI _ _ _ Hcert) as (_ & _ & L & HL & ? & _).
    destruct (HR u L HL) as [? _]. lia.
  - destruct (tm_inside (plog (pn s i)) (length (plog (pn s i)))) as (e & Hl & _); [lia..|].
    destruct (He (length (plog (pn s i)) - 1)%nat e ltac:(lia) Hl) as (_ & _ & L & HL & Hag). destruct (HR _ L HL) as [HL' _].
    rewrite Hag in Hl by lia. apply lookup_lt_Some in Hl. lia.
Qed.

(** ** Stability *)

Lemma committed_grows s s' p k : grows s s' → committed s p k → committed s' p k.
Proof.
  intros Hg (? & ? & Hc). split; [done|]. split; [done|].
  eapply settled_mono; [apply Hg|apply agree_refl|done].
Qed.

Lemma cl_grows s s' : grows s s' →
  agree 0 (length (cl s)) (cl s) (cl s') ∧ (length (cl s) ≤ length (cl s'))%nat.
Proof. intros [(_ & Hcl & _) _ _ _ _ _]. eauto using agree_len. Qed.

Lemma cl_tm_grows s s' k : grows s s' → (k ≤ length (cl s))%nat → tm (cl s') k = tm (cl s) k.
Proof.
  intros [Hcl _]%cl_grows Hk. destruct k as [|k]; [done|]. symmetry. eapply agree_tm; [exact Hcl|lia..].
Qed.

Lemma take_cl_grows s s' k :
  grows s s' → (k ≤ length (cl s))%nat → take k (cl s') = take k (cl s).
Proof.
  intros [Hcl _]%cl_grows Hk. symmetry. apply agree_take_eq. eapply agree_weaken; [exact Hcl|lia..].
Qed.

(** What was said of a leader's log holds of the log as it is now. *)
Lemma settled_grows s s' T L L' k :
  grows s s' → ll s T = Some L → ll s' T = Some L' → settled s k L → settled s' k L'.
Proof.
  intros Hg HL HL' Hs. pose proof (grows_evolves _ _ Hg) as Hev. pose proof Hev as (Hll & _).
  destruct (Hll T L HL) as (L1 & HL1 & Hag). simplify_eq. eapply settled_mono; [exact Hev| |exact Hs].
  destruct Hs as [Hk Hag']. eapply agree_weaken; [exact Hag|lia|].
  eapply agree_len; [by apply agree_sym|done].
Qed.

Lemma applying_grows s s' i n :
  grows s s' → committed s (pn s i) (commitIndex n) → applying s n → applying s' n.
Proof.
  intros Hg (_ & _ & Hc & _) (Hla & Hoff & Ha & Hps).
  assert (∀ k, k ≤ commitIndex n → take (N.to_nat k) (cl s') = take (N.to_nat k) (cl s)) as Htake.
  { intros k Hk. apply take_cl_grows; [done|lia]. }
  assert (∀ k, k ≤ commitIndex n → state_at s' k = state_at s k) as Hst.
  { intros k Hk. unfold state_at. by rewrite Htake. }
  split; [done|]. split; [done|]. split.
  - destruct (initialSnapshotData n); [unfold snapdata in *; by rewrite Hst|].
    unfold applier_rep in *. destruct (applier n) as [| |sn|todo k|j t]; try (by rewrite Hst by lia).
    + destruct Ha as (? & ? & ? & Ha). unfold snapdata in *. by rewrite !Hst.
    + destruct Ha as (? & ? & Ha & Htodo). rewrite Hst, Htake by lia. done.
    + destruct Ha as (-> & -> & ?). rewrite Hst by done. split; [done|]. split; [|done]. symmetry.
      apply cl_tm_grows; [done|lia].
  - intros sn Hsn. destruct (Hps sn Hsn) as [? Hd]. unfold snapdata in *. by rewrite Hst.
Qed.

(** The histories grew, the node did not change. *)
Lemma node_core_grows s s' i n :
  grows s s' → pn s' i = pn s i → node_core s i n → node_core s' i n.
Proof.
  intros Hg Hp []. split; rewrite ?Hp; try done.
  - by eapply committed_grows.
  - by eapply applying_grows.
Qed.

Lemma role_rep_grows s s' i n :
  grows s s' → (∀ v, ll s v = None → ll s' v = None ∨ lead s' v ≠ i) → pn s' i = pn s i →
  (state n = Leader → ll s' (pterm (pn s i)) = ll s (pterm (pn s i))) →
  role_rep s i n → role_rep s' i n.
Proof.
  intros Hg Hn Hp Hl. unfold role_rep. rewrite Hp. destruct (state n); [done| |].
  - intros [Hll Hgr]. split; [|by apply (grows_gr _ _ Hg)].
    destruct (ll s (pterm (pn s i))) as [L|] eqn:HL; [|by apply Hn]. right.
    destruct Hll as [|Hlead]; [done|]. by rewrite (grows_lead _ _ Hg _ L).
  - intros (HL & Hlead & Hm). rewrite Hl, HL by done. split; [done|].
    rewrite (grows_lead _ _ Hg _ _ HL). split; [done|]. intros q m Hq.
    destruct (Hm q m Hq) as [?|?]; [left|right].
    { eapply settled_mono; [apply Hg|apply agree_refl|done]. }
    by apply (grows_ak _ _ Hg).
Qed.

Lemma msg_rep_grows s s' i x : grows s s' → msg_rep s i x → msg_rep s' i x.
Proof.
  intros Hg. pose proof Hg as [(Hll & Hcl & _) Ht' Hgr _ Hst Hlead].
  destruct x as [q args|q t args|q t|q t args|t| | |]; simpl; try done.
  - intros [? ?]. auto.
  - intros (Ht & L & HL & Hlen & Htm & Hes & Hc). destruct (Hll _ _ HL) as (L' & HL' & Hag).
    split; [done|]. exists L'. pose proof (agree_len _ _ _ Hag ltac:(done)).
    split; [done|]. split; [lia|]. split; [|split].
    + rewrite Htm. destruct (N.to_nat (AEA_PrevLogIndex args)) eqn:Hq; [done|].
      eapply agree_tm; [exact Hag|lia..].
    + intros k Hk. rewrite Hes by done. apply Hag; lia.
    + by eapply (settled_grows s).
  - intros (? & [L HL] & ?). destruct (Hll _ _ HL) as (L' & HL' & _). rewrite (Hlead _ _ HL), HL'. by eauto.
  - intros (Ht & Hq & Hl & (L & HL & Hs) & Hb & Htm & Hd). destruct (Hll _ _ HL) as (L' & HL' & Hag).
    rewrite (Hlead _ _ HL). do 3 (split; [done|]). split; [exists L'; split; [done|]|split; [|split]].
    + destruct Hs as [Hs|Hlt]; [left; by eapply (settled_grows s)|right]. specialize (Ht' i). lia.
    + destruct (cl_grows _ _ Hg). lia.
    + rewrite Htm. symmetry. by apply cl_tm_grows.
    + unfold snapdata, state_at in *. by rewrite (take_cl_grows s s').
  - intros ([L HL] & Hl & ?). destruct (Hll _ _ HL) as (L' & HL' & Hag).
    split; [by eexists|]. rewrite (Hlead _ _ HL). auto.
Qed.

(** ** Disks *)

Lemma tm_app_l L L' k : (k ≤ length L)%nat → tm (L ++ L') k = tm L k.
Proof. intros ?. destruct k as [|k]; [done|]. simpl. by rewrite lookup_app_l by lia. Qed.
Lemma tm_take L j k : (k ≤ j)%nat → tm (take j L) k = tm L k.
Proof. intros ?. destruct k as [|k]; [done|]. simpl. by rewrite lookup_take_lt by lia. Qed.

Lemma snaprep_ext o p q :
  pfloor q = pfloor p → take (pfloor p) (plog q) = take (pfloor p) (plog p) →
  snaprep o p → snaprep o q.
Proof.
  intros Hf Ht. destruct o; simpl; rewrite Hf; [|done].
  rewrite Ht, <-(tm_take (plog q) (pfloor p)), Ht, tm_take by done. done.
Qed.

Lemma diskrep_hs d d' p t v :
  diskrep d p → hard d' = mkHardState t v → records d' = records d → snapOf d' = snapOf d →
  diskrep d' (p <| pterm := t |> <| pvote := v |>).
Proof. intros (_ & Hs & Hw) Hh Hr Hsn. split; [done|]. rewrite Hr, Hsn. done. Qed.

Lemma diskrep_append d d' p es :
  shaped p → diskrep d p → hard d' = hard d → snapOf d' = snapOf d →
  records d' = records d ++ (appendRecord <$> es) →
  consecutive (N.of_nat (length (plog p)) + 1) es →
  N.of_nat (length (plog p)) + lenN es + 1 < u64_size →
  diskrep d' (p <| plog := plog p ++ es |>).
Proof.
  intros Hp (Hh & Hs & Hw) Hh' Hsn Hr Hc Hrange. destruct (Hp) as (Hf & _ & ?).
  assert (N.of_nat (pfloor p) + lenN (drop (pfloor p) (plog p)) = N.of_nat (length (plog p))) as Hlen.
  { unfold lenN. rewrite length_drop. lia. }
  split; [by rewrite Hh'|]. split.
  - rewrite Hsn. eapply (snaprep_ext _ p); [done| |exact Hs]. by apply take_app_le.
  - rewrite Hr. simpl. rewrite drop_app_le by done. apply walrep_append; [done| |lia].
    by replace (N.of_nat (pfloor p) + 1 + lenN (drop (pfloor p) (plog p)))
      with (N.of_nat (length (plog p)) + 1) by lia.
Qed.

Lemma diskrep_truncate d d' p j :
  shaped p → diskrep d p → hard d' = hard d → snapOf d' = snapOf d →
  records d' = records d ++ [truncateRecord (N.of_nat j + 1)] →
  (pfloor p ≤ j)%nat → diskrep d' (p <| plog := take j (plog p) |>).
Proof.
  intros Hp (Hh & Hs & Hw) Hh' Hsn Hr Hj. split; [by rewrite Hh'|]. split.
  - rewrite Hsn. eapply (snaprep_ext _ p); [done| |exact Hs]. simpl. by rewrite firstn_firstn, Nat.min_l.
  - rewrite Hr. simpl. rewrite skipn_firstn_comm.
    replace (j - pfloor p)%nat with (N.to_nat (N.of_nat j + 1 - (N.of_nat (pfloor p) + 1))) by lia.
    apply walrep_truncate; [done|by apply suffix_consecutive|lia].
Qed.

(** The new snapshot is on disk, the stream is still the old one. *)
Lemma diskrep_snapshot d d' p sn rest b :
  shaped p → diskrep d p → hard d' = hard d → records d' = records d → snapOf d' = Some sn →
  LastIncludedIndex sn = N.of_nat b → LastIncludedTerm sn = tm rest b →
  SMSnapshot (applyAll genesis (take b rest)) = inr (SnapData sn) →
  (pfloor p ≤ b)%nat → drop b rest = drop b (plog p) →
  diskrep d' (p <| pfloor := b |> <| plog := rest |>).
Proof.
  intros Hp (Hh & Hs & Hw) Hh' Hr Hsn Hi Ht Hdata Hb Hrest. split; [by rewrite Hh'|]. split.
  - by rewrite Hsn.
  - rewrite Hr. simpl. rewrite Hrest. eapply walrep_raise with (b' := N.of_nat b) in Hw;
      [|by apply suffix_consecutive|lia].
    rewrite drop_drop in Hw. by replace (pfloor p + N.to_nat (N.of_nat b - N.of_nat (pfloor p)))%nat
      with b in Hw by lia.
Qed.

(** ** Store calls *)

Section calls.
Context s0 i (HI0 : PI s0) (HR0 : ranged s0).

(** A disk a crash may leave: it recovers to a state the protocol can reach. *)
Definition crashed (d : D) : Prop := survives d ∧ ∃ s, moves i s0 s ∧ diskrep d (pn s i).
Definition simX c : Prop := crashed (disk c) ∧ Forall crashed (crash c).

(** The disk of a live node represents [s]. *)
Definition stored s c : Prop :=
  moves i s0 s ∧ live (disk c) ∧ diskrep (disk c) (pn s i) ∧ Forall crashed (crash c).

Lemma stored_X s c : stored s c → simX c.
Proof. intros (? & [? _] & ? & ?). split; [|done]. split; [by apply ready_survives|eauto]. Qed.

(** A store call that takes the disk from [s] to [s']. *)
Lemma stored_must_to {A} what (op : Io D A) s s' (F : RaftNode SM → list Effect → Prop) :
  moves i s0 s' →
  (∀ d, live d → diskrep d (pn s i) →
     through crashed (op d) ∧
     (∀ a, io_res (op d) = inr a → live (io_disk (op d)) ∧ diskrep (io_disk (op d)) (pn s' i))) →
  hoare (λ c, stored s c ∧ F (rn c) (out c)) (must what op)
    (λ _ c, stored s' c ∧ F (rn c) (out c)) simX.
Proof.
  intros Hm Hop. apply hoare_must. intros c [(Hs & Hr & Hd & Hc) HF]. cbv zeta.
  destruct (Hop (disk c) Hr Hd) as [Hthr Hok].
  assert (Forall crashed (crash c ++ io_mid (op (disk c)) ++ [io_disk (op (disk c))])) as Hall.
  { apply Forall_app. split; [done|]. by apply through_all. }
  destruct (io_res (op (disk c))) as [err|a] eqn:Hres.
  - split; [apply Hthr|done].
  - destruct (Hok a eq_refl) as [? ?]. split; [|done]. done.
Qed.

(** ... where [s'] is reached from [s]. *)
Lemma stored_must {A} what (op : Io D A) s s' (F : RaftNode SM → list Effect → Prop) :
  moves i s s' →
  (∀ d, live d → diskrep d (pn s i) →
     through (λ d', survives d' ∧ ∃ s1, moves i s s1 ∧ diskrep d' (pn s1 i)) (op d) ∧
     (∀ a, io_res (op d) = inr a → live (io_disk (op d)) ∧ diskrep (io_disk (op d)) (pn s' i))) →
  hoare (λ c, stored s c ∧ F (rn c) (out c)) (must what op)
    (λ _ c, stored s' c ∧ F (rn c) (out c)) simX.
Proof.
  intros Hm Hop. apply hoare_pointwise. intros c0 [Hst HF]. pose proof Hst as (Hs & _).
  eapply hoare_from; [apply (stored_must_to what op s s' F)|done]; [by etrans|].
  intros d Hr Hd. destruct (Hop d Hr Hd) as [Hthr Hok]. split; [|done].
  eapply through_impl; [|exact Hthr]. intros d' (? & s1 & ? & ?). split; [done|].
  exists s1. split; [by etrans|done].
Qed.

Lemma call_SaveHardState s s' t v :
  moves i s s' → pn s' i = (pn s i) <| pterm := t |> <| pvote := v |> →
  t < u64_size → name_ok v = true →
  ∀ d, live d → diskrep d (pn s i) →
    through (λ d', survives d' ∧ ∃ s1, moves i s s1 ∧ diskrep d' (pn s1 i))
      (SaveHardState (mkHardState t v) d) ∧
    (∀ a, io_res (SaveHardState (mkHardState t v) d) = inr a →
       live (io_disk (SaveHardState (mkHardState t v) d)) ∧
       diskrep (io_disk (SaveHardState (mkHardState t v) d)) (pn s' i)).
Proof.
  intros Hm Hp Ht Hv d [Hr Hin] Hd.
  destruct (SaveHardState_spec (mkHardState t v) d Ht Hv Hr) as [Hthr Hok].
  destruct (SaveHardState_frame (mkHardState t v) d Hr) as [Hfr Hin']. split.
  - eapply through_impl; [|exact (through_and _ _ _ Hthr Hfr)].
    intros d' [[Hsv [Hh|Hh]] [Hrec Hsn]]; (split; [done|]).
    + exists s. split; [reflexivity|]. destruct Hd as (? & ? & ?).
      split; [by rewrite Hh|]. by rewrite Hrec, Hsn.
    + exists s'. split; [done|]. rewrite Hp. by eapply diskrep_hs.
  - intros a Ha. destruct (Hok a Ha) as [? ?]. destruct Hfr as [_ [? ?]].
    split; [by split; auto|]. rewrite Hp. by eapply diskrep_hs.
Qed.

Lemma call_AppendEntries s s' es :
  PI s → ranged s →
  (∀ k, (k ≤ length es)%nat →
     ∃ s1, moves i s s1 ∧ pn s1 i = (pn s i) <| plog := plog (pn s i) ++ take k es |>) →
  pn s' i = (pn s i) <| plog := plog (pn s i) ++ es |> →
  Forall entry_fits es → consecutive (N.of_nat (length (plog (pn s i))) + 1) es →
  N.of_nat (length (plog (pn s i))) + lenN es + 1 < u64_size →
  ∀ d, live d → diskrep d (pn s i) →
    through (λ d', survives d' ∧ ∃ s1, moves i s s1 ∧ diskrep d' (pn s1 i)) (AppendEntries es d) ∧
    (∀ a, io_res (AppendEntries es d) = inr a →
       live (io_disk (AppendEntries es d)) ∧ diskrep (io_disk (AppendEntries es d)) (pn s' i)).
Proof.
  intros HI HR Hpre Hp' Hfit Hc Hrange d [Hr Hin] Hd. pose proof (node_shaped s i HI HR) as Hsh.
  destruct (AppendEntries_frame es d Hr) as [Hthr Hok].
  destruct (AppendEntries_spec es d Hr Hin Hfit) as [Hfr Hok']. split.
  - eapply through_impl; [|exact (through_and _ _ _ Hthr Hfr)].
    intros d' [[Hsv Hh] [[k Hrec] Hsn]]. split; [done|].
    destruct (Hpre (k `min` length es)%nat ltac:(lia)) as (s1 & Hm & Hp1). exists s1. split; [done|].
    rewrite Hp1. assert (take (k `min` length es) es = take k es) as Htk.
    { destruct (decide (k ≤ length es)%nat); [by rewrite Nat.min_l by lia|].
      rewrite Nat.min_r, !take_ge by lia. done. }
    eapply diskrep_append; try done.
    + by rewrite Hrec, Htk.
    + by apply consecutive_take.
    + unfold lenN in *. rewrite length_take. lia.
  - intros a Ha. destruct Hthr as [_ [_ ?]], Hfr as [_ [_ ?]]. destruct (Hok' a Ha).
    split; [by split; eauto|]. rewrite Hp'. by eapply diskrep_append.
Qed.

Lemma call_TruncateSuffix s s' j :
  PI s → ranged s → moves i s s' → pn s' i = (pn s i) <| plog := take j (plog (pn s i)) |> →
  (pfloor (pn s i) ≤ j)%nat → N.of_nat j + 1 < u64_size →
  ∀ d, live d → diskrep d (pn s i) →
    through (λ d', survives d' ∧ ∃ s1, moves i s s1 ∧ diskrep d' (pn s1 i))
      (TruncateSuffix (N.of_nat j + 1) d) ∧
    (∀ a, io_res (TruncateSuffix (N.of_nat j + 1) d) = inr a →
       live (io_disk (TruncateSuffix (N.of_nat j + 1) d)) ∧
       diskrep (io_disk (TruncateSuffix (N.of_nat j + 1) d)) (pn s' i)).
Proof.
  intros HI HR Hm Hp' Hj Hrange d [Hr Hin] Hd. pose proof (node_shaped s i HI HR) as Hsh.
  destruct (TruncateSuffix_frame (N.of_nat j + 1) d Hr) as [Hthr Hok].
  destruct (TruncateSuffix_spec (N.of_nat j + 1) d Hr Hin Hrange) as [Hfr Hok']. split.
  - eapply through_impl; [|exact (through_and _ _ _ Hthr Hfr)].
    intros d' [[Hsv Hh] [[Hrec|Hrec] Hsn]]; (split; [done|]).
    + exists s. split; [reflexivity|]. destruct Hd as (? & ? & ?).
      split; [by rewrite Hh|]. by rewrite Hrec, Hsn.
    + exists s'. split; [done|]. rewrite Hp'. by eapply diskrep_truncate.
  - intros a Ha. destruct Hthr as [_ [_ ?]], Hfr as [_ [_ ?]]. destruct (Hok' a Ha).
    split; [by split; eauto|]. rewrite Hp'. by eapply diskrep_truncate.
Qed.

Lemma call_SaveSnapshot s s' sn b rest :
  PI s → ranged s → moves i s0 s → moves i s0 s' →
  pn s' i = (pn s i) <| pfloor := b |> <| plog := rest |> →
  LastIncludedIndex sn = N.of_nat b → LastIncludedTerm sn = tm rest b →
  SMSnapshot (applyAll genesis (take b rest)) = inr (SnapData sn) →
  N.of_nat b < u64_size → tm rest b < u64_size → (pfloor (pn s i) ≤ b)%nat →
  drop b rest = drop b (plog (pn s i)) →
  ∀ d, live d → diskrep d (pn s i) →
    through crashed (SaveSnapshot sn d) ∧
    (∀ a, io_res (SaveSnapshot sn d) = inr a →
       live (io_disk (SaveSnapshot sn d)) ∧ diskrep (io_disk (SaveSnapshot sn d)) (pn s' i)).
Proof.
  intros HI HR Hm Hm' Hp' Hi Ht Hdata Hb Htb Hf Hrest d [Hr Hin] Hd. pose proof (node_shaped s i HI HR) as Hsh.
  destruct (SaveSnapshot_frame sn d Hr) as [Hthr Hok].
  destruct (SaveSnapshot_spec sn d Hr Hin) as [Hfr Hok']; [by rewrite Hi|by rewrite Ht|]. split.
  - eapply through_impl; [|exact (through_and _ _ _ Hthr Hfr)].
    intros d' [[Hsv Hh] [Hrec [Hsn|Hsn]]]; (split; [done|]).
    + exists s. split; [done|]. destruct Hd as (? & ? & ?). split; [by rewrite Hh|]. by rewrite Hrec, Hsn.
    + exists s'. split; [done|]. rewrite Hp'. by eapply diskrep_snapshot.
  - intros a Ha. destruct Hthr as [_ [_ ?]], Hfr as [_ [? _]]. destruct (Hok' a Ha).
    split; [by split; eauto|]. rewrite Hp'. by eapply diskrep_snapshot.
Qed.

Lemma call_Compact s s' l :
  PI s' → ranged s' → moves i s0 s → moves i s0 s' →
  pn s' i = (pn s i) <| plog := l |> →
  take (pfloor (pn s i)) l = take (pfloor (pn s i)) (plog (pn s i)) →
  Forall entry_fits (drop (pfloor (pn s i)) l) →
  ∀ d, live d → diskrep d (pn s i) →
    through crashed (Compact (drop (pfloor (pn s i)) l) d) ∧
    (∀ a, io_res (Compact (drop (pfloor (pn s i)) l) d) = inr a →
       live (io_disk (Compact (drop (pfloor (pn s i)) l) d)) ∧
       diskrep (io_disk (Compact (drop (pfloor (pn s i)) l) d)) (pn s' i)).
Proof.
  intros HI HR Hm Hm' Hp' Htm Hfit d [Hr Hin] Hd. pose proof (node_shaped s' i HI HR) as Hsh.
  destruct (Compact_frame (drop (pfloor (pn s i)) l) d Hr) as [Hthr Hok].
  destruct (Compact_spec (drop (pfloor (pn s i)) l) d Hr Hfit) as [Hfr Hok'].
  assert (∀ d', hard d' = hard d → snapOf d' = snapOf d →
            records d' = appendRecord <$> drop (pfloor (pn s i)) l → diskrep d' (pn s' i)) as Hnew.
  { intros d' Hh Hsn Hrec. destruct Hd as (Hh0 & Hs0 & _). destruct (Hsh) as (? & _ & ?).
    split; [by rewrite Hh, Hh0, Hp'|]. split.
    - rewrite Hsn, Hp'. by apply (snaprep_ext _ (pn s i)).
    - rewrite Hrec. pose proof (suffix_consecutive (pn s' i) Hsh (pfloor (pn s' i)) ltac:(done)) as Hc.
      rewrite Hp' in Hc |- *. simpl in Hc |- *. apply walrep_compact; [done|].
      rewrite Hp' in *. simpl in *. unfold lenN. rewrite length_drop. lia. }
  split.
  - eapply through_impl; [|exact (through_and _ _ _ Hthr Hfr)].
    intros d' [[Hsv Hh] [[Hrec|Hrec] Hsn]]; (split; [done|]).
    + exists s. split; [done|]. destruct Hd as (? & ? & ?). split; [by rewrite Hh|]. by rewrite Hrec, Hsn.
    + exists s'. auto.
  - intros a Ha. destruct Hthr as [_ [_ ?]], Hfr as [_ [_ ?]]. destruct (Hok' a Ha).
    split; [by split; eauto|]. by apply Hnew.
Qed.
End calls.
End simulation.
