(* ===== verification/SectionSim.v ===== *)
(** * The sections of a node, simulated

    Each critical section of package raft, started in a node that represents a
    protocol state, ends in a node that represents a state reached by protocol
    moves; the messages it emits and the answers it gives are true of that
    state. *)

From S2P Require Import Prelude Types Effects Log Node Election Handlers Replication Hoare Contracts Terms Protocol ProtocolSafety Replay LogContract Abstraction Simulation.

Section sections.
Context {D SM : Type} `{!Storage D} `{!StateMachine SM} `{!StateMachineSpec SM} `{!StateStoreSpec D} `{!LogStoreSpec D}.
Context (members : list string).
Implicit Types (s : PState) (p : PNode) (n : RaftNode SM) (c : Ctx D SM).
Local Abbreviation PI := (PInv (isQ members)).
Local Abbreviation node_core := (node_core (SM := SM) members).
Local Abbreviation node_rep := (node_rep (SM := SM) members).

(** The part of a node the representation looks at. *)
Definition view n :=
  (node_id n, peers n, cfg n, (currentTerm n, votedFor n, log n, commitIndex n),
   (lastApplied n, applier n, pendingSnapshot n),
   (stateMachine n, initialSnapshotData n, started n)).

Lemma node_core_view s i n n' : view n' = view n → node_core s i n → node_core s i n'.
Proof.
  unfold view. intros [= Hid Hp Hc Ht Hv Hl Hci Hla Hap Hps Hsm Hin Hst] [].
  split; unfold applying, applier_rep, covered in *;
    rewrite ?Hid, ?Hp, ?Hc, ?Ht, ?Hv, ?Hl, ?Hci, ?Hla, ?Hap, ?Hps, ?Hsm, ?Hin, ?Hst; done.
Qed.

Lemma node_rep_view s i n n' :
  view n' = view n → state n' = state n → matchIndex n' = matchIndex n →
  node_rep s i n → node_rep s i n'.
Proof.
  intros Hv Hs Hm [Hc Hr]. split; [by eapply node_core_view|]. unfold role_rep. by rewrite Hs, Hm.
Qed.

(** A new term and vote. *)
Lemma node_core_hs s s' i n n' t v :
  PI s → grows s s' → pn s' i = (pn s i) <| pterm := t |> <| pvote := v |> → pterm (pn s i) ≤ t →
  view n' = view (n <| currentTerm := t |> <| votedFor := v |>) →
  node_core s i n → node_core s' i n'.
Proof.
  intros HI Hg Hp Ht Hview Hc. eapply node_core_view; [exact Hview|].
  destruct Hc as [? ? ? ? ? ? ? Hco Hap Hcv]. split; rewrite ?Hp; try done.
  - exact (committed_grows _ _ _ _ Hg Hco).
  - eapply (applying_grows s s' i); [done|exact Hco|exact Hap].
Qed.

(** commitIndex moves up. *)
Lemma applying_raise s n k :
  applying s n → commitIndex n ≤ k → applying s (n <| commitIndex := k |>).
Proof.
  intros (Hla & Hoff & Hap & Hps) Hk. split; [simpl; lia|]. split; [done|]. split; simpl.
  - destruct (initialSnapshotData n); [done|]. unfold applier_rep in *. simpl.
    destruct (applier n); try done.
    + destruct Hap as (? & ? & ?). split; [done|]. split; [lia|done].
    + destruct Hap as [? Hap]. split; [lia|exact Hap].
  - intros sn Hsn. destruct (Hps sn Hsn). split; [lia|done].
Qed.

Section one.
Context s0 (i : string) (HI0 : PI s0) (HR0 : ranged s0).
Local Abbreviation stored := (stored (D := D) (SM := SM) members s0 i).
Local Abbreviation simX := (simX (D := D) (SM := SM) members s0 i).
Local Abbreviation moves := (moves members).

(** A live node represents [s]. *)
Definition sim s c : Prop :=
  stored s c ∧ node_rep s i (rn c) ∧ Forall (msg_rep s i) (out c).
Definition simI c : Prop := ∃ s, sim s c.

Lemma stored_facts s c : stored s c → PI s ∧ ranged s ∧ grows s0 s.
Proof.
  intros (Hm & _). destruct (moves_facts members i s0 s HI0 HR0 Hm) as (? & ? & ? & _). done.
Qed.

Lemma sim_X s c : sim s c → simX c.
Proof. intros (? & _). by eapply stored_X. Qed.
Lemma simI_X c : simI c → simX c.
Proof. intros (s & ?). by eapply sim_X. Qed.

(** A fact about a message that was true at the start is true now. *)
Lemma sim_msg s c j x : stored s c → msg_rep s0 j x → msg_rep s j x.
Proof. intros Hs. destruct (stored_facts s c Hs) as (_ & _ & Hg). by eapply msg_rep_grows. Qed.

(** *** Steps that do not concern the protocol *)

Lemma sim_inert s f :
  (∀ n, view (f n) = view n ∧ state (f n) = state n ∧ matchIndex (f n) = matchIndex n) →
  hoare (sim s) (modify f) (λ _, sim s) simX.
Proof.
  intros Hf. apply hoare_modify. intros c (Hst & Hn & Ho). destruct (Hf (rn c)) as (? & ? & ?).
  split; [exact Hst|]. split; [|exact Ho]. simpl. by eapply node_rep_view.
Qed.

Lemma sim_emit s x : msg_rep s i x → hoare (sim s) (emit x) (λ _, sim s) simX.
Proof.
  intros Hx. apply hoare_emit. intros c (Hst & Hn & Ho). split; [exact Hst|]. split; [exact Hn|].
  simpl. apply Forall_app. split; [done|]. by constructor.
Qed.

Lemma simI_inert f :
  (∀ n, view (f n) = view n ∧ state (f n) = state n ∧ matchIndex (f n) = matchIndex n) →
  keeps simI simX (modify f).
Proof.
  intros Hf. apply hoare_exists. intros s. eapply hoare_weaken; [by apply sim_inert|]. by exists s.
Qed.

Lemma simI_emit x : (∀ s, msg_rep s i x) → keeps simI simX (emit x).
Proof.
  intros Hf. apply hoare_exists. intros s. eapply hoare_weaken; [by apply sim_emit|]. by exists s.
Qed.

Lemma sim_reset s (F : RaftNode SM → Prop) :
  (∀ m a b, F m → F (m <| electionResetAt := a |> <| electionTimeout := b |>)) →
  hoare (λ c, stored s c ∧ F (rn c) ∧ Forall (msg_rep s i) (out c)) resetElectionTimerLocked
    (λ _ c, stored s c ∧ F (rn c) ∧ Forall (msg_rep s i) (out c)) simX.
Proof.
  intros HF. apply hoare_ask. intros e. apply hoare_get. intros m. apply hoare_modify.
  intros c [(Hst & Hn & Ho) _]. split; [exact Hst|]. split; [|exact Ho]. by apply HF.
Qed.

(** *** Terms *)

Lemma sim_persist s s' t v (F : RaftNode SM → list Effect → Prop) :
  moves i s s' → pn s' i = (pn s i) <| pterm := t |> <| pvote := v |> →
  t < u64_size → name_ok v = true → (∀ m o, F m o → currentTerm m = t ∧ votedFor m = v) →
  hoare (λ c, stored s c ∧ F (rn c) (out c)) persistLocked
    (λ _ c, stored s' c ∧ F (rn c) (out c)) simX.
Proof.
  intros Hm Hp Ht Hv HF e c [Hst HFc]. destruct (HF _ _ HFc) as [Hct Hvf].
  unfold persistLocked. run_m. rewrite Hct, Hvf.
  exact (stored_must members s0 i "persisting hard state" _ s s' F Hm
           (call_SaveHardState members i s s' t v Hm Hp Ht Hv) e c (conj Hst HFc)).
Qed.

(** The abstract node enters term [t]. *)
Lemma move_term s t :
  PI s → ranged s → pterm (pn s i) < t →
  move members i s (setNode s i ((pn s i) <| pterm := t |> <| pvote := None_ |>)).
Proof. intros HI HR Ht. apply move_local; [by apply p_term|done]. Qed.

Lemma sim_becomeFollower s n t :
  t < u64_size →
  hoare (λ c, sim s c ∧ rn c = n) (becomeFollowerLocked t)
    (λ _ c, ∃ s', sim s' c ∧ state (rn c) = Follower ∧
                  currentTerm (rn c) = N.max (currentTerm n) t) simX.
Proof.
  intros Ht. apply hoare_get. intros n'.
  set (P := λ s' m, node_core s' i m ∧ currentTerm m = N.max (currentTerm n) t).
  eapply hoare_bind with (R := λ _ c, ∃ s', stored s' c ∧ P s' (rn c) ∧ Forall (msg_rep s' i) (out c)).
  - apply hoare_when.
    2: { intros Hge%N.ltb_ge c [[(Hst & [Hc _] & Ho) Hn] Hn']. subst n' n. exists s.
         split; [exact Hst|]. split; [|exact Ho]. split; [exact Hc|lia]. }
    intros Hlt%N.ltb_lt.
    set (s' := setNode s i ((pn s i) <| pterm := t |> <| pvote := None_ |>)).
    eapply hoare_bind with (R := λ _ c, (stored s c ∧ pterm (pn s i) < t) ∧
      P s' (rn c) ∧ Forall (msg_rep s' i) (out c)).
    { apply hoare_modify. intros c [[(Hst & [Hc _] & Ho) Hn] Hn']. subst n' n.
      destruct (stored_facts s c Hst) as (HI & HR & Hg).
      rewrite (nc_term _ _ _ _ Hc) in Hlt.
      pose proof (move_term s t HI HR Hlt) as Hmv. destruct (move_facts members i s s' HI Hmv) as [_ Hg'].
      split; [split; [exact Hst|done]|]. split.
      - split; [|simpl; rewrite (nc_term _ _ _ _ Hc); lia].
        eapply node_core_hs; [exact HI|exact Hg'|apply setNode_eq|lia| |exact Hc]. done.
      - eapply Forall_impl; [exact Ho|]. intros x. by apply msg_rep_grows. }
    intros ?. eapply hoare_bind with (R := λ _ c, stored s' c ∧ P s' (rn c) ∧ Forall (msg_rep s' i) (out c)).
    + intros e c [[Hst Hlt'] HF]. destruct (stored_facts s c Hst) as (HI & HR & Hg).
      apply (sim_persist s s' t None_ (λ m o, P s' m ∧ Forall (msg_rep s' i) o)); try done.
      * apply moves_one. by apply move_term.
      * apply setNode_eq.
      * apply name_ok_none.
      * intros m o [[Hc _] _]. destruct Hc. unfold s' in *. rewrite setNode_eq in *. done.
    + intros ?. eapply hoare_weaken; [apply (sim_reset s' (P s'))|].
      * intros m x y [Hc Hle]. split; [|done]. eapply node_core_view; [|exact Hc]. done.
      * intros ? c H. by exists s'.
  - intros ?. apply hoare_exists. intros s'. apply hoare_modify. intros c (Hst & [Hc Hle] & Ho).
    exists s'. split; [|done]. split; [exact Hst|]. split; [|exact Ho]. split; [|done].
    eapply node_core_view; [|exact Hc]. done.
Qed.

(** The opening move of every receiver. *)
Lemma sim_adopt s n t :
  t < u64_size →
  hoare (λ c, sim s c ∧ rn c = n) (when (currentTerm n <? t) (becomeFollowerLocked t))
    (λ _ c, ∃ s', sim s' c ∧ t ≤ currentTerm (rn c)) simX.
Proof.
  intros Ht. apply hoare_when.
  - intros _. eapply hoare_weaken; [by apply (sim_becomeFollower s n t)|].
    intros ? c (s' & ? & _ & ?). exists s'. split; [done|lia].
  - intros Hge%N.ltb_ge c [Hs Hn]. subst n. eauto.
Qed.

(** A follower of the leader of term [t]. *)
Definition follows t s c : Prop :=
  sim s c ∧ state (rn c) = Follower ∧ currentTerm (rn c) = t.

Lemma sim_acceptLeader s t l :
  t < u64_size →
  hoare (λ c, sim s c ∧ currentTerm (rn c) = t) (acceptLeader t l)
    (λ _ c, ∃ s', follows t s' c) simX.
Proof.
  intros Ht. apply hoare_get. intros n. eapply hoare_bind with (R := λ _ c, ∃ s', follows t s' c).
  - apply hoare_when.
    + intros _ e c [[Hs Hct] Hn]. pose proof (sim_becomeFollower s n t Ht e c (conj Hs Hn)) as H.
      destruct (becomeFollowerLocked t e c); [|exact H]. destruct H as (s' & Hs' & Hf & Hmax).
      exists s'. split; [exact Hs'|]. split; [exact Hf|]. subst n. lia.
    + intros Hf c [[Hs Hct] Hn]. exists s. split; [exact Hs|]. split; [|exact Hct]. subst n.
      by destruct (bool_decide_reflect (state (rn c) = Follower)).
  - intros ?. apply hoare_exists. intros s'. eapply hoare_bind with (R := λ _ c, follows t s' c).
    + apply hoare_modify. intros c ((Hst & Hn & Ho) & Hf & Hct). split; [|done].
      split; [exact Hst|]. split; [|exact Ho]. eapply node_rep_view; [..|exact Hn]; done.
    + intros ?. apply hoare_ask. intros e. apply hoare_get. intros m. apply hoare_modify.
      intros c [((Hst & Hn & Ho) & Hf & Hct) _]. exists s'. split; [|done].
      split; [exact Hst|]. split; [|exact Ho]. eapply node_rep_view; [..|exact Hn]; done.
Qed.

(** *** Following the leader's log *)

(** [es] is the run of [L] that starts at position [q]. *)
Definition run_of (L : list LogEntry) (q : nat) (es : list LogEntry) : Prop :=
  (q + length es ≤ length L)%nat ∧ ∀ k, (k < length es)%nat → es !! k = L !! (q + k)%nat.

Lemma run_of_cons L q e es : run_of L q (e :: es) → L !! q = Some e ∧ run_of L (S q) es.
Proof.
  intros [Hlen Hes]. simpl in Hlen. split; [specialize (Hes 0%nat); simpl in Hes; rewrite Nat.add_0_r in Hes; symmetry; apply Hes; lia|].
  split; [lia|]. intros k Hk. specialize (Hes (S k)). simpl in Hes.
  rewrite Hes by lia. f_equal. lia.
Qed.

Lemma run_of_drop L q es : run_of L q es → drop q (take (q + length es) L) = es.
Proof.
  intros [Hlen Hes]. apply list_eq. intros k. rewrite lookup_drop. destruct (decide (k < length es)%nat).
  - rewrite lookup_take_lt by lia. by rewrite Hes.
  - rewrite lookup_take_ge by lia. symmetry. apply lookup_ge_None. lia.
Qed.

Lemma run_of_take L q es k : run_of L q es → run_of L q (take k es).
Proof.
  intros [Hlen Hes]. split; [rewrite length_take; lia|]. intros j Hj. rewrite length_take in Hj.
  rewrite lookup_take_lt by lia. apply Hes. lia.
Qed.

Lemma run_of_fits s T L q es :
  PI s → ranged s → ll s T = Some L → run_of L q es →
  Forall entry_fits es ∧ consecutive (N.of_nat q + 1) es.
Proof.
  intros HI HR HL [Hlen Hes]. split.
  - apply Forall_forall. intros e (k & Hk)%list_elem_of_lookup. destruct (HR T L HL) as [_ Hf].
    pose proof (lookup_lt_Some _ _ _ Hk). rewrite Hes in Hk by done.
    by eapply (proj1 (Forall_lookup _ _) Hf).
  - apply consecutive_intro. intros k e Hk. pose proof (lookup_lt_Some _ _ _ Hk).
    rewrite Hes in Hk by done. destruct (I_wf _ s HI T L _ e HL Hk) as (_ & -> & _). lia.
Qed.

(** The follower holds what the leader has up to position [q]. *)
Definition matched s L q : Prop :=
  (q ≤ length (plog (pn s i)))%nat ∧ agree (pfloor (pn s i)) q (plog (pn s i)) L.

(** A node whose log changed above what it knows to be committed. *)
Lemma node_core_log s s' n n' l' :
  PI s → grows s s' → pn s' i = (pn s i) <| plog := l' |> →
  log n' = memlog (pn s' i) → view (n' <| log := log n |>) = view n →
  (N.to_nat (commitIndex n) ≤ length l')%nat →
  agree 0 (N.to_nat (commitIndex n)) l' (plog (pn s i)) →
  node_core s i n → node_core s' i n'.
Proof.
  intros HI Hg Hp Hl Hv Hlen Hag Hc. unfold view in Hv. simpl in Hv.
  injection Hv as Hid Hpe Hcf Ht Hvo Hci Hla Hap Hps Hsm Hin Hst. pose proof Hc as [].
  split; rewrite ?Hid, ?Hpe, ?Hcf, ?Ht, ?Hvo, ?Hci; try done; try (by rewrite Hp).
  - rewrite Hp. destruct (committed_grows s s' _ _ Hg nc_commit) as (? & ? & ? & ?).
    split; [done|]. split; [done|]. split; [done|]. by eapply agree_trans.
  - pose proof (applying_grows s s' i n Hg nc_commit nc_applying) as Happ.
    unfold applying, applier_rep in *. by rewrite Hci, Hla, Hap, Hps, Hsm, Hin, Hst.
  - unfold covered in *. rewrite Hp, Hla, Hap, Hps. done.
Qed.

(** What the memory half of a follower is while a store call runs. *)
Definition idle t s n (o : list Effect) : Prop :=
  node_core s i n ∧ state n = Follower ∧ currentTerm n = t ∧ Forall (msg_rep s i) o.

Lemma follows_idle t s c : follows t s c → stored s c ∧ idle t s (rn c) (out c).
Proof. intros ((Hst & [Hc _] & Ho) & ? & ?). done. Qed.

(** The log slice of an idle follower is replaced, its disk is already there. *)
Lemma follows_relog t s s' n n' l' c :
  PI s → grows s s' → pn s' i = (pn s i) <| plog := l' |> → idle t s n (out c) →
  log n' = memlog (pn s' i) → view (n' <| log := log n |>) = view n → state n' = state n →
  (N.to_nat (commitIndex n) ≤ length l')%nat →
  agree 0 (N.to_nat (commitIndex n)) l' (plog (pn s i)) →
  stored s' c → follows t s' (c <| rn := n' |>).
Proof.
  intros HI Hg Hp (Hc & Hf & Hct & Ho) Hl Hv Hs Hlen Hag Hst.
  assert (currentTerm n' = currentTerm n) as Hct' by (unfold view in Hv; simpl in Hv; congruence).
  split; [|simpl; by rewrite Hct', Hs]. split; [exact Hst|]. split.
  - split; [by eapply (node_core_log s s' n)|]. unfold role_rep. simpl. by rewrite Hs, Hf.
  - eapply Forall_impl; [exact Ho|]. intros x. by apply msg_rep_grows.
Qed.

Lemma sim_append s L es t :
  ll s t = Some L → run_of L (length (plog (pn s i))) es → matched s L (length (plog (pn s i))) →
  hoare (follows t s) (appendLogLocked es)
    (λ _ c, ∃ s', follows t s' c ∧ ll s' t = Some L ∧ pfloor (pn s' i) = pfloor (pn s i) ∧
                  matched s' L (length (plog (pn s i)) + length es)) simX.
Proof.
  intros HL Hrun [_ Hag0] e0 c0 Hfol. revert e0 c0 Hfol. set (l := plog (pn s i)) in *.
  set (sk := λ k, setNode s i ((pn s i) <| plog := l ++ drop (length l) (take (length l + k) L) |>)).
  intros e0 c0 Hfol. pose proof Hfol as ((Hst0 & [Hc0 _] & _) & _ & Hct0).
  destruct (stored_facts s c0 Hst0) as (HI & HR & _).
  assert (ll s (pterm (pn s i)) = Some L) as HLp by (by rewrite <-(nc_term _ _ _ _ Hc0), Hct0).
  destruct (HR t L HL) as [HrL _]. destruct (run_of_fits s t L _ es HI HR HL Hrun) as [Hfit Hcons].
  assert (∀ k, (k ≤ length es)%nat → move members i s (sk k)) as Hmv.
  { intros k Hk. apply move_local; [|done]. destruct Hrun.
    by apply (p_extend _ s i L (length l + k)); [..|fold l; lia|lia]. }
  assert (∀ k, (k ≤ length es)%nat → pn (sk k) i = (pn s i) <| plog := l ++ take k es |>) as Hpn.
  { intros k Hk. unfold sk. rewrite setNode_eq.
    pose proof (run_of_drop L (length l) (take k es) (run_of_take _ _ _ _ Hrun)) as Hdrop.
    rewrite length_take, Nat.min_l in Hdrop by lia. by rewrite Hdrop. }
  assert (pn (sk (length es)) i = (pn s i) <| plog := l ++ es |>) as Hpn'.
  { by rewrite Hpn, firstn_all by lia. }
  destruct (move_facts members i s _ HI (Hmv (length es) ltac:(done))) as [HI' Hg'].
  enough (hoare (λ c, c = c0) (appendLogLocked es)
    (λ _ c, ∃ s', follows t s' c ∧ ll s' t = Some L ∧ pfloor (pn s' i) = pfloor (pn s i) ∧
                  matched s' L (length l + length es)) simX) as H by (by apply H).
  apply hoare_get. intros n. eapply hoare_bind with (R := λ _ c, stored (sk (length es)) c ∧
    rn c = rn c0 ∧ out c = out c0).
  - apply hoare_when.
    2: { intros Hno c [-> <-]. by rewrite (nc_logstore _ _ _ _ Hc0) in Hno. }
    intros _. eapply hoare_conseq; [apply (stored_must members s0 i _ _ s (sk (length es))
      (λ m o, m = rn c0 ∧ o = out c0))|..]; [| | |done|done].
    + by apply moves_one, Hmv.
    + apply call_AppendEntries; try done.
      * intros k Hk. exists (sk k). split; [by apply moves_one, Hmv|]. by apply Hpn.
      * fold l. destruct Hrun as [Hlen _]. unfold lenN. lia.
    + intros c [-> _]. split; [exact Hst0|done].
  - intros ?. apply hoare_modify. intros c (Hst & Hrn & Hout). exists (sk (length es)).
    apply follows_idle in Hfol as [_ Hid]. rewrite <-Hout in Hid.
    pose proof (nc_commit _ _ _ _ Hc0) as (Hci1 & Hci2 & _). fold l in Hci2.
    split; [|split; [done|split]].
    + rewrite Hrn. eapply (follows_relog t s _ (rn c0) _ (l ++ es));
        [exact HI|exact Hg'|exact Hpn'|exact Hid| |done|done| | |exact Hst].
      * change (log (rn c0) ++ es = memlog (pn (sk (length es)) i)).
        rewrite (nc_log _ _ _ _ Hc0), Hpn'. apply memlog_app. by eapply node_shaped.
      * rewrite length_app. lia.
      * eapply agree_weaken; [apply agree_sym, agree_prefix, prefix_app_r; reflexivity|lia|exact Hci2].
    + by rewrite Hpn'.
    + unfold matched. rewrite Hpn'. simpl. rewrite length_app. split; [done|].
      destruct Hrun as [Hlen Hes]. intros j Hj Hjl. destruct (decide (j < length l)%nat).
      * rewrite lookup_app_l by done. by apply Hag0.
      * rewrite lookup_app_r, Hes by lia. f_equal. lia.
Qed.

Lemma sim_truncate s L j e e' t :
  ll s t = Some L → (pfloor (pn s i) ≤ j)%nat → plog (pn s i) !! j = Some e → L !! j = Some e' →
  e ≠ e' → agree (pfloor (pn s i)) j (plog (pn s i)) L →
  hoare (λ c, follows t s c ∧ commitIndex (rn c) ≤ N.of_nat j) (truncateLogLocked (N.of_nat j + 1))
    (λ _ c, ∃ s', follows t s' c ∧ ll s' t = Some L ∧ pfloor (pn s' i) = pfloor (pn s i) ∧
                  length (plog (pn s' i)) = j ∧ matched s' L j) simX.
Proof.
  intros HL Hf He He' Hne Hag e0 c0 [Hfol Hci]. pose proof Hfol as ((Hst0 & [Hc0 _] & _) & _ & Hct0).
  destruct (stored_facts s c0 Hst0) as (HI & HR & _).
  assert (ll s (pterm (pn s i)) = Some L) as HLp by (by rewrite <-(nc_term _ _ _ _ Hc0), Hct0).
  set (s' := setNode s i ((pn s i) <| plog := take j (plog (pn s i)) |>)).
  assert (move members i s s') as Hmv by (apply move_local; [by eapply p_truncate|done]).
  destruct (move_facts members i s s' HI Hmv) as [HI' Hg'].
  assert (pn s' i = (pn s i) <| plog := take j (plog (pn s i)) |>) as Hpn by apply setNode_eq.
  pose proof (node_shaped members s i HI HR) as Hsh. pose proof (lookup_lt_Some _ _ _ He) as Hlt.
  destruct (Hsh) as (_ & _ & Hr).
  enough (hoare (λ c, c = c0) (truncateLogLocked (N.of_nat j + 1))
    (λ _ c, ∃ s', follows t s' c ∧ ll s' t = Some L ∧ pfloor (pn s' i) = pfloor (pn s i) ∧
                  length (plog (pn s' i)) = j ∧ matched s' L j) simX) as H by (by apply H).
  apply hoare_get. intros n. eapply hoare_bind with (R := λ _ c, (stored s' c ∧
    rn c = rn c0 ∧ out c = out c0) ∧ n = rn c0).
  - apply hoare_when.
    2: { intros Hno c [-> <-]. by rewrite (nc_logstore _ _ _ _ Hc0) in Hno. }
    intros _. eapply hoare_conseq; [apply (stored_must members s0 i _ _ s s'
      (λ m o, (m = rn c0 ∧ o = out c0) ∧ n = rn c0))|..]; [| | | |done].
    + by apply moves_one.
    + apply call_TruncateSuffix; try done; [by apply moves_one|lia].
    + intros c [-> <-]. split; [exact Hst0|done].
    + intros ? c (? & [? ?] & ?). done.
  - intros ?. apply hoare_pre_pure. intros ->.
    assert (truncated (log (rn c0)) (N.of_nat j + 1) = Some (memlog (pn s' i))) as Htr.
    { rewrite (nc_log _ _ _ _ Hc0), memlog_truncated by (done || lia). rewrite Hpn.
      by replace (N.to_nat (N.of_nat j + 1) - 1)%nat with j by lia. }
    rewrite Htr. eapply hoare_bind with (R := λ l c, (stored s' c ∧ rn c = rn c0 ∧ out c = out c0) ∧
      l = memlog (pn s' i)).
    { apply hoare_index; [done|]. intros l c Hc [= <-]. done. }
    intros l. apply hoare_pre_pure. intros ->. apply hoare_modify. intros c (Hst & Hrn & Hout).
    exists s'. apply follows_idle in Hfol as [_ Hid]. rewrite <-Hout in Hid.
    split; [|split; [done|split; [|split]]].
    + rewrite Hrn. eapply (follows_relog t s _ (rn c0) _ (take j (plog (pn s i))));
        [exact HI|exact Hg'|exact Hpn|exact Hid|done|done|done| | |exact Hst].
      * rewrite length_take. lia.
      * apply agree_take. lia.
    + by rewrite Hpn.
    + rewrite Hpn. simpl. rewrite length_take. lia.
    + unfold matched. rewrite Hpn. simpl. rewrite length_take. split; [lia|].
      eapply agree_trans; [by apply agree_take|done].
Qed.

(** Two logs with an entry of the same term at the same index agree up to it. *)
Lemma matched_step s L t q e :
  PI s → ll s t = Some L → matched s L q → (pfloor (pn s i) ≤ q)%nat →
  (q < length (plog (pn s i)))%nat → L !! q = Some e → tm (plog (pn s i)) (S q) = Term e →
  matched s L (S q).
Proof.
  intros HI HL [Hq Hag] Hf Hlt He Htm. split; [lia|].
  destruct (lookup_lt_is_Some_2 (plog (pn s i)) q Hlt) as [x Hx].
  rewrite (tm_lookup _ _ _ Hx) in Htm.
  destruct (seat_entry _ _ _ _ (I_seated _ s HI i) q x Hf Hx) as (_ & _ & L1 & HL1 & Hag1).
  destruct (I_wf _ s HI t L q e HL He) as (_ & _ & L2 & HL2 & Hag2). rewrite Htm in HL1. simplify_eq.
  eapply agree_trans; [exact Hag1|]. apply agree_sym. by eapply agree_weaken; [exact Hag2|lia|].
Qed.

Lemma sim_appendWalk es : ∀ s L q t,
  ll s t = Some L → matched s L q → run_of L q es →
  hoare (follows t s) (appendWalk (N.of_nat (pfloor (pn s i))) es)
    (λ _ c, ∃ s', follows t s' c ∧ ll s' t = Some L ∧ matched s' L (q + length es)) simX.
Proof.
  induction es as [|e es IH]; intros s L q t HL Hm Hrun; simpl.
  { rewrite Nat.add_0_r. apply hoare_ret. eauto. }
  destruct (run_of_cons _ _ _ _ Hrun) as [He Hrun'].
  intros e0 c0 Hfol. pose proof Hfol as (Hsim & Hfo & Hct0). pose proof Hsim as (Hst0 & [Hc0 _] & _).
  destruct (stored_facts s c0 Hst0) as (HI & HR & _).
  destruct (I_wf _ s HI t L q e HL He) as (_ & Hidx & _). rewrite Hidx.
  destruct (node_shaped members s i HI HR) as (Hf & _ & Hr). pose proof (node_shaped members s i HI HR) as Hsh.
  replace (q + S (length es))%nat with (S q + length es)%nat by lia. destruct Hm as [Hq Hag].
  destruct (N.leb_spec (N.of_nat q + 1) (N.of_nat (pfloor (pn s i)))) as [Hle|Hgt].
  { apply (IH s L (S q) t HL); [|done|done]. split; [lia|]. apply agree_empty. lia. }
  unfold mbind, m_mbind, m_bind, get. rewrite (nc_log _ _ _ _ Hc0), memlog_last by done. simpl.
  destruct (N.leb_spec (N.of_nat q + 1) (N.of_nat (length (plog (pn s i))))) as [Hin|Hout].
  - rewrite memlog_termAt by (done || lia). simpl.
    replace (N.to_nat (N.of_nat q + 1)) with (S q) by lia.
    destruct (N.eqb_spec (tm (plog (pn s i)) (S q)) (Term e)) as [Heq|Hne].
    { apply (IH s L (S q) t HL); [|done|done]. by apply (matched_step s L t q e HI HL (conj Hq Hag)); [lia|lia|..]. }
    destruct (N.leb_spec (N.of_nat q + 1) (commitIndex (rn c0))) as [Hpan|Hci].
    { by eapply sim_X. }
    destruct (lookup_lt_is_Some_2 (plog (pn s i)) q ltac:(lia)) as [x Hx].
    pose proof (sim_truncate s L q x e t HL ltac:(lia) Hx He) as Htr.
    assert (x ≠ e) as Hxe by (intros ->; by rewrite (tm_lookup _ _ _ Hx) in Hne).
    assert (commitIndex (rn c0) ≤ N.of_nat q) as Hci' by lia.
    specialize (Htr Hxe Hag e0 c0 (conj Hfol Hci')).
    destruct (truncateLogLocked (N.of_nat q + 1) e0 c0) as [? c1|w c1]; [|exact Htr].
    destruct Htr as (s1 & Hfol1 & HL1 & Hf1 & Hlen1 & Hm1).
    pose proof (sim_append s1 L (e :: es) t HL1) as Hap. rewrite Hlen1 in Hap.
    specialize (Hap Hrun Hm1 e0 c1 Hfol1). destruct (appendLogLocked (e :: es) e0 c1); [|exact Hap].
    destruct Hap as (s2 & ? & ? & ? & Hm2). exists s2. split; [done|]. split; [done|].
    simpl in Hm2. by rewrite Nat.add_succ_r in Hm2.
  - assert (q = length (plog (pn s i))) as -> by lia.
    pose proof (sim_append s L (e :: es) t HL Hrun (conj Hq Hag) e0 c0 Hfol) as Hap.
    destruct (appendLogLocked (e :: es) e0 c0); [|exact Hap].
    destruct Hap as (s2 & ? & ? & ? & Hm2). exists s2. split; [done|]. split; [done|].
    simpl in Hm2. by rewrite Nat.add_succ_r in Hm2.
Qed.

(** *** HandleAppendEntries *)

(** The check passes only if the follower holds the leader's log up to
    PrevLogIndex. *)
Lemma sim_consistencyCheck s t args reply L :
  ll s t = Some L → AEA_PrevLogTerm args = tm L (N.to_nat (AEA_PrevLogIndex args)) →
  (N.to_nat (AEA_PrevLogIndex args) ≤ length L)%nat →
  hoare (follows t s) (consistencyCheck args reply)
    (λ r c, follows t s c ∧
       match r with
       | None => matched s L (N.to_nat (AEA_PrevLogIndex args))
       | Some r => AER_Success r = AER_Success reply
       end) simX.
Proof.
  intros HL Htm HlenL e0 c0 Hfol. pose proof Hfol as (Hsim & Hfo & Hct0). pose proof Hsim as (Hst0 & [Hc0 _] & _).
  destruct (stored_facts s c0 Hst0) as (HI & HR & _).
  pose proof (node_shaped members s i HI HR) as Hsh. destruct (Hsh) as (Hf & _ & Hr).
  unfold consistencyCheck. unfold mbind, m_mbind, m_bind, get.
  rewrite (nc_log _ _ _ _ Hc0), memlog_base, memlog_last by done. simpl.
  destruct (N.ltb_spec (N.of_nat (length (plog (pn s i)))) (AEA_PrevLogIndex args)) as [|Hle]; [done|].
  destruct (N.leb_spec (N.of_nat (pfloor (pn s i))) (AEA_PrevLogIndex args)) as [Hb|Hb].
  - rewrite memlog_termAt by (done || lia). simpl.
    destruct (N.eqb_spec (tm (plog (pn s i)) (N.to_nat (AEA_PrevLogIndex args))) (AEA_PrevLogTerm args))
      as [Heq|Hne]; simpl.
    + split; [done|]. set (q := N.to_nat (AEA_PrevLogIndex args)) in *.
      destruct (decide (q = pfloor (pn s i))) as [->|Hnq]; [split; [lia|by apply agree_empty]|].
      destruct (tm_inside L q) as (e & He & Hte); [lia|done|].
      destruct (tm_inside (plog (pn s i)) q) as (x & Hx & Htx); [lia..|].
      destruct (seat_entry _ _ _ _ (I_seated _ s HI i) (q - 1) x ltac:(lia) Hx) as (_ & _ & L1 & HL1 & Hag1).
      destruct (I_wf _ s HI t L (q - 1)%nat e HL He) as (_ & _ & L2 & HL2 & Hag2).
      rewrite <-Htx, Heq, Htm, Hte in HL1. simplify_eq.
      replace (S (q - 1)) with q in * by lia. split; [lia|].
      eapply agree_trans; [exact Hag1|]. apply agree_sym. by eapply agree_weaken; [exact Hag2|lia|].
    + destruct (conflictScan _ _ _ _ _); simpl; [done|by eapply sim_X].
  - split; [done|]. split; [lia|]. apply agree_empty. lia.
Qed.

Lemma sim_advanceFollowerCommit s t args L m :
  ll s t = Some L → (m ≤ length L)%nat → matched s L m →
  AEA_PrevLogIndex args +w lenN (AEA_Entries args) = N.of_nat m →
  settled s (N.to_nat (AEA_LeaderCommit args)) L →
  hoare (follows t s) (advanceFollowerCommit args) (λ _ c, follows t s c) simX.
Proof.
  intros HL HmL [Hm Hag] Hlast [Hlcl Hagcl]. apply hoare_get. intros n. apply hoare_when; [|by intros _ c [? _]].
  intros _. cbv zeta. rewrite Hlast. apply hoare_when; [|by intros _ c [? _]]. intros Hlt%N.ltb_lt.
  eapply hoare_bind with (R := λ _ c, follows t s c).
  - apply hoare_modify. intros c [((Hst & [Hc Hrole] & Ho) & Hf & Hct) Hn]. subst n.
    destruct (stored_facts s c Hst) as (HI & HR & _).
    pose proof (seat_agree _ _ _ _ (I_seated _ s HI i)) as Hlow.
    split; [|done]. split; [exact Hst|]. split; [|exact Ho].
    split; [|unfold role_rep; simpl; by rewrite Hf].
    destruct Hc as [? ? ? ? ? ? ? (Hfl & _) Happ Hcv]. split; try done; simpl.
    + split; [lia|]. split; [lia|]. split; [lia|]. eapply agree_join; [exact Hlow|].
      eapply agree_trans; (eapply agree_weaken; [exact Hag || exact Hagcl|lia..]).
    + apply applying_raise; [done|lia].
  - intros ?. apply hoare_emit. intros c ((Hst & Hn & Ho) & Hf & Hct). split; [|done].
    split; [exact Hst|]. split; [exact Hn|]. apply Forall_app. split; [done|]. by constructor.
Qed.

Lemma sim_takeEntries s src t args reply L :
  msg_rep s0 src (GoAppendEntries i t args) → ll s t = Some L →
  matched s L (N.to_nat (AEA_PrevLogIndex args)) →
  run_of L (N.to_nat (AEA_PrevLogIndex args)) (AEA_Entries args) →
  hoare (follows t s) (takeEntries args reply)
    (λ r c, ∃ s', sim s' c ∧
       ak s' i t (N.to_nat (AEA_PrevLogIndex args) + length (AEA_Entries args))) simX.
Proof.
  intros Hmsg HL Hm Hrun. set (q := N.to_nat (AEA_PrevLogIndex args)) in *.
  set (es := AEA_Entries args) in *. apply hoare_get. intros n.
  eapply hoare_bind with (R := λ b c, follows t s c ∧ b = N.of_nat (pfloor (pn s i))).
  { apply hoare_index; [intros c [[Hs _] _] _; by eapply sim_X|].
    intros b c [Hf Hn] Hb. split; [done|]. destruct Hf as ((_ & [Hc _] & _) & _). subst n.
    rewrite (nc_log _ _ _ _ Hc), memlog_base in Hb. congruence. }
  intros b. apply hoare_pre_pure. intros ->.
  eapply hoare_bind; [by apply (sim_appendWalk es s L q t)|]. intros ?.
  apply hoare_exists. intros s3. apply hoare_pointwise. intros c0 (Hfol & HL3 & Hm3).
  pose proof Hfol as ((Hst0 & [Hc0 _] & _) & _ & Hct0). destruct (stored_facts s3 c0 Hst0) as (HI & HR & _).
  destruct (sim_msg s3 c0 src _ Hst0 Hmsg) as (_ & L' & HL' & Hlen & _ & _ & Hcert).
  rewrite HL3 in HL'. injection HL' as <-. fold q es in Hlen.
  eapply hoare_bind; [eapply hoare_from; [apply (sim_advanceFollowerCommit s3 t args L (q + length es)%nat)|exact Hfol]|];
    try done.
  { destruct (HR t L HL3) as [HrL _]. fold es. rewrite u64_add_small; unfold lenN; lia. }
  intros ?. apply hoare_ret. intros c ((Hst & Hn & Ho) & Hf & Hct).
  assert (pterm (pn s3 i) = t) as Hpt by (by rewrite <-Hct, (nc_term _ _ _ _ (proj1 Hn))).
  destruct Hm3 as [Hm3 Hag3].
  set (s4 := s3 <| ak := λ w' u k, ak s3 w' u k ∨
     (w' = i ∧ u = pterm (pn s3 i) ∧ (k ≤ q + length es)%nat) |>).
  assert (move members i s3 s4) as Hmv.
  { split; [|done]. apply (p_ack _ s3 i L); [by rewrite Hpt|done|done|done]. }
  destruct (move_facts members i s3 s4 HI Hmv) as [HI4 Hg4]. exists s4. split; [|by right].
  split; [|split].
  - destruct Hst as (Hmo & ? & ? & ?). split; [|done]. by eapply rtc_r.
  - destruct Hn as [Hc Hrole]. split; [by eapply (node_core_grows members s3)|].
    eapply (role_rep_grows s3); try done. by left.
  - eapply Forall_impl; [exact Ho|]. intros x. by apply msg_rep_grows.
Qed.

Theorem sim_HandleAppendEntries s src t args :
  msg_rep s0 src (GoAppendEntries i t args) → AEA_Term args < u64_size →
  hoare (sim s) (HandleAppendEntries args)
    (λ r c, ∃ s', sim s' c ∧
       (AER_Success r = true →
        ak s' i t (N.to_nat (AEA_PrevLogIndex args) + length (AEA_Entries args)))) simX.
Proof.
  intros Hmsg Hrange. apply hoare_get. intros n. destruct (stopped n).
  { apply hoare_ret. intros c [Hs _]. by exists s. }
  eapply hoare_bind; [by apply sim_adopt|]. intros ?. apply hoare_exists. intros s1.
  apply hoare_get. intros n1. destruct (N.ltb_spec (AEA_Term args) (currentTerm n1)) as [|Hle].
  { apply hoare_ret. intros c [[Hs _] _]. by exists s1. }
  pose proof Hmsg as (Ht & _). rewrite Ht in *.
  eapply hoare_bind; [eapply hoare_conseq; [apply (sim_acceptLeader s1 t _ Hrange)|..]|].
  { intros c [[Hs Hge] Hn]. subst n1. split; [exact Hs|lia]. }
  { by intros ? c H. }
  { done. }
  intros ?. apply hoare_exists. intros s2. apply hoare_pointwise. intros c0 Hfol.
  pose proof Hfol as ((Hst0 & _) & _).
  destruct (sim_msg s2 c0 src _ Hst0 Hmsg) as (_ & L & HL & Hlen & Htm & Hes & Hcert).
  eapply hoare_bind; [eapply hoare_from; [by apply (sim_consistencyCheck s2 t args _ L); [..|lia]|exact Hfol]|].
  intros [r|].
  { apply hoare_ret. intros c [[Hs _] Hr]. simpl in Hr. exists s2. split; [done|congruence]. }
  apply hoare_pre_pure. intros Hm.
  eapply hoare_weaken; [by eapply (sim_takeEntries s2 src t args _ L)|].
  intros r c (s' & ? & ?). exists s'. done.
Qed.
End one.
End sections.
