(* ===== verification/SnapshotSim.v ===== *)
(** * Snapshots and the applier, simulated

    Installing a leader's snapshot, taking one's own, and the steps of the
    applier goroutine.  The disk passes through a state where the new snapshot
    is there but the old records still are; both that state and the final one
    are protocol states. *)

From S2P Require Import Prelude Types Effects Log Node Election Handlers Replication Hoare Contracts Terms Protocol ProtocolSafety Replay LogContract Abstraction Simulation SectionSim.

Section snapshots.
Context {D SM : Type} `{!Storage D} `{!StateMachine SM} `{!StateMachineSpec SM} `{!StateStoreSpec D} `{!LogStoreSpec D}.
Context (members : list string).
Implicit Types (s : PState) (p : PNode) (n : RaftNode SM) (c : Ctx D SM).
Local Abbreviation PI := (PInv (isQ members)).
Local Abbreviation node_core := (node_core (SM := SM) members).
Local Abbreviation node_rep := (node_rep (SM := SM) members).

(** ** Positions below the committed log *)

Lemma committed_range s b :
  PI s → ranged s → (b ≤ length (cl s))%nat → N.of_nat b + 1 < u64_size ∧ tm (cl s) b < u64_size.
Proof.
  intros HI HR Hlen. destruct (decide (b = 0%nat)) as [->|]; [done|].
  destruct (cl_covered _ s HI b) as (u & Q & L & _ & HL & Hag); [lia..|].
  pose proof (agree_len _ _ _ (agree_sym _ _ _ _ Hag) ltac:(done)).
  destruct (HR u L HL) as [HrL Hfit]. split; [lia|].
  rewrite <-(agree_tm _ _ _ _ b Hag) by lia. destruct (tm_inside L b) as (e & He & ->); [lia..|].
  by apply (proj1 (Forall_lookup _ _) Hfit _ _ He).
Qed.

Lemma node_fits s i b :
  PI s → ranged s → (pfloor (pn s i) ≤ b)%nat → Forall entry_fits (drop b (plog (pn s i))).
Proof.
  intros HI HR Hb. apply Forall_forall. intros e (k & Hk)%list_elem_of_lookup.
  rewrite lookup_drop in Hk.
  destruct (seat_entry _ _ _ _ (I_seated _ s HI i) (b + k) e ltac:(lia) Hk) as (_ & _ & L & HL & Hag).
  rewrite Hag in Hk by lia. destruct (HR _ L HL) as [_ Hfit].
  by apply (proj1 (Forall_lookup _ _) Hfit _ _ Hk).
Qed.

(** An entry of the committed log's term at the same index means that the node
    holds the committed log up to it. *)
Lemma committed_match s i b :
  PI s → (b ≤ length (cl s))%nat →
  (pfloor (pn s i) < b)%nat → (b ≤ length (plog (pn s i)))%nat →
  tm (plog (pn s i)) b = tm (cl s) b → agree (pfloor (pn s i)) b (plog (pn s i)) (cl s).
Proof.
  intros HI Hc Hf Hb Htm. destruct (cl_covered _ s HI b) as (u & Q & L & _ & HL & HagL); [lia..|].
  pose proof (agree_len _ _ _ (agree_sym _ _ _ _ HagL) ltac:(done)).
  destruct (leader_matching _ s HI _ L b HL) as (L1 & HL1 & _ & Hag1); [lia..|].
  destruct (tm_inside (plog (pn s i)) b) as (x & Hx & Htx); [lia..|].
  destruct (seat_entry _ _ _ _ (I_seated _ s HI i) (b - 1) x ltac:(lia) Hx) as (_ & _ & L2 & HL2 & Hag2).
  rewrite (agree_tm _ _ _ _ b HagL) in HL1 by lia. rewrite <-Htx, Htm in HL2. simplify_eq.
  replace (S (b - 1)) with b in Hag2 by lia. eapply agree_trans; [exact Hag2|].
  eapply agree_trans; [apply agree_sym; eapply agree_weaken; [exact Hag1|lia..]|].
  eapply agree_weaken; [exact HagL|lia..].
Qed.

(** The states of a node while a snapshot at [b] replaces its log. *)
Lemma install_states s i b :
  let p := pn s i in
  let l := plog p in
  PI s → ranged s → is_Some (ll s (pterm p)) → lead s (pterm p) ≠ i → (b ≤ length (cl s))%nat → (pfloor p < b)%nat →
  ∃ lA lB sA sB, move members i s sA ∧ move members i s sB ∧
    pn sA i = p <| pfloor := b |> <| plog := lA |> ∧
    pn sB i = p <| pfloor := b |> <| plog := lB |> ∧
    drop b lA = drop b l ∧ tm lA b = tm (cl s) b ∧ tm lB b = tm (cl s) b ∧
    (b ≤ length lB)%nat ∧ agree 0 b lB (cl s) ∧ agree 0 b lA (cl s) ∧
    drop b lB = (if decide (b ≤ length l ∧ tm l b = tm (cl s) b)%nat then drop b l else []).
Proof.
  intros p l HI HR HL Hne Hlen Hf.
  destruct (decide (b ≤ length l ∧ tm l b = tm (cl s) b)%nat) as [[Hb Htm]|Hno].
  - pose proof (committed_match s i b HI Hlen Hf Hb Htm) as Hag.
    assert (move members i s (setNode s i (p <| pfloor := b |>))) as Hmv.
    { apply move_local; [|done]. by apply p_floor; [fold p; lia|..]. }
    exists l, l, (setNode s i (p <| pfloor := b |>)), (setNode s i (p <| pfloor := b |>)).
    assert (agree 0 b l (cl s)) as Hag0 by (eapply agree_join; [apply (I_seated _ s HI i)|done]).
    rewrite setNode_eq. do 10 (split; [done|]). done.
  - assert ((length l < b)%nat ∨ tm l b ≠ tm (cl s) b) as Hmis.
    { destruct (decide (b ≤ length l)%nat); [|left; lia]. right. intros ?. by apply Hno. }
    assert (∀ rest, rest = [] ∨ rest = drop b l → move members i s
      (setNode s i (p <| pfloor := b |> <| plog := take b (cl s) ++ rest |>))) as Hmv.
    { intros rest Hrest. apply move_local; [|done]. by apply p_rebase. }
    assert (length (take b (cl s)) = b) as Hlt by (rewrite length_take; lia).
    assert (∀ rest, tm (take b (cl s) ++ rest) b = tm (cl s) b) as Htm.
    { intros rest. rewrite tm_app_l by lia. by apply tm_take. }
    exists (take b (cl s) ++ drop b l), (take b (cl s) ++ []).
    eexists _, _. split; [apply (Hmv (drop b l)); auto|]. split; [apply (Hmv []); auto|].
    rewrite !setNode_eq. do 2 (split; [done|]). split; [by rewrite drop_app_length'|].
    do 2 (split; [done|]). split; [rewrite length_app; lia|].
    assert (∀ rest, agree 0 b (take b (cl s) ++ rest) (cl s)) as Hag.
    { intros rest j ? ?. rewrite lookup_app_l by lia. by rewrite lookup_take_lt. }
    do 2 (split; [apply Hag|]). by rewrite drop_app_length'.
Qed.

Lemma retainedSuffix_memlog p b t :
  shaped p → (pfloor p ≤ b)%nat → N.of_nat b + 1 < u64_size →
  retainedSuffix (memlog p) (N.of_nat b) t =
  Some (if decide (b ≤ length (plog p) ∧ tm (plog p) b = t)%nat then drop b (plog p) else []).
Proof.
  intros Hp Hf Hr. unfold retainedSuffix. rewrite memlog_last, memlog_base by done. simpl.
  destruct (N.leb_spec (N.of_nat b) (N.of_nat (length (plog p)))) as [Hle|Hgt]; simpl.
  - rewrite (proj2 (N.leb_le _ _)) by lia. rewrite memlog_termAt by (done || lia). simpl.
    rewrite Nat2N.id. destruct (N.eqb_spec (tm (plog p) b) t) as [Heq|Hne].
    + rewrite u64_add_small by lia. rewrite memlog_entriesFrom by (done || lia). rewrite Nat2N.id.
      destruct (decide _) as [_|Hno]; [done|]. destruct Hno. split; [lia|done].
    + destruct (decide _) as [[_ ?]|_]; done.
  - destruct (decide _) as [[? _]|_]; [lia|done].
Qed.

Section one.
Context s0 (i : string) (HI0 : PI s0) (HR0 : ranged s0).
Local Abbreviation stored := (stored (D := D) (SM := SM) members s0 i).
Local Abbreviation simX := (simX (D := D) (SM := SM) members s0 i).
Local Abbreviation sim := (sim (D := D) (SM := SM) members s0 i).
Local Abbreviation simI := (simI (D := D) (SM := SM) members s0 i).
Local Abbreviation follows := (follows (D := D) (SM := SM) members s0 i).
Local Abbreviation stored_facts := (stored_facts (D := D) (SM := SM) members s0 i HI0 HR0).

(** A node whose boundary moved to the committed index [b]. *)
Lemma node_core_rebased s s' n n' b l' :
  PI s → grows s s' → pn s' i = (pn s i) <| pfloor := b |> <| plog := l' |> →
  log n' = memlog (pn s' i) → (b ≤ N.to_nat (commitIndex n'))%nat →
  commitIndex n ≤ commitIndex n' → committed s (pn s' i) (commitIndex n') →
  (∀ sn, pendingSnapshot n' = Some sn → pendingSnapshot n = Some sn ∨
     LastIncludedIndex sn ≤ commitIndex n' ∧ snapdata s' (LastIncludedIndex sn) (SnapData sn)) →
  covered (pn s' i) n' →
  view (n' <| log := log n |> <| commitIndex := commitIndex n |>
           <| pendingSnapshot := pendingSnapshot n |>) = view n →
  node_core s i n → node_core s' i n'.
Proof.
  intros HI Hg Hp Hl Hb Hci Hcom Hps Hcv Hv Hc. unfold view in Hv. simpl in Hv.
  injection Hv as Hid Hpe Hcf Ht Hvo Hla Hap Hsm Hin Hst. pose proof Hc as [].
  split; rewrite ?Hid, ?Hpe, ?Hcf, ?Ht, ?Hvo; try done; try (by rewrite Hp).
  - by eapply committed_grows.
  - pose proof (applying_grows s s' i n Hg nc_commit nc_applying) as Happ.
    destruct (applying_raise s' n (commitIndex n') Happ Hci) as (? & Hoff & Hap' & Hps').
    unfold applying, applier_rep in *. simpl in *. rewrite Hla, Hap, Hsm, Hin, Hst.
    split; [done|]. split; [done|]. split; [done|].
    intros sn Hsn. destruct (Hps sn Hsn) as [Hold|?]; [|done]. by apply Hps'.
Qed.

(** What HandleInstallSnapshot does with a snapshot it takes, once the suffix to
    keep is known. *)
Definition installTail (n : RaftNode SM) (args : InstallSnapshotArgs) (suffix : list LogEntry)
    (reply : InstallSnapshotReply) : M D SM InstallSnapshotReply :=
  let snap := mkSnapshot (ISA_LastIncludedIndex args) (ISA_LastIncludedTerm args) (ISA_Data args) in
  when (HasSnapshotStore (cfg n)) (must "persisting installed snapshot" (SaveSnapshot snap)) ;;
  when (HasLogStore (cfg n)) (must "compacting log for snapshot" (Compact suffix)) ;;
  modify (λ n, n <| log := rebased (ISA_LastIncludedIndex args) (ISA_LastIncludedTerm args) suffix |>
                 <| commitIndex := ISA_LastIncludedIndex args |> <| pendingSnapshot := Some snap |>) ;;
  emit Signal ;;
  mret reply.

(** The node after it, when the disk is at [sB]. *)
Lemma installed_rep t s2 sB c0 c args b lB :
  follows t s2 c0 → PI s2 → grows s2 sB → pn sB i = (pn s2 i) <| pfloor := b |> <| plog := lB |> →
  ISA_LastIncludedIndex args = N.of_nat b → ISA_LastIncludedTerm args = tm lB b →
  (b ≤ length lB)%nat → (b ≤ length (cl s2))%nat → agree 0 b lB (cl s2) → commitIndex (rn c0) < N.of_nat b →
  snapdata s2 (N.of_nat b) (ISA_Data args) →
  stored sB c → rn c = rn c0 → out c = out c0 →
  sim sB (c <| rn := (rn c0) <| log := rebased (ISA_LastIncludedIndex args) (ISA_LastIncludedTerm args) (drop b lB) |>
    <| commitIndex := ISA_LastIncludedIndex args |>
    <| pendingSnapshot := Some (mkSnapshot (ISA_LastIncludedIndex args) (ISA_LastIncludedTerm args) (ISA_Data args)) |> |>).
Proof.
  intros ((_ & [Hc0 _] & Ho0) & Hfo & _) HI HgB HpB Hb Htm HlB Hcl HagB Hgt Hdata Hst Hrn Hout.
  set (n' := (rn c0) <| log := _ |> <| commitIndex := _ |> <| pendingSnapshot := _ |>).
  assert (node_core sB i n') as Hc'.
  { eapply (node_core_rebased s2 sB (rn c0) n' b lB HI HgB HpB); try done; simpl; rewrite ?Hb.
    - rewrite HpB. unfold memlog, sentinelOf, rebased. simpl. by rewrite Htm.
    - lia.
    - lia.
    - rewrite HpB. unfold committed. simpl. rewrite Nat2N.id. done.
    - intros sn [= <-]. right. simpl. split; [lia|].
      unfold snapdata, state_at in *. rewrite Nat2N.id in *. by rewrite (take_cl_grows s2 sB).
    - right. eexists. split; [left; reflexivity|]. rewrite HpB. simpl. lia. }
  split; [exact Hst|]. split.
  - split; [exact Hc'|]. unfold role_rep. simpl. by rewrite Hfo.
  - simpl. rewrite Hout. eapply Forall_impl; [exact Ho0|]. intros x. by apply msg_rep_grows.
Qed.

Lemma sim_installTail t s2 c0 src args l reply :
  follows t s2 c0 → msg_rep s0 src (GoInstallSnapshot i t args) →
  commitIndex (rn c0) < ISA_LastIncludedIndex args →
  retainedSuffix (log (rn c0)) (ISA_LastIncludedIndex args) (ISA_LastIncludedTerm args) = Some l →
  hoare (λ c, c = c0) (installTail (rn c0) args l reply) (λ _, simI) simX.
Proof.
  intros Hfol Hmsg Hgt Hl. pose proof Hmsg as (Ht & _).
  pose proof Hfol as ((Hst0 & [Hc0 _] & _) & Hfo & Hct0). destruct (stored_facts s2 c0 Hst0) as (HI & HR & _).
  destruct (sim_msg members s0 i HI0 HR0 s2 c0 src _ Hst0 Hmsg) as (_ & Hsrc & Hld & (L & HL & _) & Hcert & Htm & Hdata).
  set (b := N.to_nat (ISA_LastIncludedIndex args)) in *.
  assert (ISA_LastIncludedIndex args = N.of_nat b) as Hb by lia.
  destruct (committed_range s2 b HI HR Hcert) as [Hbr Htr].
  assert (pterm (pn s2 i) = t) as Hpt by (by rewrite <-(nc_term _ _ _ _ Hc0)).
  destruct (nc_commit _ _ _ _ Hc0) as (Hci1 & Hci2 & _).
  destruct (install_states s2 i b) as (lA & lB & sA & sB & HmA & HmB & HpA & HpB & HdA & HtA & HtB & HlB & HagB & HagA & HdB);
    [done|done|rewrite Hpt; by eexists|rewrite Hpt; congruence|done|lia|].
  destruct (move_facts members i s2 sA HI HmA) as [HIA HgA].
  destruct (move_facts members i s2 sB HI HmB) as [HIB HgB].
  assert (ranged sA ∧ ranged sB) as [HRA HRB] by (split; [apply HmA|apply HmB]).
  pose proof Hst0 as (Hm0 & _).
  assert (moves members i s0 sA) as HmA' by exact (rtc_r _ _ _ Hm0 HmA).
  assert (moves members i s0 sB) as HmB' by exact (rtc_r _ _ _ Hm0 HmB).
  rewrite (nc_log _ _ _ _ Hc0), Hb, retainedSuffix_memlog, Htm, <-HdB in Hl; [|by eapply node_shaped|lia|done].
  injection Hl as <-. unfold installTail. rewrite (nc_logstore _ _ _ _ Hc0), (nc_snapstore _ _ _ _ Hc0).
  set (F := λ (m : RaftNode SM) (o : list Effect), m = rn c0 ∧ o = out c0).
  eapply hoare_bind with (R := λ _ c, stored sA c ∧ F (rn c) (out c)).
  { eapply hoare_conseq; [apply (stored_must_to members s0 i _ _ s2 sA F HmA')|..]; [| |done|done].
    - apply (call_SaveSnapshot members s0 i s2 sA _ b lA); try done; simpl; rewrite ?HtA; try done; [|lia|lia].
      by rewrite (agree_take_eq _ _ _ HagA).
    - intros c ->. split; [exact Hst0|done]. }
  intros ?. eapply hoare_bind with (R := λ _ c, stored sB c ∧ F (rn c) (out c)).
  { assert (pfloor (pn sA i) = b) as HfA by (by rewrite HpA).
    apply (stored_must_to members s0 i _ _ sA sB F HmB'). rewrite <-HfA.
    apply (call_Compact members s0 i sA sB lB); try done.
    - by rewrite HpA, HpB.
    - rewrite HfA, HpA. simpl. by rewrite (agree_take_eq _ _ _ HagA), (agree_take_eq _ _ _ HagB).
    - rewrite HfA, HdB. destruct (decide _); [|by constructor]. apply node_fits; [done|done|lia]. }
  intros ?. eapply hoare_bind with (R := λ _, sim sB).
  - apply hoare_modify. intros c (Hst & Hrn & Hout). rewrite Hrn.
    eapply (installed_rep t s2 sB c0 c args b lB); try done; [by rewrite HtB|lia|by rewrite <-Hb].
  - intros ?. eapply hoare_bind with (R := λ _, sim sB).
    + apply hoare_emit. intros c (Hst & Hn & Ho). split; [exact Hst|]. split; [exact Hn|].
      apply Forall_app. split; [done|]. by constructor.
    + intros ?. apply hoare_ret. intros c Hs. by exists sB.
Qed.

Lemma sim_HandleInstallSnapshot s src t args :
  msg_rep s0 src (GoInstallSnapshot i t args) → ISA_Term args < u64_size →
  hoare (sim s) (HandleInstallSnapshot args) (λ _, simI) simX.
Proof.
  intros Hmsg Hrange. apply hoare_get. intros n. destruct (stopped n).
  { apply hoare_ret. intros c [Hs _]. by exists s. }
  eapply hoare_bind; [by apply sim_adopt|]. intros ?. apply hoare_exists. intros s1.
  apply hoare_get. intros n1. destruct (N.ltb_spec (ISA_Term args) (currentTerm n1)) as [|Hle].
  { apply hoare_ret. intros c [[Hs _] _]. by exists s1. }
  pose proof Hmsg as (Ht & _). rewrite Ht in *.
  eapply hoare_bind; [eapply hoare_conseq; [apply (sim_acceptLeader members s0 i HI0 HR0 s1 t _ Hrange)|..]|].
  { intros c [[Hs Hge] Hn]. subst n1. split; [exact Hs|lia]. }
  { by intros ? c H. }
  { done. }
  intros ?. apply hoare_exists. intros s2.
  apply hoare_pointwise. intros c0 Hfol. apply hoare_get_at.
  destruct (N.leb_spec (ISA_LastIncludedIndex args) (commitIndex (rn c0))) as [|Hgt].
  { apply hoare_ret. intros c ->. exists s2. by destruct Hfol. }
  eapply hoare_bind with (R := λ l c, c = c0 ∧
    retainedSuffix (log (rn c0)) (ISA_LastIncludedIndex args) (ISA_LastIncludedTerm args) = Some l).
  { apply hoare_index; [|by intros l c ->]. intros c -> _. eapply sim_X. by destruct Hfol. }
  intros l. apply hoare_pre_pure. intros Hl. by eapply sim_installTail.
Qed.

(** *** The applier *)

(** A running applier belongs to a started node whose snapshot was restored. *)
Lemma applying_running s n :
  applying s n → applier n ≠ ApOff → started n = true ∧ initialSnapshotData n = None.
Proof.
  intros (_ & Hoff & Hap & _) Hon. destruct (started n); [|by rewrite Hoff in Hon]. split; [done|].
  destruct (initialSnapshotData n); [|done]. by destruct Hap.
Qed.

(** The applier moved, nothing else did. *)
Definition applied_only n n' : Prop :=
  view n' = view (n <| lastApplied := lastApplied n' |> <| applier := applier n' |>
                    <| pendingSnapshot := pendingSnapshot n' |> <| stateMachine := stateMachine n' |>
                    <| initialSnapshotData := initialSnapshotData n' |> <| started := started n' |>).

Lemma sim_applier s n f :
  applying s (f n) → covered (pn s i) (f n) → applied_only n (f n) →
  state (f n) = state n → matchIndex (f n) = matchIndex n →
  hoare (λ c, sim s c ∧ rn c = n) (modify f) (λ _ c, sim s c ∧ rn c = f n) simX.
Proof.
  intros Hap Hcv Hv Hs Hm. apply hoare_modify. intros c [(Hst & [Hc Hr] & Ho) Hn]. subst n.
  split; [|done]. split; [exact Hst|]. split; [|exact Ho]. simpl. split.
  - unfold applied_only, view in Hv. simpl in Hv. injection Hv as Hid Hpe Hcf Ht Hvo Hl Hci. destruct Hc.
    split; rewrite ?Hid, ?Hpe, ?Hcf, ?Ht, ?Hvo, ?Hl, ?Hci; done.
  - unfold role_rep in *. by rewrite Hs, Hm.
Qed.

(** The applier takes a batch: the committed entries after lastApplied. *)
Lemma batch_entries s n tl batch :
  PI s → ranged s → node_core s i n → N.of_nat (pfloor (pn s i)) ≤ lastApplied n →
  lastApplied n ≤ commitIndex n →
  entriesFrom (log n) (lastApplied n +w 1) = Some tl →
  slice_to tl (commitIndex n -w lastApplied n) = Some batch →
  batch = drop (N.to_nat (lastApplied n)) (take (N.to_nat (commitIndex n)) (cl s)) ∧
  lenN batch = commitIndex n - lastApplied n.
Proof.
  intros HI HR Hc Hf Hla Htl Hb. pose proof (node_shaped members s i HI HR) as Hsh.
  destruct (Hsh) as (_ & _ & Hr). destruct (nc_commit _ _ _ _ Hc) as (_ & Hci & _ & Hag).
  rewrite (nc_log _ _ _ _ Hc), u64_add_small, memlog_entriesFrom in Htl by (done || lia).
  injection Htl as <-. rewrite u64_sub_small in Hb by lia.
  rewrite slice_to_le in Hb by (unfold lenN; rewrite length_drop; lia). injection Hb as <-. split.
  - rewrite <-(agree_take_eq _ _ _ Hag), skipn_firstn_comm. f_equal. lia.
  - unfold lenN. rewrite length_take, length_drop. lia.
Qed.

(** The applier takes a pending snapshot; one it has overtaken is dropped. *)
Lemma sim_takeSnapshot s c0 sn :
  sim s c0 → applier (rn c0) = ApWaiting → pendingSnapshot (rn c0) = Some sn →
  hoare (λ c, c = c0)
    (modify (λ n, n <| pendingSnapshot := None |>) ;;
     when (lastApplied (rn c0) <? LastIncludedIndex sn) (modify (λ n, n <| applier := ApRestoring sn |>)))
    (λ _, simI) simX.
Proof.
  intros (Hst & [Hc Hrole] & Ho) Hwait Hpend.
  pose proof (nc_applying _ _ _ _ Hc) as (Hla & Hoff & Hap & Hps). pose proof (nc_covered _ _ _ _ Hc) as Hcv.
  destruct (applying_running s (rn c0) (nc_applying _ _ _ _ Hc)) as [Hstd Hini]; [by rewrite Hwait|].
  rewrite Hini in Hap. unfold applier_rep in Hap. rewrite Hwait in Hap.
  destruct (Hps sn Hpend) as [Hidx Hdata].
  eapply hoare_bind with (R := λ _ c, stored s c ∧ rn c = (rn c0) <| pendingSnapshot := None |> ∧ out c = out c0).
  { apply hoare_modify. by intros c ->. }
  intros ?. set (n1 := (rn c0) <| pendingSnapshot := None |>).
  assert (∀ ap, applying s (n1 <| applier := ap |>) → covered (pn s i) (n1 <| applier := ap |>) →
            node_rep s i (n1 <| applier := ap |>)) as Hrep.
  { intros ap H1 H2. split; [|exact Hrole]. destruct Hc. by split. }
  apply hoare_when.
  - intros Hlt%N.ltb_lt. apply hoare_modify. intros c (Hst' & Hrn & Hout). exists s.
    split; [exact Hst'|]. simpl. rewrite Hrn, Hout. split; [|exact Ho]. apply Hrep.
    * split; [done|]. split; [simpl; by rewrite Hstd|]. split; [|done]. simpl. rewrite Hini.
      unfold applier_rep. simpl. split; [done|]. split; [done|]. split; [lia|done].
    * destruct Hcv as [?|(sn' & [Heq|?] & ?)]; [by left| |congruence]. rewrite Hpend in Heq.
      injection Heq as <-. right. exists sn. auto.
  - intros Hge%N.ltb_ge c (Hst' & Hrn & Hout). exists s. split; [exact Hst'|]. rewrite Hrn, Hout.
    split; [|exact Ho]. assert (n1 = n1 <| applier := ApWaiting |>) as ->.
    { rewrite <-Hwait. by destruct (rn c0). }
    apply Hrep.
    * split; [done|]. split; [simpl; by rewrite Hstd|]. split; [|done]. simpl. by rewrite Hini.
    * left. destruct Hcv as [?|(sn' & [Heq|?] & ?)]; [done| |congruence]. rewrite Hpend in Heq.
      injection Heq as <-. simpl. lia.
Qed.

Lemma sim_applierWake s :
  hoare (λ c, sim s c ∧ applier (rn c) = ApWaiting) applierWake (λ _, simI) simX.
Proof.
  apply hoare_pointwise. intros c0 [Hsim Hwait]. pose proof Hsim as (Hst & [Hc _] & _).
  destruct (stored_facts s c0 Hst) as (HI & HR & _).
  pose proof (nc_applying _ _ _ _ Hc) as (Hla & Hoff & Hap & Hps). pose proof (nc_covered _ _ _ _ Hc) as Hcv.
  assert (∀ f, applying s (f (rn c0)) → covered (pn s i) (f (rn c0)) → applied_only (rn c0) (f (rn c0)) →
    state (f (rn c0)) = state (rn c0) → matchIndex (f (rn c0)) = matchIndex (rn c0) →
    hoare (λ c, c = c0) (modify f) (λ _, simI) simX) as Hf.
  { intros f H1 H2 H3 H4 H5. eapply (hoare_weaken _ _ (λ _ c, sim s c ∧ rn c = f (rn c0))); [|intros ? c [? _]; by exists s].
    eapply hoare_from; [by apply (sim_applier s (rn c0) f)|done]. }
  destruct (applying_running s (rn c0) (nc_applying _ _ _ _ Hc)) as [Hstd Hini]; [by rewrite Hwait|].
  rewrite Hini in Hap. unfold applier_rep in Hap. rewrite Hwait in Hap.
  assert (applying s ((rn c0) <| applier := ApOff |>)) as Hstop.
  { split; [done|]. split; [done|]. split; [|exact Hps]. simpl. by rewrite Hini. }
  apply hoare_get_at. destruct (pendingSnapshot (rn c0)) as [sn|] eqn:Hpend.
  - destruct (stopped (rn c0)).
    { apply Hf; try done. destruct Hcv as [?|(sn' & [?|?] & ?)]; [by left|right; exists sn'; auto|congruence]. }
    by apply (sim_takeSnapshot s c0 sn).
  - destruct (negb _ && _).
    { apply hoare_ret. intros c ->. by exists s. }
    assert (N.of_nat (pfloor (pn s i)) ≤ lastApplied (rn c0)) as Hfl.
    { by destruct Hcv as [?|(sn' & [?|?] & ?)]; [|congruence|congruence]. }
    destruct (stopped (rn c0)); [apply Hf; try done; by left|].
    eapply hoare_bind with (R := λ l c, c = c0 ∧ entriesFrom (log (rn c0)) (lastApplied (rn c0) +w 1) = Some l).
    { apply hoare_index; [intros c -> _; by eapply sim_X|]. by intros l c ->. }
    intros tl. apply hoare_pre_pure. intros Htl.
    eapply hoare_bind with (R := λ l c, c = c0 ∧ slice_to tl (commitIndex (rn c0) -w lastApplied (rn c0)) = Some l).
    { apply hoare_index; [intros c -> _; by eapply sim_X|]. by intros l c ->. }
    intros batch. apply hoare_pre_pure. intros Hb.
    destruct (batch_entries s (rn c0) tl batch HI HR Hc Hfl Hla Htl Hb) as [Hbatch Hlen].
    apply Hf; try done; [|by left]. split; [exact Hla|]. split; [simpl; by rewrite Hstd|].
    split; [|intros sn Hsn; simpl in Hsn; congruence].
    simpl. rewrite Hini. unfold applier_rep. simpl. rewrite Hlen.
    replace (lastApplied (rn c0) + (commitIndex (rn c0) - lastApplied (rn c0)))
      with (commitIndex (rn c0)) by lia.
    replace (commitIndex (rn c0) - (commitIndex (rn c0) - lastApplied (rn c0)))
      with (lastApplied (rn c0)) by lia. done.
Qed.

Lemma sim_maybeSnapshot s :
  hoare (λ c, sim s c ∧ applier (rn c) = ApWaiting) maybeSnapshotLocked (λ _, simI) simX.
Proof.
  apply hoare_pointwise. intros c0 [Hsim Hwait]. pose proof Hsim as (Hst & [Hc _] & _).
  destruct (stored_facts s c0 Hst) as (HI & HR & _). pose proof (node_shaped members s i HI HR) as Hsh.
  destruct (nc_applying _ _ _ _ Hc) as (Hla & Hoff & Hap & Hps). pose proof (nc_covered _ _ _ _ Hc) as Hcv.
  destruct (nc_commit _ _ _ _ Hc) as (Hci1 & Hci2 & _ & Hag).
  destruct (applying_running s (rn c0) (nc_applying _ _ _ _ Hc)) as [Hstd Hini]; [by rewrite Hwait|].
  rewrite Hini in Hap. unfold applier_rep in Hap. rewrite Hwait in Hap.
  assert (hoare (λ c, c = c0) (mret tt) (λ _, simI) simX) as Hskip.
  { apply hoare_ret. intros c ->. by exists s. }
  apply hoare_get_at. rewrite Hap. destruct (_ || _); [done|].
  rewrite (nc_log _ _ _ _ Hc), memlog_base.
  eapply hoare_bind with (R := λ _ c, c = c0); [apply hoare_index; [done|by intros b c ->]|].
  intros b. destruct (_ <? _); [done|].
  eapply hoare_bind with (R := λ t c, c = c0 ∧ t = tm (cl s) (N.to_nat (lastApplied (rn c0)))).
  { apply hoare_index; [intros c -> _; by eapply sim_X|]. intros t c -> Ht. split; [done|].
    destruct (decide (lastApplied (rn c0) < N.of_nat (pfloor (pn s i)))) as [Hlt|Hge].
    { rewrite (termAt_below _ (memlog_wf _ Hsh) _ _ (memlog_base _) Hlt) in Ht. done. }
    rewrite memlog_termAt in Ht by (done || lia). injection Ht as <-.
    destruct (decide (lastApplied (rn c0) = 0)) as [->|]; [done|]. eapply agree_tm; [exact Hag|lia..]. }
  intros t. apply hoare_pre_pure. intros ->.
  eapply (hoare_from (λ c, sim s c ∧ rn c = rn c0)); [|done].
  eapply hoare_weaken; [apply sim_applier; try done|intros ? c [? _]; by exists s].
  - split; [done|]. split; [simpl; by rewrite Hstd|]. split; [|done]. simpl. by rewrite Hini.
  - destruct Hcv as [?|(sn & [?|?] & ?)]; [by left|right; exists sn; auto|congruence].
Qed.

(** Moving the boundary up to a committed index. *)
Lemma compact_state s b :
  PI s → ranged s → (pfloor (pn s i) < b)%nat → (b ≤ length (plog (pn s i)))%nat →
  settled s b (plog (pn s i)) →
  move members i s (setNode s i ((pn s i) <| pfloor := b |>)).
Proof.
  intros HI HR Hf Hb [Hc Hag]. apply move_local; [|done]. apply p_floor; [lia|done|done|].
  eapply agree_weaken; [exact Hag|lia..].
Qed.

Lemma sim_compactLog s n b idx t :
  let s' := setNode s i ((pn s i) <| pfloor := b |>) in
  PI s → ranged s → move members i s s' → (pfloor (pn s i) < b)%nat → idx = N.of_nat b → t = tm (plog (pn s i)) b →
  node_rep s i n → (b ≤ N.to_nat (commitIndex n))%nat → N.of_nat b ≤ lastApplied n →
  hoare (λ c, stored s' c ∧ rn c = n ∧ Forall (msg_rep s i) (out c)) (compactLogLocked idx t)
    (λ _, sim s') simX.
Proof.
  intros s' HI HR Hmv Hf -> -> [Hc Hrole] Hb Hbla. destruct (move_facts members i s s' HI Hmv) as [HI' Hg'].
  assert (pn s' i = (pn s i) <| pfloor := b |>) as Hp by apply setNode_eq.
  destruct (nc_commit _ _ _ _ Hc) as (Hci1 & Hci2 & Hcert & Hag).
  pose proof (node_shaped members s i HI HR) as Hsh. destruct (Hsh) as (_ & _ & Hr).
  assert (moves members i s s') as Hmvs by (by apply rtc_once).
  apply hoare_pointwise. intros c0 (Hst & Hrn & Ho). apply hoare_get_at. rewrite Hrn.
  rewrite (nc_log _ _ _ _ Hc), memlog_base, memlog_last by done.
  eapply hoare_bind with (R := λ x c, c = c0 ∧ x = N.of_nat (pfloor (pn s i)));
    [apply hoare_index; [done|by intros x c -> [= <-]]|].
  intros base. apply hoare_pre_pure. intros ->. rewrite (proj2 (N.leb_gt _ _)) by lia.
  eapply hoare_bind with (R := λ x c, c = c0 ∧ x = N.of_nat (length (plog (pn s i))));
    [apply hoare_index; [done|by intros x c -> [= <-]]|].
  intros lastI. apply hoare_pre_pure. intros ->.
  eapply hoare_bind with (R := λ x c, c = c0 ∧ x = drop b (plog (pn s i))).
  { destruct (N.ltb_spec (N.of_nat b) (N.of_nat (length (plog (pn s i))))) as [|Hge].
    - rewrite u64_add_small by lia. rewrite memlog_entriesFrom by (done || lia). rewrite Nat2N.id.
      apply hoare_index; [done|by intros x c -> [= <-]].
    - apply hoare_ret. intros c ->. split; [done|]. rewrite drop_ge by lia. done. }
  intros suffix. apply hoare_pre_pure. intros ->. rewrite (nc_logstore _ _ _ _ Hc).
  pose proof Hst as (Hm0 & _).
  eapply hoare_bind with (R := λ _ c, stored s' c ∧ rn c = n ∧ out c = out c0).
  { assert (pfloor (pn s' i) = b) as HfA by (by rewrite Hp).
    assert (plog (pn s' i) = plog (pn s i)) as HlA by (by rewrite Hp).
    eapply hoare_from; [apply (stored_must_to members s0 i _ _ s' s' (λ m o, m = n ∧ o = out c0) Hm0)|done].
    rewrite <-HfA, <-HlA. apply (call_Compact members s0 i s' s'); try done; [by destruct (pn s' i)|].
    rewrite HfA, HlA. apply node_fits; [done|done|lia]. }
  intros ?. apply hoare_modify. intros c (Hst' & Hrn' & Hout). rewrite Hrn'.
  split; [exact Hst'|]. split; [|simpl; rewrite Hout].
  - split.
    + eapply (node_core_rebased s s' n _ b (plog (pn s i)) HI Hg' Hp); try done.
      * by rewrite Hp.
      * by rewrite Hp.
      * by left.
      * left. by rewrite Hp.
    + unfold role_rep in *. rewrite Hp. exact Hrole.
  - eapply Forall_impl; [exact Ho|]. intros x. by apply msg_rep_grows.
Qed.

Lemma sim_finishSnapshot s idx t :
  hoare (λ c, sim s c ∧ applier (rn c) = ApSnapshotting idx t) (finishSnapshot idx t) (λ _, simI) simX.
Proof.
  apply hoare_pointwise. intros c0 [Hsim Hpc]. pose proof Hsim as (Hst & [Hc Hrole] & Ho).
  destruct (stored_facts s c0 Hst) as (HI & HR & _).
  destruct (nc_applying _ _ _ _ Hc) as (Hla & Hoff & Hap & Hps). pose proof (nc_covered _ _ _ _ Hc) as Hcv.
  destruct (applying_running s (rn c0) (nc_applying _ _ _ _ Hc)) as [Hstd Hini]; [by rewrite Hpc|].
  rewrite Hini in Hap. unfold applier_rep in Hap. rewrite Hpc in Hap. destruct Hap as (Hidx & -> & Hsm).
  destruct (nc_commit _ _ _ _ Hc) as (Hci1 & Hci2 & Hcert & Hag).
  apply hoare_get_at. rewrite Hsm.
  destruct (SMSnapshot (state_at s idx)) as [err|data] eqn:Hdata; [apply hoare_panic; intros c ->; by eapply sim_X|].
  set (n1 := (rn c0) <| applier := ApWaiting |>).
  eapply hoare_bind with (R := λ _ c, sim s c ∧ rn c = n1).
  { eapply (hoare_from (λ c, sim s c ∧ rn c = rn c0)); [|done]. apply sim_applier; try done.
    - split; [done|]. split; [simpl; by rewrite Hstd|]. split; [|done]. simpl. rewrite Hini.
      unfold applier_rep. simpl. by rewrite <-Hidx.
    - destruct Hcv as [?|(sn & [?|?] & ?)]; [by left|right; exists sn; auto|congruence]. }
  intros ?. apply hoare_pointwise. intros c1 [Hsim1 Hrn1]. pose proof Hsim1 as (Hst1 & Hrep1 & Ho1).
  rewrite (nc_log _ _ _ _ Hc), memlog_base.
  eapply hoare_bind with (R := λ x c, c = c1 ∧ x = N.of_nat (pfloor (pn s i)));
    [apply hoare_index; [done|by intros x c -> [= <-]]|].
  intros base. apply hoare_pre_pure. intros ->.
  destruct (N.leb_spec idx (N.of_nat (pfloor (pn s i)))) as [|Hgt].
  { apply hoare_ret. intros c ->. by exists s. }
  set (b := N.to_nat idx) in *. assert (idx = N.of_nat b) as Hib by lia.
  set (s' := setNode s i ((pn s i) <| pfloor := b |>)).
  assert (b ≤ length (cl s))%nat as Hcb by lia.
  assert (move members i s s') as Hmv.
  { apply compact_state; try done; [lia|lia|]. split; [done|]. eapply agree_weaken; [exact Hag|lia..]. }
  assert (moves members i s0 s') as Hmvs by (destruct Hst as (Hm & _); exact (rtc_r _ _ _ Hm Hmv)).
  assert (tm (cl s) b = tm (plog (pn s i)) b) as Htm by (symmetry; eapply agree_tm; [exact Hag|lia..]).
  destruct (committed_range s b HI HR Hcb) as [Hbr Htr].
  eapply hoare_bind with (R := λ _ c, stored s' c ∧ rn c = n1 ∧ out c = out c1).
  - eapply (hoare_from (λ c, stored s c ∧ rn c = n1 ∧ out c = out c1)); [|done].
    apply (stored_must_to members s0 i _ _ s s' (λ m o, m = n1 ∧ o = out c1) Hmvs).
    apply (call_SaveSnapshot members s0 i s s' _ b (plog (pn s i))); try done; simpl;
      rewrite <-?Htm; try done; try lia.
    + by destruct Hst.
    + by rewrite fn_lookup_insert.
    + unfold state_at in Hdata. fold b in Hdata. rewrite (agree_take_eq b (plog (pn s i)) (cl s)); [done|].
      eapply agree_weaken; [exact Hag|lia..].
  - intros ?. eapply hoare_conseq; [apply (sim_compactLog s n1 b idx _ HI HR Hmv)|..]; try done; try lia.
    + by rewrite <-Hrn1.
    + simpl. lia.
    + simpl. lia.
    + intros c (? & ? & ->). done.
    + intros ? c Hc'. by exists s'.
Qed.

(** One entry of the batch is applied. *)
Lemma applier_rep_apply s n e todo k :
  PI s → applier n = ApApplying (e :: todo) k → applier_rep s n →
  ∃ sm sm', stateMachine n = Some sm ∧ Apply e sm = Some sm' ∧
    applier_rep s (n <| stateMachine := Some sm' |> <| applier := ApApplying todo k |>).
Proof.
  intros HI Hpc Hap. unfold applier_rep in *. rewrite Hpc in Hap. simpl.
  destruct Hap as (Hk & Hlen & Hsm & Htodo). rewrite lenN_cons in *.
  set (j := lastApplied n + k - (lenN todo + 1)) in *.
  assert (lastApplied n + k - lenN todo = j + 1) as -> by lia.
  set (m := N.to_nat (lastApplied n + k)) in *.
  assert (take m (cl s) !! N.to_nat j = Some e) as He.
  { rewrite <-(Nat.add_0_r (N.to_nat j)), <-lookup_drop, <-Htodo. done. }
  exists (state_at s j), (state_at s (j + 1)). split; [done|].
  assert (take (N.to_nat (j + 1)) (cl s) = take (N.to_nat j) (cl s) ++ [e]) as Hnext.
  { replace (N.to_nat (j + 1)) with (S (N.to_nat j)) by lia. apply take_S_r.
    rewrite lookup_take_lt in He by lia. done. }
  split; [unfold state_at; rewrite applyAll_snoc; by rewrite Hnext|].
  split; [done|]. split; [lia|]. split; [done|].
  replace (N.to_nat (j + 1)) with (S (N.to_nat j)) by lia.
    rewrite (drop_S _ e _ He) in Htodo. by injection Htodo.
Qed.

Theorem sim_applierStep s : hoare (sim s) applierStep (λ _, simI) simX.
Proof.
  apply hoare_pointwise. intros c0 Hsim. pose proof Hsim as (Hst & [Hc Hrole] & Ho).
  destruct (stored_facts s c0 Hst) as (HI & HR & _). destruct (node_shaped members s i HI HR) as (_ & _ & Hr).
  destruct (nc_applying _ _ _ _ Hc) as (Hla & Hoff & Hap & Hps). pose proof (nc_covered _ _ _ _ Hc) as Hcv.
  destruct (nc_commit _ _ _ _ Hc) as (Hci1 & Hci2 & _).
  pose proof (applying_running s (rn c0) (nc_applying _ _ _ _ Hc)) as Hrun.
  apply hoare_get_at. destruct (applier (rn c0)) as [| |snap|[|e todo] k|idx t] eqn:Hpc;
    [apply hoare_ret; intros c ->; by exists s|..];
    (destruct (Hrun ltac:(done)) as [Hstd Hini]; rewrite Hini in Hap; pose proof Hap as Hap0;
     unfold applier_rep in Hap; rewrite Hpc in Hap).
  - eapply hoare_from; [apply sim_applierWake|done].
  - apply hoare_get_at. destruct (stateMachine (rn c0)) as [sm|];
      [|apply hoare_panic; intros c ->; by eapply sim_X].
    destruct Hap as (_ & Hidx & Hle & Hdata). destruct (Snapshot_Restore _ _ Hdata) as [_ ->].
    eapply (hoare_from (λ c, sim s c ∧ rn c = rn c0)); [|done].
    eapply hoare_weaken; [apply sim_applier; try done|intros ? c [? _]; by exists s].
    + split; [done|]. split; [simpl; by rewrite Hstd|]. split; [|done]. simpl. by rewrite Hini.
    + destruct Hcv as [Hcv|(sn & [?|Heq] & ?)]; [left; simpl; lia|right; exists sn; auto|left].
      rewrite Hpc in Heq. by injection Heq as <-.
  - destruct Hap as (Hk & _ & Hsm & _). rewrite lenN_nil, N.sub_0_r in Hsm.
    eapply hoare_bind.
    + eapply (hoare_from (λ c, sim s c ∧ rn c = rn c0)); [apply sim_applier; try done|done].
      * unfold applying, applier_rep. simpl. rewrite u64_add_small by lia. rewrite Hini, Hstd. done.
      * destruct Hcv as [?|(sn & [?|?] & ?)]; [left; simpl; rewrite u64_add_small; lia|right; exists sn; auto|congruence].
    + intros ?. eapply hoare_conseq; [apply (sim_maybeSnapshot s)|..]; try done. intros c [? ->]. done.
  - destruct (applier_rep_apply s (rn c0) e todo k HI Hpc Hap0) as (sm & sm' & -> & -> & Hap').
    apply hoare_ret_bind. eapply (hoare_from (λ c, sim s c ∧ rn c = rn c0)); [|done].
    eapply hoare_weaken; [apply sim_applier; try done|intros ? c [? _]; by exists s].
    + split; [done|]. split; [simpl; by rewrite Hstd|]. split; [|done]. simpl. by rewrite Hini.
    + destruct Hcv as [?|(sn & [?|?] & ?)]; [by left|right; exists sn; auto|congruence].
  - eapply hoare_from; [apply sim_finishSnapshot|done].
Qed.
End one.
End snapshots.
