(* ===== verification/LeaderSim.v ===== *)
(** * Elections and leaders, simulated

    Voting, standing for election, replicating, committing and sending
    snapshots.  Winning an election is the one move a node cannot justify on its
    own: [winning] describes the node at that point, and the cluster-level proof
    supplies the quorum. *)

From S2P Require Import Prelude Types Effects Log Node Election Handlers Replication Hoare Contracts Terms Cluster ElectionSafety Protocol ProtocolSafety Replay LogContract Abstraction Simulation SectionSim SnapshotSim.

(** ** The commit rule of advanceCommitIndexLocked *)

(** What the scan returns is above commitIndex, of the current term, and held
    by a majority. *)
Lemma commitScan_sound l ci ct ps mi fuel k r :
  k < u64_size → commitScan l ci ct ps mi fuel k = Some (Some r) →
  ci < r ∧ r ≤ k ∧ termAt l r = Some ct ∧ quorum ps ≤ replicaCount ps mi r.
Proof.
  revert k. induction fuel as [|fuel IH]; intros k Hk; simpl; [done|].
  destruct (N.ltb_spec ci k) as [Hlt|]; [|done].
  destruct (termAt l k) as [t|] eqn:Ht; simpl; [|done].
  destruct (N.eqb_spec t ct) as [->|]; simpl; [|done].
  destruct (N.leb_spec (quorum ps) (replicaCount ps mi k)) as [Hq|].
  - intros [= <-]. done.
  - rewrite u64_sub_small by lia. intros Hr. apply IH in Hr; [|lia]. destruct Hr as (? & ? & ?). split; [done|].
    split; [lia|done].
Qed.

Section leaders.
Context {D SM : Type} `{!Storage D} `{!StateMachine SM} `{!StateMachineSpec SM} `{!StateStoreSpec D} `{!LogStoreSpec D}.
Context (members : list string).
Implicit Types (s : PState) (p : PNode) (n : RaftNode SM) (c : Ctx D SM).
Local Abbreviation PI := (PInv (isQ members)).
Local Abbreviation node_core := (node_core (SM := SM) members).
Local Abbreviation node_rep := (node_rep (SM := SM) members).

Lemma certified_term s b t : PI s → certified s b t → tm (cl s) b ≤ t.
Proof.
  intros HI [->|(c & u & Q & Hc & Hb & Hu)]; [simpl; lia|].
  destruct (decide (b = 0%nat)) as [->|]; [simpl; lia|].
  destruct (I_cert _ s HI _ _ _ Hc) as (_ & _ & L & HL & Hlen & Htm & Hag).
  rewrite <-(agree_tm _ _ _ _ b Hag) by lia.
  pose proof (leader_sorted _ s HI u L b c HL Hb Hlen). lia.
Qed.

Section one.
Context s0 (i : string) (HI0 : PI s0) (HR0 : ranged s0).
Local Abbreviation stored := (stored (D := D) (SM := SM) members s0 i).
Local Abbreviation simX := (simX (D := D) (SM := SM) members s0 i).
Local Abbreviation sim := (sim (D := D) (SM := SM) members s0 i).
Local Abbreviation simI := (simI (D := D) (SM := SM) members s0 i).
Local Abbreviation stored_facts := (stored_facts (D := D) (SM := SM) members s0 i HI0 HR0).

(** A move of the histories that leaves the node alone. *)
Lemma sim_history s s' c :
  move members i s s' → pn s' i = pn s i → ll s' = ll s → sim s c → sim s' c.
Proof.
  intros Hmv Hp Hll (Hst & [Hc Hr] & Ho). destruct (stored_facts s c Hst) as (HI & HR & _).
  destruct (move_facts members i s s' HI Hmv) as [HI' Hg]. split; [|split].
  - destruct Hst as (Hm & ? & Hd & ?). split; [exact (rtc_r _ _ _ Hm Hmv)|]. by rewrite Hp.
  - split; [by eapply (node_core_grows members s)|]. eapply (role_rep_grows s); try done.
    + intros v Hv. left. by rewrite Hll.
    + intros _. by rewrite Hll.
  - eapply Forall_impl; [exact Ho|]. intros x. by apply msg_rep_grows.
Qed.

(** *** Voting *)

Lemma upToDate_upto lt li ot oi :
  upToDate lt li ot (N.of_nat oi) = true → upto lt (N.to_nat li) ot oi.
Proof.
  unfold upToDate, upto. intros H. apply orb_true_iff in H as [H|H].
  - apply N.ltb_lt in H. by left.
  - apply andb_true_iff in H as [H1%N.eqb_eq H2%N.leb_le]. right. split; [done|lia].
Qed.

(** The vote is given: recorded, made durable, and the timer restarted. *)
Lemma sim_grant s1 c0 src args (reply : RequestVoteReply) :
  sim s1 c0 → pterm (pn s1 i) = RVA_Term args → src ≠ None_ → name_ok src = true → RVA_Term args < u64_size →
  (pvote (pn s1 i) = None_ ∨ pvote (pn s1 i) = src) →
  st s1 src (RVA_Term args) = Some (RVA_LastLogTerm args, N.to_nat (RVA_LastLogIndex args)) →
  upto (RVA_LastLogTerm args) (N.to_nat (RVA_LastLogIndex args))
    (tm (plog (pn s1 i)) (length (plog (pn s1 i)))) (length (plog (pn s1 i))) →
  hoare (λ c, c = c0)
    (modify (λ n, n <| votedFor := src |>) ;; persistLocked ;; resetElectionTimerLocked ;; mret reply)
    (λ r c, r = reply ∧ ∃ s', sim s' c ∧ gr s' i (RVA_Term args) src) simX.
Proof.
  intros Hsim Hpt Hne Hname Hrange Hv Hstd Hup.
  pose proof Hsim as (Hst & [Hc Hrole] & Ho). destruct (stored_facts s1 c0 Hst) as (HI & HR & _).
  set (p' := (pn s1 i) <| pvote := src |>).
  set (s2 := (setNode s1 i p') <| gr := λ w' v' i', gr s1 w' v' i' ∨
               (w' = i ∧ v' = pterm (pn s1 i) ∧ i' = src) |>).
  assert (move members i s1 s2) as Hmv.
  { split; [|split; [|done]].
    - apply (p_grant _ s1 i src (RVA_LastLogTerm args) (N.to_nat (RVA_LastLogIndex args))); try done.
      by rewrite Hpt.
    - intros j Hj. simpl. by rewrite fn_lookup_insert_ne. }
  destruct (move_facts members i s1 s2 HI Hmv) as [HI2 Hg2].
  assert (pn s2 i = (pn s1 i) <| pterm := RVA_Term args |> <| pvote := src |>) as Hp2.
  { simpl. rewrite fn_lookup_insert. unfold p'. rewrite <-Hpt. done. }
  set (P := λ m, node_rep s2 i m).
  eapply hoare_bind with (R := λ _ c, stored s1 c ∧ P (rn c) ∧ Forall (msg_rep s2 i) (out c)).
  { apply hoare_modify. intros c ->. split; [exact Hst|]. split.
    - split.
      { eapply (node_core_hs members s1 s2 i (rn c0)); [done|done|exact Hp2|lia| |exact Hc].
        unfold view. simpl. by rewrite (nc_term _ _ _ _ Hc), Hpt. }
      unfold role_rep in *. rewrite Hp2. simpl. rewrite <-Hpt. destruct (state (rn c0)); [done| |exact Hrole].
      destruct Hrole as [? ?]. split; [done|by left].
    - eapply Forall_impl; [exact Ho|]. intros x. by apply msg_rep_grows. }
  intros ?. eapply hoare_bind with (R := λ _ c, stored s2 c ∧ P (rn c) ∧ Forall (msg_rep s2 i) (out c)).
  { eapply (sim_persist members s0 i s1 s2 (RVA_Term args) src (λ m o, P m ∧ Forall (msg_rep s2 i) o)); try done.
    - by apply moves_one.
    - intros m o [[Hm _] _]. rewrite (nc_term _ _ _ _ Hm), (nc_vote _ _ _ _ Hm), Hp2. done. }
  intros ?. eapply hoare_bind; [apply (sim_reset members s0 i s2 P)|].
  { intros m x y Hm. eapply node_rep_view; [..|exact Hm]; done. }
  intros ?. apply hoare_ret. intros c Hs. split; [done|]. exists s2. split; [exact Hs|]. right. done.
Qed.

Lemma sim_HandleRequestVote s src args :
  msg_rep s0 src (GoRequestVote i args) → RVA_CandidateID args = src → src ≠ None_ →
  name_ok src = true → RVA_Term args < u64_size →
  hoare (sim s) (HandleRequestVote args)
    (λ r c, ∃ s', sim s' c ∧ (RVR_VoteGranted r = true → gr s' i (RVA_Term args) src)) simX.
Proof.
  intros Hmsg Hcand Hne Hname Hrange. apply hoare_get. intros n. destruct (stopped n).
  { apply hoare_ret. intros c [Hs _]. by exists s. }
  eapply hoare_bind; [by apply sim_adopt|]. intros ?. apply hoare_exists. intros s1.
  apply hoare_get. intros n1. destruct (N.ltb_spec (RVA_Term args) (currentTerm n1)) as [|Hle].
  { apply hoare_ret. intros c [[Hs _] _]. by exists s1. }
  apply hoare_pointwise. intros c0 [[Hsim Hge] Hn1]. subst n1.
  pose proof Hsim as (Hst & [Hc Hrole] & Ho). destruct (stored_facts s1 c0 Hst) as (HI & HR & _).
  pose proof (node_shaped members s1 i HI HR) as Hsh.
  assert (pterm (pn s1 i) = RVA_Term args) as Hpt by (rewrite <-(nc_term _ _ _ _ Hc); lia).
  destruct (sim_msg members s0 i HI0 HR0 s1 c0 src _ Hst Hmsg) as [Hstd _].
  rewrite (nc_log _ _ _ _ Hc), memlog_lastTerm, memlog_last by done.
  eapply hoare_bind with (R := λ x c, c = c0 ∧ x = tm (plog (pn s1 i)) (length (plog (pn s1 i))));
    [apply hoare_index; [done|by intros x c -> [= <-]]|].
  intros lastT. apply hoare_pre_pure. intros ->.
  eapply hoare_bind with (R := λ x c, c = c0 ∧ x = N.of_nat (length (plog (pn s1 i))));
    [apply hoare_index; [done|by intros x c -> [= <-]]|].
  intros lastI. apply hoare_pre_pure. intros ->.
  destruct (upToDate _ _ _ _) eqn:Hup; simpl; [|apply hoare_ret; intros c ->; by exists s1].
  apply upToDate_upto in Hup.
  destruct (String.eqb (votedFor (rn c0)) None_ || String.eqb (votedFor (rn c0)) (RVA_CandidateID args)) eqn:Hvote;
    [|apply hoare_ret; intros c ->; by exists s1].
  rewrite Hcand in *.
  assert (pvote (pn s1 i) = None_ ∨ pvote (pn s1 i) = src) as Hv.
  { rewrite <-(nc_vote _ _ _ _ Hc). apply orb_true_iff in Hvote as [H|H]; apply String.eqb_eq in H; auto. }
  eapply hoare_weaken; [by eapply (sim_grant s1 c0 src args)|].
  intros r c (-> & s' & Hs' & Hg). by exists s'.
Qed.

(** *** Standing for election *)

(** The log ends in a term before [v], unless the floor was committed in [v] or
    later. *)
Lemma last_term_lt s v :
  PI s → ranged s → pterm (pn s i) < v → ll s v = None → certified s (pfloor (pn s i)) v →
  tm (plog (pn s i)) (length (plog (pn s i))) < v.
Proof.
  intros HI HR Hv Hll Hc. destruct (I_seated _ s HI i) as [Hf Ha He].
  destruct (decide (length (plog (pn s i)) = pfloor (pn s i))) as [Heq|Hne].
  - rewrite Heq. destruct (decide (pfloor (pn s i) = 0%nat)) as [->|]; [simpl; lia|].
    rewrite (agree_tm _ _ _ _ (pfloor (pn s i)) Ha) by lia.
    destruct Hc as [?|(c & u & Q & Hc & Hb & Hu)]; [lia|].
    destruct (I_cert _ s HI _ _ _ Hc) as (_ & _ & L & HL & _). assert (u ≠ v) by congruence.
    pose proof (certified_term s (pfloor (pn s i)) u HI ltac:(right; exists c, u, Q; done)). lia.
  - destruct (tm_inside (plog (pn s i)) (length (plog (pn s i)))) as (e & Hl & ->); [lia..|].
    destruct (He (length (plog (pn s i)) - 1)%nat e ltac:(lia) Hl) as [? _]. lia.
Qed.

(** The candidacy of term [currentTerm + 1]: the new term, the candidacy, and
    the node's own vote. *)
Lemma stand_states s t :
  PI s → ranged s → t = pterm (pn s i) + 1 → i ≠ None_ →
  ∃ s', moves members i s s' ∧ pn s' i = (pn s i) <| pterm := t |> <| pvote := i |> ∧
    st s' i t = Some (tm (plog (pn s i)) (length (plog (pn s i))), length (plog (pn s i))) ∧
    gr s' i t i ∧ (ll s' t = None ∨ lead s' t ≠ i).
Proof.
  intros HI HR Ht Hne. set (l := plog (pn s i)).
  set (s1 := setNode s i ((pn s i) <| pterm := t |> <| pvote := None_ |>)).
  assert (pn s1 i = (pn s i) <| pterm := t |> <| pvote := None_ |>) as Hp1 by apply setNode_eq.
  assert (move members i s s1) as Hm1 by (apply move_term; [done|done|lia]).
  destruct (move_facts members i s s1 HI Hm1) as [HI1 _].
  assert (st s i t = None) as Hst.
  { destruct (st s i t) as [[lt li]|] eqn:Hst; [|done]. destruct (I_stand _ s HI _ _ _ _ Hst). lia. }
  set (s2 := s1 <| st := λ j u, if decide (j = i ∧ u = t) then Some (tm l (length l), length l)
                                else st s1 j u |>).
  assert (move members i s1 s2) as Hm2.
  { split; [|done]. pose proof (p_stand (isQ members) s1 i) as Hp. rewrite Hp1 in Hp. apply Hp; [done|].
    simpl. intros Hll Hcert. apply last_term_lt; [done|done|lia|done|done]. }
  set (s3 := (setNode s2 i ((pn s2 i) <| pvote := i |>)) <| gr := λ w' v' i', gr s2 w' v' i' ∨
               (w' = i ∧ v' = t ∧ i' = i) |>).
  assert (move members i s2 s3) as Hm3.
  { split; [|split; [|done]].
    - pose proof (p_grant (isQ members) s2 i i (tm l (length l)) (length l)) as Hp.
      change (pn s2 i) with (pn s1 i) in Hp. rewrite Hp1 in Hp. unfold s3.
      change (pn s2 i) with (pn s1 i). rewrite Hp1. apply Hp; [done|by left| |].
      + simpl. by rewrite decide_True.
      + right. done.
    - intros j Hj. apply (setNode_ne s2); done. }
  exists s3. split; [|split; [|split; [|split]]].
  - eapply rtc_l; [exact Hm1|]. eapply rtc_l; [exact Hm2|]. by apply rtc_once.
  - change (pn s3 i) with (pn (setNode s2 i ((pn s2 i) <| pvote := i |>)) i). rewrite setNode_eq.
    change (pn s2 i) with (pn s1 i). by rewrite Hp1.
  - simpl. by rewrite decide_True.
  - by right.
  - simpl. destruct (ll s t) as [L|] eqn:HL; [right|by left]. intros Hl.
    destruct (I_lead _ s HI t L HL) as (_ & _ & lt & li & Hs & _). rewrite Hl in Hs. congruence.
Qed.

(** A node that just became leader; the quorum that elected it is known to the
    cluster only. *)
Definition winning s c : Prop :=
  let t := pterm (pn s i) in
  stored s c ∧ node_core s i (rn c) ∧ state (rn c) = Leader ∧
  (∀ q m, matchIndex (rn c) !! q = Some m → m = 0) ∧
  (ll s t = None ∨ lead s t ≠ i) ∧ gr s i t i ∧
  ∃ o, out c = o ++ [GoReplication t] ∧ Forall (msg_rep s i) o.

Lemma sim_becomeLeader s :
  hoare (λ c, sim s c ∧ state (rn c) = Candidate) becomeLeaderLocked (λ _, winning s) simX.
Proof.
  intros e c [(Hst & [Hc Hrole] & Ho) Hcand]. destruct (stored_facts s c Hst) as (HI & HR & _).
  pose proof (node_shaped members s i HI HR) as Hsh. unfold role_rep in Hrole. rewrite Hcand in Hrole.
  unfold becomeLeaderLocked. run_m.
  change (log ((rn c) <| state := Leader |> <| leaderID := node_id (rn c) |>)) with (log (rn c)).
  rewrite (nc_log _ _ _ _ Hc), memlog_last by done. run_m.
  split; [exact Hst|]. split; [eapply node_core_view; [|exact Hc]; done|]. split; [done|]. split.
  { simpl. intros q m Hq. apply elem_of_list_to_map_2, list_elem_of_fmap in Hq as (? & [= _ ->] & _). done. }
  split; [apply Hrole|]. split; [apply Hrole|]. exists (out c). split; [|done]. simpl.
  by rewrite (nc_term _ _ _ _ Hc).
Qed.

(** What a section that may win an election ends in. *)
Definition simW c : Prop := simI c ∨ ∃ s, winning s c.

Lemma sim_electionTick s :
  i ≠ None_ → name_ok i = true →
  hoare (λ c, sim s c ∧ currentTerm (rn c) + 1 < u64_size) electionTick (λ _, simW) simX.
Proof.
  intros Hne Hname. apply hoare_ask. intros e. apply hoare_pointwise. intros c0 [Hsim Hrange].
  apply hoare_get_at. apply hoare_when; [|intros _ c ->; left; by exists s]. intros _.
  pose proof Hsim as (Hst & [Hc _] & Ho). destruct (stored_facts s c0 Hst) as (HI & HR & _).
  destruct (stand_states s (currentTerm (rn c0) + 1) HI HR) as (s' & Hm & Hp & Hstd & Hgr & Hll);
    [by rewrite (nc_term _ _ _ _ Hc)|done|].
  destruct (moves_facts members i s s' HI HR Hm) as (HI' & HR' & Hg & _ & _).
  pose proof (node_shaped members s' i HI' HR') as Hsh.
  set (P := λ m, node_core s' i m ∧ state m = Candidate).
  eapply hoare_bind with (R := λ _ c, stored s c ∧ P (rn c) ∧ Forall (msg_rep s' i) (out c)).
  { apply hoare_modify. intros c ->. split; [exact Hst|]. split; [split; [|done]|].
    - eapply (node_core_hs members s s' i (rn c0)); [done|done|exact Hp| | |exact Hc].
      + rewrite (nc_term _ _ _ _ Hc). lia.
      + unfold view. simpl. by rewrite u64_add_small, (nc_id _ _ _ _ Hc) by done.
    - eapply Forall_impl; [exact Ho|]. intros x. by apply msg_rep_grows. }
  intros ?. eapply hoare_bind with (R := λ _ c, stored s' c ∧ P (rn c) ∧ Forall (msg_rep s' i) (out c)).
  { eapply (sim_persist members s0 i s s' _ i (λ m o, P m ∧ Forall (msg_rep s' i) o)); try done.
    intros m o [[Hcm _] _]. by rewrite (nc_term _ _ _ _ Hcm), (nc_vote _ _ _ _ Hcm), Hp. }
  intros ?. eapply hoare_bind; [apply (sim_reset members s0 i s' P)|].
  { intros m x y [Hcm ?]. split; [|done]. eapply node_core_view; [|exact Hcm]; done. }
  intros ?. apply hoare_pointwise. intros c1 (Hst1 & [Hc1 Hs1] & Ho1). apply hoare_get_at.
  rewrite (nc_log _ _ _ _ Hc1), memlog_last, memlog_lastTerm by done.
  eapply hoare_bind with (R := λ x c, c = c1 ∧ x = N.of_nat (length (plog (pn s' i))));
    [apply hoare_index; [done|by intros x c -> [= <-]]|].
  intros lastI. apply hoare_pre_pure. intros ->.
  eapply hoare_bind with (R := λ x c, c = c1 ∧ x = tm (plog (pn s' i)) (length (plog (pn s' i))));
    [apply hoare_index; [done|by intros x c -> [= <-]]|].
  intros lastT. apply hoare_pre_pure. intros ->.
  set (R := λ c, sim s' c ∧ state (rn c) = Candidate).
  eapply hoare_bind with (R := λ _, R).
  { apply hoare_modify. intros c ->. split; [|done]. split; [exact Hst1|]. split; [|exact Ho1]. split.
    - eapply node_core_view; [|exact Hc1]. done.
    - unfold role_rep. simpl. rewrite Hs1, Hp. done. }
  intros ?. destruct (quorum _ <=? 1).
  - eapply hoare_weaken; [apply sim_becomeLeader|]. intros ? c Hw. right. by exists s'.
  - eapply (hoare_weaken _ _ (λ _, R)); [|intros ? c [H _]; left; by exists s'].
    apply (keeps_for_each R). intros q. apply hoare_emit. intros c [(Hst2 & Hn2 & Ho2) ?]. split; [|done].
    split; [exact Hst2|]. split; [exact Hn2|]. simpl. apply Forall_app. split; [done|].
    constructor; [|done]. simpl. rewrite (nc_term _ _ _ _ Hc1), Hp. simpl. rewrite Nat2N.id, Hstd. done.
Qed.

Lemma sim_voteReply s term reply :
  RVR_Term reply < u64_size →
  hoare (sim s) (handleRequestVoteReply term reply) (λ _, simW) simX.
Proof.
  intros Hrange. apply hoare_get. intros n. destruct (stopped n).
  { apply hoare_ret. intros c [Hs _]. left. by exists s. }
  destruct (N.ltb_spec (currentTerm n) (RVR_Term reply)).
  { eapply hoare_weaken; [by apply (sim_becomeFollower members s0 i HI0 HR0)|].
    intros ? c (s' & Hs & _). left. by exists s'. }
  destruct (bool_decide_reflect (state n = Candidate)) as [Hcand|]; simpl;
    [|apply hoare_ret; intros c [Hs _]; left; by exists s].
  destruct (currentTerm n =? term); simpl; [|apply hoare_ret; intros c [Hs _]; left; by exists s].
  destruct (RVR_VoteGranted reply); [|apply hoare_ret; intros c [Hs _]; left; by exists s].
  eapply hoare_bind with (R := λ _ c, sim s c ∧ state (rn c) = Candidate).
  { apply hoare_modify. intros c [(Hst & Hn & Ho) <-]. split; [|done]. split; [exact Hst|].
    split; [|exact Ho]. eapply node_rep_view; [..|exact Hn]; done. }
  intros ?. apply hoare_when; [|intros _ c [Hs _]; left; by exists s].
  intros _. eapply hoare_weaken; [apply sim_becomeLeader|]. intros ? c Hw. right. by exists s.
Qed.
(** *** Replicating *)

Lemma outbound_rep s n base term peer x :
  PI s → ranged s → node_rep s i n → state n = Leader → currentTerm n = term →
  peer ≠ i → outboundFor n base term peer = Some x → msg_rep s i x.
Proof.
  intros HI HR [Hc Hrole] Hlead <- Hpeer. unfold role_rep in Hrole. rewrite Hlead in Hrole.
  destruct Hrole as (HL & Hld & _). unfold outboundFor. set (nx := default 0 _).
  destruct (nx <=? base).
  { intros [= <-]. simpl. rewrite (nc_term _ _ _ _ Hc). split; [done|]. split; [by eexists|done]. }
  destruct (termAt (log n) (nx -w 1)) as [pt|] eqn:Ht; simpl; [|done].
  destruct (entriesFrom (log n) nx) as [es|] eqn:He; simpl; [|done]. intros [= <-].
  rewrite (nc_log _ _ _ _ Hc) in Ht, He.
  destruct (memlog_outbound _ (node_shaped members s i HI HR) _ _ _ Ht He) as (Hle & -> & ->).
  split; [done|]. exists (plog (pn s i)). rewrite (nc_term _ _ _ _ Hc). simpl. split; [done|].
  split; [rewrite length_drop; lia|]. split; [done|]. split.
  - intros k Hk. by rewrite lookup_drop.
  - apply (nc_commit _ _ _ _ Hc).
Qed.

Lemma sim_replicationRound s term : hoare (sim s) (replicationRound term) (λ _, simI) simX.
Proof.
  apply hoare_pointwise. intros c0 Hsim. apply hoare_get_at.
  destruct (bool_decide_reflect (state (rn c0) = Leader)) as [Hlead|]; simpl;
    [|apply hoare_ret; intros c ->; by exists s].
  destruct (N.eqb_spec (currentTerm (rn c0)) term) as [Hterm|]; simpl;
    [|apply hoare_ret; intros c ->; by exists s].
  pose proof Hsim as (Hst & Hn & _). destruct (stored_facts s c0 Hst) as (HI & HR & _).
  eapply hoare_bind with (R := λ _ c, c = c0);
    [apply hoare_index; [intros c -> _; by apply (sim_X members s0 i s)|done]|].
  intros base. eapply hoare_bind with (R := λ xs c, sim s c ∧ Forall (msg_rep s i) xs).
  { apply hoare_index; [intros c -> _; by apply (sim_X members s0 i s)|]. intros xs c -> Hxs.
    split; [done|]. eapply Forall2_Forall_r; [by apply mapM_Some_1|]. apply Forall_forall.
    intros q Hq x. apply (outbound_rep s (rn c0)); try done.
    rewrite (nc_peers _ _ _ _ (proj1 Hn)) in Hq. by apply list_elem_of_filter in Hq as [? _]. }
  intros xs. apply hoare_pre_pure. intros Hxs.
  eapply hoare_bind with (R := λ _, sim s); [|intros ?; apply hoare_ret; intros c ?; by exists s].
  induction Hxs as [|x xs Hx _ IH]; [by apply hoare_ret|]. simpl.
  eapply hoare_bind; [by apply sim_emit|]. intros ?. exact IH.
Qed.
(** *** Committing *)

Section commit.
Context (Hi : i ∈ members) (Hnd : NoDup members).

Lemma commit_quorum ps mi k :
  ps = filter (λ q, q ≠ i) members → quorum ps ≤ replicaCount ps mi k →
  isQ members (i :: filter (λ q, k ≤ default 0 (mi !! q)) ps).
Proof.
  intros -> Hq. split; [|split].
  - constructor; [|by repeat apply NoDup_filter]. intros Hin.
    by apply list_elem_of_filter in Hin as [_ [? _]%list_elem_of_filter].
  - intros w [->|[_ [_ ?]%list_elem_of_filter]%list_elem_of_filter]%elem_of_cons; done.
  - pose proof (length_others i members Hnd Hi) as Hlen. simpl. unfold quorum, replicaCount, lenN in Hq.
    pose proof (N.div_mod' (N.of_nat (length (filter (λ q, q ≠ i) members)) + 1) 2).
    pose proof (N.mod_lt (N.of_nat (length (filter (λ q, q ≠ i) members)) + 1) 2 ltac:(done)).
    lia.
Qed.

(** An entry of the leader's term on a majority is committed, or already was. *)
Lemma commit_state s n k :
  PI s → ranged s → node_rep s i n → state n = Leader → (0 < k)%nat →
  (k ≤ length (plog (pn s i)))%nat → tm (plog (pn s i)) k = pterm (pn s i) →
  quorum (peers n) ≤ replicaCount (peers n) (matchIndex n) (N.of_nat k) →
  ∃ s', (s' = s ∨ move members i s s') ∧ pn s' i = pn s i ∧ ll s' = ll s ∧
        settled s' k (plog (pn s i)).
Proof.
  intros HI HR [Hc Hrole] Hlead Hk0 Hk Htm Hq. unfold role_rep in Hrole. rewrite Hlead in Hrole.
  destruct Hrole as (HL & Hld & Hmatch). set (t := pterm (pn s i)) in *.
  destruct (settled_dec s k (plog (pn s i))) as [Hs|Hns]; [exists s; auto|].
  pose proof (commit_quorum _ _ _ (nc_peers _ _ _ _ Hc) Hq) as HQ.
  set (Q := i :: filter _ _) in HQ.
  assert (∀ w, w ∈ Q → ak s w t k) as Hall.
  { intros w [->|[Hm _]%list_elem_of_filter]%elem_of_cons.
    + pose proof (I_self _ s HI t _ k HL Hk0 Hk Htm) as Hak. by rewrite Hld in Hak.
    + destruct (matchIndex n !! w) as [m|] eqn:Hw; simpl in Hm; [|lia].
      destruct (Hmatch w m Hw) as [Hcm|Hak].
      * destruct Hns. eapply settled_below; [exact Hcm|lia].
      * eapply (I_ack_down _ s HI); [exact Hak|lia]. }
  eexists. split; [right; split; [by eapply (p_commit _ s t (plog (pn s i)) k Q)|done]|].
  split; [done|]. split; [done|].
  destruct (commit_log _ (isQ_meet members) s t _ k Q HI HL Hk0 Hk Htm HQ Hall Hns) as (? & ? & _). done.
Qed.

(** The leader raises its commitIndex to a committed index of its own log. *)
Lemma sim_raiseCommit s k :
  settled s (N.to_nat k) (plog (pn s i)) → (N.to_nat k ≤ length (plog (pn s i)))%nat →
  hoare (λ c, sim s c ∧ state (rn c) = Leader ∧ commitIndex (rn c) ≤ k)
    (modify (λ n, n <| commitIndex := k |>)) (λ _, sim s) simX.
Proof.
  intros Hcert Hk. apply hoare_modify. intros c ((Hst & [Hc Hrole] & Ho) & Hlead & Hci).
  destruct (stored_facts s c Hst) as (HI & HR & _). split; [exact Hst|]. split; [|exact Ho].
  split; [|exact Hrole].
  destruct Hc as [? ? ? ? ? ? ? (Hfl & _) Hap]. split; try done.
  - split; [simpl; lia|]. done.
  - by apply applying_raise.
Qed.

Lemma sim_advanceCommit s : hoare (sim s) advanceCommitIndexLocked (λ _, simI) simX.
Proof.
  apply hoare_pointwise. intros c0 Hsim. apply hoare_get_at.
  destruct (bool_decide_reflect (state (rn c0) = Leader)) as [Hlead|]; simpl;
    [|apply hoare_ret; intros c ->; by exists s].
  pose proof Hsim as (Hst & Hn & _). pose proof Hn as [Hc _].
  destruct (stored_facts s c0 Hst) as (HI & HR & _).
  pose proof (node_shaped members s i HI HR) as Hsh. destruct (Hsh) as (_ & _ & Hr).
  rewrite (nc_log _ _ _ _ Hc), memlog_last by done.
  eapply hoare_bind with (R := λ l c, c = c0 ∧ l = N.of_nat (length (plog (pn s i))));
    [apply hoare_index; [done|by intros x c -> [= <-]]|].
  intros last. apply hoare_pre_pure. intros ->.
  eapply hoare_bind; [apply hoare_index; [intros c -> _; by apply (sim_X members s0 i s)|]|].
  { intros x c Hx Hr'. exact (conj Hx Hr'). }
  intros [k|]; [|apply hoare_ret; intros c [-> _]; by exists s]. apply hoare_pre_pure. intros Hscan.
  apply commitScan_sound in Hscan as (Hlt & Hle & Htm & Hq); [|lia].
  destruct (nc_commit _ _ _ _ Hc) as (Hfl & _).
  rewrite memlog_termAt, (nc_term _ _ _ _ Hc) in Htm by (done || lia). injection Htm as Htm.
  destruct (commit_state s (rn c0) (N.to_nat k)) as (s' & Hmv & Hp & Hll & Hset); try done; try lia.
  { by rewrite N2Nat.id. }
  assert (sim s' c0) as Hsim'.
  { destruct Hmv as [->|Hmv]; [done|]. by eapply sim_history. }
  eapply hoare_bind with (R := λ _, sim s').
  - eapply hoare_from; [apply (sim_raiseCommit s' k); rewrite Hp; [done|lia]|]. split; [done|]. split; [done|lia].
  - intros ?. eapply hoare_weaken; [by apply sim_emit|]. by exists s'.
Qed.
End commit.
(** *** Proposing *)

(** The state in which the leader has appended [e]. *)
Lemma propose_state s e :
  PI s → ranged s → ll s (pterm (pn s i)) = Some (plog (pn s i)) → lead s (pterm (pn s i)) = i →
  Term e = pterm (pn s i) → Index e = N.of_nat (length (plog (pn s i))) + 1 →
  N.of_nat (length (plog (pn s i))) + 2 < u64_size → entry_fits e →
  ∃ s', move members i s s' ∧ pn s' i = (pn s i) <| plog := plog (pn s i) ++ [e] |> ∧
        ll s' (pterm (pn s i)) = Some (plog (pn s i) ++ [e]) ∧ lead s' = lead s.
Proof.
  intros HI HR HL Hld Ht Hidx Hrange Hfit. eexists. split; [split|].
  - apply (p_propose _ s i e); done.
  - split; [intros j Hj; by apply (setNode_ne s)|]. split.
    + intros v Hv. simpl. rewrite decide_False; [done|]. intros ->. by rewrite HL in Hv.
    + intros T L HT. simpl in HT. case_decide; [|by eapply HR]. injection HT as <-.
      destruct (HR _ _ HL) as [_ Hall]. split; [rewrite length_app; simpl; lia|].
      apply Forall_app. split; [done|by constructor].
  - split; [apply (setNode_eq s)|]. split; [|done]. simpl. by rewrite decide_True.
Qed.

Lemma sim_leaderAppend s e n :
  Term e = currentTerm n → Index e = N.of_nat (length (plog (pn s i))) + 1 →
  N.of_nat (length (plog (pn s i))) + 2 < u64_size → entry_fits e →
  hoare (λ c, (sim s c ∧ state (rn c) = Leader) ∧ rn c = n) (appendLogLocked [e]) (λ _, simI) simX.
Proof.
  intros Ht Hidx Hrange Hfit. apply hoare_pointwise. intros c0 [[Hsim Hlead] <-].
  pose proof Hsim as (Hst & [Hc Hrole] & Ho). destruct (stored_facts s c0 Hst) as (HI & HR & _).
  unfold role_rep in Hrole. rewrite Hlead in Hrole. destruct Hrole as (HL & Hld & Hmatch).
  rewrite (nc_term _ _ _ _ Hc) in Ht.
  destruct (propose_state s e) as (s' & Hmv & Hp & HL' & Hld'); try done.
  destruct (move_facts members i s s' HI Hmv) as [HI' Hg].
  apply hoare_get_at. rewrite (nc_logstore _ _ _ _ Hc).
  eapply hoare_bind with (R := λ _ c, stored s' c ∧ rn c = rn c0 ∧ out c = out c0).
  - eapply hoare_from; [apply (stored_must members s0 i _ _ s s' (λ m o, m = rn c0 ∧ o = out c0))|done].
    + by apply moves_one.
    + apply call_AppendEntries; try done.
      * intros k Hk. destruct k as [|[|k]]; [| |simpl in Hk; lia].
        -- exists s. split; [reflexivity|]. simpl. rewrite app_nil_r. by destruct (pn s i).
        -- exists s'. split; [by apply moves_one|done].
      * by constructor.
      * unfold lenN. simpl. lia.
  - intros ?. apply hoare_modify. intros c (Hst' & Hrn & Hout). exists s'. split; [exact Hst'|]. split.
    + simpl. rewrite Hrn. pose proof (nc_commit _ _ _ _ Hc) as (_ & Hci & _). split.
      * eapply (node_core_log members i s s' (rn c0)); [done|done|exact Hp| |done| | |exact Hc].
        -- simpl. rewrite (nc_log _ _ _ _ Hc), Hp. apply memlog_app. by eapply node_shaped.
        -- rewrite length_app. lia.
        -- eapply agree_weaken; [apply agree_sym, agree_prefix, prefix_app_r; reflexivity|lia|exact Hci].
      * unfold role_rep. simpl. rewrite Hlead, Hp. simpl. rewrite Hld'. split; [done|]. split; [done|].
        intros q m Hq. destruct (Hmatch q m Hq) as [?|?]; [left|right; by apply (grows_ak _ _ Hg)].
        eapply (settled_grows s); [exact Hg|exact HL|exact HL'|done].
    + simpl. rewrite Hout. eapply Forall_impl; [exact Ho|]. intros x. by apply msg_rep_grows.
Qed.

(** A section in the state it finds itself in. *)
Lemma sim_any {A} (m : M D SM A) (Q : A → Ctx D SM → Prop) X :
  (∀ s, hoare (sim s) m Q X) → hoare simI m Q X.
Proof. intros H. apply hoare_exists. exact H. Qed.

Section leading.
Context (Hi : i ∈ members) (Hnd : NoDup members).

Lemma sim_Propose s cmd :
  cmd_ok cmd = true →
  hoare (λ c, sim s c ∧ currentTerm (rn c) < u64_size ∧
              default 0 (lastLogIndex (log (rn c))) + 2 < u64_size) (Propose cmd) (λ _, simI) simX.
Proof.
  intros Hcmd. apply hoare_pointwise. intros c0 (Hsim & Hct & Hrange). apply hoare_get_at.
  destruct (bool_decide_reflect (state (rn c0) = Leader)) as [Hlead|]; simpl;
    [|apply hoare_ret; intros c ->; by exists s].
  pose proof Hsim as (Hst & Hn & _). pose proof Hn as [Hc _].
  destruct (stored_facts s c0 Hst) as (HI & HR & _).
  pose proof (node_shaped members s i HI HR) as Hsh.
  rewrite (nc_log _ _ _ _ Hc), memlog_last in Hrange |- * by done. simpl in Hrange.
  eapply hoare_bind with (R := λ l c, c = c0 ∧ l = N.of_nat (length (plog (pn s i))));
    [apply hoare_index; [done|by intros x c -> [= <-]]|].
  intros last. apply hoare_pre_pure. intros ->. rewrite u64_add_small by lia.
  eapply hoare_bind.
  { eapply hoare_from; [apply (sim_leaderAppend s _ (rn c0))|done]; try done; simpl. split; [done|].
    split; [simpl; lia|done]. }
  intros ?. eapply hoare_bind; [apply sim_any; intros s'; by apply sim_advanceCommit|].
  intros ?. eapply hoare_bind; [by apply simI_inert|]. intros ?. by apply hoare_ret.
Qed.

(** *** Replies *)

(** A peer's matchIndex moves to [m], which it acknowledged or which is
    committed. *)
Lemma sim_match s q m f :
  settled s (N.to_nat m) (plog (pn s i)) ∨ ak s q (pterm (pn s i)) (N.to_nat m) →
  (∀ n, view (f n) = view n ∧ state (f n) = state n ∧ matchIndex (f n) = <[q := m]> (matchIndex n)) →
  hoare (sim s) (modify f) (λ _, sim s) simX.
Proof.
  intros Hm Hf. apply hoare_modify. intros c (Hst & [Hc Hrole] & Ho). destruct (Hf (rn c)) as (Hv & Hs & Hmi).
  split; [exact Hst|]. split; [|exact Ho]. simpl. split; [by eapply node_core_view|].
  unfold role_rep in *. rewrite Hs, Hmi. destruct (state (rn c)); try done.
  destruct Hrole as (? & ? & Hmatch). split; [done|]. split; [done|]. intros q' m' Hq.
  apply lookup_insert_Some in Hq as [[-> ->]|[_ Hq]]; auto.
Qed.

Lemma sim_appendReply s peer term args reply :
  AER_Term reply < u64_size →
  msg_rep s0 i (GoAppendEntries peer term args) →
  (AER_Success reply = true →
   ak s0 peer term (N.to_nat (AEA_PrevLogIndex args) + length (AEA_Entries args))) →
  hoare (sim s) (handleAppendEntriesReply peer term args reply) (λ _, simI) simX.
Proof.
  intros Hrange Hmsg Hack. apply hoare_pointwise. intros c0 Hsim. apply hoare_get_at.
  destruct (stopped (rn c0)); [apply hoare_ret; intros c ->; by exists s|].
  destruct (N.ltb_spec (currentTerm (rn c0)) (AER_Term reply)).
  { eapply (hoare_from (λ c, sim s c ∧ rn c = rn c0)); [|done].
    eapply hoare_weaken; [by apply (sim_becomeFollower members s0 i HI0 HR0)|].
    intros ? c (s' & Hs & _). by exists s'. }
  destruct (bool_decide_reflect (state (rn c0) = Leader)) as [Hlead|]; simpl;
    [|apply hoare_ret; intros c ->; by exists s].
  destruct (N.eqb_spec (currentTerm (rn c0)) term) as [Hterm|]; simpl;
    [|apply hoare_ret; intros c ->; by exists s].
  pose proof Hsim as (Hst & [Hc _] & _). destruct (stored_facts s c0 Hst) as (HI & HR & Hg).
  destruct (sim_msg members s0 i HI0 HR0 s c0 i _ Hst Hmsg) as (_ & L & HL & Hlen & _).
  destruct (AER_Success reply).
  - apply hoare_when; [intros _|intros _ c ->; by exists s].
    destruct (HR _ _ HL) as [HrL _].
    assert (AEA_PrevLogIndex args +w lenN (AEA_Entries args) =
            N.of_nat (N.to_nat (AEA_PrevLogIndex args) + length (AEA_Entries args))) as ->.
    { rewrite u64_add_small; unfold lenN; lia. }
    eapply hoare_bind with (R := λ _, sim s).
    + eapply hoare_from; [eapply (sim_match s peer); [|by intros n]|done]. right.
      rewrite <-(nc_term _ _ _ _ Hc), Hterm, Nat2N.id. apply (grows_ak _ _ Hg). by apply Hack.
    + intros ?. by apply sim_advanceCommit.
  - eapply hoare_bind with (R := λ _, sim s).
    + apply hoare_when; [intros _|by intros _ c ->].
      eapply hoare_from; [by apply sim_inert|done].
    + intros ?. eapply hoare_weaken; [by apply sim_inert|]. by exists s.
Qed.

Lemma sim_snapshotReply s peer term args reply :
  ISR_Term reply < u64_size →
  msg_rep s0 i (GoInstallSnapshot peer term args) →
  hoare (sim s) (handleInstallSnapshotReply peer term args reply) (λ _, simI) simX.
Proof.
  intros Hrange Hmsg. apply hoare_pointwise. intros c0 Hsim. apply hoare_get_at.
  destruct (stopped (rn c0)); [apply hoare_ret; intros c ->; by exists s|].
  destruct (N.ltb_spec (currentTerm (rn c0)) (ISR_Term reply)).
  { eapply (hoare_from (λ c, sim s c ∧ rn c = rn c0)); [|done].
    eapply hoare_weaken; [by apply (sim_becomeFollower members s0 i HI0 HR0)|].
    intros ? c (s' & Hs & _). by exists s'. }
  destruct (bool_decide_reflect (state (rn c0) = Leader)) as [Hlead|]; simpl;
    [|apply hoare_ret; intros c ->; by exists s].
  destruct (N.eqb_spec (currentTerm (rn c0)) term) as [Hterm|]; simpl;
    [|apply hoare_ret; intros c ->; by exists s].
  pose proof Hsim as (Hst & [Hc Hrole] & _). unfold role_rep in Hrole. rewrite Hlead in Hrole.
  destruct (sim_msg members s0 i HI0 HR0 s c0 i _ Hst Hmsg) as (_ & _ & _ & (L & HL & Hset) & _).
  rewrite (nc_term _ _ _ _ Hc) in Hterm. rewrite <-Hterm in HL, Hset.
  destruct Hrole as (HL' & _). rewrite HL' in HL. injection HL as <-.
  apply hoare_when; [intros _|intros _ c ->; by exists s].
  eapply hoare_from; [|exact Hsim]. eapply (hoare_weaken _ _ (λ _, sim s)); [|intros ? c ?; by exists s].
  eapply (sim_match s peer); [left|by intros n]. destruct Hset as [?|?]; [done|lia].
Qed.
End leading.

(** *** Sending snapshots *)

(** A leader's floor is committed in its own log, until it is deposed. *)
Lemma leads_settled s t L :
  PI s → ll s t = Some L → lead s t = i → settled s (pfloor (pn s i)) L ∨ t < pterm (pn s i).
Proof.
  intros HI HL Hld. destruct (I_lead _ s HI t L HL) as (_ & _ & lt & li & Hst & _). rewrite Hld in Hst.
  destruct (I_stand _ s HI _ _ _ _ Hst) as [Hle _]. destruct (decide (pterm (pn s i) = t)) as [Heq|]; [left|right; lia].
  pose proof (I_own _ s HI t L HL) as Hown. rewrite Hld in Hown. rewrite <-(Hown Heq).
  destruct (I_seated _ s HI i) as [Hf Hag _]. split; [by eapply agree_len|done].
Qed.

(** The snapshot on the disk is one of the committed log; while its sender leads
    the term it is sent in, of that leader's log. *)
Lemma sim_sendSnapshot s peer term :
  msg_rep s0 i (GoSendSnapshot peer term) →
  hoare (sim s) (sendSnapshot peer term) (λ _, simI) simX.
Proof.
  intros Hmsg. apply hoare_pointwise. intros c0 Hsim. apply hoare_get_at.
  pose proof Hsim as (Hst & [Hc Hrole] & Ho). rewrite (nc_snapstore _ _ _ _ Hc). simpl.
  destruct (stored_facts s c0 Hst) as (HI & HR & _).
  destruct (sim_msg members s0 i HI0 HR0 s c0 i _ Hst Hmsg) as (Hpeer & [L HL] & Hld).
  destruct (I_seated _ s HI i) as [Hf Hag _]. pose proof (agree_len _ _ _ Hag Hf) as Hcl.
  pose proof Hst as (Hm & [Hrdy Hin] & Hd & Hcr). pose proof (ready_survives _ Hrdy) as Hsv.
  destruct (LoadSnapshot_frame (disk c0) Hsv) as [Hfr Hrdy'].
  destruct (LoadSnapshot_spec (disk c0) Hsv) as (Hsp & Hres & Hin').
  pose proof (through_and _ _ _ Hfr Hsp) as Hthr.
  eapply hoare_bind with (R := λ r c, sim s c ∧ io_res (LoadSnapshot (disk c0)) = r).
  { apply hoare_try. intros c ->. cbv zeta. split; [|done].
    assert (∀ d', (survives d' ∧ hard d' = hard (disk c0)) ∧
                  records d' = records (disk c0) ∧ snapOf d' = snapOf (disk c0) →
            survives d' ∧ diskrep d' (pn s i)) as Hkeep.
    { intros d' [[? Hh] [Hr Hs]]. split; [done|]. destruct Hd as (? & ? & ?).
      unfold diskrep. by rewrite Hh, Hr, Hs. }
    split; [|split; [|exact Ho]]; [|exact (conj Hc (proj2 (proj1 (proj2 Hsim))))].
    split; [done|]. split; [split; auto|]. split; [apply Hkeep, Hthr|].
    simpl. apply Forall_app. split; [done|]. apply through_all. eapply through_impl; [|exact Hthr].
    intros d' Hd'. destruct (Hkeep d' Hd'). split; [done|]. exists s. done. }
  intros r. apply hoare_pre_pure. intros Hr.
  destruct r as [|[snap|]]; [apply hoare_ret; intros c Hs; by exists s| |apply hoare_ret; intros c Hs; by exists s].
  eapply hoare_weaken; [apply sim_emit|intros ? c ?; by exists s].
  specialize (Hres _ Hr). destruct Hd as (_ & Hsn & _). rewrite Hres in Hsn. destruct Hsn as (Hli & Hlt & Hdata).
  simpl. rewrite Hli, Hlt, Nat2N.id. do 3 (split; [done|]).
  split; [exists L; split; [done|]; by apply leads_settled|]. split; [done|].
  unfold snapdata, state_at. rewrite Nat2N.id, <-(agree_take_eq _ _ _ Hag). split; [|done].
  destruct (decide (pfloor (pn s i) = 0%nat)) as [->|]; [done|].
  apply (agree_tm _ _ _ _ (pfloor (pn s i)) Hag); lia.
Qed.

(** *** Lifecycle *)

Lemma sim_launch s n :
  node_rep s i (n <| started := true |> <| applier := ApWaiting |>) →
  hoare (λ c, stored s c ∧ rn c = n ∧ Forall (msg_rep s i) (out c)) launch (λ _, simI) simX.
Proof.
  intros Hn e c (Hst & <- & Ho). unfold launch, resetElectionTimerLocked. run_m. exists s.
  split; [exact Hst|]. split; [eapply node_rep_view; [..|exact Hn]; done|].
  simpl. apply Forall_app. split; [|by constructor]. apply Forall_app. split; [done|by constructor].
Qed.

(** A node that was not started yet, once its state machine is at lastApplied. *)
Lemma start_rep s n sm :
  node_rep s i n → started n = false → sm = state_at s (lastApplied n) →
  node_rep s i (n <| stateMachine := Some sm |> <| initialSnapshotData := None |>
                  <| started := true |> <| applier := ApWaiting |>).
Proof.
  intros [Hc Hrole] Hs ->. split; [|exact Hrole]. destruct Hc as [? ? ? ? ? ? ? ? (Hla & Hoff & _ & Hps) Hcv].
  split; try done. destruct Hcv as [?|(sn & [?|Hap] & ?)]; [by left|right; exists sn; auto|].
  by rewrite Hoff in Hap.
Qed.

Lemma sim_Start s : hoare (sim s) Start (λ _, simI) simX.
Proof.
  apply hoare_pointwise. intros c0 Hsim. apply hoare_get_at.
  pose proof Hsim as (Hst & [Hc Hrole] & Ho).
  destruct (HasTransport _); simpl; [|apply hoare_ret; intros c ->; by exists s].
  destruct (started (rn c0)) eqn:Hs; [apply hoare_ret; intros c ->; by exists s|].
  destruct (nc_applying _ _ _ _ Hc) as (_ & Hoff & Hap & _).
  destruct (initialSnapshotData (rn c0)) as [data|] eqn:Hini.
  - destruct Hap as [_ Hdata]. destruct (stateMachine (rn c0)) as [sm|];
      [|apply hoare_ret; intros c ->; by exists s].
    destruct (Snapshot_Restore _ _ Hdata) as [_ ->].
    eapply hoare_bind; [|intros ?; apply sim_launch, (start_rep s (rn c0)); done].
    apply hoare_modify. by intros c ->.
  - unfold applier_rep in Hap. rewrite Hoff in Hap by done.
    eapply hoare_from; [apply (sim_launch s (rn c0))|done].
    assert (rn c0 = (rn c0) <| stateMachine := Some (state_at s (lastApplied (rn c0))) |>
                            <| initialSnapshotData := None |>) as ->.
    { rewrite <-Hap, <-Hini. by destruct (rn c0). }
    by apply (start_rep s (rn c0)).
Qed.

Lemma sim_Stop s : hoare (sim s) Stop (λ _, simI) simX.
Proof.
  apply hoare_get. intros n. destruct (stopped n); [apply hoare_ret; intros c [Hs _]; by exists s|].
  eapply hoare_bind with (R := λ _, sim s).
  - eapply hoare_conseq; [by apply (sim_inert members s0 i s)|by intros c [? _]|done..].
  - intros ?. eapply hoare_weaken; [by apply sim_emit|]. by exists s.
Qed.
End one.
End leaders.
