(* ===== verification/Refinement.v ===== *)
(** * The cluster refines the protocol

    [Rel] relates a cluster to a protocol state: every disk and every live node
    represents its protocol node, every message and every answer ever sent is
    true of the histories.  Every step of the cluster is matched by protocol
    moves, so the safety of the protocol is the safety of the cluster. *)

From S2P Require Import Prelude Types Effects Log Node Election Handlers Replication Hoare Contracts Terms Cluster ElectionSafety Protocol ProtocolSafety Replay LogContract Abstraction Simulation SectionSim SnapshotSim LeaderSim.

Section refinement.
Context {D SM : Type} `{!Storage D} `{!StateMachine SM} `{!StateMachineSpec SM} `{!StateStoreSpec D} `{!LogStoreSpec D}.
Context (members : list string) (cfgOf : string → Config) (d0 : string → D).
Local Abbreviation sm0 := (genesis (SM := SM)).
Context (allow : RaftNode SM → Action → bool).
Context `{!Membership members cfgOf} (Hnames : ∀ i, i ∈ members → name_ok i = true).
Implicit Types (s : PState) (p : PNode) (n : RaftNode SM) (c : Cluster D SM).
Local Abbreviation PI := (PInv (isQ members)).
Local Abbreviation node_core := (node_core (SM := SM) members).
Local Abbreviation node_rep := (node_rep (SM := SM) members).

(** ** Recovery *)

(** A disk that differs from [d] in nothing recovery looks at. *)
Definition same (d d' : D) : Prop :=
  survives d' ∧ hard d' = hard d ∧ records d' = records d ∧ snapOf d' = snapOf d.

Lemma same_rep d d' p : same d d' → diskrep d p → diskrep d' p.
Proof. intros (_ & Hh & Hr & Hs) (? & ? & ?). unfold diskrep. by rewrite Hh, Hr, Hs. Qed.

Lemma same_through {A} d (r : IoRes D A) :
  through (λ d', survives d' ∧ hard d' = hard d) r →
  through (λ d', records d' = records d ∧ snapOf d' = snapOf d) r → through (same d) r.
Proof.
  intros H1 H2. eapply through_impl; [|exact (through_and _ _ _ H1 H2)].
  intros d' [[? ?] [? ?]]. done.
Qed.

(** The node NewNode builds from what it read. *)
Definition recoveredNode (cf : Config) (o : option HardState) (sn : option Snapshot)
    (l : list LogEntry) : RaftNode SM :=
  (recoverSnapshot (recoverHardState (initialNode cf) o) sn) <| log := l |>.

Lemma recovered_rep s i cf o sn es l rs :
  PI s → ranged s → CfgID cf = i → CfgPeers cf = filter (λ q, q ≠ i) members →
  HasLogStore cf = true → HasSnapshotStore cf = true →
  default zeroHardState o = mkHardState (pterm (pn s i)) (pvote (pn s i)) → snaprep sn (pn s i) →
  replay rs = inr es → walrep rs (N.of_nat (pfloor (pn s i))) (drop (pfloor (pn s i)) (plog (pn s i))) →
  recoverLog (N.of_nat (pfloor (pn s i))) (N.of_nat (pfloor (pn s i)) +w 1) es
    [sentinelOf (pn s i)] = inr l →
  node_rep s i ((recoveredNode cf o sn l) <| stateMachine := Some sm0 |>).
Proof.
  intros HI HR Hid Hpe Hls Hss Hhs Hsn Hes Hw Hl.
  pose proof (node_shaped members s i HI HR) as Hsh. destruct (Hsh) as (Hf & _ & Hr).
  assert (l = memlog (pn s i)) as ->.
  { destruct (proj2 Hw es Hes) as [_ Hab]. pose proof (suffix_consecutive _ Hsh (pfloor (pn s i)) ltac:(done)) as Hc.
    rewrite u64_add_small in Hl by lia. rewrite <-Hab in Hc.
    rewrite recoverLog_above in Hl; [|done|lia|rewrite Hab; unfold lenN; rewrite length_drop; lia].
    rewrite Hab in Hl. by injection Hl as <-. }
  assert (commitIndex (recoveredNode cf o sn (memlog (pn s i))) = N.of_nat (pfloor (pn s i)) ∧
          lastApplied (recoveredNode cf o sn (memlog (pn s i))) = N.of_nat (pfloor (pn s i))) as [Hci Hla].
  { destruct sn as [sn|]; simpl in Hsn.
    - destruct Hsn as [<- _]. done.
    - rewrite Hsn. by destruct o. }
  destruct (I_seated _ s HI i) as [Hfl Hag _]. pose proof (agree_len _ _ _ Hag Hfl) as Hcl.
  split; [|by destruct o, sn]. split; try (by destruct o, sn).
  - assert (currentTerm (recoveredNode cf o sn (memlog (pn s i))) = HS_CurrentTerm (default zeroHardState o))
      as Ht by (by destruct o, sn). rewrite Hhs in Ht. exact Ht.
  - assert (votedFor (recoveredNode cf o sn (memlog (pn s i))) = HS_VotedFor (default zeroHardState o))
      as Ht by (by destruct o, sn). rewrite Hhs in Ht. exact Ht.
  - unfold committed. change (commitIndex _) with (commitIndex (recoveredNode cf o sn (memlog (pn s i)))).
    rewrite Hci, Nat2N.id. done.
  - split; [by destruct o, sn|]. split; [by destruct o, sn|]. split; [|by destruct o, sn].
    unfold applier_rep, snapdata, state_at.
    change (lastApplied ((recoveredNode cf o sn (memlog (pn s i))) <| stateMachine := Some sm0 |>)) with (lastApplied (recoveredNode cf o sn (memlog (pn s i)))).
    rewrite Hla, Nat2N.id, <-(agree_take_eq _ _ _ Hag). destruct sn as [sn|]; simpl in Hsn.
    + destruct Hsn as (_ & _ & Hdata). destruct (Snapshot_Restore _ _ Hdata) as [[data Hd] _].
      simpl. rewrite Hd in *. by destruct o.
    + rewrite Hsn. by destruct o.
  - left. change (lastApplied _) with (lastApplied (recoveredNode cf o sn (memlog (pn s i)))).
    by rewrite Hla.
Qed.

Lemma wire_fresh n (d : D) :
  started n = false → wire sm0 n d = mkIo [] d (inr (n <| stateMachine := Some sm0 |>)).
Proof. intros Hs. unfold wire, SetStateMachine. run_m. by rewrite Hs. Qed.

(** What NewNode reads back: the node that recovers from the disk's contents. *)
Definition readBack s i d (n : RaftNode SM) : Prop :=
  ∃ o es l, n = recoveredNode (withDefaults (cfgOf i)) o (snapOf d) l ∧
    default zeroHardState o = hard d ∧ replay (records d) = inr es ∧
    recoverLog (N.of_nat (pfloor (pn s i))) (N.of_nat (pfloor (pn s i)) +w 1) es [sentinelOf (pn s i)] = inr l.

Lemma NewNode_reads s i d :
  i ∈ members → snaprep (snapOf d) (pn s i) →
  io_hoare (same d) (same d) (NewNode (SM := SM) (cfgOf i)) (λ n d', (same d d' ∧ intact d') ∧ readBack s i d n).
Proof.
  intros Hi Hsnap. assert (∀ d', same d d' → survives d') as Hsv by (by intros d' [? _]). unfold NewNode.
  destruct (String.eqb _ _); [by apply io_hoare_fail|].
  destruct (negb _); [by apply io_hoare_fail|].
  destruct (_ <? _)%Z; [by apply io_hoare_fail|].
  destruct (_ <=? _)%Z; [by apply io_hoare_fail|].
  eapply io_hoare_bind with (R := λ o d', same d d' ∧ default zeroHardState o = hard d).
  { apply io_hoare_wrapErr. intros d' Hs. pose proof Hs as (Hd' & Hh & Hr & Hsn).
    destruct (LoadHardState_spec d' Hd') as [H1 H2]. pose proof (LoadHardState_frame d' Hd') as H3.
    rewrite Hh in H1. rewrite Hr, Hsn in H3. destruct (same_through d _ H1 H3) as [? ?].
    split; [done|]. split; [done|]. intros o Ho. split; [done|]. rewrite <-Hh. symmetry. by apply H2. }
  intros o. eapply io_hoare_bind with (R := λ sn d', (same d d' ∧ default zeroHardState o = hard d) ∧ sn = snapOf d).
  { change (HasSnapshotStore (withDefaults (cfgOf i))) with (HasSnapshotStore (cfgOf i)).
    rewrite (cfg_snapstore (members := members)) by done.
    apply io_hoare_wrapErr. intros d' [Hs Ho]. pose proof Hs as (Hd' & Hh & Hr & Hsn).
    destruct (LoadSnapshot_frame d' Hd') as [H1 _]. destruct (LoadSnapshot_spec d' Hd') as (H2 & H3 & _).
    rewrite Hh in H1. rewrite Hr, Hsn in H2. destruct (same_through d _ H1 H2) as [? ?].
    split; [done|]. split; [done|]. intros sn Hres. split; [done|]. rewrite <-Hsn. symmetry. by apply H3. }
  intros sn. change (HasLogStore (withDefaults (cfgOf i))) with (HasLogStore (cfgOf i)).
  rewrite (cfg_logstore (members := members)) by done.
  eapply io_hoare_bind with (R := λ es d', ((same d d' ∧ default zeroHardState o = hard d) ∧ sn = snapOf d) ∧
    intact d' ∧ replay (records d) = inr es).
  { apply io_hoare_wrapErr. intros d' [[Hs Ho] Hsn']. pose proof Hs as (Hd' & Hh & Hr & Hsn).
    destruct (LoadEntries_frame d' Hd') as [H1 _]. destruct (LoadEntries_spec d' Hd') as [H2 H3].
    rewrite Hh in H1. rewrite Hr, Hsn in H2. destruct (same_through d _ H1 H2) as [? ?].
    split; [done|]. split; [done|]. intros es Hes. split; [done|]. rewrite <-Hr. by apply H3. }
  intros es d' [[[Hs Ho] ->] [Hin Hes]]. unfold recoverEntries.
  assert (log (recoverSnapshot (recoverHardState (initialNode (SM := SM) (withDefaults (cfgOf i))) o) (snapOf d)) =
          [sentinelOf (pn s i)]) as Hlog.
  { unfold sentinelOf. unfold snaprep in Hsnap. destruct (snapOf d) as [sn|]; simpl.
    - destruct Hsnap as (<- & <- & _). by destruct o.
    - rewrite Hsnap. by destruct o. }
  rewrite Hlog. simpl.
  destruct (recoverLog _ _ _ _) as [err|l] eqn:Hl; simpl; (split; [constructor|]; split; [done|]); [done|].
  intros n [= <-]. split; [done|]. exists o, es, l. split; [reflexivity|]. auto.
Qed.

(** Booting reads the disk, and the node it yields represents what the disk
    represents. *)
Lemma boot_rep s i d :
  PI s → ranged s → i ∈ members → survives d → diskrep d (pn s i) →
  io_hoare (same d) (same d) (boot sm0 (cfgOf i))
    (λ n d', node_rep s i n ∧ intact d').
Proof.
  intros HI HR Hi Hd (Hhard & Hsnap & Hwal).
  eapply io_hoare_bind with (R := λ _, same d).
  { intros d' (Hd' & Hh & Hr & Hsn). pose proof (Open_spec d' Hd') as H1. pose proof (Open_frame d' Hd') as H2.
    rewrite Hh in H1. rewrite Hr, Hsn in H2. by destruct (same_through d _ H1 H2). }
  intros ?. eapply io_hoare_bind; [by apply (NewNode_reads s)|].
  intros n d' [[Hs Hin] (o & es & l & -> & Ho & Hes & Hl)].
  rewrite wire_fresh by (destruct o, (snapOf d); reflexivity).
  simpl. split; [constructor|]. split; [done|]. intros m [= <-]. split; [|done].
  apply (recovered_rep s i _ o (snapOf d) es l (records d)); [done|done|..|done|done|done|exact Hl].
  - exact (cfg_id (members := members) (cfgOf := cfgOf) i Hi).
  - exact (cfg_peers (members := members) (cfgOf := cfgOf) i Hi).
  - exact (cfg_logstore (members := members) (cfgOf := cfgOf) i Hi).
  - exact (cfg_snapstore (members := members) (cfgOf := cfgOf) i Hi).
  - by rewrite Ho, Hhard.
Qed.

(** ** The relation *)

(** [w] is a node about to lead its term, whose quorum is not accounted for yet:
    its role and the start of its replication loop are exempt. *)
Record RelW (w : option string) c s : Prop := {
  R_inv : PI s;
  R_range : ranged s;
  R_disk i : diskrep (p_disk (procs c i)) (pn s i);
  R_live i n : p_node (procs c i) = Some n → intact (p_disk (procs c i));
  R_core i n : p_node (procs c i) = Some n → node_core s i n;
  R_role i n : p_node (procs c i) = Some n → w ≠ Some i → role_rep s i n;
  R_sent i x : (i, x) ∈ sent c →
    msg_rep s i x ∨ (w = Some i ∧ x = GoReplication (pterm (pn s i)));
  R_votes i v args r : (i, v, args, r) ∈ vreplies c → RVR_VoteGranted r = true →
    gr s v (RVA_Term args) i;
  R_acks i v args r : (i, v, args, r) ∈ areplies c → AER_Success r = true →
    ak s v (AEA_Term args) (N.to_nat (AEA_PrevLogIndex args) + length (AEA_Entries args))
}.
Definition Rel := RelW None.

Lemma rel_msg c s i x : Rel c s → (i, x) ∈ sent c → msg_rep s i x.
Proof. intros HR Hx. by destruct (R_sent _ _ _ HR i x Hx) as [|[? _]]. Qed.

(** Only the leader of a term extends its log. *)
Lemma move_ll i s s' : move members i s s' → ∀ v, ll s' v = ll s v ∨ lead s v = i.
Proof.
  intros (Hst & Hf & Hn & _) v. destruct Hst as [| | |j Q v0 Hnone _ _|j e v0 l HL Hld _ _| | | | | |];
    try (by left).
  - specialize (Hn v0 Hnone). simpl in Hn. by rewrite decide_True in Hn.
  - destruct (decide (j = i)) as [->|Hne].
    + simpl. case_decide; [subst v; by right|by left].
    + exfalso. specialize (Hf j Hne). simpl in Hf. rewrite fn_lookup_insert in Hf.
      apply (f_equal (length ∘ plog)) in Hf. simpl in Hf. rewrite length_app in Hf. simpl in Hf.
      unfold l in Hf. lia.
Qed.

Lemma moves_ll i s s' :
  PI s → moves members i s s' → ∀ v, ll s' v = ll s v ∨ lead s v = i.
Proof.
  intros HI Hm v. induction Hm as [s|s s1 s2 Hmv Hm IH]; [by left|].
  destruct (move_facts members i s s1 HI Hmv) as [HI1 Hg1].
  destruct (move_ll i s s1 Hmv v) as [Heq|?]; [|by right].
  destruct (IH HI1) as [Heq2|Hld]; [left; congruence|].
  destruct (ll s v) as [L|] eqn:HL; [right; by rewrite <-(grows_lead _ _ Hg1 v L)|left].
  destruct Hmv as (_ & _ & _ & HR1).
  by destruct (moves_facts members i s1 s2 HI1 HR1 Hm) as (_ & _ & _ & _ & ->).
Qed.

(** A node other than the one that moved. *)
Lemma role_rep_other i j s s' n :
  PI s → ranged s → moves members i s s' → j ≠ i → role_rep s j n → role_rep s' j n.
Proof.
  intros HI HR Hm Hne Hrole.
  destruct (moves_facts members i s s' HI HR Hm) as (_ & _ & Hg & Hf & Hn).
  eapply role_rep_grows; [exact Hg| |by apply Hf| |exact Hrole].
  - intros v Hv. left. auto.
  - intros Hlead. destruct (moves_ll i s s' HI Hm (pterm (pn s j))) as [|Hld]; [done|].
    unfold role_rep in Hrole. rewrite Hlead in Hrole. destruct Hrole as (_ & Hj & _). congruence.
Qed.

(** What section [act] of [i] answered is true of [s]. *)
Definition answered s (i : string) (act : Action) (a : Answer) : Prop :=
  match act, a with
  | ARequestVote src args, VoteAnswer r => RVR_VoteGranted r = true → gr s i (RVA_Term args) src
  | AAppendEntries _ args, AppendAnswer r => AER_Success r = true →
    ak s i (AEA_Term args) (N.to_nat (AEA_PrevLogIndex args) + length (AEA_Entries args))
  | _, _ => True
  end.

(** Node [i] moved to [s'] and was replaced by [o] with disk [d]; [xs] was sent
    and [act] answered. *)
Lemma rel_update w c c' s s' i (o : option (RaftNode SM)) (d : D) xs :
  Rel c s → moves members i s s' → (w = None ∨ w = Some i) →
  procs c' = <[i := mkProc o d]> (procs c) → diskrep d (pn s' i) →
  (∀ n, o = Some n → intact d ∧ node_core s' i n ∧ (w ≠ Some i → role_rep s' i n)) →
  (∀ j x, (j, x) ∈ sent c' → (j, x) ∈ sent c ∨ (j = i ∧ x ∈ xs)) →
  Forall (λ x, msg_rep s' i x ∨ (w = Some i ∧ x = GoReplication (pterm (pn s' i)))) xs →
  (∀ j v args r, (j, v, args, r) ∈ vreplies c' → RVR_VoteGranted r = true →
     (j, v, args, r) ∈ vreplies c ∨ gr s' v (RVA_Term args) j) →
  (∀ j v args r, (j, v, args, r) ∈ areplies c' → AER_Success r = true →
     (j, v, args, r) ∈ areplies c ∨
     ak s' v (AEA_Term args) (N.to_nat (AEA_PrevLogIndex args) + length (AEA_Entries args))) →
  RelW w c' s'.
Proof.
  intros HR Hm Hw Hprocs Hd Ho Hsent Hxs Hvotes Hacks.
  destruct (moves_facts members i s s' (R_inv _ _ _ HR) (R_range _ _ _ HR) Hm) as (HI' & HR' & Hg & Hf & Hn).
  split; [done|done|..].
  - intros j. rewrite Hprocs. destruct (decide (j = i)) as [->|Hne].
    + by rewrite fn_lookup_insert.
    + rewrite fn_lookup_insert_ne, Hf by done. apply (R_disk _ _ _ HR).
  - intros j n. rewrite Hprocs. destruct (decide (j = i)) as [->|Hne].
    + rewrite fn_lookup_insert. apply Ho.
    + rewrite fn_lookup_insert_ne by done. apply (R_live _ _ _ HR).
  - intros j n. rewrite Hprocs. destruct (decide (j = i)) as [->|Hne].
    + rewrite fn_lookup_insert. apply Ho.
    + rewrite fn_lookup_insert_ne by done. intros Hj.
      eapply (node_core_grows members s); [done|by apply Hf|by apply (R_core _ _ _ HR)].
  - intros j n. rewrite Hprocs. destruct (decide (j = i)) as [->|Hne].
    + rewrite fn_lookup_insert. apply Ho.
    + rewrite fn_lookup_insert_ne by done. intros Hj _.
      eapply (role_rep_other i j s); [apply HR|apply HR|done|done|by apply (R_role _ _ _ HR)].
  - intros j x Hx. destruct (Hsent j x Hx) as [Hx'|[-> Hx']].
    + left. eapply msg_rep_grows; [done|by eapply rel_msg].
    + by eapply Forall_forall in Hxs.
  - intros j v args r Hr Hgr. destruct (Hvotes j v args r Hr Hgr) as [Hold|?]; [|done].
    by apply (grows_gr _ _ Hg), (R_votes _ _ _ HR _ _ _ _ Hold).
  - intros j v args r Hr Hok. destruct (Hacks j v args r Hr Hok) as [Hold|?]; [|done].
    by apply (grows_ak _ _ Hg), (R_acks _ _ _ HR _ _ _ _ Hold).
Qed.

(** A node goes down. *)
Lemma rel_down c s s' i d :
  Rel c s → moves members i s s' → diskrep d (pn s' i) → Rel (down c i d) s'.
Proof.
  intros HR Hm Hd. eapply (rel_update None c _ s s' i None d []); try done; auto.
Qed.

(** A section returned. *)
Lemma rel_deliver w c s s' i act a x :
  Rel c s → (w = None ∨ w = Some i) → stored members s i s' x → node_core s' i (rn x) →
  (w ≠ Some i → role_rep s' i (rn x)) →
  Forall (λ y, msg_rep s' i y ∨ (w = Some i ∧ y = GoReplication (pterm (pn s' i)))) (out x) →
  answered s' i act a → RelW w (deliver c i act a x) s'.
Proof.
  intros HR Hw (Hm & [_ Hin] & Hd & _) Hc Hrole Hout Hans.
  eapply (rel_update w c _ s s' i (Some (rn x)) (disk x) (out x)); try done.
  - by intros n [= <-].
  - simpl. intros j y [H|H]%elem_of_app; [by left|]. right.
    apply list_elem_of_fmap in H as (y' & [= -> ->] & H). done.
  - intros j v args r Hr Hgr. simpl in Hr. destruct act; try (by left). destruct a; try (by left).
    apply elem_of_cons in Hr as [[= -> -> -> ->]|Hr]; [right; by apply Hans|by left].
  - intros j v args r Hr Hok. simpl in Hr. destruct act; try (by left). destruct a; try (by left).
    apply elem_of_cons in Hr as [[= -> -> -> ->]|Hr]; [right; by apply Hans|by left].
Qed.
(** ** Winning *)

Lemma node_log_fits s i : PI s → ranged s → Forall entry_fits (plog (pn s i)).
Proof.
  intros HI HR. rewrite <-(take_drop (pfloor (pn s i)) (plog (pn s i))). apply Forall_app.
  split; [|by apply (node_fits members)]. destruct (I_seated _ s HI i) as [_ Hag _].
  apply Forall_forall. intros e (k & Hk)%list_elem_of_lookup.
  pose proof (lookup_lt_Some _ _ _ Hk) as Hlt. rewrite length_take in Hlt.
  rewrite lookup_take_lt, Hag in Hk by lia.
  destruct (I_cl _ s HI) as [Hnil|(u & Q & Hcert)]; [by rewrite Hnil in Hk|].
  destruct (I_cert _ s HI _ _ _ Hcert) as (_ & _ & L & HL & _ & _ & HagL).
  pose proof (lookup_lt_Some _ _ _ Hk). rewrite <-HagL in Hk by lia.
  by apply (proj1 (Forall_lookup _ _) (proj2 (HR u L HL)) _ _ Hk).
Qed.

(** A quorum votes for one candidate only. *)
Lemma unled s i Q :
  PI s → isQ members Q → (∀ w, w ∈ Q → gr s w (pterm (pn s i)) i) →
  (ll s (pterm (pn s i)) = None ∨ lead s (pterm (pn s i)) ≠ i) → ll s (pterm (pn s i)) = None.
Proof.
  intros HI HQ Hgr [|Hne]; [done|]. destruct (ll s (pterm (pn s i))) as [L|] eqn:HL; [|done].
  destruct (I_lead _ s HI _ L HL) as (HQ' & Hgr' & _).
  destruct (isQ_meet members _ _ HQ HQ') as (w & Hw & Hw'). destruct Hne.
  eapply (I_grant_unique _ s HI w); [by apply Hgr'|by apply Hgr].
Qed.

Lemma rel_win c s i n Q :
  RelW (Some i) c s → p_node (procs c i) = Some n → state n = Leader →
  (∀ q m, matchIndex n !! q = Some m → m = 0) →
  (ll s (pterm (pn s i)) = None ∨ lead s (pterm (pn s i)) ≠ i) → gr s i (pterm (pn s i)) i →
  isQ members Q → (∀ w, w ∈ Q → gr s w (pterm (pn s i)) i) →
  ∃ s', pstep (isQ members) s s' ∧ Rel c s'.
Proof.
  intros HR Hup Hlead Hzero Hnl Hself HQ Hgr. pose proof (R_inv _ _ _ HR) as HI.
  pose proof (R_range _ _ _ HR) as Hrg. set (t := pterm (pn s i)) in *.
  pose proof (unled s i Q HI HQ Hgr Hnl) as Hll. fold t in Hll.
  pose proof (p_win _ s i Q Hll HQ Hgr) as Hst. cbv zeta in Hst. fold t in Hst.
  match type of Hst with pstep _ _ ?x => set (s' := x) in Hst end.
  pose proof (pstep_inv _ (isQ_meet members) s s' HI Hst) as HI'.
  pose proof (pstep_grows _ (isQ_meet members) s s' HI Hst) as Hg.
  assert (∀ v, v ≠ t → ll s' v = ll s v ∧ lead s' v = lead s v) as Hother.
  { intros v Hv. simpl. by rewrite !decide_False. }
  assert (ll s' t = Some (plog (pn s i)) ∧ lead s' t = i) as [Hll' Hld'].
  { simpl. by rewrite !decide_True. }
  exists s'. split; [done|]. split; [exact (proj1 HI')|..].
  - intros T L HT. destruct (decide (T = t)) as [->|Hne].
    + rewrite Hll' in HT. injection HT as <-. split; [|by apply node_log_fits].
      by destruct (node_shaped members s i HI Hrg) as (_ & _ & ?).
    + rewrite (proj1 (Hother T Hne)) in HT. by eapply Hrg.
  - apply (R_disk _ _ _ HR).
  - apply (R_live _ _ _ HR).
  - intros j m Hj. eapply (node_core_grows members s); [done|done|]. by apply (R_core _ _ _ HR).
  - intros j m Hj _. destruct (decide (j = i)) as [->|Hne].
    + rewrite Hup in Hj. injection Hj as <-. unfold role_rep. rewrite Hlead.
      change (pn s' i) with (pn s i). fold t. split; [done|]. split; [done|].
      intros q m ->%Hzero. left. split; [simpl; lia|by apply agree_empty].
    + eapply (role_rep_grows s); [done|..|by apply (R_role _ _ _ HR); [|congruence]]; [|done|].
      * intros v Hv. destruct (decide (v = t)) as [->|Hv']; [right; congruence|left].
        by rewrite (proj1 (Hother v Hv')).
      * intros Hl. pose proof (R_role _ _ _ HR j m Hj ltac:(congruence)) as Hrole.
        unfold role_rep in Hrole. rewrite Hl in Hrole. destruct Hrole as (HLj & _).
        apply Hother. intros Heq. rewrite Heq in HLj. congruence.
  - intros j x Hx. left. destruct (R_sent _ _ _ HR j x Hx) as [Hrep|[[= ->] ->]].
    + by eapply msg_rep_grows.
    + fold t. split; [by eexists|]. split; [done|]. by apply (grows_gr _ _ Hg).
  - intros j v args r Hr Hok. by apply (grows_gr _ _ Hg), (R_votes _ _ _ HR _ _ _ _ Hr).
  - intros j v args r Hr Hok. by apply (grows_ak _ _ Hg), (R_acks _ _ _ HR _ _ _ _ Hr).
Qed.

(** ** Sections *)

(** What the clients have to guarantee: a proposed command fits the log store. *)
Definition admits (n : RaftNode SM) (act : Action) : bool :=
  match act with APropose command => cmd_ok command | _ => true end.

Context (Hfits : ∀ n act, allow n act = true → admits n act = true).

Definition ended s (i : string) (act : Action) (a : Answer) (x : Ctx D SM) : Prop :=
  ∃ s', answered s' i act a ∧ (sim members s i s' x ∨ winning members s i s' x).

(** A section starts in a state the abstract one represents. *)
Lemma rel_sim c s i n :
  Rel c s → election_inv members c → p_node (procs c i) = Some n →
  sim members s i s (mkCtx n (p_disk (procs c i)) [] []).
Proof.
  intros HR HE Hup. destruct (inv_up _ c HE i n Hup) as (_ & _ & _ & Hrdy & _).
  split; [|split; [|constructor]].
  - split; [reflexivity|]. split; [split; [done|by eapply (R_live _ _ _ HR)]|].
    split; [apply (R_disk _ _ _ HR)|constructor].
  - split; [by apply (R_core _ _ _ HR)|by apply (R_role _ _ _ HR)].
Qed.

(** A section that answers the same way in every state it may end in. *)
Lemma ended_by s i act x0 A (P : Ctx D SM → Prop) (m : M D SM A) (k : A → Answer) :
  P x0 → hoare P m (λ _, simI members s i) (simX members s i) → (∀ s' a, answered s' i act (k a)) →
  hoare (λ x, x = x0) (a ← m; mret (k a)) (ended s i act) (simX members s i).
Proof.
  intros HP Hm Hans. eapply hoare_bind; [eapply hoare_from; [exact Hm|exact HP]|]. intros a.
  apply hoare_ret. intros x (s' & Hs'). exists s'. split; [apply Hans|by left].
Qed.

Lemma run_sim c s i n act :
  Rel c s → election_inv members c → in_range c → p_node (procs c i) = Some n →
  enabled c i n act → allow n act = true →
  hoare (λ x, x = mkCtx n (p_disk (procs c i)) [] []) (runAction act) (ended s i act)
    (simX members s i).
Proof.
  intros HR HE Hrange Hup Hen Hal. apply Hfits in Hal.
  destruct (inv_up _ c HE i n Hup) as (Hi & Hid & _ & Hrdy & _).
  pose proof (enabled_input_ok members Hnames c i n act HE Hrange Hup Hen) as Hok.
  pose proof (R_inv _ _ _ HR) as HI. pose proof (R_range _ _ _ HR) as Hrg.
  pose proof (member_named members cfgOf i Hi) as Hne.
  pose proof (members_nodup (members := members) (cfgOf := cfgOf)) as Hnd.
  destruct Hrange as (Hrn & _). destruct (Hrn i n Hup) as [Hrt Hrl].
  pose proof (rel_sim c s i n HR HE Hup) as Hsim.
  set (x0 := mkCtx n (p_disk (procs c i)) [] []) in *.
  destruct act as [| | |src args|p term r|term| |src args|p term args r|p term|src args|p term args r| |cmd];
    simpl in Hok, Hen, Hal |- *.
  - eapply hoare_bind; [eapply hoare_from; [by apply sim_Start|exact Hsim]|]. intros [err|?].
    + apply hoare_panic. intros x Hx. by apply simI_X.
    + apply hoare_ret. intros x (s' & Hs'). exists s'. split; [apply Hans || done|by left].
  - eapply ended_by; [exact Hsim|by apply sim_Stop|done].
  - eapply hoare_bind.
    + eapply hoare_from; [by apply (sim_electionTick members s i HI Hrg s); [|apply Hnames]|]. split; [exact Hsim|done].
    + intros ?. apply hoare_ret. intros x [(s' & Hs')|(s' & Hs')]; exists s'; (split; [done|by (left + right)]).
  - destruct (inv_requests _ c HE _ _ _ Hen) as (Hsrc & _ & Hcand).
    eapply hoare_bind.
    + eapply hoare_from; [apply (sim_HandleRequestVote members s i HI Hrg s src args)|exact Hsim]; try done.
      * by eapply rel_msg.
      * by eapply (member_named members cfgOf).
      * by apply Hnames.
      * apply Hok.
    + intros r. apply hoare_ret. intros x (s' & Hs' & Hg). exists s'. split; [exact Hg|by left].
  - eapply hoare_bind; [eapply hoare_from; [by apply (sim_voteReply members s i HI Hrg s)|exact Hsim]|].
    intros ?. apply hoare_ret. intros x [(s' & Hs')|(s' & Hs')]; exists s'; (split; [done|by (left + right)]).
  - eapply ended_by; [exact Hsim|by apply sim_replicationRound|done].
  - apply (ended_by _ _ _ _ _ (simI members s i)); [exists s; exact Hsim|by apply simI_inert|done].
  - destruct Hen as [t Ht]. pose proof (rel_msg _ _ _ _ HR Ht) as Hmsg.
    eapply hoare_bind; [eapply hoare_from; [by apply (sim_HandleAppendEntries members s i HI Hrg s src t)|exact Hsim]|].
    intros r. apply hoare_ret. intros x (s' & Hs' & Hg). exists s'. split; [|by left].
    destruct Hmsg as [<- _]. exact Hg.
  - destruct Hen as [Hs Hr]. pose proof (rel_msg _ _ _ _ HR Hs) as Hmsg.
    eapply ended_by; [exact Hsim|apply (sim_appendReply members s i HI Hrg Hi Hnd s p term args r); try done|done].
    intros Hsucc. destruct Hmsg as [<- _]. by apply (R_acks _ _ _ HR _ _ _ _ Hr).
  - pose proof (rel_msg _ _ _ _ HR Hen) as Hmsg.
    eapply ended_by; [exact Hsim|by apply (sim_sendSnapshot members s i HI Hrg s)|done].
  - destruct Hen as [t Ht]. pose proof (rel_msg _ _ _ _ HR Ht) as Hmsg.
    eapply ended_by; [exact Hsim|by apply (sim_HandleInstallSnapshot members s i HI Hrg s src t)|done].
  - destruct Hen as [Hs Hr]. pose proof (rel_msg _ _ _ _ HR Hs) as Hmsg.
    eapply ended_by; [exact Hsim|by apply (sim_snapshotReply members s i HI Hrg s)|done].
  - eapply ended_by; [exact Hsim|by apply (sim_applierStep members s i HI Hrg s)|done].
  - eapply ended_by; [|by apply (sim_Propose members s i HI Hrg Hi Hnd s)|done]. split; [done|]. simpl. split; [lia|done].
Qed.

(** ** Steps *)

Lemma majority i Q :
  i ∈ members → NoDup Q → Q ⊆ members → quorum (filter (λ q, q ≠ i) members) ≤ lenN Q → isQ members Q.
Proof.
  intros Hi HQ Hsub Hq. split; [done|]. split; [done|].
  pose proof (length_others i members (members_nodup (members := members) (cfgOf := cfgOf)) Hi).
  unfold quorum, lenN in Hq.
  pose proof (N.div_mod' (N.of_nat (length (filter (λ q, q ≠ i) members)) + 1) 2).
  pose proof (N.mod_lt (N.of_nat (length (filter (λ q, q ≠ i) members)) + 1) 2 ltac:(done)).
  lia.
Qed.

Lemma moves_steps i s s' : moves members i s s' → rtc (pstep (isQ members)) s s'.
Proof. apply rtc_subrel. by intros x y [? _]. Qed.

(** A section returned. *)
Lemma act_refines c s i n act e a x :
  Rel c s → election_inv members c → in_range c → p_node (procs c i) = Some n →
  enabled c i n act → allow n act = true →
  runAction act e (mkCtx n (p_disk (procs c i)) [] []) = Ret a x →
  ∃ s', rtc (pstep (isQ members)) s s' ∧ Rel (deliver c i act a x) s'.
Proof.
  intros HR HE Hrange Hup Hen Hal Hrun.
  pose proof (run_sim c s i n act HR HE Hrange Hup Hen Hal e _ eq_refl) as Hsim. rewrite Hrun in Hsim.
  destruct Hsim as (s' & Hans & [(Hst & [Hc Hrole] & Ho)|(Hst & Hc & Hlead & Hzero & Hnl & Hself & o & Ho & Hall)]).
  { exists s'. split; [apply (moves_steps i), Hst|].
    apply (rel_deliver None c s s' i); auto.
    eapply Forall_impl; [exact Ho|]. by left. }
  destruct (inv_up _ c HE i n Hup) as (Hi & _ & _ & Hr & Hh).
  pose proof (runAction_effect n _ act e Hr Hh (enabled_input_ok members Hnames c i n act HE Hrange Hup Hen)) as Hx.
  rewrite Hrun in Hx.
  assert (RelW (Some i) (deliver c i act a x) s') as HW.
  { apply (rel_deliver (Some i) c s s' i); auto; [done|]. rewrite Ho. apply Forall_app. split.
    - eapply Forall_impl; [exact Hall|]. by left.
    - constructor; [by right|constructor]. }
  destruct (deliver_quorum members cfgOf Hnames c i n act a x (pterm (pn s' i)) HE Hup Hen Hx) as (Q & HQn & HQs & HQq & HQg).
  { rewrite Ho. apply elem_of_app. right. by left. }
  destruct (rel_win (deliver c i act a x) s' i (rn x) Q) as (s'' & Hst'' & HR''); try done.
  - simpl. by rewrite fn_lookup_insert.
  - by apply (majority i).
  - intros w Hw. destruct (HQg w Hw) as [(args & r & Hin & Hg & <-)|[-> _]]; [|done].
    by apply (R_votes _ _ _ HW _ _ _ _ Hin).
  - exists s''. split; [|done]. eapply rtc_r; [apply (moves_steps i), Hst|done].
Qed.

(** Every step of the cluster is matched by protocol moves. *)
Lemma step_refines c c' s :
  Rel c s → election_inv members c → in_range c → step members cfgOf sm0 allow c c' →
  ∃ s', rtc (pstep (isQ members)) s s' ∧ Rel c' s'.
Proof.
  intros HR HE Hrange Hstep. destruct Hstep as [i n Hi Hd Hb|i d Hi Hd Hb|i n act e a x Hn Hen Hal Hrun
    |i n act e d Hn Hen Hal Hd|i n Hn].
  - exists s. split; [done|]. pose proof (inv_survives _ c HE i) as Hsv.
    destruct (boot_rep s i _ (R_inv _ _ _ HR) (R_range _ _ _ HR) Hi Hsv (R_disk _ _ _ HR i)
      (p_disk (procs c i))) as (_ & Hfin & Hres); [done|].
    eapply (rel_update None c _ s s i (Some n) _ []); try done; auto.
    + by eapply same_rep, (R_disk _ _ _ HR i).
    + intros m [= <-]. by destruct (Hres n Hb) as [[? ?] ?].
  - exists s. split; [done|]. pose proof (inv_survives _ c HE i) as Hsv.
    destruct (boot_rep s i _ (R_inv _ _ _ HR) (R_range _ _ _ HR) Hi Hsv (R_disk _ _ _ HR i)
      (p_disk (procs c i))) as (Hmid & Hfin & _); [done|].
    assert (same (p_disk (procs c i)) d) as Hs.
    { destruct Hb as [Hb| ->]; [by eapply Forall_forall in Hmid|done]. }
    apply (rel_down c s s i); [done|done|]. by eapply same_rep, (R_disk _ _ _ HR i).
  - by eapply act_refines.
  - pose proof (run_sim c s i n act HR HE Hrange Hn Hen Hal e _ eq_refl) as Hsim.
    assert (crashed members s i d) as (_ & s' & Hm & Hrep).
    { destruct (runAction act e _) as [a x|w x]; simpl in Hd.
      - destruct Hsim as (s' & _ & [(Hst & _)|(Hst & _)]); destruct Hst as (_ & _ & _ & Hcr);
          by eapply Forall_forall in Hcr.
      - destruct Hsim as [Hx Hcr]. apply elem_of_cons in Hd as [->|Hd]; [done|].
        by eapply Forall_forall in Hcr. }
    exists s'. split; [by apply (moves_steps i)|]. by apply (rel_down c s s' i).
  - exists s. split; [done|]. apply (rel_down c s s i); [done|done|]. apply (R_disk _ _ _ HR).
Qed.

Context (Hd0 : ∀ i, survives (d0 i)) (Hd0h : ∀ i, hard (d0 i) = zeroHardState).
Context (Hd0r : ∀ i, records (d0 i) = []) (Hd0s : ∀ i, snapOf (d0 i) = None).

Lemma rel_initial : Rel (initial d0) pinit.
Proof.
  split; simpl; try done.
  - apply pinit_inv.
  - intros i. split; [by rewrite Hd0h|]. split; [by rewrite Hd0s|]. rewrite Hd0r.
    split; [by intros e ?%not_elem_of_nil|]. intros l [= <-]. split; [|done]. by exists 1.
  - intros i x Hx. by apply not_elem_of_nil in Hx.
  - intros i v args r Hx. by apply not_elem_of_nil in Hx.
  - intros i v args r Hx. by apply not_elem_of_nil in Hx.
Qed.

Lemma reachable_rel c :
  reachable members cfgOf sm0 d0 allow c →
  election_inv members c ∧ ∃ s, rtc (pstep (isQ members)) pinit s ∧ Rel c s.
Proof.
  induction 1 as [|c c' _ (HE & s & Hs & HR) Hrange Hstep].
  - split; [by apply election_inv_initial|]. exists pinit. split; [done|apply rel_initial].
  - split; [by eapply (election_inv_step members cfgOf sm0 allow Hnames)|].
    destruct (step_refines c c' s HR HE Hrange Hstep) as (s' & Hs' & HR').
    exists s'. split; [by etrans|done].
Qed.

(** An execution continued. *)
Definition later : relation (Cluster D SM) :=
  rtc (λ c c', in_range c ∧ step members cfgOf sm0 allow c c').

Lemma later_rel c c' s :
  Rel c s → election_inv members c → later c c' →
  ∃ s', rtc (pstep (isQ members)) s s' ∧ Rel c' s'.
Proof.
  intros HR HE Hl. revert s HR. induction Hl as [c|c c1 c' [Hrange Hstep] Hl IH]; intros s HR; [by exists s|].
  destruct (step_refines c c1 s HR HE Hrange Hstep) as (s1 & Hs1 & HR1).
  destruct (IH (election_inv_step members cfgOf sm0 allow Hnames _ _ HE Hrange Hstep) s1 HR1)
    as (s' & Hs' & HR'). exists s'. split; [by etrans|done].
Qed.
End refinement.
