(* ===== verification/Safety.v ===== *)
(** * Safety of the replicated log and of the state machines

    What the refinement gives for the cluster itself: one committed log that
    only grows, of which every live node holds a prefix, every state machine is
    the image of a prefix, and a majority of the disks keeps; every leader of a
    term a majority has reached since an entry was committed has the entry. *)

From S2P Require Import Prelude Types Effects Log Node Election Handlers Replication Hoare Contracts Terms Cluster ElectionSafety Protocol ProtocolSafety Replay LogContract Abstraction Simulation SectionSim SnapshotSim LeaderSim Refinement.

(** Index [k] of node [n] is committed and not compacted away. *)
Definition holdsCommitted {SM} (n : RaftNode SM) (k : N) : Prop :=
  ∃ base, baseIndex (log n) = Some base ∧ base < k ∧ k ≤ commitIndex n.

(** Index [k] is in the log of [n]. *)
Definition holdsIndex {SM} (n : RaftNode SM) (k : N) : Prop :=
  ∃ base last, baseIndex (log n) = Some base ∧ lastLogIndex (log n) = Some last ∧
    base < k ∧ k ≤ last.

Section safety.
Context {D SM : Type} `{!Storage D} `{!StateMachine SM} `{!StateMachineSpec SM} `{!StateStoreSpec D} `{!LogStoreSpec D}.
Context (members : list string) (cfgOf : string → Config) (d0 : string → D).
Context (allow : RaftNode SM → Action → bool).
Context `{!Membership members cfgOf} (Hnames : ∀ i, i ∈ members → name_ok i = true).
Context (Hfits : ∀ n act, allow n act = true → admits n act = true).
Context (Hd0 : ∀ i, survives (d0 i)) (Hd0h : ∀ i, hard (d0 i) = zeroHardState).
Context (Hd0r : ∀ i, records (d0 i) = []) (Hd0s : ∀ i, snapOf (d0 i) = None).
Implicit Types (s : PState) (n : RaftNode SM) (c : Cluster D SM).
Local Abbreviation reach := (reachable members cfgOf (genesis (SM := SM)) d0 allow).
Local Abbreviation later := (later members cfgOf allow).
Local Abbreviation Rel := (Rel members).

Lemma reach_rel c : reach c → election_inv members c ∧ ∃ s, Rel c s.
Proof.
  intros Hc. destruct (reachable_rel members cfgOf d0 allow Hnames Hfits Hd0 Hd0h Hd0r Hd0s c Hc)
    as (? & s & _ & ?). eauto.
Qed.

Lemma steps_facts s s' :
  PInv (isQ members) s → rtc (pstep (isQ members)) s s' → grows s s'.
Proof.
  intros HI Hs. induction Hs as [s|s s1 s2 Hst _ IH]; [reflexivity|].
  etrans; [by apply (pstep_grows _ (isQ_meet members))|]. apply IH.
  by apply (pstep_inv _ (isQ_meet members) s s1).
Qed.

(** *** One node against the committed log *)

Lemma holdsCommitted_rep c s i n k :
  Rel c s → p_node (procs c i) = Some n → holdsCommitted n k →
  entryAt (log n) k = cl s !! (N.to_nat k - 1)%nat ∧ (N.to_nat k ≤ length (cl s))%nat ∧ 0 < k.
Proof.
  intros HR Hn (base & Hb & Hlt & Hle). pose proof (R_core _ _ _ _ HR i n Hn) as Hc.
  pose proof (node_shaped members s i (R_inv _ _ _ _ HR) (R_range _ _ _ _ HR)) as Hsh.
  rewrite (nc_log _ _ _ _ Hc) in Hb |- *. injection Hb as <-. simpl in Hlt.
  destruct (nc_commit _ _ _ _ Hc) as (_ & Hci & Hcert & Hag).
  rewrite memlog_entryAt by (done || lia). split; [apply Hag; lia|lia].
Qed.

Lemma holdsIndex_rep c s i n k :
  Rel c s → p_node (procs c i) = Some n → holdsIndex n k →
  entryAt (log n) k = plog (pn s i) !! (N.to_nat k - 1)%nat ∧ (pfloor (pn s i) < N.to_nat k)%nat.
Proof.
  intros HR Hn (base & last & Hb & Hl & Hlt & Hle). pose proof (R_core _ _ _ _ HR i n Hn) as Hc.
  pose proof (node_shaped members s i (R_inv _ _ _ _ HR) (R_range _ _ _ _ HR)) as Hsh.
  rewrite (nc_log _ _ _ _ Hc) in *. rewrite memlog_last in Hl by done. injection Hl as <-.
  injection Hb as <-. simpl in Hlt. rewrite memlog_entryAt by (done || lia). split; [done|lia].
Qed.

(** The state machine of a node whose recovered snapshot was restored. *)
Lemma machine_rep c s i n :
  Rel c s → p_node (procs c i) = Some n → initialSnapshotData n = None →
  ∃ k, lastApplied n ≤ k ∧ k ≤ commitIndex n ∧
       stateMachine n = Some (applyAll genesis (take (N.to_nat k) (cl s))).
Proof.
  intros HR Hn Hini. destruct (nc_applying _ _ _ _ (R_core _ _ _ _ HR i n Hn)) as (Hla & _ & Hap & _).
  rewrite Hini in Hap. unfold applier_rep in Hap.
  destruct (applier n) as [| |sn|todo k|j t]; try (by exists (lastApplied n)).
  - exists (lastApplied n). by destruct Hap as (? & _).
  - destruct Hap as (? & ? & ? & _). exists (lastApplied n + k - lenN todo). split; [lia|]. split; [lia|done].
  - destruct Hap as (-> & _ & ?). by exists (lastApplied n).
Qed.

(** C11. The cluster refines the protocol: every reachable cluster, with its disks,
    messages in flight and crashed nodes, is related to a state that the
    abstract protocol of single-node moves reaches from its initial state. *)
Theorem cluster_refines c :
  reach c → ∃ s, rtc (pstep (isQ members)) pinit s ∧ Rel c s.
Proof.
  intros Hc. by destruct (reachable_rel members cfgOf d0 allow Hnames Hfits Hd0 Hd0h Hd0r Hd0s c Hc) as (_ & s & ? & ?); exists s.
Qed.

(** What every live node owes to the committed log [CL]. *)
Definition follows_log (CL : list LogEntry) n : Prop :=
  commitIndex n ≤ lenN CL ∧
  (∀ k, holdsCommitted n k → entryAt (log n) k = CL !! (N.to_nat k - 1)%nat ∧ is_Some (entryAt (log n) k)) ∧
  (initialSnapshotData n = None →
   ∃ k, lastApplied n ≤ k ∧ k ≤ commitIndex n ∧
        stateMachine n = Some (applyAll genesis (take (N.to_nat k) CL))).

Lemma node_follows c s i n : Rel c s → p_node (procs c i) = Some n → follows_log (cl s) n.
Proof.
  intros HR Hn. split; [|split].
  - destruct (nc_commit _ _ _ _ (R_core _ _ _ _ HR i n Hn)) as (_ & _ & Hcert & _).
    unfold lenN. lia.
  - intros k Hk. destruct (holdsCommitted_rep c s i n k HR Hn Hk) as (He & Hle & Hk0).
    split; [done|]. rewrite He. apply lookup_lt_is_Some_2. lia.
  - by apply (machine_rep c s i n).
Qed.

(** C2. State Machine Safety: in every reachable state of the cluster there is one
    log [CL] such that every live node's commitIndex lies within it, every
    entry a live node has committed is the entry of [CL] at that index, and
    every node's state machine is the result of applying a prefix of [CL], each
    entry once and in order, which reaches at least lastApplied and at most
    commitIndex. *)
Theorem state_machine_safety c :
  reach c →
  ∃ CL : list LogEntry, ∀ i n, p_node (procs c i) = Some n → follows_log CL n.
Proof.
  intros Hc. destruct (reach_rel c Hc) as (_ & s & HR). exists (cl s). intros i n. by apply node_follows.
Qed.

(** C3. Committed entries are permanent: an entry that some node committed is the
    entry any node ever commits at that index, then or at any later point of
    the execution, whatever crashes and leader changes lie between. *)
Theorem committed_forever c c' i n j m k :
  reach c → later c c' → p_node (procs c i) = Some n → p_node (procs c' j) = Some m →
  holdsCommitted n k → holdsCommitted m k → entryAt (log n) k = entryAt (log m) k.
Proof.
  intros Hc Hl Hn Hm Hkn Hkm. destruct (reach_rel c Hc) as (HE & s & HR).
  destruct (later_rel members cfgOf allow Hnames Hfits c c' s HR HE Hl) as (s' & Hs & HR').
  destruct (holdsCommitted_rep c s i n k HR Hn Hkn) as (-> & Hle & Hk0).
  destruct (holdsCommitted_rep c' s' j m k HR' Hm Hkm) as (-> & _).
  destruct (steps_facts s s' (R_inv _ _ _ _ HR) Hs) as [(_ & Hcl & _) _ _ _ _ _]. apply Hcl; lia.
Qed.

(** A committed prefix is in the log of every leader of the term it was committed
    in or a later one. *)
Lemma leader_holds c s j m b u Q :
  Rel c s → p_node (procs c j) = Some m → state m = Leader → (b, u, Q) ∈ certs s → u ≤ currentTerm m →
  ∃ base last, baseIndex (log m) = Some base ∧ lastLogIndex (log m) = Some last ∧
    ∀ k, 0 < k → (N.to_nat k ≤ b)%nat → k ≤ last ∧
      (base < k → entryAt (log m) k = cl s !! (N.to_nat k - 1)%nat).
Proof.
  intros HR Hm Hlead Hcert Hterm. pose proof (R_core _ _ _ _ HR j m Hm) as Hcm.
  pose proof (R_role _ _ _ _ HR j m Hm ltac:(done)) as Hrole. unfold role_rep in Hrole.
  rewrite Hlead in Hrole. destruct Hrole as (HL & _). rewrite (nc_term _ _ _ _ Hcm) in Hterm.
  pose proof (node_shaped members s j (R_inv _ _ _ _ HR) (R_range _ _ _ _ HR)) as Hsh.
  destruct (cert_complete _ (isQ_meet members) s (R_inv _ _ _ _ HR) b u Q _ _ Hcert Hterm HL) as [HbL HagL].
  rewrite (nc_log _ _ _ _ Hcm). eexists _, _. split; [apply memlog_base|]. split; [by apply memlog_last|].
  intros k Hk0 Hk. split; [lia|]. simpl. intros Hb. rewrite memlog_entryAt by (done || lia). apply HagL; lia.
Qed.

(** C4. Leader Completeness: for every entry a node has committed there is a term,
    reached by the disks of a majority of the members, such that every leader
    of that term or a later one has the entry, in its log or below its
    compaction boundary, from then on. *)
Theorem leader_completeness c i n k :
  reach c → p_node (procs c i) = Some n → holdsCommitted n k →
  ∃ t Q, NoDup Q ∧ Q ⊆ members ∧ (length members < 2 * length Q)%nat ∧
    (∀ w, w ∈ Q → t ≤ HS_CurrentTerm (hard (p_disk (procs c w)))) ∧
    ∀ c' j m, later c c' → p_node (procs c' j) = Some m → state m = Leader → t ≤ currentTerm m →
      ∃ base last, baseIndex (log m) = Some base ∧ lastLogIndex (log m) = Some last ∧ k ≤ last ∧
        (base < k → entryAt (log m) k = entryAt (log n) k).
Proof.
  intros Hc Hn Hk. destruct (reach_rel c Hc) as (HE & s & HR). pose proof (R_inv _ _ _ _ HR) as HI.
  destruct (holdsCommitted_rep c s i n k HR Hn Hk) as (He & Hle & Hk0).
  destruct (lookup_lt_is_Some_2 (cl s) (N.to_nat k - 1)) as [e Hke]; [lia|].
  destruct (cl_cert _ s HI _ e Hke) as (b & u & Q & Hcert & Hb).
  destruct (I_cert _ s HI _ _ _ Hcert) as ((HQ1 & HQ2 & HQ3) & _ & L & HL & _).
  exists u, Q. do 3 (split; [done|]). split.
  - intros w Hw. destruct (R_disk _ _ _ _ HR w) as (-> & _). by apply (I_cert_log _ s HI _ _ _ w L Hcert HL Hw).
  - intros c' j m Hl Hm Hlead Hterm.
    destruct (later_rel members cfgOf allow Hnames Hfits c c' s HR HE Hl) as (s' & Hs & HR').
    destruct (grows_evolves _ _ (steps_facts s s' HI Hs)) as (_ & Hcl & Hcerts).
    destruct (leader_holds c' s' j m b u Q HR' Hm Hlead (Hcerts _ Hcert) Hterm) as (base & last & ? & ? & Hall).
    exists base, last. destruct (Hall k Hk0 ltac:(lia)) as [? Hent]. do 3 (split; [done|]).
    intros Hbk. rewrite Hent, He by done. symmetry. apply Hcl; lia.
Qed.

(** C5. Log Matching: if two live nodes hold an entry with the same index and term,
    their logs hold the same entries at every index up to it that neither has
    compacted away. *)
Theorem log_matching c i n j m k k' en em :
  reach c → p_node (procs c i) = Some n → p_node (procs c j) = Some m →
  holdsIndex n k → holdsIndex m k → entryAt (log n) k = Some en → entryAt (log m) k = Some em →
  Term en = Term em → holdsIndex n k' → holdsIndex m k' → k' ≤ k →
  entryAt (log n) k' = entryAt (log m) k'.
Proof.
  intros Hc Hn Hm Hkn Hkm Hen Hem Ht Hkn' Hkm' Hle. destruct (reach_rel c Hc) as (_ & s & HR).
  destruct (holdsIndex_rep c s i n k HR Hn Hkn) as [En Fn].
  destruct (holdsIndex_rep c s j m k HR Hm Hkm) as [Em Fm].
  destruct (holdsIndex_rep c s i n k' HR Hn Hkn') as [-> Fn'].
  destruct (holdsIndex_rep c s j m k' HR Hm Hkm') as [-> Fm'].
  rewrite En in Hen. rewrite Em in Hem.
  destruct (seat_entry _ _ _ _ (I_seated _ s (R_inv _ _ _ _ HR) i) (N.to_nat k - 1) en ltac:(lia) Hen) as (_ & _ & L & HL & Hag).
  destruct (seat_entry _ _ _ _ (I_seated _ s (R_inv _ _ _ _ HR) j) (N.to_nat k - 1) em ltac:(lia) Hem) as (_ & _ & L' & HL' & Hag').
  rewrite Ht in HL. rewrite HL in HL'. injection HL' as <-.
  rewrite (Hag (N.to_nat k' - 1)%nat) by lia. symmetry. apply Hag'; lia.
Qed.

(** Disk [d] keeps entry [e] of index [k]: its snapshot is of a state machine
    that applied [e] as the [k]-th entry, or the log has a record of [e], and
    every recovery that reads the log finds [e] in it. *)
Definition keepsEntry (d : D) (k : N) (e : LogEntry) : Prop :=
  (∃ sn pre, snapOf d = Some sn ∧ LastIncludedIndex sn = lenN pre ∧ pre !! (N.to_nat k - 1)%nat = Some e ∧
     SMSnapshot (applyAll (genesis (SM := SM)) pre) = inr (SnapData sn)) ∨
  (Index e = k ∧ appendRecord e ∈ records d ∧ ∀ es, replay (records d) = inr es → e ∈ es).

Lemma diskrep_keeps d p k e :
  shaped p → diskrep (SM := SM) d p → plog p !! k = Some e → keepsEntry d (N.of_nat (S k)) e.
Proof.
  intros (Hf & Hidx & _) (_ & Hsn & Hw) He. pose proof (lookup_lt_Some _ _ _ He) as Hk.
  destruct (decide (k < pfloor p)%nat) as [Hlt|Hge].
  - left. unfold snaprep in Hsn. destruct (snapOf d) as [sn|]; [|lia]. destruct Hsn as (Hi & _ & Hdata).
    exists sn, (take (pfloor p) (plog p)). unfold lenN. rewrite Hi, length_take, lookup_take_lt by lia.
    split; [done|]. split; [lia|]. split; [|done]. rewrite <-He. f_equal. lia.
  - right. split; [rewrite (Hidx k e ltac:(lia) He); lia|].
    assert (e ∈ drop (pfloor p) (plog p)) as Hin.
    { apply (list_elem_of_lookup_2 _ (k - pfloor p)). rewrite lookup_drop, <-He. f_equal. lia. }
    split; [by apply Hw|]. intros es Hes. destruct (proj2 Hw es Hes) as [_ Hab]. rewrite <-Hab in Hin.
    by apply list_elem_of_filter in Hin as [_ ?].
Qed.

(** A committed entry is on the disks of the quorum that committed it. *)
Lemma cl_durable c s k e :
  Rel c s → cl s !! k = Some e →
  ∃ Q, NoDup Q ∧ Q ⊆ members ∧ (length members < 2 * length Q)%nat ∧
       ∀ w, w ∈ Q → keepsEntry (p_disk (procs c w)) (N.of_nat (S k)) e.
Proof.
  intros HR He. pose proof (R_inv _ _ _ _ HR) as HI. destruct (cl_cert _ s HI k e He) as (b & u & Q & Hcert & Hb).
  destruct (I_cert _ s HI _ _ _ Hcert) as ((HQ1 & HQ2 & HQ3) & _ & L & HL & _ & _ & HagL).
  exists Q. split; [done|]. split; [done|]. split; [done|]. intros w Hw.
  destruct (I_cert_log _ s HI _ _ _ w L Hcert HL Hw) as (_ & HbL & Hag & _).
  assert (plog (pn s w) !! k = Some e) as Hew by (rewrite <-Hag, HagL by lia; done).
  apply (diskrep_keeps _ (pn s w)); [by apply (node_shaped members s w HI (R_range _ _ _ _ HR))|apply (R_disk _ _ _ _ HR)|done].
Qed.

(** C6. Durability of commits: whatever a node has committed is kept by the disks
    of a majority of the members, in a snapshot of a state machine that applied
    it at its index, or as a record of the log that no recovery that succeeds
    leaves out. *)
Theorem committed_durable c i n k e :
  reach c → p_node (procs c i) = Some n → holdsCommitted n k → entryAt (log n) k = Some e →
  ∃ Q, NoDup Q ∧ Q ⊆ members ∧ (length members < 2 * length Q)%nat ∧
       ∀ w, w ∈ Q → keepsEntry (p_disk (procs c w)) k e.
Proof.
  intros Hc Hn Hk He. destruct (reach_rel c Hc) as (_ & s & HR).
  destruct (holdsCommitted_rep c s i n k HR Hn Hk) as (He' & _ & Hk0). rewrite He' in He.
  destruct (cl_durable c s _ e HR He) as (Q & ? & ? & ? & Hq). exists Q.
  replace k with (N.of_nat (S (N.to_nat k - 1))) by lia. auto.
Qed.
End safety.
