(* ===== verification/Invariants.v ===== *)
(** * Invariants of the nodes and progress of log repair

    What every live node keeps in every execution (the shape of its log, the
    order of its indexes, agreement with its disk), what a node's disk never
    takes back, and that a leader whose AppendEntries was rejected retries
    further back. *)

From S2P Require Import Prelude Types Effects Log Node Election Handlers Replication Hoare Contracts Terms Functional Cluster ElectionSafety Protocol ProtocolSafety Replay LogContract Abstraction Simulation SectionSim SnapshotSim LeaderSim Refinement Safety.

Section invariants.
Context {D SM : Type} `{!Storage D} `{!StateMachine SM} `{!StateMachineSpec SM} `{!StateStoreSpec D} `{!LogStoreSpec D}.
Context (members : list string) (cfgOf : string → Config) (d0 : string → D).
Context (allow : RaftNode SM → Action → bool).
Context `{!Membership members cfgOf} (Hnames : ∀ i, i ∈ members → name_ok i = true).
Context (Hfits : ∀ n act, allow n act = true → admits n act = true).
Context (Hd0 : ∀ i, survives (d0 i)) (Hd0h : ∀ i, hard (d0 i) = zeroHardState).
Context (Hd0r : ∀ i, records (d0 i) = []) (Hd0s : ∀ i, snapOf (d0 i) = None).
Implicit Types (s : PState) (n : RaftNode SM) (c : Cluster D SM).
Local Abbreviation reach := (reachable members cfgOf (genesis (SM := SM)) d0 allow).
Local Abbreviation later := (later members cfgOf allow).
Local Abbreviation Rel := (Rel members).
Local Abbreviation reach_rel := (reach_rel members cfgOf d0 allow Hnames Hfits Hd0 Hd0h Hd0r Hd0s).

(** The log of a leader is the log of its term. *)
Lemma leader_log c s i n :
  Rel c s → p_node (procs c i) = Some n → state n = Leader → ll s (pterm (pn s i)) = Some (plog (pn s i)).
Proof.
  intros HR Hn Hl. pose proof (R_role _ _ _ _ HR i n Hn ltac:(done)) as Hrole. unfold role_rep in Hrole.
  rewrite Hl in Hrole. by destruct Hrole.
Qed.

(** Its terms do not decrease and do not exceed its own. *)
Lemma leader_termsUpTo c s i n :
  Rel c s → p_node (procs c i) = Some n → state n = Leader → termsUpTo (log n) (currentTerm n).
Proof.
  intros HR Hn Hl j k t u Hjk Hk Ht Hu. pose proof (leader_log c s i n HR Hn Hl) as HL.
  pose proof (R_core _ _ _ _ HR i n Hn) as Hcore. rewrite (nc_log _ _ _ _ Hcore) in Ht, Hu.
  pose proof (node_shaped members s i (R_inv _ _ _ _ HR) (R_range _ _ _ _ HR)) as Hsh.
  destruct (memlog_termAt_inv _ Hsh j t ltac:(lia) Ht) as (_ & ? & ->).
  destruct (memlog_termAt_inv _ Hsh k u Hk Hu) as (_ & ? & ->). rewrite (nc_term _ _ _ _ Hcore). split.
  - eapply (leader_sorted _ s (R_inv _ _ _ _ HR)); [exact HL|lia|lia].
  - eapply (leader_terms _ s (R_inv _ _ _ _ HR)); [exact HL|lia].
Qed.

(** ** The shape of a node *)

(** C14. Node invariant: in every reachable state every live node has a log that
    starts at its compaction boundary and runs without gaps; commitIndex lies
    between the boundary and the end, and lastApplied is at most commitIndex; what
    was compacted away has been applied, or a snapshot that covers it waits to be
    restored; the term and vote are what the disk holds; and the terms of a
    leader's log do not decrease and do not exceed its own. *)
Theorem node_invariant c i n :
  reach c → p_node (procs c i) = Some n →
  log_wf (log n) ∧
  (∃ base last, baseIndex (log n) = Some base ∧ lastLogIndex (log n) = Some last ∧
     base ≤ commitIndex n ∧ lastApplied n ≤ commitIndex n ∧ commitIndex n ≤ last ∧
     (base ≤ lastApplied n ∨
      ∃ sn, (pendingSnapshot n = Some sn ∨ applier n = ApRestoring sn) ∧ base ≤ LastIncludedIndex sn)) ∧
  hard (p_disk (procs c i)) = node_hs n ∧
  (state n = Leader → termsUpTo (log n) (currentTerm n)).
Proof.
  intros Hc Hn. destruct (reach_rel c Hc) as (_ & s & HR). pose proof (R_core _ _ _ _ HR i n Hn) as Hcore.
  pose proof (node_shaped members s i (R_inv _ _ _ _ HR) (R_range _ _ _ _ HR)) as Hsh.
  destruct (nc_commit _ _ _ _ Hcore) as (Hf & Hci & _). destruct (nc_applying _ _ _ _ Hcore) as (Hla & _).
  rewrite (nc_log _ _ _ _ Hcore). split; [by apply memlog_wf|]. split; [|split].
  - eexists _, _. split; [apply memlog_base|]. split; [by apply memlog_last|].
    split; [lia|]. split; [lia|]. split; [lia|]. exact (nc_covered _ _ _ _ Hcore).
  - destruct (R_disk _ _ _ _ HR i) as (-> & _). unfold node_hs.
    by rewrite (nc_term _ _ _ _ Hcore), (nc_vote _ _ _ _ Hcore).
  - intros Hl. rewrite <-(nc_log _ _ _ _ Hcore). by apply (leader_termsUpTo c s i).
Qed.

(** ** What a disk never takes back *)

Lemma pstep_hard s s' w :
  pstep (isQ members) s s' →
  hs_le (mkHardState (pterm (pn s w)) (pvote (pn s w))) (mkHardState (pterm (pn s' w)) (pvote (pn s' w))).
Proof.
  destruct 1; simpl; try reflexivity;
    try (destruct (decide (w = w0)) as [->|]; [rewrite fn_lookup_insert|rewrite fn_lookup_insert_ne by done]; simpl;
         try reflexivity).
  - by left.
  - right. split; [done|]. simpl. subst v. tauto.
  - destruct (decide (w = i)) as [->|]; [rewrite fn_lookup_insert|rewrite fn_lookup_insert_ne by done]; simpl; reflexivity.
Qed.

(** C15. Votes are kept: whatever crashes and restarts lie between, the term on a
    node's disk never goes back, and within a term a recorded vote is never
    changed or forgotten. *)
Theorem vote_kept c c' i :
  reach c → later c c' →
  let hs := hard (p_disk (procs c i)) in
  let hs' := hard (p_disk (procs c' i)) in
  HS_CurrentTerm hs ≤ HS_CurrentTerm hs' ∧
  (HS_CurrentTerm hs = HS_CurrentTerm hs' → HS_VotedFor hs ≠ None_ → HS_VotedFor hs' = HS_VotedFor hs).
Proof.
  intros Hc Hl. destruct (reach_rel c Hc) as (HE & s & HR).
  destruct (later_rel members cfgOf allow Hnames Hfits c c' s HR HE Hl) as (s' & Hs & HR').
  destruct (R_disk _ _ _ _ HR i) as (-> & _). destruct (R_disk _ _ _ _ HR' i) as (-> & _).
  assert (hs_le (mkHardState (pterm (pn s i)) (pvote (pn s i))) (mkHardState (pterm (pn s' i)) (pvote (pn s' i)))) as Hle.
  { clear HR HR'. induction Hs as [|s s1 s' Hst _ IH]; [reflexivity|]. etrans; [by apply pstep_hard|done]. }
  split; [by apply hs_le_term|]. intros Ht Hv. by apply (hs_le_vote _ _ _ Hle).
Qed.

(** ** Log repair *)

Lemma conflictScan_bounds l base have fuel first f :
  base + 1 < u64_size → 1 ≤ first → first < u64_size → conflictScan l base have fuel first = Some f →
  1 ≤ f ∧ f ≤ first.
Proof.
  intros Hb. revert first. induction fuel as [|fuel IH]; intros first H1 H2; cbn [conflictScan]; [intros [= <-]; lia|].
  rewrite u64_add_small by lia. destruct (N.ltb_spec (base + 1) first); [|intros [= <-]; lia].
  destruct (termAt l (first -w 1)) as [t|]; [|done]. cbn [mbind option_bind].
  destruct (t =? have); [|intros [= <-]; lia]. rewrite u64_sub_small by lia. intros Hf.
  destruct (IH (first - 1) ltac:(lia) ltac:(lia) Hf). lia.
Qed.

(** What a follower answers when it rejects: its log is too short, or the term it
    has at the index is another one. *)
Lemma rejection_shape (n : RaftNode SM) (d : D) e args reply r x :
  log_wf (log n) → 1 ≤ AEA_PrevLogIndex args → AEA_PrevLogIndex args < u64_size →
  consistencyCheck args reply e (mkCtx n d [] []) = Ret (Some r) x →
  1 ≤ AER_ConflictIndex r ∧ AER_ConflictIndex r ≤ AEA_PrevLogIndex args ∧
  (AER_ConflictTerm r = 0 ∨
   (termAt (log n) (AEA_PrevLogIndex args) = Some (AER_ConflictTerm r) ∧ AER_ConflictTerm r ≠ AEA_PrevLogTerm args)).
Proof.
  intros Hwf Hp1 Hp2. destruct (log_wf_base _ Hwf) as (b & _ & Hb). destruct (log_wf_range _ Hwf _ Hb) as [Hr Hlen].
  pose proof (log_wf_last _ Hwf _ Hb) as Hl. unfold consistencyCheck. run_m. rewrite Hb, Hl. cbn.
  destruct (N.ltb_spec (Index b + lenN (log n) - 1) (AEA_PrevLogIndex args)) as [Hshort|Hin].
  { intros [= <- _]. cbn. rewrite u64_add_small by lia. split; [lia|]. split; [lia|by left]. }
  destruct (N.leb_spec (Index b) (AEA_PrevLogIndex args)) as [Hge|]; [|done].
  destruct (termAt (log n) (AEA_PrevLogIndex args)) as [have|] eqn:Ht; [|done].
  destruct (N.eqb_spec have (AEA_PrevLogTerm args)) as [|Hne]; [done|]. cbn.
  destruct (conflictScan _ _ _ _ _) as [first|] eqn:Hs; [|done]. intros [= <- _]. cbn.
  apply conflictScan_bounds in Hs; [|lia|lia|lia]. destruct Hs. split; [done|]. split; [done|]. by right.
Qed.

Lemma rejectionScan_found ct rl i :
  rejectionScan ct rl = Some i → ∃ e, e ∈ rl ∧ Term e = ct ∧ i = Index e +w 1.
Proof.
  induction rl as [|e rl IH]; [done|]. cbn [rejectionScan]. destruct (N.eqb_spec (Term e) ct) as [<-|_].
  - intros [= <-]. exists e. split; [by left|done].
  - destruct (_ <? _); [done|]. intros (e' & ? & ?)%IH. exists e'. split; [by right|done].
Qed.

(** An entry of term [t] at [j] of a leader, and one of the same term at [k ≤ j] of
    another node, come from one log: the leader has the term at [k] too. *)
Lemma same_term_leader c s i n m j k t :
  Rel c s → p_node (procs c i) = Some n → p_node (procs c m) = Some j → state j = Leader →
  ∀ a b, (0 < a)%nat → (a ≤ b)%nat → (pfloor (pn s i) ≤ a)%nat → (a ≤ length (plog (pn s i)))%nat →
  (b ≤ length (plog (pn s m)))%nat → tm (plog (pn s i)) a = t → tm (plog (pn s m)) b = t →
  k = tm (plog (pn s m)) a → k = t.
Proof.
  intros HR Hn Hm Hl a b Ha Hab Hfa Hla Hlb Hta Htb ->. pose proof (R_inv _ _ _ _ HR) as HI.
  pose proof (leader_log c s m j HR Hm Hl) as HL.
  destruct (leader_matching _ s HI _ _ b HL ltac:(lia) Hlb) as (M & HM & _ & HagM). rewrite Htb in HM.
  destruct (tm_inside (plog (pn s i)) a Ha Hla) as (e & He & Hte). rewrite Hta in Hte.
  assert (M !! (a - 1)%nat = Some e) as HMe.
  { destruct (I_seated _ s HI i) as [_ Hcl Hseat]. destruct (decide (pfloor (pn s i) = a)) as [Heq|Hne].
    - rewrite (Hcl (a - 1)%nat ltac:(lia) ltac:(lia)) in He. destruct (cl_entry _ s HI _ e He) as (_ & L & HL' & HLe). congruence.
    - destruct (Hseat (a - 1)%nat e ltac:(lia) He) as (_ & _ & L & HL' & Hag).
      rewrite <-Hte, HM in HL'. injection HL' as <-. by rewrite <-(Hag (a - 1)%nat ltac:(lia) ltac:(lia)). }
  destruct a as [|a]; [lia|]. simpl in *. rewrite Nat.sub_0_r in HMe. rewrite (HagM a) by lia. by rewrite HMe.
Qed.

(** The nextIndex a leader computes from a rejection is at least 1 and at most the
    index that was rejected. *)
Lemma rejection_bound c s i n m j args r :
  Rel c s → p_node (procs c i) = Some n → p_node (procs c m) = Some j → state j = Leader →
  AEA_PrevLogIndex args < u64_size → termAt (log j) (AEA_PrevLogIndex args) = Some (AEA_PrevLogTerm args) →
  1 ≤ AER_ConflictIndex r → AER_ConflictIndex r ≤ AEA_PrevLogIndex args →
  (AER_ConflictTerm r = 0 ∨
   (termAt (log n) (AEA_PrevLogIndex args) = Some (AER_ConflictTerm r) ∧ AER_ConflictTerm r ≠ AEA_PrevLogTerm args)) →
  1 ≤ nextIndexAfterRejection (log j) (AEA_PrevLogIndex args) r ∧
  nextIndexAfterRejection (log j) (AEA_PrevLogIndex args) r ≤ AEA_PrevLogIndex args.
Proof.
  intros HR Hn Hm Hl Hp Hprev Hi1 Hi2 Hcase.
  pose proof (R_core _ _ _ _ HR i n Hn) as Ci. pose proof (R_core _ _ _ _ HR m j Hm) as Cm.
  pose proof (node_shaped members s i (R_inv _ _ _ _ HR) (R_range _ _ _ _ HR)) as Si.
  pose proof (node_shaped members s m (R_inv _ _ _ _ HR) (R_range _ _ _ _ HR)) as Sm.
  rewrite (nc_log _ _ _ _ Cm) in Hprev |- *. destruct (memlog_termAt_inv _ Sm _ _ Hp Hprev) as (Hb & Hle & HpT).
  unfold nextIndexAfterRejection. destruct (N.eqb_spec (AER_ConflictTerm r) 0) as [|Hnz].
  { rewrite (proj2 (N.leb_le 1 _)) by done. done. }
  destruct Hcase as [?|[Hhave Hne]]; [done|]. rewrite (nc_log _ _ _ _ Ci) in Hhave.
  destruct (memlog_termAt_inv _ Si _ _ Hp Hhave) as (Hbi & Hlei & HhT).
  destruct (rejectionScan _ _) as [next|] eqn:Hs; [|done].
  apply rejectionScan_found in Hs as (en & Hen & Hterm & ->). rewrite elem_of_reverse in Hen.
  cbn [memlog tail] in Hen. apply list_elem_of_lookup in Hen as [k Hk]. rewrite lookup_drop in Hk.
  pose proof (lookup_lt_Some _ _ _ Hk) as Hlt. destruct Sm as (Hf & Hidx & Hr).
  pose proof (Hidx (pfloor (pn s m) + k)%nat en ltac:(lia) Hk) as HI. rewrite HI, u64_add_small by lia.
  assert (¬ (N.to_nat (AEA_PrevLogIndex args) ≤ S (pfloor (pn s m) + k))%nat) as Hbelow; [|lia].
  intros Hge. apply Hne. rewrite HpT.
  symmetry. eapply (same_term_leader c s i n m j _ (AER_ConflictTerm r) HR Hn Hm Hl
    (N.to_nat (AEA_PrevLogIndex args)) (S (pfloor (pn s m) + k))); [lia|done|lia|lia|lia|done|by rewrite (tm_lookup _ _ _ Hk)|done].
Qed.

(** Log repair makes progress: when a follower rejects the AppendEntries of a
    live leader that names an entry of the leader's log, the nextIndex the
    leader computes from the rejection is at least 1 and at most the index that
    was rejected, so below the nextIndex that was tried. *)
Lemma rejection_progress c i n m j e args reply r x :
  reach c → p_node (procs c i) = Some n → p_node (procs c m) = Some j → state j = Leader →
  1 ≤ AEA_PrevLogIndex args → AEA_PrevLogIndex args < u64_size →
  termAt (log j) (AEA_PrevLogIndex args) = Some (AEA_PrevLogTerm args) →
  consistencyCheck args reply e (mkCtx n (p_disk (procs c i)) [] []) = Ret (Some r) x →
  1 ≤ nextIndexAfterRejection (log j) (AEA_PrevLogIndex args) r ∧
  nextIndexAfterRejection (log j) (AEA_PrevLogIndex args) r ≤ AEA_PrevLogIndex args.
Proof.
  intros Hc Hn Hm Hl H1 Hp Hprev Hrej. destruct (reach_rel c Hc) as (_ & s & HR).
  pose proof (R_core _ _ _ _ HR i n Hn) as Ci.
  pose proof (node_shaped members s i (R_inv _ _ _ _ HR) (R_range _ _ _ _ HR)) as Si.
  apply rejection_shape in Hrej as (Hi1 & Hi2 & Hcase); [|rewrite (nc_log _ _ _ _ Ci); by apply memlog_wf|done|done].
  by eapply (rejection_bound c s i n m j).
Qed.
End invariants.
