(* ===== verification/Starvation.v ===== *)
(** * A follower that is sent the same snapshot again and again

    A leader that has compacted its log takes the next entry of a follower for
    compacted when nextIndex is not above the boundary, and sends its snapshot.
    The reply moves nextIndex forward only if it moves matchIndex forward.  When
    matchIndex has the boundary already, nothing does: this file shows that such
    a state lasts as long as the leader leads that term and keeps its boundary,
    whatever the rest of the cluster does and whatever messages arrive. *)

From S2P Require Import Prelude Types Effects Log Node Election Handlers Replication Hoare Contracts Terms Functional Cluster ElectionSafety Protocol ProtocolSafety Replay LogContract Abstraction Simulation SectionSim SnapshotSim LeaderSim Refinement Safety Invariants.

(** ** Sections that leave replication alone *)

Section untouched.
Context {D SM : Type} `{!Storage D} `{!StateMachine SM}.
Context (n0 : RaftNode SM).
Implicit Types (n : RaftNode SM) (x : Ctx D SM).

(** Neither entries nor a snapshot for a peer. *)
Definition sends_none (y : Effect) : Prop :=
  match y with GoAppendEntries _ _ _ | GoInstallSnapshot _ _ _ => False | _ => True end.

Definition untouched x : Prop :=
  nextIndex (rn x) = nextIndex n0 ∧ matchIndex (rn x) = matchIndex n0 ∧ Forall sends_none (out x).

Local Abbreviation leaves m := (keeps untouched (λ _, True) m).

Lemma leaves_modify f :
  (∀ n, nextIndex (f n) = nextIndex n ∧ matchIndex (f n) = matchIndex n) → leaves (modify f).
Proof. intros Hf. apply hoare_modify. intros x (H1 & H2 & H3). destruct (Hf (rn x)) as [E1 E2]. split; [simpl; congruence|]. split; [simpl; congruence|done]. Qed.

Lemma leaves_emit y : sends_none y → leaves (emit y).
Proof. intros Hy. apply hoare_emit. intros x (H1 & H2 & H3). split; [done|]. split; [done|]. simpl. apply Forall_app. by repeat constructor. Qed.

Lemma leaves_must {A} what (op : Io D A) : leaves (must what op).
Proof. apply hoare_must. intros x Hx. cbv zeta. by case_match. Qed.

Lemma leaves_try {A} (op : Io D A) : leaves (try op).
Proof. apply hoare_try. by intros x Hx. Qed.

(** The primitive steps, by their head. *)
Ltac leaves_step :=
  match goal with
  | |- keeps _ _ (must _ _) => apply leaves_must
  | |- keeps _ _ (try _) => apply leaves_try
  | |- keeps _ _ (modify _) => apply leaves_modify; by intros ?
  | |- keeps _ _ (emit _) => by apply leaves_emit
  | |- keeps _ _ (panic _) => by apply hoare_panic
  | |- keeps _ _ (let _ := _ in _) => cbv zeta
  | _ => keeps_step
  end.
Ltac leaves_auto := repeat leaves_step.

Lemma leaves_follow t : leaves (becomeFollowerLocked t).
Proof. unfold becomeFollowerLocked, persistLocked, resetElectionTimerLocked. leaves_auto. Qed.

Lemma leaves_advance : leaves advanceCommitIndexLocked.
Proof. unfold advanceCommitIndexLocked. leaves_auto. Qed.

Lemma leaves_append es : leaves (appendLogLocked es).
Proof. unfold appendLogLocked. leaves_auto. Qed.

Lemma leaves_walk b es : leaves (appendWalk b es).
Proof.
  induction es as [|e es IH]; simpl; [apply keeps_ret|]. unfold truncateLogLocked.
  repeat match goal with
         | |- keeps _ _ (appendLogLocked _) => apply leaves_append
         | |- keeps _ _ (appendWalk _ _) => exact IH
         | _ => leaves_step
         end.
Qed.

(** Every section of a leader but those of replication. *)
Definition other_section (act : Action) : bool :=
  match act with
  | ATick | AVoteReply _ _ _ | ARound _ | AAppendReply _ _ _ _ | ASendSnapshot _ _ | ASnapshotReply _ _ _ _ => false
  | _ => true
  end.

Lemma leaves_section act : other_section act = true → leaves (runAction act).
Proof.
  destruct act; intros Hact; try discriminate Hact; simpl;
    unfold mainStarts, mainStops, Start, launch, Stop, HandleRequestVote, HandleAppendEntries, takeEntries, consistencyCheck,
      advanceFollowerCommit, acceptLeader, HandleInstallSnapshot, applierStep, applierWake, applierRestore, finishSnapshot,
      maybeSnapshotLocked, compactLogLocked, Propose, kick, consumeTrigger, persistLocked, resetElectionTimerLocked;
    repeat match goal with
           | |- keeps _ _ (becomeFollowerLocked _) => apply leaves_follow
           | |- keeps _ _ advanceCommitIndexLocked => apply leaves_advance
           | |- keeps _ _ (appendLogLocked _) => apply leaves_append
           | |- keeps _ _ (appendWalk _ _) => apply leaves_walk
           | _ => leaves_step
           end.
Qed.
End untouched.

(** ** The follower *)

Section starvation.
Context {D SM : Type} `{!Storage D} `{!StateMachine SM} `{!StateMachineSpec SM} `{!StateStoreSpec D} `{!LogStoreSpec D}.
Context (members : list string) (cfgOf : string → Config) (d0 : string → D).
Context (allow : RaftNode SM → Action → bool).
Context `{!Membership members cfgOf} (Hnames : ∀ i, i ∈ members → name_ok i = true).
Context (Hfits : ∀ n act, allow n act = true → admits n act = true).
Context (Hd0 : ∀ i, survives (d0 i)) (Hd0h : ∀ i, hard (d0 i) = zeroHardState).
Context (Hd0r : ∀ i, records (d0 i) = []) (Hd0s : ∀ i, snapOf (d0 i) = None).
(** leader, follower, term and compaction boundary *)
Context (b i : string) (t K : N).
Implicit Types (n : RaftNode SM) (c : Cluster D SM) (d : D).
Local Abbreviation reach := (reachable members cfgOf (genesis (SM := SM)) d0 allow).

(** [b] leads term [t] with its log compacted up to [K]. *)
Definition in_office n : Prop := state n = Leader ∧ currentTerm n = t ∧ baseIndex (log n) = Some K.

(** nextIndex of [i] is not above the boundary, matchIndex not below it. *)
Definition behind n : Prop :=
  default 0 (nextIndex n !! i) ≤ K ∧ K ≤ default 0 (matchIndex n !! i).

(** A message that leaves it so: not with entries for [i], and a snapshot only of
    what is compacted. *)
Definition no_news (y : Effect) : Prop :=
  match y with
  | GoAppendEntries p t' args => p = i → t' = t → AEA_PrevLogIndex args +w lenN (AEA_Entries args) ≤ K
  | GoInstallSnapshot p t' args => p = i → t' = t → ISA_LastIncludedIndex args ≤ K
  | _ => True
  end.

Definition starved c : Prop :=
  (∃ n, p_node (procs c b) = Some n ∧ in_office n ∧ behind n) ∧ ∀ y, (b, y) ∈ sent c → no_news y.

(** What a section may add: no entries for [i] in term [t] at all. *)
Definition withholds (y : Effect) : Prop :=
  no_news y ∧ ∀ args, y ≠ GoAppendEntries i t args.

Definition starving (x : Ctx D SM) : Prop := behind (rn x) ∧ Forall withholds (out x).

Lemma untouched_starving n x : behind n → untouched n x → starving x.
Proof.
  intros Hb (Hn & Hm & Ho). split; [unfold behind; by rewrite Hn, Hm|]. eapply Forall_impl; [exact Ho|].
  intros y Hy. split; destruct y; done.
Qed.

Lemma untouched_start n d : untouched n (mkCtx n d [] []).
Proof. done. Qed.

Lemma follow_starving n d e u x tm : behind n → becomeFollowerLocked tm e (mkCtx n d [] []) = Ret u x → starving x.
Proof.
  intros Hb Hrun. eapply untouched_starving; [exact Hb|].
  by apply (hoare_Ret _ _ _ _ _ _ _ _ (leaves_follow n tm) (untouched_start n d) Hrun).
Qed.

Lemma outbound_withheld n p y : behind n → outboundFor n K t p = Some y → withholds y.
Proof.
  intros [Hn _]. unfold outboundFor. destruct (N.leb_spec (default 0 (nextIndex n !! p)) K); [intros [= <-]; by split|].
  destruct (termAt _ _) as [pt|]; [|done]. destruct (entriesFrom _ _) as [es|]; [|done]. cbn. intros [= <-].
  assert (p ≠ i) as Hp by (intros ->; lia). split; [by intros ?|]. by intros args [= ? _].
Qed.

Lemma round_starving n d e term a x :
  in_office n → behind n → replicationRound term e (mkCtx n d [] []) = Ret a x → starving x.
Proof.
  intros (Hst & Ht & Hb) Hbe. unfold replicationRound. cbv [mbind m_mbind m_bind get mret m_mret m_ret]. cbn [rn].
  rewrite Hst, bool_decide_true, Hb, Ht by done. cbn [negb orb index]. destruct (N.eqb_spec t term) as [<-|]; cbn [negb]; [|by intros [= _ <-]].
  destruct (mapM (outboundFor n K t) (peers n)) as [msgs|] eqn:Hm; cbv [index m_ret panic]; rewrite Hm; [|done].
  assert (Forall withholds msgs) as Hms.
  { apply mapM_Some in Hm. clear -Hm Hbe. induction Hm as [|p y ps ys Hy _ IH]; constructor; [|done]. by eapply outbound_withheld. }
  pose proof (for_each_emit msgs (λ _, True) (λ _, True) e (mkCtx n d [] []) (λ _ _ H, H) I) as H.
  destruct (for_each emit msgs e _) as [u y|w y]; [|done]. intros [= _ <-]. destruct H as (_ & Ho & Hn).
  split; [by rewrite Hn|by rewrite Ho].
Qed.

Lemma reply_starving n d e peer term args r u x :
  in_office n → behind n → (peer = i → term = t → AEA_PrevLogIndex args +w lenN (AEA_Entries args) ≤ K) →
  handleAppendEntriesReply peer term args r e (mkCtx n d [] []) = Ret u x → starving x.
Proof.
  intros (Hst & Ht & Hb) Hbe Hargs. unfold handleAppendEntriesReply. cbv [mbind m_mbind m_bind get mret m_mret m_ret]. cbn [rn].
  destruct (stopped n); [by intros [= _ <-]|]. destruct (_ <? AER_Term r); [by apply follow_starving|].
  rewrite Hst, bool_decide_true, Ht by done. cbn [negb orb]. destruct (N.eqb_spec t term) as [<-|]; cbn [negb]; [|by intros [= _ <-]].
  destruct Hbe as [Hn Hm]. destruct (AER_Success r).
  - destruct (N.ltb_spec (default 0 (matchIndex n !! peer)) (AEA_PrevLogIndex args +w lenN (AEA_Entries args))) as [Hlt|];
      cbn [when]; [|by intros [= _ <-]].
    assert (peer ≠ i) as Hp by (intros ->; specialize (Hargs eq_refl eq_refl); lia).
    cbv [modify mbind m_mbind m_bind]. intros Hrun.
    match type of Hrun with advanceCommitIndexLocked _ ?y = _ => set (y0 := y) in Hrun end.
    assert (behind (rn y0)) as Hb0.
    { unfold behind, y0. simpl. by rewrite !lookup_insert_ne. }
    eapply (untouched_starving (rn y0)); [exact Hb0|].
    by apply (hoare_Ret _ _ _ _ _ _ _ _ (leaves_advance (rn y0)) (untouched_start (rn y0) d) Hrun).
  - destruct (N.ltb_spec (nextIndexAfterRejection (log n) (AEA_PrevLogIndex args) r) (default 0 (nextIndex n !! peer)));
      cbv [when kick modify m_ret]; intros [= _ <-]; (split; [|done]); (split; [|exact Hm]); simpl; [|exact Hn].
    destruct (decide (peer = i)) as [->|]; [rewrite lookup_insert_eq; simpl; lia|by rewrite lookup_insert_ne].
Qed.

Lemma snapshot_starving n d e peer term args r u x :
  in_office n → behind n → (peer = i → term = t → ISA_LastIncludedIndex args ≤ K) →
  handleInstallSnapshotReply peer term args r e (mkCtx n d [] []) = Ret u x → starving x.
Proof.
  intros (Hst & Ht & Hb) Hbe Hargs. unfold handleInstallSnapshotReply. cbv [mbind m_mbind m_bind get mret m_mret m_ret]. cbn [rn].
  destruct (stopped n); [by intros [= _ <-]|]. destruct (_ <? ISR_Term r); [by apply follow_starving|].
  rewrite Hst, bool_decide_true, Ht by done. cbn [negb orb]. destruct (N.eqb_spec t term) as [<-|]; cbn [negb]; [|by intros [= _ <-]].
  destruct (N.ltb_spec (default 0 (matchIndex n !! peer)) (ISA_LastIncludedIndex args)) as [Hlt|];
    cbv [when modify m_ret]; intros [= _ <-]; [|done].
  assert (peer ≠ i) as Hp by (intros ->; specialize (Hargs eq_refl eq_refl); destruct Hbe; lia).
  split; [|done]. unfold behind. simpl. by rewrite !lookup_insert_ne.
Qed.

Lemma vote_starving n d e term r u x :
  in_office n → behind n → handleRequestVoteReply term r e (mkCtx n d [] []) = Ret u x → starving x.
Proof.
  intros (Hst & _ & _) Hbe. unfold handleRequestVoteReply. cbv [mbind m_mbind m_bind get mret m_mret m_ret]. cbn [rn].
  destruct (stopped n); [by intros [= _ <-]|]. destruct (_ <? RVR_Term r); [by apply follow_starving|].
  rewrite Hst. cbn. by intros [= _ <-].
Qed.

Lemma tick_starving n d e u x : in_office n → behind n → electionTick e (mkCtx n d [] []) = Ret u x → starving x.
Proof. intros (Hst & _ & _) Hbe. unfold electionTick. run_m. rewrite Hst. cbn. by intros [= _ <-]. Qed.

(** The snapshot on the leader's disk is the one at its boundary. *)
Lemma disk_snapshot c n sn :
  reach c → p_node (procs c b) = Some n → in_office n →
  io_res (LoadSnapshot (p_disk (procs c b))) = inr (Some sn) → LastIncludedIndex sn = K.
Proof.
  intros Hc Hn (_ & _ & Hb) Hload.
  destruct (reach_rel members cfgOf d0 allow Hnames Hfits Hd0 Hd0h Hd0r Hd0s c Hc) as (HE & s & HR).
  destruct (R_disk _ _ _ _ HR b) as (_ & Hrep & _).
  destruct (LoadSnapshot_spec _ (inv_survives _ c HE b)) as (_ & Hres & _). rewrite (Hres _ Hload) in Hrep.
  destruct Hrep as (-> & _). rewrite (nc_log _ _ _ _ (R_core _ _ _ _ HR b n Hn)) in Hb. injection Hb as <-. done.
Qed.

Lemma send_starving c n e peer term u x :
  reach c → p_node (procs c b) = Some n → in_office n → behind n →
  sendSnapshot peer term e (mkCtx n (p_disk (procs c b)) [] []) = Ret u x → starving x.
Proof.
  intros Hc Hn Ho Hbe. unfold sendSnapshot. run_m. cbn. destruct (HasSnapshotStore (cfg n)); cbn; [|done].
  destruct (io_res (LoadSnapshot _)) as [err|[sn|]] eqn:Hload; cbn; intros [= _ <-]; (split; [done|]); cbn; [done| |done].
  constructor; [|done]. split; [|done]. intros _ _. simpl. rewrite (disk_snapshot c n sn) by done. done.
Qed.

(** *** Every section of the leader *)

Lemma bind_Ret {A B} (m : M D SM A) (k : A → M D SM B) e (x : Ctx D SM) v x' :
  (m ≫= k) e x = Ret v x' → ∃ u y, m e x = Ret u y ∧ k u e y = Ret v x'.
Proof. unfold mbind, m_mbind, m_bind. destruct (m e x) as [u y|]; [|done]. intros H. by exists u, y. Qed.

Lemma section_starving c n act e a x :
  reach c → starved c → p_node (procs c b) = Some n → enabled c b n act →
  runAction act e (mkCtx n (p_disk (procs c b)) [] []) = Ret a x → starving x.
Proof.
  intros Hc [(n' & Hn' & Ho & Hbe) Hsent] Hn Hen Hrun. rewrite Hn in Hn'. injection Hn' as <-.
  destruct (other_section act) eqn:Hact.
  { eapply untouched_starving; [exact Hbe|].
    by apply (hoare_Ret _ _ _ _ _ _ _ _ (leaves_section n act Hact) (untouched_start n _) Hrun). }
  destruct act; try discriminate Hact; simpl in Hrun; apply bind_Ret in Hrun as (u & y & Hrun & [= _ <-]).
  - by eapply tick_starving.
  - by eapply vote_starving.
  - by eapply round_starving.
  - eapply reply_starving; [done|done| |exact Hrun]. destruct Hen as [Hen _]. intros -> ->. by apply (Hsent _ Hen).
  - by eapply send_starving.
  - eapply snapshot_starving; [done|done| |exact Hrun]. destruct Hen as [Hen _]. intros -> ->. by apply (Hsent _ Hen).
Qed.

(** ** Every execution *)

(** A step after which [b] is still in office with the same boundary. *)
Definition office_step c c' : Prop :=
  in_range c ∧ step members cfgOf genesis allow c c' ∧ ∃ n, p_node (procs c' b) = Some n ∧ in_office n.

(** The messages [b] sent that were not there before. *)
Definition withheld c c' : Prop := ∀ args, (b, GoAppendEntries i t args) ∈ sent c' → (b, GoAppendEntries i t args) ∈ sent c.

Lemma starved_same c c' :
  starved c → procs c' b = procs c b → (∀ y, (b, y) ∈ sent c' → (b, y) ∈ sent c) → starved c' ∧ withheld c c'.
Proof. intros [Hn Hs] Hp Hy. split; [split; [by rewrite Hp|auto]|]. intros args. apply Hy. Qed.

Lemma starved_down c j d n :
  starved c → p_node (procs (down c j d) b) = Some n → starved (down c j d) ∧ withheld c (down c j d).
Proof.
  intros Hs Hn. apply starved_same; [done| |done]. simpl in *. destruct (decide (b = j)) as [->|]; [|by rewrite fn_lookup_insert_ne].
  by rewrite fn_lookup_insert in Hn.
Qed.

Lemma starved_step c c' : reach c → starved c → office_step c c' → starved c' ∧ withheld c c'.
Proof.
  intros Hc Hs (Hr & Hst & n' & Hn' & Ho').
  destruct Hst as [j n Hj Hnone _|j d Hj Hnone _|j n act e a x Hn Hen _ Hrun|j n act e d Hn Hen _ _|j n Hn];
    try (by eapply starved_down).
  - apply starved_same; [done| |done]. simpl in *. destruct (decide (b = j)) as [->|]; [|by rewrite fn_lookup_insert_ne].
    destruct Hs as [(n0 & Hn0 & _) _]. congruence.
  - destruct (decide (b = j)) as [<-|Hne].
    2: { apply starved_same; [done|simpl; by rewrite fn_lookup_insert_ne|]. intros y. simpl. intros [?|Hy]%elem_of_app; [done|].
         apply list_elem_of_fmap in Hy as (? & [= ? _] & _). congruence. }
    destruct (section_starving c n act e a x Hc Hs Hn Hen Hrun) as [Hb Hout]. simpl in Hn'. rewrite fn_lookup_insert in Hn'.
    injection Hn' as <-. split; [split|].
    + exists (rn x). simpl. by rewrite fn_lookup_insert.
    + intros y [?|Hy]%elem_of_app; [by apply Hs|]. apply list_elem_of_fmap in Hy as (y' & [= <-] & Hy').
      by eapply Forall_forall in Hout as [? _].
    + intros args [?|Hy]%elem_of_app; [done|]. apply list_elem_of_fmap in Hy as (y' & [= <-] & Hy').
      eapply Forall_forall in Hout as [_ Hno]; [|exact Hy']. by destruct (Hno args).
Qed.

Lemma starved_forever c c' : reach c → starved c → rtc office_step c c' → starved c' ∧ withheld c c'.
Proof.
  intros Hc Hs Hrun. revert Hc Hs. induction Hrun as [c|c c1 c2 Hst _ IH]; intros Hc Hs; [by split; [|intros args]|].
  destruct (starved_step c c1 Hc Hs Hst) as [Hs1 Hw1]. destruct Hst as (Hr & Hstep & _).
  destruct (IH (reachable_step _ _ _ _ _ _ _ Hc Hr Hstep) Hs1) as [Hs2 Hw2]. split; [done|]. intros args ?. by apply Hw1, Hw2.
Qed.

(** In such a state the round of the leader has the snapshot for the follower. *)
Lemma starved_round n : in_office n → behind n → outboundFor n K t i = Some (GoSendSnapshot i t).
Proof. intros _ [Hn _]. unfold outboundFor. by rewrite (proj2 (N.leb_le _ _) Hn). Qed.
End starvation.
