(* ===== verification/Bounds.v ===== *)
(** * Bounds: what can panic

    Every index and slice expression of package raft, every unsigned
    subtraction before it and every explicit panic, in all reachable clusters.
    A second, smaller logic follows a section on the node record alone and
    collects the messages it may panic with; with the invariant of file
    Refinement and a bound on nextIndex it shows that a running node panics only
    when a store call fails, when its state machine cannot serialise itself, or
    in one of two situations that file Findings exhibits. *)

From S2P Require Import Prelude Types Effects Log Node Election Handlers Replication Hoare Contracts Terms Functional Cluster ElectionSafety Protocol ProtocolSafety Replay LogContract Abstraction Simulation SectionSim SnapshotSim LeaderSim Refinement Safety Invariants.

(** ** Sections as functions of the node *)

Section runs.
Context {D SM : Type} (W : string → Prop).
Implicit Types (n m : RaftNode SM).

(** Started on node [n], whatever the disk does, the section returns with [Q] or
    panics with a message of [W]. *)
Definition runs {A} n (s : M D SM A) (Q : A → RaftNode SM → Prop) : Prop :=
  ∀ e c, rn c = n → match s e c with Ret a c' => Q a (rn c') | Panic w _ => W w end.

Lemma runs_ret {A} n (a : A) (Q : A → RaftNode SM → Prop) : Q a n → runs n (mret a) Q.
Proof. intros H e c <-. exact H. Qed.
Lemma runs_bind {A B} n (s : M D SM A) (k : A → M D SM B) R Q :
  runs n s R → (∀ a m, R a m → runs m (k a) Q) → runs n (s ≫= k) Q.
Proof.
  intros Hs Hk e c Hc. specialize (Hs e c Hc). unfold mbind, m_mbind, m_bind.
  destruct (s e c); [|done]. by eapply Hk.
Qed.
Lemma runs_get {B} n (k : RaftNode SM → M D SM B) Q : runs n (k n) Q → runs n (get ≫= k) Q.
Proof. intros H e c Hc. unfold mbind, m_mbind, m_bind, get. rewrite Hc. by apply H. Qed.
Lemma runs_ask {B} n (k : Env → M D SM B) Q : (∀ e, runs n (k e) Q) → runs n (ask ≫= k) Q.
Proof. intros H e c Hc. by apply H. Qed.
Lemma runs_modify n f (Q : unit → RaftNode SM → Prop) : Q tt (f n) → runs n (modify f) Q.
Proof. by intros H e c <-. Qed.
Lemma runs_set {B} n f (k : unit → M D SM B) Q : runs (f n) (k tt) Q → runs n (modify f ≫= k) Q.
Proof. intros H e c <-. by apply H. Qed.
Lemma runs_emit n x (Q : unit → RaftNode SM → Prop) : Q tt n → runs n (emit x) Q.
Proof. by intros H e c <-. Qed.
Lemma runs_panic {A} n w (Q : A → RaftNode SM → Prop) : W w → runs n (panic w) Q.
Proof. by intros H e c _. Qed.
Lemma runs_index {A B} n (o : option A) a (k : A → M D SM B) Q :
  o = Some a → runs n (k a) Q → runs n (index o ≫= k) Q.
Proof. intros -> H. exact H. Qed.
Lemma runs_must {A} n what (op : Io D A) (Q : A → RaftNode SM → Prop) :
  W what → (∀ a, Q a n) → runs n (must what op) Q.
Proof. intros Hw HQ e c <-. unfold must, try. cbv zeta. by destruct (io_res (op (disk c))). Qed.
Lemma runs_try {A} n (op : Io D A) (Q : string + A → RaftNode SM → Prop) :
  (∀ r, Q r n) → runs n (try op) Q.
Proof. intros HQ e c <-. apply HQ. Qed.
Lemma runs_when n (b : bool) (s : M D SM unit) Q :
  (b = true → runs n s Q) → (b = false → Q tt n) → runs n (when b s) Q.
Proof. destruct b; intros H1 H2; [by apply H1|]. by apply (runs_ret n tt), H2. Qed.
Lemma runs_for_each {A} n (f : A → M D SM unit) l :
  (∀ x, runs n (f x) (λ _ m, m = n)) → runs n (for_each f l) (λ _ m, m = n).
Proof.
  intros H. induction l as [|x l IH]; simpl; [by apply (runs_ret n tt)|].
  eapply runs_bind; [apply H|]. by intros ? m ->.
Qed.
Lemma runs_weaken {A} n (s : M D SM A) (Q Q' : A → RaftNode SM → Prop) :
  runs n s Q → (∀ a m, Q a m → Q' a m) → runs n s Q'.
Proof. intros H HQ e c Hc. specialize (H e c Hc). destruct (s e c); auto. Qed.
(** The value of a section is handed on. *)
Lemma runs_map {A B} n (s : M D SM A) (f : A → B) (Q : RaftNode SM → Prop) :
  runs n s (λ _, Q) → runs n (a ← s; mret (f a)) (λ _, Q).
Proof. intros H. eapply runs_bind; [exact H|]. intros a m Hm. by apply runs_ret. Qed.
End runs.

(** ** What the sections need, and what they do to nextIndex *)

Definition storeErrors : list string :=
  ["persisting hard state"; "persisting log entries"; "persisting log truncation"; "compacting log";
   "persisting installed snapshot"; "compacting log for snapshot"; "persisting snapshot"].

Section bounds.
Context {D SM : Type} `{!Storage D} `{!StateMachine SM}.
Context (W : string → Prop) (HW : ∀ w, w ∈ storeErrors → W w).
Implicit Types (n m : RaftNode SM).
Local Abbreviation runs := (runs (D := D) (SM := SM) W).

Ltac store_error := apply HW, (bool_decide_unpack _); by vm_compute.

(** The log is well-formed and commitIndex lies in it. *)
Definition sane n (b : N) : Prop :=
  log_wf (log n) ∧ baseIndex (log n) = Some b ∧ b ≤ commitIndex n ∧ commitIndex n < b + lenN (log n).

(** The nextIndex of a peer points into the log or to its end. *)
Definition next_ok n (k : N) : Prop := k ≤ default 0 (lastLogIndex (log n)) + 1.

(** A section that leaves a leader behind got it as the leader of that term, with
    its nextIndex, or has just set it. *)
Definition next_kept n m : Prop :=
  state m = Leader → ∀ q k, nextIndex m !! q = Some k →
    (state n = Leader ∧ currentTerm m = currentTerm n ∧ nextIndex n !! q = Some k) ∨ next_ok m k.

Lemma next_kept_eq n m :
  state m = state n → currentTerm m = currentTerm n → nextIndex m = nextIndex n → next_kept n m.
Proof. intros Hs Ht Hn Hl q k Hq. left. rewrite <-Hs, <-Hn. done. Qed.
Lemma next_kept_refl n : next_kept n n.
Proof. by apply next_kept_eq. Qed.
Lemma next_kept_deposed n m : state m ≠ Leader → next_kept n m.
Proof. by intros H ?. Qed.
Hint Resolve next_kept_refl : core.

Lemma sane_last n b : sane n b → lastLogIndex (log n) = Some (b + lenN (log n) - 1).
Proof. intros (Hwf & Hb & _). by apply log_wf_last. Qed.

Lemma sane_lastTerm n b : sane n b → ∃ t, lastLogTerm (log n) = Some t.
Proof.
  intros Hs. pose proof (sane_last n b Hs) as Hl. unfold lastLogIndex, lastLogTerm in *.
  destruct (lastEntry (log n)); [by eexists|done].
Qed.

Lemma sane_term n b k : sane n b → b ≤ k → k < b + lenN (log n) → ∃ t, termAt (log n) k = Some t.
Proof.
  intros (Hwf & Hb & _) ? ?. destruct (termAt_in_range _ Hwf b k Hb) as (e & _ & _ & ?); [done..|]. by eexists.
Qed.

(** *** Shared pieces *)

Lemma runs_persist n : runs n persistLocked (λ _ m, m = n).
Proof. apply runs_get, runs_must; [store_error|done]. Qed.

Definition timer_only n m : Prop :=
  ∃ a t, m = n <| electionResetAt := a |> <| electionTimeout := t |>.

Lemma runs_reset n : runs n resetElectionTimerLocked (λ _ m, timer_only n m).
Proof. apply runs_ask. intros e. apply runs_get, runs_modify. by eexists _, _. Qed.

(** What survives a change of term or role. *)
Definition same_log n m : Prop :=
  log m = log n ∧ commitIndex m = commitIndex n ∧ cfg m = cfg n ∧ stopped m = stopped n.

Lemma sane_same n m b : same_log n m → sane n b → sane m b.
Proof. unfold sane. by intros (-> & -> & _). Qed.

Lemma runs_becomeFollower n t :
  runs n (becomeFollowerLocked t) (λ _ m, same_log n m ∧ state m = Follower ∧ t ≤ currentTerm m).
Proof.
  apply runs_get. eapply runs_bind with (R := λ _ m, same_log n m ∧ t ≤ currentTerm m).
  - apply runs_when; [intros _|intros Hge%N.ltb_ge; by repeat split].
    eapply runs_bind; [apply runs_modify with (Q := λ _ m, same_log n m ∧ t ≤ currentTerm m); by repeat split|].
    intros ? m1 Hm. eapply runs_bind; [apply runs_persist|]. intros ? m2 ->.
    eapply runs_weaken; [apply runs_reset|]. by intros ? m3 (ra & rt & ->).
  - intros ? m [Hm Ht]. apply runs_modify. by repeat split; try apply Hm.
Qed.

(** The adoption of a higher term that starts a handler. *)
Lemma runs_adopt n t :
  runs n (when (currentTerm n <? t) (becomeFollowerLocked t))
    (λ _ m, same_log n m ∧ t ≤ currentTerm m ∧ (m = n ∨ state m = Follower)).
Proof.
  apply runs_when.
  - intros _. eapply runs_weaken; [apply runs_becomeFollower|]. intros ? m (? & ? & ?). auto.
  - intros Hge%N.ltb_ge. split; [by repeat split|]. auto.
Qed.

Lemma runs_acceptLeader n t l :
  runs n (acceptLeader t l) (λ _ m, same_log n m ∧ state m = Follower).
Proof.
  apply runs_get. eapply runs_bind with (R := λ _ m, same_log n m ∧ state m = Follower).
  - apply runs_when.
    + intros _. eapply runs_weaken; [apply runs_becomeFollower|]. by intros ? m (? & ? & _).
    + intros Hf%negb_false_iff%bool_decide_eq_true. by repeat split.
  - intros ? m [Hm Hf]. eapply runs_bind; [by apply runs_modify with (Q := λ _ m, same_log n m ∧ state m = Follower)|].
    intros ? m1 [? ?]. eapply runs_weaken; [apply runs_reset|]. by intros ? m2 (ra & rt & ->).
Qed.

(** *** Elections *)

Lemma runs_HandleRequestVote n args b :
  sane n b → runs n (HandleRequestVote args) (λ _ m, next_kept n m).
Proof.
  intros Hs. apply runs_get. destruct (stopped n); [by apply runs_ret|].
  eapply runs_bind; [apply runs_adopt|]. intros ? m (Hm & _ & Hnf).
  assert (next_kept n m) as Hk by (destruct Hnf as [->|Hf]; [done|apply next_kept_deposed; congruence]).
  apply runs_get. destruct (_ <? _); [by apply runs_ret|].
  pose proof (sane_same n m b Hm Hs) as Hsm. destruct (sane_lastTerm m b Hsm) as [t Ht].
  eapply runs_index; [exact Ht|]. eapply runs_index; [by apply (sane_last m b)|].
  destruct (negb _); [by apply runs_ret|]. destruct (_ || _); [|by apply runs_ret].
  eapply runs_bind; [by apply runs_modify with (Q := λ _ m1, next_kept n m1)|]. intros ? m1 Hk1.
  eapply runs_bind; [apply runs_persist|]. intros ? m2 ->.
  eapply runs_bind; [apply runs_reset|]. intros ? m3 (ra & rt & ->). by apply runs_ret.
Qed.

Lemma runs_becomeLeader n n0 b : sane n b → runs n becomeLeaderLocked (λ _ m, next_kept n0 m).
Proof.
  intros Hs. pose proof (sane_last n b Hs) as Hl. destruct (Hs) as (Hwf & Hb & _).
  destruct (log_wf_range _ Hwf b Hb) as [Hr Hlen].
  eapply runs_bind; [apply runs_modify with (Q := λ _ m, log m = log n); done|].
  intros ? m Hm. apply runs_get. rewrite Hm. eapply runs_index; [exact Hl|].
  eapply runs_bind; [|intros ? m' Hm'; apply runs_emit; exact Hm'].
  apply runs_modify. intros _ q k Hq. right. unfold next_ok. simpl in Hq |- *. rewrite Hm, Hl. simpl.
  apply elem_of_list_to_map_2, list_elem_of_fmap in Hq as (p & [= -> ->] & _).
  rewrite u64_add_small by lia. done.
Qed.

Lemma runs_electionTick n b : sane n b → runs n electionTick (λ _ m, next_kept n m).
Proof.
  intros Hs. apply runs_ask. intros e. apply runs_get, runs_when; [|done]. intros _.
  set (R := λ m, log m = log n ∧ commitIndex m = commitIndex n ∧ state m = Candidate).
  eapply runs_bind; [by apply runs_modify with (Q := λ _, R)|]. intros ? m1 Hm1.
  eapply runs_bind; [apply runs_persist|]. intros ? m2 ->.
  eapply runs_bind; [apply runs_reset|]. intros ? m3 (ra & rt & ->). apply runs_get.
  set (m3 := m1 <| electionResetAt := ra |> <| electionTimeout := rt |>).
  assert (sane m3 b) as Hs3 by (unfold sane; simpl; destruct Hm1 as (-> & -> & _); done).
  eapply runs_index; [by apply (sane_last m3 b)|]. destruct (sane_lastTerm m3 b Hs3) as [t Ht].
  eapply runs_index; [exact Ht|].
  eapply runs_bind; [apply runs_modify with (Q := λ _ m, sane m b ∧ state m = Candidate)|].
  { split; [done|apply Hm1]. }
  intros ? m4 [Hs4 Hc4]. destruct (_ <=? _); [by eapply runs_becomeLeader|].
  eapply runs_weaken; [apply runs_for_each; intros p; by apply runs_emit|]. intros ? m ->.
  apply next_kept_deposed. congruence.
Qed.

Lemma runs_voteReply n term reply b :
  sane n b → runs n (handleRequestVoteReply term reply) (λ _ m, next_kept n m).
Proof.
  intros Hs. apply runs_get. destruct (stopped n); [by apply runs_ret|].
  destruct (_ <? _).
  { eapply runs_weaken; [apply runs_becomeFollower|]. intros ? m (_ & Hf & _). apply next_kept_deposed. congruence. }
  destruct (_ || _); [by apply runs_ret|]. destruct (RVR_VoteGranted reply); [|by apply runs_ret].
  eapply runs_bind; [apply runs_modify with (Q := λ _ m, sane m b ∧ next_kept n m)|].
  { split; [done|by apply next_kept_eq]. }
  intros ? m [Hm Hk]. apply runs_when; [intros _; by eapply runs_becomeLeader|done].
Qed.

(** *** The receiver of entries and snapshots *)

Lemma conflictScan_total l b have fuel first :
  log_wf l → baseIndex l = Some b → first < b + lenN l → ∃ f, conflictScan l b have fuel first = Some f.
Proof.
  intros Hwf Hb. destruct (log_wf_range l Hwf b Hb). revert first.
  induction fuel as [|fuel IH]; intros first Hf; cbn [conflictScan]; [by eexists|].
  rewrite u64_add_small by lia. destruct (N.ltb_spec (b + 1) first); [|by eexists].
  rewrite u64_sub_small by lia.
  destruct (termAt_in_range l Hwf b (first - 1) Hb) as (e & _ & _ & ->); [lia|lia|]. cbn [mbind option_bind].
  destruct (_ =? _); [apply IH; lia|by eexists].
Qed.

Lemma runs_consistencyCheck n args reply b :
  sane n b → runs n (consistencyCheck args reply) (λ _ m, m = n).
Proof.
  intros Hs. pose proof (sane_last n b Hs) as Hl. destruct (Hs) as (Hwf & Hb & _).
  apply runs_get. eapply runs_index; [exact Hb|]. eapply runs_index; [exact Hl|].
  destruct (N.ltb_spec (b + lenN (log n) - 1) (AEA_PrevLogIndex args)) as [|Hle]; [by apply runs_ret|].
  destruct (log_wf_range _ Hwf b Hb).
  destruct (N.leb_spec b (AEA_PrevLogIndex args)) as [Hge|]; [|by apply runs_ret].
  destruct (sane_term n b (AEA_PrevLogIndex args) Hs) as [t Ht]; [lia..|]. eapply runs_index; [exact Ht|].
  destruct (negb _); [|by apply runs_ret].
  destruct (conflictScan_total (log n) b t (N.to_nat (AEA_PrevLogIndex args - (b +w 1))) (AEA_PrevLogIndex args) Hwf Hb) as [f Hf]; [lia|].
  eapply runs_index; [exact Hf|]. by apply runs_ret.
Qed.

Lemma runs_appendLog n es :
  runs n (appendLogLocked es) (λ _ m, m = n <| log := log n ++ es |>).
Proof.
  apply runs_get. eapply runs_bind with (R := λ _ m, m = n).
  - apply runs_when; [intros _; apply runs_must; [store_error|done]|done].
  - intros ? m ->. by apply runs_modify.
Qed.

Lemma runs_truncateLog n from b :
  sane n b → b ≤ from → from ≤ b + lenN (log n) →
  runs n (truncateLogLocked from) (λ _ m, state m = state n).
Proof.
  intros (Hwf & Hb & _) ? ?. apply runs_get. eapply runs_bind with (R := λ _ m, m = n).
  - apply runs_when; [intros _; apply runs_must; [store_error|done]|done].
  - intros ? m ->. eapply runs_index; [by apply truncated_in_range|]. by apply runs_modify.
Qed.

Lemma runs_appendWalk n es b :
  W "Leader Completeness violated" → sane n b → runs n (appendWalk b es) (λ _ m, state m = state n).
Proof.
  intros HLC Hs. pose proof (sane_last n b Hs) as Hl. destruct (Hs) as (Hwf & Hb & _).
  destruct (log_wf_range _ Hwf b Hb). induction es as [|e es IH]; simpl; [by apply (runs_ret _ n tt)|].
  destruct (N.leb_spec (Index e) b); [done|]. apply runs_get. eapply runs_index; [exact Hl|].
  assert (∀ m, state m = state n → runs m (appendLogLocked (e :: es)) (λ _ m', state m' = state n)) as Happ.
  { intros m Hm. eapply runs_weaken; [apply runs_appendLog|]. by intros ? m' ->. }
  destruct (N.leb_spec (Index e) (b + lenN (log n) - 1)); [|by apply Happ].
  destruct (sane_term n b (Index e) Hs) as [t Ht]; [lia..|]. eapply runs_index; [exact Ht|].
  destruct (_ =? _); [done|]. destruct (_ <=? _); [by apply runs_panic|].
  eapply runs_bind; [apply (runs_truncateLog n (Index e) b Hs); lia|]. intros ? m Hm. by apply Happ.
Qed.

Lemma runs_HandleAppendEntries n args b :
  W "Leader Completeness violated" → sane n b → runs n (HandleAppendEntries args) (λ _ m, next_kept n m).
Proof.
  intros HLC Hs. apply runs_get. destruct (stopped n); [by apply runs_ret|].
  eapply runs_bind; [apply runs_adopt|]. intros ? m (Hm & _ & Hnf).
  assert (next_kept n m) as Hk by (destruct Hnf as [->|Hf]; [done|apply next_kept_deposed; congruence]).
  apply runs_get. destruct (_ <? _); [by apply runs_ret|].
  eapply runs_bind; [apply runs_acceptLeader|]. intros ? m1 [Hm1 Hf1].
  pose proof (sane_same _ _ b Hm1 (sane_same _ _ b Hm Hs)) as Hs1.
  assert (∀ m', state m' = Follower → next_kept n m') as Hfo by (intros m' ?; apply next_kept_deposed; congruence).
  eapply runs_bind; [by apply (runs_consistencyCheck m1 _ _ b)|]. intros r m2 ->.
  destruct r as [r|]; [apply runs_ret; auto|]. apply runs_get. eapply runs_index; [apply Hs1|].
  eapply runs_bind; [by apply runs_appendWalk|]. intros ? m3 Hf3. rewrite Hf1 in Hf3.
  eapply runs_bind with (R := λ _ m, state m = Follower); [|intros ? m4 ?; apply runs_ret; auto].
  apply runs_get, runs_when; [intros _|done]. cbv zeta. apply runs_when; [intros _|done].
  eapply runs_bind; [by apply runs_modify with (Q := λ _ m, state m = Follower)|]. intros ? m4 ?. by apply runs_emit.
Qed.

Lemma retainedSuffix_total l b i t :
  log_wf l → baseIndex l = Some b → ∃ sfx, retainedSuffix l i t = Some sfx.
Proof.
  intros Hwf Hb. destruct (log_wf_range l Hwf b Hb). unfold retainedSuffix.
  rewrite (log_wf_last l Hwf b Hb), Hb. cbn [mbind option_bind].
  destruct (N.leb_spec i (b + lenN l - 1)); [|by eexists]. destruct (N.leb_spec b i); [|by eexists]. cbn [andb].
  destruct (termAt_in_range l Hwf b i Hb) as (e & _ & _ & ->); [lia..|]. cbn [mbind option_bind].
  destruct (_ =? _); [|by eexists]. rewrite u64_add_small by lia.
  eexists. apply (entriesFrom_in_range l Hwf b); [done|lia|lia].
Qed.

Lemma runs_HandleInstallSnapshot n args b :
  sane n b → runs n (HandleInstallSnapshot args) (λ _ m, next_kept n m).
Proof.
  intros Hs. apply runs_get. destruct (stopped n); [by apply runs_ret|].
  eapply runs_bind; [apply runs_adopt|]. intros ? m (Hm & _ & Hnf).
  assert (next_kept n m) as Hk by (destruct Hnf as [->|Hf]; [done|apply next_kept_deposed; congruence]).
  apply runs_get. destruct (_ <? _); [by apply runs_ret|].
  eapply runs_bind; [apply runs_acceptLeader|]. intros ? m1 [Hm1 Hf1]. apply runs_get.
  assert (∀ m', state m' = Follower → next_kept n m') as Hfo by (intros m' ?; apply next_kept_deposed; congruence).
  destruct (_ <=? _); [apply runs_ret; auto|].
  destruct (sane_same _ _ b Hm1 (sane_same _ _ b Hm Hs)) as (Hwf & Hb & _).
  destruct (retainedSuffix_total (log m1) b (ISA_LastIncludedIndex args) (ISA_LastIncludedTerm args) Hwf Hb) as [sfx Hsfx].
  eapply runs_index; [exact Hsfx|]. eapply runs_bind with (R := λ _ m, m = m1).
  { apply runs_when; [intros _; apply runs_must; [store_error|done]|done]. }
  intros ? m2 ->. eapply runs_bind with (R := λ _ m, m = m1).
  { apply runs_when; [intros _; apply runs_must; [store_error|done]|done]. }
  intros ? m3 ->. eapply runs_bind; [by apply runs_modify with (Q := λ _ m, state m = Follower)|].
  intros ? m4 ?. eapply runs_bind; [by apply runs_emit with (Q := λ _ m, state m = Follower)|].
  intros ? m5 ?. apply runs_ret. auto.
Qed.

(** *** The leader *)

Lemma runs_advanceCommit n b : sane n b →
  runs n advanceCommitIndexLocked (λ _ m, ∃ k, m = n <| commitIndex := k |>).
Proof.
  intros Hs. pose proof (sane_last n b Hs) as Hl. destruct (Hs) as (Hwf & Hb & Hci & _).
  destruct (log_wf_range _ Hwf b Hb). assert (∃ k, n = n <| commitIndex := k |>) as Hself.
  { exists (commitIndex n). by destruct n. }
  apply runs_get. destruct (negb _); [by apply runs_ret|]. eapply runs_index; [exact Hl|].
  destruct (commitScan_total (log n) b (commitIndex n) (currentTerm n) (peers n) (matchIndex n)
    (N.to_nat (b + lenN (log n) - 1 - commitIndex n)) (b + lenN (log n) - 1) Hwf Hb Hci) as [r Hr]; [lia|].
  eapply runs_index; [exact Hr|]. destruct r as [k|]; [|by apply runs_ret].
  eapply runs_bind; [apply runs_modify with (Q := λ _ m, ∃ k, m = n <| commitIndex := k |>); by eexists|].
  intros ? m Hm. by apply runs_emit.
Qed.

Lemma runs_Propose n cmd b :
  sane n b → b + lenN (log n) + 1 < u64_size → runs n (Propose cmd) (λ _ m, next_kept n m).
Proof.
  intros Hs Hr. pose proof (sane_last n b Hs) as Hl. destruct (Hs) as (Hwf & Hb & Hci & Hci').
  destruct (log_wf_range _ Hwf b Hb). apply runs_get. destruct (negb _); [by apply runs_ret|].
  eapply runs_index; [exact Hl|]. cbv zeta. rewrite u64_add_small by lia.
  set (en := mkEntry (currentTerm n) (b + lenN (log n) - 1 + 1) cmd).
  eapply runs_bind; [apply runs_appendLog|]. intros ? m ->.
  assert (sane (n <| log := log n ++ [en] |>) b) as Hs1.
  { split; [|split; [|split]]; simpl; [| |done|].
    - eapply log_wf_app; [done|exact Hb|split; [simpl; lia|done]|]. unfold lenN at 2. simpl. lia.
    - destruct (log n); [done|exact Hb].
    - rewrite lenN_app. lia. }
  eapply runs_bind; [by apply (runs_advanceCommit _ b)|]. intros ? m (k & ->).
  eapply runs_bind; [apply runs_modify with (Q := λ _ m, next_kept n m); by apply next_kept_eq|].
  intros ? m Hm. by apply runs_ret.
Qed.

Lemma outboundFor_total n b term q :
  sane n b → next_ok n (default 0 (nextIndex n !! q)) → ∃ x, outboundFor n b term q = Some x.
Proof.
  intros Hs Hk. unfold next_ok in Hk. rewrite (sane_last n b Hs) in Hk. simpl in Hk.
  destruct (Hs) as (Hwf & Hb & _). destruct (log_wf_range _ Hwf b Hb). unfold outboundFor.
  destruct (N.leb_spec (default 0 (nextIndex n !! q)) b); [by eexists|].
  rewrite u64_sub_small by lia.
  destruct (sane_term n b (default 0 (nextIndex n !! q) - 1) Hs) as [t ->]; [lia..|]. cbn [mbind option_bind].
  rewrite (entriesFrom_in_range _ Hwf b) by (done || lia). by eexists.
Qed.

Lemma runs_replicationRound n term b :
  sane n b → (state n = Leader → ∀ q k, nextIndex n !! q = Some k → next_ok n k) →
  runs n (replicationRound term) (λ _ m, next_kept n m).
Proof.
  intros Hs Hnext. apply runs_get. destruct (bool_decide_reflect (state n = Leader)) as [Hl|]; simpl;
    [|by apply runs_ret]. destruct (negb _); [by apply runs_ret|].
  eapply runs_index; [apply Hs|].
  assert (∃ xs, mapM (outboundFor n b term) (peers n) = Some xs) as [xs Hxs].
  { apply mapM_is_Some. apply Forall_forall. intros q _. destruct (outboundFor_total n b term q Hs) as [x Hx]; [|by exists x].
    destruct (nextIndex n !! q) as [k|] eqn:Hq; simpl; [by eapply Hnext|]. unfold next_ok. lia. }
  eapply runs_index; [exact Hxs|]. eapply runs_bind; [apply runs_for_each; intros x; by apply runs_emit|].
  intros ? m ->. by apply runs_ret.
Qed.

(** A reply moves the nextIndex of one peer. *)
Lemma next_kept_insert n m q k :
  state m = state n → currentTerm m = currentTerm n → nextIndex m = <[q := k]> (nextIndex n) → next_ok m k →
  next_kept n m.
Proof.
  intros Hs Ht Hn Hk Hl q' k' Hq. rewrite Hn in Hq.
  apply lookup_insert_Some in Hq as [[-> ->]|[_ Hq]]; [by right|left]. by rewrite <-Hs.
Qed.

Lemma runs_appendReply n peer term args reply b :
  sane n b → (state n = Leader → ∀ q k, nextIndex n !! q = Some k → next_ok n k) →
  (state n = Leader → currentTerm n = term →
   AEA_PrevLogIndex args + lenN (AEA_Entries args) < b + lenN (log n)) →
  runs n (handleAppendEntriesReply peer term args reply) (λ _ m, next_kept n m).
Proof.
  intros Hs Hnext Hmatch. pose proof (sane_last n b Hs) as Hl. destruct (Hs) as (Hwf & Hb & Hci & Hci').
  destruct (log_wf_range _ Hwf b Hb). apply runs_get. destruct (stopped n); [by apply runs_ret|].
  destruct (_ <? _).
  { eapply runs_weaken; [apply runs_becomeFollower|]. intros ? m (_ & Hf & _). apply next_kept_deposed. congruence. }
  destruct (bool_decide_reflect (state n = Leader)) as [Hlead|]; simpl; [|by apply runs_ret].
  destruct (N.eqb_spec (currentTerm n) term) as [Ht|]; simpl; [|by apply runs_ret].
  specialize (Hmatch Hlead Ht). destruct (AER_Success reply).
  - apply runs_when; [intros _|done]. rewrite (u64_add_small (AEA_PrevLogIndex args)) by lia.
    rewrite u64_add_small by lia.
    apply runs_set. set (m := n <| matchIndex := _ |> <| nextIndex := _ |>).
    assert (next_kept n m) as Hk.
    { eapply next_kept_insert; try done. unfold next_ok. simpl. rewrite Hl. simpl. lia. }
    eapply runs_weaken; [by apply (runs_advanceCommit m b)|]. by intros ? m' (k & ->).
  - eapply runs_bind with (R := λ _ m, next_kept n m).
    + apply runs_when; [intros Hlt%N.ltb_lt|done]. apply runs_modify. eapply next_kept_insert; try done.
      destruct (nextIndex n !! peer) as [k|] eqn:Hq; simpl in Hlt; [|lia].
      specialize (Hnext Hlead peer k Hq). unfold next_ok in *. simpl. lia.
    + intros ? m Hm. by apply runs_modify.
Qed.

Lemma runs_snapshotReply n peer term args reply b :
  sane n b →
  (state n = Leader → currentTerm n = term → ISA_LastIncludedIndex args < b + lenN (log n)) →
  runs n (handleInstallSnapshotReply peer term args reply) (λ _ m, next_kept n m).
Proof.
  intros Hs Hmatch. pose proof (sane_last n b Hs) as Hl. destruct (Hs) as (Hwf & Hb & Hci & Hci').
  destruct (log_wf_range _ Hwf b Hb). apply runs_get. destruct (stopped n); [by apply runs_ret|].
  destruct (_ <? _).
  { eapply runs_weaken; [apply runs_becomeFollower|]. intros ? m (_ & Hf & _). apply next_kept_deposed. congruence. }
  destruct (bool_decide_reflect (state n = Leader)) as [Hlead|]; simpl; [|by apply runs_ret].
  destruct (N.eqb_spec (currentTerm n) term) as [Ht|]; simpl; [|by apply runs_ret].
  specialize (Hmatch Hlead Ht). apply runs_when; [intros _|done]. apply runs_modify.
  eapply next_kept_insert; try done. unfold next_ok. simpl. rewrite Hl, u64_add_small by lia. simpl. lia.
Qed.

Lemma runs_compactLog n idx t b :
  sane n b → b < idx → idx < b + lenN (log n) →
  runs n (compactLogLocked idx t) (λ _ m, ∃ l, m = n <| log := l |>).
Proof.
  intros Hs Hb Hl. destruct (Hs) as (Hwf & Hbase & _). destruct (log_wf_range _ Hwf b Hbase).
  apply runs_get. eapply runs_index; [exact Hbase|].
  rewrite (proj2 (N.leb_gt _ _)) by done. eapply runs_index; [by apply sane_last|].
  assert (∀ sfx, runs n (when (HasLogStore (cfg n)) (must "compacting log" (Compact sfx)) ;;
    modify (λ n, n <| log := rebased idx t sfx |>)) (λ _ m, ∃ l, m = n <| log := l |>)) as Htail.
  { intros sfx. eapply runs_bind with (R := λ _ m, m = n).
    - apply runs_when; [intros _; apply runs_must; [store_error|done]|done].
    - intros ? m ->. apply runs_modify. by eexists. }
  destruct (_ <? _).
  - rewrite u64_add_small by lia. rewrite (entriesFrom_in_range _ Hwf b) by (done || lia). apply Htail.
  - apply Htail.
Qed.

Lemma runs_sendSnapshot n peer term :
  HasSnapshotStore (cfg n) = true → runs n (sendSnapshot peer term) (λ _ m, next_kept n m).
Proof.
  intros Hs. apply runs_get. rewrite Hs. simpl. eapply runs_bind; [by apply runs_try with (Q := λ _ m, m = n)|].
  intros r m ->. destruct r as [|[snap|]]; [by apply runs_ret|by apply runs_emit|by apply runs_ret].
Qed.
End bounds.

(** ** All sections of a node in a reachable cluster *)

(** The applier finished a batch below a boundary that a received snapshot has
    moved meanwhile. *)
Definition outrun {SM} (n : RaftNode SM) : Prop :=
  ∃ k b, applier n = ApApplying [] k ∧ baseIndex (log n) = Some b ∧ lastApplied n + k < b.

(** The messages section [act] of node [n] may panic with. *)
Definition explained {SM} (n : RaftNode SM) (act : Action) (w : string) : Prop :=
  w ∈ storeErrors ∨
  match act with
  | AStart => True
  | AAppendEntries _ _ => w = "Leader Completeness violated"
  | AApplier => w = "serializing state machine snapshot" ∨ (w = "index out of range" ∧ outrun n)
  | _ => False
  end.

Section cluster_bounds.
Context {D SM : Type} `{!Storage D} `{!StateMachine SM} `{!StateMachineSpec SM} `{!StateStoreSpec D} `{!LogStoreSpec D}.
Context (members : list string).
Implicit Types (s : PState) (n m : RaftNode SM).

Section node.
Context s (i : string) n (HI : PInv (isQ members) s) (HR : ranged s) (Hc : node_core members s i n).

Let b := N.of_nat (pfloor (pn s i)).
Let len := N.of_nat (length (plog (pn s i))).

Lemma core_shaped : shaped (pn s i).
Proof. exact (node_shaped members s i HI HR). Qed.

Lemma core_sane : sane n b ∧ b + lenN (log n) = len + 1.
Proof.
  pose proof core_shaped as Hsh. destruct (Hsh) as (Hf & _ & Hr).
  destruct (nc_commit _ _ _ _ Hc) as (Hci1 & Hci2 & _). unfold sane.
  rewrite (nc_log _ _ _ _ Hc), (memlog_len _ Hsh). unfold b, len.
  split; [|lia]. split; [by apply memlog_wf|]. split; [done|]. lia.
Qed.

Local Abbreviation W := (explained n AApplier).
Local Abbreviation runs := (runs (D := D) (SM := SM) W n).

Lemma HWa w : w ∈ storeErrors → W w.
Proof. by left. Qed.

Lemma runs_applierWake :
  applier n = ApWaiting → runs applierWake (λ _ m, next_kept n m).
Proof.
  intros Hap. pose proof core_shaped as Hsh. destruct (Hsh) as (Hf & _ & Hr). destruct core_sane as [Hs Hlen].
  destruct (nc_commit _ _ _ _ Hc) as (Hci1 & Hci2 & _). destruct (nc_applying _ _ _ _ Hc) as (Hla & _).
  apply runs_get. destruct (pendingSnapshot n) as [sn|] eqn:Hp.
  - destruct (stopped n); [apply runs_modify; by apply next_kept_eq|]. apply runs_set.
    apply runs_when; [intros _; apply runs_modify|intros _]; by apply next_kept_eq.
  - destruct (negb _ && _); [by apply runs_ret, next_kept_refl|].
    destruct (stopped n); [apply runs_modify; by apply next_kept_eq|].
    assert (b ≤ lastApplied n) as Hb by (by destruct (nc_covered _ _ _ _ Hc) as [?|(? & [?|?] & ?)]; [|congruence..]).
    rewrite (nc_log _ _ _ _ Hc), u64_add_small by lia.
    eapply runs_index; [apply memlog_entriesFrom; [done|done|lia]|]. rewrite u64_sub_small by lia.
    eapply runs_index; [apply slice_to_le; unfold lenN; rewrite length_drop; lia|].
    apply runs_modify. by apply next_kept_eq.
Qed.

(** The batch is done: the one access that can be out of range. *)
Lemma runs_batchDone k :
  applier n = ApApplying [] k → initialSnapshotData n = None →
  runs (modify (λ n, n <| lastApplied := lastApplied n +w k |> <| applier := ApWaiting |>) ;;
        maybeSnapshotLocked) (λ _ m, next_kept n m).
Proof.
  intros Hap Hini. destruct core_sane as [Hs Hlen]. pose proof core_shaped as (Hf & _ & Hr).
  destruct (nc_commit _ _ _ _ Hc) as (Hci1 & Hci2 & _).
  destruct (nc_applying _ _ _ _ Hc) as (Hla & _ & Hrep & _). rewrite Hini in Hrep. unfold applier_rep in Hrep.
  rewrite Hap in Hrep. destruct Hrep as (Hk & _ & Hsm & _).
  assert (lastApplied n +w k = lastApplied n + k) as Hw by (apply u64_add_small; lia).
  apply runs_set, runs_get. simpl. rewrite Hsm, Hw.
  destruct (_ || _); [apply runs_ret; by apply next_kept_eq|]. eapply runs_index; [apply Hs|].
  destruct (_ <? _); [apply runs_ret; by apply next_kept_eq|].
  destruct (decide (lastApplied n + k < b)) as [Hlt|Hge].
  - destruct (Hs) as (Hwf & Hb & _). rewrite (termAt_below _ Hwf b) by done. apply runs_panic.
    right. right. split; [done|]. by exists k, b.
  - destruct (sane_term n b (lastApplied n + k) Hs) as [t Ht]; [lia..|]. eapply runs_index; [exact Ht|].
    apply runs_modify. by apply next_kept_eq.
Qed.

Lemma runs_finishSnapshot idx t :
  applier n = ApSnapshotting idx t → initialSnapshotData n = None →
  runs (finishSnapshot idx t) (λ _ m, next_kept n m).
Proof.
  intros Hap Hini. destruct core_sane as [Hs Hlen]. destruct (nc_commit _ _ _ _ Hc) as (_ & Hci & _).
  destruct (nc_applying _ _ _ _ Hc) as (Hla & _ & Hrep & _). rewrite Hini in Hrep. unfold applier_rep in Hrep.
  rewrite Hap in Hrep. destruct Hrep as (-> & _ & Hsm). apply runs_get. rewrite Hsm.
  destruct (SMSnapshot _) as [err|data]; [apply runs_panic; right; by left|].
  apply runs_set. eapply runs_index; [apply Hs|].
  destruct (N.leb_spec (lastApplied n) b); [apply runs_ret; by apply next_kept_eq|].
  eapply runs_bind with (R := λ _ m, m = n <| applier := ApWaiting |>).
  { apply runs_must; [|done]. apply HWa, (bool_decide_unpack _). by vm_compute. }
  intros ? m ->. eapply runs_weaken; [apply (runs_compactLog W HWa _ _ _ b); [exact Hs|lia|simpl; lia]|].
  intros ? m (l & ->). by apply next_kept_eq.
Qed.

Lemma runs_applierStep : runs applierStep (λ _ m, next_kept n m).
Proof.
  apply runs_get. pose proof (nc_applying _ _ _ _ Hc) as Happ.
  destruct (applier n) as [| |sn|[|e todo] k|idx t] eqn:Hap; try (destruct (applying_running s n Happ) as [_ Hini]; [by rewrite Hap|]);
    [apply runs_ret; by apply next_kept_eq|by apply runs_applierWake| |by apply runs_batchDone| |by apply runs_finishSnapshot].
  - destruct Happ as (_ & _ & Hrep & _). rewrite Hini in Hrep. unfold applier_rep in Hrep. rewrite Hap in Hrep.
    destruct Hrep as (Hsm & _ & _ & Hdata). apply runs_get. rewrite Hsm.
    destruct (Snapshot_Restore _ _ Hdata) as [_ ->]. apply runs_modify. by apply next_kept_eq.
  - destruct Happ as (_ & _ & Hrep & _). rewrite Hini in Hrep. unfold applier_rep in Hrep. rewrite Hap in Hrep.
    destruct Hrep as (_ & _ & -> & _). destruct (Apply_total (take (N.to_nat (lastApplied n + k - lenN (e :: todo))) (cl s)) e) as [sm Hsm].
    unfold state_at. rewrite Hsm. apply (runs_bind _ _ _ _ (λ _ m, m = n)); [by apply runs_ret|].
    intros ? m ->. apply runs_modify. by apply next_kept_eq.
Qed.
End node.

Definition next_inv (c : Cluster D SM) : Prop :=
  ∀ i n, p_node (procs c i) = Some n → state n = Leader →
    ∀ q k, nextIndex n !! q = Some k → next_ok n k.

Context (cfgOf : string → Config) (d0 : string → D) (allow : RaftNode SM → Action → bool).
Context `{!Membership members cfgOf} (Hnames : ∀ i, i ∈ members → name_ok i = true).
Context (Hfits : ∀ n act, allow n act = true → admits n act = true).
Context (Hd0 : ∀ i, survives (d0 i)) (Hd0h : ∀ i, hard (d0 i) = zeroHardState).
Context (Hd0r : ∀ i, records (d0 i) = []) (Hd0s : ∀ i, snapOf (d0 i) = None).
Implicit Types (c : Cluster D SM).
Local Abbreviation reach := (reachable members cfgOf (genesis (SM := SM)) d0 allow).
Local Abbreviation Rel := (Rel members).
Local Abbreviation reach_rel := (reach_rel members cfgOf d0 allow Hnames Hfits Hd0 Hd0h Hd0r Hd0s).

(** A reply to a leader of the current term is about its log. *)
Lemma reply_in_log c s i n peer term args :
  Rel c s → p_node (procs c i) = Some n → (i, GoAppendEntries peer term args) ∈ sent c →
  state n = Leader → currentTerm n = term →
  AEA_PrevLogIndex args + lenN (AEA_Entries args) ≤ N.of_nat (length (plog (pn s i))).
Proof.
  intros HR Hn Hx Hl Ht. destruct (rel_msg members c s i _ HR Hx) as (_ & L & HL & Hlen & _).
  pose proof (leader_log members c s i n HR Hn Hl) as HL'.
  rewrite <-(nc_term _ _ _ _ (R_core _ _ _ _ HR i n Hn)), Ht, HL in HL'. injection HL' as <-. unfold lenN. lia.
Qed.

Lemma snapshot_in_log c s i n peer term args :
  Rel c s → p_node (procs c i) = Some n → (i, GoInstallSnapshot peer term args) ∈ sent c →
  state n = Leader → currentTerm n = term →
  ISA_LastIncludedIndex args ≤ N.of_nat (length (plog (pn s i))).
Proof.
  intros HR Hn Hx Hl Ht. destruct (rel_msg members c s i _ HR Hx) as (_ & _ & _ & (L & HL & Hs) & _).
  pose proof (leader_log members c s i n HR Hn Hl) as HL'.
  rewrite (nc_term _ _ _ _ (R_core _ _ _ _ HR i n Hn)) in Ht. rewrite Ht, HL in HL'. injection HL' as <-.
  destruct Hs as [[Hb Hag]|]; [|lia]. apply agree_sym in Hag. pose proof (agree_len _ _ _ Hag Hb). lia.
Qed.

Lemma action_runs c s i n act :
  Rel c s → in_range c → next_inv c → p_node (procs c i) = Some n → enabled c i n act →
  runs (explained n act) n (runAction act) (λ _ m, next_kept n m).
Proof.
  intros HR Hrange Hnext Hn Hen. pose proof (R_core _ _ _ _ HR i n Hn) as Hc.
  destruct (core_sane s i n (R_inv _ _ _ _ HR) (R_range _ _ _ _ HR) Hc) as [Hs Hlen].
  assert (∀ w, w ∈ storeErrors → explained n act w) as HW by (by left).
  destruct act; simpl in Hen |- *; try (apply runs_map).
  - eapply runs_bind with (R := λ _ m, next_kept n m).
    2: { intros [err|?] m Hm; [apply runs_panic; by right|by apply runs_ret]. }
    apply runs_get. destruct (negb _); [by apply runs_ret, next_kept_refl|].
    destruct (started n); [by apply runs_ret, next_kept_refl|].
    assert (∀ m, next_kept n m → runs (D := D) (explained n AStart) m launch (λ _ m', next_kept n m')) as Hlaunch.
    { intros m Hm. apply runs_set. eapply runs_bind; [apply runs_reset|]. intros ? m1 (ra & rt & ->). apply runs_set. eapply runs_bind; [by apply runs_emit with (Q := λ _ m, next_kept n m)|].
      intros ? m2 ?. eapply runs_bind; [by apply runs_emit with (Q := λ _ m, next_kept n m)|].
      intros ? m3 ?. by apply runs_ret. }
    destruct (initialSnapshotData n); [|by apply Hlaunch, next_kept_refl].
    destruct (stateMachine n); [|by apply runs_ret, next_kept_refl].
    destruct (Restore _ _); [by apply runs_ret, next_kept_refl|]. apply runs_set, Hlaunch. by apply next_kept_eq.
  - apply runs_get. destruct (stopped n); [by apply runs_ret, next_kept_refl|]. apply runs_set, runs_emit.
    by apply next_kept_eq.
  - by eapply runs_electionTick.
  - by eapply runs_HandleRequestVote.
  - by eapply runs_voteReply.
  - eapply runs_replicationRound; [done|]. exact (Hnext i n Hn).
  - apply runs_modify. by apply next_kept_eq.
  - eapply runs_HandleAppendEntries; [done|by right|done].
  - eapply runs_appendReply; [done|done|exact (Hnext i n Hn)|]. intros Hl Ht.
    pose proof (reply_in_log c s i n _ _ _ HR Hn (proj1 Hen) Hl Ht). lia.
  - apply runs_sendSnapshot, (nc_snapstore _ _ _ _ Hc).
  - by eapply runs_HandleInstallSnapshot.
  - eapply runs_snapshotReply; [done|done|]. intros Hl Ht.
    pose proof (snapshot_in_log c s i n _ _ _ HR Hn (proj1 Hen) Hl Ht). lia.
  - by eapply runs_applierStep; [apply HR|apply HR|].
  - eapply runs_Propose; [done|done|]. destruct Hrange as (Hrn & _). destruct (Hrn i n Hn) as [_ Hl].
    rewrite (sane_last n _ Hs) in Hl. simpl in Hl. lia.
Qed.

Lemma rel_last c s i n :
  Rel c s → p_node (procs c i) = Some n → lastLogIndex (log n) = Some (N.of_nat (length (plog (pn s i)))).
Proof.
  intros HR Hn. rewrite (nc_log _ _ _ _ (R_core _ _ _ _ HR i n Hn)).
  apply memlog_last. by apply (node_shaped members); apply HR.
Qed.

(** While a node leads a term its log does not get shorter. *)
Lemma leader_last_mono c c' s s' i n n' :
  Rel c s → Rel c' s' → grows s s' → p_node (procs c i) = Some n → p_node (procs c' i) = Some n' →
  state n = Leader → state n' = Leader → currentTerm n' = currentTerm n →
  default 0 (lastLogIndex (log n)) ≤ default 0 (lastLogIndex (log n')).
Proof.
  intros HR HR' Hg Hn Hn' Hl Hl' Ht.
  pose proof (R_core _ _ _ _ HR i n Hn) as Hc. pose proof (R_core _ _ _ _ HR' i n' Hn') as Hc'.
  pose proof (leader_log members c s i n HR Hn Hl) as HL. pose proof (leader_log members c' s' i n' HR' Hn' Hl') as HL'.
  rewrite (rel_last c s i n HR Hn), (rel_last c' s' i n' HR' Hn').
  simpl. rewrite <-(nc_term _ _ _ _ Hc') in HL'. rewrite Ht, (nc_term _ _ _ _ Hc) in HL'.
  destruct (grows_evolves _ _ Hg) as (Hll & _). destruct (Hll _ _ HL) as (L1 & HL1 & Hag).
  rewrite HL' in HL1. injection HL1 as <-. pose proof (agree_len _ _ _ Hag ltac:(done)). lia.
Qed.

Lemma next_inv_step c c' :
  reach c → in_range c → step members cfgOf genesis allow c c' → next_inv c → next_inv c'.
Proof.
  intros Hc Hrange Hstep Hinv. destruct (reach_rel c Hc) as (HE & s & HR).
  destruct (step_refines members cfgOf allow Hnames Hfits c c' s HR HE Hrange Hstep) as (s' & Hs & HR').
  pose proof (steps_facts members s s' (R_inv _ _ _ _ HR) Hs) as Hg.
  assert (∀ i (p : Proc D SM), procs c' = <[i := p]> (procs c) →
    (∀ n, p_node p = Some n → state n = Leader → ∀ q k, nextIndex n !! q = Some k → next_ok n k) → next_inv c') as Hset.
  { intros i p Hp Hi j n. rewrite Hp. destruct (decide (j = i)) as [->|].
    - rewrite fn_lookup_insert. apply Hi.
    - rewrite fn_lookup_insert_ne by done. apply Hinv. }
  destruct Hstep as [i n Hi Hd Hb|i d Hi Hd Hb|i n act e a x Hn Hen Hal Hrun|i n act e d Hn Hen Hal Hd|i n Hn];
    try (eapply (Hset i); [reflexivity|done]).
  - eapply (Hset i); [reflexivity|]. intros m [= <-] Hl. exfalso.
    destruct (boot_recovers members cfgOf genesis i _ Hi (inv_survives _ c HE i) _ (conj (inv_survives _ c HE i) eq_refl))
      as (_ & _ & Hrec). destruct (Hrec n Hb) as ((_ & _ & Hf & _) & _). congruence.
  - eapply (Hset i); [reflexivity|]. intros m [= <-] Hl q k Hq.
    pose proof (action_runs c s i n act HR Hrange Hinv Hn Hen e (mkCtx n (p_disk (procs c i)) [] []) eq_refl) as Hk.
    rewrite Hrun in Hk. destruct (Hk Hl q k Hq) as [(Hln & Ht & Hqn)|?]; [|done].
    pose proof (Hinv i n Hn Hln q k Hqn) as Hok. unfold next_ok in *.
    pose proof (leader_last_mono c _ s s' i n (rn x) HR HR' Hg Hn ltac:(simpl; by rewrite fn_lookup_insert) Hln Hl Ht). lia.
Qed.

Lemma reach_next c : reach c → next_inv c.
Proof.
  induction 1 as [|c c' Hc IH Hrange Hstep]; [done|]. by eapply next_inv_step.
Qed.

(** C13. What can panic: in a reachable cluster, a section of a live node that
    panics does so because a store call failed; or because it is Start, whose
    error main.go turns into an exit; or in the assertion of
    HandleAppendEntries; or in the applier, when the state machine cannot
    serialise itself, or when lastApplied is below the compaction boundary after
    a batch.  Every other index and slice expression is in range, every nil
    check and every Apply and Restore succeeds. *)
Theorem panics_explained c i n act e w x :
  reach c → in_range c → p_node (procs c i) = Some n → enabled c i n act →
  runAction act e (mkCtx n (p_disk (procs c i)) [] []) = Panic w x → explained n act w.
Proof.
  intros Hc Hrange Hn Hen Hrun. destruct (reach_rel c Hc) as (_ & s & HR).
  pose proof (action_runs c s i n act HR Hrange (reach_next c Hc) Hn Hen e (mkCtx n (p_disk (procs c i)) [] []) eq_refl) as Hk.
  by rewrite Hrun in Hk.
Qed.
End cluster_bounds.
