(* ===== verification/Total.v ===== *)
(** * Sections that return

    A program logic for total correctness: on a disk that works, a section
    returns, and [does] says with what answer, on what node and after starting
    which goroutines.  The rest are the sections of log replication and of an
    election, on both sides: the leader's round, the follower's answer, and what
    the leader makes of it; the timeout, the vote, and the win. *)

From S2P Require Import Prelude Types Effects Log Node Election Handlers Replication Hoare Contracts Terms Functional Cluster ElectionSafety Protocol ProtocolSafety Replay LogContract Abstraction Simulation SectionSim SnapshotSim LeaderSim Refinement Safety Invariants Bounds.

(** ** The logic *)

Section does.
Context {D SM : Type} (works : D → Prop).
Implicit Types (n m : RaftNode SM) (o : list Effect).

Definition does {A} n (s : M D SM A) (Q : A → RaftNode SM → list Effect → Prop) : Prop :=
  ∀ e c, rn c = n → works (disk c) →
    ∃ a c' o, s e c = Ret a c' ∧ works (disk c') ∧ out c' = out c ++ o ∧ Q a (rn c') o.

Lemma does_ret {A} n (a : A) (Q : A → RaftNode SM → list Effect → Prop) : Q a n [] → does n (mret a) Q.
Proof. intros H e c <- Hw. exists a, c, []. by rewrite app_nil_r. Qed.

Lemma does_weaken {A} n (s : M D SM A) (Q Q' : A → RaftNode SM → list Effect → Prop) :
  does n s Q → (∀ a m o, Q a m o → Q' a m o) → does n s Q'.
Proof. intros H HQ e c Hc Hw. destruct (H e c Hc Hw) as (a & c' & o & ? & ? & ? & ?). exists a, c', o. auto. Qed.

Lemma does_bind {A B} n (s : M D SM A) (k : A → M D SM B) R Q :
  does n s R → (∀ a m o, R a m o → does m (k a) (λ b m' o', Q b m' (o ++ o'))) → does n (s ≫= k) Q.
Proof.
  intros Hs Hk e c Hc Hw. destruct (Hs e c Hc Hw) as (a & c1 & o1 & Hr & Hw1 & Ho1 & HR).
  destruct (Hk a _ _ HR e c1 eq_refl Hw1) as (b & c2 & o2 & Hr2 & Hw2 & Ho2 & HQ).
  exists b, c2, (o1 ++ o2). unfold mbind, m_mbind, m_bind. rewrite Hr, Hr2, Ho2, Ho1, app_assoc. done.
Qed.

(** A part that starts no goroutine. *)
Definition silently {A} (R : A → RaftNode SM → Prop) : A → RaftNode SM → list Effect → Prop :=
  λ a m o, o = [] ∧ R a m.

Lemma does_seq {A B} n (s : M D SM A) (k : A → M D SM B) R Q :
  does n s (silently R) → (∀ a m, R a m → does m (k a) Q) → does n (s ≫= k) Q.
Proof. intros Hs Hk. eapply does_bind; [exact Hs|]. intros a m o [-> HR]. simpl. by apply Hk. Qed.

Lemma does_get {B} n (k : RaftNode SM → M D SM B) Q : does n (k n) Q → does n (get ≫= k) Q.
Proof. intros H e c Hc. unfold mbind, m_mbind, m_bind, get. rewrite Hc. by apply H. Qed.
Lemma does_ask {B} n (k : Env → M D SM B) Q : (∀ e, does n (k e) Q) → does n (ask ≫= k) Q.
Proof. intros H e c Hc. by apply H. Qed.
Lemma does_modify n f (Q : unit → RaftNode SM → list Effect → Prop) : Q tt (f n) [] → does n (modify f) Q.
Proof. intros H e c <- Hw. exists tt, (c <| rn := f (rn c) |>), []. by rewrite app_nil_r. Qed.
Lemma does_set {B} n f (k : unit → M D SM B) Q : does (f n) (k tt) Q → does n (modify f ≫= k) Q.
Proof. intros H e c <- Hw. exact (H e (c <| rn := f (rn c) |>) eq_refl Hw). Qed.
Lemma does_emit n x (Q : unit → RaftNode SM → list Effect → Prop) : Q tt n [x] → does n (emit x) Q.
Proof. intros H e c <- Hw. by exists tt, (c <| out := out c ++ [x] |>), [x]. Qed.
Lemma does_start {B} n x (k : unit → M D SM B) Q :
  does n (k tt) (λ b m o, Q b m (x :: o)) → does n (emit x ≫= k) Q.
Proof.
  intros H. eapply does_bind; [by apply does_emit with (Q := λ _ m o, m = n ∧ o = [x])|].
  by intros [] m o [-> ->].
Qed.
Lemma does_index {A B} n (v : option A) a (k : A → M D SM B) Q :
  v = Some a → does n (k a) Q → does n (index v ≫= k) Q.
Proof. intros -> H. exact H. Qed.
Lemma does_must {A} n what (op : Io D A) :
  goes_well works op → does n (must what op) (silently (λ _ m, m = n)).
Proof.
  intros Hop e c <- Hw. destruct (Hop _ Hw) as [[a Ha] Hw']. unfold must, try. cbv zeta. rewrite Ha.
  eexists _, _, []. split; [done|]. by rewrite app_nil_r.
Qed.
Lemma does_when n (b : bool) (s : M D SM unit) Q :
  (b = true → does n s Q) → (b = false → Q tt n []) → does n (when b s) Q.
Proof. destruct b; intros H1 H2; [by apply H1|]. by apply (does_ret n tt), H2. Qed.
Lemma does_emits n xs : does n (for_each emit xs) (λ _ m o, m = n ∧ o = xs).
Proof.
  induction xs as [|x xs IH]; simpl; [by apply (does_ret n tt)|].
  eapply does_bind; [by apply does_emit with (Q := λ _ m o, m = n ∧ o = [x])|]. intros ? m o [-> ->].
  eapply does_weaken; [exact IH|]. by intros ? m' o' [-> ->].
Qed.
Lemma does_emit_each {A} n (f : A → Effect) xs :
  does n (for_each (λ x, emit (f x)) xs) (λ _ m o, m = n ∧ o = f <$> xs).
Proof.
  induction xs as [|x xs IH]; simpl; [by apply (does_ret n tt)|].
  eapply does_bind; [by apply does_emit with (Q := λ _ m o, m = n ∧ o = [f x])|]. intros ? m o [-> ->].
  eapply does_weaken; [exact IH|]. by intros ? m' o' [-> ->].
Qed.
End does.

(** ** Sections of log replication *)

Section sections.
Context {D SM : Type} `{!Storage D} `{!StateMachine SM}.
Context (works : D → Prop) `{!Reliable D works}.
Implicit Types (n m : RaftNode SM) (o : list Effect).
Local Abbreviation does := (does (D := D) (SM := SM) works).

(** *** Terms and roles *)

Lemma does_persist n : does n persistLocked (silently (λ _ m, m = n)).
Proof. apply does_get, does_must, works_SaveHardState. Qed.

Lemma does_reset n : does n resetElectionTimerLocked (silently (λ _ m, timer_only n m)).
Proof. apply does_ask. intros e. apply does_get, does_modify. split; [done|]. by eexists _, _. Qed.

(** The node follows term [t], with its log as it was. *)
Definition followed n t m : Prop := same_log n m ∧ state m = Follower ∧ currentTerm m = t.

Lemma does_becomeFollower n t :
  currentTerm n ≤ t → does n (becomeFollowerLocked t) (silently (λ _, followed n t)).
Proof.
  intros Hle. apply does_get. eapply does_seq with (R := λ _ m, same_log n m ∧ currentTerm m = t).
  - apply does_when; [intros _|intros Hge%N.ltb_ge; split; [done|]; split; [by repeat split|lia]].
    apply does_set. eapply does_seq; [apply does_persist|]. intros ? m ->.
    eapply does_weaken; [apply does_reset|]. intros ? m ? [-> (ra & rt & ->)]. split; [done|]. by repeat split.
  - intros ? m [Hm Ht]. apply does_modify. split; [done|]. split; [exact Hm|done].
Qed.

Lemma does_adopt n t :
  currentTerm n ≤ t →
  does n (when (currentTerm n <? t) (becomeFollowerLocked t))
    (silently (λ _ m, same_log n m ∧ currentTerm m = t)).
Proof.
  intros Hle. apply does_when.
  - intros _. eapply does_weaken; [by apply does_becomeFollower|]. intros ? m ? [-> (? & _ & ?)]. done.
  - intros Hge%N.ltb_ge. split; [done|]. split; [by repeat split|lia].
Qed.

Lemma same_log_trans n m k : same_log n m → same_log m k → same_log n k.
Proof. unfold same_log. intuition congruence. Qed.

Lemma does_acceptLeader n t l :
  currentTerm n = t → does n (acceptLeader t l) (silently (λ _, followed n t)).
Proof.
  intros Ht. apply does_get. eapply does_seq with (R := λ _, followed n t).
  - apply does_when.
    + intros _. apply does_becomeFollower. lia.
    + intros Hf%negb_false_iff%bool_decide_eq_true. split; [done|]. by repeat split.
  - intros ? m (Hm & Hf & Hmt). apply does_set. eapply does_weaken; [apply does_reset|].
    intros ? k ? [-> (ra & rt & ->)]. split; [done|]. split; [exact Hm|done].
Qed.

(** *** The follower *)

(** The log has what the leader believes it has at [PrevLogIndex]. *)
Definition matches n (args : AppendEntriesArgs) : Prop :=
  AEA_PrevLogIndex args ≤ default 0 (lastLogIndex (log n)) ∧
  ∀ t, termAt (log n) (AEA_PrevLogIndex args) = Some t → t = AEA_PrevLogTerm args.

(** What a rejection says: the log is too short, or has that other term there. *)
Definition rejection n (args : AppendEntriesArgs) (r : AppendEntriesReply) : Prop :=
  1 ≤ AER_ConflictIndex r ∧ AER_ConflictIndex r ≤ AEA_PrevLogIndex args ∧
  (AER_ConflictTerm r = 0 ∨
   (termAt (log n) (AEA_PrevLogIndex args) = Some (AER_ConflictTerm r) ∧ AER_ConflictTerm r ≠ AEA_PrevLogTerm args)).

Lemma does_check n args reply b :
  sane n b → AEA_PrevLogIndex args < u64_size → AER_Success reply = false →
  does n (consistencyCheck args reply)
    (silently (λ r m, m = n ∧
       match r with
       | None => True
       | Some r => ¬ matches n args ∧ AER_Success r = false ∧ AER_Term r = AER_Term reply ∧
                   (1 ≤ AEA_PrevLogIndex args → rejection n args r)
       end)).
Proof.
  intros Hs Hp Hno. pose proof (sane_last n b Hs) as Hl. destruct (Hs) as (Hwf & Hb & _).
  destruct (log_wf_range _ Hwf b Hb) as [Hr Hlen]. unfold matches, rejection. rewrite Hl. simpl.
  apply does_get. eapply does_index; [exact Hb|]. eapply does_index; [exact Hl|].
  destruct (N.ltb_spec (b + lenN (log n) - 1) (AEA_PrevLogIndex args)) as [Hlt|Hle].
  { apply does_ret. split; [done|]. split; [done|]. simpl. rewrite u64_add_small by lia.
    split; [lia|]. split; [done|]. split; [done|]. intros _. split; [lia|]. split; [lia|by left]. }
  destruct (N.leb_spec b (AEA_PrevLogIndex args)) as [Hge|]; [|by apply does_ret].
  destruct (sane_term n b (AEA_PrevLogIndex args) Hs) as [t Ht]; [lia..|]. eapply does_index; [exact Ht|].
  destruct (N.eqb_spec t (AEA_PrevLogTerm args)) as [|Hne]; simpl; [by apply does_ret|].
  destruct (conflictScan_total (log n) b t (N.to_nat (AEA_PrevLogIndex args - (b +w 1))) (AEA_PrevLogIndex args) Hwf Hb) as [f Hf]; [lia|].
  eapply does_index; [exact Hf|]. apply does_ret. split; [done|]. split; [done|]. simpl.
  split; [intros [_ H]; by apply Hne, H|]. split; [done|]. split; [done|]. intros H1.
  destruct (conflictScan_bounds _ b _ _ _ _ ltac:(lia) H1 Hp Hf). auto.
Qed.

Lemma does_appendLog n es :
  does n (appendLogLocked es) (silently (λ _ m, m = n <| log := log n ++ es |>)).
Proof.
  apply does_get. eapply does_seq with (R := λ _ m, m = n).
  - apply does_when; [intros _; by apply does_must, works_AppendEntries|done].
  - intros ? m ->. by apply does_modify.
Qed.

Lemma does_truncateLog n from b :
  sane n b → b ≤ from → from ≤ b + lenN (log n) →
  does n (truncateLogLocked from) (silently (λ _ m, ∃ l, m = n <| log := l |>)).
Proof.
  intros (Hwf & Hb & _) ? ?. apply does_get. eapply does_seq with (R := λ _ m, m = n).
  - apply does_when; [intros _; by apply does_must, works_TruncateSuffix|done].
  - intros ? m ->. eapply does_index; [by apply truncated_in_range|]. apply does_modify. split; [done|]. by eexists.
Qed.

Lemma last_appended l e es p :
  consecutive p (e :: es) → lastLogIndex (l ++ e :: es) = Some (p + lenN es).
Proof.
  intros Hc. unfold lastLogIndex, lastEntry. rewrite last_app, last_cons.
  destruct (last es) as [x|] eqn:Hx.
  - simpl. f_equal. destruct Hc as [_ Hc]. rewrite last_lookup in Hx.
    rewrite (consecutive_lookup _ _ _ _ Hc Hx). destruct es; [done|]. rewrite lenN_cons. unfold lenN. simpl. lia.
  - apply last_None in Hx as ->. destruct Hc as [Hi _]. simpl. rewrite Hi. f_equal. unfold lenN. simpl. lia.
Qed.

(** Entries that do not contradict what the node has committed. *)
Definition acceptable n (b : N) (es : list LogEntry) : Prop :=
  ∀ e t, e ∈ es → b < Index e → Index e ≤ commitIndex n → termAt (log n) (Index e) = Some t → t = Term e.

Lemma does_appendWalk n es b p :
  sane n b → consecutive p es → acceptable n b es →
  does n (appendWalk b es)
    (silently (λ _ m, ∃ l, m = n <| log := l |> ∧
       default 0 (lastLogIndex l) ≤ default 0 (lastLogIndex (log n)) `max` (p + lenN es - 1))).
Proof.
  intros Hs. pose proof (sane_last n b Hs) as Hl. destruct (Hs) as (Hwf & Hb & _).
  destruct (log_wf_range _ Hwf b Hb). revert p. induction es as [|e es IH]; intros p Hc Hok; simpl.
  { apply (does_ret _ n tt). split; [done|]. exists (log n). split; [by destruct n|lia]. }
  assert (∀ m, (∃ l, m = n <| log := l |>) → does m (appendLogLocked (e :: es))
    (silently (λ _ m, ∃ l, m = n <| log := l |> ∧
       default 0 (lastLogIndex l) ≤ default 0 (lastLogIndex (log n)) `max` (p + lenN (e :: es) - 1)))) as Happ.
  { intros m (l & ->). eapply does_weaken; [apply does_appendLog|]. intros ? m ? [-> ->]. split; [done|].
    eexists. split; [reflexivity|]. simpl. rewrite (last_appended _ _ _ p Hc), lenN_cons. simpl. lia. }
  assert (does n (appendWalk b es) (silently (λ _ m, ∃ l, m = n <| log := l |> ∧
       default 0 (lastLogIndex l) ≤ default 0 (lastLogIndex (log n)) `max` (p + lenN (e :: es) - 1)))) as Hskip.
  { eapply does_weaken; [apply (IH (p + 1))|].
    - apply Hc.
    - intros x t Hx. apply Hok. by right.
    - intros ? m ? [-> (l & -> & Hle)]. split; [done|]. exists l. split; [done|]. rewrite lenN_cons. lia. }
  destruct (N.leb_spec (Index e) b); [done|]. apply does_get. eapply does_index; [exact Hl|].
  assert (∃ l, n = n <| log := l |>) as Hself by (exists (log n); by destruct n).
  destruct (N.leb_spec (Index e) (b + lenN (log n) - 1)); [|by apply Happ].
  destruct (sane_term n b (Index e) Hs) as [t Ht]; [lia..|]. eapply does_index; [exact Ht|].
  destruct (N.eqb_spec t (Term e)) as [|Hne]; [done|].
  destruct (N.leb_spec (Index e) (commitIndex n)) as [Hle|].
  { destruct Hne. apply (Hok e t); [by left|lia|done|done]. }
  eapply does_seq; [apply (does_truncateLog n (Index e) b Hs); lia|]. intros ? m Hm. by apply Happ.
Qed.
(** The node runs in term [t], and its log ends by [k]. *)
Definition runningAt (t k : N) m : Prop :=
  stopped m = false ∧ currentTerm m = t ∧ default 0 (lastLogIndex (log m)) ≤ k.

Definition signals (o : list Effect) : Prop := Forall (λ x, x = Signal) o.

Lemma does_followerCommit n args :
  does n (advanceFollowerCommit args) (λ _ m o, signals o ∧ ∃ k, m = n <| commitIndex := k |>).
Proof.
  assert (∃ k, n = n <| commitIndex := k |>) as Hself by (exists (commitIndex n); by destruct n).
  apply does_get, does_when; [intros _|by split; [constructor|]]. cbv zeta.
  apply does_when; [intros _|by split; [constructor|]]. apply does_set, does_emit.
  split; [by repeat constructor|]. by eexists.
Qed.

Lemma does_HandleAppendEntries n args b :
  stopped n = false → sane n b → currentTerm n ≤ AEA_Term args → AEA_PrevLogIndex args < u64_size →
  consecutive (AEA_PrevLogIndex args + 1) (AEA_Entries args) → acceptable n b (AEA_Entries args) →
  does n (HandleAppendEntries args) (λ r m o, signals o ∧ AER_Term r = AEA_Term args ∧
    runningAt (AEA_Term args)
      (default 0 (lastLogIndex (log n)) `max` (AEA_PrevLogIndex args + lenN (AEA_Entries args))) m ∧
    (AER_Success r = true ∨
     AER_Success r = false ∧ same_log n m ∧ ¬ matches n args ∧ (1 ≤ AEA_PrevLogIndex args → rejection n args r))).
Proof.
  intros Hrun Hs Hle Hp Hc Hok. apply does_get. rewrite Hrun. eapply does_seq; [by apply does_adopt|].
  intros ? m [Hm Hmt]. apply does_get. rewrite (proj2 (N.ltb_ge _ _)) by lia.
  eapply does_seq; [by apply does_acceptLeader|]. intros ? m1 (Hm1 & Hf & Ht1).
  pose proof (same_log_trans _ _ _ Hm Hm1) as Hm2. pose proof (sane_same n m1 b Hm2 Hs) as Hs1.
  pose proof Hm2 as (Hlog & Hci & _ & Hst).
  eapply does_seq; [by apply (does_check m1 _ _ b)|]. intros [r|] m' [-> Hr].
  - apply does_ret. destruct Hr as (Hno & Hfalse & Hrt & Hrej). split; [constructor|].
    split; [by rewrite Hrt, Hmt|]. split; [split; [congruence|split; [done|rewrite Hlog; lia]]|]. right.
    split; [done|]. split; [done|]. unfold matches, rejection in *. by rewrite Hlog in *.
  - apply does_get. eapply does_index; [apply Hs1|].
    eapply does_seq; [apply (does_appendWalk m1 _ b _ Hs1 Hc)|].
    { intros e t. rewrite Hlog, Hci. apply Hok. }
    intros ? m2 (l & -> & Hlast). eapply does_bind; [apply does_followerCommit|]. intros ? m3 o [Ho (k & ->)].
    apply does_ret. rewrite app_nil_r. split; [done|]. split; [by rewrite <-Hmt|].
    split; [|by left]. rewrite Hlog in Hlast. split; [by rewrite <-Hrun, <-Hst|]. split; [done|]. simpl. lia.
Qed.

(** The suffix a snapshot leaves ends where the log ended, or there is none. *)
Lemma retained_last l b i t sfx :
  log_wf l → baseIndex l = Some b → retainedSuffix l i t = Some sfx →
  default 0 (lastLogIndex (rebased i t sfx)) ≤ default 0 (lastLogIndex l) `max` i.
Proof.
  intros Hwf Hb. destruct (log_wf_range l Hwf b Hb). unfold retainedSuffix.
  rewrite (log_wf_last l Hwf b Hb), Hb. cbn [mbind option_bind].
  assert (default 0 (lastLogIndex (rebased i t [])) ≤ default 0 (Some (b + lenN l - 1)) `max` i) as Hnil
    by (simpl; lia).
  destruct (N.leb_spec i (b + lenN l - 1)); [|by intros [= <-]]. destruct (N.leb_spec b i); [|by intros [= <-]].
  cbn [andb]. destruct (termAt l i); [|done]. cbn [mbind option_bind]. destruct (_ =? t); [|by intros [= <-]].
  rewrite u64_add_small by lia. rewrite (entriesFrom_in_range l Hwf b) by (done || lia). intros [= <-].
  pose proof (log_wf_last l Hwf b Hb) as Hl. unfold lastLogIndex, lastEntry, rebased in *.
  set (k := N.to_nat (i + 1 - b)). pose proof (last_app (take k l) (drop k l)) as Hla.
  rewrite take_drop in Hla. rewrite Hla in Hl. rewrite last_cons.
  destruct (last (drop k l)); simpl in *; [injection Hl as ->; lia|lia].
Qed.

Lemma does_HandleInstallSnapshot n args b :
  stopped n = false → sane n b → currentTerm n ≤ ISA_Term args →
  ISA_LastIncludedIndex args < u64_size → ISA_LastIncludedTerm args < u64_size →
  does n (HandleInstallSnapshot args) (λ r m o, signals o ∧ ISR_Term r = ISA_Term args ∧
    runningAt (ISA_Term args) (default 0 (lastLogIndex (log n)) `max` ISA_LastIncludedIndex args) m ∧
    ISA_LastIncludedIndex args ≤ commitIndex m ∧
    (same_log n m ∨ commitIndex m = ISA_LastIncludedIndex args ∧
     ∃ sfx, log m = rebased (ISA_LastIncludedIndex args) (ISA_LastIncludedTerm args) sfx)).
Proof.
  intros Hrun Hs Hle Hi Ht. apply does_get. rewrite Hrun. eapply does_seq; [by apply does_adopt|].
  intros ? m [Hm Hmt]. apply does_get. rewrite (proj2 (N.ltb_ge _ _)) by lia.
  eapply does_seq; [by apply does_acceptLeader|]. intros ? m1 (Hm1 & Hf & Ht1). apply does_get.
  pose proof (same_log_trans _ _ _ Hm Hm1) as Hm2. pose proof (sane_same n m1 b Hm2 Hs) as (Hwf & Hb & _).
  pose proof Hm2 as (Hlog & Hci & _ & Hst).
  destruct (N.leb_spec (ISA_LastIncludedIndex args) (commitIndex m1)) as [Hge|Hlt].
  { apply does_ret. split; [constructor|]. split; [done|].
    split; [split; [congruence|split; [done|rewrite Hlog; lia]]|]. auto. }
  destruct (retainedSuffix_total (log m1) b (ISA_LastIncludedIndex args) (ISA_LastIncludedTerm args) Hwf Hb) as [sfx Hsfx].
  eapply does_index; [exact Hsfx|]. eapply does_seq with (R := λ _ m, m = m1).
  { apply does_when; [intros _; by apply does_must, works_SaveSnapshot|done]. }
  intros ? m2 ->. eapply does_seq with (R := λ _ m, m = m1).
  { apply does_when; [intros _; by apply does_must, works_Compact|done]. }
  intros ? m2 ->. apply does_set, does_start, does_ret. split; [by repeat constructor|]. split; [done|]. split; [|split; [simpl; lia|right; split; [done|by eexists]]].
  split; [by rewrite <-Hrun, <-Hst|]. split; [done|]. pose proof (retained_last _ _ _ _ _ Hwf Hb Hsfx) as Hl.
  rewrite Hlog in Hl. exact Hl.
Qed.

(** *** The leader *)

Lemma does_round n b :
  state n = Leader → sane n b → (∀ q, next_ok n (default 0 (nextIndex n !! q))) →
  does n (replicationRound (currentTerm n)) (λ _ m o, m = n ∧
    mapM (outboundFor n b (currentTerm n)) (peers n) = Some o).
Proof.
  intros Hl Hs Hnext. apply does_get. rewrite bool_decide_eq_true_2, N.eqb_refl by done. simpl.
  eapply does_index; [apply Hs|].
  assert (∃ xs, mapM (outboundFor n b (currentTerm n)) (peers n) = Some xs) as [xs Hxs].
  { apply mapM_is_Some, Forall_forall. intros q _. by apply outboundFor_total. }
  eapply does_index; [exact Hxs|]. eapply does_bind; [apply does_emits|]. intros ? m o [-> ->].
  apply does_ret. by rewrite app_nil_r.
Qed.

(** A log with one more entry at its end. *)
Lemma lastLogIndex_snoc l en : lastLogIndex (l ++ [en]) = Some (Index en).
Proof. unfold lastLogIndex, lastEntry. by rewrite last_snoc. Qed.

Lemma entryAt_snoc l b en :
  log_wf l → baseIndex l = Some b → b + lenN l < u64_size → entryAt (l ++ [en]) (b + lenN l) = Some en.
Proof.
  intros Hwf Hb Hr. unfold entryAt. replace (baseIndex (l ++ [en])) with (Some b) by (by destruct l). simpl.
  rewrite u64_sub_small, slice_get_lookup by lia. unfold lenN.
  rewrite lookup_app_r by lia. by replace (_ - _)%nat with 0%nat by lia.
Qed.

Lemma termAt_snoc l b en x v :
  log_wf l → baseIndex l = Some b → b + lenN l + 1 < u64_size → x < u64_size → termAt (l ++ [en]) x = Some v →
  b ≤ x ∧ ((x < b + lenN l ∧ termAt l x = Some v) ∨ (x = b + lenN l ∧ v = Term en)).
Proof.
  intros Hwf Hb Hr Hx. unfold termAt. replace (baseIndex (l ++ [en])) with (Some b) by (by destruct l). rewrite Hb.
  simpl. destruct (decide (x < b)).
  { rewrite u64_sub_wraps by lia. rewrite slice_get_ge; [done|]. rewrite lenN_app. unfold lenN at 2. simpl. lia. }
  rewrite u64_sub_small by lia. rewrite !slice_get_lookup. intros Hv. split; [lia|].
  destruct (decide (x - b < lenN l)); [left; rewrite lookup_app_l in Hv by (unfold lenN in *; lia); split; [lia|done]|right].
  rewrite lookup_app_r in Hv by (unfold lenN in *; lia).
  destruct (N.to_nat (x - b) - length l)%nat as [|k'] eqn:Hz; [|done]. unfold lenN in *.
  injection Hv as <-. split; [lia|done].
Qed.

(** An entry of the leader's own term keeps the terms in order. *)
Lemma termsUpTo_snoc l b ct en :
  log_wf l → baseIndex l = Some b → b + lenN l + 1 < u64_size → termsUpTo l ct → Term en = ct →
  termsUpTo (l ++ [en]) ct.
Proof.
  intros Hwf Hb Hr Hup Hen i k t u Hik Hk Ht Hu.
  destruct (termAt_snoc l b en i t Hwf Hb Hr ltac:(lia) Ht) as (_ & [[? Hi]|[-> ->]]);
    destruct (termAt_snoc l b en k u Hwf Hb Hr Hk Hu) as (_ & [[? Hk']|[-> ->]]); [|..|lia|lia].
  - by eapply (Hup i k).
  - destruct (Hup i i t t ltac:(done) ltac:(lia) Hi Hi). lia.
Qed.

(** The index the commit rule may stop at: nothing committable is left above. *)
Definition commitsTo n (k : N) : Prop :=
  commitIndex n ≤ k ∧ k ≤ default 0 (lastLogIndex (log n)) ∧
  ∀ i, i ≤ default 0 (lastLogIndex (log n)) → committable (log n) (currentTerm n) (peers n) (matchIndex n) i → i ≤ k.

Lemma does_advanceCommit n b :
  state n = Leader → sane n b → termsUpTo (log n) (currentTerm n) →
  does n advanceCommitIndexLocked (λ _ m o, signals o ∧ ∃ k, m = n <| commitIndex := k |> ∧ commitsTo n k).
Proof.
  intros Hlead Hs Hup. pose proof (sane_last n b Hs) as Hl. destruct (Hs) as (Hwf & Hb & Hci & Hci').
  destruct (log_wf_range _ Hwf b Hb). apply does_get. rewrite bool_decide_eq_true_2 by done. simpl.
  eapply does_index; [exact Hl|].
  destruct (commitScan_spec (log n) b (commitIndex n) (currentTerm n) (peers n) (matchIndex n)
    (N.to_nat (b + lenN (log n) - 1 - commitIndex n)) (b + lenN (log n) - 1)) as (r & Hr & Hspec); [done..|lia|done|].
  eapply does_index; [exact Hr|]. unfold commitsTo. rewrite Hl. simpl. destruct r as [k|].
  - apply does_set, does_emit. split; [by repeat constructor|]. exists k. split; [done|].
    destruct Hspec as (? & ? & _ & Hmax). split; [lia|]. split; [lia|]. intros i Hi Hcm.
    destruct (decide (i ≤ k)) as [|Hgt]; [done|]. destruct (Hmax i ltac:(lia) Hi Hcm).
  - apply does_ret. split; [constructor|]. exists (commitIndex n). split; [by destruct n|]. split; [lia|].
    split; [lia|]. intros i Hi Hcm. destruct (decide (i ≤ commitIndex n)) as [|Hgt]; [done|].
    destruct (Hspec i ltac:(lia) Hi Hcm).
Qed.

Lemma does_Propose n cmd b :
  let last := default 0 (lastLogIndex (log n)) in
  let n' := n <| log := log n ++ [mkEntry (currentTerm n) (last + 1) cmd] |> in
  state n = Leader → sane n b → termsUpTo (log n) (currentTerm n) → last + 2 < u64_size →
  does n (Propose cmd) (λ r m o, signals o ∧ r = inr (last + 1, currentTerm n) ∧
    ∃ k, m = n' <| commitIndex := k |> <| triggerCh := true |> ∧ commitsTo n' k).
Proof.
  intros last n' Hlead Hs Hup Hr. pose proof (sane_last n b Hs) as Hl. destruct (Hs) as (Hwf & Hb & Hci & Hci').
  destruct (log_wf_range _ Hwf b Hb). assert (last = b + lenN (log n) - 1) as Hlast by (unfold last; by rewrite Hl).
  apply does_get. rewrite bool_decide_eq_true_2 by done. simpl. eapply does_index; [exact Hl|]. cbv zeta.
  rewrite <-Hlast, u64_add_small by lia. eapply does_seq; [apply does_appendLog|]. intros ? m ->.
  assert (sane n' b) as Hs'.
  { split; [|split; [|split]]; simpl; [| |done|].
    - eapply log_wf_app; [done|exact Hb|split; [simpl; lia|done]|]. unfold lenN at 2. simpl. lia.
    - destruct (log n); [done|exact Hb].
    - rewrite lenN_app. lia. }
  eapply does_bind; [apply (does_advanceCommit n' b Hlead Hs')|].
  { apply (termsUpTo_snoc _ b); [done|done|lia|done|done]. }
  intros ? m o (Ho & k & -> & Hk). apply does_set, does_ret. rewrite app_nil_r. split; [done|]. split; [done|].
  by exists k.
Qed.

Lemma does_rejected n q args r :
  stopped n = false → state n = Leader → AER_Term r ≤ currentTerm n → AER_Success r = false →
  nextIndexAfterRejection (log n) (AEA_PrevLogIndex args) r < default 0 (nextIndex n !! q) →
  does n (handleAppendEntriesReply q (currentTerm n) args r) (silently (λ _ m,
    m = n <| nextIndex := <[q := nextIndexAfterRejection (log n) (AEA_PrevLogIndex args) r]> (nextIndex n) |>
          <| triggerCh := true |>)).
Proof.
  intros Hrun Hl Ht Hno Hlt. apply does_get. rewrite Hrun, (proj2 (N.ltb_ge _ _)) by lia.
  rewrite bool_decide_eq_true_2, N.eqb_refl by done. simpl. rewrite Hno.
  rewrite (proj2 (N.ltb_lt _ _)) by done. apply does_set. by apply does_modify.
Qed.

Lemma does_accepted n q args r b :
  let matched := AEA_PrevLogIndex args + lenN (AEA_Entries args) in
  let n' := n <| matchIndex := <[q := matched]> (matchIndex n) |> <| nextIndex := <[q := matched + 1]> (nextIndex n) |> in
  stopped n = false → state n = Leader → AER_Term r ≤ currentTerm n → AER_Success r = true →
  sane n b → termsUpTo (log n) (currentTerm n) → matched + 1 < u64_size →
  default 0 (matchIndex n !! q) < matched →
  does n (handleAppendEntriesReply q (currentTerm n) args r)
    (λ _ m o, signals o ∧ ∃ k, m = n' <| commitIndex := k |> ∧ commitsTo n' k).
Proof.
  intros matched n' Hrun Hl Ht Hyes Hs Hup Hr Hlt. apply does_get. rewrite Hrun, (proj2 (N.ltb_ge _ _)) by lia.
  rewrite bool_decide_eq_true_2, N.eqb_refl by done. simpl. rewrite Hyes.
  rewrite (u64_add_small (AEA_PrevLogIndex args)) by lia. fold matched. rewrite u64_add_small by lia.
  rewrite (proj2 (N.ltb_lt _ _)) by done. apply does_set. by apply (does_advanceCommit n' b).
Qed.

Lemma does_snapshotTaken n q args r :
  let lii := ISA_LastIncludedIndex args in
  stopped n = false → state n = Leader → ISR_Term r ≤ currentTerm n → lii + 1 < u64_size →
  default 0 (matchIndex n !! q) < lii →
  does n (handleInstallSnapshotReply q (currentTerm n) args r) (silently (λ _ m,
    m = n <| matchIndex := <[q := lii]> (matchIndex n) |> <| nextIndex := <[q := lii + 1]> (nextIndex n) |>)).
Proof.
  intros lii Hrun Hl Ht Hr Hlt. apply does_get. rewrite Hrun, (proj2 (N.ltb_ge _ _)) by lia.
  rewrite bool_decide_eq_true_2, N.eqb_refl by done. simpl. fold lii. rewrite u64_add_small by lia.
  rewrite (proj2 (N.ltb_lt _ _)) by done. by apply does_modify.
Qed.
(** *** Elections *)

(** The node as the leader of its term, and as a candidate of the next one. *)
Definition elected n : RaftNode SM :=
  n <| state := Leader |> <| leaderID := node_id n |>
    <| nextIndex := list_to_map ((λ p, (p, default 0 (lastLogIndex (log n)) + 1)) <$> peers n) |>
    <| matchIndex := list_to_map ((λ p, (p, 0)) <$> peers n) |>.

Definition candidacy n (ra rt : Z) : RaftNode SM :=
  n <| state := Candidate |> <| currentTerm := currentTerm n + 1 |> <| votedFor := node_id n |> <| leaderID := None_ |>
    <| electionResetAt := ra |> <| electionTimeout := rt |> <| votes := <[currentTerm n + 1 := 1]> (votes n) |>.

Lemma does_becomeLeader n b :
  sane n b → does n becomeLeaderLocked (λ _ m o, m = elected n ∧ o = [GoReplication (currentTerm n)]).
Proof.
  intros Hs. pose proof (sane_last n b Hs) as Hl. destruct (Hs) as (Hwf & Hb & _).
  destruct (log_wf_range _ Hwf b Hb). apply does_set, does_get. eapply does_index; [exact Hl|].
  rewrite u64_add_small by lia. apply does_set, does_emit. split; [|done]. unfold elected. by rewrite Hl.
Qed.

(** The request for votes of the next term. *)
Definition canvass n (lastTerm : N) : RequestVoteArgs :=
  mkRVArgs (currentTerm n + 1) (node_id n) (default 0 (lastLogIndex (log n))) lastTerm.

Lemma does_startElection n b t :
  sane n b → lastLogTerm (log n) = Some t → currentTerm n + 1 < u64_size →
  does n startElectionLocked (λ _ m o, ∃ ra rt, let n' := candidacy n ra rt in
    if quorum (peers n) <=? 1 then m = elected n' ∧ o = [GoReplication (currentTerm n + 1)]
    else m = n' ∧ o = (λ p, GoRequestVote p (canvass n t)) <$> peers n).
Proof.
  intros Hs Ht Hr. pose proof (sane_last n b Hs) as Hl. apply does_set. rewrite u64_add_small by lia.
  eapply does_seq; [apply does_persist|]. intros ? m ->. eapply does_seq; [apply does_reset|].
  intros ? m (ra & rt & ->). apply does_get. eapply does_index; [exact Hl|]. eapply does_index; [exact Ht|].
  cbv zeta. apply does_set. simpl. destruct (quorum (peers n) <=? 1).
  - eapply does_weaken; [by apply (does_becomeLeader _ b)|]. intros ? m o [-> ->]. by exists ra, rt.
  - eapply does_weaken; [apply does_emit_each|]. intros ? m o [-> ->]. exists ra, rt. split; [done|].
    unfold canvass. by rewrite Hl.
Qed.

(** A later term makes a follower that has not voted. *)
Lemma does_demote n t :
  currentTerm n < t →
  does n (becomeFollowerLocked t) (silently (λ _ m, followed n t m ∧ votedFor m = None_)).
Proof.
  intros Hlt. apply does_get. eapply does_seq with (R := λ _ m, same_log n m ∧ currentTerm m = t ∧ votedFor m = None_).
  - apply does_when; [intros _|intros ?%N.ltb_ge; lia].
    apply does_set. eapply does_seq; [apply does_persist|]. intros ? m ->.
    eapply does_weaken; [apply does_reset|]. intros ? m ? [-> (ra & rt & ->)]. split; [done|]. by repeat split.
  - intros ? m (Hm & Ht & Hv). apply does_modify. split; [done|]. split; [|done]. split; [exact Hm|done].
Qed.

Lemma does_vote n args b t :
  sane n b → stopped n = false → currentTerm n < RVA_Term args → lastLogTerm (log n) = Some t →
  upToDate (RVA_LastLogTerm args) (RVA_LastLogIndex args) t (default 0 (lastLogIndex (log n))) = true →
  does n (HandleRequestVote args)
    (λ r m o, o = [] ∧ r = mkRVReply (RVA_Term args) true ∧ same_log n m ∧ currentTerm m = RVA_Term args).
Proof.
  intros Hs Hst Hlt Ht Hup. pose proof (sane_last n b Hs) as Hl. apply does_get. rewrite Hst. simpl.
  eapply does_seq with (R := λ _ m, followed n (RVA_Term args) m ∧ votedFor m = None_).
  { apply does_when; [intros _; by apply does_demote|intros ?%N.ltb_ge; lia]. }
  intros ? m ((Hm & _ & Hmt) & Hv). apply does_get. rewrite Hmt, N.ltb_irrefl, (proj1 Hm).
  eapply does_index; [exact Ht|]. eapply does_index; [exact Hl|]. rewrite Hl in Hup. simpl in Hup. rewrite Hup, Hv.
  cbn [negb orb String.eqb None_]. apply does_set. eapply does_seq; [apply does_persist|]. intros ? k ->.
  eapply does_seq; [apply does_reset|]. intros ? k (ra & rt & ->). apply does_ret. by repeat split; try apply Hm.
Qed.

(** A vote is counted; the one that completes the majority makes the leader. *)
Lemma does_granted n r b :
  let t := currentTerm n in
  let v := default 0 (votes n !! t) + 1 in
  let n' := n <| votes := <[t := v]> (votes n) |> in
  sane n b → stopped n = false → state n = Candidate → RVR_Term r = t → RVR_VoteGranted r = true →
  does n (handleRequestVoteReply t r) (λ _ m o,
    if v =? quorum (peers n) then m = elected n' ∧ o = [GoReplication t] else m = n' ∧ o = []).
Proof.
  intros t v n' Hs Hst Hcand Hrt Hyes. apply does_get. rewrite Hst, Hrt. unfold t at 1 2 3.
  rewrite N.ltb_irrefl, Hcand, N.eqb_refl, Hyes. simpl. apply does_set. unfold when. fold t v n'.
  destruct (v =? quorum (peers n)); [|by apply (does_ret works n' tt)].
  eapply does_weaken; [by apply (does_becomeLeader n' b)|]. by intros ? m o [-> ->].
Qed.
End sections.
