(* ===== verification/Progress.v ===== *)
(** * Progress: a majority elects a leader, which replicates, commits and applies

    The safety theorems allow a cluster that does nothing.  Here is what it can
    do: from any reachable state, a leader and a majority of running followers
    on working disks have an execution of rounds, handlers and replies, of a
    length bounded by the logs, at the end of which a command proposed to the
    leader is committed.  The measure is nextIndex: a rejection lowers it, down
    to the compaction boundary, where a snapshot takes over.  Then the applier of
    the leader, and before it the election: of a majority that runs, the node with
    the most up-to-date log can win. *)

From S2P Require Import Prelude Types Effects Log Node Election Handlers Replication Hoare Contracts Terms Functional Cluster ElectionSafety Protocol ProtocolSafety Replay LogContract Abstraction Simulation SectionSim SnapshotSim LeaderSim Refinement Safety Invariants Bounds Total.

Section progress.
Context {D SM : Type} `{!Storage D} `{!StateMachine SM} `{!StateMachineSpec SM} `{!StateStoreSpec D} `{!LogStoreSpec D}.
Context (members : list string) (cfgOf : string → Config) (d0 : string → D).
Context `{!Membership members cfgOf} (Hnames : ∀ i, i ∈ members → name_ok i = true).
Context (Hd0 : ∀ i, survives (d0 i)) (Hd0h : ∀ i, hard (d0 i) = zeroHardState).
Context (Hd0r : ∀ i, records (d0 i) = []) (Hd0s : ∀ i, snapOf (d0 i) = None).
Context (works : D → Prop) `{!Reliable D works}.
Implicit Types (s : PState) (n j : RaftNode SM) (c : Cluster D SM).
Local Abbreviation reach := (reachable members cfgOf (genesis (SM := SM)) d0 admits).
Local Abbreviation later := (later (SM := SM) members cfgOf admits).
Local Abbreviation Rel := (Rel members).

Lemma progress_rel c : reach c → election_inv members c ∧ ∃ s, Rel c s.
Proof. by apply (Safety.reach_rel members cfgOf d0 admits Hnames (λ _ _ H, H) Hd0 Hd0h Hd0r Hd0s). Qed.

(** ** One step *)

Definition answer_term (a : Answer) : N :=
  match a with
  | VoteAnswer r => RVR_Term r
  | AppendAnswer r => AER_Term r
  | SnapshotAnswer r => ISR_Term r
  | NoAnswer | ProposeAnswer _ => 0
  end.

(** What a section may leave without leaving the range of uint64. *)
Definition small (a : Answer) n (o : list Effect) : Prop :=
  currentTerm n + 1 < u64_size ∧ default 0 (lastLogIndex (log n)) + 2 < u64_size ∧
  Forall (λ x, effect_term x < u64_size) o ∧ answer_term a < u64_size.

Lemma in_range_deliver c i act a x :
  in_range c → small a (rn x) (out x) → in_range (deliver c i act a x).
Proof.
  intros (Hn & Hs & Hv & Ha & Hi) (Ht & Hl & Ho & Hans). split; [|split; [|split; [|split]]]; simpl.
  - intros k m. destruct (decide (k = i)) as [->|].
    + rewrite fn_lookup_insert. by intros [= <-].
    + rewrite fn_lookup_insert_ne by done. apply Hn.
  - intros y [Hy|(z & -> & Hz)%list_elem_of_fmap]%elem_of_app; [by apply Hs|].
    rewrite Forall_forall in Ho. by apply Ho.
  - intros y. destruct act; try apply Hv. destruct a; try apply Hv.
    intros [->|?]%elem_of_cons; [done|by apply Hv].
  - intros y. destruct act; try apply Ha. destruct a; try apply Ha.
    intros [->|?]%elem_of_cons; [done|by apply Ha].
  - intros y. destruct act; try apply Hi. destruct a; try apply Hi.
    intros [->|?]%elem_of_cons; [done|by apply Hi].
Qed.

(** A section that returns, one of those [P] allows. *)
Definition acts (P : RaftNode SM → Action → Prop) c c' : Prop :=
  in_range c ∧ ∃ i n act e a x, P n act ∧ p_node (procs c i) = Some n ∧ enabled c i n act ∧ admits n act = true ∧
    runAction act e (mkCtx n (p_disk (procs c i)) [] []) = Ret a x ∧ c' = deliver c i act a x.

(** The sections the service above the cluster does not see, and the applier. *)
Definition silent n (act : Action) : Prop :=
  match act with APropose _ | AApplier => False | _ => True end.
Definition applying_only n (act : Action) : Prop :=
  act = AApplier ∧ ∀ i t, applier n ≠ ApSnapshotting i t.
Definition anything n (act : Action) : Prop := True.

(** The cluster got from [c] to [c'] by sections of [P] while only [l] did
    something. *)
Record goes P (l : list string) c c' : Prop := {
  go_acts : rtc (acts P) c c';
  go_reach : reach c';
  go_range : in_range c';
  go_sent y : y ∈ sent c → y ∈ sent c';
  go_others q : q ∉ l → procs c' q = procs c q
}.

Lemma go_later P l c c' : goes P l c c' → later c c'.
Proof.
  intros [Hacts _ _ _ _]. revert Hacts. apply rtc_subrel.
  intros c1 c2 (Hr & i & n & act & e & a & x & _ & Hn & Hen & Had & Hrun & ->). split; [done|]. by eapply step_act.
Qed.

Lemma goes_refl P l c : reach c → in_range c → goes P l c c.
Proof. by intros. Qed.

Lemma goes_trans P l c1 c2 c3 : goes P l c1 c2 → goes P l c2 c3 → goes P l c1 c3.
Proof.
  intros [Hl1 _ _ ? Ho1] [Hl2 ? ? ? Ho2]. split; try done; [by etrans|by auto|]. intros q Hq. by rewrite Ho2, Ho1.
Qed.

Lemma goes_weaken P l l' c c' : l ⊆ l' → goes P l c c' → goes P l' c c'.
Proof. intros Hl [? ? ? ? Ho]. split; try done. intros q Hq. apply Ho. by intros ?%Hl. Qed.

Lemma goes_impl P l c c' : goes P l c c' → goes anything l c c'.
Proof.
  intros [Hacts ? ? ? ?]. split; try done. revert Hacts. apply rtc_subrel.
  intros c1 c2 (? & i & n & act & e & a & x & _ & ?). split; [done|]. by exists i, n, act, e, a, x.
Qed.

Lemma step_returns (P : RaftNode SM → Action → Prop) c i n act e a x :
  P n act → reach c → in_range c → p_node (procs c i) = Some n → enabled c i n act → admits n act = true →
  runAction act e (mkCtx n (p_disk (procs c i)) [] []) = Ret a x → small a (rn x) (out x) →
  goes P [i] c (deliver c i act a x).
Proof.
  intros HP Hc Hr Hn Hen Had Hrun Hsm.
  assert (step members cfgOf genesis admits c (deliver c i act a x)) as Hstep by (by eapply step_act).
  split; [|by eapply reachable_step|by apply in_range_deliver|..].
  { apply rtc_once. split; [done|]. by exists i, n, act, e, a, x. }
  { intros y Hy. apply elem_of_app. by left. }
  intros q Hq. simpl. rewrite fn_lookup_insert_ne; [done|]. intros ->. apply Hq. by left.
Qed.

Lemma step_runs (P : RaftNode SM → Action → Prop) c i n act Q :
  P n act → reach c → in_range c → p_node (procs c i) = Some n → works (p_disk (procs c i)) → enabled c i n act →
  admits n act = true → does works n (runAction act) Q → (∀ a m o, Q a m o → small a m o) →
  ∃ a x, runAction act (mkEnv 0 0) (mkCtx n (p_disk (procs c i)) [] []) = Ret a x ∧
    goes P [i] c (deliver c i act a x) ∧ works (disk x) ∧ Q a (rn x) (out x).
Proof.
  intros HP Hc Hr Hn Hw Hen Had Hdoes Hsm.
  destruct (Hdoes (mkEnv 0 0) (mkCtx n (p_disk (procs c i)) [] []) eq_refl Hw) as (a & x & o & Hrun & Hw' & Ho & HQ).
  simpl in Ho. subst o. exists a, x. split; [done|]. split; [|done]. eapply step_returns; eauto.
Qed.

Lemma step_does (P : RaftNode SM → Action → Prop) c i n act Q :
  P n act → reach c → in_range c → p_node (procs c i) = Some n → works (p_disk (procs c i)) → enabled c i n act →
  admits n act = true → does works n (runAction act) Q → (∀ a m o, Q a m o → small a m o) →
  ∃ a x, goes P [i] c (deliver c i act a x) ∧ works (disk x) ∧ Q a (rn x) (out x).
Proof.
  intros HP Hc Hr Hn Hw Hen Had Hdoes Hsm.
  destruct (step_runs P c i n act Q HP Hc Hr Hn Hw Hen Had Hdoes Hsm) as (a & x & _ & ?). by exists a, x.
Qed.

(** ** A leader and a follower *)

(** What the follower has committed does not contradict the leader's log; Leader
    Completeness says when that is so. *)
Definition covers j n : Prop :=
  ∀ k t u, k ≤ commitIndex n → termAt (log j) k = Some t → termAt (log n) k = Some u → t = u.

(** A process that runs, on a disk that works. *)
Definition runs_on c i n : Prop :=
  p_node (procs c i) = Some n ∧ works (p_disk (procs c i)) ∧ stopped n = false.

Definition leading c m j : Prop := runs_on c m j ∧ state j = Leader.

Definition following c j i n : Prop :=
  runs_on c i n ∧ i ∈ peers j ∧ currentTerm n ≤ currentTerm j ∧ covers j n.

Definition lastIndex n : N := default 0 (lastLogIndex (log n)).
Definition base n : N := default 0 (baseIndex (log n)).
Definition next j (q : string) : N := default 0 (nextIndex j !! q).
Definition matched j (q : string) : N := default 0 (matchIndex j !! q).

(** Everything the commit rule allows is committed. *)
Definition commits_all j : Prop :=
  ∀ k, k ≤ lastIndex j → committable (log j) (currentTerm j) (peers j) (matchIndex j) k → k ≤ commitIndex j.

(** What the applier goes by. *)
Definition applierOf n : ApplierPC * option Snapshot * N := (applier n, pendingSnapshot n, lastApplied n).

(** The leader goes on leading; of its peers, only [i] was heard of. *)
Record goes_on (i : string) j j' : Prop := {
  on_id : node_id j' = node_id j;
  on_peers : peers j' = peers j;
  on_term : currentTerm j' = currentTerm j;
  on_state : state j' = state j;
  on_stopped : stopped j' = stopped j;
  on_log : log j' = log j;
  on_applier : applierOf j' = applierOf j;
  on_commit : commitIndex j ≤ commitIndex j';
  on_next q : q ≠ i → nextIndex j' !! q = nextIndex j !! q;
  on_match q : q ≠ i → matchIndex j' !! q = matchIndex j !! q
}.

Lemma goes_on_refl i j : goes_on i j j.
Proof. by split. Qed.

Lemma goes_on_trans i j1 j2 j3 : goes_on i j1 j2 → goes_on i j2 j3 → goes_on i j1 j3.
Proof.
  intros [] []. split; try congruence; [lia|..]; intros q Hq.
  - rewrite on_next1 by done. auto.
  - rewrite on_match1 by done. auto.
Qed.

(** ** What holds of them in every reachable state *)

Lemma node_sane c i n :
  reach c → p_node (procs c i) = Some n → sane n (base n) ∧ base n + lenN (log n) = lastIndex n + 1.
Proof.
  intros Hc Hn. destruct (progress_rel c Hc) as (_ & s & HR). unfold base, lastIndex.
  destruct (core_sane members s i n (R_inv _ _ _ _ HR) (R_range _ _ _ _ HR) (R_core _ _ _ _ HR i n Hn)) as [Hs Hlen].
  rewrite (sane_last n _ Hs). destruct (Hs) as (Hwf & Hb & _). destruct (log_wf_range _ Hwf _ Hb).
  rewrite Hb. simpl. split; [done|lia].
Qed.

Lemma leader_facts c m j :
  reach c → p_node (procs c m) = Some j → state j = Leader →
  termsUpTo (log j) (currentTerm j) ∧ (∀ q, next j q ≤ lastIndex j + 1) ∧ (∀ q, matched j q ≤ lastIndex j) ∧
  (m, GoReplication (currentTerm j)) ∈ sent c ∧ (m ∉ peers j) ∧ HasSnapshotStore (cfg j) = true.
Proof.
  intros Hc Hm Hl. destruct (progress_rel c Hc) as (HE & s & HR). pose proof (R_core _ _ _ _ HR m j Hm) as Hcore.
  split; [by eapply (leader_termsUpTo members c s m)|]. split; [|split].
  - intros q. unfold next, lastIndex. destruct (nextIndex j !! q) as [k|] eqn:Hq; simpl; [|lia].
    eapply (reach_next members cfgOf d0 admits Hnames (λ _ _ H, H) Hd0 Hd0h Hd0r Hd0s c Hc); eauto.
  - intros q. unfold matched, lastIndex. rewrite (rel_last members c s m j HR Hm).
    destruct (matchIndex j !! q) as [k|] eqn:Hq; simpl; [|lia].
    pose proof (R_role _ _ _ _ HR m j Hm ltac:(done)) as Hrole. unfold role_rep in Hrole. rewrite Hl in Hrole.
    destruct Hrole as (HL & _ & Hmi). destruct (Hmi q k Hq) as [[Hle Hag]|Hak].
    + apply agree_sym in Hag. pose proof (agree_len _ _ _ Hag Hle). lia.
    + destruct (I_ack _ s (R_inv _ _ _ _ HR) _ _ _ Hak) as (_ & L & HL' & ?). simplify_eq. lia.
  - split; [by apply (inv_role members c HE)|]. rewrite (nc_peers _ _ _ _ Hcore).
    split; [by intros [? _]%list_elem_of_filter|by apply (nc_snapstore _ _ _ _ Hcore)].
Qed.

Lemma log_entries l b k :
  log_wf l → baseIndex l = Some b → (1 ≤ k)%nat → (k ≤ length l)%nat → consecutive (b + N.of_nat k) (drop k l).
Proof.
  destruct l as [|x es]; [done|]. intros [Hc _] [= <-] Hk Hlen. destruct k as [|k]; [lia|]. simpl in *.
  replace (Index x + N.of_nat (S k)) with (Index x + 1 + N.of_nat k) by lia. apply consecutive_drop; [lia|done].
Qed.

Lemma log_elem l b en : log_wf l → baseIndex l = Some b → en ∈ l → termAt l (Index en) = Some (Term en).
Proof.
  intros Hwf Hb [k Hk]%list_elem_of_lookup. pose proof (log_wf_lookup _ Hwf _ _ _ Hb Hk) as Hi.
  pose proof (lookup_lt_Some _ _ _ Hk). destruct (termAt_in_range _ Hwf b (Index en) Hb) as (x & Hx & _ & ->);
    [lia|unfold lenN; lia|]. replace (N.to_nat (Index en - b)) with k in Hx by lia. congruence.
Qed.

(** The message of a round for a peer that needs no snapshot. *)
Definition probe j (i : string) (args : AppendEntriesArgs) : Prop :=
  AEA_Term args = currentTerm j ∧ AEA_PrevLogIndex args + 1 = next j i ∧
  termAt (log j) (AEA_PrevLogIndex args) = Some (AEA_PrevLogTerm args) ∧
  AEA_Entries args = drop (N.to_nat (next j i - base j)) (log j).

Lemma outbound_probe j i :
  sane j (base j) → base j + lenN (log j) = lastIndex j + 1 → next j i ≤ lastIndex j + 1 → base j < next j i →
  ∃ args, outboundFor j (base j) (currentTerm j) i = Some (GoAppendEntries i (currentTerm j) args) ∧ probe j i args.
Proof.
  intros Hs Hlen Hn Hb. destruct (Hs) as (Hwf & Hbase & _). destruct (log_wf_range _ Hwf _ Hbase).
  unfold outboundFor. fold (next j i). rewrite (proj2 (N.leb_gt _ _)) by done. rewrite u64_sub_small by lia.
  destruct (sane_term j _ (next j i - 1) Hs) as [t Ht]; [lia..|]. rewrite Ht. cbn [mbind option_bind].
  rewrite (entriesFrom_in_range _ Hwf (base j)) by (done || lia). eexists. split; [reflexivity|].
  split; [done|]. split; [simpl; lia|]. done.
Qed.

Lemma probe_entries j i args :
  sane j (base j) → base j + lenN (log j) = lastIndex j + 1 → next j i ≤ lastIndex j + 1 → base j < next j i →
  probe j i args →
  consecutive (AEA_PrevLogIndex args + 1) (AEA_Entries args) ∧
  AEA_PrevLogIndex args + lenN (AEA_Entries args) = lastIndex j ∧
  ∀ en, en ∈ AEA_Entries args → termAt (log j) (Index en) = Some (Term en).
Proof.
  intros (Hwf & Hbase & _) Hlen Hn Hb (_ & Hp & _ & ->). unfold lenN in *. split; [|split].
  - replace (AEA_PrevLogIndex args + 1) with (base j + N.of_nat (N.to_nat (next j i - base j))) by lia.
    apply log_entries; [done|done|lia|lia].
  - rewrite length_drop. lia.
  - intros en Hen. eapply log_elem; [done|done|]. rewrite <-(take_drop (N.to_nat (next j i - base j)) (log j)). apply elem_of_app. by right.
Qed.

(** ** The steps of an exchange *)

Lemma round c m j i :
  reach c → in_range c → leading c m j → i ∈ peers j →
  ∃ c' x, goes silent [m] c c' ∧ leading c' m j ∧
    outboundFor j (base j) (currentTerm j) i = Some x ∧ (m, x) ∈ sent c'.
Proof.
  intros Hc Hr [(Hm & Hw & Hst) Hl] Hi. destruct (node_sane c m j Hc Hm) as [Hs Hlen].
  destruct (leader_facts c m j Hc Hm Hl) as (_ & Hnext & _ & Hsent & _).
  destruct (Hr) as (Hrn & _). destruct (Hrn m j Hm) as [Ht Hlast].
  destruct (step_does silent c m j (ARound (currentTerm j)) (λ a n o, a = NoAnswer ∧ n = j ∧ mapM (outboundFor j (base j) (currentTerm j)) (peers j) = Some o))
    as (a & x & Hgo & Hw' & _ & Hj & Hout); try done.
  - simpl. eapply does_bind; [by apply does_round|]. intros ? n o [-> Ho]. apply does_ret. by rewrite app_nil_r.
  - intros a n o (-> & -> & Ho). split; [done|]. split; [done|]. split; [|done].
    apply mapM_Some_1 in Ho. eapply Forall2_Forall_r; [exact Ho|]. apply Forall_forall. intros q _ y Hy.
    unfold outboundFor in Hy. destruct (_ <=? _); [by injection Hy as <-; simpl; lia|].
    destruct (termAt _ _); [|done]. destruct (entriesFrom _ _); [|done]. injection Hy as <-. simpl. lia.
  - apply mapM_Some_1 in Hout. apply list_elem_of_lookup in Hi as [k Hk].
    destruct (Forall2_lookup_l _ _ _ _ _ Hout Hk) as (y & Hy & Hob). exists (deliver c m (ARound (currentTerm j)) a x), y.
    split; [done|]. split; [|split; [done|]].
    + split; [|done]. split; [simpl; by rewrite fn_lookup_insert, Hj|].
      split; [simpl; by rewrite fn_lookup_insert|done].
    + simpl. apply elem_of_app. right. apply list_elem_of_fmap_2. by eapply list_elem_of_lookup_2.
Qed.

(** The follower's log has the leader's term at [k]. *)
Definition agrees_at j n (k : N) : Prop :=
  k ≤ lastIndex n ∧ ∀ t u, termAt (log j) k = Some t → termAt (log n) k = Some u → t = u.

(** The follower handles a probe: it takes the entries, or rejects them without
    touching its log. *)
Lemma handles_probe c m j i n args :
  reach c → in_range c → leading c m j → following c j i n → base j < next j i → probe j i args →
  (m, GoAppendEntries i (currentTerm j) args) ∈ sent c →
  ∃ c' r n', goes silent [i] c c' ∧ (m, i, args, r) ∈ areplies c' ∧ runs_on c' i n' ∧
    currentTerm n' = currentTerm j ∧ AER_Term r = currentTerm j ∧
    (AER_Success r = true ∨ AER_Success r = false ∧ same_log n n' ∧ ¬ agrees_at j n (next j i - 1) ∧
     (1 ≤ AEA_PrevLogIndex args → rejection n args r)).
Proof.
  intros Hc Hr [(Hm & _ & _) Hl] ((Hn & Hw & Hst) & Hi & Hle & Hcov) Hb Hpr Hsent.
  destruct (node_sane c m j Hc Hm) as [Hsj Hlj]. destruct (node_sane c i n Hc Hn) as [Hsn Hln].
  destruct (leader_facts c m j Hc Hm Hl) as (_ & Hnext & _).
  destruct (probe_entries j i args Hsj Hlj (Hnext i) Hb Hpr) as (Hcons & Hlen & Hterms).
  destruct Hpr as (Ht & Hp & Hpt & _). specialize (Hnext i).
  destruct (Hr) as (Hrn & _). destruct (Hrn m j Hm) as [Htj Hlastj]. destruct (Hrn i n Hn) as [_ Hlastn].
  fold (lastIndex j) in Hlastj. fold (lastIndex n) in Hlastn.
  pose proof (does_HandleAppendEntries works n args (base n) Hst Hsn ltac:(lia) ltac:(lia) Hcons) as Hdoes.
  rewrite Ht in Hdoes. fold (lastIndex n) in Hdoes.
  destruct (step_does silent c i n (AAppendEntries m args) (λ a n' o, ∃ r, a = AppendAnswer r ∧ signals o ∧ AER_Term r = currentTerm j ∧
    runningAt (currentTerm j) (lastIndex n `max` (AEA_PrevLogIndex args + lenN (AEA_Entries args))) n' ∧
    (AER_Success r = true ∨ AER_Success r = false ∧ same_log n n' ∧ ¬ matches n args ∧ (1 ≤ AEA_PrevLogIndex args → rejection n args r))))
    as (a & x & Hgo & Hw' & r & -> & Ho & Hrt & (Hst' & Ht' & _) & Hcase); try done.
  - by exists (currentTerm j).
  - simpl. eapply does_bind; [apply Hdoes|].
    { intros en t Hen Hbn Hci Hu. destruct (Hcov (Index en) (Term en) t); [done|by apply Hterms|done|done]. }
    intros r n' o HQ. apply does_ret. rewrite app_nil_r. by exists r.
  - intros a n' o (r & -> & Ho & Hrt & (_ & Htn & Hlast) & _). split; [lia|].
    split; [unfold lastIndex in *; lia|]. split; [|simpl; lia].
    eapply Forall_impl; [exact Ho|]. by intros ? ->.
  - eexists _, r, (rn x). split; [exact Hgo|]. split; [by left|]. split; [split; [|split]; simpl; rewrite ?fn_lookup_insert; done|].
    split; [done|]. split; [done|]. destruct Hcase as [?|(? & ? & Hno & ?)]; [by left|right].
    split; [done|]. split; [done|]. split; [|done]. intros [Hk Hag]. apply Hno. split; [unfold lastIndex in Hk; lia|].
    intros u Hu. replace (next j i - 1) with (AEA_PrevLogIndex args) in Hag by lia. symmetry. by eapply Hag.
Qed.

(** The leader hears of it. *)
Lemma hears c m j act Q :
  silent j act → reach c → in_range c → leading c m j → enabled c m j act → admits j act = true →
  does works j (runAction act) (λ a j' o, a = NoAnswer ∧ signals o ∧ Q j') →
  (∀ j', Q j' → currentTerm j' = currentTerm j ∧ log j' = log j ∧ state j' = Leader ∧ stopped j' = false) →
  ∃ c' j', goes silent [m] c c' ∧ leading c' m j' ∧ Q j'.
Proof.
  intros Hsil Hc Hr [(Hm & Hw & Hst) Hl] Hen Had Hdoes Hkeep. destruct (Hr) as (Hrn & _). destruct (Hrn m j Hm) as [Ht Hlast].
  destruct (step_does silent c m j act _ Hsil Hc Hr Hm Hw Hen Had Hdoes) as (a & x & Hgo & Hw' & -> & _ & HQ).
  - intros a j' o (-> & Ho & HQ). destruct (Hkeep _ HQ) as (Ht' & Hlog' & _). unfold small.
    rewrite Ht', Hlog'. split; [done|]. split; [done|]. split; [|done].
    eapply Forall_impl; [exact Ho|]. by intros ? ->.
  - eexists _, (rn x). split; [exact Hgo|]. split; [|done]. destruct (Hkeep _ HQ) as (_ & _ & Hs & Hst').
    split; [|done]. split; [|split]; simpl; rewrite ?fn_lookup_insert; done.
Qed.

(** What the leader knows of a follower that has everything. *)
Definition caught_up i j : Prop := matchIndex j !! i = Some (lastIndex j) ∧ commits_all j.

(** The leader's message is rejected, and it will try further back. *)
Definition steps_back i j n c' j' n' : Prop :=
  following c' j' i n' ∧ matchIndex j' = matchIndex j ∧
  1 ≤ next j' i ∧ next j' i < next j i ∧ ¬ agrees_at j n (next j i - 1).

(** Index 0 is common to all logs. *)
Lemma agrees_at_0 c s m j i n :
  Rel c s → p_node (procs c m) = Some j → p_node (procs c i) = Some n → agrees_at j n 0.
Proof.
  intros HR Hm Hn. split; [lia|]. intros t u Ht Hu.
  rewrite (nc_log _ _ _ _ (R_core _ _ _ _ HR m j Hm)) in Ht. rewrite (nc_log _ _ _ _ (R_core _ _ _ _ HR i n Hn)) in Hu.
  pose proof (node_shaped members s m (R_inv _ _ _ _ HR) (R_range _ _ _ _ HR)) as Sm.
  pose proof (node_shaped members s i (R_inv _ _ _ _ HR) (R_range _ _ _ _ HR)) as Si.
  destruct (memlog_termAt_inv _ Sm 0 t ltac:(done) Ht) as (_ & _ & ->).
  destruct (memlog_termAt_inv _ Si 0 u ltac:(done) Hu) as (_ & _ & ->). done.
Qed.

Lemma hears_yes c m j i args r :
  reach c → in_range c → leading c m j → enabled c m j (AAppendReply i (currentTerm j) args r) →
  AEA_PrevLogIndex args + lenN (AEA_Entries args) = lastIndex j → matched j i < lastIndex j →
  AER_Term r = currentTerm j → AER_Success r = true →
  ∃ c' j', goes silent [m] c c' ∧ goes_on i j j' ∧ leading c' m j' ∧ caught_up i j'.
Proof.
  intros Hc Hr Hlead Hen Hend Hlag Hrt Hyes. pose proof Hlead as [(Hm & _ & Hst) Hl].
  destruct (node_sane c m j Hc Hm) as [Hs _]. destruct (leader_facts c m j Hc Hm Hl) as (Hup & _).
  destruct (Hr) as (Hrn & _). destruct (Hrn m j Hm) as [_ Hlast]. fold (lastIndex j) in Hlast.
  destruct (hears c m j (AAppendReply i (currentTerm j) args r) (λ j', goes_on i j j' ∧ caught_up i j') I Hc Hr Hlead Hen eq_refl)
    as (c' & j' & Hgo & Hlead' & Hon & Hcu); [| |by exists c', j'].
  - simpl. eapply does_bind; [apply (does_accepted works j i args r (base j)); try done; [lia|lia|]|].
    { fold (matched j i). lia. }
    intros ? j' o (Ho & k & -> & Hk1 & Hk2 & Hk3). apply does_ret. rewrite app_nil_r. split; [done|]. split; [done|].
    split; [split; try done; intros q Hq; simpl; by rewrite lookup_insert_ne|]. split.
    + simpl. rewrite lookup_insert_eq. by rewrite Hend.
    + intros q Hq Hcm. by apply Hk3.
  - intros j' ([] & _). split; [done|]. split; [done|]. split; congruence.
Qed.

Lemma hears_no c m j i args r :
  let k := nextIndexAfterRejection (log j) (AEA_PrevLogIndex args) r in
  reach c → in_range c → leading c m j → enabled c m j (AAppendReply i (currentTerm j) args r) →
  AER_Term r = currentTerm j → AER_Success r = false → k < next j i →
  ∃ c' j', goes silent [m] c c' ∧ goes_on i j j' ∧ leading c' m j' ∧ next j' i = k ∧ matchIndex j' = matchIndex j.
Proof.
  intros k Hc Hr Hlead Hen Hrt Hno Hk. pose proof Hlead as [(Hm & _ & Hst) Hl].
  destruct (hears c m j (AAppendReply i (currentTerm j) args r) (λ j', j' = j <| nextIndex := <[i := k]> (nextIndex j) |> <| triggerCh := true |>)
    I Hc Hr Hlead Hen eq_refl) as (c' & j' & Hgo & Hlead' & Hj').
  - simpl. eapply does_bind; [apply does_rejected; try done; lia|].
    intros ? j' o [-> ->]. apply does_ret. split; [done|]. by split; [constructor|].
  - by intros j' ->.
  - exists c', j'. split; [done|]. rewrite Hj' in *. split; [split; try done; intros q Hq; simpl; by rewrite lookup_insert_ne|].
    split; [done|]. split; [|done]. unfold next. simpl. by rewrite lookup_insert_eq.
Qed.

Lemma goes_via m i c c1 c2 c3 : goes silent [m] c c1 → goes silent [i] c1 c2 → goes silent [m] c2 c3 → goes silent [m; i] c c3.
Proof.
  intros H1 H2 H3. eapply goes_trans; [|eapply goes_trans];
    (eapply goes_weaken; [|first [exact H1|exact H2|exact H3]]); intros q; rewrite !elem_of_cons; tauto.
Qed.

(** The other one does not notice. *)
Lemma following_kept P c c' j i n l : goes P l c c' → i ∉ l → following c j i n → following c' j i n.
Proof. intros Hgo Hi. unfold following, runs_on. by rewrite (go_others _ _ _ _ Hgo i Hi). Qed.
Lemma leading_kept P c c' j m l : goes P l c c' → m ∉ l → leading c m j → leading c' m j.
Proof. intros Hgo Hm. unfold leading, runs_on. by rewrite (go_others _ _ _ _ Hgo m Hm). Qed.

(** One exchange of AppendEntries. *)
Lemma exchange c m j i n :
  reach c → in_range c → leading c m j → following c j i n → base j < next j i → matched j i < lastIndex j →
  ∃ c' j', goes silent [m; i] c c' ∧ goes_on i j j' ∧ leading c' m j' ∧
    (caught_up i j' ∨ ∃ n', steps_back i j n c' j' n').
Proof.
  intros Hc Hr Hlead Hfol Hb Hlag. pose proof Hlead as [(Hm & _ & _) Hl]. pose proof Hfol as ((Hn & _) & Hi & _ & Hcov).
  destruct (round c m j i Hc Hr Hlead Hi) as (c1 & x & Hgo1 & Hlead1 & Hx & Hsent).
  destruct (node_sane c m j Hc Hm) as [Hs Hlen].
  destruct (leader_facts c m j Hc Hm Hl) as (_ & Hnext & _ & _ & Hself & _). specialize (Hnext i).
  destruct (outbound_probe j i Hs Hlen Hnext Hb) as (args & Hob & Hpr). rewrite Hob in Hx. injection Hx as <-.
  assert (i ∉ [m]) as Him by (intros ->%list_elem_of_singleton; done).
  assert (m ∉ [i]) as Hmi by (intros <-%list_elem_of_singleton; done).
  destruct (handles_probe c1 m j i n args (go_reach _ _ _ _ Hgo1) (go_range _ _ _ _ Hgo1) Hlead1
    (following_kept _ _ _ _ _ _ _ Hgo1 Him Hfol) Hb Hpr Hsent) as (c2 & r & n' & Hgo2 & Hrep & Hrun2 & Htn & Hrt & Hcase).
  pose proof (leading_kept _ _ _ _ _ _ Hgo2 Hmi Hlead1) as Hlead2.
  assert (enabled c2 m j (AAppendReply i (currentTerm j) args r)) as Hen
    by (split; [by apply (go_sent _ _ _ _ Hgo2)|done]).
  destruct (probe_entries j i args Hs Hlen Hnext Hb Hpr) as (_ & Hend & _). destruct Hpr as (_ & Hp & Hpt & _).
  destruct (Hr) as (Hrn & _). destruct (Hrn m j Hm) as [_ Hlast]. fold (lastIndex j) in Hlast.
  destruct Hcase as [Hyes|(Hno & (Hlog & Hci & _) & Hdis & Hrej)].
  - destruct (hears_yes c2 m j i args r) as (c3 & j' & Hgo3 & Hon & Hlead3 & Hcu); try done; [apply Hgo2..|].
    exists c3, j'. split; [by eapply goes_via|]. auto.
  - destruct (progress_rel c Hc) as (_ & s & HR). assert (1 ≤ AEA_PrevLogIndex args) as H1.
    { destruct (decide (AEA_PrevLogIndex args = 0)) as [H0|]; [|lia]. destruct Hdis.
      replace (next j i - 1) with 0 by lia. by eapply (agrees_at_0 c s m j i n). }
    destruct (Hrej H1) as (Hi1' & Hi2' & Hterm).
    destruct (rejection_bound members c s i n m j args r HR Hn Hm Hl ltac:(lia) Hpt Hi1' Hi2' Hterm) as [Hge Hle'].
    destruct (hears_no c2 m j i args r) as (c3 & j' & Hgo3 & Hon & Hlead3 & Hk & Hmatch); try done; [apply Hgo2..|lia|].
    exists c3, j'. split; [by eapply goes_via|]. split; [done|]. split; [done|]. right. exists n'.
    split; [|split; [done|split; [lia|split; [lia|done]]]]. destruct Hon as [_ Hps Hjt _ _ Hjl _ _ _ _].
    split; [|split; [by rewrite Hps|split; [lia|]]].
    + unfold runs_on. by rewrite (go_others _ _ _ _ Hgo3 i Him).
    + unfold covers. by rewrite Hlog, Hci, Hjl.
Qed.

(** *** Snapshots *)

(** The goroutine of sendSnapshot loads the snapshot that covers the leader's
    compacted prefix. *)
Lemma sends_snapshot c m j i :
  reach c → in_range c → leading c m j → (m, GoSendSnapshot i (currentTerm j)) ∈ sent c → 0 < base j →
  ∃ c' args, goes silent [m] c c' ∧ leading c' m j ∧ (m, GoInstallSnapshot i (currentTerm j) args) ∈ sent c' ∧
    ISA_Term args = currentTerm j ∧ ISA_LastIncludedIndex args = base j ∧
    termAt (log j) (base j) = Some (ISA_LastIncludedTerm args).
Proof.
  intros Hc Hr [(Hm & Hw & Hst) Hl] Hsent Hb. destruct (progress_rel c Hc) as (HE & s & HR).
  destruct (leader_facts c m j Hc Hm Hl) as (_ & _ & _ & _ & _ & Hsnap).
  pose proof (R_core _ _ _ _ HR m j Hm) as Hcore. pose proof (nc_log _ _ _ _ Hcore) as Hlog.
  pose proof (node_shaped members s m (R_inv _ _ _ _ HR) (R_range _ _ _ _ HR)) as Hsh.
  assert (base j = N.of_nat (pfloor (pn s m))) as Hbase by (unfold base; by rewrite Hlog).
  destruct (R_disk _ _ _ _ HR m) as (_ & Hrep & _).
  destruct (works_LoadSnapshot _ Hw) as [[o Ho] Hw'].
  destruct (LoadSnapshot_spec _ (inv_survives _ c HE m)) as (_ & Hres & _). rewrite (Hres o Ho) in Hrep.
  destruct o as [sn|]; [|simpl in Hrep; lia]. destruct Hrep as (Hi & Ht & _).
  set (args := mkISArgs (currentTerm j) (node_id j) (LastIncludedIndex sn) (LastIncludedTerm sn) 0 (SnapData sn) true).
  destruct (Hr) as (Hrn & _). destruct (Hrn m j Hm) as [Htj Hlast].
  set (x := mkCtx j (io_disk (LoadSnapshot (p_disk (procs c m))))
    (io_mid (LoadSnapshot (p_disk (procs c m))) ++ [io_disk (LoadSnapshot (p_disk (procs c m)))])
    [GoInstallSnapshot i (currentTerm j) args]).
  assert (runAction (ASendSnapshot i (currentTerm j)) (mkEnv 0 0) (mkCtx j (p_disk (procs c m)) [] []) = Ret NoAnswer x)
    as Hrun.
  { simpl. unfold sendSnapshot. run_m. rewrite Hsnap. simpl. by rewrite Ho. }
  exists (deliver c m (ASendSnapshot i (currentTerm j)) NoAnswer x), args. split; [|split; [|split]].
  - eapply step_returns; [done|done|done|done|exact Hsent|done|exact Hrun|].
    split; [done|]. split; [done|]. split; [|done]. repeat constructor. simpl. lia.
  - split; [split; [|split]|done]; simpl; rewrite ?fn_lookup_insert; done.
  - simpl. apply elem_of_app. right. by left.
  - split; [done|]. split; [by rewrite Hbase|].
    destruct Hsh as (Hf & ? & ?). rewrite Hlog, Hbase, memlog_termAt by (done || lia). rewrite Nat2N.id. simpl. by rewrite Ht.
Qed.

Lemma handles_snapshot c m j i n args :
  reach c → in_range c → leading c m j → following c j i n →
  (m, GoInstallSnapshot i (currentTerm j) args) ∈ sent c → ISA_Term args = currentTerm j →
  ISA_LastIncludedIndex args = base j → termAt (log j) (base j) = Some (ISA_LastIncludedTerm args) →
  ∃ c' r n', goes silent [i] c c' ∧ (m, i, args, r) ∈ sreplies c' ∧ following c' j i n' ∧
    ISR_Term r = currentTerm j ∧ agrees_at j n' (base j).
Proof.
  intros Hc Hr [(Hm & _ & _) Hl] ((Hn & Hw & Hst) & Hi & Hle & Hcov) Hsent Ht Hidx Hterm.
  destruct (node_sane c m j Hc Hm) as [Hsj Hlj]. destruct (node_sane c i n Hc Hn) as [Hsn _].
  destruct (leader_facts c m j Hc Hm Hl) as (Hup & _). destruct (Hr) as (Hrn & _).
  destruct (Hrn m j Hm) as [Htj Hlastj]. destruct (Hrn i n Hn) as [_ Hlastn]. fold (lastIndex j) in Hlastj.
  destruct (Hsj) as (Hwf & Hbj & _). destruct (log_wf_range _ Hwf _ Hbj).
  destruct (Hup (base j) (base j) _ _ ltac:(done) ltac:(lia) Hterm Hterm) as [_ Hlit].
  pose proof (does_HandleInstallSnapshot works n args (base n) Hst Hsn ltac:(lia) ltac:(lia) ltac:(lia)) as Hdoes.
  rewrite Ht, Hidx in Hdoes.
  destruct (step_does silent c i n (AInstallSnapshot m args) (λ a n' o, ∃ r, a = SnapshotAnswer r ∧ signals o ∧ ISR_Term r = currentTerm j ∧
    runningAt (currentTerm j) (default 0 (lastLogIndex (log n)) `max` base j) n' ∧ base j ≤ commitIndex n' ∧
    (same_log n n' ∨ commitIndex n' = base j ∧ ∃ sfx, log n' = rebased (base j) (ISA_LastIncludedTerm args) sfx)))
    as (a & x & Hgo & Hw' & r & -> & Ho & Hrt & (Hst' & Ht' & _) & Hci & Hcase); try done.
  - by exists (currentTerm j).
  - simpl. eapply does_bind; [apply Hdoes|]. intros r n' o HQ. apply does_ret. rewrite app_nil_r. by exists r.
  - intros a n' o (r & -> & Ho & Hrt & (_ & Htn & Hlast) & _). split; [lia|]. split; [lia|]. split; [|simpl; lia].
    eapply Forall_impl; [exact Ho|]. by intros ? ->.
  - assert (p_node (procs (deliver c i (AInstallSnapshot m args) (SnapshotAnswer r) x) i) = Some (rn x)) as Hn'
      by (simpl; by rewrite fn_lookup_insert).
    destruct (node_sane _ _ _ (go_reach _ _ _ _ Hgo) Hn') as [(Hwf' & Hb' & _ & Hci') Hlen'].
    assert (covers j (rn x)) as Hcov'.
    { intros k t u Hk Hkt Hku. destruct Hcase as [(Hlog & Hcm & _)|(Hcm & sfx & Hlog)].
      - rewrite Hcm in Hk. rewrite Hlog in Hku. by eapply Hcov.
      - rewrite Hlog in Hb', Hku, Hwf'. injection Hb' as Hb'. rewrite Hcm in Hk.
        destruct (decide (k = base j)) as [->|]; [|by rewrite (termAt_below _ Hwf' (base j)) in Hku by (done || lia)].
        unfold termAt in Hku. simpl in Hku. rewrite u64_sub_small, N.sub_diag in Hku by lia. simpl in Hku. congruence. }
    eexists _, r, (rn x). split; [exact Hgo|]. split; [by left|]. split; [|split; [done|]].
    + split; [split; [done|split; [simpl; by rewrite fn_lookup_insert|done]]|]. split; [done|]. split; [lia|done].
    + split; [lia|]. intros t u. by apply Hcov'.
Qed.

Lemma exchange_snapshot c m j i n :
  reach c → in_range c → leading c m j → following c j i n → next j i ≤ base j → matched j i < base j →
  ∃ c' j' n', goes silent [m; i] c c' ∧ goes_on i j j' ∧ leading c' m j' ∧ following c' j' i n' ∧
    agrees_at j' n' (base j') ∧ next j' i = base j' + 1 ∧ matchIndex j' !! i = Some (base j').
Proof.
  intros Hc Hr Hlead Hfol Hnext Hlag. pose proof Hlead as [(Hm & _ & _) Hl]. pose proof Hfol as (_ & Hi & _).
  destruct (round c m j i Hc Hr Hlead Hi) as (c1 & x & Hgo1 & Hlead1 & Hx & Hsent).
  destruct (node_sane c m j Hc Hm) as [Hs Hlen]. destruct (leader_facts c m j Hc Hm Hl) as (_ & _ & _ & _ & Hself & _).
  unfold outboundFor in Hx. fold (next j i) in Hx. rewrite (proj2 (N.leb_le _ _)) in Hx by done. injection Hx as <-.
  assert (i ∉ [m]) as Him by (intros ->%list_elem_of_singleton; done).
  assert (m ∉ [i]) as Hmi by (intros <-%list_elem_of_singleton; done).
  destruct (sends_snapshot c1 m j i (go_reach _ _ _ _ Hgo1) (go_range _ _ _ _ Hgo1) Hlead1 Hsent ltac:(lia))
    as (c1' & args & Hgo1' & Hlead1' & Hsent' & Hat & Hai & Hterm).
  pose proof (goes_trans _ _ _ _ _ Hgo1 Hgo1') as Hgo.
  destruct (handles_snapshot c1' m j i n args (go_reach _ _ _ _ Hgo) (go_range _ _ _ _ Hgo) Hlead1'
    (following_kept _ _ _ _ _ _ _ Hgo Him Hfol) Hsent' Hat Hai Hterm) as (c2 & r & n' & Hgo2 & Hrep & Hfol2 & Hrt & Hag).
  pose proof (leading_kept _ _ _ _ _ _ Hgo2 Hmi Hlead1') as Hlead2.
  assert (enabled c2 m j (ASnapshotReply i (currentTerm j) args r)) as Hen
    by (split; [by apply (go_sent _ _ _ _ Hgo2)|done]).
  destruct (Hr) as (Hrn & _). destruct (Hrn m j Hm) as [_ Hlast]. fold (lastIndex j) in Hlast.
  destruct (Hs) as (Hwf & Hbj & _). destruct (log_wf_range _ Hwf _ Hbj).
  destruct (hears c2 m j (ASnapshotReply i (currentTerm j) args r) (λ j', j' = j <| matchIndex := <[i := base j]> (matchIndex j) |>
      <| nextIndex := <[i := base j + 1]> (nextIndex j) |>) I (go_reach _ _ _ _ Hgo2) (go_range _ _ _ _ Hgo2) Hlead2 Hen eq_refl)
    as (c3 & j' & Hgo3 & Hlead3 & Hj').
  - simpl. eapply does_bind; [apply does_snapshotTaken; try apply Hlead2; [lia|lia|fold (matched j i); lia]|].
    intros ? j' o [-> ->]. rewrite Hai. apply does_ret. split; [done|]. by split; [constructor|].
  - intros j' ->. destruct Hlead2 as [(_ & _ & ?) ?]. done.
  - exists c3, j', n'. split; [by eapply goes_via|]. pose proof (following_kept _ _ _ _ _ _ _ Hgo3 Him Hfol2) as Hfol3.
    rewrite Hj' in Hlead3 |- *. split; [split; try done; intros q Hq; simpl; by rewrite lookup_insert_ne|].
    split; [done|]. split; [done|]. split; [done|]. unfold next. simpl. by rewrite !lookup_insert_eq.
Qed.

(** ** Catching up *)

(** The leader can reach the follower's log: it has compacted nothing; or a
    snapshot would raise matchIndex; or nextIndex is above the boundary and the
    logs agree before it.  What is left out are reachable states in which
    replication to the follower is stuck (file Starvation), and those from which
    a rejection would lead there. *)
Definition reaches j (i : string) n : Prop :=
  1 ≤ next j i ∧
  (base j = 0 ∨ matched j i < base j ∨ (base j < next j i ∧ agrees_at j n (next j i - 1))).

Lemma goes_on_last i j j' : goes_on i j j' → lastIndex j' = lastIndex j ∧ base j' = base j.
Proof. intros []. unfold lastIndex, base. by rewrite on_log0. Qed.

Lemma catches_up c m j i n :
  reach c → in_range c → leading c m j → following c j i n → reaches j i n → matched j i < lastIndex j →
  ∃ c' j', goes silent [m; i] c c' ∧ goes_on i j j' ∧ leading c' m j' ∧ caught_up i j'.
Proof.
  remember (next j i) as k eqn:Hk. revert c j n Hk. induction (N.lt_wf_0 k) as [k _ IH].
  intros c j n -> Hc Hr Hlead Hfol (H1 & Hbase) Hlag.
  destruct (N.lt_ge_cases (base j) (next j i)) as [Hb|Hb].
  - destruct (exchange c m j i n Hc Hr Hlead Hfol Hb Hlag) as (c1 & j1 & Hgo1 & Hon1 & Hlead1 & Hcase).
    destruct Hcase as [Hcu|(n1 & Hfol1 & Hm1 & Hn1 & Hlt & Hno)]; [by exists c1, j1|].
    destruct (goes_on_last _ _ _ Hon1) as [Hl1 Hb1].
    destruct (IH (next j1 i) Hlt c1 j1 n1 eq_refl (go_reach _ _ _ _ Hgo1) (go_range _ _ _ _ Hgo1) Hlead1 Hfol1)
      as (c2 & j2 & Hgo2 & Hon2 & ? & ?).
    { split; [done|]. unfold matched in *. rewrite Hm1, Hb1. destruct Hbase as [?|[?|[_ ?]]]; auto; done. }
    { unfold matched in *. by rewrite Hm1, Hl1. }
    exists c2, j2. split; [by eapply goes_trans|]. split; [by eapply goes_on_trans|done].
  - destruct (exchange_snapshot c m j i n Hc Hr Hlead Hfol Hb ltac:(destruct Hbase as [?|[?|[? _]]]; lia))
      as (c1 & j1 & n1 & Hgo1 & Hon1 & Hlead1 & Hfol1 & Hag & Hn1 & Hm1).
    destruct (goes_on_last _ _ _ Hon1) as [Hl1 Hb1]. pose proof Hlead1 as [(Hp1 & _) _].
    destruct (node_sane c1 m j1 (go_reach _ _ _ _ Hgo1) Hp1) as [(_ & _ & Hci & Hci') Hlen].
    destruct (decide (base j1 = lastIndex j1)) as [Heq|Hne].
    { exists c1, j1. split; [done|]. split; [done|]. split; [done|]. split; [by rewrite Hm1, Heq|].
      intros q Hq _. lia. }
    destruct (exchange c1 m j1 i n1 (go_reach _ _ _ _ Hgo1) (go_range _ _ _ _ Hgo1) Hlead1 Hfol1)
      as (c2 & j2 & Hgo2 & Hon2 & Hlead2 & Hcase); [lia|unfold matched; rewrite Hm1; simpl; lia|].
    destruct Hcase as [Hcu|(n2 & _ & _ & _ & _ & Hno)].
    + exists c2, j2. split; [by eapply goes_trans|]. split; [by eapply goes_on_trans|done].
    + destruct Hno. by replace (next j1 i - 1) with (base j1) by lia.
Qed.

(** ... one after the other. *)
Lemma all_catch_up Q c m j :
  reach c → in_range c → leading c m j → commits_all j → NoDup Q →
  (∀ q, q ∈ Q → matched j q < lastIndex j ∧ ∃ n, following c j q n ∧ reaches j q n) →
  ∃ c' j', goes silent (m :: Q) c c' ∧ leading c' m j' ∧ currentTerm j' = currentTerm j ∧ log j' = log j ∧ peers j' = peers j ∧
    applierOf j' = applierOf j ∧ commits_all j' ∧ (∀ q, q ∈ Q → matchIndex j' !! q = Some (lastIndex j)) ∧
    ∀ q, q ∉ Q → matchIndex j' !! q = matchIndex j !! q.
Proof.
  revert c j. induction Q as [|i Q IH]; intros c j Hc Hr Hlead Hall Hnd HQ.
  { exists c, j. split; [by apply goes_refl|]. repeat (split; [done|]). split; [by intros q ?%not_elem_of_nil|done]. }
  apply NoDup_cons in Hnd as [Hi Hnd]. destruct (HQ i ltac:(by left)) as (Hlag & n & Hfol & Hrch).
  destruct (catches_up c m j i n Hc Hr Hlead Hfol Hrch Hlag) as (c1 & j1 & Hgo1 & Hon1 & Hlead1 & Hm1 & Hall1).
  destruct (goes_on_last _ _ _ Hon1) as [Hl1 Hb1]. pose proof Hon1 as [_ Hps Ht _ _ Hlog Hap1 _ Hnx Hmx].
  pose proof Hlead as [(Hpm & _) Hl]. destruct (leader_facts c m j Hc Hpm Hl) as (_ & _ & _ & _ & Hself & _).
  destruct (IH c1 j1 (go_reach _ _ _ _ Hgo1) (go_range _ _ _ _ Hgo1) Hlead1 Hall1 Hnd)
    as (c2 & j2 & Hl2 & Hlead2 & Ht2 & Hlog2 & Hps2 & Hap2 & Hall2 & HQ2 & Hrest).
  - intros q Hq. destruct (HQ q ltac:(by right)) as (Hlagq & n' & Hfolq & Hrchq). assert (q ≠ i) as Hqi by congruence.
    split; [unfold matched in *; by rewrite Hmx, Hl1|]. exists n'. split.
    2: { unfold reaches, agrees_at, next, matched in *. by rewrite Hnx, Hmx, Hb1, Hlog. }
    pose proof Hfolq as (_ & Hpq & _). assert (q ∉ [m; i]) as Hqm.
    { intros [->|[->|?%not_elem_of_nil]%elem_of_cons]%elem_of_cons; done. }
    pose proof (following_kept _ _ _ _ _ _ _ Hgo1 Hqm Hfolq) as (? & ? & ? & Hcov).
    split; [done|]. split; [by rewrite Hps|]. split; [by rewrite Ht|]. unfold covers. by rewrite Hlog.
  - exists c2, j2. split; [eapply goes_trans; (eapply goes_weaken; [|first [exact Hgo1|exact Hl2]]); intros z; rewrite !elem_of_cons, ?elem_of_nil; tauto|].
    split; [done|]. split; [congruence|]. split; [congruence|].
    split; [congruence|]. split; [congruence|]. split; [done|]. rewrite Hl1 in HQ2. split.
    + intros q [->|Hq]%elem_of_cons; [rewrite Hrest, Hm1 by done; by rewrite Hl1|by apply HQ2].
    + intros q Hq. rewrite elem_of_cons in Hq. rewrite Hrest by tauto. apply Hmx. tauto.
Qed.

(** A majority has the last entry, of the leader's own term: it is committed. *)
Lemma majority_commits j Q :
  commits_all j → NoDup Q → Q ⊆ peers j → quorum (peers j) ≤ 1 + lenN Q →
  (∀ q, q ∈ Q → matchIndex j !! q = Some (lastIndex j)) → termAt (log j) (lastIndex j) = Some (currentTerm j) →
  lastIndex j ≤ commitIndex j.
Proof.
  intros Hall Hnd Hsub Hq Hm Ht. apply Hall; [done|]. split; [done|]. etrans; [exact Hq|]. unfold replicaCount.
  enough (length Q ≤ length (filter (λ p, (lastIndex j ≤ default 0 (matchIndex j !! p))%N) (peers j)))%nat
    by (unfold lenN; lia).
  apply submseteq_length, NoDup_submseteq; [done|]. intros q Hin. apply list_elem_of_filter.
  split; [by rewrite (Hm q Hin)|by apply Hsub].
Qed.

(** ** The majority's commitments *)

Lemma majority_isQ m Q :
  let others := filter (λ q, q ≠ m) members in
  m ∈ members → NoDup Q → Q ⊆ others → quorum others ≤ 1 + lenN Q → isQ members (m :: Q).
Proof.
  intros others Hm Hnd Hsub Hq. split; [|split].
  - constructor; [|done]. by intros [? _]%Hsub%list_elem_of_filter.
  - by intros w [->|[_ ?]%Hsub%list_elem_of_filter]%elem_of_cons.
  - pose proof (length_others m members members_nodup Hm) as Hlen. fold others in Hlen. simpl.
    unfold quorum, lenN in Hq. pose proof (N.div_mod' (N.of_nat (length others) + 1) 2).
    pose proof (N.mod_lt (N.of_nat (length others) + 1) 2 ltac:(done)). lia.
Qed.

(** A majority that has reached no term above the leader's has committed nothing
    the leader lacks. *)
Lemma majority_covers c m j Q :
  reach c → p_node (procs c m) = Some j → state j = Leader → NoDup Q → quorum (peers j) ≤ 1 + lenN Q →
  (∀ q, q ∈ Q → q ∈ peers j ∧ ∃ n, p_node (procs c q) = Some n ∧ currentTerm n ≤ currentTerm j) →
  ∀ i n, p_node (procs c i) = Some n → commitIndex n ≤ lastIndex j ∧ covers j n.
Proof.
  intros Hc Hm Hl Hnd Hq HQ i n Hn. destruct (progress_rel c Hc) as (HE & s & HR).
  pose proof (R_inv _ _ _ _ HR) as HI. pose proof (R_core _ _ _ _ HR m j Hm) as Hj.
  pose proof (R_core _ _ _ _ HR i n Hn) as Hi. destruct (nc_commit _ _ _ _ Hi) as (Hf & Hci & Hcl & Hag).
  pose proof (node_shaped members s m HI (R_range _ _ _ _ HR)) as Sm.
  pose proof (node_shaped members s i HI (R_range _ _ _ _ HR)) as Si.
  assert (∀ k, (0 < k)%nat → (k ≤ length (cl s))%nat →
    (k ≤ length (plog (pn s m)))%nat ∧ tm (plog (pn s m)) k = tm (cl s) k) as Hall.
  { intros k Hk0 Hk. destruct (I_cl _ s HI) as [Hnil|(u & Q' & Hcert)]; [rewrite Hnil in Hk; simpl in Hk; lia|].
    destruct (I_cert _ s HI _ _ _ Hcert) as (HQ' & _ & L & HL & _).
    destruct (isQ_meet members Q' (m :: Q) HQ') as (w & Hw1 & Hw2).
    { rewrite (nc_peers _ _ _ _ Hj) in *. apply majority_isQ; [apply (inv_up _ c HE m j Hm)|done| |done].
      intros q Hin. by apply HQ. }
    destruct (I_cert_log _ s HI _ _ _ w L Hcert HL Hw1) as [Hu _]. assert (u ≤ pterm (pn s m)) as Hut.
    { rewrite <-(nc_term _ _ _ _ Hj). apply elem_of_cons in Hw2 as [->|Hw2]; [by rewrite (nc_term _ _ _ _ Hj)|].
      destruct (HQ w Hw2) as (_ & nw & Hnw & Htw). rewrite (nc_term _ _ _ _ (R_core _ _ _ _ HR w nw Hnw)) in Htw. lia. }
    pose proof (R_role _ _ _ _ HR m j Hm ltac:(done)) as Hrole. unfold role_rep in Hrole. rewrite Hl in Hrole.
    destruct (cert_complete _ (isQ_meet members) s HI _ u Q' _ _ Hcert Hut (proj1 Hrole)) as [HbL HagL].
    split; [lia|]. by apply (agree_tm 0 (length (cl s))). }
  unfold lastIndex. rewrite (rel_last members c s m j HR Hm). simpl. split.
  - destruct (decide (commitIndex n = 0)); [lia|]. destruct (Hall (N.to_nat (commitIndex n))); lia.
  - intros k t u Hk Ht Hu. rewrite (nc_log _ _ _ _ Hj) in Ht. rewrite (nc_log _ _ _ _ Hi) in Hu. destruct (Si) as (_ & _ & ?).
    apply (memlog_termAt_inv _ Sm) in Ht as (_ & _ & ->); [|lia]. apply (memlog_termAt_inv _ Si) in Hu as (_ & _ & ->); [|lia].
    destruct (decide (N.to_nat k = 0%nat)) as [->|]; [done|].
    rewrite (proj2 (Hall (N.to_nat k) ltac:(lia) ltac:(lia))). symmetry. by apply (agree_tm 0 (N.to_nat (commitIndex n))); [|lia..].
Qed.

(** ** A proposal *)

(** The leader after Propose. *)
Definition proposed j (command : bytes) j' : Prop :=
  log j' = log j ++ [mkEntry (currentTerm j) (lastIndex j + 1) command] ∧ currentTerm j' = currentTerm j ∧
  peers j' = peers j ∧ nextIndex j' = nextIndex j ∧ matchIndex j' = matchIndex j ∧ applierOf j' = applierOf j ∧
  commits_all j'.

Lemma proposes c m j command :
  let a := ProposeAnswer (inr (lastIndex j + 1, currentTerm j)) in
  reach c → in_range c → leading c m j → cmd_ok command = true → lastIndex j + 3 < u64_size →
  ∃ x, runAction (APropose command) (mkEnv 0 0) (mkCtx j (p_disk (procs c m)) [] []) = Ret a x ∧
    let c' := deliver c m (APropose command) a x in
    goes anything [m] c c' ∧ leading c' m (rn x) ∧ proposed j command (rn x).
Proof.
  intros a Hc Hr [(Hm & Hw & Hst) Hl] Hok Hroom. destruct (Hr) as (Hrn & _). destruct (Hrn m j Hm) as [Ht _].
  destruct (node_sane c m j Hc Hm) as [Hs Hlen]. destruct (leader_facts c m j Hc Hm Hl) as (Hup & _).
  set (j1 := j <| log := log j ++ [mkEntry (currentTerm j) (lastIndex j + 1) command] |>).
  destruct (step_runs anything c m j (APropose command) (λ a' j' o, a' = a ∧ signals o ∧
    ∃ k, j' = j1 <| commitIndex := k |> <| triggerCh := true |> ∧ commitsTo j1 k) I Hc Hr Hm Hw I Hok)
    as (a' & x & Hrun & Hgo & Hw' & -> & _ & k & Hx & Hk).
  - simpl. eapply does_bind; [apply (does_Propose works j command (base j) Hl Hs Hup)|].
    { unfold lastIndex in Hroom. lia. }
    intros r j' o (Ho & -> & Hex). apply does_ret. rewrite app_nil_r. split; [done|]. split; [done|exact Hex].
  - intros a' j' o (-> & Ho & k & -> & _). unfold small. split; [done|].
    split; [simpl; rewrite lastLogIndex_snoc; simpl; lia|]. split; [|done].
    eapply Forall_impl; [exact Ho|]. by intros ? ->.
  - exists x. split; [exact Hrun|]. split; [exact Hgo|]. split.
    + split; [|by rewrite Hx]. split; [|split]; simpl; rewrite ?fn_lookup_insert; [done|done|by rewrite Hx].
    + rewrite Hx. do 6 (split; [done|]). destruct Hk as (_ & _ & Hall). exact Hall.
Qed.

(** The followers are as they were. *)
Lemma proposed_reaches c m j j' command i n :
  reach c → in_range c → leading c m j → lastIndex j + 3 < u64_size → proposed j command j' →
  commitIndex n ≤ lastIndex j → covers j n → reaches j i n →
  lastIndex j' = lastIndex j + 1 ∧ matched j' i < lastIndex j' ∧ covers j' n ∧ reaches j' i n.
Proof.
  intros Hc Hr [(Hm & _ & _) Hl] Hroom (Hlog & _ & _ & Hnx & Hmx & _ & _) Hci Hcov (H1 & Hrch).
  destruct (node_sane c m j Hc Hm) as [(Hwf & Hb & _) Hlen].
  destruct (leader_facts c m j Hc Hm Hl) as (_ & Hnext & Hmat & _). specialize (Hnext i). specialize (Hmat i).
  assert (lastIndex j' = lastIndex j + 1) as Hlast by (unfold lastIndex at 1; by rewrite Hlog, lastLogIndex_snoc).
  assert (base j' = base j) as Hbase by (unfold base; rewrite Hlog; by destruct (log j)).
  assert (∀ k t, k ≤ lastIndex j → termAt (log j') k = Some t → termAt (log j) k = Some t) as Hterm.
  { intros k t Hk Ht. rewrite Hlog in Ht.
    destruct (termAt_snoc _ (base j) _ k t Hwf Hb ltac:(lia) ltac:(lia) Ht) as (_ & [[_ ?]|[-> _]]); [done|lia]. }
  split; [done|]. split; [unfold matched in *; rewrite Hmx; lia|]. split.
  - intros k t u Hk Ht. apply Hcov; [done|]. apply Hterm; [lia|done].
  - unfold reaches, matched, next in *. rewrite Hnx, Hmx, Hbase. split; [done|].
    destruct Hrch as [?|[?|(? & Hle & Hag)]]; [by left|by right; left|right; right]. split; [done|]. split; [done|].
    intros t u Ht. apply Hag. apply Hterm; [lia|done].
Qed.

(** What was proposed to a leader that can reach a majority is committed. *)
Lemma replicates c m j c1 j1 command Q :
  reach c → in_range c → leading c m j → lastIndex j + 3 < u64_size →
  goes anything [m] c c1 → leading c1 m j1 → proposed j command j1 →
  NoDup Q → quorum (peers j) ≤ 1 + lenN Q →
  (∀ q, q ∈ Q → q ∈ peers j ∧ ∃ n, runs_on c q n ∧ currentTerm n ≤ currentTerm j ∧ reaches j q n) →
  ∃ c' j', goes silent (m :: Q) c1 c' ∧ leading c' m j' ∧ currentTerm j' = currentTerm j ∧ applierOf j' = applierOf j ∧
    lastIndex j' = lastIndex j + 1 ∧ base j' < lastIndex j' ∧
    entryAt (log j') (lastIndex j + 1) = Some (mkEntry (currentTerm j) (lastIndex j + 1) command) ∧
    lastIndex j + 1 ≤ commitIndex j'.
Proof.
  intros Hc Hr Hlead Hroom Hgo1 Hlead1 Hprop Hnd Hq HQ. pose proof Hlead as [(Hm & _) Hl].
  destruct (leader_facts c m j Hc Hm Hl) as (_ & _ & _ & _ & Hself & _).
  pose proof Hprop as (Hlog & Ht & Hps & _ & _ & Hap & Hall).
  assert (lastIndex j1 = lastIndex j + 1) as Hlast by (unfold lastIndex at 1; by rewrite Hlog, lastLogIndex_snoc).
  destruct (all_catch_up Q c1 m j1 (go_reach _ _ _ _ Hgo1) (go_range _ _ _ _ Hgo1) Hlead1 Hall Hnd)
    as (c2 & j2 & Hl2 & Hlead2 & Ht2 & Hlog2 & Hps2 & Hap2 & Hall2 & HQ2 & _).
  { intros q Hin. destruct (HQ q Hin) as (Hp & n & Hrun & Htn & Hrch).
    destruct (majority_covers c m j Q Hc Hm Hl Hnd Hq) with (i := q) (n := n) as [Hci Hcov]; [|apply Hrun|].
    { intros q' Hin'. destruct (HQ q' Hin') as (? & n' & [? _] & ? & _). eauto. }
    destruct (proposed_reaches c m j j1 command q n) as (_ & ? & ? & ?); try done. split; [done|]. exists n. split; [|done].
    split; [|split; [by rewrite Hps|split; [by rewrite Ht|done]]]. unfold runs_on.
    by rewrite (go_others _ _ _ _ Hgo1 q) by (intros ->%list_elem_of_singleton; done). }
  destruct (node_sane c m j Hc Hm) as [(Hwf & Hb & _) Hlen].
  exists c2, j2. split; [done|]. split; [done|]. split; [congruence|]. split; [congruence|].
  assert (entryAt (log j2) (lastIndex j + 1) = Some (mkEntry (currentTerm j) (lastIndex j + 1) command)) as Hent.
  { rewrite Hlog2, Hlog, <-Hlen. apply entryAt_snoc; [done|done|lia]. }
  assert (lastIndex j2 = lastIndex j + 1) as Hlast2 by (rewrite <-Hlast; unfold lastIndex; by rewrite Hlog2).
  split; [done|]. split.
  { rewrite Hlast2. unfold base. rewrite Hlog2, Hlog. unfold base in Hb, Hlen. pose proof (log_wf_range _ Hwf _ Hb).
    destruct (log j); [done|]. simpl in *. lia. }
  split; [done|]. rewrite <-Hlast2. apply (majority_commits j2 Q); try done; [..|congruence| |].
  - intros q Hin. rewrite Hps2, Hps. by apply HQ.
  - by rewrite Hlast2, <-Hlast.
  - rewrite Hlast2. unfold termAt, entryAt in *. destruct (baseIndex (log j2)) as [b|]; [|done]. simpl in *.
    rewrite Hent. simpl. congruence.
Qed.

(** C12. A majority makes progress: in a reachable cluster, let a running leader
    and running followers, a majority together, have working disks, and let no
    follower of them have reached a later term.  If the leader can reach their
    logs (it has compacted nothing, or a snapshot would raise matchIndex, or
    nextIndex is above the boundary and the logs agree before it), then a command proposed to it is accepted, and there is an
    execution of the leader and these followers at the end of which it still
    leads its term, has the command in its log where Propose said, and has
    committed it.  What the followers' commitments have to do with the leader's
    log is not assumed: it follows. *)
Theorem proposal_commits c m j command Q :
  reach c → in_range c → leading c m j → cmd_ok command = true → lastIndex j + 3 < u64_size →
  NoDup Q → quorum (peers j) ≤ 1 + lenN Q →
  (∀ q, q ∈ Q → q ∈ peers j ∧ ∃ n, runs_on c q n ∧ currentTerm n ≤ currentTerm j ∧ reaches j q n) →
  ∃ c' j', later c c' ∧ leading c' m j' ∧ currentTerm j' = currentTerm j ∧
    entryAt (log j') (lastIndex j + 1) = Some (mkEntry (currentTerm j) (lastIndex j + 1) command) ∧
    lastIndex j + 1 ≤ commitIndex j'.
Proof.
  intros Hc Hr Hl Hok Hroom Hnd Hq HQ.
  destruct (proposes c m j command Hc Hr Hl Hok Hroom) as (x & _ & Hgo1 & Hlead1 & Hprop).
  destruct (replicates c m j _ _ command Q Hc Hr Hl Hroom Hgo1 Hlead1 Hprop Hnd Hq HQ)
    as (c' & j' & Hgo2 & ? & ? & _ & _ & _ & ? & ?).
  exists c', j'. split; [etrans; by eapply go_later|done].
Qed.

(** ** The applier *)

(** Nothing changed but what the applier owns. *)
Definition only_applied n n' : Prop :=
  ∃ sm la ap ps,
    n' = n <| stateMachine := sm |> <| lastApplied := la |> <| applier := ap |> <| pendingSnapshot := ps |>.

Lemma only_applied_refl n : only_applied n n.
Proof. exists (stateMachine n), (lastApplied n), (applier n), (pendingSnapshot n). by destruct n. Qed.

Lemma only_applied_trans n1 n2 n3 : only_applied n1 n2 → only_applied n2 n3 → only_applied n1 n3.
Proof. intros (? & ? & ? & ? & ->) (sm & la & ap & ps & ->). by exists sm, la, ap, ps. Qed.

(** One step of the applier. *)
Lemma applier_step c m n (Q : RaftNode SM → Prop) :
  reach c → in_range c → runs_on c m n → (∀ i t, applier n ≠ ApSnapshotting i t) →
  does works n applierStep (silently (λ _, Q)) → (∀ n', Q n' → only_applied n n') →
  ∃ c' n', goes applying_only [m] c c' ∧ runs_on c' m n' ∧ Q n'.
Proof.
  intros Hc Hr (Hm & Hw & Hup) Hsn Hdoes Hkeep. destruct (Hr) as (Hrn & _). destruct (Hrn m n Hm) as [Ht Hl].
  destruct (step_does applying_only c m n AApplier (λ a n' o, a = NoAnswer ∧ o = [] ∧ Q n') (conj eq_refl Hsn) Hc Hr Hm Hw I eq_refl)
    as (a & x & Hgo & Hw' & -> & _ & HQ).
  - simpl. eapply does_bind; [exact Hdoes|]. intros ? n' o [-> HQ]. by apply does_ret.
  - intros a n' o (-> & -> & HQ). destruct (Hkeep _ HQ) as (? & ? & ? & ? & ->). split; [done|]. split; [done|].
    split; [constructor|done].
  - eexists _, (rn x). split; [exact Hgo|]. split; [|done].
    destruct (Hkeep _ HQ) as (? & ? & ? & ? & Hx).
    split; [|split]; simpl; rewrite ?fn_lookup_insert; [done|done|by rewrite Hx].
Qed.

(** A snapshot that was received is restored first. *)
Lemma takes_snapshot c m n :
  reach c → in_range c → runs_on c m n → applier n = ApWaiting →
  ∃ c' n', goes applying_only [m] c c' ∧ runs_on c' m n' ∧ only_applied n n' ∧ applier n' = ApWaiting ∧ pendingSnapshot n' = None.
Proof.
  intros Hc Hr Hrun Hap. pose proof Hrun as (Hm & _ & Hup).
  destruct (pendingSnapshot n) as [sn|] eqn:Hp.
  2: { exists c, n. split; [by apply goes_refl|]. split; [done|]. split; [apply only_applied_refl|done]. }
  set (n1 := n <| pendingSnapshot := None |>).
  destruct (applier_step c m n (λ n', n' = if lastApplied n <? LastIncludedIndex sn then n1 <| applier := ApRestoring sn |> else n1)
    Hc Hr Hrun ltac:(intros ? ?; by rewrite Hap)) as (c1 & n' & Hgo1 & Hrun1 & ->).
  - apply does_get. rewrite Hap. apply does_get. rewrite Hp, Hup. apply does_set. apply does_when.
    + intros Hlt. rewrite Hlt. by apply does_modify.
    + intros Hlt. rewrite Hlt. done.
  - intros n' ->. destruct (_ <? _).
    + by exists (stateMachine n), (lastApplied n), (ApRestoring sn), None.
    + exists (stateMachine n), (lastApplied n), (applier n), None. unfold n1. by destruct n.
  - destruct (N.ltb_spec (lastApplied n) (LastIncludedIndex sn)).
    2: { exists c1, n1. split; [done|]. split; [done|]. split; [|done].
         exists (stateMachine n), (lastApplied n), (applier n), None. unfold n1. by destruct n. }
    pose proof Hrun1 as (Hm1 & _). destruct (progress_rel c1 (go_reach _ _ _ _ Hgo1)) as (_ & s & HR).
    pose proof (nc_applying _ _ _ _ (R_core _ _ _ _ HR m _ Hm1)) as Happ.
    destruct (applying_running s _ Happ) as [_ Hini]; [done|]. destruct Happ as (_ & _ & Hrep & _).
    rewrite Hini in Hrep. destruct Hrep as (Hsm & _ & _ & Hdata). simpl in Hsm. destruct (Snapshot_Restore _ _ Hdata) as [_ Hres].
    destruct (applier_step c1 m (n1 <| applier := ApRestoring sn |>) (λ n', only_applied n n' ∧ applier n' = ApWaiting ∧ pendingSnapshot n' = None)
      (go_reach _ _ _ _ Hgo1) (go_range _ _ _ _ Hgo1) Hrun1 ltac:(done)) as (c2 & n2 & Hgo2 & Hrun2 & Hn2 & Hap2 & Hp2).
    + apply does_get. simpl. apply does_get. simpl. rewrite Hsm, Hres. apply does_modify. split; [done|].
      split; [|done]. by exists (Some (state_at s (LastIncludedIndex sn))), (LastIncludedIndex sn), ApWaiting, None.
    + intros n' ((sm & la & ap & ps & ->) & _). by exists sm, la, ap, ps.
    + exists c2, n2. split; [by eapply goes_trans|done].
Qed.

(** ... then a batch of what is committed is taken, *)
Lemma takes_batch c m n :
  reach c → in_range c → runs_on c m n → applier n = ApWaiting → pendingSnapshot n = None → lastApplied n < commitIndex n →
  ∃ c' todo, goes applying_only [m] c c' ∧ runs_on c' m (n <| applier := ApApplying todo (commitIndex n - lastApplied n) |>).
Proof.
  intros Hc Hr Hrun Hap Hp Hlt. pose proof Hrun as (Hm & _ & Hup). destruct (progress_rel c Hc) as (_ & s & HR).
  pose proof (R_core _ _ _ _ HR m n Hm) as Hcore. destruct (node_sane c m n Hc Hm) as [(Hwf & Hb & Hci & Hci') _].
  destruct (log_wf_range _ Hwf _ Hb).
  assert (base n ≤ lastApplied n) as Hba.
  { destruct (nc_covered _ _ _ _ Hcore) as [Hle|(? & [?|?] & _)]; [|congruence..]. unfold base. by rewrite (nc_log _ _ _ _ Hcore). }
  destruct (applier_step c m n (λ n', ∃ todo, n' = n <| applier := ApApplying todo (commitIndex n - lastApplied n) |>)
    Hc Hr Hrun ltac:(intros ? ?; by rewrite Hap)) as (c1 & n' & Hgo & Hrun1 & todo & ->); [| |by exists c1, todo].
  - apply does_get. rewrite Hap. apply does_get. rewrite Hp, Hup, (proj2 (N.leb_gt _ _)) by done. simpl.
    rewrite u64_add_small by lia. eapply does_index; [apply (entriesFrom_in_range _ Hwf (base n)); [done|lia|lia]|].
    rewrite u64_sub_small by lia.
    assert (commitIndex n - lastApplied n ≤ lenN (drop (N.to_nat (lastApplied n + 1 - base n)) (log n))) as Hle.
    { unfold lenN in *. rewrite length_drop. lia. }
    eapply does_index; [by apply slice_to_le|]. set (batch := take _ _).
    assert (lenN batch = commitIndex n - lastApplied n) as -> by (unfold batch, lenN in *; rewrite length_take; lia).
    apply does_modify. split; [done|]. by exists batch.
  - intros n' (todo & ->). exists (stateMachine n), (lastApplied n), (ApApplying todo (commitIndex n - lastApplied n)), (pendingSnapshot n).
    by destruct n.
Qed.

(** ... applied entry by entry, *)
Lemma applies_batch todo : ∀ c m n k,
  reach c → in_range c → runs_on c m n → applier n = ApApplying todo k →
  ∃ c' n', goes applying_only [m] c c' ∧ runs_on c' m n' ∧ only_applied n n' ∧ lastApplied n' = lastApplied n ∧
    pendingSnapshot n' = pendingSnapshot n ∧ applier n' = ApApplying [] k.
Proof.
  induction todo as [|e todo IH]; intros c m n k Hc Hr Hrun Hap.
  { exists c, n. split; [by apply goes_refl|]. split; [done|]. split; [apply only_applied_refl|done]. }
  pose proof Hrun as (Hm & _). destruct (progress_rel c Hc) as (_ & s & HR).
  pose proof (nc_applying _ _ _ _ (R_core _ _ _ _ HR m _ Hm)) as Happ.
  destruct (applying_running s _ Happ) as [_ Hini]; [by rewrite Hap|]. destruct Happ as (_ & _ & Hrep & _).
  rewrite Hini in Hrep. unfold applier_rep in Hrep. rewrite Hap in Hrep. destruct Hrep as (_ & _ & Hsm & _).
  destruct (Apply_total (take (N.to_nat (lastApplied n + k - lenN (e :: todo))) (cl s)) e) as [sm Hsm'].
  set (n1 := n <| stateMachine := Some sm |> <| applier := ApApplying todo k |>).
  destruct (applier_step c m n (λ n', n' = n1) Hc Hr Hrun ltac:(intros ? ?; by rewrite Hap)) as (c1 & n' & Hgo1 & Hrun1 & ->).
  - apply does_get. rewrite Hap, Hsm. unfold state_at. rewrite Hsm'.
    eapply does_seq with (R := λ a n', a = sm ∧ n' = n); [by apply does_ret|]. intros ? n' [-> ->]. by apply does_modify.
  - intros n' ->. exists (Some sm), (lastApplied n), (ApApplying todo k), (pendingSnapshot n). unfold n1. by destruct n.
  - destruct (IH c1 m n1 k (go_reach _ _ _ _ Hgo1) (go_range _ _ _ _ Hgo1) Hrun1 eq_refl) as (c2 & n2 & Hgo2 & Hrun2 & Hn2 & ? & ? & ?).
    exists c2, n2. split; [by eapply goes_trans|]. split; [done|]. split; [|done]. eapply only_applied_trans; [|exact Hn2].
    exists (Some sm), (lastApplied n), (ApApplying todo k), (pendingSnapshot n). unfold n1. by destruct n.
Qed.

(** ... and counted as applied. *)
Lemma ends_batch c m n k :
  reach c → in_range c → runs_on c m n → applier n = ApApplying [] k → base n ≤ lastApplied n →
  ∃ c' n', goes applying_only [m] c c' ∧ runs_on c' m n' ∧ only_applied n n' ∧ lastApplied n' = lastApplied n + k.
Proof.
  intros Hc Hr Hrun Hap Hb. pose proof Hrun as (Hm & _). destruct (progress_rel c Hc) as (_ & s & HR).
  pose proof (R_core _ _ _ _ HR m _ Hm) as Hcore. pose proof (nc_applying _ _ _ _ Hcore) as Happ.
  destruct (applying_running s _ Happ) as [_ Hini]; [by rewrite Hap|]. destruct Happ as (_ & _ & Hrep & _).
  rewrite Hini in Hrep. unfold applier_rep in Hrep. rewrite Hap in Hrep. destruct Hrep as (Hk & _ & Hsm & _).
  destruct (node_sane c m n Hc Hm) as [Hs Hlen]. destruct (Hs) as (Hwf & Hbase & Hci & Hci').
  destruct (log_wf_range _ Hwf _ Hbase).
  set (n1 := n <| lastApplied := lastApplied n + k |> <| applier := ApWaiting |>).
  destruct (applier_step c m n (λ n', ∃ ap, n' = n1 <| applier := ap |>) Hc Hr Hrun ltac:(intros ? ?; by rewrite Hap)) as (c1 & n' & Hgo1 & Hrun1 & ap & ->).
  - apply does_get. rewrite Hap. apply does_set. rewrite u64_add_small by lia. apply does_get. simpl. rewrite Hsm.
    assert (silently (λ (_ : unit) n', ∃ ap, n' = n1 <| applier := ap |>) tt n1 []) as Hstay by (split; [done|]; by exists ApWaiting).
    destruct (_ || _); [by apply (does_ret works n1 tt)|]. eapply does_index; [exact Hbase|].
    destruct (_ <? _); [by apply (does_ret works n1 tt)|].
    destruct (sane_term n (base n) (lastApplied n + k) Hs) as [t Ht]; [lia..|]. eapply does_index; [exact Ht|].
    apply does_modify. split; [done|]. by eexists.
  - intros n' (ap & ->). exists (stateMachine n), (lastApplied n + k), ap, (pendingSnapshot n). unfold n1. by destruct n.
  - exists c1, (n1 <| applier := ap |>). split; [done|]. split; [done|]. split; [|done].
    exists (stateMachine n), (lastApplied n + k), ap, (pendingSnapshot n). unfold n1. by destruct n.
Qed.

(** The applier catches up with commitIndex. *)
Lemma applies c m n :
  reach c → in_range c → runs_on c m n → applier n = ApWaiting →
  ∃ c' n', goes applying_only [m] c c' ∧ runs_on c' m n' ∧ only_applied n n' ∧ commitIndex n ≤ lastApplied n'.
Proof.
  intros Hc Hr Hrun Hap. destruct (takes_snapshot c m n Hc Hr Hrun Hap) as (c1 & n1 & Hgo1 & Hrun1 & Hn1 & Hap1 & Hp1).
  assert (commitIndex n1 = commitIndex n) as Hci1 by (by destruct Hn1 as (? & ? & ? & ? & ->)).
  destruct (N.lt_ge_cases (lastApplied n1) (commitIndex n1)) as [Hlt|]; [|exists c1, n1; rewrite <-Hci1; done].
  destruct (takes_batch c1 m n1 (go_reach _ _ _ _ Hgo1) (go_range _ _ _ _ Hgo1) Hrun1 Hap1 Hp1 Hlt) as (c2 & todo & Hgo2 & Hrun2).
  destruct (applies_batch todo c2 m _ _ (go_reach _ _ _ _ Hgo2) (go_range _ _ _ _ Hgo2) Hrun2 eq_refl)
    as (c3 & n3 & Hgo3 & Hrun3 & Hn3 & Hla3 & Hp3 & Hap3).
  assert (only_applied n1 n3) as H13.
  { eapply only_applied_trans; [|exact Hn3].
    exists (stateMachine n1), (lastApplied n1), (ApApplying todo (commitIndex n1 - lastApplied n1)), (pendingSnapshot n1).
    by destruct n1. }
  destruct (ends_batch c3 m n3 _ (go_reach _ _ _ _ Hgo3) (go_range _ _ _ _ Hgo3) Hrun3 Hap3) as (c4 & n4 & Hgo4 & Hrun4 & Hn4 & Hla4).
  { destruct (progress_rel c3 (go_reach _ _ _ _ Hgo3)) as (_ & s & HR). pose proof (R_core _ _ _ _ HR m n3 (proj1 Hrun3)) as Hcore.
    unfold base. rewrite (nc_log _ _ _ _ Hcore). simpl in *.
    destruct (nc_covered _ _ _ _ Hcore) as [Hle|(? & [?|?] & _)]; [done|congruence..]. }
  exists c4, n4. split; [by eapply goes_trans; [eapply goes_trans; [eapply goes_trans|]|]; eauto|]. split; [done|].
  split; [by eapply only_applied_trans; [|eapply only_applied_trans]; eauto|]. rewrite Hla4, Hla3, <-Hci1. simpl. lia.
Qed.

(** The applier of a leader that has everything committed. *)
Lemma leader_applies c m j :
  reach c → in_range c → leading c m j → applier j = ApWaiting → lastIndex j ≤ commitIndex j →
  ∃ c' j', goes applying_only [m] c c' ∧ leading c' m j' ∧ only_applied j j' ∧
    commitIndex j' = lastIndex j' ∧ lastApplied j' = lastIndex j' ∧ initialSnapshotData j' = None.
Proof.
  intros Hc Hr [Hrun Hst] Hap Hci. destruct (applies c m j Hc Hr Hrun Hap) as (c2 & j2 & Hgo2 & Hrun2 & Hj2 & Hla).
  exists c2, j2. split; [done|]. pose proof (go_reach _ _ _ _ Hgo2) as Hc2. pose proof Hrun2 as (Hm2 & _).
  destruct (node_sane c2 m j2 Hc2 Hm2) as [(_ & _ & _ & Hci') Hlen]. destruct (progress_rel c2 Hc2) as (_ & s & HR).
  destruct (nc_applying _ _ _ _ (R_core _ _ _ _ HR m j2 Hm2)) as (Hla2 & _ & Hini & _).
  assert (started j2 = true) as Hstart.
  { destruct (progress_rel c Hc) as (_ & s1 & HR1).
    destruct (applying_running s1 _ (nc_applying _ _ _ _ (R_core _ _ _ _ HR1 m j (proj1 Hrun)))) as [? _]; [by rewrite Hap|].
    by destruct Hj2 as (? & ? & ? & ? & ->). }
  split; [split; [done|]; by destruct Hj2 as (? & ? & ? & ? & ->)|]. split; [done|].
  assert (lastIndex j2 = lastIndex j ∧ commitIndex j2 = commitIndex j) as [Hl2 Hc2'].
  { by destruct Hj2 as (? & ? & ? & ? & ->). }
  split; [lia|]. split; [lia|]. destruct (initialSnapshotData j2); [destruct Hini as [? _]; congruence|done].
Qed.

(** ** An election *)

Lemma node_last c i n : reach c → p_node (procs c i) = Some n → ∃ t, lastLogTerm (log n) = Some t.
Proof. intros Hc Hn. destruct (node_sane c i n Hc Hn) as [Hs _]. by eapply sane_lastTerm. Qed.

Definition lastTerm n : N := default 0 (lastLogTerm (log n)).

(** The vote of [q] can be won by [n] in term [t]. *)
Definition votes_for c n (t : N) (q : string) : Prop :=
  ∃ nq, runs_on c q nq ∧ currentTerm nq < t ∧
    upToDate (lastTerm n) (lastIndex n) (lastTerm nq) (lastIndex nq) = true.

(** A candidate of term [t] with [v] votes, waiting for the replies of [Q]. *)
Record standing c m n (t v : N) (Q : list string) : Prop := {
  st_runs : runs_on c m n;
  st_state : state n = Candidate;
  st_term : currentTerm n = t;
  st_votes : votes n !! t = Some v;
  st_few : v < quorum (peers n);
  st_sent q : q ∈ Q → (m, GoRequestVote q (mkRVArgs t m (lastIndex n) (lastTerm n))) ∈ sent c;
  st_pend q : q ∈ Q → (m, t, q) ∈ pend c
}.

(** The voter. *)
Lemma voter_grants c m n t v q Q :
  reach c → in_range c → standing c m n t v Q → q ∈ Q → q ≠ m → votes_for c n t q →
  ∃ c' nq, goes silent [q] c c' ∧ standing c' m n t v Q ∧ runs_on c' q nq ∧ currentTerm nq = t ∧
    (m, q, mkRVArgs t m (lastIndex n) (lastTerm n), mkRVReply t true) ∈ vreplies c'.
Proof.
  intros Hc Hr Hst Hq Hqm (nq & (Hnq & Hw & Hup) & Hlt & Hutd). set (args := mkRVArgs t m (lastIndex n) (lastTerm n)).
  destruct (Hst) as [(Hm & Hwm & Hsm) Hcand Ht Hv Hfew Hsent Hpend]. destruct (Hr) as (Hrn & _).
  destruct (Hrn m n Hm) as [Htm _]. destruct (Hrn q nq Hnq) as [_ Hlq].
  destruct (node_sane c q nq Hc Hnq) as [Hs _]. destruct (node_last c q nq Hc Hnq) as [u Hu].
  destruct (step_does silent c q nq (ARequestVote m args) (λ a n' o, a = VoteAnswer (mkRVReply t true) ∧ o = [] ∧
    same_log nq n' ∧ currentTerm n' = t) I Hc Hr Hnq Hw (Hsent q Hq) eq_refl) as (a & x & Hgo & Hw' & -> & Ho & Hlog & Htx).
  - simpl. eapply does_bind; [apply (does_vote works nq args (base nq) u Hs Hup Hlt Hu)|].
    { unfold lastTerm at 2 in Hutd. rewrite Hu in Hutd. exact Hutd. }
    intros r n' o (-> & -> & ? & ?). apply does_ret. done.
  - intros a n' o (-> & -> & (Hlog & _) & Htn). unfold small. rewrite Hlog, Htn. simpl.
    split; [lia|]. split; [done|]. split; [constructor|lia].
  - eexists _, (rn x). split; [exact Hgo|]. assert (m ∉ [q]) as Hmq by (intros ->%list_elem_of_singleton; done).
    split; [|split; [|split; [done|by left]]].
    + split; try done; [unfold runs_on; by rewrite (go_others _ _ _ _ Hgo m Hmq)|intros; by apply Hgo, Hsent|].
      intros q' Hq'. simpl. specialize (Hpend q' Hq'). set_solver.
    + split; [|split]; simpl; rewrite ?fn_lookup_insert; [done|done|]. destruct Hlog as (_ & _ & _ & ->). done.
Qed.

(** The candidate. *)
Lemma counts_vote c m n t v q Q args :
  let n' := n <| votes := <[t := v + 1]> (votes n) |> in
  reach c → in_range c → standing c m n t v (q :: Q) → q ∉ Q →
  (m, q, args, mkRVReply t true) ∈ vreplies c → RVA_Term args = t →
  ∃ c', goes silent [m] c c' ∧ (leading c' m (elected n') ∨ standing c' m n' t (v + 1) Q).
Proof.
  intros n' Hc Hr [(Hm & Hw & Hup) Hcand Ht Hv Hfew Hsent Hpend] Hq Hrep Harg. destruct (Hr) as (Hrn & _).
  destruct (Hrn m n Hm) as [Htm Hlm]. destruct (node_sane c m n Hc Hm) as [Hs _].
  destruct (step_does silent c m n (AVoteReply q t (mkRVReply t true)) (λ a x o, a = NoAnswer ∧
    if v + 1 =? quorum (peers n) then x = elected n' ∧ o = [GoReplication t] else x = n' ∧ o = []) I Hc Hr Hm Hw)
    as (a & x & Hgo & Hw' & -> & Hx).
  - split; [apply Hpend; by left|]. by exists args.
  - done.
  - simpl. rewrite <-Ht. eapply does_bind; [by apply (does_granted works n (mkRVReply (currentTerm n) true) (base n))|].
    intros ? x o. rewrite Ht, Hv. simpl. intros Hx. apply does_ret. rewrite app_nil_r. split; [done|exact Hx].
  - intros a x o [-> Hx]. unfold small. destruct (v + 1 =? quorum (peers n)); destruct Hx as [-> ->]; simpl;
      (split; [done|]; split; [done|]; split; [|done]); repeat constructor; simpl; lia.
  - exists (deliver c m (AVoteReply q t (mkRVReply t true)) NoAnswer x). split; [exact Hgo|].
    destruct (N.eqb_spec (v + 1) (quorum (peers n))) as [|Hne]; destruct Hx as [Hx _]; [left|right].
    + split; [|done]. split; [|split]; simpl; rewrite ?fn_lookup_insert; [by rewrite Hx|done|done].
    + split; simpl; try done.
      * split; [|split]; simpl; rewrite ?fn_lookup_insert; [by rewrite Hx|done|done].
      * by rewrite lookup_insert_eq.
      * lia.
      * intros q' Hq'. apply elem_of_app. left. apply Hsent. by right.
      * intros q' Hq'. apply elem_of_union_l, elem_of_difference. split; [apply Hpend; by right|].
        intros [= ->]%elem_of_singleton. done.
Qed.

Lemma votes_for_kept P c c' n n' t q l :
  goes P l c c' → q ∉ l → log n' = log n → votes_for c n t q → votes_for c' n' t q.
Proof.
  intros Hgo Hq Hlog (nq & Hrun & Hlt & Hup). exists nq. unfold runs_on, lastTerm, lastIndex in *.
  rewrite (go_others _ _ _ _ Hgo q Hq), Hlog. done.
Qed.

(** It takes office. *)
Definition took_office n j : Prop := ∃ vs, j = elected (n <| votes := vs |>).

Lemma wins Q c m n t v :
  reach c → in_range c → standing c m n t v Q → NoDup Q → m ∉ Q → quorum (peers n) ≤ v + lenN Q →
  (∀ q, q ∈ Q → votes_for c n t q) →
  ∃ c' j, goes silent (m :: Q) c c' ∧ leading c' m j ∧ took_office n j ∧
    ∀ q, q ∈ Q → ∃ nq, runs_on c' q nq ∧ currentTerm nq ≤ t.
Proof.
  revert c n v. induction Q as [|q Q IH]; intros c n v Hc Hr Hst Hnd Hself Hq Hvotes.
  { destruct Hst as [_ _ _ _ Hfew _ _]. unfold lenN in Hq. simpl in Hq. lia. }
  apply NoDup_cons in Hnd as [Hin Hnd]. rewrite elem_of_cons in Hself. assert (q ≠ m) as Hqm by (intros ->; tauto).
  destruct (voter_grants c m n t v q (q :: Q) Hc Hr Hst ltac:(by left) Hqm (Hvotes q ltac:(by left)))
    as (c1 & nq & Hgo1 & Hst1 & Hrun1 & Htq & Hrep).
  destruct (counts_vote c1 m n t v q Q _ (go_reach _ _ _ _ Hgo1) (go_range _ _ _ _ Hgo1) Hst1 Hin Hrep eq_refl)
    as (c2 & Hgo2 & Hcase).
  assert (goes silent [m; q] c c2) as Hgo12.
  { eapply goes_trans; (eapply goes_weaken; [|first [exact Hgo1|exact Hgo2]]); intros z; rewrite !elem_of_cons; tauto. }
  assert (∀ n' q', log n' = log n → q' ∈ Q → votes_for c2 n' t q') as Hvotes2.
  { intros n' q' Hlog Hq'. eapply (votes_for_kept _ c); [exact Hgo12| |exact Hlog|apply Hvotes; by right].
    intros [->|[->|?%not_elem_of_nil]%elem_of_cons]%elem_of_cons; [tauto|done|done]. }
  assert (runs_on c2 q nq) as Hrun2.
  { unfold runs_on. by rewrite (go_others _ _ _ _ Hgo2 q) by (intros ?%list_elem_of_singleton; done). }
  destruct Hcase as [Hlead|Hst2].
  - exists c2, (elected (n <| votes := <[t := v + 1]> (votes n) |>)).
    split; [eapply goes_weaken; [|exact Hgo12]; intros z; rewrite !elem_of_cons, elem_of_nil; tauto|].
    split; [done|]. split; [by eexists|]. intros q' [->|Hq']%elem_of_cons; [exists nq; split; [done|lia]|].
    destruct (Hvotes2 n q' eq_refl Hq') as (nq' & ? & ? & _). exists nq'. split; [done|lia].
  - destruct (IH c2 _ (v + 1) (go_reach _ _ _ _ Hgo2) (go_range _ _ _ _ Hgo2) Hst2 Hnd ltac:(tauto)) as (c3 & j & Hgo3 & Hlead & [vs ->] & Hterms).
    + simpl. unfold lenN in *. simpl in Hq. lia.
    + intros q' Hq'. by apply Hvotes2.
    + exists c3, (elected (n <| votes := vs |>)). split; [|split; [done|split; [by eexists|]]].
      * eapply goes_trans; (eapply goes_weaken; [|first [exact Hgo12|exact Hgo3]]); intros z; rewrite !elem_of_cons, ?elem_of_nil; tauto.
      * intros q' [->|Hq']%elem_of_cons; [|by apply Hterms]. exists nq. split; [|lia]. unfold runs_on.
        by rewrite (go_others _ _ _ _ Hgo3 q) by (rewrite elem_of_cons; tauto).
Qed.

(** *** The election timeout *)

(** A process that may stand. *)
Definition can_stand c m n : Prop := runs_on c m n ∧ started n = true ∧ state n ≠ Leader.

Lemma ticks c m n :
  reach c → in_range c → can_stand c m n → currentTerm n + 2 < u64_size →
  ∃ c' ra rt, goes silent [m] c c' ∧ let n' := candidacy n ra rt in
    if quorum (peers n) <=? 1 then leading c' m (elected n')
    else standing c' m n' (currentTerm n + 1) 1 (peers n).
Proof.
  intros Hc Hr ((Hm & Hw & Hup) & Hstart & Hnl) Hroom. destruct (Hr) as (Hrn & _). destruct (Hrn m n Hm) as [_ Hlm].
  destruct (node_sane c m n Hc Hm) as [Hs _]. destruct (node_last c m n Hc Hm) as [t Ht].
  destruct (progress_rel c Hc) as (HE & _). destruct (inv_up _ c HE m n Hm) as (_ & Hid & _).
  set (e := mkEnv (electionResetAt n + electionTimeout n) 0).
  destruct (does_startElection works n (base n) t Hs Ht ltac:(lia) e (mkCtx n (p_disk (procs c m)) [] []) eq_refl Hw)
    as ([] & x & o & Hrun & Hw' & Ho & ra & rt & Hx). simpl in Ho. subst o.
  assert (runAction ATick e (mkCtx n (p_disk (procs c m)) [] []) = Ret NoAnswer x) as Hact.
  { unfold runAction, electionTick. run_m. rewrite bool_decide_eq_false_2 by done. simpl.
    rewrite (proj2 (Z.leb_le _ _)) by lia. simpl. by rewrite Hrun. }
  exists (deliver c m ATick NoAnswer x), ra, rt. split.
  - eapply step_returns; [done|done|done|done|done|done|exact Hact|]. unfold small.
    destruct (quorum (peers n) <=? 1); destruct Hx as [-> ->]; simpl; (split; [lia|split; [done|split; [|done]]]).
    + repeat constructor. simpl. lia.
    + apply Forall_fmap, Forall_forall. intros q _. simpl. lia.
  - simpl. destruct (N.leb_spec (quorum (peers n)) 1); destruct Hx as [Hx Ho].
    + split; [|done]. split; [|split]; simpl; rewrite ?fn_lookup_insert; [by rewrite Hx|done|done].
    + assert (∀ q, q ∈ peers n → GoRequestVote q (canvass n t) ∈ out x) as Hreq
        by (intros q Hq; rewrite Ho; apply list_elem_of_fmap; by exists q).
      split; simpl; try done.
      * split; [|split]; simpl; rewrite ?fn_lookup_insert; [by rewrite Hx|done|done].
      * by rewrite lookup_insert_eq.
      * intros q Hq. apply elem_of_app. right. apply list_elem_of_fmap. eexists. split; [|by apply Hreq].
        unfold canvass, lastTerm, lastIndex. simpl. by rewrite Hid, Ht.
      * intros q Hq. apply elem_of_union_r, elem_of_list_to_set, list_elem_of_omap. eexists. split; [by apply Hreq|].
        done.
Qed.

(** A candidate that wins nothing stands again, until it has seen term [t]. *)
Lemma climbs k : ∀ c m n,
  reach c → in_range c → can_stand c m n → 1 < quorum (peers n) → currentTerm n + N.of_nat k + 1 < u64_size →
  ∃ c' n', goes silent [m] c c' ∧ can_stand c' m n' ∧ currentTerm n' = currentTerm n + N.of_nat k ∧
    log n' = log n ∧ peers n' = peers n ∧ applier n' = applier n.
Proof.
  induction k as [|k IH]; intros c m n Hc Hr Hcan Hq Hroom.
  { exists c, n. split; [by apply goes_refl|]. split; [done|]. split; [lia|done]. }
  destruct (ticks c m n Hc Hr Hcan ltac:(lia)) as (c1 & ra & rt & Hgo1 & Hst). cbv zeta in Hst.
  rewrite (proj2 (N.leb_gt _ _)) in Hst by done. destruct Hcan as (_ & Hstart & _).
  destruct (IH c1 m (candidacy n ra rt) (go_reach _ _ _ _ Hgo1) (go_range _ _ _ _ Hgo1)) as (c2 & n2 & Hgo2 & ? & Ht & ? & ? & ?);
    [split; [apply Hst|done]|done|simpl; lia|].
  exists c2, n2. split; [by eapply goes_trans|]. split; [done|]. simpl in Ht. split; [lia|done].
Qed.

(** ** Availability *)

(** The most up-to-date log of a list of logs. *)
Lemma most_up_to_date (f : string → N * N) Q :
  Q ≠ [] → ∃ m, m ∈ Q ∧ ∀ q, q ∈ Q → upToDate (f m).1 (f m).2 (f q).1 (f q).2 = true.
Proof.
  assert (∀ x y, upToDate x.1 x.2 y.1 y.2 = true ↔ y.1 < x.1 ∨ (x.1 = y.1 ∧ y.2 ≤ x.2)) as Hspec.
  { intros x y. unfold upToDate. rewrite orb_true_iff, andb_true_iff, N.ltb_lt, N.eqb_eq, N.leb_le. done. }
  induction Q as [|q Q IH]; [done|intros _]. destruct (decide (Q = [])) as [->|Hne].
  { exists q. split; [by left|]. intros q' ->%list_elem_of_singleton. apply Hspec. lia. }
  destruct (IH Hne) as (m & Hm & Hmax). destruct (upToDate (f m).1 (f m).2 (f q).1 (f q).2) eqn:Hq.
  - exists m. split; [by right|]. intros q' [->|Hq']%elem_of_cons; [done|by apply Hmax].
  - apply not_true_iff_false in Hq. rewrite Hspec in Hq. exists q. split; [by left|].
    intros q' [->|Hq']%elem_of_cons; apply Hspec; [lia|]. specialize (Hmax q' Hq'). rewrite Hspec in Hmax. lia.
Qed.

(** The new leader can reach everyone: it starts at the end of its log, knowing
    nothing of theirs. *)
Lemma office_reaches n j q nq : took_office n j → q ∈ peers n → reaches j q nq.
Proof.
  intros [vs ->] Hq. assert (∀ v : N, (list_to_map ((λ p, (p, v)) <$> peers n) : gmap string N) !! q = Some v) as Hmap.
  { intros v. induction (peers n) as [|p ps IH]; [by apply not_elem_of_nil in Hq|]. simpl.
    destruct (decide (p = q)) as [->|]; [apply lookup_insert_eq|]. rewrite lookup_insert_ne by done. apply IH.
    by apply elem_of_cons in Hq as [|]. }
  unfold reaches, next, matched. simpl. rewrite !Hmap. simpl. split; [lia|].
  destruct (decide (base (elected (n <| votes := vs |>)) = 0)); [by left|right; left; lia].
Qed.

Lemma quorum_alone ps : quorum ps ≤ 1 → ps = [].
Proof.
  unfold quorum, lenN. destruct ps as [|p ps]; [done|]. simpl. intros H1.
  pose proof (N.Div0.div_le_mono 2 (N.of_nat (S (length ps)) + 1) 2 ltac:(lia)) as Hd. change (2 / 2) with 1 in Hd. lia.
Qed.

(** Its election. *)
Lemma elects c m n t Q :
  reach c → in_range c → can_stand c m n → currentTerm n ≤ t → t + 2 < u64_size →
  NoDup Q → m ∉ Q → Q ⊆ peers n → quorum (peers n) ≤ 1 + lenN Q → (∀ q, q ∈ Q → votes_for c n (t + 1) q) →
  ∃ c' n' j, goes silent (m :: Q) c c' ∧ leading c' m j ∧ took_office n' j ∧ log n' = log n ∧ peers n' = peers n ∧ applier n' = applier n ∧
    ∀ q, q ∈ Q → ∃ nq, runs_on c' q nq ∧ currentTerm nq ≤ currentTerm j.
Proof.
  intros Hc Hr Hcan Ht Hroom Hnd Hself Hsub Hq Hvotes.
  destruct (decide (quorum (peers n) ≤ 1)) as [H1|H1].
  { destruct (ticks c m n Hc Hr Hcan ltac:(lia)) as (c1 & ra & rt & Hgo & Hlead). cbv zeta in Hlead.
    rewrite (proj2 (N.leb_le _ _)) in Hlead by done. exists c1, (candidacy n ra rt), (elected (candidacy n ra rt)).
    split; [eapply goes_weaken; [|exact Hgo]; intros z; rewrite !elem_of_cons, elem_of_nil; tauto|].
    split; [done|]. split; [by exists (votes (candidacy n ra rt))|]. do 3 (split; [done|]).
    intros q Hin%Hsub. rewrite (quorum_alone _ H1) in Hin. by apply not_elem_of_nil in Hin. }
  destruct (climbs (N.to_nat (t - currentTerm n)) c m n Hc Hr Hcan ltac:(lia) ltac:(lia))
    as (c1 & n1 & Hgo1 & Hcan1 & Ht1 & Hlog1 & Hps1 & Hap1).
  destruct (ticks c1 m n1 (go_reach _ _ _ _ Hgo1) (go_range _ _ _ _ Hgo1) Hcan1 ltac:(lia)) as (c2 & ra & rt & Hgo2 & Hst).
  cbv zeta in Hst. rewrite Hps1, (proj2 (N.leb_gt _ _)) in Hst by lia. replace (currentTerm n1) with t in Hst by lia.
  assert (∀ q, q ∈ Q → q ∉ [m]) as Hne by (intros q Hin ->%list_elem_of_singleton; done).
  destruct (wins Q c2 m (candidacy n1 ra rt) (t + 1) 1 (go_reach _ _ _ _ Hgo2) (go_range _ _ _ _ Hgo2))
    as (c3 & j & Hgo3 & Hlead & Hoff & Hterms); try done.
  - destruct Hst. split; try done; intros q Hin; auto.
  - simpl. by rewrite Hps1.
  - intros q Hin. eapply (votes_for_kept _ c); [by eapply goes_trans|by apply Hne|done|by apply Hvotes].
  - exists c3, (candidacy n1 ra rt), j. split; [|split; [done|split; [done|split; [done|split; [done|split; [done|]]]]]].
    + eapply goes_trans; [|exact Hgo3]. eapply goes_weaken; [|by eapply goes_trans].
      intros z; rewrite !elem_of_cons, elem_of_nil; tauto.
    + intros q Hin. destruct (Hterms q Hin) as (nq & ? & ?). exists nq. split; [done|]. destruct Hoff as [vs ->]. simpl. lia.
Qed.

(** The others of a majority of the members. *)
Lemma majority_others m Q :
  let others := filter (λ q, q ≠ m) members in
  let Q' := filter (λ q, q ≠ m) Q in
  NoDup Q → Q ⊆ members → m ∈ Q → (length members < 2 * length Q)%nat →
  NoDup Q' ∧ (m ∉ Q') ∧ Q' ⊆ others ∧ quorum others ≤ 1 + lenN Q'.
Proof.
  intros others Q' Hnd Hsub Hm Hmaj. split; [by apply NoDup_filter|]. split; [by intros [? _]%list_elem_of_filter|]. split.
  - intros q [? ?%Hsub]%list_elem_of_filter. by apply list_elem_of_filter.
  - pose proof (length_others m members members_nodup (Hsub _ Hm)) as H1. pose proof (length_others m Q Hnd Hm) as H2.
    fold others in H1. fold Q' in H2. unfold quorum, lenN.
    pose proof (N.Div0.mul_div_le (N.of_nat (length others) + 1) 2). lia.
Qed.

(** Whatever happened before, a majority of the members that run, started and on
    working disks, none of them leading, can elect one of them, one with the most
    up-to-date log, in an execution of these processes alone; and the leader
    can reach the logs of the others.  [t] bounds the terms they have seen. *)
Lemma majority_elects c Q t :
  reach c → in_range c → t + 2 < u64_size → NoDup Q → Q ⊆ members → (length members < 2 * length Q)%nat →
  (∀ q, q ∈ Q → ∃ n, can_stand c q n ∧ applier n = ApWaiting ∧ currentTerm n ≤ t ∧ lastIndex n + 3 < u64_size) →
  ∃ m c' j Q', m ∈ Q ∧ goes silent Q c c' ∧ leading c' m j ∧ applier j = ApWaiting ∧ lastIndex j + 3 < u64_size ∧
    NoDup Q' ∧ quorum (peers j) ≤ 1 + lenN Q' ∧
    ∀ q, q ∈ Q' → q ∈ peers j ∧ ∃ n, runs_on c' q n ∧ currentTerm n ≤ currentTerm j ∧ reaches j q n.
Proof.
  intros Hc Hr Hroom Hnd Hsub Hmaj HQ.
  set (pos q := match p_node (procs c q) with Some n => (lastTerm n, lastIndex n) | None => (0, 0) end).
  destruct (most_up_to_date pos Q) as (m & Hm & Hmax); [intros ->; simpl in Hmaj; lia|].
  destruct (HQ m Hm) as (n & Hcan & Hap & Ht & Hlast). pose proof Hcan as ((Hn & _) & _).
  destruct (majority_others m Q Hnd Hsub Hm Hmaj) as (Hnd' & Hself & Hsub' & Hq).
  destruct (progress_rel c Hc) as (_ & s & HR). pose proof (nc_peers _ _ _ _ (R_core _ _ _ _ HR m n Hn)) as Hps.
  rewrite <-Hps in Hsub', Hq. set (Q' := filter (λ q, q ≠ m) Q) in *.
  destruct (elects c m n t Q' Hc Hr Hcan Ht Hroom Hnd' Hself Hsub' Hq)
    as (c1 & n1 & j & Hgo & Hlead & Hoff & Hlog & Hps1 & Hap1 & Hterms).
  { intros q [_ Hin]%list_elem_of_filter. destruct (HQ q Hin) as (nq & (Hrun & _) & _ & Htq & _). exists nq.
    split; [done|]. split; [lia|]. specialize (Hmax q Hin). unfold pos in Hmax. rewrite Hn, (proj1 Hrun) in Hmax. done. }
  assert (log j = log n ∧ peers j = peers n ∧ applier j = ApWaiting) as (Hlogj & Hpsj & Hapj).
  { destruct Hoff as [vs ->]. simpl. rewrite Hlog, Hps1, Hap1. done. }
  exists m, c1, j, Q'. split; [done|]. split.
  { eapply goes_weaken; [|exact Hgo]. intros q [->|[_ ?]%list_elem_of_filter]%elem_of_cons; done. }
  split; [done|]. split; [done|]. split; [unfold lastIndex in *; by rewrite Hlogj|]. split; [done|].
  rewrite Hpsj. split; [done|]. intros q Hin. split; [by apply Hsub'|]. destruct (Hterms q Hin) as (nq & Hrun & Hle).
  exists nq. split; [done|]. split; [done|]. eapply office_reaches; [exact Hoff|]. rewrite Hps1. by apply Hsub'.
Qed.
End progress.
