(* ===== verification/Bytes.v ===== *)
(** * Bytes and their encodings (encoding/binary, hash/crc32, encoding/base64)

    The parts of Go's standard library that the stores and the key-value layer
    encode with, on byte lists ([N] below 256): little-endian 32-bit integers,
    the IEEE CRC-32, and standard base64 with padding. *)

From Stdlib Require Ascii String.
From S2P Require Import Prelude.

Definition byte_ok (b : N) : Prop := b < 256.

(** The bytes of a Go string or byte slice. *)
Definition toBytes (s : string) : list N := Ascii.N_of_ascii <$> String.list_ascii_of_string s.
Definition ofBytes (l : list N) : string := String.string_of_list_ascii (Ascii.ascii_of_N <$> l).

Lemma ofBytes_toBytes s : ofBytes (toBytes s) = s.
Proof.
  unfold ofBytes, toBytes. rewrite <-list_fmap_compose.
  rewrite <-(String.string_of_list_ascii_of_string s) at 2. f_equal.
  induction (String.list_ascii_of_string s) as [|a l IH]; [done|]. simpl. f_equal; [|done].
  apply Ascii.ascii_N_embedding.
Qed.

Lemma toBytes_ofBytes l : Forall byte_ok l → toBytes (ofBytes l) = l.
Proof.
  intros Hl. unfold ofBytes, toBytes. rewrite String.list_ascii_of_string_of_list_ascii.
  rewrite <-list_fmap_compose. induction Hl as [|b l Hb _ IH]; [done|]. simpl. f_equal; [|done].
  apply Ascii.N_ascii_embedding. exact Hb.
Qed.

Lemma toBytes_ok s : Forall byte_ok (toBytes s).
Proof.
  apply Forall_fmap, Forall_forall. intros a _. apply Ascii.N_ascii_bounded.
Qed.

(** ** Little-endian integers *)

(** binary.LittleEndian.PutUint32 *)
Definition putUint32 (v : N) : list N :=
  [v mod 256; v / 256 mod 256; v / 65536 mod 256; v / 16777216 mod 256].

(** binary.LittleEndian.Uint32 *)
Definition uint32 (a b c d : N) : N := a + 256 * b + 65536 * c + 16777216 * d.

(** The conversion uint32(x). *)
Definition toUint32 (x : N) : N := x mod 4294967296.

Lemma uint32_put v : v < 4294967296 →
  uint32 (v mod 256) (v / 256 mod 256) (v / 65536 mod 256) (v / 16777216 mod 256) = v.
Proof.
  intros Hv. unfold uint32.
  pose proof (N.div_mod' v 256). pose proof (N.div_mod' (v / 256) 256).
  pose proof (N.div_mod' (v / 65536) 256). pose proof (N.div_mod' (v / 16777216) 256).
  assert (v / 65536 = v / 256 / 256) by (rewrite N.Div0.div_div; done).
  assert (v / 16777216 = v / 65536 / 256) by (rewrite N.Div0.div_div; done).
  assert (v / 16777216 / 256 = 0) as Hz by (rewrite N.Div0.div_div; by apply N.div_small).
  rewrite <-H3 in H0. rewrite <-H4 in H1. rewrite Hz in H2. lia.
Qed.

Lemma putUint32_ok v : Forall byte_ok (putUint32 v).
Proof. unfold putUint32, byte_ok. repeat constructor; by apply N.mod_lt. Qed.

(** ** CRC-32 *)

(** One bit of the reflected IEEE polynomial. *)
Definition crcBit (crc : N) : N :=
  if N.testbit crc 0 then N.lxor (N.shiftr crc 1) 3988292384 else N.shiftr crc 1.

Definition crcByte (crc b : N) : N := Nat.iter 8 crcBit (N.lxor crc b).

(** crc32.ChecksumIEEE *)
Definition ChecksumIEEE (data : list N) : N :=
  N.lxor (foldl crcByte 4294967295 data) 4294967295.

(** The check value of the CRC-32 catalogue, for the bytes of 123456789. *)
Example crc_check_value : ChecksumIEEE (toBytes "123456789") = 3421780262.
Proof. by vm_compute. Qed.

(** A checksum fits 32 bits. *)
Lemma lxor_lt a b k : a < 2 ^ k → b < 2 ^ k → N.lxor a b < 2 ^ k.
Proof.
  intros Ha Hb. apply N.div_small_iff; [apply N.pow_nonzero; done|].
  rewrite <-N.shiftr_div_pow2, N.shiftr_lxor, !N.shiftr_div_pow2, !N.div_small by done. done.
Qed.

Lemma crcBit_lt crc : crc < 2 ^ 32 → crcBit crc < 2 ^ 32.
Proof.
  intros Hc. assert (N.shiftr crc 1 < 2 ^ 32).
  { rewrite N.shiftr_div_pow2. eapply N.le_lt_trans; [apply N.Div0.div_le_upper_bound|exact Hc].
    change (2 ^ 1) with 2. lia. }
  unfold crcBit. destruct (N.testbit crc 0); [|done]. by apply lxor_lt.
Qed.

Lemma crcByte_lt crc b : crc < 2 ^ 32 → byte_ok b → crcByte crc b < 2 ^ 32.
Proof.
  intros Hc Hb. unfold crcByte. assert (N.lxor crc b < 2 ^ 32) as Hx.
  { apply lxor_lt; [done|]. eapply N.lt_trans; [exact Hb|done]. }
  revert Hx. generalize (N.lxor crc b). intros x Hx. simpl. by repeat apply crcBit_lt.
Qed.

Lemma ChecksumIEEE_lt data : Forall byte_ok data → ChecksumIEEE data < 4294967296.
Proof.
  intros Hd. unfold ChecksumIEEE. change 4294967296 with (2 ^ 32). apply lxor_lt; [|done].
  assert (4294967295 < 2 ^ 32) as Hi by done. revert Hi. generalize 4294967295.
  induction Hd as [|b data Hb _ IH]; intros crc Hc; simpl; [done|]. apply IH. by apply crcByte_lt.
Qed.

(** ** Base64 (base64.StdEncoding) *)

(** The alphabet: A-Z a-z 0-9 + / *)
Definition b64char (v : N) : N :=
  if v <? 26 then 65 + v
  else if v <? 52 then 97 + (v - 26)
  else if v <? 62 then 48 + (v - 52)
  else if v =? 62 then 43 else 47.

Definition b64value (c : N) : option N :=
  if (65 <=? c) && (c <=? 90) then Some (c - 65)
  else if (97 <=? c) && (c <=? 122) then Some (c - 97 + 26)
  else if (48 <=? c) && (c <=? 57) then Some (c - 48 + 52)
  else if c =? 43 then Some 62
  else if c =? 47 then Some 63
  else None.

Fixpoint EncodeToString (l : list N) : list N :=
  match l with
  | [] => []
  | [a] => [b64char (a / 4); b64char (a mod 4 * 16); 61; 61]
  | [a; b] => [b64char (a / 4); b64char (a mod 4 * 16 + b / 16); b64char (b mod 16 * 4); 61]
  | a :: b :: c :: l' =>
    b64char (a / 4) :: b64char (a mod 4 * 16 + b / 16) ::
    b64char (b mod 16 * 4 + c / 64) :: b64char (c mod 64) :: EncodeToString l'
  end.

(** A quantum of four characters; [61] is the padding character, which may only
    end the input. *)
Fixpoint decodeQuanta (l : list N) : option (list N) :=
  match l with
  | [] => Some []
  | c1 :: c2 :: c3 :: c4 :: l' =>
    a ← b64value c1;
    b ← b64value c2;
    if c3 =? 61 then
      if (c4 =? 61) && bool_decide (l' = []) then Some [a * 4 + b / 16] else None
    else
      c ← b64value c3;
      if c4 =? 61 then
        if bool_decide (l' = []) then Some [a * 4 + b / 16; b mod 16 * 16 + c / 4] else None
      else
        d ← b64value c4;
        r ← decodeQuanta l';
        Some (a * 4 + b / 16 :: b mod 16 * 16 + c / 4 :: c mod 4 * 64 + d :: r)
  | _ => None
  end.

(** DecodeString: newlines are ignored. *)
Definition DecodeString (l : list N) : option (list N) :=
  decodeQuanta (filter (λ c, c ≠ 10 ∧ c ≠ 13) l).

Lemma b64value_char v : v < 64 → b64value (b64char v) = Some v.
Proof.
  intros Hv. unfold b64value, b64char. split_guards; simpl; split_guards; simpl; try lia;
    split_guards; simpl; try lia; f_equal; lia.
Qed.

(** What an encoding consists of: letters, digits and the characters + / and =. *)
Definition b64ok (c : N) : bool :=
  ((65 <=? c) && (c <=? 90)) || ((97 <=? c) && (c <=? 122)) || ((48 <=? c) && (c <=? 57)) ||
  (c =? 43) || (c =? 47) || (c =? 61).

Lemma b64char_ok v : v < 64 → b64ok (b64char v) = true ∧ b64char v ≠ 61.
Proof. intros Hv. unfold b64ok, b64char. split_guards; simpl; split; lia. Qed.

#[local] Ltac Zify.zify_post_hook ::= Z.to_euclidean_division_equations.

(** Induction in steps of three. *)
Lemma triple_ind (P : list N → Prop) :
  P [] → (∀ a, P [a]) → (∀ a b, P [a; b]) → (∀ a b c l, P l → P (a :: b :: c :: l)) → ∀ l, P l.
Proof.
  intros H0 H1 H2 H3 l. assert (∀ n l, (length l ≤ n)%nat → P l) as H; [|by apply (H (length l))].
  induction n as [|n IH]; intros [|a [|b [|c l']]] Hl; simpl in *; auto; try lia.
  apply H3, IH. lia.
Qed.

Lemma decodeQuanta_encode l : Forall byte_ok l → decodeQuanta (EncodeToString l) = Some l.
Proof.
  unfold byte_ok. induction l as [|a|a b|a b c l IH] using triple_ind; intros Hl; [done|..];
    repeat match goal with H : Forall _ (_ :: _) |- _ => inversion_clear H end; cbn -[N.div N.modulo N.mul N.add].
  - rewrite !b64value_char by lia. simpl. f_equal. f_equal. lia.
  - rewrite !b64value_char by lia. simpl.
    rewrite (proj2 (N.eqb_neq _ _)) by (apply b64char_ok; lia).
    rewrite ?b64value_char by lia. simpl. f_equal. f_equal; [lia|]. f_equal. lia.
  - rewrite !b64value_char by lia. simpl.
    rewrite !(proj2 (N.eqb_neq _ _)) by (apply b64char_ok; lia).
    rewrite ?b64value_char by lia. simpl. rewrite IH by done. simpl.
    f_equal. f_equal; [lia|]. f_equal; [lia|]. f_equal. lia.
Qed.

Lemma EncodeToString_ok l : Forall byte_ok l → Forall (λ c, b64ok c = true) (EncodeToString l).
Proof.
  unfold byte_ok. induction l as [|a|a b|a b c l IH] using triple_ind; intros Hl; [constructor|..];
    repeat match goal with H : Forall _ (_ :: _) |- _ => inversion_clear H end;
    cbn -[N.div N.modulo N.mul N.add];
    repeat (constructor; [done || (apply b64char_ok; lia)|]); try constructor; auto.
Qed.

(** Decoding after encoding. *)
Lemma base64_roundtrip l : Forall byte_ok l → DecodeString (EncodeToString l) = Some l.
Proof.
  intros Hl. unfold DecodeString. rewrite <-(decodeQuanta_encode l Hl). f_equal.
  induction (EncodeToString_ok l Hl) as [|c r Hc _ IH]; [done|].
  rewrite filter_cons_True, IH; [done|]. unfold b64ok in Hc. split; intros ->; done.
Qed.

Lemma EncodeToString_length l : length (EncodeToString l) = (4 * ((length l + 2) / 3))%nat.
Proof.
  induction l as [|a|a b|a b c l IH] using triple_ind; [done..|]. simpl length. rewrite IH.
  replace (S (S (S (length l))) + 2)%nat with (length l + 2 + 1 * 3)%nat by lia.
  rewrite Nat.div_add by done. lia.
Qed.
