(* ===== verification/Utf8.v ===== *)
(** * UTF-8 (unicode/utf8)

    Decoding and encoding of runes as Go does it: a byte that starts no valid
    sequence decodes to the replacement character with size 1. *)

From S2P Require Import Prelude Bytes.

Definition RuneError : N := 65533.

Definition cont (lo hi b : N) : bool := (lo <=? b) && (b <=? hi).

(** utf8.DecodeRune: the first rune and its size in bytes. *)
Definition decodeRune (l : list N) : N * nat :=
  match l with
  | [] => (RuneError, 0%nat)
  | b0 :: t =>
    let two :=
      match t with
      | b1 :: _ => if cont 128 191 b1 then ((b0 - 192) * 64 + (b1 - 128), 2%nat) else (RuneError, 1%nat)
      | _ => (RuneError, 1%nat)
      end in
    let three lo hi :=
      match t with
      | b1 :: b2 :: _ =>
        if cont lo hi b1 && cont 128 191 b2
        then (((b0 - 224) * 64 + (b1 - 128)) * 64 + (b2 - 128), 3%nat) else (RuneError, 1%nat)
      | _ => (RuneError, 1%nat)
      end in
    let four lo hi :=
      match t with
      | b1 :: b2 :: b3 :: _ =>
        if cont lo hi b1 && cont 128 191 b2 && cont 128 191 b3
        then ((((b0 - 240) * 64 + (b1 - 128)) * 64 + (b2 - 128)) * 64 + (b3 - 128), 4%nat)
        else (RuneError, 1%nat)
      | _ => (RuneError, 1%nat)
      end in
    if b0 <? 128 then (b0, 1%nat)
    else if b0 <? 194 then (RuneError, 1%nat)
    else if b0 <? 224 then two
    else if b0 =? 224 then three 160 191
    else if b0 =? 237 then three 128 159
    else if b0 <? 240 then three 128 191
    else if b0 =? 240 then four 144 191
    else if b0 <? 244 then four 128 191
    else if b0 =? 244 then four 128 143
    else (RuneError, 1%nat)
  end.

Definition isSurrogate (r : N) : bool := (55296 <=? r) && (r <? 57344).

(** utf8.EncodeRune *)
Definition encodeRune (r : N) : list N :=
  if r <? 128 then [r]
  else if r <? 2048 then [192 + r / 64; 128 + r mod 64]
  else if isSurrogate r || (1114112 <=? r) then [239; 191; 189]
  else if r <? 65536 then [224 + r / 4096; 128 + r / 64 mod 64; 128 + r mod 64]
  else [240 + r / 262144; 128 + r / 4096 mod 64; 128 + r / 64 mod 64; 128 + r mod 64].

(** The sequence at the head of the input is not valid UTF-8. *)
Definition badRune (rn : N * nat) : bool := (rn.1 =? RuneError) && (rn.2 =? 1)%nat.

(** Byte strings that are valid UTF-8. *)
Inductive utf8 : list N → Prop :=
| utf8_nil : utf8 []
| utf8_rune l : l ≠ [] → badRune (decodeRune l) = false → utf8 (drop (decodeRune l).2 l) → utf8 l.

(** utf8.Valid *)
Fixpoint validFrom (fuel : nat) (l : list N) : bool :=
  match fuel, l with
  | _, [] => true
  | O, _ => false
  | S fuel', _ =>
    if badRune (decodeRune l) then false else validFrom fuel' (drop (decodeRune l).2 l)
  end.
Definition Valid (l : list N) : bool := validFrom (length l) l.

#[local] Ltac Zify.zify_post_hook ::= Z.to_euclidean_division_equations.

(** Split a decoding into its branches. *)
Ltac split_rune :=
  repeat match goal with
  | |- context [if ?b then _ else _] => destruct b eqn:?
  | |- context [match ?t with [] => _ | _ :: _ => _ end] => is_var t; destruct t
  | H : context [if ?b then _ else _] |- _ => destruct b eqn:?
  | H : context [match ?t with [] => _ | _ :: _ => _ end] |- _ => is_var t; destruct t
  end.

(** A rune is between one and four bytes long and inside the input. *)
Lemma decodeRune_size l : l ≠ [] → (1 ≤ (decodeRune l).2 ≤ length l)%nat.
Proof. intros Hl. destruct l as [|b0 t]; [done|]. unfold decodeRune. split_rune; simpl; lia. Qed.

Lemma validFrom_sound fuel l : validFrom fuel l = true → utf8 l.
Proof.
  revert l. induction fuel as [|fuel IH]; intros l H; (destruct l as [|b t]; [constructor|]); [done|].
  cbn [validFrom] in H. destruct (badRune (decodeRune (b :: t))) eqn:Hb; [done|].
  by apply utf8_rune; [|exact Hb|apply IH].
Qed.

Lemma utf8_validFrom l fuel : utf8 l → (length l ≤ fuel)%nat → validFrom fuel l = true.
Proof.
  intros Hl. revert fuel. induction Hl as [|l Hne Hb Hl IH]; intros fuel Hf; [by destruct fuel|].
  pose proof (decodeRune_size l Hne). destruct l as [|b t]; [done|]. destruct fuel as [|fuel]; [simpl in Hf; lia|].
  cbn [validFrom]. rewrite Hb. apply IH. rewrite length_drop. lia.
Qed.

Lemma Valid_utf8 l : Valid l = true ↔ utf8 l.
Proof. split; [apply validFrom_sound|]. intros Hl. by apply utf8_validFrom. Qed.

(** A valid rune does not depend on what follows it. *)
Lemma decodeRune_app l k :
  l ≠ [] → badRune (decodeRune l) = false → decodeRune (l ++ k) = decodeRune l.
Proof.
  intros Hl Hb. destruct l as [|b0 t]; [done|]. simpl app. unfold decodeRune in *.
  repeat match goal with |- context [if ?b then _ else _] => destruct b; [try done|]
                       | |- context [b0 =? ?n] => destruct (b0 =? n); [try done|] end;
  destruct t as [|b1 [|b2 [|b3 t]]]; simpl app; done.
Qed.

Lemma encode_two b0 b1 :
  194 ≤ b0 → b0 < 224 → 128 ≤ b1 → b1 ≤ 191 →
  encodeRune ((b0 - 192) * 64 + (b1 - 128)) = [b0; b1].
Proof.
  intros. unfold encodeRune. rewrite (proj2 (N.ltb_ge _ _)) by lia. rewrite (proj2 (N.ltb_lt _ _)) by lia.
  f_equal; [lia|]. f_equal. lia.
Qed.

Lemma encode_three b0 b1 b2 :
  224 ≤ b0 → b0 < 240 → 128 ≤ b1 → b1 ≤ 191 → 128 ≤ b2 → b2 ≤ 191 →
  (b0 = 224 → 160 ≤ b1) → (b0 = 237 → b1 ≤ 159) →
  encodeRune (((b0 - 224) * 64 + (b1 - 128)) * 64 + (b2 - 128)) = [b0; b1; b2].
Proof.
  intros. set (r := ((b0 - 224) * 64 + (b1 - 128)) * 64 + (b2 - 128)).
  assert (2048 ≤ r ∧ r < 65536 ∧ ¬ (55296 ≤ r ∧ r < 57344)) as (? & ? & Hs).
  { unfold r. split; [|split]; [lia|lia|]. intros [? ?]. lia. }
  unfold encodeRune, isSurrogate. rewrite !(proj2 (N.ltb_ge r _)) by lia.
  destruct ((55296 <=? r) && (r <? 57344)) eqn:Hsur.
  { apply andb_true_iff in Hsur as [?%N.leb_le ?%N.ltb_lt]. by destruct Hs. }
  rewrite (proj2 (N.leb_gt _ _)) by lia. simpl. rewrite (proj2 (N.ltb_lt _ _)) by lia.
  unfold r. f_equal; [lia|]. f_equal; [lia|]. f_equal. lia.
Qed.

Lemma encode_four b0 b1 b2 b3 :
  240 ≤ b0 → b0 ≤ 244 → 128 ≤ b1 → b1 ≤ 191 → 128 ≤ b2 → b2 ≤ 191 → 128 ≤ b3 → b3 ≤ 191 →
  (b0 = 240 → 144 ≤ b1) → (b0 = 244 → b1 ≤ 143) →
  encodeRune ((((b0 - 240) * 64 + (b1 - 128)) * 64 + (b2 - 128)) * 64 + (b3 - 128)) =
  [b0; b1; b2; b3].
Proof.
  intros. set (r := (((b0 - 240) * 64 + (b1 - 128)) * 64 + (b2 - 128)) * 64 + (b3 - 128)).
  assert (65536 ≤ r ∧ r < 1114112) as [? ?] by (unfold r; lia).
  unfold encodeRune, isSurrogate. rewrite !(proj2 (N.ltb_ge r _)) by lia.
  rewrite andb_false_r. rewrite (proj2 (N.leb_gt _ _)) by lia. simpl.
  unfold r. f_equal; [lia|]. f_equal; [lia|]. f_equal; [lia|]. f_equal. lia.
Qed.

(** Encoding a decoded rune gives its bytes back. *)
Lemma encode_decode l :
  l ≠ [] → badRune (decodeRune l) = false →
  encodeRune (decodeRune l).1 = take (decodeRune l).2 l.
Proof.
  intros Hl Hb. destruct l as [|b0 t]; [done|]. revert Hb. unfold decodeRune, badRune, cont.
  split_rune; simpl; try done; intros _;
    rewrite ?andb_true_iff, ?N.ltb_lt, ?N.ltb_ge, ?N.eqb_eq, ?N.eqb_neq, ?N.leb_le in *;
    rewrite ?take_0.
  all: try (apply encode_two; lia).
  all: try (apply encode_three; lia).
  all: try (apply encode_four; lia).
  unfold encodeRune. by rewrite (proj2 (N.ltb_lt _ _)).
Qed.

Lemma utf8_app l k : utf8 l → utf8 k → utf8 (l ++ k).
Proof.
  intros Hl Hk. induction Hl as [|l Hne Hb Hl IH]; [done|].
  pose proof (decodeRune_size l Hne).
  apply utf8_rune; [by destruct l| |]; rewrite decodeRune_app by done; [done|].
  by rewrite drop_app_le by lia.
Qed.

(** A single rune. *)
Lemma utf8_one l r n : decodeRune l = (r, n) → l ≠ [] → length l = n → badRune (r, n) = false → utf8 l.
Proof.
  intros Hd Hne Hlen Hb. apply utf8_rune; [done|by rewrite Hd|]. rewrite Hd. simpl.
  rewrite drop_ge by lia. constructor.
Qed.

Lemma cont_true lo hi b : lo ≤ b → b ≤ hi → cont lo hi b = true.
Proof. intros. unfold cont. apply andb_true_iff. split; by apply N.leb_le. Qed.

#[local] Ltac conts := rewrite !cont_true by lia; first [done|by simpl; rewrite andb_false_r|constructor].

(** What EncodeRune writes is valid. *)
Lemma encodeRune_utf8 r : utf8 (encodeRune r).
Proof.
  unfold encodeRune, isSurrogate.
  destruct (N.ltb_spec r 128).
  { eapply utf8_one; [unfold decodeRune; by rewrite (proj2 (N.ltb_lt _ _))|done|done|].
    unfold badRune, RuneError. simpl. by rewrite (proj2 (N.eqb_neq _ _)) by lia. }
  destruct (N.ltb_spec r 2048).
  { eapply utf8_one; [|done|done|].
    - unfold decodeRune. rewrite !(proj2 (N.ltb_ge (192 + _) _)) by lia.
      rewrite (proj2 (N.ltb_lt (192 + _) _)) by lia. by rewrite cont_true by lia.
    - unfold badRune. simpl. by rewrite andb_false_r. }
  destruct ((55296 <=? r) && (r <? 57344)) eqn:Hsur; simpl orb; [by apply Valid_utf8|].
  destruct (N.leb_spec 1114112 r); [by apply Valid_utf8|].
  apply andb_false_iff in Hsur. rewrite N.leb_gt, N.ltb_ge in Hsur.
  destruct (N.ltb_spec r 65536).
  - apply utf8_rune; [done|..]; unfold decodeRune, badRune; rewrite !(proj2 (N.ltb_ge (224 + _) _)) by lia.
    all: destruct (N.eqb_spec (224 + r / 4096) 224); [conts|].
    all: destruct (N.eqb_spec (224 + r / 4096) 237); [conts|].
    all: rewrite (proj2 (N.ltb_lt (224 + _) _)) by lia; conts.
  - apply utf8_rune; [done|..]; unfold decodeRune, badRune; rewrite !(proj2 (N.ltb_ge (240 + _) _)) by lia.
    all: rewrite (proj2 (N.eqb_neq (240 + _) 224)), (proj2 (N.eqb_neq (240 + _) 237)) by lia.
    all: destruct (N.eqb_spec (240 + r / 262144) 240); [conts|].
    all: destruct (N.ltb_spec (240 + r / 262144) 244); [conts|].
    all: rewrite (proj2 (N.eqb_eq (240 + _) 244)) by lia; conts.
Qed.

Lemma utf8_bytes l : utf8 l → Forall byte_ok l.
Proof.
  induction 1 as [|l Hne Hb _ IH]; [constructor|].
  rewrite <-(take_drop (decodeRune l).2 l). apply Forall_app. split; [|done]. clear IH.
  destruct l as [|b0 t]; [done|]. revert Hb. unfold decodeRune, badRune, cont.
  split_rune; simpl; try done; intros _;
    rewrite ?andb_true_iff, ?N.ltb_lt, ?N.ltb_ge, ?N.eqb_eq, ?N.eqb_neq, ?N.leb_le in *;
    rewrite ?take_0; repeat constructor; unfold byte_ok; lia.
Qed.
