(* ===== verification/Json.v ===== *)
(** * JSON (encoding/json)

    Marshal and Unmarshal as the sources use them: the grammar the decoder
    accepts, strings with their escapes and their treatment of invalid UTF-8,
    numbers as literals, objects as the list of their members.  What a struct
    does with the members is the business of the files that decode one.  The
    round trips hold of what Marshal prints for the flat structs of this
    program. *)

From S2P Require Import Prelude Bytes Utf8.

(** ** Strings *)

Definition hexDigit (v : N) : N := if v <? 10 then 48 + v else 87 + v.

Definition hexValue (c : N) : option N :=
  if (48 <=? c) && (c <=? 57) then Some (c - 48)
  else if (97 <=? c) && (c <=? 102) then Some (c - 87)
  else if (65 <=? c) && (c <=? 70) then Some (c - 55)
  else None.

(** The ASCII characters Marshal leaves alone: printable, and none of the quote,
    the backslash, and the characters special in HTML. *)
Definition htmlSafe (b : N) : bool :=
  (32 <=? b) && negb (b =? 34) && negb (b =? 92) && negb (b =? 38) && negb (b =? 60) &&
  negb (b =? 62).

Definition escapeByte (b : N) : list N :=
  if (b =? 92) || (b =? 34) then [92; b]
  else if b =? 8 then [92; 98]
  else if b =? 12 then [92; 102]
  else if b =? 10 then [92; 110]
  else if b =? 13 then [92; 114]
  else if b =? 9 then [92; 116]
  else [92; 117; 48; 48; hexDigit (b / 16); hexDigit (b mod 16)].

(** appendString, without the quotes. *)
Fixpoint quoteFrom (fuel : nat) (l : list N) : list N :=
  match fuel, l with
  | S fuel', b :: t =>
    if b <? 128 then (if htmlSafe b then [b] else escapeByte b) ++ quoteFrom fuel' t
    else
      let '(c, n) := decodeRune l in
      if badRune (c, n) then [92; 117; 102; 102; 102; 100] ++ quoteFrom fuel' (drop n l)
      else if (c =? 8232) || (c =? 8233) then
        [92; 117; 50; 48; 50; hexDigit (c mod 16)] ++ quoteFrom fuel' (drop n l)
      else take n l ++ quoteFrom fuel' (drop n l)
  | _, _ => []
  end.
Definition quote (l : list N) : list N := 34 :: quoteFrom (length l) l ++ [34].

(** The four hex digits of an escape, and what follows. *)
Definition getu4 (l : list N) : option (N * list N) :=
  match l with
  | h1 :: h2 :: h3 :: h4 :: t =>
    a ← hexValue h1; b ← hexValue h2; c ← hexValue h3; d ← hexValue h4;
    Some (a * 4096 + b * 256 + c * 16 + d, t)
  | _ => None
  end.

(** The second half of a surrogate pair that starts with [r1]. *)
Definition surrogatePair (r1 : N) (l : list N) : option (N * list N) :=
  match l with
  | 92 :: 117 :: t =>
    '(r2, t') ← getu4 t;
    if (r1 <? 56320) && (56320 <=? r2) && (r2 <? 57344)
    then Some ((r1 - 55296) * 1024 + (r2 - 56320) + 65536, t') else None
  | _ => None
  end.

Definition simpleEscape (e : N) : option N :=
  if (e =? 34) || (e =? 92) || (e =? 47) then Some e
  else if e =? 98 then Some 8
  else if e =? 102 then Some 12
  else if e =? 110 then Some 10
  else if e =? 114 then Some 13
  else if e =? 116 then Some 9
  else None.

Definition emit_bytes (out : list N) (r : option (list N * list N)) : option (list N * list N) :=
  '(s, rest) ← r; Some (out ++ s, rest).

(** The string literal after its opening quote: the decoded bytes and what
    follows the closing quote.  Every iteration consumes a byte, so the length
    of the input is enough fuel. *)
Fixpoint unquoteFrom (fuel : nat) (l : list N) : option (list N * list N) :=
  match fuel, l with
  | S fuel', c :: t =>
    if c =? 34 then Some ([], t)
    else if c =? 92 then
      match t with
      | [] => None
      | e :: t' =>
        if e =? 117 then
          '(rr, t2) ← getu4 t';
          if isSurrogate rr then
            match surrogatePair rr t2 with
            | Some (r, t3) => emit_bytes (encodeRune r) (unquoteFrom fuel' t3)
            | None => emit_bytes (encodeRune RuneError) (unquoteFrom fuel' t2)
            end
          else emit_bytes (encodeRune rr) (unquoteFrom fuel' t2)
        else
          b ← simpleEscape e;
          emit_bytes [b] (unquoteFrom fuel' t')
      end
    else if c <? 32 then None
    else if c <? 128 then emit_bytes [c] (unquoteFrom fuel' t)
    else
      let '(r, n) := decodeRune l in
      emit_bytes (encodeRune r) (unquoteFrom fuel' (drop n l))
  | _, _ => None
  end.

Lemma hexValue_digit v : v < 16 → hexValue (hexDigit v) = Some v.
Proof.
  intros Hv. unfold hexValue, hexDigit. split_guards; simpl; split_guards; simpl; try lia; f_equal; lia.
Qed.

Lemma decodeRune_take l :
  l ≠ [] → badRune (decodeRune l) = false → decodeRune (take (decodeRune l).2 l) = decodeRune l.
Proof.
  intros Hl Hb. destruct l as [|b0 t]; [done|]. unfold decodeRune at 2. unfold decodeRune in Hb.
  split_rune; simpl in *; try done; unfold decodeRune; simpl; rewrite ?take_0;
    repeat match goal with H : _ = true |- _ => rewrite H | H : _ = false |- _ => rewrite H end; done.
Qed.

#[local] Ltac Zify.zify_post_hook ::= Z.to_euclidean_division_equations.

(** One ASCII character, printed and read back. *)
Lemma unquote_ascii b fuel k :
  b < 128 →
  unquoteFrom (S fuel) ((if htmlSafe b then [b] else escapeByte b) ++ k) = emit_bytes [b] (unquoteFrom fuel k).
Proof.
  intros Hb. destruct (htmlSafe b) eqn:Hs.
  - unfold htmlSafe in Hs. rewrite !andb_true_iff, !negb_true_iff, !N.eqb_neq, N.leb_le in Hs.
    simpl. rewrite !(proj2 (N.eqb_neq b _)) by lia. rewrite (proj2 (N.ltb_ge _ _)) by lia.
    by rewrite (proj2 (N.ltb_lt _ _)) by lia.
  - unfold escapeByte.
    destruct (N.eqb_spec b 92) as [->|]; [done|]. destruct (N.eqb_spec b 34) as [->|]; [done|]. simpl.
    destruct (N.eqb_spec b 8) as [->|]; [done|]. destruct (N.eqb_spec b 12) as [->|]; [done|].
    destruct (N.eqb_spec b 10) as [->|]; [done|]. destruct (N.eqb_spec b 13) as [->|]; [done|].
    destruct (N.eqb_spec b 9) as [->|]; [done|]. simpl.
    rewrite !hexValue_digit by lia. simpl.
    replace ((48 - 48) * 4096 + (48 - 48) * 256 + b / 16 * 16 + b mod 16) with b by lia.
        assert (isSurrogate b = false) as -> by (unfold isSurrogate; split_guards; simpl; lia).
    assert (encodeRune b = [b]) as -> by (unfold encodeRune; by rewrite (proj2 (N.ltb_lt _ _))).
    done.
Qed.

(** A valid rune outside ASCII, printed and read back. *)
Lemma unquote_rune l fuel k :
  l ≠ [] → badRune (decodeRune l) = false → (∀ b t, l = b :: t → 128 ≤ b) →
  unquoteFrom (S fuel)
    ((if ((decodeRune l).1 =? 8232) || ((decodeRune l).1 =? 8233)
      then [92; 117; 50; 48; 50; hexDigit ((decodeRune l).1 mod 16)]
      else take (decodeRune l).2 l) ++ k) =
  emit_bytes (take (decodeRune l).2 l) (unquoteFrom fuel k).
Proof.
  intros Hl Hb Hge. pose proof (encode_decode l Hl Hb) as Henc. pose proof (decodeRune_size l Hl) as Hsz.
  destruct (((decodeRune l).1 =? 8232) || ((decodeRune l).1 =? 8233)) eqn:Hsp.
  - rewrite <-Henc. apply orb_true_iff in Hsp as [->%N.eqb_eq| ->%N.eqb_eq]; done.
  - set (n := (decodeRune l).2) in *.
    assert (decodeRune (take n l ++ k) = decodeRune l) as Hdec.
    { unfold n. rewrite decodeRune_app; rewrite ?decodeRune_take by done; [done| |done].
      destruct l as [|b t]; [done|]. by destruct (decodeRune (b :: t)).2 eqn:Hn; [simpl in Hsz; lia|]. }
    destruct l as [|b t] eqn:Hlt; [done|]. specialize (Hge b t eq_refl). rewrite <-Hlt in *.
    assert (∃ t', take n l ++ k = b :: t') as [t' Ht'].
    { rewrite Hlt. destruct n; [lia|]. simpl. eauto. }
    rewrite Ht' in Hdec |- *. cbn [unquoteFrom]. rewrite Hdec.
    rewrite !(proj2 (N.eqb_neq b _)) by lia. rewrite !(proj2 (N.ltb_ge b _)) by lia.
    rewrite (surjective_pairing (decodeRune l)), Henc. f_equal. f_equal. rewrite <-Ht'.
    assert ((decodeRune l).2 = n) as -> by (by rewrite Hlt). apply drop_app_length'. rewrite length_take. lia.
Qed.

Lemma unquote_quote l f fuel rest :
  utf8 l → (length l ≤ f)%nat → (length l < fuel)%nat →
  unquoteFrom fuel (quoteFrom f l ++ 34 :: rest) = Some (l, rest).
Proof.
  intros Hl. revert f fuel. induction Hl as [|l Hne Hb Hl IH]; intros f fuel Hf Hfuel.
  { destruct f, fuel; simpl in *; done || lia. }
  destruct fuel as [|fuel]; [lia|]. destruct f as [|f]; [destruct l; [done|simpl in Hf; lia]|].
  pose proof (decodeRune_size l Hne) as Hsz.
  destruct l as [|b t] eqn:Hlt; [done|]. cbn [quoteFrom].
  destruct (N.ltb_spec b 128) as [Hlo|Hhi].
  - assert (decodeRune (b :: t) = (b, 1%nat)) as Hd by (simpl; by rewrite (proj2 (N.ltb_lt _ _))).
    rewrite Hd in IH. change (drop (b, 1%nat).2 (b :: t)) with t in IH.
    rewrite <-app_assoc, unquote_ascii by done. simpl in Hf, Hfuel. rewrite IH by lia. done.
  - rewrite <-Hlt in *. destruct (decodeRune l) as [c n] eqn:Hd. rewrite Hb. simpl in Hsz, IH.
    pose proof (unquote_rune l fuel (quoteFrom f (drop n l) ++ 34 :: rest)) as Hu. rewrite Hd in Hu. simpl in Hu.
    rewrite IH in Hu by (rewrite length_drop; lia). simpl in Hu. rewrite take_drop in Hu.
    rewrite <-Hu; [|done|done|].
    + destruct ((c =? 8232) || (c =? 8233)); by rewrite <-app_assoc.
    + intros b' t' Heq. rewrite Hlt in Heq. by injection Heq as -> ->.
Qed.

(** ** Numbers *)

Definition isDigit (c : N) : bool := (48 <=? c) && (c <=? 57).

(** strconv.AppendUint, base 10; twenty digits are enough for 64 bits. *)
Fixpoint digitsFrom (fuel : nat) (n : N) (acc : list N) : list N :=
  match fuel with
  | O => acc
  | S fuel' =>
    if n <? 10 then 48 + n :: acc else digitsFrom fuel' (n / 10) (48 + n mod 10 :: acc)
  end.
Definition printUint (n : N) : list N := digitsFrom 20 n [].

Definition digitsValue (acc : N) (l : list N) : N := foldl (λ v c, v * 10 + (c - 48)) acc l.

(** strconv.ParseUint, base 10, for a bound on the result. *)
Definition parseUint (bound : N) (l : list N) : option N :=
  if negb (bool_decide (l = [])) && forallb isDigit l && (digitsValue 0 l <? bound)
  then Some (digitsValue 0 l) else None.

(** The digits at the head of the input. *)
Fixpoint spanDigits (l : list N) : list N * list N :=
  match l with
  | c :: t => if isDigit c then let '(ds, r) := spanDigits t in (c :: ds, r) else ([], l)
  | [] => ([], [])
  end.

(** At least one digit. *)
Definition digits1 (l : list N) : option (list N * list N) :=
  match spanDigits l with ([], _) => None | (ds, r) => Some (ds, r) end.

Definition intPart (l : list N) : option (list N * list N) :=
  match l with
  | c :: t => if c =? 48 then Some ([48], t) else digits1 l
  | [] => None
  end.

Definition fracPart (l : list N) : option (list N * list N) :=
  match l with
  | c :: t => if c =? 46 then '(ds, r) ← digits1 t; Some (46 :: ds, r) else Some ([], l)
  | [] => Some ([], l)
  end.

Definition expPart (l : list N) : option (list N * list N) :=
  match l with
  | e :: t =>
    if (e =? 101) || (e =? 69) then
      match t with
      | s :: t' =>
        if (s =? 43) || (s =? 45) then '(ds, r) ← digits1 t'; Some (e :: s :: ds, r)
        else '(ds, r) ← digits1 t; Some (e :: ds, r)
      | [] => None
      end
    else Some ([], l)
  | [] => Some ([], l)
  end.

(** A number literal at the head of the input. *)
Definition scanNumber (l : list N) : option (list N * list N) :=
  let '(sign, l1) := match l with 45 :: t => ([45], t) | _ => ([], l) end in
  '(i, l2) ← intPart l1;
  '(f, l3) ← fracPart l2;
  '(e, l4) ← expPart l3;
  Some (sign ++ i ++ f ++ e, l4).

Lemma isDigit_digit d : d < 10 → isDigit (48 + d) = true.
Proof. intros ?. unfold isDigit. split_guards; simpl; lia. Qed.

Lemma digitsFrom_value fuel n acc :
  n < 10 ^ N.of_nat fuel → digitsValue 0 (digitsFrom fuel n acc) = digitsValue n acc.
Proof.
  revert n acc. induction fuel as [|fuel IH]; intros n acc Hn.
  { assert (n = 0) as -> by (simpl in Hn; lia). done. }
  cbn [digitsFrom]. destruct (N.ltb_spec n 10).
  - unfold digitsValue. simpl. f_equal. lia.
  - rewrite IH.
    + unfold digitsValue. simpl. f_equal. lia.
    + rewrite Nat2N.inj_succ, N.pow_succ_r' in Hn. lia.
Qed.

Lemma digitsFrom_digits fuel n acc :
  n < 10 ^ N.of_nat fuel → Forall (λ c, isDigit c = true) acc →
  Forall (λ c, isDigit c = true) (digitsFrom fuel n acc) ∧
  (fuel ≠ 0%nat → ∃ c t, digitsFrom fuel n acc = c :: t ∧ (c = 48 → n = 0 ∧ t = acc)).
Proof.
  revert n acc. induction fuel as [|fuel IH]; intros n acc Hn Hacc; [done|].
  cbn [digitsFrom]. destruct (N.ltb_spec n 10).
  - split; [constructor; [apply isDigit_digit; lia|done]|]. intros _. eexists _, _. split; [done|].
    intros ?. split; [lia|done].
  - rewrite Nat2N.inj_succ, N.pow_succ_r' in Hn.
    destruct (IH (n / 10) (48 + n mod 10 :: acc)) as [Hall Hhd]; [lia|constructor; [apply isDigit_digit; lia|done]|].
    split; [done|]. intros _. destruct fuel as [|fuel]; [simpl in Hn; lia|].
    destruct Hhd as (c & t & Heq & Hc); [done|]. exists c, t. split; [done|].
    intros Hz. destruct (Hc Hz). lia.
Qed.

#[global] Arguments digitsFrom : simpl never.
#[global] Arguments printUint : simpl never.

Lemma u64_digits n : n < u64_size → n < 10 ^ N.of_nat 20.
Proof. intros Hn. eapply N.lt_trans; [exact Hn|]. by vm_compute. Qed.

Lemma parseUint_print n : n < u64_size → parseUint u64_size (printUint n) = Some n.
Proof.
  intros Hn. pose proof (u64_digits n Hn) as Hn'.
  destruct (digitsFrom_digits 20 n [] Hn' ltac:(constructor)) as [Hall Hhd].
  destruct Hhd as (c & t & Heq & _); [done|].
  pose proof (digitsFrom_value 20 n [] Hn') as Hv. unfold parseUint, printUint.
  revert Hall Heq Hv. generalize (digitsFrom 20 n []). intros l Hall Heq Hv. rewrite Hv.
  rewrite bool_decide_false by (by rewrite Heq).
  assert (forallb isDigit l = true) as ->.
  { apply forallb_forall. intros x Hx%list_elem_of_In. by eapply Forall_forall in Hall. }
  unfold digitsValue. simpl. by rewrite (proj2 (N.ltb_lt _ _)).
Qed.

(** What may follow a number without being read as part of it. *)
Definition delimiter (l : list N) : Prop :=
  match l with [] => True | c :: _ => isDigit c = false ∧ c ≠ 46 ∧ c ≠ 101 ∧ c ≠ 69 end.

Lemma spanDigits_all ds k :
  Forall (λ c, isDigit c = true) ds → delimiter k → spanDigits (ds ++ k) = (ds, k).
Proof.
  induction 1 as [|c ds Hc _ IH]; intros Hk; simpl.
  - destruct k as [|c k]; [done|]. destruct Hk as [Hc _]. simpl. by rewrite Hc.
  - by rewrite Hc, IH.
Qed.

Lemma scanNumber_print n k :
  n < u64_size → delimiter k → scanNumber (printUint n ++ k) = Some (printUint n, k).
Proof.
  intros Hn Hk. pose proof (u64_digits n Hn) as Hn'. unfold printUint.
  destruct (digitsFrom_digits 20 n [] Hn' ltac:(constructor)) as [Hall Hhd].
  destruct Hhd as (c & t & Heq & Hc); [done|]. rewrite Heq in *.
  assert (isDigit c = true) as Hd by (by inversion Hall).
  assert (intPart ((c :: t) ++ k) = Some (c :: t, k)) as Hint.
  { simpl. destruct (N.eqb_spec c 48) as [->|].
    - destruct (Hc eq_refl) as [_ ->]. done.
    - unfold digits1. change (c :: t ++ k) with ((c :: t) ++ k). by rewrite spanDigits_all. }
  unfold scanNumber. assert ((match (c :: t) ++ k with 45 :: t0 => ([45], t0) | _ => ([], (c :: t) ++ k) end) =
    (@nil N, (c :: t) ++ k)) as ->.
  { simpl. unfold isDigit in Hd. destruct c as [|[c|c|]]; try done. repeat (destruct c as [c|c|]; try done). }
  rewrite Hint. simpl. destruct k as [|x k]; simpl; [by rewrite app_nil_r|].
  destruct Hk as (_ & H46 & H101 & H69). rewrite (proj2 (N.eqb_neq x 46)) by done. simpl.
  rewrite (proj2 (N.eqb_neq x 101)), (proj2 (N.eqb_neq x 69)) by done. simpl. by rewrite app_nil_r.
Qed.

(** ** Values *)

#[warnings="-register-all"]
Inductive JValue :=
  | JNull
  | JBool (b : bool)
  | JNum (literal : list N)
  | JStr (s : list N)
  | JArr (elems : list JValue)
  | JObj (members : list (list N * JValue)).

Definition isSpace (c : N) : bool := (c =? 32) || (c =? 9) || (c =? 10) || (c =? 13).

Fixpoint skipSpace (l : list N) : list N :=
  match l with
  | c :: t => if isSpace c then skipSpace t else l
  | [] => []
  end.

(** [l] starts with [w]. *)
Fixpoint stripPrefix (w l : list N) : option (list N) :=
  match w, l with
  | [], _ => Some l
  | a :: w', b :: l' => if a =? b then stripPrefix w' l' else None
  | _, _ => None
  end.

(** The nesting Unmarshal accepts. *)
Definition maxNestingDepth : nat := N.to_nat 10000.

Definition literalAt (w : list N) (v : JValue) (l : list N) : option (JValue * list N) :=
  r ← stripPrefix w l; Some (v, r).

(** A value at the head of the input.  At least every other call consumes a byte,
    so twice the length of the input is enough fuel ([parse_fuel] below). *)
Fixpoint parseValue (fuel depth : nat) (l : list N) : option (JValue * list N) :=
  match fuel with
  | O => None
  | S fuel' =>
    match skipSpace l with
    | [] => None
    | c :: t =>
      if c =? 123 then
        match depth, skipSpace t with
        | S depth', c' :: t' =>
          if c' =? 125 then Some (JObj [], t')
          else '(ms, r) ← parseMembers fuel' depth' t; Some (JObj ms, r)
        | _, _ => None
        end
      else if c =? 91 then
        match depth, skipSpace t with
        | S depth', c' :: t' =>
          if c' =? 93 then Some (JArr [], t')
          else '(vs, r) ← parseElems fuel' depth' t; Some (JArr vs, r)
        | _, _ => None
        end
      else if c =? 34 then '(s, r) ← unquoteFrom (length t) t; Some (JStr s, r)
      else if c =? 116 then literalAt [114; 117; 101] (JBool true) t
      else if c =? 102 then literalAt [97; 108; 115; 101] (JBool false) t
      else if c =? 110 then literalAt [117; 108; 108] JNull t
      else '(lit, r) ← scanNumber (c :: t); Some (JNum lit, r)
    end
  end
with parseMembers (fuel depth : nat) (l : list N) : option (list (list N * JValue) * list N) :=
  match fuel with
  | O => None
  | S fuel' =>
    match skipSpace l with
    | c :: t =>
      if negb (c =? 34) then None
      else
        '(k, r) ← unquoteFrom (length t) t;
        match skipSpace r with
        | c1 :: r1 =>
          if negb (c1 =? 58) then None
          else
            '(v, r2) ← parseValue fuel' depth r1;
            match skipSpace r2 with
            | c3 :: r3 =>
              if c3 =? 44 then '(ms, r4) ← parseMembers fuel' depth r3; Some ((k, v) :: ms, r4)
              else if c3 =? 125 then Some ([(k, v)], r3)
              else None
            | [] => None
            end
        | [] => None
        end
    | [] => None
    end
  end
with parseElems (fuel depth : nat) (l : list N) : option (list JValue * list N) :=
  match fuel with
  | O => None
  | S fuel' =>
    '(v, r) ← parseValue fuel' depth l;
    match skipSpace r with
    | c :: r' =>
      if c =? 44 then '(vs, r2) ← parseElems fuel' depth r'; Some (v :: vs, r2)
      else if c =? 93 then Some ([v], r')
      else None
    | [] => None
    end
  end.

(** The syntax check and the value of a whole input. *)
Definition parse (l : list N) : option JValue :=
  '(v, r) ← parseValue (S (2 * length l)) maxNestingDepth l;
  if bool_decide (skipSpace r = []) then Some v else None.

(** ** Printing flat objects *)

(** A value without nesting. *)
Definition printScalar (v : JValue) : list N :=
  match v with
  | JNull => [110; 117; 108; 108]
  | JBool true => [116; 114; 117; 101]
  | JBool false => [102; 97; 108; 115; 101]
  | JNum lit => lit
  | JStr s => quote s
  | JArr _ | JObj _ => []
  end.

Definition printMember (m : list N * JValue) : list N := quote m.1 ++ 58 :: printScalar m.2.

Fixpoint printMembers (ms : list (list N * JValue)) : list N :=
  match ms with
  | [] => []
  | [m] => printMember m
  | m :: ms' => printMember m ++ 44 :: printMembers ms'
  end.

(** What Marshal prints for a struct of scalar fields or a map of strings. *)
Definition printObject (ms : list (list N * JValue)) : list N := 123 :: printMembers ms ++ [125].

(** Scalars that survive printing: numbers of 64 bits, valid UTF-8. *)
Definition scalar_ok (v : JValue) : Prop :=
  match v with
  | JNull | JBool _ => True
  | JNum lit => ∃ n, n < u64_size ∧ lit = printUint n
  | JStr s => utf8 s
  | JArr _ | JObj _ => False
  end.

Definition member_ok (m : list N * JValue) : Prop := utf8 m.1 ∧ scalar_ok m.2.

(** A closing bracket or a comma. *)
Definition closing (k : list N) : Prop := ∃ c t, k = c :: t ∧ (c = 44 ∨ c = 125 ∨ c = 93).

Lemma quoteFrom_length_le l f : (length l ≤ f)%nat → utf8 l → (length l ≤ length (quoteFrom f l))%nat.
Proof.
  intros Hf Hl. revert f Hf. induction Hl as [|l Hne Hb Hl IH]; intros f Hf; [simpl; lia|].
  destruct f as [|f]; [destruct l; [done|simpl in Hf; lia]|]. pose proof (decodeRune_size l Hne) as Hsz.
  destruct l as [|b t] eqn:Hlt; [done|]. cbn [quoteFrom].
  destruct (N.ltb_spec b 128).
  - assert (decodeRune (b :: t) = (b, 1%nat)) as Hd by (simpl; by rewrite (proj2 (N.ltb_lt _ _))).
    rewrite Hd in IH. change (drop (b, 1%nat).2 (b :: t)) with t in IH.
    rewrite length_app. simpl in Hf. specialize (IH f ltac:(lia)). simpl.
    destruct (htmlSafe b); [simpl; lia|]. unfold escapeByte. repeat case_match; simpl; lia.
  - rewrite <-Hlt in *. destruct (decodeRune l) as [c n] eqn:Hd. rewrite Hb. simpl in Hsz, IH.
    specialize (IH f ltac:(rewrite length_drop; lia)). rewrite length_drop in IH.
    assert (n ≤ 4)%nat.
    { assert (n = (decodeRune l).2) as -> by (by rewrite Hd). rewrite Hlt. clear. unfold decodeRune. split_rune; simpl; lia. }
    destruct ((c =? 8232) || (c =? 8233)); rewrite length_app; rewrite ?length_take; simpl; lia.
Qed.

Lemma unquote_printed s rest :
  utf8 s → unquoteFrom (length (quoteFrom (length s) s ++ 34 :: rest)) (quoteFrom (length s) s ++ 34 :: rest) = Some (s, rest).
Proof.
  intros Hs. apply unquote_quote; [done|done|]. rewrite length_app. simpl.
  pose proof (quoteFrom_length_le s (length s) ltac:(done) Hs). lia.
Qed.

(** ** Parsing what was printed *)

Lemma parse_scalar v k fuel depth :
  scalar_ok v → closing k → parseValue (S fuel) depth (printScalar v ++ k) = Some (v, k).
Proof.
  intros Hv (c & t & -> & Hc). destruct v as [|[]|lit|s| |]; try done.
  - destruct Hv as (n & Hn & ->).
    destruct (digitsFrom_digits 20 n [] (u64_digits n Hn) ltac:(constructor)) as [Hall Hhd].
    destruct Hhd as (x & r & Heq & _); [done|].
    assert (isDigit x = true) as Hx by (rewrite Heq in Hall; by inversion Hall).
    assert (48 ≤ x ∧ x ≤ 57) as [? ?].
    { unfold isDigit in Hx. apply andb_true_iff in Hx as [?%N.leb_le ?%N.leb_le]. done. }
    pose proof (scanNumber_print n (c :: t) Hn) as Hscan. simpl printScalar.
    change (digitsFrom 20 n []) with (printUint n) in *. rewrite Heq in *. cbn [parseValue app skipSpace]. unfold isSpace.
    assert (∀ y, y < 48 ∨ 57 < y → (x =? y) = false) as Hxy by (intros; apply N.eqb_neq; lia).
    rewrite !Hxy by lia. simpl orb. cbv iota. rewrite !Hxy by lia.
    change (x :: r ++ c :: t) with ((x :: r) ++ c :: t). rewrite Hscan; [done|].
    simpl. destruct Hc as [->|[-> | ->]]; done.
  - simpl in Hv. cbn [printScalar]. unfold quote. rewrite <-app_comm_cons, <-app_assoc. simpl app.
    cbn [parseValue skipSpace]. change (isSpace 34) with false. cbv iota.
    change (34 =? 123) with false. change (34 =? 91) with false. change (34 =? 34) with true. cbv iota.
    by rewrite unquote_printed.
Qed.

Lemma parse_members ms rest fuel depth :
  ms ≠ [] → Forall member_ok ms → (length ms < fuel)%nat →
  parseMembers fuel depth (printMembers ms ++ 125 :: rest) = Some (ms, rest).
Proof.
  intros Hne Hms. revert fuel. induction Hms as [|m ms [Hk Hv] Hms IH]; intros fuel Hf; [done|].
  destruct fuel as [|fuel]; [lia|]. destruct fuel as [|fuel]; [simpl in Hf; lia|]. destruct m as [k v]. simpl in Hk, Hv.
  assert (∀ c r, c = 44 ∨ c = 125 →
    parseMembers (S (S fuel)) depth (printMember (k, v) ++ c :: r) =
    if c =? 44 then '(ms, r4) ← parseMembers (S fuel) depth r; Some ((k, v) :: ms, r4)
    else Some ([(k, v)], r)) as Hstep.
  { intros c r Hc. unfold printMember, quote. cbn [fst snd].
    rewrite <-app_assoc. cbn [app]. rewrite <-app_assoc. cbn [app].
    cbn [parseMembers skipSpace]. change (isSpace 34) with false. change (34 =? 34) with true. cbn [negb].
    rewrite unquote_printed by done. cbn [mbind option_bind skipSpace].
    change (isSpace 58) with false. change (58 =? 58) with true. cbn [negb].
    rewrite (parse_scalar v (c :: r)) by (done || (exists c, r; split; [done|]; destruct Hc; auto)).
    cbn [mbind option_bind]. destruct Hc as [-> | ->]; done. }
  destruct ms as [|m' ms'].
  - cbn [printMembers]. rewrite Hstep by auto. done.
  - change (printMembers ((k, v) :: m' :: ms')) with (printMember (k, v) ++ 44 :: printMembers (m' :: ms')).
    rewrite <-app_assoc. cbn [app]. rewrite Hstep by auto. simpl (44 =? 44). cbv iota.
    rewrite IH; [done|done|]. simpl in *. lia.
Qed.

Lemma printMembers_length ms : (length ms ≤ length (printMembers ms))%nat.
Proof.
  induction ms as [|m ms IH]; [done|]. destruct ms as [|m' ms'].
  - simpl. unfold printMember, quote. simpl. lia.
  - change (printMembers (m :: m' :: ms')) with (printMember m ++ 44 :: printMembers (m' :: ms')).
    rewrite length_app. simpl in *. lia.
Qed.

(** Unmarshal reads back the members that Marshal printed. *)
Lemma parse_printObject ms : Forall member_ok ms → parse (printObject ms) = Some (JObj ms).
Proof.
  intros Hms. unfold parse, printObject, maxNestingDepth.
  destruct (N.to_nat 10000) as [|depth] eqn:Hd; [lia|].
  cbn [parseValue skipSpace]. change (isSpace 123) with false. change (123 =? 123) with true. cbv iota.
  destruct ms as [|m ms].
  - cbn [printMembers app skipSpace]. done.
  - set (body := printMembers (m :: ms) ++ [125]).
    assert (∃ c t, skipSpace body = c :: t ∧ (c =? 125) = false) as (c & t & Hb & Hc).
    { unfold body. destruct ms; simpl; eauto. }
    rewrite Hb, Hc. unfold body. rewrite parse_members; [done|done|done|].
    cbn [length]. rewrite length_app. pose proof (printMembers_length (m :: ms)). simpl in *. lia.
Qed.

(** ** The fuel is enough *)

Lemma getu4_shrinks l r t : getu4 l = Some (r, t) → (length t < length l)%nat.
Proof.
  unfold getu4. destruct l as [|h1 [|h2 [|h3 [|h4 l]]]]; try done.
  destruct (hexValue h1), (hexValue h2), (hexValue h3), (hexValue h4); simpl; try done.
  intros [= _ <-]. lia.
Qed.

Lemma surrogatePair_shrinks r1 l r t : surrogatePair r1 l = Some (r, t) → (length t < length l)%nat.
Proof.
  unfold surrogatePair. intros H.
  repeat match goal with H : match ?x with _ => _ end = Some _ |- _ => destruct x; try done end.
  destruct (getu4 _) as [[r2 t']|] eqn:Hg; simpl in H; [|done].
  destruct (_ && _); [|done]. injection H as _ <-. apply getu4_shrinks in Hg. simpl. lia.
Qed.

Lemma emit_bytes_Some out r s rest :
  emit_bytes out r = Some (s, rest) → ∃ s', r = Some (s', rest).
Proof. unfold emit_bytes. destruct r as [[s' r']|]; simpl; [|done]. intros [= _ <-]. eauto. Qed.

Lemma unquote_shrinks fuel l s r : unquoteFrom fuel l = Some (s, r) → (length r < length l)%nat.
Proof.
  revert l s r. induction fuel as [|fuel IH]; intros l s r; [done|].
  destruct l as [|c t]; [done|]. cbn [unquoteFrom].
  destruct (c =? 34); [intros [= _ <-]; simpl; lia|]. destruct (c =? 92).
  - destruct t as [|e t']; [done|]. destruct (e =? 117).
    + destruct (getu4 t') as [[rr t2]|] eqn:Hg; simpl; [|done]. apply getu4_shrinks in Hg.
      destruct (isSurrogate rr).
      * destruct (surrogatePair rr t2) as [[r' t3]|] eqn:Hp; intros [s' Hs]%emit_bytes_Some; apply IH in Hs; [|lia].
        apply surrogatePair_shrinks in Hp. lia.
      * intros [s' Hs]%emit_bytes_Some. apply IH in Hs. lia.
    + destruct (simpleEscape e); simpl; [|done]. intros [s' Hs]%emit_bytes_Some. apply IH in Hs. lia.
  - destruct (c <? 32); [done|]. destruct (c <? 128); [intros [s' Hs]%emit_bytes_Some; apply IH in Hs; simpl; lia|].
    destruct (decodeRune (c :: t)) as [rr n] eqn:Hd. intros [s' Hs]%emit_bytes_Some. apply IH in Hs.
    pose proof (decodeRune_size (c :: t) ltac:(done)) as Hsz. rewrite Hd in Hsz. simpl in Hsz.
    rewrite length_drop in Hs. simpl in *. lia.
Qed.

Lemma spanDigits_le l ds r : spanDigits l = (ds, r) → length l = (length ds + length r)%nat.
Proof.
  revert ds r. induction l as [|c l IH]; intros ds r; simpl; [by intros [= <- <-]|].
  destruct (isDigit c); [|by intros [= <- <-]]. destruct (spanDigits l) as [ds' r'].
  intros [= <- <-]. simpl. by rewrite (IH ds' r').
Qed.

Lemma digits1_shrinks l ds r : digits1 l = Some (ds, r) → (length r < length l)%nat.
Proof.
  unfold digits1. destruct (spanDigits l) as [[|d ds'] r'] eqn:Hs; [done|]. intros [= _ <-].
  apply spanDigits_le in Hs. simpl in Hs. lia.
Qed.

Lemma scanNumber_shrinks l lit r : scanNumber l = Some (lit, r) → (length r < length l)%nat.
Proof.
  unfold scanNumber. set (sl := match l with 45 :: t => ([45], t) | _ => ([], l) end).
  assert (length sl.2 ≤ length l)%nat as Hsl.
  { unfold sl. destruct l as [|[|p] t]; simpl; try lia. repeat (destruct p as [p|p|]; simpl; try lia). }
  destruct sl as [sign l1]. simpl in Hsl.
  destruct (intPart l1) as [[i l2]|] eqn:Hi; simpl; [|done].
  assert (length l2 < length l1)%nat.
  { unfold intPart in Hi. destruct l1 as [|c t]; [done|]. destruct (c =? 48); [injection Hi as _ <-; simpl; lia|].
    by apply digits1_shrinks in Hi. }
  destruct (fracPart l2) as [[f l3]|] eqn:Hf; simpl; [|done].
  assert (length l3 ≤ length l2)%nat.
  { unfold fracPart in Hf. destruct l2 as [|c t]; [by injection Hf as _ <-|]. destruct (c =? 46); [|by injection Hf as _ <-].
    destruct (digits1 t) as [[ds r']|] eqn:Hd; simpl in Hf; [|done]. injection Hf as _ <-.
    apply digits1_shrinks in Hd. simpl. lia. }
  destruct (expPart l3) as [[e l4]|] eqn:He; simpl; [|done]. intros [= _ <-].
  assert (length l4 ≤ length l3)%nat; [|lia].
  unfold expPart in He. destruct l3 as [|c t]; [by injection He as _ <-|].
  destruct (_ || _); [|by injection He as _ <-]. destruct t as [|sg t']; [done|].
  destruct (_ || _).
  - destruct (digits1 t') as [[ds r']|] eqn:Hd; simpl in He; [|done]. injection He as _ <-.
    apply digits1_shrinks in Hd. simpl. lia.
  - destruct (digits1 (sg :: t')) as [[ds r']|] eqn:Hd; simpl in He; [|done]. injection He as _ <-.
    apply digits1_shrinks in Hd. simpl in *. lia.
Qed.

Lemma skipSpace_le l : (length (skipSpace l) ≤ length l)%nat.
Proof. induction l as [|c l IH]; simpl; [done|]. destruct (isSpace c); simpl; lia. Qed.

Lemma stripPrefix_le w l r : stripPrefix w l = Some r → (length r ≤ length l)%nat.
Proof.
  revert l. induction w as [|a w IH]; intros l; simpl; [by intros [= <-]|].
  destruct l as [|b l]; [done|]. destruct (a =? b); [|done]. intros Hr%IH. simpl. lia.
Qed.

Lemma parse_shrinks fuel :
  (∀ d l v r, parseValue fuel d l = Some (v, r) → (length r < length l)%nat) ∧
  (∀ d l v r, parseMembers fuel d l = Some (v, r) → (length r < length l)%nat) ∧
  (∀ d l v r, parseElems fuel d l = Some (v, r) → (length r < length l)%nat).
Proof.
  induction fuel as [|fuel (IHv & IHm & IHe)]; [done|]. split; [|split]; intros d l v r.
  - cbn [parseValue]. pose proof (skipSpace_le l). destruct (skipSpace l) as [|c t]; [done|]. simpl in *.
    unfold literalAt.
    repeat match goal with
    | |- context [if ?b then _ else _] => destruct b
    | |- context [match d with O => _ | S _ => _ end] => destruct d
    end; try done.
    + pose proof (skipSpace_le t). destruct (skipSpace t) as [|c' t']; [done|]. simpl in *.
      destruct (c' =? 125); [intros [= _ <-]; lia|].
      destruct (parseMembers fuel d t) as [[ms r']|] eqn:Hm; simpl; [|done]. intros [= _ <-].
      apply IHm in Hm. lia.
    + pose proof (skipSpace_le t). destruct (skipSpace t) as [|c' t']; [done|]. simpl in *.
      destruct (c' =? 93); [intros [= _ <-]; lia|].
      destruct (parseElems fuel d t) as [[ms r']|] eqn:Hm; simpl; [|done]. intros [= _ <-].
      apply IHe in Hm. lia.
    + destruct (unquoteFrom (length t) t) as [[s r']|] eqn:Hu; simpl; [|done]. intros [= _ <-].
      apply unquote_shrinks in Hu. lia.
    + destruct (stripPrefix _ t) as [r'|] eqn:Hp; simpl; [|done]. intros [= _ <-]. apply stripPrefix_le in Hp. lia.
    + destruct (stripPrefix _ t) as [r'|] eqn:Hp; simpl; [|done]. intros [= _ <-]. apply stripPrefix_le in Hp. lia.
    + destruct (stripPrefix _ t) as [r'|] eqn:Hp; simpl; [|done]. intros [= _ <-]. apply stripPrefix_le in Hp. lia.
    + destruct (scanNumber (c :: t)) as [[lit r']|] eqn:Hs; simpl; [|done]. intros [= _ <-].
      apply scanNumber_shrinks in Hs. simpl in Hs. lia.
  - cbn [parseMembers]. pose proof (skipSpace_le l). destruct (skipSpace l) as [|c t]; [done|]. simpl in *.
    destruct (c =? 34); simpl; [|done].
    destruct (unquoteFrom (length t) t) as [[k r1]|] eqn:Hu; simpl; [|done]. apply unquote_shrinks in Hu.
    pose proof (skipSpace_le r1). destruct (skipSpace r1) as [|c1 r2]; [done|]. simpl in *.
    destruct (c1 =? 58); simpl; [|done].
    destruct (parseValue fuel d r2) as [[v' r3]|] eqn:Hv; simpl; [|done]. apply IHv in Hv.
    pose proof (skipSpace_le r3). destruct (skipSpace r3) as [|c3 r4]; [done|]. simpl in *.
    destruct (c3 =? 44); [|destruct (c3 =? 125); [intros [= _ <-]; lia|done]].
    destruct (parseMembers fuel d r4) as [[ms r5]|] eqn:Hm; simpl; [|done]. intros [= _ <-].
    apply IHm in Hm. lia.
  - cbn [parseElems]. destruct (parseValue fuel d l) as [[v' r3]|] eqn:Hv; simpl; [|done]. apply IHv in Hv.
    pose proof (skipSpace_le r3). destruct (skipSpace r3) as [|c3 r4]; [done|]. simpl in *.
    destruct (c3 =? 44); [|destruct (c3 =? 93); [intros [= _ <-]; lia|done]].
    destruct (parseElems fuel d r4) as [[ms r5]|] eqn:Hm; simpl; [|done]. intros [= _ <-].
    apply IHe in Hm. lia.
Qed.

(** More fuel than [parse] uses changes nothing: the parser stops by itself. *)
Lemma parse_fuel f1 :
  ∀ f2, (f1 ≤ f2)%nat →
  (∀ d l, (2 * length l < f1)%nat → parseValue f2 d l = parseValue f1 d l) ∧
  (∀ d l, (2 * length l < f1)%nat → parseMembers f2 d l = parseMembers f1 d l) ∧
  (∀ d l, (2 * length l + 1 < f1)%nat → parseElems f2 d l = parseElems f1 d l).
Proof.
  induction f1 as [|f1 IH]; intros f2 Hf; [split; [|split]; intros; lia|].
  destruct f2 as [|f2]; [lia|]. destruct (IH f2 ltac:(lia)) as (IHv & IHm & IHe). split; [|split]; intros d l Hl.
  - cbn [parseValue]. pose proof (skipSpace_le l). destruct (skipSpace l) as [|c t]; [done|]. simpl in *.
    destruct (c =? 123).
    { destruct d as [|d]; [done|]. destruct (skipSpace t) as [|c' t']; [done|]. destruct (c' =? 125); [done|].
      by rewrite IHm by lia. }
    destruct (c =? 91); [|done].
    destruct d as [|d]; [done|]. destruct (skipSpace t) as [|c' t']; [done|]. destruct (c' =? 93); [done|].
    by rewrite IHe by lia.
  - cbn [parseMembers]. pose proof (skipSpace_le l). destruct (skipSpace l) as [|c t]; [done|]. simpl in *.
    destruct (c =? 34); simpl; [|done].
    destruct (unquoteFrom (length t) t) as [[k r1]|] eqn:Hu; simpl; [|done]. apply unquote_shrinks in Hu.
    pose proof (skipSpace_le r1). destruct (skipSpace r1) as [|c1 r2]; [done|]. simpl in *.
    destruct (c1 =? 58); simpl; [|done]. rewrite IHv by lia.
    destruct (parseValue f1 d r2) as [[v r3]|] eqn:Hv; simpl; [|done]. apply parse_shrinks in Hv.
    pose proof (skipSpace_le r3). destruct (skipSpace r3) as [|c3 r4]; [done|]. simpl in *.
    destruct (c3 =? 44); [|done]. by rewrite IHm by lia.
  - cbn [parseElems]. rewrite IHv by lia.
    destruct (parseValue f1 d l) as [[v r3]|] eqn:Hv; simpl; [|done]. apply parse_shrinks in Hv.
    pose proof (skipSpace_le r3). destruct (skipSpace r3) as [|c3 r4]; [done|]. simpl in *.
    destruct (c3 =? 44); [|done]. by rewrite IHe by lia.
Qed.

(** ** Decoding into structs *)

(** The smallest rune of a case-folding orbit, for the orbits that contain an
    ASCII letter: the Kelvin sign folds to K, the long s to S. *)
Definition foldRune (r : N) : N := if r =? 8490 then 75 else if r =? 383 then 83 else r.

Fixpoint foldName (fuel : nat) (l : list N) : list N :=
  match fuel, l with
  | S fuel', c :: t =>
    if c <? 128 then (if (97 <=? c) && (c <=? 122) then c - 32 else c) :: foldName fuel' t
    else
      let '(r, n) := decodeRune l in
      encodeRune (foldRune r) ++ foldName fuel' (drop n l)
  | _, _ => []
  end.

(** Member [key] sets the field called [name]: the names are equal, or equal up
    to case. *)
Definition isField (name : string) (key : list N) : bool :=
  bool_decide (key = toBytes name) ||
  bool_decide (foldName (length key) key = foldName (length (toBytes name)) (toBytes name)).

(** The fields by type.  [null] leaves a field as it is, except that it empties a
    byte slice; [None] is an UnmarshalTypeError or a decoding error. *)
Definition asString (prev : string) (v : JValue) : option string :=
  match v with
  | JStr s => Some (ofBytes s)
  | JNull => Some prev
  | _ => None
  end.

Definition asUint64 (prev : N) (v : JValue) : option N :=
  match v with
  | JNum lit => parseUint u64_size lit
  | JNull => Some prev
  | _ => None
  end.

Definition asByte (prev : N) (v : JValue) : option N :=
  match v with
  | JNum lit => parseUint 256 lit
  | JNull => Some prev
  | _ => None
  end.

Definition asBytes (prev : option string) (v : JValue) : option (option string) :=
  match v with
  | JStr s => b ← DecodeString s; Some (Some (ofBytes b))
  | JNull => Some None
  | JArr vs =>
    bs ← mapM (λ iv, asByte (default 0 (toBytes (default "" prev) !! iv.1)) iv.2)
           (imap (λ i v, (i, v)) vs);
    Some (Some (ofBytes bs))
  | _ => None
  end.

(** Unmarshal into a struct: the members in order, unknown ones ignored. *)
Definition decodeStruct {T} (setField : T → list N * JValue → option T) (zero : T) (data : list N) : option T :=
  match parse data with
  | Some JNull => Some zero
  | Some (JObj ms) => foldl (λ acc m, st ← acc; setField st m) (Some zero) ms
  | _ => None
  end.

Lemma isField_self name : isField name (toBytes name) = true.
Proof. unfold isField. by rewrite bool_decide_true. Qed.

(** ** Decoded strings are valid UTF-8 *)

Lemma emit_bytes_utf8 out r s rest :
  utf8 out → (∀ s' rest', r = Some (s', rest') → utf8 s') → emit_bytes out r = Some (s, rest) → utf8 s.
Proof.
  intros Ho Hr. unfold emit_bytes. destruct r as [[s' rest']|]; simpl; [|done].
  intros [= <- _]. apply utf8_app; [done|by eapply Hr].
Qed.

Lemma ascii_utf8 b : b < 128 → utf8 [b].
Proof.
  intros Hb. replace [b] with (encodeRune b); [apply encodeRune_utf8|].
  unfold encodeRune. by rewrite (proj2 (N.ltb_lt _ _)).
Qed.

Lemma unquote_utf8 fuel l s r : unquoteFrom fuel l = Some (s, r) → utf8 s.
Proof.
  revert l s r. induction fuel as [|fuel IH]; intros l s r; [done|]. destruct l as [|c t]; [done|].
  cbn [unquoteFrom]. destruct (c =? 34); [intros [= <- _]; constructor|].
  destruct (c =? 92).
  - destruct t as [|e t']; [done|]. destruct (e =? 117).
    + destruct (getu4 t') as [[rr t2]|]; simpl; [|done].
      destruct (isSurrogate rr); [destruct (surrogatePair rr t2) as [[r2 t3]|]|];
        apply emit_bytes_utf8; eauto using encodeRune_utf8.
    + destruct (simpleEscape e) as [b|] eqn:He; simpl; [|done].
      apply emit_bytes_utf8; [|eauto]. apply ascii_utf8. unfold simpleEscape in He.
      repeat case_match; simplify_eq; try done.
      match goal with H : _ || _ = true |- _ => rewrite !orb_true_iff, !N.eqb_eq in H end. lia.
  - destruct (c <? 32); [done|]. destruct (N.ltb_spec c 128).
    + apply emit_bytes_utf8; [by apply ascii_utf8|eauto].
    + destruct (decodeRune (c :: t)) as [r0 n]. apply emit_bytes_utf8; eauto using encodeRune_utf8.
Qed.

(** Values all of whose strings are valid UTF-8. *)
#[warnings="-register-all"]
Inductive jtext : JValue → Prop :=
  | jtext_null : jtext JNull
  | jtext_bool b : jtext (JBool b)
  | jtext_num lit : jtext (JNum lit)
  | jtext_str s : utf8 s → jtext (JStr s)
  | jtext_arr vs : Forall jtext vs → jtext (JArr vs)
  | jtext_obj ms : Forall (λ m, utf8 m.1 ∧ jtext m.2) ms → jtext (JObj ms).

Definition member_text (m : list N * JValue) : Prop := utf8 m.1 ∧ jtext m.2.

Lemma literal_text w v l v' r : jtext v → literalAt w v l = Some (v', r) → jtext v'.
Proof. unfold literalAt. destruct (stripPrefix w l); simpl; [|done]. by intros ? [= <- _]. Qed.

(** The parser answers such values only. *)
Lemma parse_values_text fuel :
  (∀ depth l v r, parseValue fuel depth l = Some (v, r) → jtext v) ∧
  (∀ depth l ms r, parseMembers fuel depth l = Some (ms, r) → Forall member_text ms) ∧
  (∀ depth l vs r, parseElems fuel depth l = Some (vs, r) → Forall jtext vs).
Proof.
  induction fuel as [|fuel (IHv & IHm & IHe)]; [done|]. split; [|split]; intros depth l v r.
  - cbn [parseValue]. destruct (skipSpace l) as [|c t]; [done|].
    destruct (c =? 123).
    { destruct depth as [|depth], (skipSpace t) as [|c' t']; try done.
      destruct (c' =? 125); [intros [= <- _]; by repeat constructor|].
      destruct (parseMembers _ _ _) as [[ms r']|] eqn:Hms; simpl; [|done]. intros [= <- _].
      constructor. by eapply IHm. }
    destruct (c =? 91).
    { destruct depth as [|depth], (skipSpace t) as [|c' t']; try done.
      destruct (c' =? 93); [intros [= <- _]; by repeat constructor|].
      destruct (parseElems _ _ _) as [[ms r']|] eqn:Hms; simpl; [|done]. intros [= <- _].
      constructor. by eapply IHe. }
    destruct (c =? 34).
    { destruct (unquoteFrom _ _) as [[s r']|] eqn:Hu; simpl; [|done]. intros [= <- _].
      constructor. by eapply unquote_utf8. }
    repeat (destruct (c =? _); [apply literal_text; constructor|]).
    destruct (scanNumber _) as [[lit r']|]; simpl; [|done]. intros [= <- _]. constructor.
  - cbn [parseMembers]. destruct (skipSpace l) as [|c t]; [done|]. destruct (negb _); [done|].
    destruct (unquoteFrom _ _) as [[k r1]|] eqn:Hk; simpl; [|done].
    destruct (skipSpace r1) as [|c1 r2]; [done|]. destruct (negb _); [done|].
    destruct (parseValue _ _ _) as [[v' r3]|] eqn:Hv; simpl; [|done].
    assert (member_text (k, v')) as Hm by (split; [by eapply unquote_utf8|by eapply IHv]).
    destruct (skipSpace r3) as [|c3 r4]; [done|]. destruct (c3 =? 44).
    + destruct (parseMembers fuel depth r4) as [[ms' r5]|] eqn:Hms; simpl; [|done].
      intros [= <- _]. constructor; [done|by eapply IHm].
    + destruct (c3 =? 125); [|done]. intros [= <- _]. constructor; [done|constructor].
  - cbn [parseElems]. destruct (parseValue _ _ _) as [[v' r3]|] eqn:Hv; simpl; [|done]. apply IHv in Hv.
    destruct (skipSpace r3) as [|c3 r4]; [done|]. destruct (c3 =? 44).
    + destruct (parseElems fuel depth r4) as [[ms' r5]|] eqn:Hms; simpl; [|done].
      intros [= <- _]. constructor; [done|by eapply IHe].
    + destruct (c3 =? 93); [|done]. intros [= <- _]. constructor; [done|constructor].
Qed.

Lemma parse_text data v : parse data = Some v → jtext v.
Proof.
  unfold parse. destruct (parseValue _ _ _) as [[v' r]|] eqn:Hv; simpl; [|done].
  case_bool_decide; [|done]. intros [= <-]. by eapply parse_values_text.
Qed.
