(* ===== verification/Codec.v ===== *)
(** * The encodings of the file store (src/storage)

    What json.Marshal writes and json.Unmarshal reads for the three structs the
    store keeps on disk, the framing of WAL records, and one turn of the WAL
    reader.  The theorems are the round trips: what was written is read back, and
    a frame that is cut short is not read at all. *)

From S2P Require Import Prelude Types Log Replay Bytes Utf8 Json.

(** ** Hard state *)

Definition marshalHardState (hs : HardState) : list N :=
  printObject [(toBytes "CurrentTerm", JNum (printUint (HS_CurrentTerm hs)));
               (toBytes "VotedFor", JStr (toBytes (HS_VotedFor hs)))].

Definition setHardState (hs : HardState) (m : list N * JValue) : option HardState :=
  if isField "CurrentTerm" m.1 then
    t ← asUint64 (HS_CurrentTerm hs) m.2; Some (mkHardState t (HS_VotedFor hs))
  else if isField "VotedFor" m.1 then
    v ← asString (HS_VotedFor hs) m.2; Some (mkHardState (HS_CurrentTerm hs) v)
  else Some hs.

Definition unmarshalHardState : list N → option HardState :=
  decodeStruct setHardState (mkHardState 0 "").

(** ** Snapshots *)

Definition marshalBytes (b : option bytes) : JValue :=
  match b with None => JNull | Some s => JStr (EncodeToString (toBytes s)) end.

Definition marshalSnapshot (s : Snapshot) : list N :=
  printObject [(toBytes "last_included_index", JNum (printUint (LastIncludedIndex s)));
               (toBytes "last_included_term", JNum (printUint (LastIncludedTerm s)));
               (toBytes "data", marshalBytes (SnapData s))].

Definition setSnapshot (s : Snapshot) (m : list N * JValue) : option Snapshot :=
  if isField "last_included_index" m.1 then
    i ← asUint64 (LastIncludedIndex s) m.2; Some (mkSnapshot i (LastIncludedTerm s) (SnapData s))
  else if isField "last_included_term" m.1 then
    t ← asUint64 (LastIncludedTerm s) m.2; Some (mkSnapshot (LastIncludedIndex s) t (SnapData s))
  else if isField "data" m.1 then
    b ← asBytes (SnapData s) m.2; Some (mkSnapshot (LastIncludedIndex s) (LastIncludedTerm s) b)
  else Some s.

Definition unmarshalSnapshot : list N → option Snapshot := decodeStruct setSnapshot (mkSnapshot 0 0 None).

(** ** WAL records *)

Definition maxRecordSize : N := N.shiftl 64 20.

(** omitempty on a number *)
Definition omitZero (name : string) (n : N) : list (list N * JValue) :=
  if n =? 0 then [] else [(toBytes name, JNum (printUint n))].

Definition recordMembers (r : walRecord) : list (list N * JValue) :=
  (toBytes "type", JStr (toBytes (rec_Type r))) ::
    omitZero "term" (rec_Term r) ++ omitZero "index" (rec_Index r) ++
    (if bool_decide (rec_Command r = "") then []
     else [(toBytes "command", JStr (EncodeToString (toBytes (rec_Command r))))]) ++
    omitZero "from" (rec_From r).

Definition marshalRecord (r : walRecord) : list N := printObject (recordMembers r).

Definition setRecord (r : walRecord) (m : list N * JValue) : option walRecord :=
  if isField "type" m.1 then
    t ← asString (rec_Type r) m.2; Some (mkRecord t (rec_Term r) (rec_Index r) (rec_Command r) (rec_From r))
  else if isField "term" m.1 then
    t ← asUint64 (rec_Term r) m.2; Some (mkRecord (rec_Type r) t (rec_Index r) (rec_Command r) (rec_From r))
  else if isField "index" m.1 then
    i ← asUint64 (rec_Index r) m.2; Some (mkRecord (rec_Type r) (rec_Term r) i (rec_Command r) (rec_From r))
  else if isField "command" m.1 then
    b ← asBytes (Some (rec_Command r)) m.2;
    Some (mkRecord (rec_Type r) (rec_Term r) (rec_Index r) (default "" b) (rec_From r))
  else if isField "from" m.1 then
    f ← asUint64 (rec_From r) m.2; Some (mkRecord (rec_Type r) (rec_Term r) (rec_Index r) (rec_Command r) f)
  else Some r.

Definition unmarshalRecord : list N → option walRecord := decodeStruct setRecord (mkRecord "" 0 0 "" 0).

(** The frame writeRecord builds: length, checksum, payload. *)
Definition frame (payload : list N) : list N :=
  putUint32 (toUint32 (lenN payload)) ++ putUint32 (ChecksumIEEE payload) ++ payload.

(** One turn of LoadEntries' loop up to the decoded record: [None] is a break. *)
Definition nextRecord (l : list N) : option (walRecord * nat) :=
  match l with
  | l1 :: l2 :: l3 :: l4 :: s1 :: s2 :: s3 :: s4 :: rest =>
    let len := uint32 l1 l2 l3 l4 in
    let sum := uint32 s1 s2 s3 s4 in
    if (len =? 0) || (maxRecordSize <? len) then None
    else if lenN rest <? len then None
    else
      let payload := take (N.to_nat len) rest in
      if negb (ChecksumIEEE payload =? sum) then None
      else r ← unmarshalRecord payload; Some (r, (8 + N.to_nat len)%nat)
  | _ => None
  end.

(** ** Plain text *)

(** ASCII that Marshal prints as it is. *)
Definition plain (c : N) : bool := (c <? 128) && htmlSafe c.

Lemma quoteFrom_plain l f :
  (length l ≤ f)%nat → Forall (λ c, plain c = true) l → quoteFrom f l = l.
Proof.
  intros Hf Hl. revert f Hf. induction Hl as [|c l Hc _ IH]; intros f Hf; [by destruct f|].
  destruct f as [|f]; simpl in Hf; [lia|]. apply andb_true_iff in Hc as [Hlt Hs].
  cbn [quoteFrom]. rewrite Hlt, Hs, IH by lia. done.
Qed.

Lemma plain_utf8 l : Forall (λ c, plain c = true) l → utf8 l.
Proof.
  induction 1 as [|c l Hc _ IH]; [constructor|]. apply andb_true_iff in Hc as [Hlt%N.ltb_lt _].
  assert (decodeRune (c :: l) = (c, 1%nat)) as Hd.
  { unfold decodeRune. by rewrite (proj2 (N.ltb_lt _ _)). }
  apply utf8_rune; [done| |by rewrite Hd].
  rewrite Hd. unfold badRune, RuneError. simpl. rewrite (proj2 (N.eqb_neq _ _)) by lia. done.
Qed.

Lemma b64_plain c : b64ok c = true → plain c = true.
Proof.
  unfold b64ok, plain, htmlSafe. intros H.
  rewrite ?orb_true_iff, ?andb_true_iff, ?N.leb_le, ?N.ltb_lt, ?N.eqb_eq in H.
  split_guards; simpl; lia.
Qed.

Lemma encoded_plain s : Forall (λ c, plain c = true) (EncodeToString (toBytes s)).
Proof. eapply Forall_impl; [apply EncodeToString_ok, toBytes_ok|]. apply b64_plain. Qed.

(** ** Bytes *)

Lemma quoteFrom_bytes f l : Forall byte_ok l → Forall byte_ok (quoteFrom f l).
Proof.
  revert l. induction f as [|f IH]; intros l Hl; [constructor|].
  destruct l as [|b t]; [constructor|]. cbn [quoteFrom].
  pose proof (Forall_drop _ (decodeRune (b :: t)).2 _ Hl) as Hdrop.
  pose proof (Forall_take _ (decodeRune (b :: t)).2 _ Hl) as Htake.
  apply Forall_cons in Hl as [Hb Ht]. destruct (N.ltb_spec b 128).
  - apply Forall_app. split; [|by apply IH]. destruct (htmlSafe b); [by constructor|].
    assert (∀ v, v < 16 → byte_ok (hexDigit v)) as Hhex.
    { intros v Hv. unfold byte_ok, hexDigit. destruct (v <? 10); lia. }
    assert (b / 16 < 16) by (apply N.Div0.div_lt_upper_bound; lia).
    pose proof (N.mod_lt b 16 ltac:(done)).
    unfold escapeByte. repeat case_match; repeat constructor; done || auto || (unfold byte_ok; lia).
  - destruct (decodeRune (b :: t)) as [c n]. simpl in Hdrop, Htake.
    pose proof (N.mod_lt c 16 ltac:(done)).
    assert (byte_ok (hexDigit (c mod 16))) by (unfold byte_ok, hexDigit; destruct (_ <? 10); lia).
    destruct (badRune (c, n)); [|destruct ((c =? 8232) || (c =? 8233))];
      (apply Forall_app; split; [|by apply IH]); first [done|by repeat constructor].
Qed.

Lemma quote_bytes l : Forall byte_ok l → Forall byte_ok (quote l).
Proof.
  intros Hl. constructor; [done|]. apply Forall_app. split; [by apply quoteFrom_bytes|by repeat constructor].
Qed.

Lemma printUint_digits n :
  n < u64_size → Forall (λ c, isDigit c = true) (printUint n).
Proof. intros Hn. by apply (digitsFrom_digits 20 n [] (u64_digits n Hn)). Qed.

(** A member of bytes. *)
Definition member_bytes (m : list N * JValue) : Prop :=
  Forall byte_ok m.1 ∧ match m.2 with JStr s => Forall byte_ok s | JArr _ | JObj _ => False | _ => True end.

Lemma printMember_bytes m : member_ok m → member_bytes m → Forall byte_ok (printMember m).
Proof.
  intros [_ Hv] [Hk Hb]. unfold printMember. apply Forall_app. split; [by apply quote_bytes|].
  constructor; [done|]. destruct m as [k v]. simpl in *. destruct v as [|[]|lit|s| |]; simpl;
    try (by repeat constructor); [|by apply quote_bytes].
  destruct Hv as (n & Hn & ->). eapply Forall_impl; [by apply printUint_digits|].
  intros c Hc. unfold isDigit in Hc. apply andb_true_iff in Hc as [_ ?%N.leb_le]. unfold byte_ok. lia.
Qed.

Lemma printObject_bytes ms :
  Forall member_ok ms → Forall member_bytes ms → Forall byte_ok (printObject ms).
Proof.
  intros Hok Hb. constructor; [done|]. apply Forall_app. split; [|by repeat constructor].
  induction Hok as [|m ms Hm Hok IH]; [constructor|]. apply Forall_cons in Hb as [Hb Hbs].
  destruct ms as [|m' ms']; [by apply printMember_bytes|].
  change (printMembers (m :: m' :: ms')) with (printMember m ++ 44 :: printMembers (m' :: ms')).
  apply Forall_app. split; [by apply printMember_bytes|]. constructor; [done|auto].
Qed.

(** ** Round trips *)

#[local] Hint Resolve toBytes_ok plain_utf8 : core.

Lemma name_utf8 s : forallb plain (toBytes s) = true → utf8 (toBytes s).
Proof.
  intros H. apply plain_utf8, Forall_forall. intros c Hc.
  by eapply forallb_forall, list_elem_of_In.
Qed.

Lemma decodeStruct_print {T} (f : T → list N * JValue → option T) z ms :
  Forall member_ok ms →
  decodeStruct f z (printObject ms) = foldl (λ acc m, st ← acc; f st m) (Some z) ms.
Proof. intros Hms. unfold decodeStruct. by rewrite parse_printObject. Qed.

Lemma num_ok name n :
  forallb plain (toBytes name) = true → n < u64_size → member_ok (toBytes name, JNum (printUint n)).
Proof. intros. split; [by apply name_utf8|by exists n]. Qed.

Lemma str_ok name s :
  forallb plain (toBytes name) = true → utf8 s → member_ok (toBytes name, JStr s).
Proof. intros. split; [by apply name_utf8|done]. Qed.

Lemma asUint64_print prev n : n < u64_size → asUint64 prev (JNum (printUint n)) = Some n.
Proof. apply parseUint_print. Qed.

Lemma asBytes_print prev s : asBytes prev (JStr (EncodeToString (toBytes s))) = Some (Some s).
Proof. simpl. rewrite base64_roundtrip by apply toBytes_ok. simpl. by rewrite ofBytes_toBytes. Qed.

Lemma asBytes_null prev : asBytes prev JNull = Some None.
Proof. done. Qed.

(** Decide which field each printed member sets, and decode its value. *)
Ltac decode_fields :=
  cbn [foldl fmap list_fmap app fst snd mbind option_bind];
  repeat (first
    [ match goal with
      | |- context [isField ?a (toBytes ?b)] =>
        let r := eval vm_compute in (isField a (toBytes b)) in
        change (isField a (toBytes b)) with r; cbv iota
      end
    | rewrite asUint64_print by done
    | rewrite asBytes_print
    | rewrite asBytes_null
    | progress cbn [asString]
    | rewrite ofBytes_toBytes ];
    cbn [mbind option_bind default from_option]).

Lemma hardstate_roundtrip hs :
  HS_CurrentTerm hs < u64_size → Valid (toBytes (HS_VotedFor hs)) = true →
  unmarshalHardState (marshalHardState hs) = Some hs.
Proof.
  intros Ht Hv%Valid_utf8. unfold unmarshalHardState, marshalHardState. rewrite decodeStruct_print.
  - unfold setHardState. decode_fields. by destruct hs.
  - constructor; [by apply num_ok|]. constructor; [by apply str_ok|constructor].
Qed.

Lemma snapshot_roundtrip s :
  LastIncludedIndex s < u64_size → LastIncludedTerm s < u64_size →
  unmarshalSnapshot (marshalSnapshot s) = Some s.
Proof.
  intros Hi Ht. unfold unmarshalSnapshot, marshalSnapshot. rewrite decodeStruct_print.
  - unfold setSnapshot, marshalBytes. destruct s as [i t [b|]]; simpl LastIncludedIndex in *;
      simpl LastIncludedTerm in *; simpl SnapData; decode_fields; done.
  - constructor; [by apply num_ok|]. constructor; [by apply num_ok|]. constructor; [|constructor].
    split; [by apply name_utf8|]. unfold marshalBytes. simpl. destruct (SnapData s); [|done].
    apply plain_utf8, encoded_plain.
Qed.

Lemma record_members_ok r :
  rec_Term r < u64_size → rec_Index r < u64_size → rec_From r < u64_size → utf8 (toBytes (rec_Type r)) →
  Forall member_ok (recordMembers r).
Proof.
  intros Ht Hi Hf Hty. unfold recordMembers, omitZero. constructor; [by apply str_ok|].
  repeat (apply Forall_app; split); repeat case_match; try constructor; try constructor;
    first [by apply num_ok|apply str_ok; [done|apply plain_utf8, encoded_plain]].
Qed.

Lemma record_roundtrip r :
  rec_Term r < u64_size → rec_Index r < u64_size → rec_From r < u64_size → utf8 (toBytes (rec_Type r)) →
  unmarshalRecord (marshalRecord r) = Some r.
Proof.
  intros Ht Hi Hf Hty. unfold unmarshalRecord, marshalRecord.
  rewrite decodeStruct_print by (by apply record_members_ok).
  unfold setRecord, recordMembers, omitZero. destruct r as [ty t i c f]. simpl rec_Type in *.
  simpl rec_Term in *. simpl rec_Index in *. simpl rec_Command in *. simpl rec_From in *.
  destruct (N.eqb_spec t 0) as [->|], (N.eqb_spec i 0) as [->|], (N.eqb_spec f 0) as [->|];
    case_bool_decide; subst; decode_fields; reflexivity.
Qed.

(** ** Frames *)

(** The records the reader accepts. *)
Definition record_fits (r : walRecord) : Prop :=
  rec_Term r < u64_size ∧ rec_Index r < u64_size ∧ rec_From r < u64_size ∧
  utf8 (toBytes (rec_Type r)) ∧ lenN (marshalRecord r) ≤ maxRecordSize.

Lemma maxRecordSize_value : maxRecordSize = 67108864.
Proof. reflexivity. Qed.

Lemma marshalRecord_bytes r : record_fits r → Forall byte_ok (marshalRecord r).
Proof.
  intros (Ht & Hi & Hf & Hty & _). apply printObject_bytes; [by apply record_members_ok|].
  assert (∀ name v, match v with JStr s => Forall byte_ok s | JArr _ | JObj _ => False | _ => True end →
            member_bytes (toBytes name, v)) as Hm by (intros; split; [apply toBytes_ok|done]).
  unfold recordMembers, omitZero. constructor; [by apply Hm, toBytes_ok|].
  repeat (apply Forall_app; split); repeat case_match; repeat constructor; try apply toBytes_ok.
  simpl. eapply Forall_impl; [apply encoded_plain|]. intros c Hc.
  apply andb_true_iff in Hc as [?%N.ltb_lt _]. unfold byte_ok. lia.
Qed.

Lemma marshalRecord_pos r : 0 < lenN (marshalRecord r).
Proof. unfold marshalRecord, printObject, lenN. simpl. lia. Qed.

Lemma frame_length p : length (frame p) = (8 + length p)%nat.
Proof. unfold frame. by rewrite !length_app. Qed.

(** The reader on a header: what it does with the bytes that follow. *)
Lemma nextRecord_header r rest :
  record_fits r →
  nextRecord (putUint32 (toUint32 (lenN (marshalRecord r))) ++
              putUint32 (ChecksumIEEE (marshalRecord r)) ++ rest) =
  if lenN rest <? lenN (marshalRecord r) then None
  else
    let payload := take (length (marshalRecord r)) rest in
    if negb (ChecksumIEEE payload =? ChecksumIEEE (marshalRecord r)) then None
    else r' ← unmarshalRecord payload; Some (r', (8 + length (marshalRecord r))%nat).
Proof.
  intros Hr. pose proof (marshalRecord_bytes r Hr) as Hb. pose proof (marshalRecord_pos r) as Hpos.
  destruct Hr as (_ & _ & _ & _ & Hsz). rewrite maxRecordSize_value in Hsz.
  assert (toUint32 (lenN (marshalRecord r)) = lenN (marshalRecord r)) as Hlen.
  { unfold toUint32. apply N.mod_small. lia. }
  rewrite Hlen. pose proof (uint32_put (lenN (marshalRecord r)) ltac:(lia)) as Hu1.
  pose proof (uint32_put _ (ChecksumIEEE_lt _ Hb)) as Hu2.
  unfold putUint32 in *. cbn [app nextRecord]. rewrite Hu1, Hu2.
  rewrite (proj2 (N.eqb_neq _ _)) by lia. rewrite maxRecordSize_value, (proj2 (N.ltb_ge _ _)) by lia.
  simpl orb. cbv iota.
  assert (N.to_nat (lenN (marshalRecord r)) = length (marshalRecord r)) as -> by apply Nat2N.id.
  done.
Qed.

(** A whole record is read back, whatever follows it. *)
Lemma nextRecord_frame r rest :
  record_fits r →
  nextRecord (frame (marshalRecord r) ++ rest) = Some (r, length (frame (marshalRecord r))).
Proof.
  intros Hr. unfold frame at 1. rewrite <-!app_assoc, nextRecord_header by done.
  rewrite (proj2 (N.ltb_ge _ _)) by (unfold lenN; rewrite length_app; lia). cbv zeta.
  rewrite take_app_length, N.eqb_refl. simpl negb. cbv iota.
  destruct Hr as (? & ? & ? & ? & _). rewrite record_roundtrip by done. cbn [mbind option_bind].
  by rewrite frame_length.
Qed.

(** A record cut short is not read. *)
Lemma nextRecord_torn r k :
  record_fits r → (k < length (frame (marshalRecord r)))%nat →
  nextRecord (take k (frame (marshalRecord r))) = None.
Proof.
  intros Hr Hk. rewrite frame_length in Hk. destruct (decide (k < 8)%nat) as [Hlt|Hge].
  - unfold frame, putUint32. cbn [app]. do 8 (destruct k as [|k]; [done|]). lia.
  - replace k with (8 + (k - 8))%nat by lia. unfold frame.
    assert (take (8 + (k - 8)) (putUint32 (toUint32 (lenN (marshalRecord r))) ++
              putUint32 (ChecksumIEEE (marshalRecord r)) ++ marshalRecord r) =
            putUint32 (toUint32 (lenN (marshalRecord r))) ++
              putUint32 (ChecksumIEEE (marshalRecord r)) ++ take (k - 8) (marshalRecord r)) as ->.
    { unfold putUint32. done. }
    rewrite nextRecord_header by done.
    rewrite (proj2 (N.ltb_lt _ _)); [done|]. unfold lenN. rewrite length_take. lia.
Qed.

(** ** Sizes *)

Lemma printUint_length n : (length (printUint n) ≤ 20)%nat.
Proof.
  assert (∀ f m acc, (length (digitsFrom f m acc) ≤ f + length acc)%nat) as H; [|apply (H 20%nat n [])].
  induction f as [|f IH]; intros m acc; [by change (digitsFrom 0 m acc) with acc|].
  change (digitsFrom (S f) m acc) with
    (if m <? 10 then 48 + m :: acc else digitsFrom f (m / 10) (48 + m mod 10 :: acc)). destruct (m <? 10); [simpl; lia|].
  etrans; [apply IH|]. simpl. lia.
Qed.

Lemma quote_plain l : Forall (λ c, plain c = true) l → length (quote l) = (2 + length l)%nat.
Proof.
  intros Hl. unfold quote. rewrite quoteFrom_plain by done. simpl. rewrite length_app. simpl. lia.
Qed.

Lemma num_length name n :
  forallb plain (toBytes name) = true →
  (length (printMember (toBytes name, JNum (printUint n))) ≤ 23 + length (toBytes name))%nat.
Proof.
  intros Hn. unfold printMember. cbn [fst snd printScalar]. rewrite length_app. cbn [length].
  rewrite quote_plain by (apply Forall_forall; intros c Hc; by eapply forallb_forall, list_elem_of_In).
  pose proof (printUint_length n). lia.
Qed.

Lemma printMembers_bound ms :
  (length (printMembers ms) ≤ sum_list ((λ m, S (length (printMember m))) <$> ms))%nat.
Proof.
  induction ms as [|m ms IH]; [done|]. destruct ms as [|m' ms']; [simpl; lia|].
  change (printMembers (m :: m' :: ms')) with (printMember m ++ 44 :: printMembers (m' :: ms')).
  rewrite length_app. simpl in *. lia.
Qed.

(** The commands that fit a record: base64 and the rest of the record stay within
    the reader's limit. *)
Definition command_fits (cmd : bytes) : bool := 4 * ((lenN (toBytes cmd) + 2) / 3) + 120 <=? maxRecordSize.

Lemma appendRecord_length e :
  (length (marshalRecord (appendRecord e)) ≤ 4 * ((length (toBytes (Command e)) + 2) / 3) + 120)%nat.
Proof.
  unfold marshalRecord, printObject, recordMembers, omitZero, appendRecord. cbn [rec_Type rec_Term rec_Index rec_Command rec_From].
  rewrite N.eqb_refl. cbn [length]. rewrite length_app. cbn [length].
  set (m0 := (toBytes "type", JStr (toBytes recordAppend))).
  assert (length (printMember m0) = 15)%nat as H0 by reflexivity.
  pose proof (num_length "term" (Term e) eq_refl) as H1. pose proof (num_length "index" (Index e) eq_refl) as H2.
  change (length (toBytes "term")) with 4%nat in H1. change (length (toBytes "index")) with 5%nat in H2.
  set (m3 := (toBytes "command", JStr (EncodeToString (toBytes (Command e))))).
  assert (length (printMember m3) = 4 * ((length (toBytes (Command e)) + 2) / 3) + 12)%nat as H3.
  { unfold printMember, m3. cbn [fst snd printScalar]. rewrite length_app. cbn [length].
    rewrite (quote_plain (EncodeToString _)) by apply encoded_plain. rewrite EncodeToString_length.
    change (length (quote (toBytes "command"))) with 9%nat. lia. }
  set (m1 := (toBytes "term", JNum (printUint (Term e)))) in *.
  set (m2 := (toBytes "index", JNum (printUint (Index e)))) in *.
  match goal with |- context [printMembers ?ms] => pose proof (printMembers_bound ms) as Hb end.
  destruct (Term e =? 0), (Index e =? 0), (bool_decide (Command e = ""));
    cbn [app fmap list_fmap sum_list_with] in Hb; simpl sum_list in Hb;
    unfold id in Hb; simpl app; lia.
Qed.

Lemma append_fits e :
  Term e < u64_size → Index e < u64_size → command_fits (Command e) = true →
  record_fits (appendRecord e).
Proof.
  intros Ht Hi Hc%N.leb_le. split; [done|]. split; [done|]. split; [done|].
  split; [by apply name_utf8|]. pose proof (appendRecord_length e). unfold lenN in *.
  rewrite maxRecordSize_value in *.
  pose proof (Nat2N.inj_div (length (toBytes (Command e)) + 2) 3) as Hdiv.
  rewrite Nat2N.inj_add in Hdiv. change (N.of_nat 2) with 2 in Hdiv. change (N.of_nat 3) with 3 in Hdiv. lia.
Qed.

Lemma truncate_fits from : from < u64_size → record_fits (truncateRecord from).
Proof.
  intros Hf. split; [done|]. split; [done|]. split; [done|]. split; [by apply name_utf8|].
  set (m0 := (toBytes "type", JStr (toBytes recordTruncate))).
  set (m1 := (toBytes "from", JNum (printUint from))).
  assert (marshalRecord (truncateRecord from) = printObject (m0 :: if from =? 0 then [] else [m1])) as -> by done.
  pose proof (num_length "from" from eq_refl : length (printMember m1) ≤ 27)%nat as H1.
  assert (length (printMember m0) = 17)%nat as H0 by reflexivity.
  unfold printObject, lenN. cbn [length]. rewrite length_app, maxRecordSize_value. cbn [length].
  match goal with |- context [printMembers ?ms] => pose proof (printMembers_bound ms) as Hb end.
  destruct (from =? 0); cbn [fmap list_fmap sum_list_with] in Hb; unfold id in Hb; lia.
Qed.

(** Framing of the log file: a whole record is read back, with its length,
    whatever bytes follow it, and a record of which the last bytes are missing,
    however many, is not read. *)
Lemma wal_framing r rest :
  record_fits r →
  nextRecord (frame (marshalRecord r) ++ rest) = Some (r, length (frame (marshalRecord r))) ∧
  ∀ k, (k < length (frame (marshalRecord r)))%nat → nextRecord (take k (frame (marshalRecord r))) = None.
Proof. intros Hr. split; [by apply nextRecord_frame|]. intros k. by apply nextRecord_torn. Qed.
