(* ===== verification/FileStore.v ===== *)
(** * The file store (src/storage/storage.go, wal.go, snapshot.go)

    FileStore on an explicit file system: the directory holds hardstate.json,
    snapshot.json and wal.log as byte strings, the process holds an open handle
    on the WAL with its offset.  Every system call may fail, as [faults] plans.
    A write reaches the medium byte by byte, so a crash leaves any prefix of it;
    a rename is atomic.  [temp_file] is the temporary file in use, which has a
    fresh name; those that a crash left behind are never opened again and not
    represented.  A handle that Compact left on an unlinked file is not modelled:
    the one caller treats the error that precedes it as fatal. *)

From S2P Require Import Prelude Types Effects Log Replay Bytes Json Codec.

(** ** The file system *)

(** The outcome of a system call: success, or failure after that many bytes. *)
Inductive Fault := Works | Fails (written : nat).

Record Files := mkFiles {
  hardstate_json : option (list N);
  snapshot_json : option (list N);
  wal_log : list N;
  temp_file : option (list N);
  walHandle : option nat;
  faults : list Fault;
  readFault : option nat
}.

#[export] Instance eta_Files : Eta Files := fun r =>
  {| hardstate_json := hardstate_json r; snapshot_json := snapshot_json r; wal_log := wal_log r;
     temp_file := temp_file r; walHandle := walHandle r; faults := faults r; readFault := readFault r |}.

(** The next planned outcome; calls beyond the plan succeed. *)
Definition nextFault (d : Files) : Fault * Files :=
  match faults d with
  | [] => (Works, d)
  | f :: fs => (f, d <| faults := fs |>)
  end.

(** A system call that changes nothing recovery can see. *)
Definition syscall (err : string) : Io Files unit := λ d,
  match nextFault d with
  | (Works, d') => mkIo [] d' (inr tt)
  | (Fails _, d') => mkIo [] d' (inl err)
  end.

(** A system call with an atomic effect. *)
Definition syscallSet (err : string) (f : Files → Files) : Io Files unit := λ d,
  match nextFault d with
  | (Works, d') => mkIo [] (f d') (inr tt)
  | (Fails _, d') => mkIo [] d' (inl err)
  end.

(** [buf] written over [file] at [pos]. *)
Definition overwrite (file : list N) (pos : nat) (buf : list N) : list N :=
  take pos file ++ buf ++ drop (pos + length buf) file.

(** s.wal.Write: what a crash finds is the file with a prefix of [buf] written;
    a failing call has written some prefix too. *)
Definition writeWAL (err : string) (buf : list N) : Io Files unit := λ d,
  match walHandle d with
  | None => mkIo [] d (inl err)
  | Some pos =>
    let put k d' := d' <| wal_log := overwrite (wal_log d') pos (take k buf) |> in
    match nextFault d with
    | (Works, d') =>
      mkIo ((λ k, put k d') <$> seq 0 (S (length buf)))
        ((put (length buf) d') <| walHandle := Some (pos + length buf)%nat |>) (inr tt)
    | (Fails k, d') => mkIo ((λ j, put j d') <$> seq 0 (S (k `min` length buf))) (put k d') (inl err)
    end
  end.

Definition wrapIo {A} (s : string) (m : Io Files A) : Io Files A := λ d,
  let r := m d in
  mkIo (io_mid r) (io_disk r) match io_res r with inl e => inl (s +:+ e) | inr a => inr a end.

(** syncDir: the directory is opened and synced. *)
Definition syncDir : Io Files unit :=
  syscall "opening dir" ;;
  syscall "syncing dir".

(** *** Temporary files *)

(** The names a temporary file is renamed to. *)
Inductive FileName := hardStateFile | snapshotFile | walFile.

Definition replaceFile (name : FileName) (data : list N) (d : Files) : Files :=
  match name with
  | hardStateFile => d <| hardstate_json := Some data |>
  | snapshotFile => d <| snapshot_json := Some data |>
  | walFile => d <| wal_log := data |>
  end.

(** os.CreateTemp *)
Definition createTemp (err : string) : Io Files unit :=
  syscallSet err (λ d, d <| temp_file := Some [] |>).

(** tmp.Write; as for the WAL, a crash or a failure leaves a prefix. *)
Definition writeTemp (err : string) (buf : list N) : Io Files unit := λ d,
  match temp_file d with
  | None => mkIo [] d (inl err)
  | Some file =>
    let put k d' := d' <| temp_file := Some (file ++ take k buf) |> in
    match nextFault d with
    | (Works, d') => mkIo ((λ k, put k d') <$> seq 0 (S (length buf))) (put (length buf) d') (inr tt)
    | (Fails k, d') => mkIo ((λ j, put j d') <$> seq 0 (S (k `min` length buf))) (put k d') (inl err)
    end
  end.

(** os.Rename of the temporary file *)
Definition renameTemp (err : string) (name : FileName) : Io Files unit := λ d,
  match temp_file d with
  | None => mkIo [] d (inl err)
  | Some data => syscallSet err (λ d', (replaceFile name data d') <| temp_file := None |>) d
  end.

(** os.Remove of the temporary file, whose error is ignored *)
Definition removeTemp : Io Files unit := syscallSet "removing temp file" (λ d, d <| temp_file := None |>).

(** [defer f()] ahead of [m] *)
Definition deferred {A} (f : Io Files unit) (m : Io Files A) : Io Files A := λ d,
  let r := m d in
  let r' := f (io_disk r) in
  mkIo (io_mid r ++ io_disk r :: io_mid r') (io_disk r') (io_res r).

(** atomicWrite: temp file, fsync, rename, fsync of the directory. *)
Definition atomicWrite (name : FileName) (data : list N) : Io Files unit :=
  createTemp "creating temp file" ;;
  deferred removeTemp
    (writeTemp "writing temp file" data ;;
     syscall "syncing temp file" ;;
     syscall "closing temp file" ;;
     renameTemp "replacing file" name ;;
     syncDir).

(** os.ReadFile: [None] when the file does not exist. *)
Definition readFile (err : string) (file : Files → option (list N)) : Io Files (option (list N)) := λ d,
  match nextFault d with
  | (Works, d') => mkIo [] d' (inr (file d'))
  | (Fails _, d') => mkIo [] d' (inl err)
  end.

(** ** Hard state *)

Definition fs_SaveHardState (hs : HardState) : Io Files unit :=
  wrapIo "storage: writing hard state: "
    (atomicWrite hardStateFile (marshalHardState hs)).

Definition fs_LoadHardState : Io Files (option HardState) :=
  data ← readFile "storage: reading hard state" hardstate_json;
  match data with
  | None => io_ret None
  | Some b =>
    match unmarshalHardState b with
    | None => io_fail "storage: corrupt hard state"
    | Some hs => io_ret (Some hs)
    end
  end.

(** ** Snapshots *)

Definition fs_SaveSnapshot (s : Snapshot) : Io Files unit :=
  wrapIo "storage: writing snapshot: "
    (atomicWrite snapshotFile (marshalSnapshot s)).

Definition fs_LoadSnapshot : Io Files (option Snapshot) :=
  data ← readFile "storage: reading snapshot" snapshot_json;
  match data with
  | None => io_ret None
  | Some b =>
    match unmarshalSnapshot b with
    | None => io_fail "storage: corrupt snapshot"
    | Some s => io_ret (Some s)
    end
  end.

(** ** The write-ahead log *)

(** openWAL: the file is created if need be; the fresh handle is at its start. *)
Definition openWAL : Io Files nat :=
  syscall "storage: opening wal" ;;
  io_ret 0%nat.

(** [s.wal = f] *)
Definition setWAL (pos : nat) : Io Files unit := λ d,
  mkIo [] (d <| walHandle := Some pos |>) (inr tt).

Definition writeRecord (r : walRecord) : Io Files unit :=
  writeWAL "storage: writing wal record" (frame (marshalRecord r)).

Definition syncWAL : Io Files unit := syscall "storage: syncing wal".

Fixpoint writeRecords (rs : list walRecord) : Io Files unit :=
  match rs with
  | [] => io_ret tt
  | r :: rs' => writeRecord r ;; writeRecords rs'
  end.

Definition fs_AppendEntries (es : list LogEntry) : Io Files unit :=
  match es with
  | [] => io_ret tt
  | _ => writeRecords (appendRecord <$> es) ;; syncWAL
  end.

Definition fs_TruncateSuffix (from : N) : Io Files unit :=
  writeRecord (truncateRecord from) ;; syncWAL.

(** The loop.  [reads] is the number of the ReadFull call that fails, if one
    does; a failing read is a break like the end of the file.  A record takes
    more than a byte, so the length of the file is enough fuel. *)
Fixpoint walLoop (fuel : nat) (reads : option nat) (l : list N) (entries : list LogEntry)
    (offset : nat) : string + (list LogEntry * nat) :=
  match fuel with
  | O => inr (entries, offset)
  | S fuel' =>
    if bool_decide (reads = Some 0%nat) || bool_decide (reads = Some 1%nat) then inr (entries, offset)
    else
      match nextRecord l with
      | None => inr (entries, offset)
      | Some (r, n) =>
        match replayRecord entries r with
        | inl err => inl err
        | inr entries' =>
          walLoop fuel' ((λ k, k - 2)%nat <$> reads) (drop n l) entries' (offset + n)
        end
      end
  end.

(** s.wal.Seek(pos, io.SeekStart) *)
Definition seekWAL (err : string) (pos : nat) : Io Files unit := λ d,
  match walHandle d with
  | None => mkIo [] d (inl err)
  | Some _ => syscallSet err (λ d', d' <| walHandle := Some pos |>) d
  end.

Definition scanWAL : Io Files (list LogEntry * nat) := λ d,
  mkIo [] d (walLoop (length (wal_log d)) (readFault d) (wal_log d) [] 0).

Definition fs_LoadEntries : Io Files (list LogEntry) :=
  seekWAL "storage: seeking wal" 0 ;;
  '(entries, offset) ← scanWAL;
  syscallSet "storage: truncating torn wal tail" (λ d, d <| wal_log := take offset (wal_log d) |>) ;;
  seekWAL "storage: seeking wal end" offset ;;
  io_ret entries.

(** The loop of Compact. *)
Fixpoint writeTemps (es : list LogEntry) : Io Files unit :=
  match es with
  | [] => io_ret tt
  | e :: es' => writeTemp "storage: writing temp wal" (frame (marshalRecord (appendRecord e))) ;; writeTemps es'
  end.

(** fresh.Seek(0, io.SeekEnd) *)
Definition seekEnd (err : string) : Io Files nat := λ d,
  match nextFault d with
  | (Works, d') => mkIo [] d' (inr (length (wal_log d')))
  | (Fails _, d') => mkIo [] d' (inl err)
  end.

(** Compact: the temp file is written record by record, then renamed over the WAL,
    and the handle is replaced by one at the end of the new file. *)
Definition fs_Compact (es : list LogEntry) : Io Files unit :=
  createTemp "storage: creating temp wal" ;;
  deferred removeTemp
    (writeTemps es ;;
     syscall "storage: syncing temp wal" ;;
     syscall "storage: closing temp wal" ;;
     renameTemp "storage: swapping wal" walFile ;;
     wrapIo "storage: syncing dir: " syncDir ;;
     openWAL ;;
     pos ← seekEnd "storage: seeking new wal";
     setWAL pos).

(** ** Opening and closing *)

Definition NewFileStore : Io Files unit :=
  syscall "storage: creating dir" ;;
  pos ← openWAL;
  setWAL pos.

Definition fs_Close : Io Files unit := λ d,
  match walHandle d with
  | None => mkIo [] d (inr tt)
  | Some _ => syscall "storage: closing wal" (d <| walHandle := None |>)
  end.

#[export] Instance FileStorage : Storage Files := {|
  Open := NewFileStore;
  SaveHardState := fs_SaveHardState;
  LoadHardState := fs_LoadHardState;
  AppendEntries := fs_AppendEntries;
  TruncateSuffix := fs_TruncateSuffix;
  LoadEntries := fs_LoadEntries;
  Compact := fs_Compact;
  SaveSnapshot := fs_SaveSnapshot;
  LoadSnapshot := fs_LoadSnapshot
|}.
