(* ===== verification/FileStoreSpec.v ===== *)
(** * The file store keeps its contracts (src/storage)

    The records a recovery replays are those the scan of the WAL decodes, up to
    the first place where it stops.  The file store is shown to implement
    [StateStoreSpec] and [LogStoreSpec]: a batch of records cut short anywhere is
    read back as a prefix of the batch, hard state and snapshot are replaced
    atomically, and LoadEntries leaves a file that ends in a whole record.  Read
    errors are excluded ([readFault]); what they do is shown in file Recovery. *)

From S2P Require Import Prelude Types Effects Hoare Contracts Log Replay LogContract Bytes Utf8 Json Codec FileStore.

(** ** Scanning *)

Fixpoint scan (fuel : nat) (l : list N) : list walRecord * nat :=
  match fuel with
  | O => ([], 0%nat)
  | S fuel' =>
    match nextRecord l with
    | None => ([], 0%nat)
    | Some (r, n) => let '(rs, m) := scan fuel' (drop n l) in (r :: rs, (n + m)%nat)
    end
  end.

(** The records of a WAL file, and how many bytes of it they take. *)
Definition walRecords (l : list N) : list walRecord := (scan (length l) l).1.
Definition walValid (l : list N) : nat := (scan (length l) l).2.

Lemma nextRecord_inv l r n :
  nextRecord l = Some (r, n) →
  ∃ l1 l2 l3 l4 s1 s2 s3 s4 rest, l = [l1; l2; l3; l4; s1; s2; s3; s4] ++ rest ∧
    n = (8 + N.to_nat (uint32 l1 l2 l3 l4))%nat ∧ (N.to_nat (uint32 l1 l2 l3 l4) ≤ length rest)%nat.
Proof.
  intros H. destruct l as [|l1 [|l2 [|l3 [|l4 [|s1 [|s2 [|s3 [|s4 rest]]]]]]]]; try done.
  unfold nextRecord in H. destruct (_ || _); [done|]. destruct (N.ltb_spec (lenN rest) (uint32 l1 l2 l3 l4)); [done|].
  destruct (negb _); [done|]. destruct (unmarshalRecord _); simpl in H; [|done]. injection H as <- <-.
  exists l1, l2, l3, l4, s1, s2, s3, s4, rest. unfold lenN in *. split; [done|]. split; [done|lia].
Qed.

Lemma nextRecord_size l r n : nextRecord l = Some (r, n) → (8 ≤ n ≤ length l)%nat.
Proof.
  intros (? & ? & ? & ? & ? & ? & ? & ? & rest & -> & -> & ?)%nextRecord_inv.
  rewrite length_app. simpl. lia.
Qed.

(** What a turn of the reader answers depends on the record it reads alone. *)
Lemma nextRecord_app l k r n : nextRecord l = Some (r, n) → nextRecord (l ++ k) = Some (r, n).
Proof.
  intros H. pose proof H as (l1 & l2 & l3 & l4 & s1 & s2 & s3 & s4 & rest & -> & -> & Hlen)%nextRecord_inv.
  revert H. cbn [app nextRecord]. destruct (_ || _); [done|].
  rewrite !(proj2 (N.ltb_ge _ _)) by (unfold lenN; rewrite ?length_app; lia).
  by rewrite take_app_le by lia.
Qed.

Lemma nextRecord_take l r n m :
  nextRecord l = Some (r, n) → (n ≤ m)%nat → nextRecord (take m l) = Some (r, n).
Proof.
  intros H Hm. pose proof H as (l1 & l2 & l3 & l4 & s1 & s2 & s3 & s4 & rest & -> & -> & Hlen)%nextRecord_inv.
  revert H. replace m with (8 + (m - 8))%nat by lia. cbn [app take Nat.add nextRecord]. destruct (_ || _); [done|].
  rewrite !(proj2 (N.ltb_ge _ _)) by (unfold lenN; rewrite ?length_take; lia).
  rewrite firstn_firstn, Nat.min_l by lia. done.
Qed.

Lemma scan_fuel l f1 f2 : (length l ≤ f1)%nat → (length l ≤ f2)%nat → scan f1 l = scan f2 l.
Proof.
  revert l f2. induction f1 as [|f1 IH]; intros l f2 H1 H2.
  - destruct l; [|simpl in H1; lia]. by destruct f2.
  - destruct f2 as [|f2]; [by destruct l; [|simpl in H2; lia]|]. simpl.
    destruct (nextRecord l) as [[r n]|] eqn:Hn; [|done]. apply nextRecord_size in Hn.
    rewrite (IH (drop n l) f2); [done|..]; rewrite length_drop; lia.
Qed.

Lemma scan_unfold l :
  scan (length l) l =
  match nextRecord l with
  | None => ([], 0%nat)
  | Some (r, n) => (r :: walRecords (drop n l), (n + walValid (drop n l))%nat)
  end.
Proof.
  unfold walRecords, walValid. destruct l as [|b l]; [done|]. cbn [length scan].
  destruct (nextRecord (b :: l)) as [[r n]|] eqn:Hn; [|done]. apply nextRecord_size in Hn.
  rewrite (scan_fuel (drop n (b :: l)) _ (length (drop n (b :: l)))); [|rewrite length_drop; simpl in *; lia|done].
  by destruct (scan _ _).
Qed.

Lemma walRecords_unfold l :
  walRecords l = match nextRecord l with None => [] | Some (r, n) => r :: walRecords (drop n l) end.
Proof. unfold walRecords at 1. rewrite scan_unfold. by destruct (nextRecord l) as [[r n]|]. Qed.

Lemma walValid_unfold l :
  walValid l = match nextRecord l with None => 0%nat | Some (r, n) => (n + walValid (drop n l))%nat end.
Proof. unfold walValid at 1. rewrite scan_unfold. by destruct (nextRecord l) as [[r n]|]. Qed.

(** Induction along the records of a file. *)
Lemma wal_ind (P : list N → Prop) :
  (∀ l, nextRecord l = None → P l) →
  (∀ l r n, nextRecord l = Some (r, n) → P (drop n l) → P l) → ∀ l, P l.
Proof.
  intros Hnone Hsome l. remember (length l) as len eqn:Hlen. revert l Hlen.
  induction (lt_wf len) as [len _ IH]. intros l ->.
  destruct (nextRecord l) as [[r n]|] eqn:Hn; [|by apply Hnone].
  eapply Hsome; [done|]. pose proof (nextRecord_size _ _ _ Hn).
  eapply IH; [|done]. rewrite length_drop. lia.
Qed.

Lemma walValid_le l : (walValid l ≤ length l)%nat.
Proof.
  induction l as [l Hn|l r n Hn IH] using wal_ind; rewrite walValid_unfold, Hn; [lia|].
  apply nextRecord_size in Hn. rewrite length_drop in IH. lia.
Qed.

(** Cutting the file where the scan stopped keeps its records. *)
Lemma wal_cut l :
  walRecords (take (walValid l) l) = walRecords l ∧ walValid (take (walValid l) l) = walValid l.
Proof.
  induction l as [l Hn|l r n Hn IH] using wal_ind; rewrite (walValid_unfold l), (walRecords_unfold l), Hn.
  - done.
  - pose proof (nextRecord_take l r n (n + walValid (drop n l)) Hn ltac:(lia)) as Hn'.
    rewrite (walRecords_unfold (take _ l)), (walValid_unfold (take _ l)), Hn', skipn_firstn_comm.
    replace (n + walValid (drop n l) - n)%nat with (walValid (drop n l)) by lia.
    destruct IH as [-> ->]. done.
Qed.

(** ** Writing at the end of a whole file *)

Definition whole (l : list N) : Prop := walValid l = length l.

Lemma wal_app l k :
  whole l → walRecords (l ++ k) = walRecords l ++ walRecords k ∧
            walValid (l ++ k) = (length l + walValid k)%nat.
Proof.
  unfold whole. induction l as [l Hn|l r n Hn IH] using wal_ind; rewrite walValid_unfold, Hn; intros Hw.
  - destruct l; [|done]. done.
  - pose proof (nextRecord_size _ _ _ Hn). rewrite length_drop in IH.
    rewrite (walRecords_unfold (l ++ k)), (walValid_unfold (l ++ k)), (nextRecord_app _ k _ _ Hn), (walRecords_unfold l), Hn.
    rewrite drop_app_le by lia. destruct IH as [-> ->]; [lia|]. split; [done|lia].
Qed.

Definition frames (rs : list walRecord) : list N := mjoin ((λ r, frame (marshalRecord r)) <$> rs).

Lemma frames_app rs rs' : frames (rs ++ rs') = frames rs ++ frames rs'.
Proof. unfold frames. by rewrite fmap_app, join_app. Qed.

Lemma wal_frames rs : Forall record_fits rs → walRecords (frames rs) = rs ∧ whole (frames rs).
Proof.
  unfold whole. induction 1 as [|r rs Hr Hrs [IH1 IH2]]; [done|].
  change (frames (r :: rs)) with (frame (marshalRecord r) ++ frames rs).
  rewrite walRecords_unfold, walValid_unfold, nextRecord_frame, drop_app_length, IH1, IH2 by done.
  by rewrite length_app.
Qed.

(** A batch cut short anywhere reads as a prefix of the batch. *)
Lemma wal_torn rs k : Forall record_fits rs → ∃ j, walRecords (take k (frames rs)) = take j rs.
Proof.
  intros Hrs. revert k. induction Hrs as [|r rs Hr Hrs IH]; intros k.
  { exists 0%nat. change (frames []) with (@nil N). by rewrite take_nil. }
  change (frames (r :: rs)) with (frame (marshalRecord r) ++ frames rs).
  destruct (decide (k < length (frame (marshalRecord r)))%nat) as [Hlt|Hge].
  - exists 0%nat. rewrite take_app_le by lia. by rewrite walRecords_unfold, nextRecord_torn.
  - destruct (IH (k - length (frame (marshalRecord r)))%nat) as [j Hj]. exists (S j).
    rewrite take_app_ge, walRecords_unfold, nextRecord_frame, drop_app_length by (done || lia).
    by rewrite Hj.
Qed.

(** ** The reader *)

Lemma walLoop_scan fuel l es off :
  (length l ≤ fuel)%nat →
  walLoop fuel None l es off =
  match replayFrom es (walRecords l) with
  | inl err => inl err
  | inr es' => inr (es', (off + walValid l)%nat)
  end.
Proof.
  revert l es off. induction fuel as [|fuel IH]; intros l es off Hf.
  { destruct l; [|simpl in Hf; lia]. simpl. by rewrite Nat.add_0_r. }
  cbn [walLoop]. rewrite !bool_decide_false by done. cbn [orb].
  rewrite walRecords_unfold, walValid_unfold.
  destruct (nextRecord l) as [[r n]|] eqn:Hn; cbn [replayFrom]; [|by rewrite Nat.add_0_r].
  destruct (replayRecord es r) as [err|es']; [done|]. apply nextRecord_size in Hn.
  cbn [fmap option_fmap option_map]. rewrite IH by (rewrite length_drop; lia).
  destruct (replayFrom es' _); [done|]. by rewrite Nat.add_assoc.
Qed.

(** The bytes of the first [j] records. *)
Fixpoint walPrefix (j : nat) (l : list N) : nat :=
  match j with
  | O => 0
  | S j' => match nextRecord l with None => 0 | Some (_, n) => n + walPrefix j' (drop n l) end
  end.

Lemma walPrefix_records j l : walRecords (take (walPrefix j l) l) = take j (walRecords l).
Proof.
  revert l. induction j as [|j IH]; intros l; [done|]. cbn [walPrefix]. rewrite (walRecords_unfold l).
  destruct (nextRecord l) as [[r n]|] eqn:Hn; [|done].
  rewrite walRecords_unfold, (nextRecord_take l r n) by (done || lia). rewrite skipn_firstn_comm.
  replace (n + walPrefix j (drop n l) - n)%nat with (walPrefix j (drop n l)) by lia. by rewrite IH.
Qed.

(** A record takes two reads, so a read that fails ends the scan after the records
    before it. *)
Lemma walLoop_fault fuel j h l es off :
  (length l ≤ fuel)%nat → (h < 2)%nat →
  walLoop fuel (Some (2 * j + h)%nat) l es off =
  match replayFrom es (take j (walRecords l)) with
  | inl err => inl err
  | inr es' => inr (es', (off + walPrefix j l)%nat)
  end.
Proof.
  intros Hf Hh. revert j l es off Hf. induction fuel as [|fuel IH]; intros j l es off Hf.
  { destruct l; [|simpl in Hf; lia]. change (walRecords []) with (@nil walRecord). rewrite take_nil. simpl. destruct j; simpl; by rewrite Nat.add_0_r. }
  cbn [walLoop]. destruct j as [|j].
  { destruct h as [|[|h]]; [| |lia]; simpl; by rewrite Nat.add_0_r. }
  rewrite !bool_decide_false by (intros [=]; lia). cbn [orb walPrefix]. rewrite walRecords_unfold.
  destruct (nextRecord l) as [[r n]|] eqn:Hn; cbn [replayFrom take]; [|by rewrite Nat.add_0_r].
  destruct (replayRecord es r) as [err|es']; [done|]. apply nextRecord_size in Hn.
  cbn [fmap option_fmap option_map]. replace (2 * S j + h - 2)%nat with (2 * j + h)%nat by lia.
  rewrite IH by (rewrite length_drop; lia). destruct (replayFrom es' _); [done|]. by rewrite Nat.add_assoc.
Qed.

(** ** Rules for the system calls *)

(** Everything recovery or a later call can see of a disk. *)
Definition visible (d : Files) : option (list N) * option (list N) * list N * option nat * option nat :=
  (hardstate_json d, snapshot_json d, wal_log d, walHandle d, readFault d).

(** [d] is [d0] up to the faults still to come. *)
Definition like (d0 d : Files) : Prop := visible d = visible d0.

Lemma nextFault_like d f d' : nextFault d = (f, d') → like d d'.
Proof. unfold nextFault. destruct (faults d); by intros [= <- <-]. Qed.

Lemma like_trans d0 d d' : like d0 d → like d d' → like d0 d'.
Proof. unfold like. congruence. Qed.

(** A call that goes through no state but the last. *)
#[local] Ltac one_step := simpl; split; [constructor|split; [by eauto|first [by intros ? [=]|by eauto]]].

Lemma io_syscall (I : Files → Prop) d0 err :
  (∀ d, like d0 d → I d) → io_hoare I (like d0) (syscall err) (λ _, like d0).
Proof.
  intros HI d Hd. unfold syscall. destruct (nextFault d) as [[|k] d'] eqn:Hf; apply nextFault_like in Hf;
    pose proof (like_trans _ _ _ Hd Hf); one_step.
Qed.

(** [f] changes what it changes whatever faults are to come. *)
Definition respects (f : Files → Files) : Prop := ∀ d d', like d d' → like (f d) (f d').

#[local] Ltac respects_fields := intros ? ?; unfold like, visible; simpl; congruence.

Lemma io_syscallSet (I : Files → Prop) d0 err f :
  respects f → (∀ d, like d0 d ∨ like (f d0) d → I d) →
  io_hoare I (like d0) (syscallSet err f) (λ _, like (f d0)).
Proof.
  intros Hf HI d Hd. unfold syscallSet. destruct (nextFault d) as [[|k] d'] eqn:Hn; apply nextFault_like in Hn;
    pose proof (like_trans _ _ _ Hd Hn); pose proof (Hf d0 d'); one_step.
Qed.

Lemma io_setWAL (I : Files → Prop) d0 pos :
  (∀ d, like (d0 <| walHandle := Some pos |>) d → I d) →
  io_hoare I (like d0) (setWAL pos) (λ _, like (d0 <| walHandle := Some pos |>)).
Proof.
  intros HI d Hd. assert (like (d0 <| walHandle := Some pos |>) (d <| walHandle := Some pos |>)).
  { unfold like, visible in *. simpl. congruence. }
  one_step.
Qed.

Lemma io_syncDir (I : Files → Prop) d0 :
  (∀ d, like d0 d → I d) → io_hoare I (like d0) syncDir (λ _, like d0).
Proof. intros HI. eapply io_hoare_bind; [by apply io_syscall|]. intros ?. by apply io_syscall. Qed.

Lemma io_openWAL (I : Files → Prop) d0 :
  (∀ d, like d0 d → I d) → io_hoare I (like d0) openWAL (λ pos d, pos = 0%nat ∧ like d0 d).
Proof. intros HI. eapply io_hoare_bind; [by apply io_syscall|]. intros ?. apply io_hoare_ret; auto. Qed.

(** *** The temporary file

    It is not visible; while it is written, its contents are known. *)

Definition writing (d0 : Files) (data : list N) (d : Files) : Prop := like d0 d ∧ temp_file d = Some data.

Lemma io_createTemp (I : Files → Prop) d0 err :
  (∀ d, like d0 d → I d) → io_hoare I (like d0) (createTemp err) (λ _, writing d0 []).
Proof.
  intros HI d Hd. unfold createTemp, syscallSet. destruct (nextFault d) as [[|k] d'] eqn:Hn; apply nextFault_like in Hn;
    pose proof (like_trans _ _ _ Hd Hn) as Hd'; [|one_step].
  assert (writing d0 [] (d' <| temp_file := Some [] |>)) by (split; [exact Hd'|done]). one_step.
Qed.

Lemma nextFault_temp d f d' : nextFault d = (f, d') → temp_file d' = temp_file d.
Proof. unfold nextFault. destruct (faults d); by intros [= <- <-]. Qed.

Lemma io_writeTemp (I : Files → Prop) d0 err data buf :
  (∀ d, like d0 d → I d) → io_hoare I (writing d0 data) (writeTemp err buf) (λ _, writing d0 (data ++ buf)).
Proof.
  intros HI d [Hd Ht]. unfold writeTemp. rewrite Ht. destruct (nextFault d) as [[|k] d'] eqn:Hn; apply nextFault_like in Hn;
    pose proof (like_trans _ _ _ Hd Hn) as Hd'; cbn [io_mid io_disk io_res];
    (split; [apply Forall_fmap, Forall_forall; intros j _; by apply HI|]); (split; [by apply HI|]); [|done].
  intros _ _. split; [exact Hd'|]. simpl. by rewrite firstn_all.
Qed.

Lemma io_writing_syscall (I : Files → Prop) d0 err data :
  (∀ d, like d0 d → I d) → io_hoare I (writing d0 data) (syscall err) (λ _, writing d0 data).
Proof.
  intros HI d [Hd Ht]. unfold syscall. destruct (nextFault d) as [f d'] eqn:Hn. pose proof (nextFault_temp _ _ _ Hn) as Ht'.
  apply nextFault_like in Hn. assert (writing d0 data d') as [? ?] by (split; [by eapply like_trans|congruence]).
  destruct f; simpl; (split; [constructor|split; [by apply HI|done]]).
Qed.

Lemma respects_replace name data : respects (λ d, (replaceFile name data d) <| temp_file := None |>).
Proof. destruct name; respects_fields. Qed.

Lemma io_renameTemp (I : Files → Prop) d0 err name data :
  (∀ d, like d0 d ∨ like (replaceFile name data d0) d → I d) →
  io_hoare I (writing d0 data) (renameTemp err name) (λ _, like (replaceFile name data d0)).
Proof.
  intros HI d [Hd Ht]. unfold renameTemp. rewrite Ht.
  apply (io_syscallSet I d0 err _ (respects_replace name data)); [|done]. by destruct name.
Qed.

(** The deferred removal. *)
Lemma io_deferred {A} (I P : Files → Prop) (m : Io Files A) Q :
  (∀ d d', like d d' → I d → I d') → (∀ a d d', like d d' → Q a d → Q a d') →
  io_hoare I P m Q → io_hoare I P (deferred removeTemp m) Q.
Proof.
  intros HI HQ Hm d Hd. destruct (Hm d Hd) as (H1 & H2 & H3).
  assert (io_mid (removeTemp (io_disk (m d))) = [] ∧ like (io_disk (m d)) (io_disk (removeTemp (io_disk (m d))))) as [Hmid Hl].
  { unfold removeTemp, syscallSet. destruct (nextFault _) as [[|k] d'] eqn:Hn; apply nextFault_like in Hn; done. }
  unfold deferred. cbn [io_mid io_disk io_res]. rewrite Hmid.
  split; [apply Forall_app; split; [done|by constructor]|]. split; [by eapply HI|]. intros a Ha. by eapply HQ; [|apply H3].
Qed.

Lemma io_atomicWrite (I : Files → Prop) d0 name data :
  (∀ d, like d0 d ∨ like (replaceFile name data d0) d → I d) →
  io_hoare I (like d0) (atomicWrite name data) (λ _, like (replaceFile name data d0)).
Proof.
  intros HI. eapply io_hoare_impl; [exact HI|]. unfold atomicWrite.
  eapply io_hoare_bind; [apply io_createTemp; auto|intros ?]. apply io_deferred.
  { intros d d' Hl [?|?]; [left|right]; by eapply like_trans. }
  { intros _ d d' Hl ?. by eapply like_trans. }
  eapply io_hoare_bind; [apply io_writeTemp; auto|intros ?]. cbn [app].
  do 2 (eapply io_hoare_bind; [apply io_writing_syscall; auto|intros ?]).
  eapply io_hoare_bind; [by apply io_renameTemp|intros ?]. apply io_syncDir. auto.
Qed.

Lemma io_wrapIo {A} (I P : Files → Prop) s (m : Io Files A) Q :
  io_hoare I P m Q → io_hoare I P (wrapIo s m) Q.
Proof.
  intros H d Hd. destruct (H d Hd) as (H1 & H2 & H3). unfold wrapIo. simpl. repeat split; [done|done|].
  intros a. destruct (io_res (m d)); [done|]. intros [= <-]. auto.
Qed.

Lemma io_readFile (I : Files → Prop) d0 err file :
  (∀ d d', like d d' → file d' = file d) → (∀ d, like d0 d → I d) →
  io_hoare I (like d0) (readFile err file) (λ o d, o = file d0 ∧ like d0 d).
Proof.
  intros Hfile HI d Hd. unfold readFile. destruct (nextFault d) as [[|k] d'] eqn:Hn; apply nextFault_like in Hn;
    pose proof (like_trans _ _ _ Hd Hn); [|one_step].
  simpl. split; [constructor|]. split; [auto|]. intros o [= <-]. split; [|done]. by apply Hfile.
Qed.

Lemma io_seekWAL (I : Files → Prop) d0 err pos :
  (∀ d, like d0 d ∨ like (d0 <| walHandle := Some pos |>) d → I d) →
  io_hoare I (like d0) (seekWAL err pos) (λ _, like (d0 <| walHandle := Some pos |>)).
Proof.
  intros HI d Hd. unfold seekWAL. destruct (walHandle d).
  - eapply (io_syscallSet I d0 err (λ d, d <| walHandle := Some pos |>)); [|done|done].
    respects_fields.
  - one_step.
Qed.

(** ** Appending to the WAL *)

(** [d] is [d0] with [buf] added to the WAL; the position is not looked at. *)
Definition added (d0 : Files) (buf : list N) (d : Files) : Prop :=
  hardstate_json d = hardstate_json d0 ∧ snapshot_json d = snapshot_json d0 ∧
  readFault d = readFault d0 ∧ wal_log d = wal_log d0 ++ buf.

Definition atEnd (d : Files) : Prop := walHandle d = Some (length (wal_log d)).

Lemma overwrite_end l buf : overwrite l (length l) buf = l ++ buf.
Proof. unfold overwrite. rewrite firstn_all, drop_ge by lia. by rewrite app_nil_r. Qed.

Lemma io_writeWAL d0 pre buf err :
  io_hoare (λ d, ∃ k, added d0 (pre ++ take k buf) d) (λ d, added d0 pre d ∧ atEnd d)
    (writeWAL err buf) (λ _ d, added d0 (pre ++ buf) d ∧ atEnd d).
Proof.
  intros d [(Hh & Hs & Hr & Hw) He]. unfold writeWAL. rewrite He.
  destruct (nextFault d) as [f d'] eqn:Hf. apply nextFault_like in Hf. unfold like, visible in Hf.
  assert (∀ k, added d0 (pre ++ take k buf)
            (d' <| wal_log := overwrite (wal_log d') (length (wal_log d)) (take k buf) |>)) as Hput.
  { intros k. assert (wal_log d' = wal_log d) as -> by congruence.
    rewrite overwrite_end, Hw, <-app_assoc. unfold added. simpl. repeat split; congruence. }
  destruct f as [|k]; cbn [io_mid io_disk io_res]; (split; [apply Forall_fmap, Forall_forall; intros j _; exists j; apply Hput|]).
  - split; [exists (length buf); exact (Hput (length buf))|]. intros _ _. specialize (Hput (length buf)).
    rewrite firstn_all in Hput |- *. split; [exact Hput|]. unfold atEnd. simpl.
    assert (wal_log d' = wal_log d) as -> by congruence. rewrite overwrite_end, length_app. done.
  - split; [by exists k|done].
Qed.

Lemma io_writeRecords d0 pre rs :
  io_hoare (λ d, ∃ k, added d0 (pre ++ take k (frames rs)) d) (λ d, added d0 pre d ∧ atEnd d)
    (writeRecords rs) (λ _ d, added d0 (pre ++ frames rs) d ∧ atEnd d).
Proof.
  revert pre. induction rs as [|r rs IH]; intros pre.
  - apply io_hoare_ret. intros d [? ?]. change (frames []) with (@nil N). rewrite app_nil_r.
    split; [|done]. exists 0%nat. simpl. by rewrite app_nil_r.
  - change (frames (r :: rs)) with (frame (marshalRecord r) ++ frames rs). cbn [writeRecords].
    eapply io_hoare_bind with (R := λ _ d, added d0 (pre ++ frame (marshalRecord r)) d ∧ atEnd d).
    + eapply io_hoare_impl; [|apply io_writeWAL]. intros d [k Hk].
      exists (k `min` length (frame (marshalRecord r)))%nat. rewrite take_app_le by lia.
      by rewrite <-take_take, firstn_all.
    + intros ?. specialize (IH (pre ++ frame (marshalRecord r))). rewrite <-app_assoc in IH.
      eapply io_hoare_impl; [|exact IH]. intros d [k Hk].
      exists (length (frame (marshalRecord r)) + k)%nat. by rewrite take_app_add, app_assoc.
Qed.

(** ** The contracts *)

(** What the WAL calls leave alone. *)
Definition kept (d0 d : Files) : Prop :=
  hardstate_json d = hardstate_json d0 ∧ snapshot_json d = snapshot_json d0 ∧ readFault d = readFault d0.

Lemma like_kept d0 d : like d0 d → kept d0 d.
Proof. unfold like, visible, kept. intros [=]. auto. Qed.

Lemma added_kept d0 buf d : added d0 buf d → kept d0 d.
Proof. intros (? & ? & ? & _). done. Qed.

Lemma io_kept_syscall d0 err : io_hoare (kept d0) (kept d0) (syscall err) (λ _, kept d0).
Proof.
  intros d (? & ? & ?). unfold syscall. destruct (nextFault d) as [f d'] eqn:Hf.
  apply nextFault_like, like_kept in Hf as (? & ? & ?).
  assert (kept d0 d') by (unfold kept; repeat split; congruence). destruct f; one_step.
Qed.

Lemma io_kept_write d0 err buf : io_hoare (kept d0) (kept d0) (writeWAL err buf) (λ _, kept d0).
Proof.
  intros d (? & ? & ?). unfold writeWAL. destruct (walHandle d) as [pos|]; [|one_step].
  destruct (nextFault d) as [f d'] eqn:Hf. apply nextFault_like, like_kept in Hf as (? & ? & ?).
  assert (∀ d2, kept d' d2 → kept d0 d2) as Hput
    by (intros d2 (? & ? & ?); unfold kept; repeat split; congruence).
  destruct f; cbn [io_mid io_disk io_res];
    (split; [apply Forall_fmap, Forall_forall; intros; by apply Hput|]); (split; [by apply Hput|]); [|done].
  intros _ _. by apply Hput.
Qed.

Lemma io_kept_writes d0 rs : io_hoare (kept d0) (kept d0) (writeRecords rs) (λ _, kept d0).
Proof.
  induction rs as [|r rs IH]; [by apply io_hoare_ret|].
  eapply io_hoare_bind; [apply io_kept_write|done].
Qed.

Lemma io_kept_append d0 es : io_hoare (kept d0) (kept d0) (fs_AppendEntries es) (λ _, kept d0).
Proof.
  unfold fs_AppendEntries. destruct es; [by apply io_hoare_ret|].
  eapply io_hoare_bind; [apply io_kept_writes|]. intros ?. apply io_kept_syscall.
Qed.

Lemma io_kept_truncate d0 from : io_hoare (kept d0) (kept d0) (fs_TruncateSuffix from) (λ _, kept d0).
Proof. eapply io_hoare_bind; [apply io_kept_write|]. intros ?. apply io_kept_syscall. Qed.

(** The sync after a batch changes nothing. *)
Lemma io_added_sync (I : Files → Prop) d0 buf :
  (∀ d, added d0 buf d → I d) →
  io_hoare I (λ d, added d0 buf d ∧ atEnd d) syncWAL (λ _ d, added d0 buf d ∧ atEnd d).
Proof.
  intros HI d [Ha He]. unfold syncWAL, syscall. destruct (nextFault d) as [f d'] eqn:Hf.
  apply nextFault_like in Hf. unfold like, visible in Hf. destruct Ha as (? & ? & ? & ?).
  assert (added d0 buf d') by (unfold added; repeat split; congruence).
  assert (atEnd d') by (unfold atEnd in *; congruence). destruct f; one_step.
Qed.

Lemma io_append d0 es :
  io_hoare (λ d, ∃ k, added d0 (take k (frames (appendRecord <$> es))) d) (λ d, added d0 [] d ∧ atEnd d)
    (fs_AppendEntries es) (λ _ d, added d0 (frames (appendRecord <$> es)) d ∧ atEnd d).
Proof.
  unfold fs_AppendEntries. destruct es as [|e es].
  { apply io_hoare_ret. intros d [? ?]. split; [by exists 0%nat|done]. }
  eapply io_hoare_bind; [apply (io_writeRecords d0 [])|].
  intros ?. apply io_added_sync. intros d Hd. eexists. rewrite firstn_all. exact Hd.
Qed.

Lemma io_truncate d0 from :
  io_hoare (λ d, ∃ k, added d0 (take k (frames [truncateRecord from])) d) (λ d, added d0 [] d ∧ atEnd d)
    (fs_TruncateSuffix from) (λ _ d, added d0 (frames [truncateRecord from]) d ∧ atEnd d).
Proof.
  assert (frames [truncateRecord from] = frame (marshalRecord (truncateRecord from))) as ->
    by apply app_nil_r.
  eapply io_hoare_bind; [apply (io_writeWAL d0 [])|].
  intros ?. apply io_added_sync. intros d Hd. eexists. rewrite firstn_all. exact Hd.
Qed.

Lemma io_writeTemps (I : Files → Prop) d0 data es :
  (∀ d, like d0 d → I d) →
  io_hoare I (writing d0 data) (writeTemps es) (λ _, writing d0 (data ++ frames (appendRecord <$> es))).
Proof.
  intros HI. revert data. induction es as [|e es IH]; intros data.
  - apply io_hoare_ret. intros d Hd. change (frames (appendRecord <$> [])) with (@nil N). rewrite app_nil_r.
    split; [by apply HI, Hd|done].
  - change (frames (appendRecord <$> e :: es)) with (frame (marshalRecord (appendRecord e)) ++ frames (appendRecord <$> es)).
    rewrite app_assoc. eapply io_hoare_bind; [by apply io_writeTemp|]. intros ?. apply IH.
Qed.

(** The end of Compact, once the new file is in place. *)
Lemma io_reopen (I : Files → Prop) d0 :
  (∀ h d, like (d0 <| walHandle := h |>) d → I d) →
  io_hoare I (like d0) (wrapIo "storage: syncing dir: " syncDir ;; openWAL ;; pos ← seekEnd "storage: seeking new wal"; setWAL pos)
    (λ _, like (d0 <| walHandle := Some (length (wal_log d0)) |>)).
Proof.
  intros HI. assert (∀ d, like d0 d → I d) as HI0 by (intros d; apply (HI (walHandle d0))).
  eapply io_hoare_bind; [by apply io_wrapIo, io_syncDir|intros ?].
  eapply io_hoare_bind; [eapply io_hoare_weaken; [by apply io_openWAL|intros ? d [_ Hd]; exact Hd]|intros ?].
  eapply io_hoare_bind with (R := λ pos d, like d0 d ∧ pos = length (wal_log d0)).
  - intros d Hd. unfold seekEnd. destruct (nextFault d) as [[|k] d'] eqn:Hn; apply nextFault_like in Hn;
      pose proof (like_trans _ _ _ Hd Hn) as Hd'; [|one_step]. simpl. split; [constructor|]. split; [by apply HI0|].
    intros p [= <-]. split; [done|]. unfold like, visible in Hd'. congruence.
  - intros pos d [Hd ->]. apply (io_setWAL I d0 (length (wal_log d0)) ltac:(apply HI) d Hd).
Qed.

Lemma io_compact (I : Files → Prop) d0 es :
  let l := frames (appendRecord <$> es) in
  (∀ d, like d0 d ∨ (kept d0 d ∧ wal_log d = l) → I d) →
  io_hoare I (like d0) (fs_Compact es) (λ _, like (d0 <| wal_log := l |> <| walHandle := Some (length l) |>)).
Proof.
  intros l HI. eapply io_hoare_impl; [exact HI|]. unfold fs_Compact.
  set (J d := like d0 d ∨ (kept d0 d ∧ wal_log d = l)).
  assert (∀ h d, like (d0 <| wal_log := l |> <| walHandle := h |>) d → J d) as HJ.
  { intros h d Hd. right. split; [by apply like_kept in Hd|]. unfold like, visible in Hd. simpl in Hd. congruence. }
  assert (∀ d, like d0 d → J d) as HJ0 by (intros d Hd; by left).
  eapply io_hoare_bind; [by apply io_createTemp|intros ?]. apply io_deferred.
  { intros d d' Hl [?|[(? & ? & ?) ?]]; [left; by eapply like_trans|right]. unfold like, visible, kept in *. repeat split; congruence. }
  { intros _ d d' Hl ?. by eapply like_trans. }
  eapply io_hoare_bind; [by apply io_writeTemps|intros ?]. cbn [app]. fold l.
  do 2 (eapply io_hoare_bind; [by apply io_writing_syscall|intros ?]).
  eapply io_hoare_bind; [apply io_renameTemp; intros d [?|?]; [by apply HJ0|by apply (HJ (walHandle d0))]|intros ?].
  exact (io_reopen J (d0 <| wal_log := l |>) HJ).
Qed.

(** The end of LoadEntries: the tail is cut and the handle put there. *)
Lemma io_cut (I : Files → Prop) d0 n (es : list LogEntry) :
  (n ≤ length (wal_log d0))%nat →
  (∀ d, kept d0 d ∧ (wal_log d = wal_log d0 ∨ wal_log d = take n (wal_log d0)) → I d) →
  io_hoare I (like d0)
    (syscallSet "storage: truncating torn wal tail" (λ d, d <| wal_log := take n (wal_log d) |>) ;;
     seekWAL "storage: seeking wal end" n ;; io_ret es)
    (λ es' d, es' = es ∧ wal_log d = take n (wal_log d0) ∧ atEnd d).
Proof.
  intros Hn HI.
  assert (∀ h d, like (d0 <| wal_log := take n (wal_log d0) |> <| walHandle := h |>) d →
            kept d0 d ∧ wal_log d = take n (wal_log d0) ∧ walHandle d = h) as Hlike.
  { unfold like, visible, kept. simpl. intros h d [=]. repeat split; congruence. }
  assert (∀ h d, like (d0 <| wal_log := take n (wal_log d0) |> <| walHandle := h |>) d → I d) as HI1.
  { intros h d (? & ? & _)%Hlike. auto. }
  eapply io_hoare_bind.
  { apply io_syscallSet; [respects_fields|]. intros d [Hd|Hd]; [|by apply (HI1 (walHandle d0))].
    apply HI. split; [by apply like_kept|left]. unfold like, visible in Hd. congruence. }
  intros ?. eapply io_hoare_bind.
  { apply io_seekWAL. intros d [Hd|Hd]; [by apply (HI1 (walHandle d0))|by apply (HI1 (Some n))]. }
  intros ?. apply io_hoare_ret. intros d Hd. split; [by apply (HI1 (Some n))|].
  destruct (Hlike (Some n) d Hd) as (_ & Hw & Hh). split; [done|]. split; [done|].
  unfold atEnd. by rewrite Hw, Hh, length_take, Nat.min_l.
Qed.

Lemma io_load (I : Files → Prop) d0 :
  readFault d0 = None →
  (∀ d, kept d0 d ∧ walRecords (wal_log d) = walRecords (wal_log d0) → I d) →
  io_hoare I (like d0) fs_LoadEntries
    (λ es d, replay (walRecords (wal_log d0)) = inr es ∧ atEnd d ∧ whole (wal_log d)).
Proof.
  intros Hread HI. pose proof (walLoop_scan (length (wal_log d0)) (wal_log d0) [] 0 ltac:(done)) as Hloop.
  destruct (wal_cut (wal_log d0)) as [Hcut1 Hcut2]. pose proof (walValid_le (wal_log d0)) as Hle.
  assert (∀ h d, like (d0 <| walHandle := h |>) d → wal_log d = wal_log d0 ∧ kept d0 d) as Hlike.
  { unfold like, visible, kept. simpl. intros h d [=]. auto. }
  assert (∀ h d, like (d0 <| walHandle := h |>) d → I d) as HI0.
  { intros h d [Hw Hk]%Hlike. apply HI. by rewrite Hw. }
  eapply io_hoare_bind.
  { apply io_seekWAL. intros d [?|?]; [by apply (HI0 (walHandle d0))|by eapply HI0]. }
  intros ?. eapply io_hoare_bind with (R := λ r d, like (d0 <| walHandle := Some 0%nat |>) d ∧
    replay (walRecords (wal_log d0)) = inr r.1 ∧ r.2 = walValid (wal_log d0)).
  { intros d Hd. unfold scanWAL. cbn [io_mid io_disk io_res]. split; [constructor|].
    split; [by eapply HI0|]. destruct (Hlike _ _ Hd) as [-> (_ & _ & ->)].
    rewrite Hread, Hloop. fold (replay (walRecords (wal_log d0))). destruct (replay _) as [err|es]; [done|].
    intros r [= <-]. done. }
  intros [es off] d (Hd & Hes & Hoff). simpl in Hoff. subst off.
  match type of Hd with like ?d1 _ => pose proof (io_cut I d1 (walValid (wal_log d0)) es Hle) as Hend end.
  destruct (Hend ltac:(simpl; intros d' [Hk Hw]; apply HI; split; [done|by destruct Hw as [-> | ->]]) d Hd)
    as (H1 & H2 & H3).
  split; [exact H1|]. split; [exact H2|]. intros es' Hres. destruct (H3 es' Hres) as (-> & Hw & He).
  split; [done|]. split; [done|]. unfold whole. simpl in Hw. rewrite Hw, Hcut2, length_take. lia.
Qed.

Lemma io_through {A} (I P : Files → Prop) (m : Io Files A) Q d :
  io_hoare I P m Q → P d → through I (m d) ∧ ∀ a, io_res (m d) = inr a → Q a (io_disk (m d)).
Proof. intros Hm Hd. destruct (Hm d Hd) as (? & ? & ?). done. Qed.

(** The hard state and the snapshot a recovery reads. *)
Definition hardOf (d : Files) : HardState := default zeroHardState (hardstate_json d ≫= unmarshalHardState).
Definition snapshotOf (d : Files) : option Snapshot := snapshot_json d ≫= unmarshalSnapshot.

Lemma kept_hard d0 d : kept d0 d → readFault d0 = None → readFault d = None ∧ hardOf d = hardOf d0.
Proof. intros (Hh & _ & Hr) ?. unfold hardOf. rewrite Hh. split; [congruence|done]. Qed.

Lemma kept_refl d : kept d d.
Proof. done. Qed.

Lemma kept_through {A} d0 (r : IoRes Files A) :
  readFault d0 = None → through (kept d0) r → through (λ d, readFault d = None ∧ hardOf d = hardOf d0) r.
Proof. intros Hd. apply through_impl. intros d ?. by apply kept_hard. Qed.

Lemma kept_snap d0 d : kept d0 d → snapshotOf d = snapshotOf d0.
Proof. intros (_ & Hs & _). unfold snapshotOf. by rewrite Hs. Qed.

Lemma like_refl d : like d d.
Proof. done. Qed.

Lemma io_saveHard (I : Files → Prop) d0 hs :
  (∀ d, like d0 d ∨ like (d0 <| hardstate_json := Some (marshalHardState hs) |>) d → I d) →
  io_hoare I (like d0) (fs_SaveHardState hs)
    (λ _, like (d0 <| hardstate_json := Some (marshalHardState hs) |>)).
Proof. intros HI. by apply io_wrapIo, (io_atomicWrite I d0). Qed.

Lemma io_saveSnapshot (I : Files → Prop) d0 s :
  (∀ d, like d0 d ∨ like (d0 <| snapshot_json := Some (marshalSnapshot s) |>) d → I d) →
  io_hoare I (like d0) (fs_SaveSnapshot s)
    (λ _, like (d0 <| snapshot_json := Some (marshalSnapshot s) |>)).
Proof. intros HI. by apply io_wrapIo, (io_atomicWrite I d0). Qed.

Lemma io_loadHard (I : Files → Prop) d0 :
  (∀ d, like d0 d → I d) →
  io_hoare I (like d0) fs_LoadHardState (λ o d, like d0 d ∧ hardOf d0 = default zeroHardState o).
Proof.
  intros HI. eapply io_hoare_bind.
  { apply (io_readFile I d0); [|done]. unfold like, visible. intros ? ? [=]. done. }
  intros o. unfold hardOf. destruct o as [b|]; [destruct (unmarshalHardState b) as [hs|] eqn:Hb|].
  - apply io_hoare_ret. intros d [Ho Hd]. rewrite <-Ho. simpl. rewrite Hb. auto.
  - apply io_hoare_fail. intros d [_ Hd]. auto.
  - apply io_hoare_ret. intros d [Ho Hd]. rewrite <-Ho. auto.
Qed.

Lemma io_loadSnapshot (I : Files → Prop) d0 :
  (∀ d, like d0 d → I d) →
  io_hoare I (like d0) fs_LoadSnapshot (λ o d, like d0 d ∧ snapshotOf d0 = o).
Proof.
  intros HI. eapply io_hoare_bind.
  { apply (io_readFile I d0); [|done]. unfold like, visible. intros ? ? [=]. done. }
  intros o. unfold snapshotOf. destruct o as [b|]; [destruct (unmarshalSnapshot b) as [s|] eqn:Hb|].
  - apply io_hoare_ret. intros d [Ho Hd]. rewrite <-Ho. simpl. auto.
  - apply io_hoare_fail. intros d [_ Hd]. auto.
  - apply io_hoare_ret. intros d [Ho Hd]. rewrite <-Ho. auto.
Qed.

(** Opening sets the handle and nothing else. *)
Definition opened (d0 d : Files) : Prop := kept d0 d ∧ wal_log d = wal_log d0.

Lemma io_open d0 : io_hoare (opened d0) (like d0) NewFileStore (λ _, opened d0).
Proof.
  assert (∀ d, like d0 d → opened d0 d) as Hl.
  { intros d Hd. split; [by apply like_kept|]. unfold like, visible in Hd. congruence. }
  assert (∀ d, like (d0 <| walHandle := Some 0%nat |>) d → opened d0 d) as Ho.
  { unfold like, visible, opened, kept. simpl. intros d [=]. done. }
  eapply io_hoare_bind; [by apply io_syscall|]. intros ?. eapply io_hoare_bind; [by apply io_openWAL|].
  assert (io_hoare (opened d0) (like d0) (setWAL 0) (λ _, opened d0)) as Hset.
  { eapply io_hoare_weaken; [by apply io_setWAL|]. intros ? d. apply Ho. }
  intros pos d [-> Hd]. by apply Hset.
Qed.

Lemma opened_through d : through (opened d) (NewFileStore d).
Proof. by destruct (io_through _ _ _ _ d (io_open d) (like_refl d)). Qed.

#[export] Program Instance FileStateStore : StateStoreSpec Files := {|
  hard := hardOf;
  ready := λ d, readFault d = None;
  survives := λ d, readFault d = None;
  name_ok := λ v, Valid (toBytes v)
|}.
Next Obligation. done. Qed.
Next Obligation. done. Qed.
Next Obligation.
  intros d Hd. eapply through_impl; [|apply opened_through]. intros d' [Hk _]. by apply kept_hard.
Qed.
Next Obligation.
  intros hs d Ht Hv Hd.
  assert (∀ d', like (d <| hardstate_json := Some (marshalHardState hs) |>) d' →
            readFault d' = None ∧ hardOf d' = hs) as Hnew.
  { unfold like, visible, hardOf. simpl. intros d' [= -> _ _ _ ->]. simpl.
    by rewrite hardstate_roundtrip. }
  destruct (io_through _ _ _ _ d (io_saveHard (λ d', readFault d' = None ∧ (hardOf d' = hardOf d ∨ hardOf d' = hs))
    d hs ltac:(intros d' [Hl%like_kept|Hl%Hnew]; [destruct (kept_hard d d' Hl Hd); auto|destruct Hl; auto]))
    (like_refl d)) as [Hthr Hok].
  split; [exact Hthr|]. intros a Ha. apply Hnew, (Hok a Ha).
Qed.
Next Obligation.
  intros d Hd. destruct (io_through _ _ _ _ d (io_loadHard (kept d) d (like_kept d)) (like_refl d)) as [Hthr Hok].
  split; [by apply kept_through|]. intros o Ho. apply (Hok o Ho).
Qed.
Next Obligation.
  intros es d Hd. destruct (io_through _ _ _ _ d (io_kept_append d es) (kept_refl d)) as [Hthr Hok].
  split; [by apply kept_through|]. intros a Ha. by destruct (kept_hard d _ (Hok a Ha) Hd).
Qed.
Next Obligation.
  intros from d Hd. destruct (io_through _ _ _ _ d (io_kept_truncate d from) (kept_refl d)) as [Hthr Hok].
  split; [by apply kept_through|]. intros a Ha. by destruct (kept_hard d _ (Hok a Ha) Hd).
Qed.
Next Obligation.
  intros es d Hd. destruct (io_through _ _ _ _ d (io_compact (kept d) d es
    ltac:(intros d' [Hk%like_kept|[Hk _]]; done)) (like_refl d)) as [Hthr _].
  split; [by apply kept_through|]. intros _ _. by destruct (kept_hard d _ (proj2 Hthr) Hd).
Qed.
Next Obligation.
  intros s d Hd.
  assert (∀ d', like d d' ∨ like (d <| snapshot_json := Some (marshalSnapshot s) |>) d' →
            readFault d' = None ∧ hardOf d' = hardOf d) as Hall.
  { intros d' [Hl%like_kept|Hl]; [by apply kept_hard|]. revert Hl. unfold like, visible, hardOf. simpl.
    by intros [= -> _ _ _ ->]. }
  destruct (io_through _ _ _ _ d (io_saveSnapshot _ d s Hall) (like_refl d)) as [Hthr _].
  split; [exact Hthr|]. intros _ _. apply (proj2 Hthr).
Qed.
Next Obligation.
  intros d Hd. destruct (io_through (kept d) (like d) fs_LoadEntries _ d
    (io_load (kept d) d Hd (λ d' H, proj1 H)) (like_refl d)) as [Hthr _].
  split; [by apply kept_through|].
  intros _ _. by destruct (kept_hard d _ (proj2 Hthr) Hd).
Qed.
Next Obligation.
  intros d Hd. destruct (io_through (kept d) (like d) fs_LoadSnapshot _ d
    (io_loadSnapshot (kept d) d (like_kept d)) (like_refl d)) as [Hthr _].
  split; [by apply kept_through|].
  intros _. by destruct (kept_hard d _ (proj2 Hthr) Hd).
Qed.

(** The WAL is what its records say, and the handle is at its end. *)
Definition walIntact (d : Files) : Prop := atEnd d ∧ whole (wal_log d).

Lemma like_intact d0 d : like d0 d → walIntact d0 → walIntact d.
Proof.
  unfold like, visible, walIntact, atEnd. intros Hl. assert (wal_log d = wal_log d0) as -> by congruence.
  by assert (walHandle d = walHandle d0) as -> by congruence.
Qed.

Lemma like_wal d0 d : like d0 d → walRecords (wal_log d) = walRecords (wal_log d0) ∧ snapshotOf d = snapshotOf d0.
Proof.
  intros Hl. split; [|by apply kept_snap, like_kept]. unfold like, visible in Hl. f_equal. congruence.
Qed.

(** A batch added to a whole WAL, cut short or not. *)
Lemma added_torn d0 rs k d :
  whole (wal_log d0) → Forall record_fits rs → added d0 (take k (frames rs)) d →
  (∃ j, walRecords (wal_log d) = walRecords (wal_log d0) ++ take j rs) ∧ snapshotOf d = snapshotOf d0.
Proof.
  intros Hw Hrs Ha. split; [|by apply kept_snap; eapply added_kept].
  destruct Ha as (_ & _ & _ & ->). destruct (wal_torn rs k Hrs) as [j Hj]. exists j.
  by rewrite (proj1 (wal_app _ _ Hw)), Hj.
Qed.

Lemma added_whole d0 rs d :
  whole (wal_log d0) → Forall record_fits rs → added d0 (frames rs) d → atEnd d →
  walIntact d ∧ walRecords (wal_log d) = walRecords (wal_log d0) ++ rs.
Proof.
  intros Hw Hrs (_ & _ & _ & Hlog) He. destruct (wal_frames rs Hrs) as [Hr Hwh].
  destruct (wal_app (wal_log d0) (frames rs) Hw) as [H1 H2]. unfold walIntact, whole in *.
  rewrite Hlog in *. rewrite H1, H2, Hr, length_app. split; [|done]. split; [done|lia].
Qed.

Lemma append_records_fit es :
  Forall (λ e, Term e < u64_size ∧ Index e < u64_size ∧ command_fits (Command e) = true) es →
  Forall record_fits (appendRecord <$> es).
Proof.
  intros H. apply Forall_fmap. eapply Forall_impl; [exact H|]. intros e (? & ? & ?). by apply append_fits.
Qed.

Lemma added_start d : atEnd d → added d [] d ∧ atEnd d.
Proof. intros He. split; [|done]. unfold added. by rewrite app_nil_r. Qed.

#[export] Program Instance FileLogStore : LogStoreSpec Files := {|
  records := λ d, walRecords (wal_log d);
  snapOf := snapshotOf;
  intact := walIntact;
  cmd_ok := command_fits
|}.
Next Obligation.
  intros d _. eapply through_impl; [|apply opened_through]. intros d' [Hk Hl]. simpl. rewrite Hl.
  split; [done|by apply kept_snap].
Qed.
Next Obligation.
  intros es d _ [He Hw] Hes%append_records_fit.
  destruct (io_through _ _ _ _ d (io_append d es) (added_start d He)) as [Hthr Hok]. split.
  - eapply through_impl; [|exact Hthr]. intros d' [k Hk].
    destruct (added_torn d _ k d' Hw Hes Hk) as [[j Hj] Hs]. split; [|done]. exists j. by rewrite fmap_take.
  - intros a Ha. destruct (Hok a Ha). by apply added_whole.
Qed.
Next Obligation.
  intros from d _ [He Hw] Hf%truncate_fits.
  destruct (io_through _ _ _ _ d (io_truncate d from) (added_start d He)) as [Hthr Hok]. split.
  - eapply through_impl; [|exact Hthr]. intros d' [k Hk].
    destruct (added_torn d [truncateRecord from] k d' Hw ltac:(by constructor) Hk) as [[j Hj] Hs].
    split; [|done]. destruct j as [|j]; simpl in Hj; [left; by rewrite Hj, app_nil_r|right].
    by rewrite take_nil in Hj.
  - intros a Ha. destruct (Hok a Ha). apply added_whole; [done|by constructor|done|done].
Qed.
Next Obligation.
  intros es d _ Hes%append_records_fit. destruct (wal_frames _ Hes) as [Hr Hwh].
  destruct (io_through _ _ _ _ d (io_compact (λ d', (walRecords (wal_log d') = walRecords (wal_log d) ∨
      walRecords (wal_log d') = appendRecord <$> es) ∧ snapshotOf d' = snapshotOf d) d es
    ltac:(intros d' [Hl|[Hk Hlog]]; [destruct (like_wal d d' Hl); auto|];
          rewrite Hlog; split; [by right|by apply kept_snap])) (like_refl d)) as [Hthr Hok].
  split; [exact Hthr|]. intros a Ha. specialize (Hok a Ha). unfold like, visible in Hok. simpl in Hok.
  set (d' := io_disk (fs_Compact es d)) in *.
  assert (wal_log d' = frames (appendRecord <$> es)) as Hlog by congruence. unfold walIntact, atEnd.
  change (io_disk (Compact es d)) with d'. rewrite Hlog. split; [|done]. split; [congruence|done].
Qed.
Next Obligation.
  intros s d _ Hin Hi Ht.
  assert (∀ d', like (d <| snapshot_json := Some (marshalSnapshot s) |>) d' →
            wal_log d' = wal_log d ∧ walHandle d' = walHandle d ∧ snapshotOf d' = Some s) as Hnew.
  { unfold like, visible, snapshotOf. simpl. intros d' [= _ -> -> -> _]. simpl. by rewrite snapshot_roundtrip. }
  destruct (io_through _ _ _ _ d (io_saveSnapshot (λ d', walRecords (wal_log d') = walRecords (wal_log d) ∧
      (snapshotOf d' = snapshotOf d ∨ snapshotOf d' = Some s)) d s
    ltac:(intros d' [Hl|Hl]; [destruct (like_wal d d' Hl); auto|]; destruct (Hnew d' Hl) as (-> & _ & ?); auto))
    (like_refl d)) as [Hthr Hok].
  split; [exact Hthr|]. intros a Ha. destruct (Hnew _ (Hok a Ha)) as (Hl1 & Hl2 & ?). split; [|done].
  unfold walIntact, atEnd in *. simpl in *. by rewrite Hl1, Hl2.
Qed.
Next Obligation.
  intros hs d _.
  assert (∀ d', like (d <| hardstate_json := Some (marshalHardState hs) |>) d' →
            wal_log d' = wal_log d ∧ walHandle d' = walHandle d ∧ snapshotOf d' = snapshotOf d) as Hnew.
  { unfold like, visible, snapshotOf. simpl. by intros d' [= _ -> -> -> _]. }
  assert (∀ d', like d d' ∨ like (d <| hardstate_json := Some (marshalHardState hs) |>) d' →
            (walRecords (wal_log d') = walRecords (wal_log d) ∧ snapshotOf d' = snapshotOf d) ∧
            (walIntact d → walIntact d')) as Hall.
  { intros d' [Hl|Hl]; [split; [by apply like_wal|by apply like_intact]|].
    destruct (Hnew d' Hl) as (Hl1 & Hl2 & ?). unfold walIntact, atEnd. by rewrite Hl1, Hl2. }
  destruct (io_through _ _ _ _ d (io_saveHard _ d hs Hall) (like_refl d)) as [Hthr _].
  split; [|apply (proj2 Hthr)]. eapply through_impl; [|exact Hthr]. by intros d' [? _].
Qed.
Next Obligation.
  intros d _. by destruct (io_through _ _ _ _ d (io_loadHard _ d (like_wal d)) (like_refl d)).
Qed.
Next Obligation.
  intros d Hd. destruct (io_through (λ d', walRecords (wal_log d') = walRecords (wal_log d) ∧ snapshotOf d' = snapshotOf d)
    (like d) fs_LoadEntries _ d (io_load _ d Hd (λ d' H, conj (proj2 H) (kept_snap _ _ (proj1 H)))) (like_refl d))
    as [Hthr Hok].
  split; [done|]. intros es Hes. by destruct (Hok es Hes).
Qed.
Next Obligation.
  intros d _. destruct (io_through (like d) _ _ _ d (io_loadSnapshot _ d (λ _ H, H)) (like_refl d)) as [Hthr Hok].
  split; [eapply through_impl; [|exact Hthr]; apply like_wal|]. split; [|by apply like_intact, (proj2 Hthr)].
  intros o Ho. by destruct (Hok o Ho).
Qed.

(** ** When every call succeeds *)

(** No system call is going to fail, the WAL is open, and the snapshot on disk can
    be decoded. *)
Definition sound (d : Files) : Prop :=
  faults d = [] ∧ is_Some (walHandle d) ∧ ∀ b, snapshot_json d = Some b → is_Some (unmarshalSnapshot b).

Lemma well_bind {A B} (m : Io Files A) (k : A → Io Files B) :
  goes_well sound m → (∀ a, goes_well sound (k a)) → goes_well sound (m ≫= k).
Proof.
  intros Hm Hk d Hd. destruct (Hm d Hd) as [[a Ha] Hd']. destruct (Hk a _ Hd') as [Hb Hd''].
  unfold mbind, io_mbind, io_bind. rewrite Ha. done.
Qed.

Lemma well_ret {A} (a : A) : goes_well sound (io_ret a).
Proof. intros d Hd. split; [by eexists|done]. Qed.

Lemma well_wrap {A} s (m : Io Files A) : goes_well sound m → goes_well sound (wrapIo s m).
Proof.
  intros Hm d Hd. destruct (Hm d Hd) as [[a Ha] Hd']. unfold wrapIo. simpl. rewrite Ha. split; [by eexists|done].
Qed.

Lemma well_syscall err : goes_well sound (syscall err).
Proof. intros d Hd. unfold syscall, nextFault. destruct (Hd) as (-> & _). split; [by eexists|done]. Qed.

Lemma well_write err buf : goes_well sound (writeWAL err buf).
Proof.
  intros d (Hf & [pos Hp] & Hs). unfold writeWAL, nextFault. rewrite Hp, Hf. split; [by eexists|].
  split; [done|]. split; [by eexists|done].
Qed.

Lemma well_record r : goes_well sound (writeRecord r).
Proof. apply well_write. Qed.

Create HintDb well.
#[local] Hint Resolve well_record : well.
#[local] Hint Resolve well_ret well_wrap well_syscall well_write : well.
#[local] Ltac well := repeat (apply well_bind; [auto with well|intros ?]); auto with well.

Lemma well_writes rs : goes_well sound (writeRecords rs).
Proof. induction rs as [|r rs IH]; simpl; well. Qed.

(** What a call that works returns and leaves; with the temporary file its contents
    matter. *)
Definition works {A} (m : Io Files A) (d : Files) (a : A) (d' : Files) : Prop :=
  io_res (m d) = inr a ∧ io_disk (m d) = d'.

Lemma works_bind {A B} (m : Io Files A) (k : A → Io Files B) d a d' b d'' :
  works m d a d' → works (k a) d' b d'' → works (m ≫= k) d b d''.
Proof. intros [Hr Hd] [Hr' Hd']. unfold works, mbind, io_mbind, io_bind. rewrite Hr, Hd. done. Qed.

Lemma works_deferred {A} (f : Io Files unit) (m : Io Files A) d a d' d'' :
  works m d a d' → works f d' tt d'' → works (deferred f m) d a d''.
Proof. intros [Hr Hd] [_ Hd']. unfold works, deferred. simpl. by rewrite Hd. Qed.

Lemma works_syscall err d : faults d = [] → works (syscall err) d tt d.
Proof. intros Hf. unfold works, syscall, nextFault. by rewrite Hf. Qed.

Lemma works_set err f d : faults d = [] → works (syscallSet err f) d tt (f d).
Proof. intros Hf. unfold works, syscallSet, nextFault. by rewrite Hf. Qed.

Lemma works_writeTemp err buf data d :
  faults d = [] → temp_file d = Some data → works (writeTemp err buf) d tt (d <| temp_file := Some (data ++ buf) |>).
Proof. intros Hf Ht. unfold works, writeTemp, nextFault. rewrite Ht, Hf. simpl. by rewrite firstn_all. Qed.

Lemma works_writeTemps es data d :
  faults d = [] → temp_file d = Some data →
  works (writeTemps es) d tt (d <| temp_file := Some (data ++ frames (appendRecord <$> es)) |>).
Proof.
  revert data d. induction es as [|e es IH]; intros data d Hf Ht.
  { split; [done|]. change (frames (appendRecord <$> [])) with (@nil N). rewrite app_nil_r. simpl. destruct d. by simplify_eq/=. }
  eapply works_bind; [by apply works_writeTemp|].
  change (frames (appendRecord <$> e :: es)) with (frame (marshalRecord (appendRecord e)) ++ frames (appendRecord <$> es)).
  generalize (frame (marshalRecord (appendRecord e))). intros f. rewrite app_assoc.
  set (d1 := d <| temp_file := Some (data ++ f) |>). exact (IH (data ++ f) d1 Hf eq_refl).
Qed.

Lemma works_rename err name data d :
  faults d = [] → temp_file d = Some data → works (renameTemp err name) d tt ((replaceFile name data d) <| temp_file := None |>).
Proof. intros Hf Ht. unfold renameTemp, works. rewrite Ht. exact (works_set err (λ d', (replaceFile name data d') <| temp_file := None |>) d Hf). Qed.

Lemma works_syncDir d : faults d = [] → works syncDir d tt d.
Proof. intros Hf. by eapply works_bind; apply works_syscall. Qed.

Lemma works_wrap {A} s (m : Io Files A) d a d' : works m d a d' → works (wrapIo s m) d a d'.
Proof. intros [Hr Hd]. unfold works, wrapIo. simpl. by rewrite Hr. Qed.

Lemma works_atomicWrite name data d :
  faults d = [] → works (atomicWrite name data) d tt ((replaceFile name data d) <| temp_file := None |>).
Proof.
  intros Hf. eapply works_bind; [by apply works_set|]. eapply works_deferred.
  - eapply works_bind; [by apply (works_writeTemp _ data [])|]. do 2 (eapply works_bind; [by apply works_syscall|]).
    eapply works_bind; [by apply (works_rename _ name data)|]. apply works_syncDir. by destruct name.
  - set (d' := (replaceFile name data _) <| temp_file := None |>).
    assert (faults d' = []) as Hf' by (by destruct name).
    destruct (works_set "removing temp file" (λ d, d <| temp_file := None |>) d' Hf') as [Hr Hd].
    split; [exact Hr|]. unfold removeTemp. rewrite Hd. by destruct name.
Qed.

Lemma works_well {A} (m : Io Files A) :
  (∀ d, sound d → ∃ a d', works m d a d' ∧ sound d') → goes_well sound m.
Proof. intros H d Hd. destruct (H d Hd) as (a & d' & [Hr <-] & Hs). split; [by exists a|done]. Qed.

Lemma well_atomicWrite name data :
  (∀ d, sound d → sound ((replaceFile name data d) <| temp_file := None |>)) → goes_well sound (atomicWrite name data).
Proof. intros Hs. apply works_well. intros d Hd. eexists _, _. split; [by apply works_atomicWrite, Hd|by apply Hs]. Qed.

Lemma well_compact es : goes_well sound (fs_Compact es).
Proof.
  apply works_well. intros d (Hf & Hw & Hs). exists tt.
  set (l := frames (appendRecord <$> es)). exists (d <| wal_log := l |> <| temp_file := None |> <| walHandle := Some (length l) |>).
  split; [|by split; [|split; [by eexists|]]]. eapply works_bind; [by apply works_set|]. eapply works_deferred.
  - eapply works_bind; [by apply (works_writeTemps es [])|]. do 2 (eapply works_bind; [by apply works_syscall|]).
    eapply works_bind; [by apply (works_rename _ walFile l)|]. eapply works_bind; [by apply works_wrap, works_syncDir|].
    eapply works_bind; [by eapply works_bind; [apply works_syscall|]|].
    eapply works_bind; [|done]. unfold works, seekEnd, nextFault. simpl. by rewrite Hf.
  - unfold works, removeTemp, syscallSet, nextFault. simpl. by rewrite Hf.
Qed.
#[local] Hint Resolve well_writes : well.

#[export] Instance FileReliable : Reliable Files sound.
Proof.
  split; simpl.
  - intros hs. apply well_wrap, well_atomicWrite. intros d (? & ? & ?). done.
  - intros [|e es]; unfold fs_AppendEntries, syncWAL; well.
  - intros from. unfold fs_TruncateSuffix, syncWAL. well.
  - apply well_compact.
  - intros s Hi Ht. apply well_wrap, well_atomicWrite. intros d (? & ? & _). split; [done|]. split; [done|].
    simpl. intros b [= <-]. rewrite snapshot_roundtrip by done. by eexists.
  - intros d Hd. unfold fs_LoadSnapshot, readFile, nextFault. destruct Hd as (Hf & Hw & Hs).
    unfold mbind, io_mbind, io_bind. rewrite Hf. simpl. destruct (snapshot_json d) as [b|] eqn:Hb.
    + destruct (Hs b eq_refl) as [s Hsn]. rewrite Hsn. split; [by eexists|]. split; [done|]. split; [done|].
      simpl. rewrite Hb. intros b' [= <-]. by rewrite Hsn.
    + split; [by eexists|]. split; [done|]. split; [done|]. simpl. by rewrite Hb.
Qed.
