(* ===== verification/Recovery.v ===== *)
(** * What a restart finds in the directory (src/storage)

    The contracts of the file store, read as statements about a directory: at
    whatever point a call was interrupted, and whatever system calls failed, the
    next start reads back the old state or the new one.  A start is
    NewFileStore and the load, on a disk that works again.  The two places where
    the log is shorter after a restart than what was acknowledged are exhibited
    at the end. *)

From S2P Require Import Prelude Types Effects Hoare Contracts Log Replay LogContract Bytes Utf8 Json Codec FileStore FileStoreSpec.

(** No further system call fails. *)
Definition calm (d : Files) : Files := d <| faults := [] |> <| readFault := None |>.

(** The log, the hard state and the snapshot a start reads. *)
Definition restartLog (d : Files) : string + list LogEntry :=
  io_res ((NewFileStore ;; fs_LoadEntries) (calm d)).
Definition restartHardState (d : Files) : string + option HardState :=
  io_res ((NewFileStore ;; fs_LoadHardState) (calm d)).
Definition restartSnapshot (d : Files) : string + option Snapshot :=
  io_res ((NewFileStore ;; fs_LoadSnapshot) (calm d)).

(** The states a call goes through, its last one included. *)
Definition during {A} (m : Io Files A) (d d' : Files) : Prop :=
  d' ∈ io_mid (m d) ∨ d' = io_disk (m d).

Lemma during_through {A} (P : Files → Prop) (m : Io Files A) d d' :
  through P (m d) → during m d d' → P d'.
Proof. intros [Hm Hd] [Hin| ->]; [|done]. by eapply Forall_forall in Hm. Qed.

Lemma restartLog_spec d : restartLog d = replay (walRecords (wal_log d)).
Proof.
  assert (restartLog d = match walLoop (length (wal_log d)) None (wal_log d) [] 0 with
                         | inl err => inl err | inr (es, _) => inr es end) as ->.
  { unfold restartLog, calm. destruct d as [h s l tf hd fs rf]. cbv -[walLoop length take].
    by destruct (walLoop (length l) None l [] 0) as [err|[es off]]. }
  rewrite walLoop_scan by done. unfold replay. by destruct (replayFrom [] _).
Qed.

Lemma restartHardState_spec d :
  restartHardState d = match hardstate_json d with
                       | None => inr None
                       | Some b => match unmarshalHardState b with
                                   | None => inl "storage: corrupt hard state"
                                   | Some hs => inr (Some hs)
                                   end
                       end.
Proof.
  unfold restartHardState, calm. destruct d as [[b|] s l tf hd fs rf]; cbv -[unmarshalHardState]; [|done].
  by destruct (unmarshalHardState b).
Qed.

Lemma restartSnapshot_spec d :
  restartSnapshot d = match snapshot_json d with
                      | None => inr None
                      | Some b => match unmarshalSnapshot b with
                                  | None => inl "storage: corrupt snapshot"
                                  | Some s => inr (Some s)
                                  end
                      end.
Proof.
  unfold restartSnapshot, calm. destruct d as [h [b|] l tf hd fs rf]; cbv -[unmarshalSnapshot]; [|done].
  by destruct (unmarshalSnapshot b).
Qed.

(** ** The log *)

(** Replaying a log and a prefix of a batch. *)
Lemma replay_more d i l es k :
  restartLog d = inr l → consecutive i (l ++ es) → i + lenN (l ++ es) < u64_size →
  replay (walRecords (wal_log d) ++ (appendRecord <$> take k es)) = inr (l ++ take k es).
Proof.
  intros Hl Hc Hr. rewrite restartLog_spec in Hl. rewrite replay_app, Hl. rewrite <-(take_drop k es), app_assoc in Hc, Hr.
  apply (replayFrom_appends i); [by apply consecutive_app in Hc as [? _]|rewrite lenN_app in Hr; lia].
Qed.

(** An acknowledged batch is in the file. *)
Lemma appended d i l es :
  walIntact d → restartLog d = inr l → consecutive i (l ++ es) → i + lenN (l ++ es) < u64_size →
  Forall (λ e, Term e < u64_size ∧ Index e < u64_size ∧ command_fits (Command e) = true) es →
  io_res (fs_AppendEntries es d) = inr tt →
  walRecords (wal_log (io_disk (fs_AppendEntries es d))) = walRecords (wal_log d) ++ (appendRecord <$> es) ∧
  ∀ k, replay (walRecords (wal_log d) ++ (appendRecord <$> take k es)) = inr (l ++ take k es).
Proof.
  intros [He Hw] Hl Hc Hr Hes%append_records_fit Hok. split; [|intros k; by apply (replay_more d i)].
  destruct (io_through _ _ _ _ d (io_append d es) (added_start d He)) as [_ Hend]. destruct (Hend tt Hok) as [Ha Ha'].
  by destruct (added_whole d _ _ Hw Hes Ha Ha') as [_ Hrec].
Qed.

(** C16. Crash recovery of appends: when AppendEntries is interrupted anywhere, by a
    crash in the middle of a record or by a failing system call, the next start
    reads the log that was there and a prefix of the new entries, torn tail cut
    off; when it returned without an error, all of them. *)
Theorem append_recovery d d' i l es :
  walIntact d → restartLog d = inr l → consecutive i (l ++ es) → i + lenN (l ++ es) < u64_size →
  Forall (λ e, Term e < u64_size ∧ Index e < u64_size ∧ command_fits (Command e) = true) es →
  during (fs_AppendEntries es) d d' →
  (∃ k, restartLog d' = inr (l ++ take k es)) ∧
  (io_res (fs_AppendEntries es d) = inr tt → restartLog (io_disk (fs_AppendEntries es d)) = inr (l ++ es)).
Proof.
  intros Hin Hl Hc Hr Hes Hd. pose proof Hin as [He Hw]. split.
  - destruct (io_through _ _ _ _ d (io_append d es) (added_start d He)) as [Hthr _].
    destruct (during_through _ _ _ _ Hthr Hd) as [n Hn].
    destruct (added_torn d _ n d' Hw (append_records_fit es Hes) Hn) as [[k Hj] _]. exists k.
    by rewrite restartLog_spec, Hj, <-fmap_take, (replay_more d i l).
  - intros Hok. destruct (appended d i l es Hin Hl Hc Hr Hes Hok) as [Hrec Hk].
    rewrite restartLog_spec, Hrec. specialize (Hk (length es)). by rewrite firstn_all in Hk.
Qed.

(** C17. Compaction is atomic: at whatever point Compact is interrupted, the next
    start reads the old log or the compacted one; after success, the compacted
    one. *)
Theorem compact_recovery d d' i es :
  consecutive i es → i + lenN es < u64_size →
  Forall (λ e, Term e < u64_size ∧ Index e < u64_size ∧ command_fits (Command e) = true) es →
  during (fs_Compact es) d d' →
  (restartLog d' = restartLog d ∨ restartLog d' = inr es) ∧
  (io_res (fs_Compact es d) = inr tt → restartLog (io_disk (fs_Compact es d)) = inr es).
Proof.
  intros Hc Hr Hes%append_records_fit Hd. destruct (wal_frames _ Hes) as [Hrec _].
  pose proof (replay_appends i es Hc Hr) as Hrep.
  destruct (io_through _ _ _ _ d (io_compact (λ d', wal_log d' = wal_log d ∨ wal_log d' = frames (appendRecord <$> es)) d es
    ltac:(intros x [Hl|[_ Hl]]; [left; unfold like, visible in Hl; congruence|by right])) (like_refl d)) as [Hthr Hok].
  rewrite !restartLog_spec. split.
  - destruct (during_through _ _ _ _ Hthr Hd) as [-> | ->]; [by left|right]. by rewrite Hrec.
  - intros Hres. specialize (Hok tt Hres). unfold like, visible in Hok. simpl in Hok.
    replace (wal_log (io_disk (fs_Compact es d))) with (frames (appendRecord <$> es)) by congruence. by rewrite Hrec.
Qed.

(** ** The hard state and the snapshot *)

(** C18. The hard state is replaced atomically: at whatever point SaveHardState is
    interrupted, the next start reads what it would have read before or the
    new state, never a mixture and never a corrupt file; after success, the new
    state. *)
Theorem hardstate_recovery d d' hs :
  HS_CurrentTerm hs < u64_size → utf8 (toBytes (HS_VotedFor hs)) → during (fs_SaveHardState hs) d d' →
  (restartHardState d' = restartHardState d ∨ restartHardState d' = inr (Some hs)) ∧
  (io_res (fs_SaveHardState hs d) = inr tt →
   restartHardState (io_disk (fs_SaveHardState hs d)) = inr (Some hs)).
Proof.
  intros Ht Hv Hd.
  assert (∀ x, like (d <| hardstate_json := Some (marshalHardState hs) |>) x → restartHardState x = inr (Some hs)) as Hnew.
  { intros x Hx. rewrite restartHardState_spec. unfold like, visible in Hx. simpl in Hx.
    replace (hardstate_json x) with (Some (marshalHardState hs)) by congruence. by rewrite hardstate_roundtrip by (done || by apply Valid_utf8). }
  destruct (io_through _ _ _ _ d (io_saveHard (λ x, restartHardState x = restartHardState d ∨ restartHardState x = inr (Some hs)) d hs
    ltac:(intros x [Hx|Hx]; [left|right; by apply Hnew]; rewrite !restartHardState_spec;
          unfold like, visible in Hx; by replace (hardstate_json x) with (hardstate_json d) by congruence))
    (like_refl d)) as [Hthr Hok].
  split; [by apply (during_through _ _ _ _ Hthr Hd)|]. intros Hres. by apply Hnew, (Hok tt).
Qed.

(** C19. The snapshot is replaced atomically: at whatever point SaveSnapshot is
    interrupted, the next start reads what it would have read before or the new
    snapshot; after success, the new snapshot. *)
Theorem snapshot_recovery d d' s :
  LastIncludedIndex s < u64_size → LastIncludedTerm s < u64_size → during (fs_SaveSnapshot s) d d' →
  (restartSnapshot d' = restartSnapshot d ∨ restartSnapshot d' = inr (Some s)) ∧
  (io_res (fs_SaveSnapshot s d) = inr tt →
   restartSnapshot (io_disk (fs_SaveSnapshot s d)) = inr (Some s)).
Proof.
  intros Hi Ht Hd.
  assert (∀ x, like (d <| snapshot_json := Some (marshalSnapshot s) |>) x → restartSnapshot x = inr (Some s)) as Hnew.
  { intros x Hx. rewrite restartSnapshot_spec. unfold like, visible in Hx. simpl in Hx.
    replace (snapshot_json x) with (Some (marshalSnapshot s)) by congruence. by rewrite snapshot_roundtrip. }
  destruct (io_through _ _ _ _ d (io_saveSnapshot (λ x, restartSnapshot x = restartSnapshot d ∨ restartSnapshot x = inr (Some s)) d s
    ltac:(intros x [Hx|Hx]; [left|right; by apply Hnew]; rewrite !restartSnapshot_spec;
          unfold like, visible in Hx; by replace (snapshot_json x) with (snapshot_json d) by congruence))
    (like_refl d)) as [Hthr Hok].
  split; [by apply (during_through _ _ _ _ Hthr Hd)|]. intros Hres. by apply Hnew, (Hok tt).
Qed.

(** ** Runs *)

(** An opened, empty directory, on which the calls in [plan] fail. *)
Definition freshDir (plan : list Fault) : Files := mkFiles None None [] None (Some 0%nat) plan None.

Definition entryA : LogEntry := mkEntry 1 1 "a".
Definition entryB : LogEntry := mkEntry 1 2 "b".
Definition entryC : LogEntry := mkEntry 1 3 "c".
Definition rowA : Files := io_disk (fs_AppendEntries [entryA] (freshDir [])).

(** The second record is cut after five bytes. *)
Lemma append_recovery_witness :
  io_res (fs_AppendEntries [entryA; entryB] (freshDir [Works; Fails 5])) = inl "storage: writing wal record" ∧
  ∃ k, restartLog (io_disk (fs_AppendEntries [entryA; entryB] (freshDir [Works; Fails 5]))) =
       inr ([] ++ take k [entryA; entryB]).
Proof.
  split; [by vm_compute|].
  apply (append_recovery (freshDir [Works; Fails 5]) (io_disk (fs_AppendEntries [entryA; entryB] (freshDir [Works; Fails 5])))
    1 [] [entryA; entryB]); [by split|by vm_compute|done|by vm_compute| |by right].
  repeat constructor; by vm_compute.
Defined.

(** The rename of the compacted file has happened, the sync of the directory
    fails. *)
Lemma compact_recovery_witness :
  let m := fs_Compact [entryB] in
  let d := rowA <| faults := replicate 6 Works ++ [Fails 0] |> in
  io_res (m d) = inl "storage: syncing dir: syncing dir" ∧
  (restartLog (io_disk (m d)) = restartLog d ∨ restartLog (io_disk (m d)) = inr [entryB]).
Proof.
  intros m d. split; [by vm_compute|].
  apply (compact_recovery d (io_disk (m d)) 2 [entryB]); [done|by vm_compute| |by right].
  repeat constructor; by vm_compute.
Defined.

Definition votedA : HardState := mkHardState 3 "a".

(** The rename fails. *)
Lemma hardstate_recovery_witness :
  let m := fs_SaveHardState votedA in
  let d := freshDir (replicate 4 Works ++ [Fails 0]) in
  restartHardState (io_disk (m d)) = restartHardState d ∨ restartHardState (io_disk (m d)) = inr (Some votedA).
Proof.
  intros m d. apply (hardstate_recovery d (io_disk (m d)) votedA); [by vm_compute| |by right].
  apply Valid_utf8. by vm_compute.
Defined.

Lemma snapshot_recovery_witness :
  let s := mkSnapshot 7 2 (Some "state") in
  io_res (fs_SaveSnapshot s (freshDir [])) = inr tt ∧
  restartSnapshot (io_disk (fs_SaveSnapshot s (freshDir []))) = inr (Some s).
Proof.
  intros s. split; [by vm_compute|].
  apply (snapshot_recovery (freshDir []) (io_disk (fs_SaveSnapshot s (freshDir []))) s); [by vm_compute|by vm_compute|by right|by vm_compute].
Defined.

(** ** Where the log gets shorter *)

(** A start on a directory where everything works but the [k]-th read of the WAL. *)
Definition badStart (k : nat) (d : Files) : IoRes Files (list LogEntry) :=
  (NewFileStore ;; fs_LoadEntries) ((calm d) <| readFault := Some k |>).

Lemma load_works d es off :
  faults d = [] → is_Some (walHandle d) → walLoop (length (wal_log d)) (readFault d) (wal_log d) [] 0 = inr (es, off) →
  works fs_LoadEntries d es (d <| wal_log := take off (wal_log d) |> <| walHandle := Some off |>).
Proof.
  intros Hf [p Hp] Hloop. destruct d as [hs s l tf hd fs rf]. simpl in *. subst fs hd.
  eapply works_bind; [done|]. eapply works_bind; [by split; [exact Hloop|]|]. done.
Qed.

Lemma badStart_spec d j h l :
  (h < 2)%nat → replay (take j (walRecords (wal_log d))) = inr l →
  io_res (badStart (2 * j + h) d) = inr l ∧ restartLog (io_disk (badStart (2 * j + h) d)) = inr l.
Proof.
  intros Hh Hl. pose proof (walLoop_fault (length (wal_log d)) j h (wal_log d) [] 0 ltac:(done) Hh) as Hloop.
  unfold replay in Hl. rewrite Hl in Hloop. set (k := (2 * j + h)%nat) in *. set (d1 := (calm d) <| readFault := Some k |>).
  assert (works NewFileStore d1 tt (d1 <| walHandle := Some 0%nat |>)) as Hopen.
  { by eapply works_bind; [apply works_syscall|]. }
  pose proof (load_works (d1 <| walHandle := Some 0%nat |>) l (0 + walPrefix j (wal_log d)) eq_refl ltac:(by eexists) Hloop) as Hload.
  destruct (works_bind NewFileStore (λ _, fs_LoadEntries) _ _ _ _ _ Hopen Hload) as [Hres Hdisk]. unfold badStart. split; [exact Hres|].
  rewrite restartLog_spec. fold d1. rewrite Hdisk. simpl. by rewrite walPrefix_records.
Qed.

(** C37. A read error is taken for the end of the log: let [es] be a batch of entries
    that AppendEntries has acknowledged, so that a start reads them behind what
    was there.  When instead, during that start, one of the two reads of the
    record of the [j]-th of them fails, the start reports success with the
    log up to that entry, and it and the entries behind it are gone from the
    file for every later start. *)
Theorem read_error_truncates d i l es j h :
  walIntact d → restartLog d = inr l → consecutive i (l ++ es) → i + lenN (l ++ es) < u64_size →
  Forall (λ e, Term e < u64_size ∧ Index e < u64_size ∧ command_fits (Command e) = true) es →
  io_res (fs_AppendEntries es d) = inr tt → (h < 2)%nat →
  let d' := io_disk (fs_AppendEntries es d) in
  let r := badStart (2 * (length (walRecords (wal_log d)) + j) + h) d' in
  restartLog d' = inr (l ++ es) ∧ io_res r = inr (l ++ take j es) ∧ restartLog (io_disk r) = inr (l ++ take j es).
Proof.
  intros Hin Hl Hc Hr Hes Hok Hh d' r. destruct (appended d i l es Hin Hl Hc Hr Hes Hok) as [Hrec Hrep]. fold d' in Hrec.
  split; [rewrite restartLog_spec, Hrec; specialize (Hrep (length es)); by rewrite firstn_all in Hrep|].
  apply badStart_spec; [done|]. by rewrite Hrec, take_app_add, <-fmap_take, Hrep.
Qed.

(** Two entries are written behind the first; the payload of the second of them
    cannot be read. *)
Lemma read_error_truncates_witness :
  let es := [entryB; entryC] in
  let d' := io_disk (fs_AppendEntries es rowA) in
  io_res (badStart 5 d') = inr [entryA; entryB] ∧ restartLog (io_disk (badStart 5 d')) = inr [entryA; entryB].
Proof.
  intros es d'. destruct (read_error_truncates rowA 1 [entryA] es 1 1) as [_ H];
    [by vm_compute|by vm_compute|done|by vm_compute|repeat constructor; by vm_compute|by vm_compute|lia|exact H].
Defined.









