(* ===== verification/Kv.v ===== *)
(** * The key-value state machine (src/kv/kv.go, store.go)

    Commands and their JSON encoding, the store, and the store as the consumer of
    committed entries: Server.Apply, Snapshot and Restore of src/kv/server.go as
    far as they concern the store (waking up clients is the subject of file
    KvServer).  The theorems are the round trips of commands and snapshots, and
    that the store keeps the contract [StateMachineSpec] the raft core relies
    on. *)

From S2P Require Import Prelude Types Effects Contracts Bytes Utf8 Json Codec.

(** ** Commands *)

Definition OpPut : string := "put".
Definition OpDelete : string := "delete".

Record KvCommand := mkCommand { Op : string; Key : string; Value : string }.

Definition knownOp (op : string) : bool := String.eqb op OpPut || String.eqb op OpDelete.

Definition commandMembers (c : KvCommand) : list (list N * JValue) :=
  [(toBytes "op", JStr (toBytes (Op c))); (toBytes "key", JStr (toBytes (Key c)))] ++
  if bool_decide (Value c = "") then [] else [(toBytes "value", JStr (toBytes (Value c)))].

Definition Encode (c : KvCommand) : string + bytes :=
  if negb (knownOp (Op c)) then inl "kv: unknown op"
  else inr (ofBytes (printObject (commandMembers c))).

Definition setCommand (c : KvCommand) (m : list N * JValue) : option KvCommand :=
  if isField "op" m.1 then v ← asString (Op c) m.2; Some (mkCommand v (Key c) (Value c))
  else if isField "key" m.1 then v ← asString (Key c) m.2; Some (mkCommand (Op c) v (Value c))
  else if isField "value" m.1 then v ← asString (Value c) m.2; Some (mkCommand (Op c) (Key c) v)
  else Some c.

Definition DecodeCommand (data : bytes) : string + KvCommand :=
  match decodeStruct setCommand (mkCommand "" "" "") (toBytes data) with
  | None => inl "kv: corrupt command"
  | Some c => if negb (knownOp (Op c)) then inl "kv: unknown op" else inr c
  end.

(** ** The store *)

(** The map; [None] is Go's nil map, which reads as empty and panics on
    assignment. *)
Definition Store : Type := option (gmap string string).

Definition NewStore : Store := Some ∅.

(** [None] is a panic. *)
Definition store_apply (cmd : KvCommand) (s : Store) : option (string + Store) :=
  if String.eqb (Op cmd) OpPut then
    match s with
    | None => None
    | Some m => Some (inr (Some (<[Key cmd := Value cmd]> m)))
    end
  else if String.eqb (Op cmd) OpDelete then Some (inr (delete (Key cmd) <$> s))
  else Some (inl "kv: unapplicable op").

Definition store_Get (key : string) (s : Store) : string * bool :=
  match default ∅ s !! key with
  | Some v => (v, true)
  | None => ("", false)
  end.

Definition store_Len (s : Store) : N := N.of_nat (size (default ∅ s)).

(** A copy of the map, made member by member. *)
Definition store_Snapshot (s : Store) : gmap string string :=
  foldl (λ out p, <[p.1 := p.2]> out) ∅ (map_to_list (default ∅ s)).

(** json.Marshal of a map: the members sorted by key. *)
Definition keyLe (p q : string * string) : Prop := String.leb p.1 q.1 = true.

#[export] Instance keyLe_dec : RelDecision keyLe.
Proof. intros p q. unfold keyLe. apply _. Defined.

Definition sortedMembers (m : gmap string string) : list (string * string) :=
  merge_sort keyLe (map_to_list m).

Definition stringMember (p : string * string) : list N * JValue := (toBytes p.1, JStr (toBytes p.2)).

Definition SnapshotBytes (s : Store) : list N :=
  match s with
  | None => printScalar JNull
  | Some m => printObject (stringMember <$> sortedMembers m)
  end.

(** json.Unmarshal into a map[string]string: [null] makes it nil, a member that
    is not a string is an error. *)
Definition decodeMap (data : list N) : option Store :=
  match parse data with
  | Some JNull => Some None
  | Some (JObj ms) =>
    Some <$> foldl (λ acc m, acc' ← acc; v ← asString "" m.2; Some (<[ofBytes m.1 := v]> acc'))
               (Some (∅ : gmap string string)) ms
  | _ => None
  end.

Definition RestoreBytes (data : list N) (s : Store) : string + Store :=
  match decodeMap data with
  | None => inl "kv: corrupt snapshot"
  | Some s' => inr s'
  end.

(** ** The store as a state machine *)

Definition applyEntry (e : LogEntry) (s : Store) : option Store :=
  match DecodeCommand (Command e) with
  | inl _ => Some s
  | inr cmd =>
    match store_apply cmd s with
    | None => None
    | Some (inl _) => Some s
    | Some (inr s') => Some s'
    end
  end.

#[export] Instance KvMachine : StateMachine Store := {|
  Apply := applyEntry;
  SMSnapshot := λ s, inr (Some (ofBytes (SnapshotBytes s)));
  Restore := λ data s, RestoreBytes (toBytes (default "" data)) s
|}.

(** ** Commands round trip *)

Definition text (s : string) : Prop := utf8 (toBytes s).

Lemma text_of l : utf8 l → text (ofBytes l).
Proof. intros Hl. unfold text. by rewrite toBytes_ofBytes by (by apply utf8_bytes). Qed.

Lemma asString_text prev v s : jtext v → text prev → asString prev v = Some s → text s.
Proof. intros Hv Hp. destruct Hv; simpl; try done; intros [= <-]; [done|]. by apply text_of. Qed.

Lemma str_member_bytes name s : text s → member_bytes (toBytes name, JStr (toBytes s)).
Proof. intros Hs. split; [apply toBytes_ok|]. simpl. apply toBytes_ok. Qed.

Lemma command_members_ok c :
  knownOp (Op c) = true → text (Key c) → text (Value c) →
  Forall member_ok (commandMembers c) ∧ Forall member_bytes (commandMembers c).
Proof.
  intros Hop Hk Hv. assert (text (Op c)) as Ho.
  { apply orb_true_iff in Hop as [->%String.eqb_eq| ->%String.eqb_eq]; by apply name_utf8. }
  unfold commandMembers. case_bool_decide; cbn [app]; split;
    repeat first [apply Forall_cons; split|apply Forall_nil]; done || by apply str_ok || by apply str_member_bytes.
Qed.

Lemma command_roundtrip c :
  knownOp (Op c) = true → text (Key c) → text (Value c) →
  ∃ data, Encode c = inr data ∧ DecodeCommand data = inr c.
Proof.
  intros Hop Hk Hv. destruct (command_members_ok c Hop Hk Hv) as [Hok Hb].
  unfold Encode. rewrite Hop. simpl negb. cbv iota. eexists. split; [done|].
  unfold DecodeCommand. rewrite toBytes_ofBytes by (by apply printObject_bytes).
  rewrite decodeStruct_print by done. destruct c as [op k v]. simpl in Hop. unfold commandMembers.
  cbn [Op Key Value]. unfold setCommand. case_bool_decide; subst; decode_fields; cbn [Op Key Value];
    by rewrite Hop.
Qed.

Lemma fold_none {A B} (f : A → B → option A) l : foldl (λ acc b, a ← acc; f a b) None l = None.
Proof. by induction l. Qed.

(** What DecodeCommand accepts is a known operation on valid text. *)
Lemma decode_valid data c :
  DecodeCommand data = inr c → knownOp (Op c) = true ∧ text (Key c) ∧ text (Value c).
Proof.
  unfold DecodeCommand, decodeStruct. destruct (parse (toBytes data)) as [[| | | | |ms]|] eqn:Hp; try done.
  apply parse_text in Hp. inversion Hp as [| | | | |? Hms]; subst. clear Hp. intros H.
  assert (∀ c0, text (Key c0) → text (Value c0) →
    match foldl (λ acc m, st ← acc; setCommand st m) (Some c0) ms with
    | Some c' => text (Key c') ∧ text (Value c') | None => True end) as Hfold.
  { clear H. induction Hms as [|[k v] ms [_ Hs] _ IH]; intros c0 Hk Hv; [done|]. simpl in Hs |- *.
    pose proof (λ prev s, asString_text prev v s Hs) as Hstr.
    unfold setCommand at 2. cbn [fst snd].
    destruct (isField "op" k); [|destruct (isField "key" k); [|destruct (isField "value" k); [|by apply IH]]];
      (destruct (asString _ v) as [s|] eqn:Ha; cbn [mbind option_bind];
       [apply IH; simpl; eauto|by rewrite fold_none]). }
  specialize (Hfold (mkCommand "" "" "") ltac:(constructor) ltac:(constructor)).
  destruct (foldl _ _ _) as [c'|]; [|done]. destruct (knownOp (Op c')) eqn:Hop; [|done].
  simpl in H. by injection H as <-.
Qed.

(** ** Snapshots round trip *)

Definition map_text (m : gmap string string) : Prop := map_Forall (λ k v, text k ∧ text v) m.

Lemma sortedMembers_perm m : sortedMembers m ≡ₚ map_to_list m.
Proof. apply merge_sort_Permutation. Qed.

(** Decoding printed members rebuilds the map. *)
Lemma decode_members ps m0 :
  foldl (λ acc m, acc' ← acc; v ← asString "" m.2; Some (<[ofBytes m.1 := v]> acc'))
    (Some (m0 : gmap string string)) (stringMember <$> ps) = Some (foldl (λ acc p, <[p.1 := p.2]> acc) m0 ps).
Proof.
  revert m0. induction ps as [|[k v] ps IH]; intros m0; [done|]. simpl. rewrite !ofBytes_toBytes. apply IH.
Qed.

Lemma foldl_insert ps (m0 : gmap string string) :
  NoDup ps.*1 → foldl (λ acc p, <[p.1 := p.2]> acc) m0 ps = list_to_map ps ∪ m0.
Proof.
  revert m0. induction ps as [|[k v] ps IH]; intros m0; simpl; [by rewrite (left_id_L ∅ (∪))|].
  intros [Hk Hnd]%NoDup_cons. rewrite IH by done. rewrite <-insert_union_r, insert_union_l; [done|].
  by apply not_elem_of_list_to_map_1.
Qed.

Lemma snapshot_restore m s : map_text m → RestoreBytes (SnapshotBytes (Some m)) s = inr (Some m).
Proof.
  intros Hm. unfold RestoreBytes, SnapshotBytes, decodeMap.
  assert (NoDup (sortedMembers m).*1) as Hnd.
  { rewrite sortedMembers_perm. apply NoDup_fst_map_to_list. }
  rewrite parse_printObject.
  - rewrite decode_members, foldl_insert by done. simpl. f_equal. f_equal.
    rewrite (right_id_L ∅ (∪)). rewrite (list_to_map_proper _ (map_to_list m) Hnd (sortedMembers_perm m)).
    apply list_to_map_to_list.
  - apply Forall_fmap, Forall_forall. intros [k v] Hin. rewrite sortedMembers_perm in Hin.
    apply elem_of_map_to_list in Hin. by apply (Hm k v).
Qed.

Lemma snapshot_bytes m : map_text m → Forall byte_ok (SnapshotBytes (Some m)).
Proof.
  intros Hm. apply printObject_bytes; apply Forall_fmap, Forall_forall; intros [k v] Hin;
    rewrite sortedMembers_perm in Hin; apply elem_of_map_to_list in Hin.
  - by apply (Hm k v).
  - by split; apply toBytes_ok.
Qed.

(** ** The contract of the raft core *)

(** The store never leaves the states Snapshot and Restore round-trip on. *)
Definition store_ok (s : Store) : Prop := ∃ m, s = Some m ∧ map_text m.

Lemma applyEntry_ok e s : store_ok s → ∃ s', applyEntry e s = Some s' ∧ store_ok s'.
Proof.
  intros (m & -> & Hm). unfold applyEntry. destruct (DecodeCommand (Command e)) as [|c] eqn:Hd.
  { exists (Some m). split; [done|by exists m]. }
  destruct (decode_valid _ _ Hd) as (_ & Hk & Hv). unfold store_apply.
  destruct (String.eqb (Op c) OpPut); [|destruct (String.eqb (Op c) OpDelete)].
  - eexists. split; [done|]. eexists. split; [done|]. by apply map_Forall_insert_2.
  - eexists. split; [done|]. eexists. split; [done|]. by apply map_Forall_delete.
  - eexists. split; [done|by exists m].
Qed.

Lemma Apply_entry e (s : Store) : Apply e s = applyEntry e s.
Proof. done. Qed.

Lemma applyAll_ok es : store_ok (applyAll NewStore es).
Proof.
  induction es as [|e es IH] using rev_ind.
  - exists ∅. split; [done|]. by intros k v ?%lookup_empty_Some.
  - unfold applyAll in *. rewrite foldl_app. cbn [foldl].
    destruct (applyEntry_ok e _ IH) as (s' & Hs & ?). by rewrite Apply_entry, Hs.
Qed.

#[export] Program Instance KvSpec : StateMachineSpec Store := {| genesis := NewStore |}.
Next Obligation.
  intros es e. destruct (applyEntry_ok e _ (applyAll_ok es)) as (s' & Hs & _). by exists s'.
Qed.
Next Obligation.
  intros es data [= <-]. split; [by eexists|]. intros s. destruct (applyAll_ok es) as (m & -> & Hm).
  change (RestoreBytes (toBytes (ofBytes (SnapshotBytes (Some m)))) s = inr (Some m)).
  rewrite toBytes_ofBytes by (by apply snapshot_bytes).
  by apply snapshot_restore.
Qed.

(** ** The store as a log of writes *)

(** What the last entry about [key] wrote: the reference for a lookup. *)
Definition writeOf (key : string) (e : LogEntry) : option (option string) :=
  match DecodeCommand (Command e) with
  | inl _ => None
  | inr c => if negb (String.eqb (Key c) key) then None
             else Some (if String.eqb (Op c) OpPut then Some (Value c) else None)
  end.

Fixpoint lastWrite (key : string) (rl : list LogEntry) : option string :=
  match rl with
  | [] => None
  | e :: rl' => match writeOf key e with Some w => w | None => lastWrite key rl' end
  end.

Lemma applyEntry_lookup e m key :
  ∃ m', applyEntry e (Some m) = Some (Some m') ∧
        m' !! key = match writeOf key e with Some w => w | None => m !! key end.
Proof.
  unfold applyEntry, writeOf. destruct (DecodeCommand (Command e)) as [|c] eqn:Hd; [by exists m|].
  destruct (decode_valid _ _ Hd) as (Hop & _). unfold knownOp, store_apply in *.
  destruct (String.eqb_spec (Key c) key) as [<-|Hne]; simpl;
    (destruct (String.eqb (Op c) OpPut); [|destruct (String.eqb (Op c) OpDelete); [|done]]);
    eexists; (split; [done|]); by simplify_map_eq.
Qed.

(** Entries that do not write [key] leave its last write alone. *)
Lemma lastWrite_skip key es rl :
  (∀ e, e ∈ es → writeOf key e = None) → lastWrite key (es ++ rl) = lastWrite key rl.
Proof.
  induction es as [|e es IH]; intros H; [done|]. simpl. rewrite (H e) by (by left).
  apply IH. intros e' ?. apply H. by right.
Qed.

Lemma store_content es key :
  ∃ m, applyAll NewStore es = Some m ∧ m !! key = lastWrite key (reverse es).
Proof.
  induction es as [|e es (m & Hm & Hl)] using rev_ind; [by exists ∅|].
  destruct (applyEntry_lookup e m key) as (m' & Ha & Hl'). exists m'. split.
  - unfold applyAll in *. rewrite foldl_app. cbn [foldl]. by rewrite Hm, Apply_entry, Ha.
  - rewrite reverse_snoc. cbn [lastWrite]. by rewrite Hl', Hl.
Qed.

Lemma store_lookup es key :
  store_Get key (applyAll NewStore es) =
  match lastWrite key (reverse es) with Some v => (v, true) | None => ("", false) end.
Proof. destruct (store_content es key) as (m & -> & Hm). unfold store_Get. simpl. by rewrite Hm. Qed.

Lemma copy_members (l : list (string * string)) (out : gmap string string) :
  NoDup l.*1 → foldl (λ out p, <[p.1 := p.2]> out) out l = list_to_map l ∪ out.
Proof.
  revert out. induction l as [|p l IH]; intros out Hnd; simpl; [by rewrite map_empty_union|].
  apply NoDup_cons in Hnd as [Hp Hnd]. rewrite IH by done.
  rewrite <-insert_union_l, insert_union_r; [done|]. by apply not_elem_of_list_to_map_1.
Qed.

Lemma store_Snapshot_copies s : store_Snapshot s = default ∅ s.
Proof.
  unfold store_Snapshot. rewrite copy_members by apply NoDup_fst_map_to_list.
  by rewrite map_union_empty, list_to_map_to_list.
Qed.

(** C27. The store is the log of its writes: after any entries, decodable or not,
    Get answers with the last Put of the key unless a Delete followed it, the
    copy Snapshot makes has exactly those values, and Len counts them. *)
Theorem store_reference es key :
  let s := applyAll NewStore es in
  store_Get key s = match lastWrite key (reverse es) with Some v => (v, true) | None => ("", false) end ∧
  store_Snapshot s !! key = lastWrite key (reverse es) ∧
  store_Len s = N.of_nat (size (store_Snapshot s)).
Proof.
  simpl. split; [apply store_lookup|]. rewrite store_Snapshot_copies.
  by destruct (store_content es key) as (m & -> & Hm).
Qed.

(** C28. Snapshot round trip: the snapshot of a store that applied any entries
    exists, and restoring it over any other store gives that store back. *)
Theorem store_snapshot_roundtrip es (s : Store) :
  ∃ data, SMSnapshot (applyAll NewStore es) = inr (Some data) ∧
          Restore (Some data) s = inr (applyAll NewStore es).
Proof.
  eexists. split; [reflexivity|].
  exact (proj2 (Snapshot_Restore (StateMachineSpec := KvSpec) es _ eq_refl) s).
Qed.

(** C29. Command round trip: a known operation on text encodes, and what is decoded
    from it is the command. *)
Theorem kv_command_roundtrip c :
  knownOp (Op c) = true → text (Key c) → text (Value c) →
  ∃ data, Encode c = inr data ∧ DecodeCommand data = inr c.
Proof. apply command_roundtrip. Qed.

Lemma kv_command_roundtrip_witness :
  ∃ data, Encode (mkCommand OpDelete "k" "") = inr data ∧ DecodeCommand data = inr (mkCommand OpDelete "k" "").
Proof.
  apply (kv_command_roundtrip (mkCommand OpDelete "k" "")); [by vm_compute| |];
    apply Valid_utf8; by vm_compute.
Defined.
