(* ===== verification/KvServer.v ===== *)
(** * The client-facing server (src/kv/server.go)

    Requests as the goroutines of propose: a request proposes its command to the
    node, registers a waiter for the index it was given, and waits for the
    applier to wake it up or for its context to end.  The waiter table, the
    one-slot channels and the order in which the critical sections run are
    explicit; the answers of the node (Propose, Status) are inputs. *)

From S2P Require Import Prelude Types Node Kv.

(** ** State *)

Record waiter := mkWaiter { w_term : N; w_req : nat }.

(** What a channel carries: [None] is Go's nil error. *)
Definition Outcome : Type := option string.

(** The program counter of propose: the node has answered; the request is in the
    select; it has returned, with the index and term it was given, if any. *)
Inductive Request :=
  | Proposed (cmd : KvCommand) (index term : N)
  | Waiting (cmd : KvCommand) (index term : N)
  | Answered (cmd : KvCommand) (given : option (N * N)) (res : Outcome).

(** [channels] are the buffers of the channels, by request; [applied] records the
    entries Apply was called with. *)
Record Server := mkServer {
  waiters : gmap N waiter;
  requests : gmap nat Request;
  channels : gmap nat (option Outcome);
  applied : list LogEntry
}.

#[export] Instance eta_Server : Eta Server := fun r =>
  {| waiters := waiters r; requests := requests r; channels := channels r; applied := applied r |}.

Definition NewServer : Server := mkServer ∅ ∅ ∅ [].

(** [ch <- res]; [None] when the buffer is full, so that the sender blocks. *)
Definition send (r : nat) (res : Outcome) (s : Server) : option Server :=
  match channels s !! r with
  | Some None => Some (s <| channels := <[r := Some res]> (channels s) |>)
  | _ => None
  end.

(** ** Critical sections *)

(** propose up to and including node.Propose, whose answer is [res]. *)
Definition submit (r : nat) (cmd : KvCommand) (res : string + (N * N)) (s : Server) : Server :=
  let rq :=
    match Encode cmd with
    | inl err => Answered cmd None (Some err)
    | inr _ =>
      match res with
      | inl err => Answered cmd None (Some err)
      | inr (index, term) => Proposed cmd index term
      end
    end in
  s <| requests := <[r := rq]> (requests s) |>.

(** The waiter is registered; an older one at the index is told it was
    superseded. *)
Definition register (r : nat) (s : Server) : option Server :=
  match requests s !! r with
  | Some (Proposed cmd index term) =>
    s1 ← match waiters s !! index with
         | Some old => send (w_req old) (Some ErrNotLeader) s
         | None => Some s
         end;
    Some (s1 <| waiters := <[index := mkWaiter term r]> (waiters s1) |>
             <| requests := <[r := Waiting cmd index term]> (requests s1) |>
             <| channels := <[r := None]> (channels s1) |>)
  | _ => None
  end.

(** fireWaiter, called by Apply.  The source sends after releasing its mutex; nobody
    else can send to that channel any more, and its one slot is free, so the send
    is taken into the section. *)
Definition fireWaiter (e : LogEntry) (s : Server) : option Server :=
  match waiters s !! Index e with
  | None => Some s
  | Some w =>
    send (w_req w) (if w_term w =? Term e then None else Some ErrNotLeader)
      (s <| waiters := delete (Index e) (waiters s) |>)
  end.

Definition fire (e : LogEntry) (s : Server) : option Server :=
  s' ← fireWaiter e s; Some (s' <| applied := applied s' ++ [e] |>).

(** The select takes what the channel holds. *)
Definition receive (r : nat) (s : Server) : option Server :=
  match requests s !! r, channels s !! r with
  | Some (Waiting cmd i t), Some (Some res) =>
    Some (s <| requests := <[r := Answered cmd (Some (i, t)) res]> (requests s) |>
            <| channels := <[r := None]> (channels s) |>)
  | _, _ => None
  end.

(** The context is done: whatever waiter the index has is dropped. *)
Definition giveUp (r : nat) (err : string) (s : Server) : option Server :=
  match requests s !! r with
  | Some (Waiting cmd i t) =>
    Some (s <| waiters := delete i (waiters s) |>
            <| requests := <[r := Answered cmd (Some (i, t)) (Some err)]> (requests s) |>)
  | _ => None
  end.

(** ** Steps *)

Inductive Event :=
  | EvSubmit (r : nat) (cmd : KvCommand) (res : string + (N * N))
  | EvRegister (r : nat)
  | EvFire (e : LogEntry)
  | EvReceive (r : nat)
  | EvGiveUp (r : nat) (err : string).

(** [None]: the event is not possible here. *)
Definition srv_step (ev : Event) (s : Server) : option Server :=
  match ev with
  | EvSubmit r cmd res => if decide (requests s !! r = None) then Some (submit r cmd res s) else None
  | EvRegister r => register r s
  | EvFire e => fire e s
  | EvReceive r => receive r s
  | EvGiveUp r err => giveUp r err s
  end.

Fixpoint srv_run (evs : list Event) (s : Server) : option Server :=
  match evs with
  | [] => Some s
  | ev :: evs' => s' ← srv_step ev s; srv_run evs' s'
  end.

Lemma srv_run_app evs evs' s : srv_run (evs ++ evs') s = srv_run evs s ≫= srv_run evs'.
Proof. revert s. induction evs as [|ev evs IH]; intros s; [done|]. simpl. destruct (srv_step ev s); [apply IH|done]. Qed.

(** ** gRPC methods *)

Record Redirect := mkRedirect { LeaderId : string; LeaderAddr : string }.

(** redirect, from the leader Status reports. *)
Definition redirect (clientAddrs : gmap string string) (leaderID : string) : Redirect :=
  mkRedirect leaderID (default "" (clientAddrs !! leaderID)).

(** What Put and Delete make of propose's result: an error of the call, or a
    response with or without a redirect. *)
Definition writeResponse (addrs : gmap string string) (leaderID : string) (res : Outcome) :
    string + option Redirect :=
  match res with
  | None => inr None
  | Some err => if String.eqb err ErrNotLeader then inr (Some (redirect addrs leaderID)) else inl err
  end.

Definition putCommand (key value : string) : KvCommand := mkCommand OpPut key value.
Definition deleteCommand (key : string) : KvCommand := mkCommand OpDelete key "".

(** Get: a node that is not the leader redirects. *)
Definition GetResponse (addrs : gmap string string) (st : Status) (s : Store) (key : string) :
    Redirect + (string * bool) :=
  match St_State st with
  | Leader => inr (store_Get key s)
  | _ => inl (redirect addrs (St_LeaderID st))
  end.

Record StatusResponse := mkStatusResponse {
  SR_NodeId : string; SR_State : string; SR_CurrentTerm : N; SR_VotedFor : string;
  SR_LeaderId : string; SR_CommitIndex : N; SR_LastApplied : N; SR_LastLogIndex : N;
  SR_LastLogTerm : N; SR_FirstLogIndex : N; SR_Keys : N
}.

Definition ServerStatus (st : Status) (s : Store) : StatusResponse :=
  mkStatusResponse (St_ID st) (State_String (St_State st)) (St_CurrentTerm st) (St_VotedFor st)
    (St_LeaderID st) (St_CommitIndex st) (St_LastApplied st) (St_LastLogIndex st) (St_LastLogTerm st)
    (St_FirstLogIndex st) (store_Len s).

(** ** Waiters and channels *)

(** The index and term a request was given. *)
Definition given (rq : Request) : option (N * N) :=
  match rq with
  | Proposed _ i t | Waiting _ i t => Some (i, t)
  | Answered _ g _ => g
  end.

(** The entry a request waits for was applied. *)
Definition wasApplied (s : Server) (r : nat) : Prop :=
  ∃ rq i t e, requests s !! r = Some rq ∧ given rq = Some (i, t) ∧
              e ∈ applied s ∧ Index e = i ∧ Term e = t.

Record srv_inv (s : Server) : Prop := {
  inv_waiter i w : waiters s !! i = Some w →
    (∃ cmd, requests s !! w_req w = Some (Waiting cmd i (w_term w))) ∧ channels s !! w_req w = Some None;
  inv_proposed r cmd i t : requests s !! r = Some (Proposed cmd i t) → channels s !! r = None;
  inv_fresh r : requests s !! r = None → channels s !! r = None;
  inv_waiting r cmd i t : requests s !! r = Some (Waiting cmd i t) → is_Some (channels s !! r);
  inv_ok r : channels s !! r = Some (Some None) → wasApplied s r;
  inv_answered r cmd g : requests s !! r = Some (Answered cmd g None) → wasApplied s r
}.

Lemma srv_inv_init : srv_inv NewServer.
Proof. split; simpl; intros; by simplify_map_eq. Qed.

(** Nothing in the table is ever sent to twice: a send always finds an empty
    buffer. *)
Lemma send_waiter s i w res :
  srv_inv s → waiters s !! i = Some w →
  send (w_req w) res s = Some (s <| channels := <[w_req w := Some res]> (channels s) |>).
Proof. intros HI Hw. unfold send. by rewrite (proj2 (inv_waiter s HI i w Hw)). Qed.

(** Entries are only ever added, and a request keeps what it was given. *)
Lemma wasApplied_mono s s' r :
  (∀ e, e ∈ applied s → e ∈ applied s') →
  (∀ rq, requests s !! r = Some rq → ∃ rq', requests s' !! r = Some rq' ∧ given rq' = given rq) →
  wasApplied s r → wasApplied s' r.
Proof.
  intros Ha Hr (rq & i & t & e & Hrq & Hg & He & Hi & Ht). destruct (Hr rq Hrq) as (rq' & ? & Heq).
  exists rq', i, t, e. rewrite Heq. auto.
Qed.

Lemma srv_inv_submit s r cmd res :
  srv_inv s → requests s !! r = None → srv_inv (submit r cmd res s).
Proof.
  intros HI Hr. unfold submit.
  set (rq := match Encode cmd with inl _ => _ | inr _ => _ end).
  assert (∀ c g, rq ≠ Answered c g None) as Hrq by (unfold rq; intros; repeat case_match; congruence).
  assert (∀ c i t, rq ≠ Waiting c i t) as Hrw by (unfold rq; intros; repeat case_match; congruence).
  assert (∀ r', wasApplied s r' → wasApplied (s <| requests := <[r := rq]> (requests s) |>) r') as Hmono.
  { intros r'. apply wasApplied_mono; [done|]. simpl. intros rq' ?.
    exists rq'. rewrite lookup_insert_ne by congruence. done. }
  split; simpl.
  - intros i w Hw. destruct (inv_waiter s HI i w Hw) as [[c Hc] Hch]. split; [|done].
    exists c. by rewrite lookup_insert_ne by congruence.
  - intros r' c i t. destruct (decide (r = r')) as [<-|]; simplify_map_eq; intros; [by apply (inv_fresh s HI)|].
    by eapply (inv_proposed s HI).
  - intros r'. destruct (decide (r = r')) as [<-|]; simplify_map_eq; [done|]. apply (inv_fresh s HI).
  - intros r' c i t. destruct (decide (r = r')) as [<-|]; simplify_map_eq; [intros [= ?]; by edestruct Hrw|].
    apply (inv_waiting s HI).
  - intros r' Hc. by apply Hmono, (inv_ok s HI).
  - intros r' c g. destruct (decide (r = r')) as [<-|]; simplify_map_eq; [intros [= ?]; by edestruct Hrq|].
    intros ?. by eapply Hmono, (inv_answered s HI).
Qed.

(** A value goes to a waiter that leaves the table. *)
Lemma srv_inv_wake s i w res es :
  srv_inv s → waiters s !! i = Some w →
  (res = None → ∃ e, e ∈ applied s ++ es ∧ Index e = i ∧ Term e = w_term w) →
  srv_inv (s <| waiters := delete i (waiters s) |> <| channels := <[w_req w := Some res]> (channels s) |>
             <| applied := applied s ++ es |>).
Proof.
  intros HI Hw Hres. destruct (inv_waiter s HI i w Hw) as [[c Hc] Hch].
  assert (∀ r, wasApplied s r → wasApplied (s <| waiters := delete i (waiters s) |>
    <| channels := <[w_req w := Some res]> (channels s) |> <| applied := applied s ++ es |>) r) as Hmono.
  { intros r. apply wasApplied_mono; [simpl; intros; apply elem_of_app; auto|eauto]. }
  split; simpl.
  - intros j w' [Hne Hw']%lookup_delete_Some. destruct (inv_waiter s HI j w' Hw') as [[c' Hc'] Hch'].
    split; [eauto|]. rewrite lookup_insert_ne; [done|]. intros Heq. rewrite Heq in Hc. congruence.
  - intros r c' j t Hr. rewrite lookup_insert_ne; [by eapply (inv_proposed s HI)|congruence].
  - intros r Hr. rewrite lookup_insert_ne; [by apply (inv_fresh s HI)|congruence].
  - intros r c' j t Hr. destruct (decide (w_req w = r)) as [<-|]; simplify_map_eq; [eauto|].
    by eapply (inv_waiting s HI).
  - intros r. destruct (decide (w_req w = r)) as [<-|]; simplify_map_eq; [|intros; by apply Hmono, (inv_ok s HI)].
    intros [= ->]. destruct (Hres eq_refl) as (e & He & Hi & Ht). exists (Waiting c i (w_term w)), i, (w_term w), e.
    auto.
  - intros r c' g Hr. by eapply Hmono, (inv_answered s HI).
Qed.

Lemma srv_inv_fire s e : srv_inv s → ∃ s', fire e s = Some s' ∧ srv_inv s'.
Proof.
  intros HI. unfold fire, fireWaiter. destruct (waiters s !! Index e) as [w|] eqn:Hw; simpl.
  - destruct (inv_waiter s HI _ _ Hw) as [_ Hch]. unfold send. simpl. rewrite Hch. simpl.
    eexists. split; [done|]. apply (srv_inv_wake s (Index e) w _ [e] HI Hw).
    destruct (N.eqb_spec (w_term w) (Term e)) as [->|]; [|done]. intros _.
    exists e. split; [apply elem_of_app; right; by left|done].
  - eexists. split; [done|]. destruct HI as [H1 H2 H3 H4 H5 H6].
    assert (∀ r, wasApplied s r → wasApplied (s <| applied := applied s ++ [e] |>) r) as Hmono.
    { intros r. apply wasApplied_mono; [simpl; intros; apply elem_of_app; auto|eauto]. }
    split; simpl; eauto.
Qed.

(** A proposed request enters the table at a free index. *)
Lemma srv_inv_park s r cmd i t :
  srv_inv s → requests s !! r = Some (Proposed cmd i t) → waiters s !! i = None →
  srv_inv (s <| waiters := <[i := mkWaiter t r]> (waiters s) |>
             <| requests := <[r := Waiting cmd i t]> (requests s) |>
             <| channels := <[r := None]> (channels s) |>).
Proof.
  intros HI Hr Hi.
  assert (∀ r', wasApplied s r' → wasApplied (s <| waiters := <[i := mkWaiter t r]> (waiters s) |>
    <| requests := <[r := Waiting cmd i t]> (requests s) |> <| channels := <[r := None]> (channels s) |>) r') as Hmono.
  { intros r'. apply wasApplied_mono; [done|]. simpl. intros rq Hrq.
    destruct (decide (r = r')) as [<-|]; simplify_map_eq; eauto. }
  split; simpl.
  - intros j w. destruct (decide (i = j)) as [<-|Hne]; simplify_map_eq; [intros [= <-]; simpl; simplify_map_eq; eauto|].
    intros Hw. destruct (inv_waiter s HI j w Hw) as [[c Hc] Hch].
    assert (r ≠ w_req w) by congruence. simplify_map_eq. eauto.
  - intros r' c j t' H. destruct (decide (r = r')) as [<-|]; simplify_map_eq. by eapply (inv_proposed s HI).
  - intros r' H. destruct (decide (r = r')) as [<-|]; simplify_map_eq. by apply (inv_fresh s HI).
  - intros r' c j t' H. destruct (decide (r = r')) as [<-|]; simplify_map_eq; [eauto|]. by eapply (inv_waiting s HI).
  - intros r' H. destruct (decide (r = r')) as [<-|]; simplify_map_eq. by apply Hmono, (inv_ok s HI).
  - intros r' c g H. destruct (decide (r = r')) as [<-|]; simplify_map_eq. by eapply Hmono, (inv_answered s HI).
Qed.

Lemma srv_inv_register s r cmd i t :
  srv_inv s → requests s !! r = Some (Proposed cmd i t) → ∃ s', register r s = Some s' ∧ srv_inv s'.
Proof.
  intros HI Hr. unfold register. rewrite Hr. destruct (waiters s !! i) as [w|] eqn:Hw; simpl.
  - rewrite (send_waiter s i w) by done. simpl. eexists. split; [done|].
    pose proof (srv_inv_wake s i w (Some ErrNotLeader) [] HI Hw ltac:(done)) as HI1.
    pose proof (srv_inv_park _ r cmd i t HI1 Hr (lookup_delete_eq _ _)) as HI2. simpl in HI2.
    rewrite insert_delete_eq in HI2. destruct s. simpl in *. by rewrite app_nil_r in HI2.
  - eexists. split; [done|]. by apply srv_inv_park.
Qed.

Lemma srv_inv_receive s s' r : srv_inv s → receive r s = Some s' → srv_inv s'.
Proof.
  intros HI. unfold receive. destruct (requests s !! r) as [[|cmd i t|]|] eqn:Hr; try done.
  destruct (channels s !! r) as [[res|]|] eqn:Hc; try done. intros [= <-].
  match goal with |- srv_inv ?x => set (s' := x) end.
  assert (∀ r', wasApplied s r' → wasApplied s' r') as Hmono.
  { intros r'. apply wasApplied_mono; [done|]. simpl. intros rq Hrq.
    destruct (decide (r = r')) as [<-|]; simplify_map_eq; eauto. }
  split; simpl.
  - intros j w Hw. destruct (inv_waiter s HI j w Hw) as [[c Hc'] Hch].
    assert (r ≠ w_req w) by congruence. simplify_map_eq. eauto.
  - intros r' c j t' H. destruct (decide (r = r')) as [<-|]; simplify_map_eq. by eapply (inv_proposed s HI).
  - intros r' H. destruct (decide (r = r')) as [<-|]; simplify_map_eq. by apply (inv_fresh s HI).
  - intros r' c j t' H. destruct (decide (r = r')) as [<-|]; simplify_map_eq. by eapply (inv_waiting s HI).
  - intros r' H. destruct (decide (r = r')) as [<-|]; simplify_map_eq. by apply Hmono, (inv_ok s HI).
  - intros r' c g H. destruct (decide (r = r')) as [<-|]; simplify_map_eq; apply Hmono;
      [by apply (inv_ok s HI)|by eapply (inv_answered s HI)].
Qed.

Lemma srv_inv_giveUp s s' r err : srv_inv s → giveUp r err s = Some s' → srv_inv s'.
Proof.
  intros HI. unfold giveUp. destruct (requests s !! r) as [[|cmd i t|]|] eqn:Hr; try done. intros [= <-].
  match goal with |- srv_inv ?x => set (s' := x) end.
  assert (∀ r', wasApplied s r' → wasApplied s' r') as Hmono.
  { intros r'. apply wasApplied_mono; [done|]. simpl. intros rq Hrq.
    destruct (decide (r = r')) as [<-|]; simplify_map_eq; eauto. }
  split; simpl.
  - intros j w [Hne Hw]%lookup_delete_Some. destruct (inv_waiter s HI j w Hw) as [[c Hc'] Hch].
    assert (r ≠ w_req w) by congruence. simplify_map_eq. eauto.
  - intros r' c j t' H. destruct (decide (r = r')) as [<-|]; simplify_map_eq. by eapply (inv_proposed s HI).
  - intros r' H. destruct (decide (r = r')) as [<-|]; simplify_map_eq. by apply (inv_fresh s HI).
  - intros r' c j t' H. destruct (decide (r = r')) as [<-|]; simplify_map_eq. by eapply (inv_waiting s HI).
  - intros r' H. by apply Hmono, (inv_ok s HI).
  - intros r' c g H. destruct (decide (r = r')) as [<-|]; simplify_map_eq. by eapply Hmono, (inv_answered s HI).
Qed.

Lemma srv_inv_step s s' ev : srv_inv s → srv_step ev s = Some s' → srv_inv s'.
Proof.
  intros HI. destruct ev as [r cmd res|r|e|r|r err]; simpl.
  - case_decide; [|done]. intros [= <-]. by apply srv_inv_submit.
  - intros H. destruct (requests s !! r) as [[cmd i t| |]|] eqn:Hr;
      try (unfold register in H; by rewrite Hr in H).
    destruct (srv_inv_register s r cmd i t HI Hr) as (s1 & H1 & ?). congruence.
  - intros H. destruct (srv_inv_fire s e HI) as (s1 & H1 & ?). congruence.
  - by apply srv_inv_receive.
  - by apply srv_inv_giveUp.
Qed.

Lemma srv_inv_run evs s s' : srv_inv s → srv_run evs s = Some s' → srv_inv s'.
Proof.
  revert s. induction evs as [|ev evs IH]; intros s HI; simpl; [by intros [= <-]|].
  destruct (srv_step ev s) as [s1|] eqn:Hs; simpl; [|done]. apply IH. by eapply srv_inv_step.
Qed.

(** ** What the server promises *)

Lemma srv_inv_reached evs s : srv_run evs NewServer = Some s → srv_inv s.
Proof. apply srv_inv_run, srv_inv_init. Qed.

(** C24. A success is an apply: in whatever order the sections of the requests and
    of the applier run, a request that was answered with success was given an
    index and a term by Propose, and Apply was called with an entry of exactly
    that index and term. *)
Theorem success_was_applied evs s r cmd g :
  srv_run evs NewServer = Some s → requests s !! r = Some (Answered cmd g None) →
  ∃ e, e ∈ applied s ∧ g = Some (Index e, Term e).
Proof.
  intros HI%srv_inv_reached Hr. destruct (inv_answered s HI r cmd g Hr) as (rq & i & t & e & Hrq & Hg & He & <- & <-).
  rewrite Hr in Hrq. injection Hrq as <-. by exists e.
Qed.

(** C25. The applier never blocks and a registration never blocks: every send finds
    its one-slot channel empty, whatever requests gave up, were superseded or
    were woken before. *)
Theorem sends_never_block evs s :
  srv_run evs NewServer = Some s →
  (∀ e, is_Some (fire e s)) ∧
  ∀ r cmd i t, requests s !! r = Some (Proposed cmd i t) → is_Some (register r s).
Proof.
  intros HI%srv_inv_reached. split.
  - intros e. destruct (srv_inv_fire s e HI) as (s' & ? & _). by exists s'.
  - intros r cmd i t Hr. destruct (srv_inv_register s r cmd i t HI Hr) as (s' & ? & _). by exists s'.
Qed.

(** C26. A registered request is answered by the apply of its index: with success
    when the applied entry has the term it was given, and with a redirect when
    another leader's entry took the index. *)
Theorem registered_is_woken evs s e w :
  srv_run evs NewServer = Some s → waiters s !! Index e = Some w →
  ∃ s1 s2 cmd, fire e s = Some s1 ∧ receive (w_req w) s1 = Some s2 ∧
    requests s2 !! w_req w =
      Some (Answered cmd (Some (Index e, w_term w)) (if w_term w =? Term e then None else Some ErrNotLeader)).
Proof.
  intros HI%srv_inv_reached Hw. destruct (inv_waiter s HI _ _ Hw) as [[cmd Hc] Hch].
  unfold fire, fireWaiter. rewrite Hw. unfold send. simpl. rewrite Hch. simpl. eexists _, _, cmd. split; [done|].
  unfold receive. simpl. rewrite Hc, lookup_insert_eq. split; [done|]. simpl. by rewrite lookup_insert_eq.
Qed.

(** ** Two races *)

(** What a registration leaves. *)
Lemma register_spec s s' r cmd i t :
  register r s = Some s' → requests s !! r = Some (Proposed cmd i t) →
  requests s' !! r = Some (Waiting cmd i t) ∧ waiters s' !! i = Some (mkWaiter t r).
Proof.
  unfold register. intros H Hr. rewrite Hr in H. destruct (match waiters s !! i with Some _ => _ | None => _ end); [|done].
  injection H as <-. simpl. by rewrite !lookup_insert_eq.
Qed.

(** What an apply does to the others: requests and waiters of other indexes stay,
    the waiter of its index is told, and an answer that is on its way stays. *)
Lemma fire_spec s s' e :
  srv_inv s → fire e s = Some s' →
  requests s' = requests s ∧
  (∀ i w, waiters s !! i = Some w → i ≠ Index e → waiters s' !! i = Some w) ∧
  (∀ w, waiters s !! Index e = Some w →
     channels s' !! w_req w = Some (Some (if w_term w =? Term e then None else Some ErrNotLeader))) ∧
  (∀ r res, channels s !! r = Some (Some res) → channels s' !! r = Some (Some res)).
Proof.
  intros HI. unfold fire, fireWaiter. destruct (waiters s !! Index e) as [w|] eqn:Hw; simpl; [|by intros [= <-]].
  destruct (inv_waiter s HI _ _ Hw) as [_ Hch]. unfold send. simpl. rewrite Hch. intros [= <-]. simpl. split; [done|].
  split; [intros i w' Hw' Hne; by rewrite lookup_delete_ne|]. split.
  - intros w' [= <-]. by rewrite lookup_insert_eq.
  - intros r res Hr. rewrite lookup_insert_ne; [done|]. intros <-. congruence.
Qed.

(** Applies of other indexes leave a waiter asleep. *)
Lemma fire_others es s i w cmd :
  waiters s !! i = Some w → requests s !! w_req w = Some (Waiting cmd i (w_term w)) →
  srv_inv s → Forall (λ e, i < Index e) es →
  ∃ s', srv_run (EvFire <$> es) s = Some s' ∧ receive (w_req w) s' = None.
Proof.
  intros Hw Hr HI Hes. revert s Hw Hr HI. induction Hes as [|e es He Hes IH]; intros s Hw Hr HI.
  { exists s. split; [done|]. unfold receive. rewrite Hr. by rewrite (proj2 (inv_waiter s HI i w Hw)). }
  destruct (srv_inv_fire s e HI) as (s1 & Hf & HI1). cbn [fmap list_fmap srv_run srv_step]. rewrite Hf. simpl.
  destruct (fire_spec s s1 e HI Hf) as (Hr1 & Hw1 & _). apply IH; [apply Hw1; [done|lia]|congruence|done].
Qed.

(** C39. A lost wakeup: propose registers its waiter only after Propose has returned.
    When the entry is committed and applied in between, the apply finds no
    waiter, and no later apply, which is of a higher index, ever wakes the
    request: it sleeps until its context ends, although its write succeeded. *)
Theorem lost_wakeup key value i t data :
  let e := mkEntry t i data in
  let r := 0%nat in
  ∃ s, srv_run [EvSubmit r (putCommand key value) (inr (i, t)); EvFire e; EvRegister r] NewServer = Some s ∧
    e ∈ applied s ∧
    ∀ es, Forall (λ e', Index e < Index e') es →
      ∃ s', srv_run (EvFire <$> es) s = Some s' ∧ receive r s' = None.
Proof.
  intros e r. eexists. split; [reflexivity|]. split; [by left|]. intros es Hes.
  eapply (fire_others es _ i (mkWaiter t r) (putCommand key value)); [apply lookup_insert_eq|apply lookup_insert_eq| |exact Hes].
  by apply (srv_inv_reached [EvSubmit r (putCommand key value) (inr (i, t)); EvFire e; EvRegister r]).
Qed.

(** No waiter in the table is that of request [r], which waits with nothing in its
    channel. *)
Definition orphaned (s : Server) (r : nat) (cmd : KvCommand) (i t : N) : Prop :=
  requests s !! r = Some (Waiting cmd i t) ∧ channels s !! r = Some None ∧
  ∀ k w, waiters s !! k = Some w → w_req w ≠ r.

Lemma orphaned_send s s' r cmd i t q res :
  orphaned s r cmd i t → q ≠ r → send q res s = Some s' → orphaned s' r cmd i t.
Proof.
  intros (Hr & Hc & Hw) Hne. unfold send. destruct (channels s !! q) as [[?|]|]; try done. intros [= <-].
  split; [done|]. split; [simpl; by rewrite lookup_insert_ne|done].
Qed.

Lemma orphaned_delete s r cmd i t k :
  orphaned s r cmd i t → orphaned (s <| waiters := delete k (waiters s) |>) r cmd i t.
Proof. intros (Hr & Hc & Hw). split; [done|]. split; [done|]. simpl. intros j w [_ ?]%lookup_delete_Some. by eapply Hw. Qed.

Lemma orphaned_register s s' r cmd i t r' :
  orphaned s r cmd i t → register r' s = Some s' → orphaned s' r cmd i t.
Proof.
  intros Ho. pose proof Ho as (Hr & _ & Hw). unfold register. destruct (requests s !! r') as [[cmd' k t'| |]|] eqn:Hr'; try done.
  assert (r' ≠ r) as Hne by congruence. intros H.
  assert (∃ s1, orphaned s1 r cmd i t ∧ s' = s1 <| waiters := <[k := mkWaiter t' r']> (waiters s1) |>
    <| requests := <[r' := Waiting cmd' k t']> (requests s1) |> <| channels := <[r' := None]> (channels s1) |>)
    as (s1 & (Hr1 & Hc1 & Hw1) & ->).
  { destruct (waiters s !! k) as [old|] eqn:Hold; simpl in H; [|injection H as <-; by exists s].
    destruct (send _ _ s) as [s1|] eqn:Hs; [|done]. injection H as <-. exists s1. split; [|done].
    eapply orphaned_send; [exact Ho|by eapply Hw|exact Hs]. }
  split; [simpl; by rewrite lookup_insert_ne|]. split; [simpl; by rewrite lookup_insert_ne|].
  simpl. intros j w [[_ <-]|[_ Hj]]%lookup_insert_Some; [done|by eapply Hw1].
Qed.

Lemma orphaned_fire s s' r cmd i t e : orphaned s r cmd i t → fire e s = Some s' → orphaned s' r cmd i t.
Proof.
  intros Ho. pose proof Ho as (_ & _ & Hw). unfold fire, fireWaiter.
  destruct (waiters s !! Index e) as [w|] eqn:He; simpl; [|by intros [= <-]].
  destruct (send _ _ _) as [s1|] eqn:Hs; [|done]. intros [= <-].
  destruct (orphaned_send _ s1 r cmd i t _ _ (orphaned_delete s r cmd i t (Index e) Ho) (Hw _ _ He) Hs) as (? & ? & ?). done.
Qed.

(** Nobody answers it any more. *)
Lemma orphaned_step s s' ev r cmd i t :
  orphaned s r cmd i t → (∀ err, ev ≠ EvGiveUp r err) → srv_step ev s = Some s' → orphaned s' r cmd i t.
Proof.
  intros Ho Hev. pose proof Ho as (Hr & Hc & Hw).
  destruct ev as [q cmd' res|q|e|q|q err]; simpl; [| by apply orphaned_register| by apply orphaned_fire| |].
  - case_decide as Hq; [|done]. intros [= <-]. split; [|done]. simpl. rewrite lookup_insert_ne; congruence.
  - unfold receive. destruct (decide (q = r)) as [->|Hne]; [by rewrite Hr, Hc|].
    destruct (requests s !! q) as [[| |]|]; try done. destruct (channels s !! q) as [[|]|]; try done. intros [= <-].
    split; [simpl; by rewrite lookup_insert_ne|]. split; [simpl; by rewrite lookup_insert_ne|done].
  - assert (q ≠ r) as Hne by (intros ->; by destruct (Hev err)). unfold giveUp.
    destruct (requests s !! q) as [[|c k u|]|]; try done. intros [= <-].
    destruct (orphaned_delete s r cmd i t k Ho) as (_ & _ & Hw'). split; [simpl; by rewrite lookup_insert_ne|]. done.
Qed.

Lemma orphaned_run evs s s' r cmd i t :
  orphaned s r cmd i t → (∀ err, EvGiveUp r err ∉ evs) → srv_run evs s = Some s' → orphaned s' r cmd i t.
Proof.
  revert s. induction evs as [|ev evs IH]; intros s Ho Hev; cbn [srv_run]; [by intros [= <-]|].
  destruct (srv_step ev s) as [s1|] eqn:Hs; [|done]. simpl. apply IH; [|intros err Hin; apply (Hev err); by right].
  eapply orphaned_step; [exact Ho| |exact Hs]. intros err ->. apply (Hev err). by left.
Qed.

(** C40. A request that gives up drops the waiter of another: in any state a server
    can get to, let request [r1] wait for index [i], and let the node, leading
    again in a later term, have given the same index to request [r2], which
    now registers its waiter.  When the context of [r1] ends, it deletes the
    waiter of [r2]; from then on nothing that happens, the apply of the entry of
    [r2] included, wakes [r2], until its own context ends. *)
Theorem giving_up_steals evs s r1 r2 cmd1 cmd2 i t1 t2 err :
  srv_run evs NewServer = Some s →
  requests s !! r1 = Some (Waiting cmd1 i t1) → requests s !! r2 = Some (Proposed cmd2 i t2) →
  ∃ s1, srv_run [EvRegister r2; EvGiveUp r1 err] s = Some s1 ∧
    ∀ evs' s', srv_run evs' s1 = Some s' → (∀ err', EvGiveUp r2 err' ∉ evs') →
      requests s' !! r2 = Some (Waiting cmd2 i t2) ∧ receive r2 s' = None.
Proof.
  intros Hrun H1 H2. pose proof (srv_inv_reached evs s Hrun) as HI. assert (r1 ≠ r2) as Hne by congruence.
  destruct (srv_inv_register s r2 cmd2 i t2 HI H2) as (sa & Ha & HIa).
  destruct (register_spec s sa r2 cmd2 i t2 Ha H2) as [Hra Hwa].
  assert (requests sa !! r1 = Some (Waiting cmd1 i t1)) as H1a.
  { revert Ha. unfold register. rewrite H2. destruct (waiters s !! i) as [old|]; simpl; [|by intros [= <-]; simpl; rewrite lookup_insert_ne].
    unfold send. destruct (channels s !! w_req old) as [[?|]|]; simpl; try done. intros [= <-]. simpl. by rewrite lookup_insert_ne. }
  eexists. split; [cbn [srv_run srv_step]; rewrite Ha; simpl; unfold giveUp; by rewrite H1a|]. intros evs' s' Hrun' Hev.
  destruct (inv_waiter sa HIa i _ Hwa) as [_ Hca].
  match type of Hrun' with srv_run _ ?y = _ => assert (orphaned y r2 cmd2 i t2) as Ho end.
  { split; [simpl; by rewrite lookup_insert_ne|]. split; [exact Hca|]. simpl. intros k w [Hk Hw]%lookup_delete_Some Hw2.
    destruct (inv_waiter sa HIa k w Hw) as [[c Hc] _]. rewrite Hw2, Hra in Hc. congruence. }
  destruct (orphaned_run evs' _ s' r2 cmd2 i t2 Ho Hev Hrun') as (Hr' & Hc' & _).
  split; [exact Hr'|]. unfold receive. by rewrite Hr', Hc'.
Qed.

(** ** Runs *)

Definition putRun : list Event :=
  [EvSubmit 0 (putCommand "k" "v") (inr (1, 1)); EvRegister 0; EvFire (mkEntry 1 1 "v"); EvReceive 0].
Definition afterPut : Server := default NewServer (srv_run putRun NewServer).
Definition asleep : Server := default NewServer (srv_run (take 2 putRun) NewServer).

Lemma success_was_applied_witness :
  ∃ e, e ∈ applied afterPut ∧ Some (1, 1) = Some (Index e, Term e).
Proof.
  apply (success_was_applied putRun afterPut 0 (putCommand "k" "v")); [by vm_compute|by vm_compute].
Defined.

Lemma sends_never_block_witness : is_Some (fire (mkEntry 1 1 "v") asleep).
Proof. apply (sends_never_block (take 2 putRun) asleep). by vm_compute. Defined.

Lemma registered_is_woken_witness :
  ∃ s1 s2 cmd, fire (mkEntry 1 1 "v") asleep = Some s1 ∧ receive 0 s1 = Some s2 ∧
    requests s2 !! 0%nat = Some (Answered cmd (Some (1, 1)) None).
Proof.
  apply (registered_is_woken (take 2 putRun) asleep (mkEntry 1 1 "v") (mkWaiter 1 0)); by vm_compute.
Defined.
