(* ===== verification/ClusterConfig.v ===== *)
(** * The cluster configuration (src/config/config.go) and its use (src/cmd/raftd)

    The static membership file: decoding, validation, the lookups, and the
    raft.Config that raftd builds from it.  Validate is shown to accept exactly
    the lists without empty or repeated identities and addresses, and a file that
    Load accepts is shown to give what the safety theorems assume of a cluster:
    distinct, non-empty names the hard-state file can hold, and nodes that agree
    on who the members are. *)

From S2P Require Import Prelude Types Node Cluster ElectionSafety Bytes Utf8 Json Codec Kv.

#[local] Set Warnings "-clear-no-such-hyp".

(** ** Decoding *)

Record Member := mkMember { ID : string; RaftAddr : string; ClientAddr : string }.

#[export] Instance Member_eq_dec : EqDecision Member.
Proof. solve_decision. Defined.

Definition zeroMember : Member := mkMember "" "" "".

Definition setMember (n : Member) (m : list N * JValue) : option Member :=
  if isField "id" m.1 then v ← asString (ID n) m.2; Some (mkMember v (RaftAddr n) (ClientAddr n))
  else if isField "raft_addr" m.1 then v ← asString (RaftAddr n) m.2; Some (mkMember (ID n) v (ClientAddr n))
  else if isField "client_addr" m.1 then v ← asString (ClientAddr n) m.2; Some (mkMember (ID n) (RaftAddr n) v)
  else Some n.

Definition asMember (prev : Member) (v : JValue) : option Member :=
  match v with
  | JObj ms => foldl (λ acc m, n ← acc; setMember n m) (Some prev) ms
  | JNull => Some prev
  | _ => None
  end.

(** A slice decodes in place: an element there before is updated. *)
Definition asMembers (prev : list Member) (v : JValue) : option (list Member) :=
  match v with
  | JArr vs => mapM (λ iv, asMember (default zeroMember (prev !! iv.1)) iv.2) (imap (λ i v, (i, v)) vs)
  | JNull => Some []
  | _ => None
  end.

Definition setNodes (ns : list Member) (m : list N * JValue) : option (list Member) :=
  if isField "nodes" m.1 then asMembers ns m.2 else Some ns.

(** ** Validation *)

Inductive ConfigError :=
  | NoNodes
  | EmptyID (i : nat)
  | EmptyRaftAddr (id : string)
  | EmptyClientAddr (id : string)
  | DuplicateID (id : string)
  | SharedAddr (addr owner id : string).

(** The inner loop, over the two addresses of node [id]. *)
Fixpoint claimAddrs (id : string) (addrs : list string) (seen : gmap string string) :
    ConfigError + gmap string string :=
  match addrs with
  | [] => inr seen
  | a :: addrs' =>
    match seen !! a with
    | Some owner => inl (SharedAddr a owner id)
    | None => claimAddrs id addrs' (<[a := id]> seen)
    end
  end.

Fixpoint validateFrom (i : nat) (ns : list Member) (seenIDs : gset string)
    (seenAddrs : gmap string string) : ConfigError + unit :=
  match ns with
  | [] => inr tt
  | n :: ns' =>
    if String.eqb (ID n) "" then inl (EmptyID i)
    else if String.eqb (RaftAddr n) "" then inl (EmptyRaftAddr (ID n))
    else if String.eqb (ClientAddr n) "" then inl (EmptyClientAddr (ID n))
    else if bool_decide (ID n ∈ seenIDs) then inl (DuplicateID (ID n))
    else
      match claimAddrs (ID n) [RaftAddr n; ClientAddr n] seenAddrs with
      | inl err => inl err
      | inr seenAddrs' => validateFrom (S i) ns' ({[ID n]} ∪ seenIDs) seenAddrs'
      end
  end.

Definition Validate (ns : list Member) : ConfigError + unit :=
  match ns with [] => inl NoNodes | _ => validateFrom 0 ns ∅ ∅ end.

Inductive LoadError := ReadError | ParseError | InvalidConfig (err : ConfigError).

(** Load, from what os.ReadFile answered. *)
Definition Load (file : option (list N)) : LoadError + list Member :=
  match file with
  | None => inl ReadError
  | Some data =>
    match decodeStruct setNodes [] data with
    | None => inl ParseError
    | Some ns => match Validate ns with inl err => inl (InvalidConfig err) | inr _ => inr ns end
    end
  end.

(** ** Lookups *)

Fixpoint FindNode (ns : list Member) (id : string) : option Member :=
  match ns with
  | [] => None
  | n :: ns' => if String.eqb (ID n) id then Some n else FindNode ns' id
  end.

Definition Peers (ns : list Member) (self : string) : list Member := filter (λ n, ID n ≠ self) ns.

Definition QuorumSize (ns : list Member) : N := lenN ns / 2 + 1.

(** ** What raftd makes of it *)

(** raft.Config as main builds it for node [self]; the timeouts are left to
    withDefaults. *)
Definition raftdConfig (ns : list Member) (snapshotThreshold : N) (self : string) : Config :=
  mkConfig self (ID <$> Peers ns self) true true true true snapshotThreshold 0 0 0 0.

Definition peerAddrs (ns : list Member) (self : string) : gmap string string :=
  foldl (λ m p, <[ID p := RaftAddr p]> m) ∅ (Peers ns self).

Definition clientAddrs (ns : list Member) : gmap string string :=
  foldl (λ m n, <[ID n := ClientAddr n]> m) ∅ ns.

(** ** Validate accepts exactly the well-formed lists *)

Definition addresses (ns : list Member) : list string := ns ≫= λ n, [RaftAddr n; ClientAddr n].

Lemma addresses_cons n ns : addresses (n :: ns) = [RaftAddr n; ClientAddr n] ++ addresses ns.
Proof. done. Qed.

Definition named (n : Member) : Prop := ID n ≠ "" ∧ RaftAddr n ≠ "" ∧ ClientAddr n ≠ "".

Lemma claimAddrs_iff id addrs seen :
  (∃ seen', claimAddrs id addrs seen = inr seen' ∧
            ∀ a, seen' !! a = None ↔ seen !! a = None ∧ a ∉ addrs) ↔
  NoDup addrs ∧ ∀ a, a ∈ addrs → seen !! a = None.
Proof.
  revert seen. induction addrs as [|a addrs IH]; intros seen; simpl.
  { split; [intros _; split; [constructor|set_solver]|]. intros _. exists seen. split; [done|set_solver]. }
  destruct (seen !! a) as [owner|] eqn:Ha.
  { split; [by intros (? & ? & _)|]. intros [_ H]. specialize (H a). set_solver. }
  rewrite NoDup_cons. split.
  - intros (seen' & Hc & Hs). destruct (proj1 (IH (<[a := id]> seen))) as [Hnd Hfree].
    { exists seen'. split; [done|]. intros b. rewrite Hs. rewrite lookup_insert_None, not_elem_of_cons. naive_solver. }
    assert (a ∉ addrs) by (intros Hin; specialize (Hfree a Hin); simplify_map_eq).
    split; [done|]. intros b [->|Hb]%elem_of_cons; [done|]. specialize (Hfree b Hb).
    by apply lookup_insert_None in Hfree as [? _].
  - intros [[Ha' Hnd] Hfree]. destruct (proj2 (IH (<[a := id]> seen))) as (seen' & Hc & Hs).
    { split; [done|]. intros b Hb. rewrite lookup_insert_ne by set_solver. set_solver. }
    exists seen'. split; [done|]. intros b. rewrite Hs, lookup_insert_None, not_elem_of_cons. naive_solver.
Qed.

Lemma claimAddrs_inv id addrs seen seen' :
  claimAddrs id addrs seen = inr seen' → ∀ a, seen' !! a = None ↔ seen !! a = None ∧ a ∉ addrs.
Proof.
  revert seen. induction addrs as [|b addrs IH]; intros seen; simpl; [intros [= <-]; set_solver|].
  destruct (seen !! b) eqn:Hb; [done|]. intros Hc a. rewrite (IH _ Hc), lookup_insert_None, not_elem_of_cons.
  naive_solver.
Qed.

Lemma validateFrom_iff i ns ids addrs :
  validateFrom i ns ids addrs = inr tt ↔
  Forall named ns ∧ NoDup (ID <$> ns) ∧ (∀ n, n ∈ ns → ID n ∉ ids) ∧
  NoDup (addresses ns) ∧ (∀ a, a ∈ addresses ns → addrs !! a = None).
Proof.
  revert i ids addrs. induction ns as [|n ns IH]; intros i ids addrs; cbn [validateFrom].
  { split; [intros _|done]. split; [constructor|]. split; [constructor|]. split; [set_solver|].
    split; [constructor|set_solver]. }
  rewrite Forall_cons, fmap_cons, NoDup_cons, addresses_cons. unfold named at 1.
  destruct (String.eqb_spec (ID n) "") as [|H1]; [naive_solver|].
  destruct (String.eqb_spec (RaftAddr n) "") as [|H2]; [naive_solver|].
  destruct (String.eqb_spec (ClientAddr n) "") as [|H3]; [naive_solver|].
  case_bool_decide as H4; [split; [done|]; intros (_ & _ & Hids & _); specialize (Hids n); set_solver|].
  rewrite NoDup_app. setoid_rewrite elem_of_app.
  pose proof (claimAddrs_iff (ID n) [RaftAddr n; ClientAddr n] addrs) as Hclaim.
  pose proof (claimAddrs_inv (ID n) [RaftAddr n; ClientAddr n] addrs) as Hinv.
  destruct (claimAddrs _ _ _) as [err|seen'].
  { split; [done|]. intros (_ & _ & _ & (Hnd & _ & _) & Hfree).
    destruct (proj2 Hclaim) as (? & ? & _); [|done]. split; [done|]. intros a Ha. apply Hfree. by left. }
  specialize (Hinv seen' eq_refl). rewrite IH.
  destruct (proj1 Hclaim) as [Hnd Hfree]; [eauto|]. split.
  - intros (Hn & Hids & Hnew & Haddr & Hseen). split; [done|]. split.
    { split; [|done]. intros (m & Hm & Hin)%list_elem_of_fmap. specialize (Hnew m Hin). set_solver. }
    split; [intros m [->|Hm]%elem_of_cons; [done|]; specialize (Hnew m Hm); set_solver|].
    split; [|intros a [Ha|Ha]; [by apply Hfree|by apply Hinv, Hseen]].
    split; [done|]. split; [|done]. intros a Ha Hin.
    by destruct (proj1 (Hinv a) (Hseen a Hin)).
  - intros ([_ Hn] & [Hid Hids] & Hnew & (_ & Hdis & Haddr) & Hseen). split; [done|]. split; [done|]. split.
    { intros m Hm [Heq|Hin]%elem_of_union; [|by apply (Hnew m); [right|]].
      apply elem_of_singleton in Heq. apply Hid, list_elem_of_fmap. eauto. }
    split; [done|]. intros a Ha. apply Hinv. split; [by apply Hseen; right|]. intros Ha'. by apply (Hdis a).
Qed.

Lemma Validate_iff ns :
  Validate ns = inr tt ↔
  ns ≠ [] ∧ Forall named ns ∧ NoDup (ID <$> ns) ∧ NoDup (addresses ns).
Proof.
  unfold Validate. destruct ns as [|n ns]; [naive_solver|]. rewrite validateFrom_iff. split.
  - intros (? & ? & _ & ? & _). done.
  - intros (_ & ? & ? & ?). split; [done|]. split; [done|]. split; [set_solver|]. split; [done|].
    intros a _. apply lookup_empty.
Qed.

(** ** Lookups and the quorum *)

Lemma FindNode_spec ns id n :
  NoDup (ID <$> ns) → FindNode ns id = Some n ↔ n ∈ ns ∧ ID n = id.
Proof.
  intros Hnd. induction ns as [|m ns IH]; cbn [FindNode]; [split; [done|]; by intros [?%not_elem_of_nil _]|].
  apply NoDup_cons in Hnd as [Hm Hnd]. rewrite elem_of_cons. destruct (String.eqb_spec (ID m) id) as [<-|Hne].
  - split; [intros [= ->]; auto|]. intros [[->|Hin] Heq]; [done|]. exfalso. apply Hm.
    rewrite <-Heq. by apply list_elem_of_fmap_2.
  - rewrite (IH Hnd). split; [intros [? ?]; auto|]. intros [[->|?] ?]; done.
Qed.

Lemma peer_ids ns self : ID <$> Peers ns self = filter (λ p, p ≠ self) (ID <$> ns).
Proof.
  unfold Peers. induction ns as [|n ns IH]; [done|]. rewrite fmap_cons, !filter_cons.
  case_decide; [|done]. rewrite fmap_cons. by f_equal.
Qed.

(** The two counts of a majority agree. *)
Lemma QuorumSize_quorum ns self :
  NoDup (ID <$> ns) → self ∈ ID <$> ns → QuorumSize ns = quorum (ID <$> Peers ns self).
Proof.
  intros Hnd Hself. unfold QuorumSize, quorum. rewrite peer_ids. unfold lenN.
  pose proof (length_others self _ Hnd Hself) as Hlen. rewrite length_fmap in Hlen. rewrite Hlen.
  repeat f_equal. lia.
Qed.

(** ** What the cluster theorems assume *)

(** Nodes started from a valid configuration agree on the members. *)
Lemma validated_membership ns threshold :
  Validate ns = inr tt → Membership (ID <$> ns) (raftdConfig ns threshold).
Proof.
  intros (_ & Hn & Hnd & _)%Validate_iff. split; try done.
  - intros (n & Heq & Hin)%list_elem_of_fmap. eapply Forall_forall in Hn as [Hid _]; [|done]. by apply Hid.
  - intros i _. apply peer_ids.
Qed.

(** Strings that come out of a JSON file can go into one. *)
Definition member_names (n : Member) : Prop := text (ID n) ∧ text (RaftAddr n) ∧ text (ClientAddr n).

Lemma setMember_text n m n' : member_names n → member_text m → setMember n m = Some n' → member_names n'.
Proof.
  intros (? & ? & ?) [_ Hv]. unfold setMember.
  destruct (isField "id" m.1); [|destruct (isField "raft_addr" m.1); [|destruct (isField "client_addr" m.1);
    [|by intros [= <-]]]]; (destruct (asString _ m.2) as [s|] eqn:Hs; simpl; [|done]); intros [= <-];
    apply asString_text in Hs; done.
Qed.

Lemma fold_option {A B} (P : A → Prop) (Q : B → Prop) (f : A → B → option A) l a a' :
  (∀ x b x', P x → Q b → f x b = Some x' → P x') → P a → Forall Q l →
  foldl (λ acc b, x ← acc; f x b) (Some a) l = Some a' → P a'.
Proof.
  intros Hf Ha Hl. revert a Ha. induction Hl as [|b l Hb Hl IH]; intros a Ha; simpl; [by intros [= <-]|].
  destruct (f a b) as [x|] eqn:Hx; [|by rewrite fold_none]. apply IH. by eapply Hf.
Qed.

Lemma asMember_text prev v n : member_names prev → jtext v → asMember prev v = Some n → member_names n.
Proof.
  intros Hp Hv. destruct Hv as [| | | | |ms Hms]; simpl; try done; [by intros [= <-]|].
  apply (fold_option member_names member_text); [|done|done]. apply setMember_text.
Qed.

Lemma asMembers_text prev v ns :
  Forall member_names prev → jtext v → asMembers prev v = Some ns → Forall member_names ns.
Proof.
  intros Hp Hv. destruct Hv as [| | | |vs Hvs|]; simpl; try done; [intros [= <-]; constructor|].
  intros Hm%mapM_Some_1. apply Forall_lookup_2. intros i n Hn.
  destruct (Forall2_lookup_r _ _ _ _ _ Hm Hn) as ([j v] & Hj & Ha). simpl in Ha.
  rewrite list_lookup_imap in Hj. destruct (vs !! i) as [v'|] eqn:Hv; simplify_eq/=.
  eapply asMember_text; [|eapply Forall_lookup_1; [exact Hvs|exact Hv]|exact Ha].
  destruct (prev !! j) as [p|] eqn:Hpj; simpl; [by eapply Forall_lookup_1 in Hp|repeat constructor].
Qed.

Lemma Load_names file ns : Load file = inr ns → Validate ns = inr tt ∧ Forall member_names ns.
Proof.
  unfold Load. destruct file as [data|]; [|done]. unfold decodeStruct.
  destruct (parse data) as [v|] eqn:Hv; [|done]. apply parse_text in Hv.
  assert (∀ o, match o with None => inl ParseError | Some ns => match Validate ns with
    | inl err => inl (InvalidConfig err) | inr _ => inr ns end end = inr ns → o = Some ns ∧ Validate ns = inr tt) as Ho.
  { intros [ns'|]; [|done]. destruct (Validate ns') as [|[]] eqn:Hval; [done|]. by intros [= ->]. }
  destruct Hv as [| | | | |ms Hms]; try done; intros [Hns Hval]%Ho; (split; [done|]).
  revert Hns. apply (fold_option (Forall member_names) member_text); [|constructor|done].
  intros ns0 m ns1 H0 [_ Hm]. unfold setNodes. destruct (isField "nodes" m.1); [|by intros [= <-]].
  by apply asMembers_text.
Qed.

Lemma Load_valid_utf8 file ns i :
  Load file = inr ns → i ∈ ID <$> ns → Valid (toBytes i) = true.
Proof.
  intros [_ Hn]%Load_names (n & -> & Hin)%list_elem_of_fmap. apply Valid_utf8.
  by eapply Forall_forall in Hn as [? _].
Qed.

(** ** The address maps *)

Lemma foldl_lookup (f : Member → string) ns (m0 : gmap string string) i :
  NoDup (ID <$> ns) →
  foldl (λ m n, <[ID n := f n]> m) m0 ns !! i =
  match FindNode ns i with Some n => Some (f n) | None => m0 !! i end.
Proof.
  revert m0. induction ns as [|n ns IH]; intros m0; [done|]. rewrite fmap_cons, NoDup_cons. intros [Hn Hnd].
  cbn [foldl FindNode]. rewrite IH by done. destruct (String.eqb_spec (ID n) i) as [<-|Hne].
  - destruct (FindNode ns (ID n)) as [n'|] eqn:Hf; [|by rewrite lookup_insert_eq].
    destruct Hn. apply FindNode_spec in Hf as [Hin <-]; [|done]. by apply list_elem_of_fmap_2.
  - destruct (FindNode ns i); [done|]. by rewrite lookup_insert_ne.
Qed.

Lemma clientAddrs_lookup ns n :
  NoDup (ID <$> ns) → n ∈ ns → clientAddrs ns !! ID n = Some (ClientAddr n).
Proof.
  intros Hnd Hin. unfold clientAddrs. rewrite (foldl_lookup ClientAddr) by done.
  by rewrite (proj2 (FindNode_spec ns (ID n) n Hnd)).
Qed.

(** C30. Validation is exact: Validate accepts a list of nodes if and only if it is
    not empty, every node has an id and two addresses, no id is repeated and no
    address is used twice. *)
Theorem validate_exact ns :
  Validate ns = inr tt ↔
  ns ≠ [] ∧ Forall (λ n, ID n ≠ "" ∧ RaftAddr n ≠ "" ∧ ClientAddr n ≠ "") ns ∧
  NoDup (ID <$> ns) ∧ NoDup (addresses ns).
Proof. apply Validate_iff. Qed.

(** What an accepted file gives: the nodes of a cluster whose file Load accepted
    agree on the membership, have distinct, non-empty names in valid UTF-8, use
    the quorum the configuration states, and find every node's client address. *)
Lemma load_gives_cluster file ns threshold :
  Load file = inr ns →
  Membership (ID <$> ns) (raftdConfig ns threshold) ∧
  (∀ i, i ∈ ID <$> ns → Valid (toBytes i) = true) ∧
  (∀ self, self ∈ ID <$> ns → QuorumSize ns = quorum (CfgPeers (raftdConfig ns threshold self))) ∧
  (∀ n, n ∈ ns → FindNode ns (ID n) = Some n ∧ clientAddrs ns !! ID n = Some (ClientAddr n)).
Proof.
  intros Hl. destruct (Load_names file ns Hl) as [Hv _]. pose proof Hv as (_ & _ & Hnd & _)%Validate_iff.
  split; [by apply validated_membership|]. split; [intros i; by apply (Load_valid_utf8 file)|].
  split; [intros self Hs; by apply QuorumSize_quorum|].
  intros n Hn. split; [by apply FindNode_spec|by apply clientAddrs_lookup].
Qed.
