(* ===== verification/Rpc.v ===== *)
(** * The gRPC boundary (src/rpc/transport.go, server.go)

    The wire messages of rpc/raft.proto, the conversions between them and the
    domain types in both directions, the server adapters and the client calls.
    Marshalling and delivery (protobuf, gRPC) are parameters: a message arrives as
    it was sent, or the call fails, or the reply is lost after the handler ran.
    The theorem is that a call through the boundary is a call of the handler:
    what the raft core assumes of its Transport. *)

From S2P Require Import Prelude Types Effects Handlers.

(** ** Messages (rpc/raft.proto) *)

Record PbLogEntry := mkPbEntry { pbe_term : N; pbe_index : N; pbe_command : bytes }.

Record RequestVoteRequest := mkPbVoteReq {
  pvr_term : N; pvr_candidate_id : string; pvr_last_log_index : N; pvr_last_log_term : N
}.
Record RequestVoteResponse := mkPbVoteResp { pvp_term : N; pvp_vote_granted : bool }.

Record AppendEntriesRequest := mkPbAppendReq {
  par_term : N; par_leader_id : string; par_prev_log_index : N; par_prev_log_term : N;
  par_entries : list PbLogEntry; par_leader_commit : N
}.
Record AppendEntriesResponse := mkPbAppendResp {
  pap_term : N; pap_success : bool; pap_conflict_index : N; pap_conflict_term : N
}.

Record InstallSnapshotRequest := mkPbSnapReq {
  psr_term : N; psr_leader_id : string; psr_last_included_index : N; psr_last_included_term : N;
  psr_offset : N; psr_data : option bytes; psr_done : bool
}.
Record InstallSnapshotResponse := mkPbSnapResp { psp_term : N }.

(** ** Conversions *)

Definition entriesToProto (es : list LogEntry) : list PbLogEntry :=
  (λ e, mkPbEntry (Term e) (Index e) (Command e)) <$> es.

Definition entriesFromProto (es : list PbLogEntry) : list LogEntry :=
  (λ e, mkEntry (pbe_term e) (pbe_index e) (pbe_command e)) <$> es.

(** What Transport.RequestVote sends, and makes of the response. *)
Definition voteToProto (a : RequestVoteArgs) : RequestVoteRequest :=
  mkPbVoteReq (RVA_Term a) (RVA_CandidateID a) (RVA_LastLogIndex a) (RVA_LastLogTerm a).
Definition voteReplyFromProto (r : RequestVoteResponse) : RequestVoteReply :=
  mkRVReply (pvp_term r) (pvp_vote_granted r).

(** What Server.RequestVote passes to the node, and makes of its reply. *)
Definition voteFromProto (r : RequestVoteRequest) : RequestVoteArgs :=
  mkRVArgs (pvr_term r) (pvr_candidate_id r) (pvr_last_log_index r) (pvr_last_log_term r).
Definition voteReplyToProto (r : RequestVoteReply) : RequestVoteResponse :=
  mkPbVoteResp (RVR_Term r) (RVR_VoteGranted r).

Definition appendToProto (a : AppendEntriesArgs) : AppendEntriesRequest :=
  mkPbAppendReq (AEA_Term a) (AEA_LeaderID a) (AEA_PrevLogIndex a) (AEA_PrevLogTerm a)
    (entriesToProto (AEA_Entries a)) (AEA_LeaderCommit a).
Definition appendReplyFromProto (r : AppendEntriesResponse) : AppendEntriesReply :=
  mkAEReply (pap_term r) (pap_success r) (pap_conflict_index r) (pap_conflict_term r).

Definition appendFromProto (r : AppendEntriesRequest) : AppendEntriesArgs :=
  mkAEArgs (par_term r) (par_leader_id r) (par_prev_log_index r) (par_prev_log_term r)
    (entriesFromProto (par_entries r)) (par_leader_commit r).
Definition appendReplyToProto (r : AppendEntriesReply) : AppendEntriesResponse :=
  mkPbAppendResp (AER_Term r) (AER_Success r) (AER_ConflictIndex r) (AER_ConflictTerm r).

Definition snapshotToProto (a : InstallSnapshotArgs) : InstallSnapshotRequest :=
  mkPbSnapReq (ISA_Term a) (ISA_LeaderID a) (ISA_LastIncludedIndex a) (ISA_LastIncludedTerm a)
    (ISA_Offset a) (ISA_Data a) (ISA_Done a).
Definition snapshotReplyFromProto (r : InstallSnapshotResponse) : InstallSnapshotReply :=
  mkISReply (psp_term r).

Definition snapshotFromProto (r : InstallSnapshotRequest) : InstallSnapshotArgs :=
  mkISArgs (psr_term r) (psr_leader_id r) (psr_last_included_index r) (psr_last_included_term r)
    (psr_offset r) (psr_data r) (psr_done r).
Definition snapshotReplyToProto (r : InstallSnapshotReply) : InstallSnapshotResponse :=
  mkPbSnapResp (ISR_Term r).

(** ** Connections *)

(** A connection of grpc.NewClient; connecting comes later and is part of a call's
    outcome. *)
Record ClientConn := mkConn { conn_addr : string; conn_open : bool }.

(** [clients] gives the position in [conns] of the connection a peer's client was
    made of. *)
Record Transport := mkTransport { clients : gmap string nat; conns : list ClientConn }.

(** Close: every connection is torn down; the clients are kept. *)
Definition Close (t : Transport) : Transport :=
  mkTransport (clients t) ((λ c, mkConn (conn_addr c) false) <$> conns t).

(** One turn of NewTransport's loop; [dial] is the error of grpc.NewClient for an
    address it refuses.  After an error the turns that are left do nothing. *)
Definition addClient (dial : string → option string) (acc : Transport * option string) (p : string * string) :
    Transport * option string :=
  match acc with
  | (t, Some err) => (t, Some err)
  | (t, None) =>
    match dial p.2 with
    | Some err => (Close t, Some ("rpc: creating client for " +:+ p.1 +:+ " (" +:+ p.2 +:+ "): " +:+ err))
    | None => (mkTransport (<[p.1 := length (conns t)]> (clients t)) (conns t ++ [mkConn p.2 true]), None)
    end
  end.

(** NewTransport: a client for every peer, or the error of the first address that is
    refused, with the transport that is dropped then; Go leaves open in which
    order the map is gone through. *)
Definition NewTransport (dial : string → option string) (peerAddrs : gmap string string) :
    Transport * option string :=
  foldl (addClient dial) (mkTransport ∅ [], None) (map_to_list peerAddrs).

(** The open connection a call to [peer] uses. *)
Definition connection (t : Transport) (peer : string) : option ClientConn :=
  k ← clients t !! peer; c ← conns t !! k; if conn_open c then Some c else None.

Lemma Close_connection t peer : connection (Close t) peer = None.
Proof.
  unfold connection. simpl. destruct (clients t !! peer) as [k|]; [|done]. simpl.
  rewrite list_lookup_fmap. by destruct (conns t !! k).
Qed.

(** The clients are on connections of their own. *)
Definition wired (t : Transport) (l : list (string * string)) : Prop :=
  (∀ id k, clients t !! id = Some k → (k < length (conns t))%nat) ∧
  ∀ id, connection t id = (λ addr, mkConn addr true) <$> (list_to_map l : gmap string string) !! id.

Lemma addClient_all dial l :
  NoDup l.*1 →
  match foldl (addClient dial) (mkTransport ∅ [], None) l with
  | (t, None) => wired t l
  | (t, Some _) => (∃ p, p ∈ l ∧ is_Some (dial p.2)) ∧ Forall (λ c, conn_open c = false) (conns t)
  end.
Proof.
  induction l as [|[id addr] l IH] using rev_ind; intros Hnd; [by split|].
  rewrite foldl_snoc. rewrite fmap_app, NoDup_app in Hnd. destruct Hnd as (Hnd & Hdisj & _). specialize (IH Hnd).
  destruct (foldl _ _ l) as [t [err|]].
  { destruct IH as [(p & Hp & Hd) ?]. split; [|done]. exists p. split; [apply elem_of_app; by left|done]. }
  simpl. destruct (dial addr) as [err|] eqn:Hd.
  { split; [exists (id, addr); split; [apply elem_of_app; right; by left|by eexists]|].
    apply Forall_fmap, Forall_forall. done. }
  assert (id ∉ l.*1) as Hid by (intros Hin; destruct (Hdisj _ Hin); by left).
  destruct IH as [Hlt Hconn]. split; simpl.
  - intros id' k. rewrite length_app. simpl. intros [[-> <-]|[_ Hk]]%lookup_insert_Some; [lia|]. specialize (Hlt _ _ Hk). lia.
  - intros id'. rewrite list_to_map_app, lookup_union. cbn [list_to_map foldr]. unfold connection in *. simpl.
    specialize (Hconn id'). destruct (decide (id' = id)) as [->|Hne].
    + rewrite lookup_insert_eq. simpl. rewrite lookup_app_r, Nat.sub_diag by lia. simpl.
      by rewrite (not_elem_of_list_to_map_1 l id Hid), lookup_insert_eq.
    + rewrite !lookup_insert_ne, lookup_empty, (right_id_L None (∪)) by done.
      destruct (clients t !! id') as [k|] eqn:Hk; simpl in *; [|done]. by rewrite lookup_app_l by (by eapply Hlt).
Qed.

(** A transport has exactly the clients it was asked for, each with an open
    connection to its address.  Only a refused address prevents it, and then no
    connection stays open. *)
Lemma NewTransport_clients dial peerAddrs :
  match NewTransport dial peerAddrs with
  | (t, None) => ∀ id, connection t id = (λ addr, mkConn addr true) <$> peerAddrs !! id
  | (t, Some _) =>
    (∃ id addr, peerAddrs !! id = Some addr ∧ is_Some (dial addr)) ∧ Forall (λ c, conn_open c = false) (conns t)
  end.
Proof.
  pose proof (addClient_all dial (map_to_list peerAddrs) (NoDup_fst_map_to_list peerAddrs)) as H.
  unfold NewTransport. destruct (foldl _ _ _) as [t [err|]].
  - destruct H as [([id addr] & Hin%elem_of_map_to_list & Hd) ?]. eauto 10.
  - intros id. destruct H as [_ H]. by rewrite H, list_to_map_to_list.
Qed.

(** ** Calls *)

(** One method of the Raft service: the four conversions of its two ends. *)
Record Method (Args Reply Req Resp : Type) := mkMethod {
  toReq : Args → Req;
  fromReq : Req → Args;
  toResp : Reply → Resp;
  fromResp : Resp → Reply
}.
Arguments mkMethod {Args Reply Req Resp}.
Arguments toReq {Args Reply Req Resp}.
Arguments fromReq {Args Reply Req Resp}.
Arguments toResp {Args Reply Req Resp}.
Arguments fromResp {Args Reply Req Resp}.

Definition RequestVoteMethod := mkMethod voteToProto voteFromProto voteReplyToProto voteReplyFromProto.
Definition AppendEntriesMethod := mkMethod appendToProto appendFromProto appendReplyToProto appendReplyFromProto.
Definition InstallSnapshotMethod :=
  mkMethod snapshotToProto snapshotFromProto snapshotReplyToProto snapshotReplyFromProto.

Section calls.
Context {D SM Args Reply Req Resp : Type} (m : Method Args Reply Req Resp).
(** marshalling, delivery and unmarshalling of a request and of a response *)
Context (carryReq : Req → string + Req) (carryResp : Resp → string + Resp).

(** Server.RequestVote, AppendEntries, InstallSnapshot over the handler [h]. *)
Definition serve (h : Args → M D SM Reply) (req : Req) : M D SM Resp :=
  reply ← h (fromReq m req);
  mret (toResp m reply).

(** Transport.RequestVote, AppendEntries, InstallSnapshot: the section runs on the
    peer, whose handler is [h]; an error leaves it untouched, or is a reply that
    did not come back. *)
Definition invoke (t : Transport) (peerID : string) (h : Args → M D SM Reply)
    (args : Args) : M D SM (string + Reply) :=
  match clients t !! peerID with
  | None => mret (inl "rpc: unknown peer")
  | Some _ =>
    match connection t peerID with
    | None => mret (inl "grpc: the client connection is closing")
    | Some _ =>
      match carryReq (toReq m args) with
      | inl err => mret (inl err)
      | inr req =>
        resp ← serve h req;
        mret (match carryResp resp with inl err => inl err | inr r => inr (fromResp m r) end)
      end
    end
  end.

(** A transport that was closed calls nobody. *)
Lemma invoke_closed t peerID h args e c :
  ∃ err, invoke (Close t) peerID h args e c = Ret (inl err) c.
Proof. unfold invoke. rewrite Close_connection. destruct (clients _ !! peerID); by eexists. Qed.

(** What arrives decodes to what was sent, for the arguments [ok]. *)
Class Faithful (ok : Args → Prop) : Prop := {
  request_arrives args req : ok args → carryReq (toReq m args) = inr req → fromReq m req = args;
  response_arrives reply resp : carryResp (toResp m reply) = inr resp → fromResp m resp = reply
}.

(** A call is the handler's section, or nothing; its answer is the handler's, or
    an error. *)
Lemma invoke_transparent ok `{!Faithful ok} t peerID h args e c :
  ok args →
  (∃ err, invoke t peerID h args e c = Ret (inl err) c) ∨
  ∃ answer : Reply → string + Reply,
    (∀ r, answer r = inr r ∨ ∃ err, answer r = inl err) ∧
    invoke t peerID h args e c = (r ← h args; mret (answer r)) e c.
Proof.
  intros Hok. unfold invoke. destruct (clients t !! peerID); [|left; by eexists].
  destruct (connection t peerID); [|left; by eexists].
  destruct (carryReq (toReq m args)) as [err|req] eqn:Hreq; [left; by eexists|right].
  exists (λ r, match carryResp (toResp m r) with inl err => inl err | inr p => inr (fromResp m p) end). split.
  - intros r. destruct (carryResp (toResp m r)) as [err|resp] eqn:Hresp; [eauto|left].
    f_equal. by apply response_arrives.
  - unfold serve. rewrite (request_arrives _ _ Hok Hreq). run_m. by destruct (h args e c).
Qed.
End calls.

(** ** The three methods *)

Lemma entries_roundtrip es : entriesFromProto (entriesToProto es) = es.
Proof.
  unfold entriesFromProto, entriesToProto. rewrite <-list_fmap_compose.
  rewrite <-(list_fmap_id es) at 2. apply list_fmap_ext. by intros ? [].
Qed.

(** A wire that delivers messages unchanged. *)
Definition exact {A} (carry : A → string + A) : Prop := ∀ x y, carry x = inr y → y = x.

(** protobuf does not tell an empty bytes field from an absent one. *)
Definition normalise (r : InstallSnapshotRequest) : InstallSnapshotRequest :=
  mkPbSnapReq (psr_term r) (psr_leader_id r) (psr_last_included_index r) (psr_last_included_term r)
    (psr_offset r) (match psr_data r with Some "" => None | o => o end) (psr_done r).

Definition normalising (carry : InstallSnapshotRequest → string + InstallSnapshotRequest) : Prop :=
  ∀ x y, carry x = inr y → y = normalise x.

#[export] Instance vote_faithful cq cp :
  exact cq → exact cp → Faithful RequestVoteMethod cq cp (λ _, True).
Proof.
  intros Hq Hp. split.
  - intros [] req _ ->%Hq. done.
  - intros [] resp ->%Hp. done.
Qed.

#[export] Instance append_faithful cq cp :
  exact cq → exact cp → Faithful AppendEntriesMethod cq cp (λ _, True).
Proof.
  intros Hq Hp. split.
  - intros [] req _ ->%Hq. cbn. unfold appendFromProto, appendToProto. simpl. by rewrite entries_roundtrip.
  - intros [] resp ->%Hp. done.
Qed.

#[export] Instance snapshot_faithful cq cp :
  normalising cq → exact cp → Faithful InstallSnapshotMethod cq cp (λ a, ISA_Data a ≠ Some "").
Proof.
  intros Hq Hp. split.
  - intros [? ? ? ? ? [[|]|] ?] req Hne ->%Hq; done.
  - intros [] resp ->%Hp. done.
Qed.

Section service.
Context {D SM : Type} `{!Storage D} `{!StateMachine SM}.

(** A call that runs the handler [h] on [args], or does nothing; it answers what
    the handler answered, or an error. *)
Definition transparent {Args Reply} (h : Args → M D SM Reply) (args : Args)
    (call : M D SM (string + Reply)) : Prop :=
  ∀ e c, (∃ err, call e c = Ret (inl err) c) ∨
    ∃ answer : Reply → string + Reply,
      (∀ r, answer r = inr r ∨ ∃ err, answer r = inl err) ∧ call e c = (r ← h args; mret (answer r)) e c.

(** C31. The network boundary is transparent: over a wire that loses messages but
    does not alter them, a RequestVote, AppendEntries or InstallSnapshot sent
    through Transport and served by Server is the handler of the peer run on
    the same arguments, with the same reply, or an error.  (InstallSnapshot is
    sent with the data of a stored snapshot, which is not empty.) *)
Theorem rpc_transparent t peer cvq cvp caq cap csq csp :
  exact cvq → exact cvp → exact caq → exact cap → normalising csq → exact csp →
  (∀ args, transparent HandleRequestVote args (invoke RequestVoteMethod cvq cvp t peer HandleRequestVote args)) ∧
  (∀ args, transparent HandleAppendEntries args (invoke AppendEntriesMethod caq cap t peer HandleAppendEntries args)) ∧
  (∀ args, ISA_Data args ≠ Some "" →
     transparent HandleInstallSnapshot args (invoke InstallSnapshotMethod csq csp t peer HandleInstallSnapshot args)).
Proof.
  intros Hvq Hvp Haq Hap Hsq Hsp. split; [|split].
  - intros args e c. pose proof (vote_faithful cvq cvp Hvq Hvp). by apply (invoke_transparent _ _ _ (λ _, True)).
  - intros args e c. pose proof (append_faithful caq cap Haq Hap). by apply (invoke_transparent _ _ _ (λ _, True)).
  - intros args Hd e c. pose proof (snapshot_faithful csq csp Hsq Hsp).
    by apply (invoke_transparent _ _ _ (λ a, ISA_Data a ≠ Some "")).
Qed.
End service.
