(* ===== verification/Client.v ===== *)
(** * The command-line client (src/cmd/raftctl/main.go)

    The redirect-following loop, which node is asked when and what is reported,
    and the commands main makes of it.  The nodes and gRPC are parameters:
    [ask k addr] is what the k-th request, sent to [addr], comes back with, and
    [dial addr] the error of grpc.NewClient, if it refuses that address.  The
    deadline is the number of turns of the loop it leaves time for. *)

From S2P Require Import Prelude Types Node Bytes Json Kv KvServer ClusterConfig.

(** The outcome of one request: the call failed, the node is not the leader and
    says where it is, or it answered. *)
Inductive Reply (A : Type) :=
  | CallError (err : string)
  | Redirected (leaderAddr : string)
  | Answer (a : A).
Arguments CallError {A}.
Arguments Redirected {A}.
Arguments Answer {A}.

(** [conns] the connections, by address, and whether they are open *)
Record client := mkClient { nodes : list Member; conns : gmap string bool; leader : string; rr : nat }.

#[export] Instance eta_client : Eta client := fun r =>
  {| nodes := nodes r; conns := conns r; leader := leader r; rr := rr r |}.

(** The connection to [addr], made when there is none yet. *)
Definition kv (dial : string → option string) (c : client) (addr : string) : string + client :=
  match conns c !! addr with
  | Some _ => inr c
  | None =>
    match dial addr with
    | Some err => inl err
    | None => inr (c <| conns := <[addr := true]> (conns c) |>)
    end
  end.

Definition close (c : client) : client := c <| conns := (λ _, false) <$> conns c |>.

(** [None] is the division by zero of an empty cluster. *)
Definition nextAddr (c : client) : option (string * client) :=
  let c' := c <| rr := S (rr c) |> in
  match nodes c with
  | [] => None
  | _ => n ← nodes c !! (rr c' `mod` length (nodes c))%nat; Some (ClientAddr n, c')
  end.

(** What do returns: the client it leaves, the addresses it asked, and the answer
    or the last error; [None] is a panic. *)
Definition DoResult (A : Type) : Type := option (client * list string * (string + A)).

(** ctx.Err() once the deadline has passed *)
Definition deadlineExceeded : string := "context deadline exceeded".

Fixpoint doLoop {A} (dial : string → option string) (ask : nat → string → Reply A) (turns k : nat)
    (c : client) (addr : string) (lastErr : option string) (asked : list string) : DoResult A :=
  match turns with
  | O => Some (c, asked, inl (default deadlineExceeded lastErr +:+ " (deadline " +:+ deadlineExceeded +:+ ")"))
  | S turns' =>
    match (if String.eqb addr "" then nextAddr c else Some (addr, c)) with
    | None => None
    | Some (target, c1) =>
      match kv dial c1 target with
      | inl err => doLoop dial ask turns' k c1 "" (Some err) asked
      | inr c2 =>
        let again := doLoop dial ask turns' (S k) c2 in
        match ask k target with
        | CallError err => again "" (Some err) (asked ++ [target])
        | Redirected to => again to (Some "no leader elected yet") (asked ++ [target])
        | Answer a => Some (c2 <| leader := target |>, asked ++ [target], inr a)
        end
      end
    end
  end.

Definition do {A} (dial : string → option string) (ask : nat → string → Reply A) (turns : nat)
    (c : client) : DoResult A :=
  doLoop dial ask turns 0 c (leader c) None [].

(** The operations that put, delete and get hand to do: what they make of the
    response of the server, or of the error of the call. *)
Definition writeReply (r : string + option Redirect) : Reply unit :=
  match r with
  | inl err => CallError err
  | inr (Some to) => Redirected (LeaderAddr to)
  | inr None => Answer tt
  end.

Definition getReply (r : string + (Redirect + (string * bool))) : Reply (string * bool) :=
  match r with
  | inl err => CallError err
  | inr (inl to) => Redirected (LeaderAddr to)
  | inr (inr vf) => Answer vf
  end.

(** What gRPC makes of an address, and what the k-th call of each kind, sent to an
    address, comes back with. *)
Record Calls := mkCalls {
  callDial : string → option string;
  callPut : string → string → nat → string → string + option Redirect;
  callGet : string → nat → string → string + (Redirect + (string * bool));
  callDelete : string → nat → string → string + option Redirect;
  callStatus : nat → string → string + StatusResponse
}.

Definition put (calls : Calls) (turns : nat) (c : client) (key value : string) : DoResult unit :=
  do (callDial calls) (λ k addr, writeReply (callPut calls key value k addr)) turns c.

Definition get (calls : Calls) (turns : nat) (c : client) (key : string) : DoResult (string * bool) :=
  do (callDial calls) (λ k addr, getReply (callGet calls key k addr)) turns c.

Definition delete (calls : Calls) (turns : nat) (c : client) (key : string) : DoResult unit :=
  do (callDial calls) (λ k addr, writeReply (callDelete calls key k addr)) turns c.

(** ** The status table *)

(** What is known of a node: the error, or its own view of itself. *)
Definition Row : Type := Member * (string + StatusResponse).

(** A line of the table; the padding of the columns is left out. *)
Definition statusRow (r : Row) : list string :=
  match r with
  | (n, inl _) => [ID n; "DOWN"]
  | (_, inr s) =>
    let num k := ofBytes (printUint k) in
    [SR_NodeId s; SR_State s; num (SR_CurrentTerm s);
     if String.eqb (SR_LeaderId s) "" then "-" else SR_LeaderId s;
     num (SR_CommitIndex s); num (SR_LastApplied s);
     if SR_LastLogIndex s <? SR_FirstLogIndex s then "(snap@" +:+ num (SR_LastLogIndex s) +:+ ")"
     else "[" +:+ num (SR_FirstLogIndex s) +:+ ".." +:+ num (SR_LastLogIndex s) +:+ "]";
     num (SR_Keys s)]
  end.

Definition rowLe (p q : Row) : Prop := String.leb (ID p.1) (ID q.1) = true.

#[export] Instance rowLe_dec : RelDecision rowLe.
Proof. intros p q. unfold rowLe. apply _. Defined.

Definition statusHeader : list string := ["NODE"; "STATE"; "TERM"; "LEADER"; "COMMIT"; "APPLIED"; "LOG"; "KEYS"].

(** One turn of the loop over the nodes. *)
Definition askStatus (dial : string → option string) (status : string → string + StatusResponse)
    (acc : client * list Row) (n : Member) : client * list Row :=
  let (c, rows) := acc in
  match kv dial c (ClientAddr n) with
  | inl err => (c, rows ++ [(n, inl err)])
  | inr c' => (c', rows ++ [(n, status (ClientAddr n))])
  end.

Definition printStatus (dial : string → option string) (status : string → string + StatusResponse)
    (c : client) : client * list (list string) :=
  let (c', rows) := foldl (askStatus dial status) (c, []) (nodes c) in
  (c', statusHeader :: (statusRow <$> merge_sort rowLe rows)).

(** The tables of status -watch, until the process is killed after [refreshes] of
    them. *)
Fixpoint watchStatus (dial : string → option string) (status : nat → string → string + StatusResponse)
    (refreshes k : nat) (c : client) : client * list (list (list string)) :=
  match refreshes with
  | O => (c, [])
  | S refreshes' =>
    let (c1, table) := printStatus dial (status k) c in
    let (c2, tables) := watchStatus dial status refreshes' (S k) c1 in
    (c2, table :: tables)
  end.

(** ** The command line *)

(** What the process prints, and how it ends. *)
Inductive Ctl :=
  | Stdout (line : string)
  | Table (rows : list (list string))
  | Watched (tables : list (list (list string)))
  | Fatal (msg : string)
  | Usage
  | Panics.

(** The client main builds. *)
Definition newClient (ns : list Member) : client := mkClient ns ∅ "" 0.

(** The deferred close runs when main returns; usage and fatal exit the process
    instead, and -watch never returns. *)
Definition leave (c : client) (o : Ctl) : Ctl * client :=
  (o, match o with Stdout _ | Table _ | Panics => close c | Watched _ | Fatal _ | Usage => c end).

Definition report {A} (cmd : string) (c : client) (r : DoResult A) (k : A → Ctl) : Ctl * client :=
  match r with
  | None => leave c Panics
  | Some (c', _, inl err) => leave c' (Fatal (cmd +:+ ": " +:+ err))
  | Some (c', _, inr a) => leave c' (k a)
  end.

(** The switch of main. *)
Definition command (cli : client) (cmd : string) (args : list string) (turns refreshes : nat) (calls : Calls) :
    Ctl * client :=
  if String.eqb cmd "put" then
    match args with
    | [key; value] => report cmd cli (put calls turns cli key value) (λ _, Stdout "OK")
    | _ => leave cli Usage
    end
  else if String.eqb cmd "get" then
    match args with
    | [key] => report cmd cli (get calls turns cli key) (λ vf, if vf.2 then Stdout vf.1 else Fatal "(not found)")
    | _ => leave cli Usage
    end
  else if String.eqb cmd "delete" then
    match args with
    | [key] => report cmd cli (delete calls turns cli key) (λ _, Stdout "OK")
    | _ => leave cli Usage
    end
  else if String.eqb cmd "status" then
    match args with
    | [] => let (c, table) := printStatus (callDial calls) (callStatus calls 0) cli in leave c (Table table)
    | [opt] =>
      if String.eqb opt "-watch" then
        let (c, tables) := watchStatus (callDial calls) (callStatus calls) refreshes 0 cli in leave c (Watched tables)
      else leave cli Usage
    | _ => leave cli Usage
    end
  else leave cli Usage.

(** main, on the arguments after the flags and the contents of the configuration
    file. *)
Definition raftctl (file : option (list N)) (args : list string) (turns refreshes : nat) (calls : Calls) : Ctl :=
  match args with
  | [] => Usage
  | cmd :: rest =>
    match Load file with
    | inl _ => Fatal "invalid configuration"
    | inr ns => (command (newClient ns) cmd rest turns refreshes calls).1
    end
  end.

Lemma doLoop_S {A} dial (ask : nat → string → Reply A) turns k c addr lastErr asked :
  doLoop dial ask (S turns) k c addr lastErr asked =
  match (if String.eqb addr "" then nextAddr c else Some (addr, c)) with
  | None => None
  | Some (target, c1) =>
    match kv dial c1 target with
    | inl err => doLoop dial ask turns k c1 "" (Some err) asked
    | inr c2 =>
      match ask k target with
      | CallError err => doLoop dial ask turns (S k) c2 "" (Some err) (asked ++ [target])
      | Redirected to => doLoop dial ask turns (S k) c2 to (Some "no leader elected yet") (asked ++ [target])
      | Answer a => Some (c2 <| leader := target |>, asked ++ [target], inr a)
      end
    end
  end.
Proof. done. Qed.

(** ** What do reports *)

(** Each outcome says which address is next: the one redirected to, unless gRPC
    refuses it, or another of the ring. *)
Inductive asks {A} (dial : string → option string) (ask : nat → string → Reply A) : nat → list string → Prop :=
  | asks_nil k : asks dial ask k []
  | asks_one k a : asks dial ask k [a]
  | asks_redirect k a to rest : ask k a = Redirected to → to ≠ "" → asks dial ask (S k) (to :: rest) →
      asks dial ask k (a :: to :: rest)
  | asks_next k a b rest : (∀ to, ask k a = Redirected to → to = "" ∨ is_Some (dial to)) →
      asks dial ask (S k) (b :: rest) → asks dial ask k (a :: b :: rest).

Lemma kv_refused dial c addr err : kv dial c addr = inl err → dial addr = Some err.
Proof. unfold kv. destruct (conns c !! addr); [done|]. destruct (dial addr); [|done]. by intros [= ->]. Qed.

(** What a run of the loop from [k] on leaves. *)
Definition reported {A} dial (ask : nat → string → Reply A) (k : nat) (addr : string) (new : list string)
    (c' : client) (res : string + A) : Prop :=
  asks dial ask k new ∧
  (addr ≠ "" → ∀ a new', new = a :: new' → a = addr ∨ is_Some (dial addr)) ∧
  (∀ a, res = inr a → ∃ pre target, new = pre ++ [target] ∧
     ask (k + length pre)%nat target = Answer a ∧ leader c' = target).

Lemma reported_cons {A} dial (ask : nat → string → Reply A) k target next new c' res :
  (∀ to, ask k target = Redirected to → to = next) → (next ≠ "" → ask k target = Redirected next) →
  reported dial ask (S k) next new c' res → reported dial ask k target (target :: new) c' res.
Proof.
  intros Hto Hnext (Hasks & Hfirst & Hres). split; [|split].
  - destruct new as [|b rest]; [constructor|]. destruct (decide (next = "")) as [->|Hne].
    { apply asks_next; [|done]. intros to Hr. left. by apply Hto. }
    destruct (Hfirst Hne b rest eq_refl) as [->|?]; [by apply asks_redirect; [apply Hnext| |]|].
    apply asks_next; [|done]. intros to Hr. right. by rewrite (Hto to Hr).
  - intros _ a new' [= <- _]. by left.
  - intros a Ha. destruct (Hres a Ha) as (pre & last & -> & Hl & ?). exists (target :: pre), last.
    split; [done|]. split; [|done]. simpl. by rewrite Nat.add_succ_r.
Qed.

Lemma doLoop_asked {A} dial (ask : nat → string → Reply A) turns k c addr lastErr asked c' asked' res :
  doLoop dial ask turns k c addr lastErr asked = Some (c', asked', res) →
  ∃ new, asked' = asked ++ new ∧ reported dial ask k addr new c' res.
Proof.
  revert k c addr lastErr asked. induction turns as [|turns IH]; intros k c addr lastErr asked.
  { intros [= <- <- <-]. exists []. rewrite app_nil_r. split; [done|]. split; [constructor|]. done. }
  rewrite doLoop_S. destruct (if String.eqb addr "" then nextAddr c else Some (addr, c)) as [[target c1]|] eqn:Ht;
    [|done].
  assert (addr ≠ "" → target = addr) as Haddr.
  { intros Hne. rewrite (proj2 (String.eqb_neq _ _) Hne) in Ht. by injection Ht as <- _. }
  assert (∀ new, reported dial ask k target new c' res → reported dial ask k addr new c' res) as Hat.
  { intros new (? & Hf & ?). split; [done|]. split; [|done]. intros Hne. pose proof (Haddr Hne) as ->. by apply Hf. }
  assert (∀ next err c2, (∀ to, ask k target = Redirected to → to = next) → (next ≠ "" → ask k target = Redirected next) →
    doLoop dial ask turns (S k) c2 next err (asked ++ [target]) = Some (c', asked', res) →
    ∃ new, asked' = asked ++ new ∧ reported dial ask k addr new c' res) as Hstep.
  { intros next err c2 Hto Hnext H. destruct (IH _ _ _ _ _ H) as (new & -> & Hrep).
    exists (target :: new). split; [by rewrite <-app_assoc|]. apply Hat. by eapply reported_cons. }
  destruct (kv dial c1 target) as [err|c2] eqn:Hkv.
  { intros H. destruct (IH _ _ _ _ _ H) as (new & -> & Hasks & _ & Hres). exists new. split; [done|].
    split; [done|]. split; [|done]. intros Hne a new' _. right. rewrite <-(Haddr Hne). eexists. by eapply kv_refused. }
  destruct (ask k target) as [err|to|a] eqn:Hask.
  - by apply Hstep.
  - apply Hstep; [|done]. by intros to' [= ->].
  - intros [= <- <- <-]. exists [target]. split; [done|]. apply Hat. split; [constructor|]. split.
    + intros Hne b new' [= <- _]. by left.
    + intros b [= <-]. exists [], target. rewrite Nat.add_0_r. done.
Qed.

(** ** The leader is found *)

Lemma nextAddr_at c ns m :
  nodes c = ns → ns !! (S (rr c) `mod` length ns)%nat = Some m →
  nextAddr c = Some (ClientAddr m, c <| rr := S (rr c) |>).
Proof.
  intros <- Hm. unfold nextAddr. simpl rr. rewrite Hm. by destruct (nodes c).
Qed.

Section stable.
Context {A : Type} (dial : string → option string) (ask : nat → string → Reply A).
Context (ns : list Member) (p : nat) (n : Member).
Context (Hp : ns !! p = Some n) (Hne : ClientAddr n ≠ "") (Hdial : dial (ClientAddr n) = None).
(** node [n] answers; any other address fails, knows no leader, or points to [n] *)
Context (Hleader : ∀ k, ∃ a, ask k (ClientAddr n) = Answer a).
Context (Hothers : ∀ k b, b ≠ ClientAddr n →
  (∃ err, ask k b = CallError err) ∨ ask k b = Redirected "" ∨ ask k b = Redirected (ClientAddr n)).

Definition found (r : DoResult A) : Prop :=
  ∃ c' asked a, r = Some (c', asked, inr a) ∧ leader c' = ClientAddr n.

Lemma kv_dials c addr : dial addr = None → ∃ c', kv dial c addr = inr c' ∧ nodes c' = nodes c ∧ rr c' = rr c.
Proof. intros Hd. unfold kv. destruct (conns c !! addr); [by exists c|]. rewrite Hd. by eexists. Qed.

Lemma kv_keeps c addr c' : kv dial c addr = inr c' → nodes c' = nodes c ∧ rr c' = rr c.
Proof. unfold kv. destruct (conns c !! addr); [by intros [= ->]|]. destruct (dial addr); [done|]. by intros [= <-]. Qed.

(** A turn that asks [n] ends the loop. *)
Lemma ask_target turns k c addr c1 lastErr asked :
  (if String.eqb addr "" then nextAddr c else Some (addr, c)) = Some (ClientAddr n, c1) →
  found (doLoop dial ask (S turns) k c addr lastErr asked).
Proof.
  intros Ht. rewrite doLoop_S, Ht. destruct (kv_dials c1 _ Hdial) as (c2 & -> & _).
  destruct (Hleader k) as [a ->]. by eexists _, _, a.
Qed.

Lemma ask_leader turns k c lastErr asked :
  found (doLoop dial ask (S turns) k c (ClientAddr n) lastErr asked).
Proof. eapply ask_target. by rewrite (proj2 (String.eqb_neq _ _) Hne). Qed.

(** A turn that does not ask [n]: it goes on to [n] at once, or around the ring. *)
Lemma ask_other turns k c addr target c1 lastErr asked :
  (if String.eqb addr "" then nextAddr c else Some (addr, c)) = Some (target, c1) →
  target ≠ ClientAddr n →
  (∀ k c2 lastErr asked, nodes c2 = nodes c1 → rr c2 = rr c1 → found (doLoop dial ask (S turns) k c2 "" lastErr asked)) →
  found (doLoop dial ask (S (S turns)) k c addr lastErr asked).
Proof.
  intros Ht Hn Hring. rewrite doLoop_S, Ht. destruct (kv dial c1 target) as [err|c2] eqn:Hkv; [by apply Hring|].
  destruct (kv_keeps _ _ _ Hkv) as [Hns Hrr].
  destruct (Hothers k target Hn) as [(err & ->)|[-> | ->]]; [by apply Hring|by apply Hring|].
  apply ask_leader.
Qed.

Lemma ring d turns k c lastErr asked :
  nodes c = ns → ((rr c + S d) `mod` length ns)%nat = p → (d < turns)%nat →
  found (doLoop dial ask turns k c "" lastErr asked).
Proof.
  revert turns k c lastErr asked. induction d as [|d IH]; intros turns k c lastErr asked Hn Hd Ht.
  - destruct turns as [|turns]; [lia|]. rewrite Nat.add_1_r in Hd. rewrite <-Hd in Hp.
    eapply ask_target. by apply (nextAddr_at c ns n).
  - destruct turns as [|[|turns]]; [lia|lia|].
    pose proof (lookup_lt_Some _ _ _ Hp) as Hlen.
    destruct (lookup_lt_is_Some_2 ns (S (rr c) `mod` length ns)%nat) as [m Hm].
    { apply Nat.mod_upper_bound. lia. }
    destruct (decide (ClientAddr m = ClientAddr n)) as [Heq|Hneq].
    + eapply ask_target. rewrite <-Heq. by apply (nextAddr_at c ns m).
    + eapply ask_other; [by apply (nextAddr_at c ns m)|done|]. intros k' c2 lastErr' asked' Hn2 Hr2.
      apply IH; [by rewrite Hn2| |lia]. rewrite Hr2. simpl. rewrite <-Hd. f_equal. lia.
Qed.

(** Wherever the ring stands, a full turn comes past [n]. *)
Lemma ring_covers c turns k lastErr asked :
  nodes c = ns → (length ns ≤ turns)%nat → found (doLoop dial ask turns k c "" lastErr asked).
Proof.
  intros Hn Ht. pose proof (lookup_lt_Some _ _ _ Hp) as Hlen.
  set (r := (rr c `mod` length ns)%nat). set (d := ((p + length ns - r - 1) `mod` length ns)%nat).
  assert (r < length ns)%nat by (apply Nat.mod_upper_bound; lia).
  assert (d < length ns)%nat by (apply Nat.mod_upper_bound; lia).
  apply (ring d); [done| |lia]. rewrite <-Nat.Div0.add_mod_idemp_l. fold r.
  unfold d. destruct (decide (r + 1 ≤ p)%nat).
  - replace (p + length ns - r - 1)%nat with (p - r - 1 + 1 * length ns)%nat by lia.
    rewrite Nat.Div0.mod_add, (Nat.mod_small (p - r - 1)) by lia.
    replace (r + S (p - r - 1))%nat with p by lia. by apply Nat.mod_small.
  - rewrite (Nat.mod_small (p + length ns - r - 1)) by lia.
    replace (r + S (p + length ns - r - 1))%nat with (p + 1 * length ns)%nat by lia.
    rewrite Nat.Div0.mod_add. by apply Nat.mod_small.
Qed.
End stable.

(** ** The client against the servers *)

(** Where a node that is not the leader sends the client: nowhere when it knows no
    leader, else to the leader's address. *)
Lemma redirect_addr ns l n :
  Validate ns = inr tt → n ∈ ns → l = "" ∨ l = ID n →
  LeaderAddr (redirect (clientAddrs ns) l) = if String.eqb l "" then "" else ClientAddr n.
Proof.
  intros (_ & Hn & Hnd & _)%Validate_iff Hin Hl. unfold redirect. simpl.
  assert (ID n ≠ "") as Hid by (by eapply Forall_forall in Hn as [? _]).
  destruct Hl as [-> | ->].
  - unfold clientAddrs. rewrite (foldl_lookup ClientAddr) by done.
    destruct (FindNode ns "") as [m|] eqn:Hf; [|done].
    apply FindNode_spec in Hf as [Hm Heq]; [|done]. by eapply Forall_forall in Hn as [? _].
  - rewrite clientAddrs_lookup by done. by rewrite (proj2 (String.eqb_neq _ _) Hid).
Qed.

Lemma do_finds_leader ns n (c : client) turns dial (answer : nat → string → string + option Redirect) :
  let ask k addr := writeReply (answer k addr) in
  Validate ns = inr tt → n ∈ ns → nodes c = ns → dial (ClientAddr n) = None →
  (∀ k, answer k (ClientAddr n) = inr None) →
  (∀ k b, b ≠ ClientAddr n →
     (∃ err, answer k b = inl err) ∨
     ∃ l, (l = "" ∨ l = ID n) ∧ answer k b = writeResponse (clientAddrs ns) l (Some ErrNotLeader)) →
  (length ns < turns)%nat →
  ∃ c' asked, do dial ask turns c = Some (c', asked, inr tt) ∧ leader c' = ClientAddr n.
Proof.
  intros ask Hv Hin Hns Hdial Hlead Hother Ht. pose proof Hv as (_ & Hnamed & _ & _)%Validate_iff.
  assert (ClientAddr n ≠ "") as Hne by (eapply Forall_forall in Hnamed as (_ & _ & ?); done).
  destruct (proj1 (list_elem_of_lookup _ _) Hin) as [p Hp].
  assert (∀ k b, b ≠ ClientAddr n → (∃ err, ask k b = CallError err) ∨
    ask k b = Redirected "" ∨ ask k b = Redirected (ClientAddr n)) as Hothers.
  { intros k b Hb. unfold ask. destruct (Hother k b Hb) as [(err & ->)|(l & Hl & ->)]; [left; by exists err|right].
    unfold writeResponse. rewrite String.eqb_refl. cbn [writeReply]. rewrite (redirect_addr ns l n) by done.
    destruct (String.eqb l ""); auto. }
  assert (∀ k, ∃ a, ask k (ClientAddr n) = Answer a) as Hans
    by (intros k; exists tt; unfold ask; by rewrite Hlead).
  assert (found n (do dial ask turns c)) as (c' & asked & [] & Hdo & Hl); [|by exists c', asked].
  unfold do. destruct turns as [|[|turns]]; [lia|destruct ns; [by apply elem_of_nil in Hin|simpl in Ht; lia]|].
  destruct (decide (leader c = "")) as [->|Hlc]; [apply (ring_covers dial ask ns p n Hp Hne Hdial Hans Hothers); [done|lia]|].
  destruct (decide (leader c = ClientAddr n)) as [->|Hln]; [by apply (ask_leader dial ask n Hne Hdial Hans)|].
  eapply (ask_other dial ask n Hne Hdial Hans Hothers); [by rewrite (proj2 (String.eqb_neq _ _) Hlc)|done|].
  intros k' c2 lastErr asked Hn2 _. apply (ring_covers dial ask ns p n Hp Hne Hdial Hans Hothers); [by rewrite Hn2|lia].
Qed.

(** C32. The client finds the leader: in a cluster with a valid configuration, if one
    node answers writes and every other node fails or answers as a node that is
    not the leader does, knowing no leader or that one, then do succeeds when its
    deadline leaves time for one turn more than there are nodes, wherever its
    ring and its cached leader stand, whatever connections it has, and it
    remembers that node.  So raftctl put prints OK. *)
Theorem write_finds_leader ns n (c : client) turns calls key value :
  let answer := callPut calls key value in
  Validate ns = inr tt → n ∈ ns → nodes c = ns → callDial calls (ClientAddr n) = None →
  (∀ k, answer k (ClientAddr n) = inr None) →
  (∀ k b, b ≠ ClientAddr n →
     (∃ err, answer k b = inl err) ∨
     ∃ l, (l = "" ∨ l = ID n) ∧ answer k b = writeResponse (clientAddrs ns) l (Some ErrNotLeader)) →
  (length ns < turns)%nat →
  (∃ c' asked, put calls turns c key value = Some (c', asked, inr tt) ∧ leader c' = ClientAddr n) ∧
  ∀ file refreshes, Load file = inr ns → raftctl file ["put"; key; value] turns refreshes calls = Stdout "OK".
Proof.
  intros answer Hv Hin Hns Hdial Hlead Hother Ht. split; [by apply (do_finds_leader ns n c)|].
  intros file refreshes Hload. unfold raftctl. rewrite Hload. unfold command. simpl.
  by destruct (do_finds_leader ns n (newClient ns) turns (callDial calls) answer) as (c' & asked & Hdo & _);
    [..|unfold put; fold answer; rewrite Hdo].
Qed.

(** What do reports is what a node answered: a result it returns was given by
    the last node it asked, which it remembers as the leader, and every address
    it asked is the one the previous answer redirected it to, or one of the
    ring. *)
Lemma do_reports_answer {A} dial (ask : nat → string → Reply A) turns c c' asked a :
  do dial ask turns c = Some (c', asked, inr a) →
  ∃ pre target, asked = pre ++ [target] ∧ ask (length pre) target = Answer a ∧ leader c' = target ∧
    asks dial ask 0 asked.
Proof.
  intros H. destruct (doLoop_asked _ _ _ _ _ _ _ _ _ _ _ H) as (new & -> & Hasks & _ & Hres).
  destruct (Hres a eq_refl) as (pre & target & -> & Hans & Hl). by exists pre, target.
Qed.

(** The table has one row per node, in the order of their ids, and a row that is
    not an error is what the node answered. *)
Lemma askStatus_rows dial status ns c rows :
  let r := foldl (askStatus dial status) (c, rows) ns in
  r.2.*1 = rows.*1 ++ ns ∧
  ((∀ n s, (n, inr s) ∈ rows → status (ClientAddr n) = inr s) →
   ∀ n s, (n, inr s) ∈ r.2 → status (ClientAddr n) = inr s).
Proof.
  revert c rows. induction ns as [|n ns IH]; intros c rows; simpl; [by rewrite app_nil_r|].
  assert (∀ c' x, (∀ s, x = inr s → status (ClientAddr n) = inr s) →
    let r := foldl (askStatus dial status) (c', rows ++ [(n, x)]) ns in
    r.2.*1 = rows.*1 ++ n :: ns ∧
    ((∀ n s, (n, inr s) ∈ rows → status (ClientAddr n) = inr s) →
     ∀ n s, (n, inr s) ∈ r.2 → status (ClientAddr n) = inr s)) as Hrow.
  { intros c' x Hx r. destruct (IH c' (rows ++ [(n, x)])) as [H1 H2]. split.
    - unfold r. rewrite H1, fmap_app, <-app_assoc. done.
    - intros Hrows. apply H2. intros m s [?|[= -> <-]%list_elem_of_singleton]%elem_of_app; [by apply Hrows|by apply Hx]. }
  destruct (kv dial c (ClientAddr n)); by apply Hrow.
Qed.

Lemma printStatus_rows dial status c :
  ∃ rows, (printStatus dial status c).2 = statusHeader :: (statusRow <$> rows) ∧
    rows.*1 ≡ₚ nodes c ∧ Sorted rowLe rows ∧ ∀ n s, (n, inr s) ∈ rows → status (ClientAddr n) = inr s.
Proof.
  unfold printStatus. destruct (askStatus_rows dial status (nodes c) c []) as [H1 H2].
  destruct (foldl _ _ _) as [c' rows]. simpl in *. exists (merge_sort rowLe rows). split; [done|].
  pose proof (merge_sort_Permutation rowLe rows) as Hp. split; [by rewrite Hp, H1|]. split.
  - apply Sorted_merge_sort. intros p q. unfold rowLe. apply String.leb_total.
  - intros n s Hin. rewrite Hp in Hin. eapply H2; [|exact Hin]. by intros ? ? ?%not_elem_of_nil.
Qed.

(** ** Connections *)

(** Every connection is open while the client is in use, and none afterwards. *)
Definition all_open (c : client) : Prop := map_Forall (λ _ b, b = true) (conns c).

Lemma kv_open dial c addr c' : all_open c → kv dial c addr = inr c' → all_open c'.
Proof.
  unfold kv. intros Ho. destruct (conns c !! addr); [by intros [= <-]|]. destruct (dial addr); [done|].
  intros [= <-]. by apply map_Forall_insert_2.
Qed.

Lemma doLoop_open {A} dial (ask : nat → string → Reply A) turns k c addr lastErr asked c' asked' res :
  all_open c → doLoop dial ask turns k c addr lastErr asked = Some (c', asked', res) → all_open c'.
Proof.
  revert k c addr lastErr asked. induction turns as [|turns IH]; intros k c addr lastErr asked Ho.
  { by intros [= <- _ _]. }
  rewrite doLoop_S. destruct (if String.eqb addr "" then nextAddr c else Some (addr, c)) as [[target c1]|] eqn:Ht;
    [|done].
  assert (all_open c1) as Ho1.
  { destruct (String.eqb addr ""); [|by injection Ht as _ <-]. unfold nextAddr in Ht. simpl in Ht.
    destruct (nodes c); [done|]. destruct (_ !! _); [|done]. by injection Ht as _ <-. }
  destruct (kv dial c1 target) as [err|c2] eqn:Hkv; [by apply IH|].
  pose proof (kv_open _ _ _ _ Ho1 Hkv) as Ho2. destruct (ask k target); [by apply IH|by apply IH|].
  by intros [= <- _ _].
Qed.

Lemma printStatus_open dial status c : all_open c → all_open (printStatus dial status c).1.
Proof.
  unfold printStatus. enough (∀ ns c rows, all_open c → all_open (foldl (askStatus dial status) (c, rows) ns).1) as H.
  { intros Ho. specialize (H (nodes c) c [] Ho). by destruct (foldl _ _ _). }
  intros ns. induction ns as [|n ns IH]; intros c' rows Ho; [done|]. simpl.
  destruct (kv dial c' (ClientAddr n)) eqn:Hkv; apply IH; [done|by eapply kv_open].
Qed.

Lemma watchStatus_open dial status refreshes k c : all_open c → all_open (watchStatus dial status refreshes k c).1.
Proof.
  revert k c. induction refreshes as [|r IH]; intros k c Ho; [done|]. simpl.
  pose proof (printStatus_open dial (status k) c Ho) as H1. destruct (printStatus _ _ _) as [c1 t]. simpl in H1.
  specialize (IH (S k) c1 H1). by destruct (watchStatus _ _ _ _ _).
Qed.

(** How a command leaves the connections it made: closed when main returns, open
    when it exits. *)
Definition left_as (o : Ctl) (c : client) : Prop :=
  match o with
  | Stdout _ | Table _ | Panics => map_Forall (λ _ b, b = false) (conns c)
  | Watched _ | Fatal _ | Usage => all_open c
  end.

Lemma leave_conns c o : all_open c → left_as o (leave c o).2.
Proof.
  intros Ho. assert (map_Forall (λ _ b, b = false) (conns (close c))) as Hc.
  { intros addr b. simpl. rewrite lookup_fmap. destruct (conns c !! addr); [|done]. by intros [= <-]. }
  by destruct o.
Qed.

Lemma report_conns {A} cmd c dial (ask : nat → string → Reply A) turns k :
  all_open c → left_as (report cmd c (do dial ask turns c) k).1 (report cmd c (do dial ask turns c) k).2.
Proof.
  intros Ho. unfold report. destruct (do dial ask turns c) as [[[c' asked] res]|] eqn:Hdo; [|by apply leave_conns].
  pose proof (doLoop_open _ _ _ _ _ _ _ _ _ _ _ Ho Hdo). destruct res; by apply (leave_conns c').
Qed.

Lemma command_conns cli cmd args turns refreshes calls :
  all_open cli →
  let r := command cli cmd args turns refreshes calls in left_as r.1 r.2.
Proof.
  intros Ho r. subst r. unfold command.
  destruct (String.eqb cmd "put").
  { destruct args as [|? [|? []]]; try by apply (leave_conns cli). by apply report_conns. }
  destruct (String.eqb cmd "get").
  { destruct args as [|? []]; try by apply (leave_conns cli). by apply report_conns. }
  destruct (String.eqb cmd "delete").
  { destruct args as [|? []]; try by apply (leave_conns cli). by apply report_conns. }
  destruct (String.eqb cmd "status"); [|by apply (leave_conns cli)].
  destruct args as [|opt []].
  - pose proof (printStatus_open (callDial calls) (callStatus calls 0) cli Ho) as Hp.
    destruct (printStatus _ _ _). by apply leave_conns.
  - destruct (String.eqb opt "-watch"); [|by apply (leave_conns cli)].
    pose proof (watchStatus_open (callDial calls) (callStatus calls) refreshes 0 cli Ho) as Hp.
    destruct (watchStatus _ _ _ _ _). by apply leave_conns.
  - by apply (leave_conns cli).
Qed.

(** ** Runs *)

Definition threeNodes : list Member :=
  [mkMember "a" "a:1" "a:2"; mkMember "b" "b:1" "b:2"; mkMember "c" "c:1" "c:2"].

(** [b] leads; [a] fails, [c] has not heard of the leader yet. *)
Definition answerThree (k : nat) (addr : string) : string + option Redirect :=
  if String.eqb addr "b:2" then inr None
  else if String.eqb addr "c:2" then writeResponse (clientAddrs threeNodes) "" (Some ErrNotLeader)
  else inl "unavailable".

(** gRPC does not accept the address of [a]. *)
Definition dialThree (addr : string) : option string :=
  if String.eqb addr "a:2" then Some "invalid target" else None.

Definition callsThree : Calls :=
  mkCalls dialThree (λ _ _, answerThree) (λ _ _ _, inl "unavailable") (λ _, answerThree) (λ _ _, inl "unavailable").

Lemma write_finds_leader_witness :
  ∃ c' asked, put callsThree 4 (mkClient threeNodes {["c:2" := true]} "a:2" 1) "k" "v" = Some (c', asked, inr tt) ∧
    leader c' = "b:2".
Proof.
  refine (proj1 (write_finds_leader threeNodes (mkMember "b" "b:1" "b:2") _ 4 callsThree "k" "v" _ _ _ _ _ _ _));
    [by vm_compute| |done|done|done| |simpl; lia].
  - right. left.
  - intros k b Hb. simpl. unfold answerThree. rewrite (proj2 (String.eqb_neq b "b:2") Hb).
    destruct (String.eqb b "c:2"); [right; exists ""; auto|left; eauto].
Defined.
