(* ===== verification/Service.v ===== *)
(** * The key-value service: the cluster with its client-facing servers

    Every raftd runs a node and, on top of it, the server of src/kv/server.go:
    the server proposes to the node, and the node's applier calls the server's
    Apply.  A step of the service is a step of the cluster, with the server
    seeing the sections that concern it, or a step of a request; the server
    lives and dies with its process.  What a client is told is tied to the
    committed log here. *)

From S2P Require Import Prelude Types Effects Log Node Election Handlers Replication Hoare Contracts Terms Cluster ElectionSafety Protocol ProtocolSafety Replay LogContract Abstraction Simulation SectionSim SnapshotSim LeaderSim Refinement Safety Kv KvServer.

(** The entry a section passes to Server.Apply. *)
Definition appliedEntry (n : RaftNode Store) (act : Action) : option LogEntry :=
  match act, applier n, stateMachine n with
  | AApplier, ApApplying (e :: _) _, Some _ => Some e
  | _, _, _ => None
  end.

(** What the server of a node makes of a section of the node: a request called
    Propose, the applier called Apply, or nothing. *)
Definition observes (n : RaftNode Store) (act : Action) (a : Answer) (v v' : Server) : Prop :=
  match act, a with
  | APropose data, ProposeAnswer res =>
    ∃ r cmd, Encode cmd = inr data ∧ requests v !! r = None ∧ v' = submit r cmd res v
  | _, _ =>
    match appliedEntry n act with
    | Some e => fire e v = Some v'
    | None => v' = v
    end
  end.

(** The events of a request that do not involve the node. *)
Definition internal (ev : Event) : bool :=
  match ev with EvSubmit _ _ _ | EvFire _ => false | EvRegister _ | EvReceive _ | EvGiveUp _ _ => true end.

(** The command of a request. *)
Definition cmdOf (rq : Request) : KvCommand :=
  match rq with Proposed cmd _ _ | Waiting cmd _ _ | Answered cmd _ _ => cmd end.

Record World (D : Type) := mkWorld {
  w_cluster : Cluster D Store;
  w_servers : string → Server
}.
Arguments mkWorld {D}.
Arguments w_cluster {D}.
Arguments w_servers {D}.

Section service.
Context {D : Type} `{!Storage D} `{!StateStoreSpec D} `{!LogStoreSpec D}.
Context (members : list string) (cfgOf : string → Config) (d0 : string → D).
Context (allow : RaftNode Store → Action → bool).
Implicit Types (s : PState) (n : RaftNode Store) (c : Cluster D Store) (w : World D).

Inductive wstep w : World D → Prop :=
| w_act i n act e a x v' :
    let c := w_cluster w in
    p_node (procs c i) = Some n → enabled c i n act → allow n act = true →
    runAction act e (mkCtx n (p_disk (procs c i)) [] []) = Ret a x →
    observes n act a (w_servers w i) v' →
    wstep w (mkWorld (deliver c i act a x) (<[i := v']> (w_servers w)))
| w_event i n ev v' :
    p_node (procs (w_cluster w) i) = Some n → internal ev = true →
    srv_step ev (w_servers w i) = Some v' →
    wstep w (mkWorld (w_cluster w) (<[i := v']> (w_servers w)))
| w_boot i n d :
    let c := w_cluster w in
    let c' := c <| procs := <[i := mkProc (Some n) d]> (procs c) |> in
    p_node (procs c i) = None → step members cfgOf genesis allow c c' →
    wstep w (mkWorld c' (<[i := NewServer]> (w_servers w)))
| w_down i d :
    step members cfgOf genesis allow (w_cluster w) (down (w_cluster w) i d) →
    wstep w (mkWorld (down (w_cluster w) i d) (<[i := NewServer]> (w_servers w))).

Inductive served : World D → Prop :=
| served_initial : served (mkWorld (initial d0) (λ _, NewServer))
| served_step w w' : served w → in_range (w_cluster w) → wstep w w' → served w'.

(** The service continued. *)
Definition wlater : relation (World D) := rtc (λ w w', in_range (w_cluster w) ∧ wstep w w').

(** The cluster under the service moves as clusters do, or not at all. *)
Lemma wstep_cluster w w' :
  wstep w w' → w_cluster w' = w_cluster w ∨ step members cfgOf genesis allow (w_cluster w) (w_cluster w').
Proof. destruct 1; simpl; [right; by eapply step_act|by left|by right|by right]. Qed.

Lemma served_reachable w :
  served w → reachable members cfgOf genesis d0 allow (w_cluster w).
Proof.
  induction 1 as [|w w' _ IH Hr Hst]; [constructor|].
  destruct (wstep_cluster w w' Hst) as [->|Hs]; [done|]. by eapply reachable_step.
Qed.

(** ** What Propose tells its caller *)

(** The node still leads, in the term it answered, and its log ends in the entry
    at the index it answered. *)
Lemma propose_answer (x0 : Ctx D Store) cmd :
  hoare (λ x, x = x0) (Propose cmd)
    (λ r x, ∀ idx t, r = inr (idx, t) →
       state (rn x) = Leader ∧ currentTerm (rn x) = t ∧ log (rn x) = log (rn x0) ++ [mkEntry t idx cmd])
    (λ _, True).
Proof.
  unfold Propose. apply hoare_get_at.
  destruct (bool_decide_reflect (state (rn x0) = Leader)) as [Hlead|]; simpl; [|by apply hoare_ret].
  eapply hoare_bind with (R := λ _ x, x = x0); [by apply hoare_index|]. intros last.
  set (e := mkEntry (currentTerm (rn x0)) (last +w 1) cmd).
  pose (J := λ x : Ctx D Store, state (rn x) = Leader ∧ currentTerm (rn x) = currentTerm (rn x0) ∧ log (rn x) = log (rn x0) ++ [e]).
  eapply hoare_bind with (R := λ _, J).
  { unfold appendLogLocked. apply hoare_get_at.
    eapply hoare_bind with (R := λ _ x, rn x = rn x0).
    - apply hoare_when; [|by intros _ x ->]. intros _. apply hoare_must. intros x ->. simpl. by case_match.
    - intros ?. apply hoare_modify. intros x Hx. unfold J. simpl. by rewrite Hx. }
  intros ?. eapply hoare_bind with (R := λ _, J).
  { assert (∀ f, (∀ x, J x → J (x <| rn := f (rn x) |>)) → keeps J (λ _, True) (modify f)) as Hf.
    { intros f Hf. apply hoare_modify. exact Hf. }
    assert (keeps J (λ _, True) (emit Signal)) as Hsig by (by apply hoare_emit).
    unfold advanceCommitIndexLocked. keeps_auto. }
  intros ?. eapply hoare_bind with (R := λ _, J); [by apply hoare_modify|].
  intros ?. apply hoare_ret. intros x (? & ? & ?) idx t [= <- <-]. done.
Qed.

(** ** Requests against the protocol *)

Context `{!Membership members cfgOf} (Hnames : ∀ i, i ∈ members → name_ok i = true).
Context (Hfits : ∀ n act, allow n act = true → admits n act = true).
Local Abbreviation Rel := (Rel members).

(** The leader of [t] has the command at [idx], as an entry of its own term. *)
Definition proposedAt s (cmd : KvCommand) (idx t : N) : Prop :=
  ∃ L k e, ll s t = Some L ∧ L !! k = Some e ∧ idx = N.of_nat k + 1 ∧ Term e = t ∧
           Encode cmd = inr (Command e).

Lemma proposedAt_grows s s' cmd idx t : grows s s' → proposedAt s cmd idx t → proposedAt s' cmd idx t.
Proof.
  intros Hg (L & k & e & HL & He & Hi & Ht & Hcmd). destruct (grows_evolves _ _ Hg) as (Hll & _).
  destruct (Hll t L HL) as (L' & HL' & Hag). exists L', k, e. rewrite <-Hag by (apply lookup_lt_Some in He; lia).
  done.
Qed.

Lemma committed_entry_grows s s' k e : grows s s' → cl s !! k = Some e → cl s' !! k = Some e.
Proof.
  intros Hg Hk. destruct (grows_evolves _ _ Hg) as (_ & Hcl & _).
  rewrite <-Hcl; [done|lia|]. by apply lookup_lt_Some in Hk.
Qed.

(** A node that leads with [e] at the end of its log. *)
Lemma leader_proposed c s i n l cmd idx t :
  Rel c s → p_node (procs c i) = Some n → state n = Leader → currentTerm n = t → l ≠ [] →
  ∀ data, log n = l ++ [mkEntry t idx data] → Encode cmd = inr data → proposedAt s cmd idx t.
Proof.
  intros HR Hn Hlead Ht Hl data Hlog Hcmd. pose proof (R_core _ _ _ _ HR i n Hn) as Hc.
  pose proof (R_role _ _ _ _ HR i n Hn ltac:(done)) as Hrole. unfold role_rep in Hrole. rewrite Hlead in Hrole.
  destruct Hrole as (HL & _). rewrite <-(nc_term _ _ _ _ Hc), Ht in HL.
  rewrite (nc_log _ _ _ _ Hc) in Hlog. destruct l as [|sent l]; [done|]. injection Hlog as _ Hdrop.
  set (f := pfloor (pn s i)) in *.
  assert (plog (pn s i) !! (f + length l)%nat = Some (mkEntry t idx data)) as He.
  { rewrite <-lookup_drop, Hdrop. by apply list_lookup_middle. }
  destruct (I_wf _ s (R_inv _ _ _ _ HR) t _ _ _ HL He) as (_ & Hidx & _).
  exists (plog (pn s i)), (f + length l)%nat, (mkEntry t idx data). done.
Qed.

(** What the applier is about to apply is committed. *)
Lemma appliedEntry_committed c s i n act e :
  Rel c s → p_node (procs c i) = Some n → appliedEntry n act = Some e → ∃ k, cl s !! k = Some e.
Proof.
  intros HR Hn. unfold appliedEntry. destruct act; try done.
  destruct (applier n) as [| | |[|e' todo] k|] eqn:Hap; try done. destruct (stateMachine n); try done. intros [= ->].
  pose proof (nc_applying _ _ _ _ (R_core _ _ _ _ HR i n Hn)) as Happ.
  destruct (applying_running s n Happ) as [_ Hini]; [by rewrite Hap|].
  destruct Happ as (_ & _ & Hrep & _). rewrite Hini in Hrep. unfold applier_rep in Hrep. rewrite Hap in Hrep.
  destruct Hrep as (_ & _ & _ & Htodo).
  match type of Htodo with _ = drop ?j (take ?m _) => exists j; set (j0 := j) in *; set (m0 := m) in * end.
  assert (drop j0 (take m0 (cl s)) !! 0%nat = Some e) as He by (by rewrite <-Htodo).
  rewrite lookup_drop, Nat.add_0_r in He. apply lookup_take_Some in He as [He _]. done.
Qed.

(** ** The invariant of the service *)

(** Every request that was given an index has its command there in the log of
    that term's leader; every entry the server applied is committed. *)
Record server_rep s (v : Server) : Prop := {
  V_inv : srv_inv v;
  V_given r rq idx t : requests v !! r = Some rq → given rq = Some (idx, t) → proposedAt s (cmdOf rq) idx t;
  V_applied e : e ∈ applied v → ∃ k, cl s !! k = Some e
}.

Lemma server_rep_new s : server_rep s NewServer.
Proof. split; simpl; [apply srv_inv_init|done|by intros e ?%elem_of_nil]. Qed.

Lemma server_rep_grows s s' v : grows s s' → server_rep s v → server_rep s' v.
Proof.
  intros Hg [HI Hgv Hap]. split; [done| |].
  - intros. eapply proposedAt_grows; eauto.
  - intros e He. destruct (Hap e He) as [k Hk]. exists k. by eapply committed_entry_grows.
Qed.

(** A step of the server that gives no request an index and applies nothing. *)
Lemma server_rep_quiet s v v' :
  server_rep s v → srv_inv v' → applied v' = applied v →
  (∀ r rq', requests v' !! r = Some rq' → given rq' = None ∨
     ∃ rq, requests v !! r = Some rq ∧ given rq' = given rq ∧ cmdOf rq' = cmdOf rq) →
  server_rep s v'.
Proof.
  intros [_ Hgv Hap] HI Happ Hreq. split; [done| |by rewrite Happ].
  intros r rq' idx t Hr Hg. destruct (Hreq r rq' Hr) as [?|(rq & Hrq & Hg' & ->)]; [congruence|].
  apply (Hgv r); [done|congruence].
Qed.

Lemma server_rep_internal s v v' ev :
  server_rep s v → internal ev = true → srv_step ev v = Some v' → server_rep s v'.
Proof.
  intros Hv Hint Hst. pose proof (srv_inv_step v v' ev (V_inv _ _ Hv) Hst) as HI.
  assert (∀ r0 rq0 rq0', requests v !! r0 = Some rq0 →
    requests v' = <[r0 := rq0']> (requests v) → given rq0' = given rq0 → cmdOf rq0' = cmdOf rq0 →
    applied v' = applied v → server_rep s v') as Hupd.
  { intros r0 rq0 rq0' Hr0 Hreq Hg Hc Hap. eapply server_rep_quiet; [exact Hv|done|done|].
    intros r rq'. rewrite Hreq. destruct (decide (r0 = r)) as [<-|Hne]; simplify_map_eq; [|eauto].
    intros [= <-]. eauto. }
  destruct ev as [| r| |r|r err]; try done; simpl in Hst.
  - unfold register in Hst. destruct (requests v !! r) as [[cmd i t| |]|] eqn:Hr; try done.
    destruct (waiters v !! i) as [old|] eqn:Hw; simpl in Hst.
    + rewrite (send_waiter v i old) in Hst by (done || apply (V_inv _ _ Hv)). injection Hst as <-. by eapply Hupd.
    + injection Hst as <-. by eapply Hupd.
  - unfold receive in Hst. destruct (requests v !! r) as [[|cmd i t|]|] eqn:Hr; try done.
    destruct (channels v !! r) as [[res|]|]; try done. injection Hst as <-. by eapply Hupd.
  - unfold giveUp in Hst. destruct (requests v !! r) as [[|cmd i t|]|] eqn:Hr; try done.
    injection Hst as <-. by eapply Hupd.
Qed.

Lemma server_rep_fire s v v' e :
  server_rep s v → fire e v = Some v' → (∃ k, cl s !! k = Some e) → server_rep s v'.
Proof.
  intros Hv Hf He. destruct (srv_inv_fire v e (V_inv _ _ Hv)) as (v1 & Hf1 & HI). assert (v1 = v') as -> by congruence.
  assert (requests v' = requests v ∧ applied v' = applied v ++ [e]) as [Hr Ha].
  { clear HI Hf1. unfold fire, fireWaiter in Hf. destruct (waiters v !! Index e) as [w|]; simpl in Hf; [|by injection Hf as <-].
    unfold send in Hf. simpl in Hf. destruct (channels v !! w_req w) as [[|]|]; try done. by injection Hf as <-. }
  split; [done|rewrite Hr; apply (V_given _ _ Hv)|]. rewrite Ha.
  intros e' [?| ->%list_elem_of_singleton]%elem_of_app; [by apply (V_applied _ _ Hv)|done].
Qed.

Lemma server_rep_submit s v r cmd res :
  server_rep s v → requests v !! r = None →
  (∀ idx t, res = inr (idx, t) → proposedAt s cmd idx t) → server_rep s (submit r cmd res v).
Proof.
  intros Hv Hr Hres. split; [by apply srv_inv_submit; [apply (V_inv _ _ Hv)|]| |exact (V_applied _ _ Hv)].
  intros r' rq idx t. unfold submit. simpl. destruct (decide (r = r')) as [<-|Hne]; simplify_map_eq; [|by apply (V_given _ _ Hv)].
  destruct (Encode cmd); [intros [= <-]; done|]. destruct res as [err|[idx' t']]; intros [= <-] [= <- <-].
  by apply Hres.
Qed.

Definition service_rep w s : Prop :=
  Rel (w_cluster w) s ∧ election_inv members (w_cluster w) ∧ ∀ i, server_rep s (w_servers w i).

Lemma servers_update s (f : string → Server) i v :
  (∀ j, server_rep s (f j)) → server_rep s v → ∀ j, server_rep s (<[i := v]> f j).
Proof.
  intros Hf Hv j. destruct (decide (j = i)) as [->|]; [by rewrite fn_lookup_insert|by rewrite fn_lookup_insert_ne].
Qed.

(** What a section of the node does to its server. *)
Lemma observed c s s' i n act e a x v v' :
  Rel c s → Rel (deliver c i act a x) s' → grows s s' → p_node (procs c i) = Some n →
  runAction act e (mkCtx n (p_disk (procs c i)) [] []) = Ret a x →
  observes n act a v v' → server_rep s v → server_rep s' v'.
Proof.
  intros HR HR' Hg Hn Hrun Hobs Hv. pose proof (server_rep_grows s s' v Hg Hv) as Hv'.
  assert (match appliedEntry n act with Some e => fire e v = Some v' | None => v' = v end → server_rep s' v') as Hother.
  { destruct (appliedEntry n act) as [e0|] eqn:Hap; [|by intros ->]. intros Hf.
    apply (server_rep_fire s' v v' e0); [done|done|].
    destruct (appliedEntry_committed c s i n act e0 HR Hn Hap) as [k Hk]. exists k. by eapply committed_entry_grows. }
  unfold observes in Hobs. destruct act as [| | | | | | | | | | | | |data]; try (by apply Hother).
  destruct a as [| | | |res]; try (by apply Hother).
  destruct Hobs as (r & cmd & Henc & Hr & ->). apply server_rep_submit; [done|done|].
  intros idx t ->. simpl in Hrun. unfold mbind, m_mbind, m_bind in Hrun.
  destruct (Propose data e _) as [res x'|] eqn:Hp; [|done]. injection Hrun as -> ->.
  destruct (hoare_Ret _ _ _ _ _ _ _ _ (propose_answer _ data) eq_refl Hp idx t eq_refl) as (Hlead & Ht & Hlog).
  simpl in Hlog. eapply (leader_proposed _ s' i (rn x)); [exact HR'| |done|done| |exact Hlog|done].
  - simpl. by rewrite fn_lookup_insert.
  - by rewrite (nc_log _ _ _ _ (R_core _ _ _ _ HR i n Hn)).
Qed.

Lemma service_rep_step w w' s :
  service_rep w s → in_range (w_cluster w) → wstep w w' → ∃ s', grows s s' ∧ service_rep w' s'.
Proof.
  intros (HR & HE & Hv) Hrange Hst.
  assert (∀ c', step members cfgOf genesis allow (w_cluster w) c' →
    ∃ s', grows s s' ∧ Rel c' s' ∧ election_inv members c' ∧ ∀ i, server_rep s' (w_servers w i)) as Hmove.
  { intros c' Hs. destruct (step_refines members cfgOf allow Hnames Hfits _ c' s HR HE Hrange Hs) as (s' & Hs' & HR').
    pose proof (steps_facts members s s' (R_inv _ _ _ _ HR) Hs') as Hg. exists s'. split; [done|]. split; [done|].
    split; [by eapply (election_inv_step members cfgOf genesis allow Hnames)|].
    intros i. by eapply server_rep_grows. }
  destruct Hst as [i n act e a x v' c Hn Hen Hal Hrun Hobs|i n ev v' Hn Hint Hev|i n d c c' Hn Hs|i d Hs].
  - destruct (Hmove (deliver c i act a x)) as (s' & Hg & HR' & HE' & Hv'); [by eapply step_act|].
    exists s'. split; [done|]. split; [done|]. split; [done|]. simpl. apply servers_update; [done|]. by apply (observed c s s' i n act e a x (w_servers w i)).
  - exists s. split; [done|]. split; [done|]. split; [done|]. apply servers_update; [done|]. by eapply server_rep_internal.
  - destruct (Hmove c' Hs) as (s' & Hg & HR' & HE' & Hv'). exists s'. split; [done|]. split; [done|]. split; [done|].
    apply servers_update; [done|apply server_rep_new].
  - destruct (Hmove _ Hs) as (s' & Hg & HR' & HE' & Hv'). exists s'. split; [done|]. split; [done|]. split; [done|].
    apply servers_update; [done|apply server_rep_new].
Qed.

Lemma service_rep_later w w' s :
  service_rep w s → wlater w w' → ∃ s', grows s s' ∧ service_rep w' s'.
Proof.
  intros HS Hl. revert s HS. induction Hl as [w|w w1 w' [Hrange Hst] _ IH]; intros s HS; [by exists s|].
  destruct (service_rep_step w w1 s HS Hrange Hst) as (s1 & Hg & HS1).
  destruct (IH s1 HS1) as (s' & Hg' & HS'). exists s'. split; [by etrans|done].
Qed.

Context (Hd0 : ∀ i, survives (d0 i)) (Hd0h : ∀ i, hard (d0 i) = zeroHardState).
Context (Hd0r : ∀ i, records (d0 i) = []) (Hd0s : ∀ i, snapOf (d0 i) = None).

Lemma served_rep w : served w → ∃ s, service_rep w s.
Proof.
  induction 1 as [|w w' _ [s HS] Hrange Hst].
  - exists pinit. split; [by apply rel_initial|]. split; [by apply election_inv_initial|].
    intros i. apply server_rep_new.
  - destruct (service_rep_step w w' s HS Hrange Hst) as (s' & _ & ?). by exists s'.
Qed.

(** A request answered with success has its command in the committed log. *)
Lemma answered_committed w s i r cmd g :
  service_rep w s → requests (w_servers w i) !! r = Some (Answered cmd g None) →
  ∃ k e, cl s !! k = Some e ∧ Encode cmd = inr (Command e) ∧ g = Some (Index e, Term e).
Proof.
  intros (HR & _ & Hv) Hr. specialize (Hv i).
  destruct (inv_answered _ (V_inv _ _ Hv) r cmd g Hr) as (rq & idx & t & e & Hrq & Hg & He & Hi & Ht).
  rewrite Hr in Hrq. injection Hrq as <-. destruct (V_applied _ _ Hv e He) as [k Hk].
  destruct (V_given _ _ Hv r _ idx t Hr Hg) as (L & k' & e' & HL & He' & Hidx & Ht' & Hcmd).
  destruct (cl_entry _ s (R_inv _ _ _ _ HR) k e Hk) as (Hik & L' & HL' & HeL). simpl in Hg, Hcmd.
  assert (k' = k) as -> by lia. rewrite Ht in HL'. assert (L' = L) as -> by congruence.
  assert (e' = e) as -> by congruence. exists k, e. split; [done|]. split; [done|]. congruence.
Qed.

(** ... from then on. *)
Lemma answered_later w w' i r cmd g :
  served w → wlater w w' → requests (w_servers w i) !! r = Some (Answered cmd g None) →
  ∃ s k e, Rel (w_cluster w') s ∧ cl s !! k = Some e ∧ Index e = N.of_nat (S k) ∧
    Encode cmd = inr (Command e) ∧ g = Some (Index e, Term e).
Proof.
  intros Hw Hl Hr. destruct (served_rep w Hw) as [s HS].
  destruct (answered_committed w s i r cmd g HS Hr) as (k & e & Hk & Hcmd & Hg).
  destruct (service_rep_later w w' s HS Hl) as (s' & Hgr & HR' & _). pose proof (committed_entry_grows s s' k e Hgr Hk) as Hk'.
  destruct (cl_entry _ s' (R_inv _ _ _ _ HR') k e Hk') as (Hidx & _).
  exists s', k, e. split; [done|]. split; [done|]. split; [lia|done].
Qed.

(** C7. A write the client was told succeeded is never lost: when a server
    answered a Put or Delete with success, then from there on, whatever
    crashes and leader changes follow, the command is an entry of the one log
    that all live nodes commit and apply prefixes of, the answer's index and
    term are that entry's, and the disks of a majority keep it. *)
Theorem acknowledged_write w w' i r cmd g :
  served w → wlater w w' → requests (w_servers w i) !! r = Some (Answered cmd g None) →
  ∃ CL e, Encode cmd = inr (Command e) ∧ g = Some (Index e, Term e) ∧
    0 < Index e ∧ CL !! (N.to_nat (Index e) - 1)%nat = Some e ∧
    (∀ j n, p_node (procs (w_cluster w') j) = Some n → follows_log CL n) ∧
    ∃ Q, NoDup Q ∧ Q ⊆ members ∧ (length members < 2 * length Q)%nat ∧
         ∀ q, q ∈ Q → keepsEntry (SM := Store) (p_disk (procs (w_cluster w') q)) (Index e) e.
Proof.
  intros Hw Hl Hr. destruct (answered_later w w' i r cmd g Hw Hl Hr) as (s & k & e & HR & Hk & Hidx & Hcmd & Hg).
  exists (cl s), e. split; [done|]. split; [done|]. split; [lia|].
  split; [by replace (N.to_nat (Index e) - 1)%nat with k by lia|].
  split; [intros j n; by apply (node_follows members)|].
  rewrite Hidx. by apply (cl_durable members _ s).
Qed.
End service.
