(* ===== verification/ServiceProgress.v ===== *)
(** * The service makes progress

    What Progress shows of the cluster, carried to the service: the sections of
    an election and of replication are invisible to the servers, the applier
    calls them, and a request that was submitted and registered before its entry
    is applied is answered with success. *)

From S2P Require Import Prelude Types Effects Log Node Election Handlers Replication Hoare Contracts Terms Cluster ElectionSafety Protocol ProtocolSafety Replay LogContract Abstraction Simulation SectionSim SnapshotSim LeaderSim Refinement Safety Progress Kv KvServer Service.

Section service_progress.
Context {D : Type} `{!Storage D} `{!StateStoreSpec D} `{!LogStoreSpec D}.
Context (members : list string) (cfgOf : string → Config) (d0 : string → D).
Context `{!Membership members cfgOf} (Hnames : ∀ i, i ∈ members → name_ok i = true).
Context (Hd0 : ∀ i, survives (d0 i)) (Hd0h : ∀ i, hard (d0 i) = zeroHardState).
Context (Hd0r : ∀ i, records (d0 i) = []) (Hd0s : ∀ i, snapOf (d0 i) = None).
Implicit Types (s : PState) (n j : RaftNode Store) (c : Cluster D Store) (w : World D).
Local Abbreviation served := (served members cfgOf d0 admits).
Local Abbreviation wlater := (wlater members cfgOf admits).
Local Abbreviation Rel := (Rel members).

Lemma wlater_once w w' :
  served w → in_range (w_cluster w) → wstep members cfgOf admits w w' → wlater w w' ∧ served w'.
Proof. intros Hw Hr Hst. split; [by apply rtc_once|by eapply served_step]. Qed.

Lemma served_server w i : served w → srv_inv (w_servers w i).
Proof.
  intros Hw. destruct (served_rep members cfgOf d0 admits Hnames (λ _ _ H, H) Hd0 Hd0h Hd0r Hd0s w Hw) as (s & _ & _ & Hv).
  apply (V_inv _ _ (Hv i)).
Qed.

(** ** Sections the servers do not see *)

Lemma lift_silent w c' :
  served w → rtc (acts silent) (w_cluster w) c' →
  ∃ w', wlater w w' ∧ served w' ∧ w_cluster w' = c' ∧ ∀ i, w_servers w' i = w_servers w i.
Proof.
  intros Hw Hacts. remember (w_cluster w) as c eqn:Hc. revert w Hw Hc.
  induction Hacts as [c|c c1 c2 (Hr & i & n & act & e & a & x & Hsil & Hn & Hen & Had & Hrun & ->) _ IH]; intros w Hw ->.
  { exists w. split; [apply rtc_refl|done]. }
  set (w1 := mkWorld (deliver (w_cluster w) i act a x) (<[i := w_servers w i]> (w_servers w))).
  assert (wstep members cfgOf admits w w1) as Hst by (eapply w_act; eauto; by destruct act).
  destruct (wlater_once w w1 Hw Hr Hst) as [Hl1 Hw1].
  destruct (IH w1 Hw1 eq_refl) as (w2 & Hl2 & Hw2 & Hc2 & Hs2). exists w2. split; [by etrans|]. split; [done|]. split; [done|].
  intros q. rewrite Hs2. simpl. destruct (decide (q = i)) as [->|]; [by rewrite fn_lookup_insert|by rewrite fn_lookup_insert_ne].
Qed.

(** ** The applier *)

(** How far the state machine is, and the snapshots that are to be restored. *)
Definition position n : N :=
  match applier n with ApApplying todo k => lastApplied n + k - lenN todo | _ => lastApplied n end.
Definition parked n (sn : Snapshot) : Prop := pendingSnapshot n = Some sn ∨ applier n = ApRestoring sn.

(** What a step of the applier does: nothing but its own, applying the next entry,
    or none, and then its position stays, unless it restores a snapshot. *)
Definition applier_moved s n n' : Prop :=
  only_applied n n' ∧ (∀ sn, parked n' sn → parked n sn) ∧
  match appliedEntry n AApplier with
  | Some e => cl s !! N.to_nat (position n) = Some e ∧ position n' = position n + 1
  | None => position n' = position n ∨ ∃ sn, parked n sn ∧ position n' = LastIncludedIndex sn
  end.

Lemma applier_stays s n n' :
  appliedEntry n AApplier = None → only_applied n n' → position n' = position n →
  (∀ sn, parked n' sn → parked n sn) → applier_moved s n n'.
Proof. intros Hn ? ? ?. split; [done|]. split; [done|]. rewrite Hn. by left. Qed.

Ltac only_applier n := 
  match goal with |- only_applied _ ?n' =>
    exists (stateMachine n'), (lastApplied n'), (applier n'), (pendingSnapshot n'); by destruct n
  end.

Lemma wake_moves s n e (d : D) a x :
  applier n = ApWaiting → applierWake e (mkCtx n d [] []) = Ret a x → applier_moved s n (rn x).
Proof.
  intros Hap. assert (appliedEntry n AApplier = None) as Hnone by (unfold appliedEntry; by rewrite Hap).
  assert (position n = lastApplied n) as Hpos by (unfold position; by rewrite Hap).
  assert (applier_moved s n n) as Hstay by (apply applier_stays; try done; apply only_applied_refl).
  assert (applier_moved s n (n <| applier := ApOff |>)) as Hoff.
  { apply applier_stays; [done|only_applier n|by rewrite Hpos|]. intros sn [?|?]; [by left|done]. }
  unfold applierWake. run_m. destruct (pendingSnapshot n) as [sn|] eqn:Hp.
  - destruct (stopped n); [by intros [= _ <-]|].
    destruct (_ <? _); intros [= _ <-]; (apply applier_stays; [done|simpl; only_applier n|done|]).
    + intros sn' [?|[= <-]]; [done|by left].
    + intros sn' [?|?]; [done|by right].
  - destruct (_ && _); [by intros [= _ <-]|]. destruct (stopped n); [by intros [= _ <-]|].
    destruct (entriesFrom _ _) as [tl|]; [|done]. destruct (slice_to _ _) as [batch|]; [|done]. intros [= _ <-].
    apply applier_stays; [done|simpl; only_applier n|rewrite Hpos; unfold position; simpl; lia|]. intros sn' [?|?]; [by left|done].
Qed.

Lemma restore_moves s n sn e (d : D) a x :
  applier n = ApRestoring sn → applierRestore sn e (mkCtx n d [] []) = Ret a x → applier_moved s n (rn x).
Proof.
  intros Hap. assert (appliedEntry n AApplier = None) as Hnone by (unfold appliedEntry; by rewrite Hap).
  unfold applierRestore. run_m. destruct (stateMachine n); [|done]. destruct (Restore _ _); [done|]. intros [= _ <-].
  split; [simpl; only_applier n|]. split; [intros sn' [?|?]; [by left|done]|]. rewrite Hnone. right. exists sn. split; [by right|done].
Qed.

Lemma batch_moves s n k e (d : D) a x :
  applier n = ApApplying [] k → lastApplied n + k < u64_size →
  (modify (λ n, n <| lastApplied := lastApplied n +w k |> <| applier := ApWaiting |>) ;; maybeSnapshotLocked)
    e (mkCtx n d [] []) = Ret a x →
  applier_moved s n (rn x).
Proof.
  intros Hap Hk. assert (appliedEntry n AApplier = None) as Hnone by (unfold appliedEntry; by rewrite Hap).
  assert (position n = lastApplied n + k) as Hpos by (unfold position; rewrite Hap; unfold lenN; simpl; lia).
  assert (∀ ap, (∀ sn, ap ≠ ApRestoring sn) → (∀ todo k, ap ≠ ApApplying todo k) →
    applier_moved s n (n <| lastApplied := lastApplied n + k |> <| applier := ap |>)) as Hgo.
  { intros ap Hap1 Hap2. apply applier_stays; [done|only_applier n| |].
    - rewrite Hpos. unfold position. simpl. destruct ap; try done. by edestruct Hap2.
    - intros sn [?|?]; [by left|by edestruct Hap1]. }
  unfold maybeSnapshotLocked. run_m. rewrite (u64_add_small _ _ Hk). simpl.
  destruct (stateMachine n); [|intros [= _ <-]; by apply (Hgo ApWaiting)].
  destruct (_ || _); [intros [= _ <-]; by apply (Hgo ApWaiting)|].
  destruct (baseIndex _); [|done]. destruct (_ <? _); [intros [= _ <-]; by apply (Hgo ApWaiting)|].
  destruct (termAt _ _) as [t|]; [|done]. intros [= _ <-]. by apply (Hgo (ApSnapshotting (lastApplied n + k) t)).
Qed.

Lemma applier_moves c s i n e d a x :
  Rel c s → p_node (procs c i) = Some n → (∀ k t, applier n ≠ ApSnapshotting k t) →
  runAction AApplier e (mkCtx n d [] []) = Ret a x → applier_moved s n (rn x).
Proof.
  intros HR Hn Hsn Hrun. pose proof (R_core _ _ _ _ HR i n Hn) as Hcore.
  destruct (node_shaped members s i (R_inv _ _ _ _ HR) (R_range _ _ _ _ HR)) as (_ & _ & Hrange).
  destruct (nc_commit _ _ _ _ Hcore) as (_ & Hci & _). pose proof (nc_applying _ _ _ _ Hcore) as Happ.
  assert (∃ a', applierStep e (mkCtx n d [] []) = Ret a' x) as [a' Hstep].
  { unfold runAction in Hrun. revert Hrun. unfold mbind, m_mbind, m_bind. destruct (applierStep _ _) as [a' x'|]; [|done].
    intros [= _ <-]. by exists a'. }
  clear Hrun. unfold applierStep in Hstep. unfold mbind at 1, m_mbind, m_bind at 1, get in Hstep. cbn [rn] in Hstep.
  destruct (applier n) as [| |sn|[|e0 todo] k|k t] eqn:Hap; [..|by edestruct Hsn].
  - injection Hstep as _ <-. apply applier_stays; [unfold appliedEntry; by rewrite Hap|apply only_applied_refl|done|done].
  - by eapply wake_moves.
  - by eapply restore_moves.
  - destruct (applying_running s n Happ) as [_ Hini]; [by rewrite Hap|]. destruct Happ as (_ & _ & Hrep & _).
    rewrite Hini in Hrep. unfold applier_rep in Hrep. rewrite Hap in Hrep. destruct Hrep as (Hk & _).
    eapply batch_moves; [done| |exact Hstep]. lia.
  - destruct (applying_running s n Happ) as [_ Hini]; [by rewrite Hap|]. destruct Happ as (_ & _ & Hrep & _).
    rewrite Hini in Hrep. unfold applier_rep in Hrep. rewrite Hap in Hrep. destruct Hrep as (Hk & Hlen & Hsm & Htodo).
    rewrite Hsm in Hstep. destruct (Apply e0 _) as [sm'|] eqn:Ha; [|done]. injection Hstep as _ <-.
    assert (position n = lastApplied n + k - lenN (e0 :: todo)) as Hpos by (unfold position; by rewrite Hap).
    split; [simpl; only_applier n|]. split; [intros sn [?|?]; [by left|done]|]. unfold appliedEntry. rewrite Hap, Hsm, Hpos.
    split; [|unfold position, lenN in *; simpl in *; lia].
    match type of Htodo with _ = drop ?p (take ?q _) => set (p0 := p) in *; set (q0 := q) in * end.
    assert (drop p0 (take q0 (cl s)) !! 0%nat = Some e0) as He by (by rewrite <-Htodo).
    rewrite lookup_drop, Nat.add_0_r in He. by apply lookup_take_Some in He as [He _].
Qed.

(** ** A registered request *)

(** Request [r] of node [m] waits for index [k], which is committed there with its
    entry: its waiter is in the table and the applier has not come that far, or
    its answer is on the way. *)
Definition tracks (m : string) (r : nat) (cmd : KvCommand) (k t : N) (data : bytes) w : Prop :=
  ∃ n, p_node (procs (w_cluster w) m) = Some n ∧ base n < k ∧ k ≤ commitIndex n ∧
    entryAt (log n) k = Some (mkEntry t k data) ∧ (∀ sn, parked n sn → LastIncludedIndex sn < k) ∧
    let v := w_servers w m in
    requests v !! r = Some (Waiting cmd k t) ∧
    ((position n < k ∧ waiters v !! k = Some (mkWaiter t r)) ∨ channels v !! r = Some (Some None)).

Lemma applier_observed n a v : srv_inv v → ∃ v', observes n AApplier a v v'.
Proof.
  intros HI. unfold observes. destruct (appliedEntry n AApplier) as [e|]; [|by exists v].
  destruct (srv_inv_fire v e HI) as (v' & Hf & _). by exists v'.
Qed.

(** The apply of the request's entry sends the answer. *)
Lemma server_tracks c s m n n' a v v' r cmd k t data :
  Rel c s → p_node (procs c m) = Some n → srv_inv v → applier_moved s n n' → observes n AApplier a v v' →
  base n < k → k ≤ commitIndex n → entryAt (log n) k = Some (mkEntry t k data) →
  (∀ sn, parked n sn → LastIncludedIndex sn < k) → requests v !! r = Some (Waiting cmd k t) →
  (position n < k ∧ waiters v !! k = Some (mkWaiter t r)) ∨ channels v !! r = Some (Some None) →
  requests v' !! r = Some (Waiting cmd k t) ∧
  ((position n' < k ∧ waiters v' !! k = Some (mkWaiter t r)) ∨ channels v' !! r = Some (Some None)).
Proof.
  intros HR Hn HI (_ & _ & Hmv) Hob Hb Hci Hent Hpark Hreq Hw. unfold observes in Hob.
  destruct (appliedEntry n AApplier) as [e|] eqn:Hap.
  2: { rewrite Hob. split; [done|]. destruct Hw as [[Hpos Hw]|?]; [left; split; [|done]|by right].
       destruct Hmv as [->|(sn & Hsn & ->)]; [done|by apply Hpark]. }
  destruct Hmv as [He Hpos']. destruct (fire_spec v v' e HI Hob) as (Hreq' & Hwait & Hwake & Hchan). rewrite Hreq'.
  split; [done|]. destruct Hw as [[Hpos Hw]|?]; [|right; by apply Hchan].
  assert (Index e = position n + 1) as Hidx by (rewrite (proj1 (cl_entry _ s (R_inv _ _ _ _ HR) _ _ He)); lia).
  destruct (decide (k = Index e)) as [Hk|Hne]; [right|left; split; [lia|by apply Hwait]].
  destruct (holdsCommitted_rep members c s m n k HR Hn) as (Hcl & _ & _).
  { exists (base n). split; [|done]. unfold base. destruct (log n); [done|done]. }
  rewrite Hent in Hcl. replace (N.to_nat k - 1)%nat with (N.to_nat (position n)) in Hcl by lia.
  rewrite He in Hcl. injection Hcl as <-. specialize (Hwake (mkWaiter t r)). simpl in Hwake. rewrite N.eqb_refl in Hwake. by apply Hwake.
Qed.

Lemma lift_applier m r cmd k t data w c' :
  served w → rtc (acts applying_only) (w_cluster w) c' → tracks m r cmd k t data w →
  ∃ w', wlater w w' ∧ served w' ∧ w_cluster w' = c' ∧ tracks m r cmd k t data w'.
Proof.
  intros Hw Hacts. remember (w_cluster w) as c eqn:Hc. revert w Hw Hc.
  induction Hacts as [c|c c1 c2 (Hr & i & n0 & act & e & a & x & [-> Hsn] & Hn & Hen & Had & Hrun & ->) _ IH]; intros w Hw -> Ht.
  { exists w. split; [apply rtc_refl|done]. }
  destruct (applier_observed n0 a (w_servers w i) (served_server w i Hw)) as [v' Hob].
  set (w1 := mkWorld (deliver (w_cluster w) i AApplier a x) (<[i := v']> (w_servers w))).
  assert (wstep members cfgOf admits w w1) as Hst by (by eapply w_act).
  destruct (wlater_once w w1 Hw Hr Hst) as [Hl1 Hw1].
  destruct (IH w1 Hw1 eq_refl) as (w2 & Hl2 & ?); [|exists w2; split; [by etrans|done]].
  destruct Ht as (n & Hm & Hb & Hci & Hent & Hpark & Hreq & Hwt). unfold tracks. simpl.
  destruct (decide (m = i)) as [->|Hne].
  2: { exists n. rewrite !fn_lookup_insert_ne by done. done. }
  rewrite Hm in Hn. injection Hn as <-. rewrite !fn_lookup_insert. exists (rn x). split; [done|].
  destruct (served_rep members cfgOf d0 admits Hnames (λ _ _ H, H) Hd0 Hd0h Hd0r Hd0s w Hw) as (s & HR & _ & _).
  pose proof (applier_moves _ s i n e _ a x HR Hm Hsn Hrun) as Hmv. pose proof Hmv as (Hon & Hpk & _).
  assert (base (rn x) = base n ∧ commitIndex (rn x) = commitIndex n ∧ log (rn x) = log n) as (-> & -> & ->).
  { by destruct Hon as (? & ? & ? & ? & ->). }
  do 3 (split; [done|]). split; [by auto|]. eapply (server_tracks (w_cluster w) s i n (rn x) a (w_servers w i) v'); try done. by apply served_server.
Qed.

(** ** A request is answered *)

Context (works : D → Prop) `{!Reliable D works}.

(** propose on a leader: the request is given the next index, and waits for it. *)
Lemma submits w m j r cmd data :
  let k := lastIndex j + 1 in
  let t := currentTerm j in
  served w → in_range (w_cluster w) → leading works (w_cluster w) m j → cmd_ok data = true → lastIndex j + 3 < u64_size →
  Encode cmd = inr data → requests (w_servers w m) !! r = None →
  ∃ w' j', wlater w w' ∧ served w' ∧ goes members cfgOf d0 anything [m] (w_cluster w) (w_cluster w') ∧
    leading works (w_cluster w') m j' ∧ proposed j data j' ∧
    requests (w_servers w' m) !! r = Some (Waiting cmd k t) ∧ waiters (w_servers w' m) !! k = Some (mkWaiter t r).
Proof.
  intros k t Hw Hr Hlead Hok Hroom Henc Hfresh. pose proof Hlead as [(Hm & _) _].
  pose proof (served_reachable members cfgOf d0 admits w Hw) as Hc.
  destruct (proposes members cfgOf d0 Hnames Hd0 Hd0h Hd0r Hd0s works (w_cluster w) m j data Hc Hr Hlead Hok Hroom)
    as (x & Hrun & Hgo & Hlead1 & Hprop). set (a := ProposeAnswer (inr (lastIndex j + 1, currentTerm j))) in *.
  set (v1 := submit r cmd (inr (k, t)) (w_servers w m)).
  set (w1 := mkWorld (deliver (w_cluster w) m (APropose data) a x) (<[m := v1]> (w_servers w))).
  assert (wstep members cfgOf admits w w1) as Hst.
  { eapply w_act; [exact Hm|done|exact Hok|exact Hrun|]. simpl. by exists r, cmd. }
  destruct (wlater_once w w1 Hw Hr Hst) as [Hl1 Hw1].
  assert (requests v1 !! r = Some (Proposed cmd k t)) as Hreq1.
  { unfold v1, submit. rewrite Henc. simpl. by rewrite lookup_insert_eq. }
  assert (w_servers w1 m = v1) as Hv1 by (simpl; by rewrite fn_lookup_insert).
  pose proof (served_server w1 m Hw1) as HI1. rewrite Hv1 in HI1.
  destruct (srv_inv_register v1 r cmd k t HI1 Hreq1) as (v2 & Hreg & _).
  set (w2 := mkWorld (w_cluster w1) (<[m := v2]> (w_servers w1))).
  pose proof Hlead1 as [(Hm1 & _) _].
  assert (wstep members cfgOf admits w1 w2) as Hst2.
  { eapply (w_event _ _ _ _ m _ (EvRegister r)); [exact Hm1|done|]. by rewrite Hv1. }
  destruct (wlater_once w1 w2 Hw1 (go_range _ _ _ _ _ _ _ Hgo) Hst2) as [Hl2 Hw2].
  exists w2, (rn x). split; [by etrans|]. split; [done|]. split; [exact Hgo|]. split; [exact Hlead1|]. split; [done|].
  simpl. rewrite fn_lookup_insert. by apply (register_spec v1).
Qed.

(** A leader that can reach a majority answers a write with success, and its state
    machine has it. *)
Lemma serves w m j Q r cmd data :
  served w → in_range (w_cluster w) → leading works (w_cluster w) m j → applier j = ApWaiting → lastIndex j + 3 < u64_size →
  NoDup Q → quorum (peers j) ≤ 1 + lenN Q →
  (∀ q, q ∈ Q → q ∈ peers j ∧ ∃ n, runs_on works (w_cluster w) q n ∧ currentTerm n ≤ currentTerm j ∧ reaches j q n) →
  Encode cmd = inr data → cmd_ok data = true → requests (w_servers w m) !! r = None →
  ∃ w' j', wlater w w' ∧ served w' ∧ leading works (w_cluster w') m j' ∧
    commitIndex j' = lastIndex j' ∧ lastApplied j' = lastIndex j' ∧ initialSnapshotData j' = None ∧
    base j' < lastIndex j' ∧
    entryAt (log j') (lastIndex j') = Some (mkEntry (currentTerm j') (lastIndex j') data) ∧
    requests (w_servers w' m) !! r = Some (Answered cmd (Some (lastIndex j', currentTerm j')) None).
Proof.
  intros Hw Hr Hlead Hap Hroom Hnd Hq HQ Henc Hok Hfresh. set (k := lastIndex j + 1). set (t := currentTerm j).
  pose proof (served_reachable members cfgOf d0 admits w Hw) as Hc. pose proof Hlead as [(Hm & _) _].
  destruct (submits w m j r cmd data Hw Hr Hlead Hok Hroom Henc Hfresh)
    as (w1 & j1 & Hl1 & Hw1 & Hgo1 & Hlead1 & Hprop & Hreq1 & Hwait1).
  destruct (replicates members cfgOf d0 Hnames Hd0 Hd0h Hd0r Hd0s works (w_cluster w) m j (w_cluster w1) j1 data Q
    Hc Hr Hlead Hroom Hgo1 Hlead1 Hprop Hnd Hq HQ) as (c2 & j2 & Hgo2 & Hlead2 & Ht2 & Hap2 & Hlast2 & Hb2 & Hent2 & Hci2).
  destruct (lift_silent w1 c2 Hw1 (go_acts _ _ _ _ _ _ _ Hgo2)) as (w2 & Hl2 & Hw2 & Hc2 & Hv2).
  unfold applierOf in Hap2. injection Hap2 as Hap2 Hp2 Hla2. fold k in Hlast2, Hent2, Hci2. fold t in Ht2, Hent2.
  destruct (leader_applies members cfgOf d0 Hnames Hd0 Hd0h Hd0r Hd0s works c2 m j2 (go_reach _ _ _ _ _ _ _ Hgo2)
    (go_range _ _ _ _ _ _ _ Hgo2) Hlead2) as (c3 & j3 & Hgo3 & Hlead3 & Hj3 & Hci3 & Hla3 & Hini3); [congruence|lia|].
  destruct (lift_applier m r cmd k t data w2 c3 Hw2) as (w3 & Hl3 & Hw3 & Hc3 & n3 & Hn3 & _ & _ & _ & _ & Hreq3 & Hans).
  { rewrite Hc2. apply (go_acts _ _ _ _ _ _ _ Hgo3). }
  { destruct (served_rep members cfgOf d0 admits Hnames (λ _ _ H, H) Hd0 Hd0h Hd0r Hd0s w Hw) as (s & HR & _ & _).
    destruct (nc_applying _ _ _ _ (R_core _ _ _ _ HR m j Hm)) as (Hla & _ & _ & Hpend).
    destruct (node_sane members cfgOf d0 Hnames Hd0 Hd0h Hd0r Hd0s (w_cluster w) m j Hc Hm) as [(_ & _ & _ & Hci) Hlen].
    exists j2. rewrite Hc2, Hv2. split; [apply Hlead2|]. split; [lia|]. split; [done|]. split; [done|]. split.
    - intros sn [Hsn|Hsn]; [|congruence]. rewrite Hp2 in Hsn. destruct (Hpend sn Hsn). lia.
    - split; [done|]. left. split; [|done]. unfold position. rewrite Hap2, Hap, Hla2. lia. }
  pose proof Hlead3 as [(Hm3 & _) _]. rewrite Hc3, Hm3 in Hn3. injection Hn3 as <-.
  assert (lastIndex j3 = k ∧ currentTerm j3 = t ∧ log j3 = log j2 ∧ base j3 = base j2) as (Hlast3 & Ht3 & Hlog3 & Hb3).
  { destruct Hj3 as (? & ? & ? & ? & ->). done. }
  destruct Hans as [[Hpos _]|Hch].
  { exfalso. pose proof (go_reach _ _ _ _ _ _ _ Hgo3) as Hr3.
    destruct (progress_rel members cfgOf d0 Hnames Hd0 Hd0h Hd0r Hd0s c3 Hr3) as (_ & s & HR).
    destruct (nc_applying _ _ _ _ (R_core _ _ _ _ HR m j3 Hm3)) as (_ & _ & Hrep & _). rewrite Hini3 in Hrep.
    unfold position in Hpos. unfold applier_rep in Hrep. destruct (applier j3); lia. }
  set (v4 := (w_servers w3 m) <| requests := <[r := Answered cmd (Some (k, t)) None]> (requests (w_servers w3 m)) |>
                           <| channels := <[r := None]> (channels (w_servers w3 m)) |>).
  set (w4 := mkWorld (w_cluster w3) (<[m := v4]> (w_servers w3))).
  assert (wstep members cfgOf admits w3 w4) as Hst4.
  { assert (receive r (w_servers w3 m) = Some v4) as Hrec.
    { unfold receive. rewrite Hreq3. by rewrite (Hch : _ !! r = Some (Some (None : Outcome))). }
    by eapply (w_event _ _ _ _ m j3 (EvReceive r)); [rewrite Hc3| |]. }
  destruct (wlater_once w3 w4 Hw3 ltac:(rewrite Hc3; apply Hgo3) Hst4) as [Hl4 Hw4].
  exists w4, j3. split; [by do 3 (etrans; [eassumption|])|]. split; [done|]. simpl. rewrite Hc3, fn_lookup_insert.
  do 4 (split; [done|]). rewrite Hlast3, Hlog3, Hb3, Ht3. split; [lia|]. split; [done|]. simpl. by rewrite lookup_insert_eq.
Qed.

(** A majority that is up answers a write. *)
Lemma service_available w Q t r cmd data :
  served w → in_range (w_cluster w) → t + 2 < u64_size → NoDup Q → Q ⊆ members → (length members < 2 * length Q)%nat →
  (∀ q, q ∈ Q → ∃ n, can_stand works (w_cluster w) q n ∧ applier n = ApWaiting ∧ currentTerm n ≤ t ∧ lastIndex n + 3 < u64_size) →
  Encode cmd = inr data → cmd_ok data = true → (∀ q, q ∈ Q → requests (w_servers w q) !! r = None) →
  ∃ m w' j, m ∈ Q ∧ wlater w w' ∧ served w' ∧ leading works (w_cluster w') m j ∧
    commitIndex j = lastIndex j ∧ lastApplied j = lastIndex j ∧ initialSnapshotData j = None ∧ base j < lastIndex j ∧
    entryAt (log j) (lastIndex j) = Some (mkEntry (currentTerm j) (lastIndex j) data) ∧
    requests (w_servers w' m) !! r = Some (Answered cmd (Some (lastIndex j, currentTerm j)) None).
Proof.
  intros Hw Hr Ht Hnd Hsub Hmaj HQ Henc Hok Hfresh.
  destruct (majority_elects members cfgOf d0 Hnames Hd0 Hd0h Hd0r Hd0s works (w_cluster w) Q t
    (served_reachable members cfgOf d0 admits w Hw) Hr Ht Hnd Hsub Hmaj HQ)
    as (m & c1 & j & Q' & Hm & Hgo & Hlead & Hap & Hroom & Hnd' & Hq & Hfol).
  destruct (lift_silent w c1 Hw (go_acts _ _ _ _ _ _ _ Hgo)) as (w1 & Hl1 & Hw1 & Hc1 & Hv1). subst c1.
  destruct (serves w1 m j Q' r cmd data Hw1 (go_range _ _ _ _ _ _ _ Hgo) Hlead Hap Hroom Hnd' Hq Hfol Henc Hok)
    as (w2 & j2 & Hl2 & Hrest); [rewrite Hv1; by apply Hfresh|].
  exists m, w2, j2. split; [done|]. split; [by etrans|done].
Qed.
End service_progress.
