(* ===== verification/System.v ===== *)
(** * raftd: the program as cmd/raftd/main.go wires it

    The service on the real parts: the members and their configurations come
    from a configuration file that Load accepted, every node keeps its state
    with the file store in a directory that was empty when it was first
    started, whatever system calls fail (reads of the log file excepted, whose
    failure loses entries, see Recovery), and the state machine is the key-value
    store.  The contracts the safety theorems assume are discharged
    here. *)

From S2P Require Import Prelude Types Effects Log Node Election Handlers Replication Hoare Contracts Terms Cluster ElectionSafety Protocol ProtocolSafety Replay LogContract Abstraction Simulation Refinement Safety Progress Bytes Utf8 Json Codec FileStore FileStoreSpec Kv KvServer ClusterConfig Rpc Service ServiceProgress.

(** A directory in which nothing was stored yet. *)
Definition blank (d : Files) : Prop :=
  hardstate_json d = None ∧ snapshot_json d = None ∧ wal_log d = [] ∧ readFault d = None.

Lemma blank_spec d :
  blank d → survives d ∧ hard d = zeroHardState ∧ records d = [] ∧ snapOf d = None.
Proof.
  intros (Hh & Hs & Hw & Hr). unfold hard, records, snapOf, survives. simpl. unfold hardOf, snapshotOf.
  by rewrite Hh, Hs, Hw.
Qed.

(** main up to node.Start, on the contents of the configuration file and the data
    directory of the node: the node it has built when both servers serve, or the
    message it dies with.  [dial] and [listen] are the errors of grpc.NewClient and
    of net.Listen for an address. *)
Definition raftdMain (dial listen : string → option string) (file : option (list N)) (threshold : N)
    (nodeID : string) : Io Files (RaftNode Store) :=
  if String.eqb nodeID "" then io_fail "raftd: -id is required" else
  match Load file with
  | inl _ => io_fail "raftd: invalid configuration"
  | inr ns =>
    match FindNode ns nodeID with
    | None => io_fail "raftd: node id not found"
    | Some self =>
      Open ;;
      match NewTransport dial (peerAddrs ns (ID self)) with
      | (_, Some err) => io_fail ("raftd: " +:+ err)
      | (_, None) =>
        n ← NewNode (raftdConfig ns threshold (ID self));
        n ← wire NewStore n;
        match listen (RaftAddr self) with
        | Some err => io_fail ("raftd: listening on " +:+ RaftAddr self +:+ ": " +:+ err)
        | None =>
          match listen (ClientAddr self) with
          | Some err => io_fail ("raftd: listening on " +:+ ClientAddr self +:+ ": " +:+ err)
          | None => mret n
          end
        end
      end
    end
  end.

(** ** main and the process start of the cluster *)

(** The contents the directory passes through. *)
Definition passes {A} (r : IoRes Files A) (d : Files) : Prop := d ∈ io_mid r ∨ d = io_disk r.

(** [r] does what [b] does, or gives up at a point [b] goes through, or, for
    [within d], before the first, in [d]. *)
Definition follows {A} (r b : IoRes Files A) : Prop :=
  (∀ a, io_res r = inr a → io_res b = inr a ∧ io_disk r = io_disk b) ∧
  ∀ d', passes r d' → passes b d'.
Definition within {A} (d : Files) (r b : IoRes Files A) : Prop :=
  (∀ a, io_res r = inr a → io_res b = inr a ∧ io_disk r = io_disk b) ∧
  ∀ d', passes r d' → d' = d ∨ passes b d'.

Lemma follows_within {A} d (r b : IoRes Files A) : follows r b → within d r b.
Proof. intros [? H]. split; [done|]. intros d' ?%H. by right. Qed.

Lemma within_fail {A} e d (b : IoRes Files A) : within d (io_fail e d) b.
Proof. split; [done|]. intros d' [?%elem_of_nil| ->]; [done|by left]. Qed.

Lemma bind_passes {A B} (k : A → Io Files B) (m : Io Files A) d a d' :
  io_res (m d) = inr a → passes (io_bind k m d) d' ↔ passes (m d) d' ∨ passes (k a (io_disk (m d))) d'.
Proof.
  intros Hm. unfold io_bind, passes. rewrite Hm. simpl. rewrite elem_of_app, elem_of_cons. naive_solver.
Qed.

(** A common first part: what follows may give up at its end. *)
Lemma follows_bind {A B} (k k' : A → Io Files B) (m : Io Files A) d :
  (∀ a d', within d' (k a d') (k' a d')) → follows (io_bind k m d) (io_bind k' m d).
Proof.
  intros Hk. destruct (io_res (m d)) as [e|a] eqn:Hm.
  - assert (io_bind k m d = io_bind k' m d) as -> by (unfold io_bind; by rewrite Hm). done.
  - destruct (Hk a (io_disk (m d))) as [Hres Hds]. split.
    + unfold io_bind. rewrite Hm. exact Hres.
    + intros d'. rewrite !(bind_passes _ _ _ _ _ Hm). intros [?|[->|?]%Hds]; [by left| |by right].
      left. by right.
Qed.

Lemma within_listen (f : RaftNode Store → Io Files (RaftNode Store)) n d :
  (∀ n d, f n d = io_ret n d ∨ ∃ e, f n d = io_fail e d) → within d (io_bind f (wire NewStore n) d) (wire NewStore n d).
Proof.
  intros Hf. unfold io_bind, wire. destruct (SetStateMachine _ _ _) as [u x|w x]; simpl.
  - destruct (Hf (rn x) d) as [-> |[e ->]]; (split; [|intros d' [?|?]]; simpl in *; [|left; set_solver..]); naive_solver.
  - split; [done|]. intros d' [?%elem_of_nil| ->]; [done|by left].
Qed.

(** What a store that applied [es] answers for [key]. *)
Definition answer (key : string) (es : list LogEntry) : string * bool :=
  match lastWrite key (reverse es) with Some v => (v, true) | None => ("", false) end.

(** The value of an acknowledged Put, when nothing later in [es] wrote the key. *)
Lemma answer_put es j e key value :
  es !! j = Some e → DecodeCommand (Command e) = inr (putCommand key value) →
  (∀ e', e' ∈ drop (S j) es → writeOf key e' = None) → answer key es = (value, true).
Proof.
  intros He Hdec Hlater. unfold answer. rewrite <-(take_drop_middle es j e He), reverse_app, reverse_cons.
  rewrite <-app_assoc, lastWrite_skip; [|intros e' Hin; rewrite elem_of_reverse in Hin; by apply Hlater].
  simpl. unfold writeOf. rewrite Hdec. simpl. by rewrite String.eqb_refl.
Qed.


Section raftd.
Context (file : option (list N)) (ns : list Member) (threshold : N) (d0 : string → Files).
Context (allow : RaftNode Store → Action → bool).
Context (Hload : Load file = inr ns) (Hblank : ∀ i, blank (d0 i)).
Context (Hfits : ∀ n act, allow n act = true → admits n act = true).
Local Abbreviation ids := (ID <$> ns).
Local Abbreviation cfgOf := (raftdConfig ns threshold).

Local Instance raftd_members : Membership ids cfgOf.
Proof. apply validated_membership. by destruct (Load_names file ns Hload). Qed.

Lemma raftd_names i : i ∈ ids → name_ok i = true.
Proof. intros Hi. exact (Load_valid_utf8 file ns i Hload Hi). Qed.

Lemma raftd_start :
  (∀ i, survives (d0 i)) ∧ (∀ i, hard (d0 i) = zeroHardState) ∧ (∀ i, records (d0 i) = []) ∧
  (∀ i, snapOf (d0 i) = None).
Proof. split_and!; intros i; by destruct (blank_spec (d0 i) (Hblank i)) as (? & ? & ? & ?). Qed.

(** main comes up exactly as a process of the cluster does, and when it dies, the
    directory is as a process that dies while starting can leave it. *)
Definition startsAs (dial listen : string → option string) (i : string) (d : Files) : Prop :=
  let main := raftdMain dial listen file threshold i d in
  follows main (boot genesis (cfgOf i) d) ∧
  ((∀ a, dial a = None) → (∀ a, listen a = None) → io_res main = io_res (boot genesis (cfgOf i) d)).

Lemma raftdMain_starts dial listen i d : i ∈ ids → startsAs dial listen i d.
Proof.
  intros (n & -> & Hn)%list_elem_of_fmap. unfold startsAs, raftdMain. rewrite Hload.
  destruct (Load_names file ns Hload) as [(_ & Hnamed & Hnd & _)%Validate_iff _].
  eapply Forall_forall in Hnamed as [Hid _]; [|exact Hn]. rewrite (proj2 (String.eqb_neq _ _) Hid).
  rewrite (proj2 (FindNode_spec ns (ID n) n Hnd)) by done. unfold boot.
  pose proof (NewTransport_clients dial (peerAddrs ns (ID n))) as Ht.
  destruct (NewTransport _ _) as [t [err|]].
  { split; [apply follows_bind; intros a d'; apply within_fail|].
    intros Hd _. destruct Ht as [(? & addr & _ & [e He]) _]. by rewrite Hd in He. }
  split.
  - apply follows_bind. intros _ d'. apply follows_within, follows_bind. intros m d''.
    apply within_listen. intros m' d3.
    destruct (listen _); [right; by eexists|]. destruct (listen _); [right; by eexists|by left].
  - intros _ Hl. unfold mbind, io_mbind, io_bind, wire. destruct (io_res (Open d)); [done|]. simpl.
    destruct (io_res (NewNode _ _)); [done|]. simpl. destruct (SetStateMachine _ _ _); [|done].
    simpl. by rewrite !Hl.
Qed.

(** C8. raftd is safe: for any configuration file that Load accepts, the nodes of
    the cluster are what raftd's main builds for the ids in the file, whichever
    addresses it can dial and listen on, and starting from
    empty directories, whatever writes fail, messages are lost or processes
    killed, all nodes commit prefixes of one log, and each node's store answers
    every Get with the last write to the key in the prefix it has applied. *)
Theorem raftd_safety c :
  reachable ids cfgOf genesis d0 allow c →
  (∀ dial listen i d, i ∈ ids → startsAs dial listen i d) ∧
  ∃ CL : list LogEntry, ∀ i n, p_node (procs c i) = Some n →
    commitIndex n ≤ lenN CL ∧
    (∀ k, holdsCommitted n k → entryAt (log n) k = CL !! (N.to_nat k - 1)%nat ∧ is_Some (entryAt (log n) k)) ∧
    (initialSnapshotData n = None →
     ∃ k store, lastApplied n ≤ k ∧ k ≤ commitIndex n ∧ stateMachine n = Some store ∧
       ∀ key, store_Get key store = answer key (take (N.to_nat k) CL)).
Proof.
  intros Hc. destruct raftd_start as (H1 & H2 & H3 & H4).
  destruct (reach_rel ids cfgOf d0 allow raftd_names Hfits H1 H2 H3 H4 c Hc) as (_ & s & HR).
  split; [exact raftdMain_starts|].
  exists (cl s). intros i n Hn. destruct (node_follows ids c s i n HR Hn) as (Hci & Hent & Hsm).
  split; [done|]. split; [done|]. intros Hini. destruct (Hsm Hini) as (k & ? & ? & ?).
  eexists k, _. split; [done|]. split; [done|]. split; [done|]. intros key. apply store_lookup.
Qed.

(** C9. An acknowledged Put is visible: once a server answered Put(key, value) with
    success, then from there on every live node that has applied the write's
    index answers Get(key) with that value, unless its log has a later write to
    the key within what it applied. *)
Theorem raftd_put_visible w w' i r key value g :
  served ids cfgOf d0 allow w → wlater ids cfgOf allow w w' → text key → text value →
  requests (w_servers w i) !! r = Some (Answered (putCommand key value) g None) →
  ∃ CL e, DecodeCommand (Command e) = inr (putCommand key value) ∧ g = Some (Index e, Term e) ∧
    CL !! (N.to_nat (Index e) - 1)%nat = Some e ∧
    ∀ j n, p_node (procs (w_cluster w') j) = Some n → initialSnapshotData n = None →
      Index e ≤ lastApplied n →
      ∃ k store, Index e ≤ k ∧ k ≤ commitIndex n ∧ stateMachine n = Some store ∧
        ((∀ e', e' ∈ drop (N.to_nat (Index e)) (take (N.to_nat k) CL) → writeOf key e' = None) →
         store_Get key store = (value, true)).
Proof.
  intros Hw Hl Hkey Hval Hr. destruct raftd_start as (H1 & H2 & H3 & H4).
  destruct (answered_later ids cfgOf d0 allow raftd_names Hfits H1 H2 H3 H4 w w' i r _ g Hw Hl Hr)
    as (s & k & e & HR & Hk & Hidx & Hcmd & Hg).
  destruct (command_roundtrip (putCommand key value) eq_refl Hkey Hval) as (data & Henc & Hdec).
  rewrite Henc in Hcmd. injection Hcmd as ->. exists (cl s), e. split; [done|]. split; [done|].
  replace (N.to_nat (Index e) - 1)%nat with k by lia. split; [done|]. intros j n Hn Hini Hla.
  destruct (node_follows ids _ s j n HR Hn) as (_ & _ & Hsm). destruct (Hsm Hini) as (m & ? & ? & ?).
  eexists m, _. split; [lia|]. split; [done|]. split; [done|]. intros Hlater.
  rewrite store_lookup. apply (answer_put _ k e); [|done|].
  - rewrite lookup_take_lt by lia. done.
  - by replace (S k) with (N.to_nat (Index e)) by lia.
Qed.

End raftd.
