(* ===== verification/SpecStore.v ===== *)
(** * The reference store

    The abstract disk that the three store interfaces of src/raft/types.go
    describe: a hard state and a snapshot that are replaced atomically, and a
    stream of log records that is only appended to, or replaced as a whole by
    Compact.  Calls never fail; a crash in the middle of AppendEntries leaves a
    prefix of the batch.  It is the specification the file store is measured
    against, and the store the executable cluster runs use. *)

From S2P Require Import Prelude Types Effects Contracts Log Replay LogContract.

Record SpecDisk := mkSpecDisk {
  sd_hard : option HardState;
  sd_wal : list walRecord;
  sd_snap : option Snapshot
}.

#[export] Instance eta_SpecDisk : Eta SpecDisk := fun r =>
  {| sd_hard := sd_hard r; sd_wal := sd_wal r; sd_snap := sd_snap r |}.

Definition emptyDisk : SpecDisk := mkSpecDisk None [] None.

Definition spec_write (f : SpecDisk → SpecDisk) : Io SpecDisk unit := λ d,
  mkIo [d] (f d) (inr tt).

Definition spec_append (rs : list walRecord) : Io SpecDisk unit := λ d,
  mkIo ((λ k, d <| sd_wal := sd_wal d ++ take k rs |>) <$> seq 0 (length rs))
    (d <| sd_wal := sd_wal d ++ rs |>) (inr tt).

#[export] Instance SpecStorage : Storage SpecDisk := {|
  Open := λ d, mkIo [] d (inr tt);
  SaveHardState := λ hs, spec_write (λ d, d <| sd_hard := Some hs |>);
  LoadHardState := λ d, mkIo [] d (inr (sd_hard d));
  AppendEntries := λ es, spec_append (appendRecord <$> es);
  TruncateSuffix := λ from, spec_append [truncateRecord from];
  LoadEntries := λ d, mkIo [] d (replay (sd_wal d));
  Compact := λ es, spec_write (λ d, d <| sd_wal := appendRecord <$> es |>);
  SaveSnapshot := λ s, spec_write (λ d, d <| sd_snap := Some s |>);
  LoadSnapshot := λ d, mkIo [] d (inr (sd_snap d))
|}.

Lemma through_write (P : SpecDisk → Prop) f d : P d → P (f d) → through P (spec_write f d).
Proof. intros. split; [|done]. by constructor. Qed.

Lemma through_append (P : SpecDisk → Prop) rs d :
  (∀ rs', P (d <| sd_wal := sd_wal d ++ rs' |>)) → through P (spec_append rs d).
Proof.
  intros H. split; simpl; [|apply H]. apply Forall_fmap, Forall_forall. intros k _. apply H.
Qed.

#[export] Program Instance SpecStateStore : StateStoreSpec SpecDisk := {|
  hard := λ d, default zeroHardState (sd_hard d);
  ready := λ _, True;
  survives := λ _, True;
  name_ok := λ _, true
|}.
Next Obligation. done. Qed.
Next Obligation. done. Qed.
Next Obligation. intros d _. split; [constructor|done]. Qed.
Next Obligation. intros hs d _ _ _. split; [|done]. apply through_write; auto. Qed.
Next Obligation. intros d _. split; [split; [constructor|done]|]. by intros o [= <-]. Qed.
Next Obligation. intros es d _. split; [|done]. by apply through_append. Qed.
Next Obligation. intros from d _. split; [|done]. by apply through_append. Qed.
Next Obligation. intros es d _. split; [|done]. by apply through_write. Qed.
Next Obligation. intros s d _. split; [|done]. by apply through_write. Qed.
Next Obligation. intros d _. split; [split; [constructor|done]|done]. Qed.
Next Obligation. intros d _. split; [split; [constructor|done]|done]. Qed.

#[export] Program Instance SpecLogStore : LogStoreSpec SpecDisk := {|
  records := sd_wal;
  snapOf := sd_snap;
  intact := λ _, True;
  cmd_ok := λ _, true
|}.
Next Obligation. intros d _. split; [constructor|done]. Qed.
Next Obligation.
  intros es d _ _ _. split; [|done]. split; simpl.
  - apply Forall_fmap, Forall_forall. intros k _. simpl. split; [|done].
    exists k. by rewrite fmap_take.
  - split; [|done]. exists (length es). by rewrite firstn_all.
Qed.
Next Obligation.
  intros from d _ _ _. split; [|done]. split; simpl; [|by auto].
  constructor; [|constructor]. simpl. rewrite app_nil_r. auto.
Qed.
Next Obligation. intros es d _ _. split; [|done]. apply through_write; simpl; auto. Qed.
Next Obligation. intros s d _ _ _ _. split; [|done]. apply through_write; simpl; auto. Qed.
Next Obligation. intros hs d _. split; [|done]. by apply through_write. Qed.
Next Obligation. intros d _. split; [constructor|done]. Qed.
Next Obligation. intros d _. split; [split; [constructor|done]|done]. Qed.
Next Obligation. intros d _. split; [split; [constructor|done]|]. split; [|done]. by intros o [= <-]. Qed.

(** Calls never fail. *)
#[export] Instance SpecReliable : Reliable SpecDisk (λ _, True).
Proof. split; intros; intros d _; (split; [by eexists|done]). Qed.
