(* ===== verification/Sim.v ===== *)
(** * Executable runs of the cluster

    A scheduler for concrete executions: an [Event] names the node, the section
    and its input, and [exec] performs it if the step relation allows it.  A run
    that [exec] completes is an execution of the cluster, so witnesses and
    counterexamples are computed instead of written out. *)

From S2P Require Import Prelude Types Effects Log Node Election Handlers Replication Cluster.

#[export] Instance Effect_eq_dec : EqDecision Effect.
Proof. solve_decision. Defined.

Inductive Event :=
  | EBoot (i : string)
  | EAct (i : string) (act : Action) (e : Env)
  | EActDies (i : string) (act : Action) (e : Env) (k : nat)
  | ECrash (i : string).

Section sim.
Context {D SM : Type} `{!Storage D} `{!StateMachine SM}.
Context (members : list string) (cfgOf : string → Config) (sm0 : SM) (d0 : string → D).
Context (allow : RaftNode SM → Action → bool).

(** [enabled], decided. *)
Definition enabledb (c : Cluster D SM) (i : string) (n : RaftNode SM) (act : Action) : bool :=
  match act with
  | AStart | AStop | AConsumeTrigger | AApplier | APropose _ => true
  | ATick => started n
  | ARequestVote src args => bool_decide ((src, GoRequestVote i args) ∈ sent c)
  | AVoteReply peer term reply =>
    bool_decide ((i, term, peer) ∈ pend c) &&
    existsb (λ x, bool_decide (x.1.1.1 = i) && bool_decide (x.1.1.2 = peer) &&
                  bool_decide (RVA_Term x.1.2 = term) && bool_decide (x.2 = reply)) (vreplies c)
  | ARound term => bool_decide ((i, GoReplication term) ∈ sent c)
  | AAppendEntries src args =>
    existsb (λ x, bool_decide (x.1 = src) &&
                  match x.2 with
                  | GoAppendEntries p _ a => bool_decide (p = i) && bool_decide (a = args)
                  | _ => false
                  end) (sent c)
  | AAppendReply peer term args reply =>
    bool_decide ((i, GoAppendEntries peer term args) ∈ sent c) &&
    bool_decide ((i, peer, args, reply) ∈ areplies c)
  | ASendSnapshot peer term => bool_decide ((i, GoSendSnapshot peer term) ∈ sent c)
  | AInstallSnapshot src args =>
    existsb (λ x, bool_decide (x.1 = src) &&
                  match x.2 with
                  | GoInstallSnapshot p _ a => bool_decide (p = i) && bool_decide (a = args)
                  | _ => false
                  end) (sent c)
  | ASnapshotReply peer term args reply =>
    bool_decide ((i, GoInstallSnapshot peer term args) ∈ sent c) &&
    bool_decide ((i, peer, args, reply) ∈ sreplies c)
  end.

Lemma enabledb_sound c i n act : enabledb c i n act = true → enabled c i n act.
Proof.
  destruct act; simpl; try done; rewrite ?andb_true_iff, ?bool_decide_eq_true; try done.
  - intros [Hp He]. split; [done|]. apply existsb_exists in He as ([[[a b] args] r] & Hin & He).
    rewrite !andb_true_iff, !bool_decide_eq_true in He. simpl in He.
    destruct He as [[[-> ->] Ht] ->]. exists args. split; [done|]. by apply list_elem_of_In.
  - intros He. apply existsb_exists in He as ([a y] & Hin & He). simpl in He.
    apply andb_true_iff in He as [Ha He]. apply bool_decide_eq_true in Ha as ->.
    destruct y; try done. rewrite andb_true_iff, !bool_decide_eq_true in He.
    destruct He as [-> ->]. eexists. apply list_elem_of_In. exact Hin.
  - intros He. apply existsb_exists in He as ([a y] & Hin & He). simpl in He.
    apply andb_true_iff in He as [Ha He]. apply bool_decide_eq_true in Ha as ->.
    destruct y; try done. rewrite andb_true_iff, !bool_decide_eq_true in He.
    destruct He as [-> ->]. eexists. apply list_elem_of_In. exact Hin.
Qed.

Definition exec (ev : Event) (c : Cluster D SM) : option (Cluster D SM) :=
  match ev with
  | EBoot i =>
    match p_node (procs c i) with
    | Some _ => None
    | None =>
      if bool_decide (i ∈ members) then
        let r := boot sm0 (cfgOf i) (p_disk (procs c i)) in
        match io_res r with
        | inr n => Some (c <| procs := <[i := mkProc (Some n) (io_disk r)]> (procs c) |>)
        | inl _ => Some (down c i (io_disk r))
        end
      else None
    end
  | EAct i act e =>
    n ← p_node (procs c i);
    if enabledb c i n act && allow n act then
      match runAction act e (mkCtx n (p_disk (procs c i)) [] []) with
      | Ret a x => Some (deliver c i act a x)
      | Panic _ x => Some (down c i (disk x))
      end
    else None
  | EActDies i act e k =>
    n ← p_node (procs c i);
    if enabledb c i n act && allow n act then
      d ← crashPoints (runAction act e (mkCtx n (p_disk (procs c i)) [] [])) !! k;
      Some (down c i d)
    else None
  | ECrash i =>
    _ ← p_node (procs c i); Some (down c i (p_disk (procs c i)))
  end.

Lemma exec_step ev c c' : exec ev c = Some c' → step members cfgOf sm0 allow c c'.
Proof.
  destruct ev as [i|i act e|i act e k|i]; simpl.
  - destruct (p_node (procs c i)) eqn:Hn; [done|]. case_bool_decide; [|done].
    destruct (io_res _) as [err|n] eqn:Hr; intros [= <-].
    + eapply step_boot_dies; eauto.
    + by eapply step_boot.
  - destruct (p_node (procs c i)) as [n|] eqn:Hn; simpl; [|done].
    destruct (enabledb c i n act && allow n act) eqn:He; [|done].
    apply andb_true_iff in He as [He%enabledb_sound Hal].
    destruct (runAction _ _ _) as [a x|w x] eqn:Hr; intros [= <-].
    + by eapply step_act.
    + eapply step_act_dies; [done|done|done|]. rewrite Hr. by left.
  - destruct (p_node (procs c i)) as [n|] eqn:Hn; simpl; [|done].
    destruct (enabledb c i n act && allow n act) eqn:He; [|done].
    apply andb_true_iff in He as [He%enabledb_sound Hal].
    destruct (_ !! k) as [d|] eqn:Hd; intros [= <-].
    eapply step_act_dies; [done|done|done|]. by eapply list_elem_of_lookup_2.
  - destruct (p_node (procs c i)) as [n|] eqn:Hn; simpl; [|done]. intros [= <-].
    by eapply step_crash.
Qed.

(** Only members run; every term and index stays in range. *)
Definition in_rangeb (c : Cluster D SM) : bool :=
  forallb (λ i, match p_node (procs c i) with
                | Some n => (currentTerm n + 1 <? u64_size) &&
                            (default 0 (lastLogIndex (log n)) + 2 <? u64_size)
                | None => true
                end) members &&
  forallb (λ x, effect_term x.2 <? u64_size) (sent c) &&
  forallb (λ x, RVR_Term x.2 <? u64_size) (vreplies c) &&
  forallb (λ x, AER_Term x.2 <? u64_size) (areplies c) &&
  forallb (λ x, ISR_Term x.2 <? u64_size) (sreplies c).

Fixpoint execs (evs : list Event) (c : Cluster D SM) : option (Cluster D SM) :=
  match evs with
  | [] => Some c
  | ev :: evs' => if in_rangeb c then c' ← exec ev c; execs evs' c' else None
  end.

Lemma reachable_members c i n :
  reachable members cfgOf sm0 d0 allow c → p_node (procs c i) = Some n → i ∈ members.
Proof.
  intros Hr. revert i n. induction Hr as [|c c' _ IH _ Hstep]; intros i n; [done|].
  destruct Hstep; simpl; (destruct (decide (i0 = i)) as [->|Hne];
    [rewrite fn_lookup_insert|rewrite fn_lookup_insert_ne by done]); simpl; try done;
    try (intros; by eapply IH).
Qed.

Lemma in_rangeb_sound c :
  reachable members cfgOf sm0 d0 allow c → in_rangeb c = true → in_range c.
Proof.
  intros Hc. unfold in_rangeb. rewrite !andb_true_iff, !forallb_forall.
  intros ((((Hn & Hs) & Hv) & Ha) & Hi). split.
  { intros i n Hup. pose proof (reachable_members c i n Hc Hup) as Hm%list_elem_of_In.
    specialize (Hn i Hm). rewrite Hup, andb_true_iff, !N.ltb_lt in Hn. done. }
  repeat split; intros x Hx%list_elem_of_In; apply N.ltb_lt; auto.
Qed.

Lemma execs_reachable evs c c' :
  reachable members cfgOf sm0 d0 allow c → execs evs c = Some c' →
  reachable members cfgOf sm0 d0 allow c'.
Proof.
  revert c. induction evs as [|ev evs IH]; intros c Hc; simpl; [by intros [= <-]|].
  destruct (in_rangeb c) eqn:Hrange; [|done].
  destruct (exec ev c) as [c1|] eqn:He; [|done]. simpl. apply IH.
  eapply reachable_step; [exact Hc|by apply in_rangeb_sound|by eapply exec_step].
Qed.

Lemma execs_steps evs c c' :
  reachable members cfgOf sm0 d0 allow c → execs evs c = Some c' →
  rtc (λ c c', in_range c ∧ step members cfgOf sm0 allow c c') c c'.
Proof.
  revert c. induction evs as [|ev evs IH]; intros c Hc; simpl; [intros [= <-]; reflexivity|].
  destruct (in_rangeb c) eqn:Hrange; [|done].
  destruct (exec ev c) as [c1|] eqn:He; [|done]. simpl. intros Hr.
  apply in_rangeb_sound in Hrange; [|done]. apply exec_step in He.
  eapply rtc_l; [exact (conj Hrange He)|]. apply IH; [|done]. by eapply reachable_step.
Qed.

(** A run from the initial cluster. *)
Definition run (evs : list Event) : option (Cluster D SM) := execs evs (initial d0).

Lemma run_reachable evs c : run evs = Some c → reachable members cfgOf sm0 d0 allow c.
Proof. apply execs_reachable. constructor. Qed.
End sim.
