(* ===== verification/ServiceSim.v ===== *)
(** * Executable runs of the service

    The scheduler of file Sim, for the nodes together with their servers: a run
    that [wexecs] completes is an execution of the service. *)

From S2P Require Import Prelude Types Effects Log Node Election Handlers Replication Contracts Cluster Replay LogContract Refinement Kv KvServer Service Sim.

Inductive WEvent :=
  | WBoot (i : string)
  | WAct (i : string) (act : Action) (e : Env)
  | WSubmit (i : string) (r : nat) (cmd : KvCommand) (e : Env)
  | WServer (i : string) (ev : KvServer.Event)
  | WCrash (i : string).

Section service_sim.
Context {D : Type} `{!Storage D} `{!StateStoreSpec D} `{!LogStoreSpec D}.
Context (members : list string) (cfgOf : string → Config) (d0 : string → D).
Context (allow : RaftNode Store → Action → bool).
Implicit Types (w : World D).

(** A section of node [i], and what its server makes of it. *)
Definition wsection (i : string) (act : Action) (e : Env)
    (f : RaftNode Store → Answer → Server → option Server) w : option (World D) :=
  let c := w_cluster w in
  n ← p_node (procs c i);
  if enabledb c i n act && allow n act then
    match runAction act e (mkCtx n (p_disk (procs c i)) [] []) with
    | Ret a x =>
      v' ← f n a (w_servers w i); Some (mkWorld (deliver c i act a x) (<[i := v']> (w_servers w)))
    | Panic _ _ => None
    end
  else None.

Definition wexec (ev : WEvent) w : option (World D) :=
  match ev with
  | WBoot i =>
    let c := w_cluster w in
    match p_node (procs c i) with
    | Some _ => None
    | None =>
      if bool_decide (i ∈ members) then
        let r := boot genesis (cfgOf i) (p_disk (procs c i)) in
        match io_res r with
        | inr n => Some (mkWorld (c <| procs := <[i := mkProc (Some n) (io_disk r)]> (procs c) |>)
                           (<[i := NewServer]> (w_servers w)))
        | inl _ => None
        end
      else None
    end
  | WAct i act e =>
    match act with
    | APropose _ => None
    | _ => wsection i act e (λ n _ v, match appliedEntry n act with Some e => fire e v | None => Some v end) w
    end
  | WSubmit i r cmd e =>
    match Encode cmd with
    | inl _ => None
    | inr data =>
      wsection i (APropose data) e
        (λ n a v, match a with
                  | ProposeAnswer res => if decide (requests v !! r = None) then Some (submit r cmd res v) else None
                  | _ => None
                  end) w
    end
  | WServer i ev =>
    match p_node (procs (w_cluster w) i) with
    | Some _ =>
      if internal ev then
        v' ← srv_step ev (w_servers w i); Some (mkWorld (w_cluster w) (<[i := v']> (w_servers w)))
      else None
    | None => None
    end
  | WCrash i =>
    match p_node (procs (w_cluster w) i) with
    | Some _ => Some (mkWorld (down (w_cluster w) i (p_disk (procs (w_cluster w) i)))
                        (<[i := NewServer]> (w_servers w)))
    | None => None
    end
  end.

Lemma wsection_step i act e f w w' :
  (∀ n a v v', f n a v = Some v' → observes n act a v v') →
  wsection i act e f w = Some w' → wstep members cfgOf allow w w'.
Proof.
  intros Hf. unfold wsection. destruct (p_node _) as [n|] eqn:Hn; [|done]. simpl.
  destruct (enabledb _ _ _ _ && _) eqn:He; [|done]. apply andb_true_iff in He as [He%enabledb_sound Hal].
  destruct (runAction _ _ _) as [a x|] eqn:Hr; [|done]. destruct (f n a _) as [v'|] eqn:Hv; [|done].
  intros [= <-]. by eapply w_act; [..|apply Hf].
Qed.

Lemma wexec_step ev w w' : wexec ev w = Some w' → wstep members cfgOf allow w w'.
Proof.
  destruct ev as [i|i act e|i r cmd e|i ev|i]; cbn [wexec].
  - destruct (p_node _) eqn:Hn; [done|]. case_bool_decide; [|done].
    destruct (io_res _) as [|n] eqn:Hr; [done|]. intros [= <-]. apply w_boot; [done|]. by apply step_boot.
  - intros H. assert (∀ data, act ≠ APropose data) as Hne by (by intros data ->).
    assert (wsection i act e (λ n _ v, match appliedEntry n act with Some e => fire e v | None => Some v end) w = Some w')
      as Hs by (by destruct act).
    revert Hs. apply wsection_step. intros n a v v' Hv. unfold observes.
    destruct act; try (by destruct (appliedEntry n _); congruence).
  - destruct (Encode cmd) as [|data] eqn:Henc; [done|]. apply wsection_step.
    intros n [| | | |res] v v'; try done. simpl. case_decide; [|done]. intros [= <-]. eauto.
  - destruct (p_node _) as [n|] eqn:Hn; [|done]. destruct (internal ev) eqn:Hint; [|done].
    destruct (srv_step ev _) as [v'|] eqn:Hv; [|done]. intros [= <-]. by eapply w_event.
  - destruct (p_node _) as [n|] eqn:Hn; [|done]. intros [= <-]. apply w_down. by eapply step_crash.
Qed.

Fixpoint wexecs (evs : list WEvent) w : option (World D) :=
  match evs with
  | [] => Some w
  | ev :: evs' => if in_rangeb members (w_cluster w) then w' ← wexec ev w; wexecs evs' w' else None
  end.

Local Abbreviation served := (served members cfgOf d0 allow).

Lemma wexecs_run evs w w' :
  served w → wexecs evs w = Some w' → served w' ∧ wlater members cfgOf allow w w'.
Proof.
  revert w. induction evs as [|ev evs IH]; intros w Hw; cbn [wexecs]; [by intros [= <-]|].
  destruct (in_rangeb members (w_cluster w)) eqn:Hrange; [|done].
  destruct (wexec ev w) as [w1|] eqn:He; [|done]. simpl. intros Hr.
  apply (in_rangeb_sound members cfgOf genesis d0 allow) in Hrange; [|by apply served_reachable].
  apply wexec_step in He.
  destruct (IH w1) as [? Hl]; [by eapply served_step|done|]. split; [done|].
  by eapply rtc_l; [exact (conj Hrange He)|].
Qed.

Definition wrun (evs : list WEvent) : option (World D) :=
  wexecs evs (mkWorld (initial d0) (λ _, NewServer)).

Definition completed (o : option (World D)) : bool := match o with Some _ => true | None => false end.

Lemma wrun_served evs w0 : completed (wrun evs) = true → served (default w0 (wrun evs)).
Proof.
  destruct (wrun evs) as [w|] eqn:H; [|done]. intros _. eapply wexecs_run; [|exact H]. constructor.
Qed.

Lemma wexecs_later evs w w0 :
  served w → completed (wexecs evs w) = true →
  served (default w0 (wexecs evs w)) ∧ wlater members cfgOf allow w (default w0 (wexecs evs w)).
Proof.
  intros Hw. destruct (wexecs evs w) as [w'|] eqn:H; [|done]. intros _. by eapply wexecs_run.
Qed.
End service_sim.
