(* ===== verification/Deployment.v ===== *)
(** * A deployment of three raftd processes

    A concrete configuration file, three empty directories and a run of the
    whole program on them, down to the bytes of the files: a Put is accepted by
    the first leader and acknowledged, the leader dies, and the next leader has
    the value.  It instantiates the theorems about the service and about
    raftd.  A second run is one in which a request takes the waiter of another. *)

From S2P Require Import Prelude Types Effects Log Node Election Handlers Replication Hoare Contracts Terms Cluster ElectionSafety Protocol Replay LogContract Refinement Safety Progress Bytes Utf8 Json Codec FileStore FileStoreSpec Kv KvServer ClusterConfig Rpc Service System Sim ServiceSim.

(** JSON text with single quotes for the double ones. *)
Definition quoted (s : string) : list N := (λ b, if b =? 39 then 34 else b) <$> toBytes s.

Definition configFile : list N := quoted
  "{ 'nodes': [ {'id': 'a', 'raft_addr': 'h1:7000', 'client_addr': 'h1:8000'}, {'id': 'b', 'raft_addr': 'h2:7000', 'client_addr': 'h2:8000'}, {'id': 'c', 'raft_addr': 'h3:7000', 'client_addr': 'h3:8000'} ] }".

Definition deployed : list Member :=
  [mkMember "a" "h1:7000" "h1:8000"; mkMember "b" "h2:7000" "h2:8000"; mkMember "c" "h3:7000" "h3:8000"].

Lemma configFile_loads : Load (Some configFile) = inr deployed.
Proof. by vm_compute. Qed.

Definition raftdIDs : list string := ID <$> deployed.
Definition raftdCfg : string → Config := raftdConfig deployed 1000.

(** Nothing is stored; on [c], the 40th system call will fail. *)
Definition emptyDirs (i : string) : Files :=
  mkFiles None None [] None None (if String.eqb i "c" then replicate 40 Works ++ [Fails 0] else []) None.

Lemma emptyDirs_blank i : blank (emptyDirs i).
Proof. done. Qed.

Definition now0 : Env := mkEnv 0 0.
Definition now1 : Env := mkEnv 1000000000 0.

Definition put1 : KvCommand := putCommand "city" "Lahore".
Definition data1 : bytes := match Encode put1 with inr data => data | inl _ => "" end.
Definition entry1 : LogEntry := mkEntry 1 1 data1.
Definition send1 : AppendEntriesArgs := mkAEArgs 1 "a" 0 0 [entry1] 0.
Definition beat1 : AppendEntriesArgs := mkAEArgs 1 "a" 1 1 [] 1.
Definition ok1 : AppendEntriesReply := mkAEReply 1 true 0 0.

(** [a] is elected by [b], takes the Put, replicates it to [b], commits, applies
    and answers. *)
Definition put_run : list WEvent :=
  (WBoot <$> raftdIDs) ++ ((λ i, WAct i AStart now0) <$> raftdIDs) ++
  [WAct "a" ATick now1;
   WAct "b" (ARequestVote "a" (mkRVArgs 1 "a" 0 0)) now1;
   WAct "a" (AVoteReply "b" 1 (mkRVReply 1 true)) now1;
   WSubmit "a" 0 put1 now1; WServer "a" (EvRegister 0);
   WAct "a" (ARound 1) now1;
   WAct "b" (AAppendEntries "a" send1) now1;
   WAct "a" (AAppendReply "b" 1 send1 ok1) now1;
   WAct "a" (ARound 1) now1; WAct "b" (AAppendEntries "a" beat1) now1;
   WAct "a" AApplier now1; WAct "a" AApplier now1; WServer "a" (EvReceive 0)].

(** [a] dies; [b], elected by [c], applies what it committed. *)
Definition failover_run : list WEvent :=
  [WCrash "a"; WAct "b" ATick (mkEnv 9000000000 0);
   WAct "c" (ARequestVote "b" (mkRVArgs 2 "b" 1 1)) now1;
   WAct "b" (AVoteReply "c" 2 (mkRVReply 2 true)) now1;
   WAct "b" AApplier now1; WAct "b" AApplier now1; WAct "b" AApplier now1].

Definition world0 : World Files := mkWorld (initial emptyDirs) (λ _, NewServer).
Definition served1 : World Files :=
  default world0 (wrun raftdIDs raftdCfg emptyDirs admits put_run).
Definition failedOver : World Files :=
  default world0 (wexecs raftdIDs raftdCfg admits failover_run served1).

Definition leaderB : RaftNode Store :=
  default (initialNode (raftdCfg "b")) (p_node (procs (w_cluster failedOver) "b")).

Lemma served1_served : served raftdIDs raftdCfg emptyDirs admits served1.
Proof. apply wrun_served. by vm_compute. Qed.

Lemma failedOver_later :
  served raftdIDs raftdCfg emptyDirs admits failedOver ∧ wlater raftdIDs raftdCfg admits served1 failedOver.
Proof.
  refine (wexecs_later raftdIDs raftdCfg emptyDirs admits failover_run served1 world0 served1_served _).
  by vm_compute.
Qed.

Lemma put1_answered :
  requests (w_servers served1 "a") !! 0%nat = Some (Answered put1 (Some (1, 1)) None).
Proof. by vm_compute. Qed.

Lemma leaderB_up : p_node (procs (w_cluster failedOver) "b") = Some leaderB.
Proof. by vm_compute. Qed.

#[local] Instance deployed_members : Membership raftdIDs raftdCfg.
Proof. apply validated_membership. by vm_compute. Qed.

Lemma emptyDirs_start :
  (∀ i, survives (emptyDirs i)) ∧ (∀ i, hard (emptyDirs i) = zeroHardState) ∧
  (∀ i, records (emptyDirs i) = []) ∧ (∀ i, snapOf (emptyDirs i) = None).
Proof. exact (raftd_start emptyDirs emptyDirs_blank). Qed.

(** The acknowledged Put, after the leader that answered it died. *)
Lemma acknowledged_write_witness :
  ∃ CL e, Command e = data1 ∧ CL !! 0%nat = Some e ∧
    (∀ j n, p_node (procs (w_cluster failedOver) j) = Some n → follows_log CL n).
Proof.
  destruct emptyDirs_start as (H1 & H2 & H3 & H4).
  destruct (acknowledged_write raftdIDs raftdCfg emptyDirs admits
    (raftd_names (Some configFile) deployed configFile_loads) (λ _ _ H, H) H1 H2 H3 H4
    served1 failedOver "a" 0 put1 (Some (1, 1)) served1_served (proj2 failedOver_later) put1_answered)
    as (CL & e & Henc & Hg & _ & He & Hall & _).
  injection Hg as Hi _. rewrite <-Hi in He. exists CL, e. split; [|done].
  unfold data1. by rewrite Henc.
Defined.

(** The store of the leader has the value. *)
Lemma raftd_safety_witness :
  ∃ CL : list LogEntry, commitIndex leaderB ≤ lenN CL ∧
    ∃ k, lastApplied leaderB ≤ k ∧ store_Get "city" (default NewStore (stateMachine leaderB)) = answer "city" (take (N.to_nat k) CL).
Proof.
  assert (reachable raftdIDs raftdCfg genesis emptyDirs admits (w_cluster failedOver)) as Hr.
  { apply served_reachable, failedOver_later. }
  destruct (raftd_safety (Some configFile) deployed 1000 emptyDirs admits configFile_loads emptyDirs_blank
    (λ _ _ H, H) (w_cluster failedOver) Hr) as (_ & CL & HCL).
  destruct (HCL "b" leaderB leaderB_up) as (Hci & _ & Hsm).
  destruct (Hsm ltac:(by vm_compute)) as (k & st & Hk & _ & Hst & Hget).
  exists CL. split; [done|]. exists k. split; [done|]. rewrite Hst. apply Hget.
Defined.

Lemma raftd_put_visible_witness :
  state leaderB = Leader ∧
  ∃ store, stateMachine leaderB = Some store ∧ store_Get "city" store = ("Lahore", true).
Proof.
  split; [by vm_compute|].
  destruct (raftd_put_visible (Some configFile) deployed 1000 emptyDirs admits configFile_loads emptyDirs_blank
    (λ _ _ H, H) served1 failedOver "a" 0 "city" "Lahore" (Some (1, 1)) served1_served (proj2 failedOver_later))
    as (CL & e & _ & Hg & He & Hall).
  - apply Valid_utf8. by vm_compute.
  - apply Valid_utf8. by vm_compute.
  - exact put1_answered.
  - injection Hg as Hi _. rewrite <-Hi in *.
    destruct (Hall "b" leaderB leaderB_up ltac:(by vm_compute) ltac:(by vm_compute)) as (k & st & Hk & Hc & Hst & Hget).
    exists st. split; [done|]. apply Hget. assert (commitIndex leaderB = 1) as Hci by (by vm_compute).
    rewrite Hci in Hc. replace k with 1 by lia. intros e' Hin.
    rewrite drop_ge in Hin by (rewrite length_take; lia). destruct (not_elem_of_nil _ Hin).
Defined.











(** ** A stolen waiter

    [a] leads term 1 and takes two Puts that it cannot replicate; [b] leads term 2
    and replaces both by one of its own; [a] leads again, in term 3, and gives
    index 2 to a third request. *)
Definition putX (v : string) : KvCommand := putCommand "city" v.
Definition dataX (v : string) : bytes := match Encode (putX v) with inr data => data | inl _ => "" end.
Definition entryZ : LogEntry := mkEntry 2 1 (dataX "Multan").
Definition entryW : LogEntry := mkEntry 3 2 (dataX "Quetta").
Definition sendZ : AppendEntriesArgs := mkAEArgs 2 "b" 0 0 [entryZ] 0.
Definition sendW : AppendEntriesArgs := mkAEArgs 3 "a" 1 2 [entryW] 0.

Definition superseded_run : list WEvent :=
  (WBoot <$> raftdIDs) ++ ((λ i, WAct i AStart now0) <$> raftdIDs) ++
  [WAct "a" ATick now1;
   WAct "b" (ARequestVote "a" (mkRVArgs 1 "a" 0 0)) now1;
   WAct "a" (AVoteReply "b" 1 (mkRVReply 1 true)) now1;
   WSubmit "a" 0 (putX "Lahore") now1; WServer "a" (EvRegister 0);
   WSubmit "a" 1 (putX "Karachi") now1; WServer "a" (EvRegister 1);
   WAct "b" ATick (mkEnv 9000000000 0);
   WAct "c" (ARequestVote "b" (mkRVArgs 2 "b" 0 0)) now1;
   WAct "b" (AVoteReply "c" 2 (mkRVReply 2 true)) now1;
   WSubmit "b" 0 (putX "Multan") now1; WAct "b" (ARound 2) now1;
   WAct "a" (AAppendEntries "b" sendZ) now1;
   WAct "a" ATick (mkEnv 20000000000 0);
   WAct "b" (ARequestVote "a" (mkRVArgs 3 "a" 1 2)) now1;
   WAct "a" (AVoteReply "b" 3 (mkRVReply 3 true)) now1;
   WSubmit "a" 2 (putX "Quetta") now1].

Definition superseded : World Files :=
  default world0 (wrun raftdIDs raftdCfg emptyDirs admits superseded_run).

(** What the server of [a] went through. *)
Definition superseded_events : list KvServer.Event :=
  [EvSubmit 0 (putX "Lahore") (inr (1, 1)); EvRegister 0; EvSubmit 1 (putX "Karachi") (inr (2, 1)); EvRegister 1;
   EvSubmit 2 (putX "Quetta") (inr (2, 3))].

(** The third request registers and the second gives up; then the entry is
    replicated, committed and applied. *)
Definition stolen_run : list WEvent :=
  [WServer "a" (EvRegister 2); WServer "a" (EvGiveUp 1 "context deadline exceeded");
   WAct "a" (ARound 3) now1;
   WAct "b" (AAppendEntries "a" sendW) now1;
   WAct "a" (AAppendReply "b" 3 sendW (mkAEReply 3 true 0 0)) now1;
   WAct "a" AApplier now1; WAct "a" AApplier now1; WAct "a" AApplier now1].

Definition stolen : World Files :=
  default world0 (wexecs raftdIDs raftdCfg admits stolen_run superseded).

Lemma superseded_served : served raftdIDs raftdCfg emptyDirs admits superseded.
Proof. apply wrun_served. by vm_compute. Qed.

Lemma stolen_served :
  served raftdIDs raftdCfg emptyDirs admits stolen ∧ wlater raftdIDs raftdCfg admits superseded stolen.
Proof.
  refine (wexecs_later raftdIDs raftdCfg emptyDirs admits stolen_run superseded world0 superseded_served _).
  by vm_compute.
Qed.

Lemma giving_up_steals_witness :
  served raftdIDs raftdCfg emptyDirs admits stolen ∧ entryW ∈ applied (w_servers stolen "a") ∧
  requests (w_servers stolen "a") !! 2%nat = Some (Waiting (putX "Quetta") 2 3) ∧
  receive 2 (w_servers stolen "a") = None.
Proof.
  split; [apply stolen_served|]. split; [apply list_elem_of_In; by vm_compute; auto|].
  pose (v := w_servers stolen "a"). pose (v0 := w_servers superseded "a"). change (w_servers stolen "a") with v.
  assert (srv_run ([EvRegister 2; EvGiveUp 1 "context deadline exceeded"] ++ [EvFire entryZ; EvFire entryW]) v0 = Some v) as Hrun
    by (by vm_compute).
  assert (srv_run superseded_events NewServer = Some v0 ∧ requests v0 !! 1%nat = Some (Waiting (putX "Karachi") 2 1) ∧
          requests v0 !! 2%nat = Some (Proposed (putX "Quetta") 2 3)) as (H0 & H1 & H2)
    by (split; [by vm_compute|split; by vm_compute]).
  clearbody v v0. rewrite srv_run_app in Hrun.
  destruct (giving_up_steals superseded_events v0 1 2 (putX "Karachi") (putX "Quetta") 2 1 3
    "context deadline exceeded" H0 H1 H2) as (s1 & Hs1 & Hall).
  rewrite Hs1 in Hrun. apply (Hall [EvFire entryZ; EvFire entryW] v Hrun). intros err' Hin.
  apply elem_of_cons in Hin as [[=]|[[=]|[]%not_elem_of_nil]%elem_of_cons].
Defined.

Lemma load_gives_cluster_witness :
  Membership (ID <$> deployed) (raftdConfig deployed 1000) ∧ clientAddrs deployed !! "b" = Some "h2:8000".
Proof.
  destruct (load_gives_cluster (Some configFile) deployed 1000 configFile_loads) as (Hm & _ & _ & Haddr).
  split; [exact Hm|]. apply (Haddr (mkMember "b" "h2:7000" "h2:8000")). right. left.
Defined.

(** The transport that raftd builds for [a]. *)
Definition transportA : Transport := (NewTransport (λ _, None) (peerAddrs deployed "a")).1.

(** A wire that loses every vote, and delivers everything else: the entry of the
    Put arrives at the handler of [b] as [a] sent it. *)
Lemma rpc_transparent_witness :
  connection transportA "b" = Some (mkConn "h2:7000" true) ∧
  transparent (D := Files) (SM := Store) HandleAppendEntries send1
    (invoke AppendEntriesMethod inr inr transportA "b" HandleAppendEntries send1).
Proof.
  split; [by vm_compute|].
  destruct (rpc_transparent (D := Files) (SM := Store) transportA "b"
    (λ _, inl "unavailable") inr inr inr (λ r, inr (normalise r)) inr) as (_ & Happend & _);
    [done|by intros x y [= <-]|by intros x y [= <-]|by intros x y [= <-]|by intros x y [= <-]|by intros x y [= <-]|].
  exact (Happend send1).
Defined.
