(* ===== verification/Scenarios.v ===== *)
(** * Concrete executions

    A three-node cluster on the reference store, run by the scheduler of file
    Sim.  The runs instantiate the theorems about nodes and clusters. *)

From S2P Require Import Prelude Types Effects Log Node Election Handlers Replication Hoare Contracts Terms Progress Functional Cluster ElectionSafety Protocol ProtocolSafety Replay LogContract Simulation Refinement Safety Invariants SpecStore Sim.

(** A small state machine for the runs: it counts the entries it applied, and
    serialises the count in unary. *)
Definition Counter : Type := nat.

#[export] Instance CounterMachine : StateMachine Counter := {|
  Apply := λ _ k, Some (S k);
  SMSnapshot := λ k, inr (Some (String.concat "" (replicate k "x")));
  Restore := λ data _, inr (String.length (default "" data))
|}.

Lemma concat_xs k : String.length (String.concat "" (replicate k "x")) = k.
Proof.
  induction k as [|k IH]; [done|]. simpl. destruct k as [|k]; [done|].
  change (S (String.length (String.concat "" (replicate (S k) "x"))) = S (S k)). by rewrite IH.
Qed.

#[export] Program Instance CounterSpec : StateMachineSpec Counter := {| genesis := 0%nat |}.
Next Obligation. intros es e. by eexists. Qed.
Next Obligation.
  intros es data [= <-]. split; [by eexists|]. intros sm. simpl. f_equal. apply concat_xs.
Qed.

Definition emptyDisks (i : string) : SpecDisk := emptyDisk.

Definition three : list string := ["a"; "b"; "c"].

Definition threeCfg (i : string) : Config :=
  mkConfig i (filter (λ p, p ≠ i) three) true true true true 2 0 0 0 0.

#[export] Instance three_membership : Membership three threeCfg.
Proof.
  split.
  - apply (bool_decide_unpack _). by vm_compute.
  - apply (bool_decide_unpack _). by vm_compute.
  - done.
  - done.
  - done.
  - done.
Qed.

Definition early : Env := mkEnv 0 0.
Definition late : Env := mkEnv 1000000000 0.

Definition boot3 : list Event :=
  (EBoot <$> three) ++ ((λ i, EAct i AStart early) <$> three).

(** Node [a] times out in term 0, asks for votes and is elected by [b]. *)
Definition voteArgs1 : RequestVoteArgs := mkRVArgs 1 "a" 0 0.
Definition elect_a : list Event :=
  boot3 ++ [EAct "a" ATick late;
            EAct "b" (ARequestVote "a" voteArgs1) late;
            EAct "a" (AVoteReply "b" 1 (mkRVReply 1 true)) late].

Definition runSpec : list Event → option (Cluster SpecDisk Counter) :=
  run three threeCfg (0%nat : Counter) emptyDisks (λ _ _, true).

Definition electedCluster : Cluster SpecDisk Counter :=
  default (initial emptyDisks) (runSpec elect_a).

Lemma electedCluster_reachable :
  reachable three threeCfg 0%nat emptyDisks (λ _ _, true) electedCluster.
Proof. apply (run_reachable three threeCfg 0%nat emptyDisks (λ _ _, true) elect_a). by vm_compute. Qed.

(** The hypotheses of Election Safety hold of a run in which a leader is
    elected. *)
Lemma election_safety_witness :
  ("a", GoReplication 1) ∈ sent electedCluster ∧
  ∀ j, (j, GoReplication 1) ∈ sent electedCluster → j = "a".
Proof.
  assert (("a", GoReplication 1) ∈ sent electedCluster) as Ha.
  { apply (bool_decide_unpack _). by vm_compute. }
  split; [exact Ha|]. intros j Hj.
  exact (proj1 (election_safety three threeCfg 0%nat emptyDisks (λ _ _, true) (λ _ _, eq_refl) (λ _, I)
                  electedCluster
                  electedCluster_reachable) j "a" 1 Hj Ha).
Defined.

(** ** A command is committed, its leader dies, another takes over *)

Lemma names_ok (i : string) : i ∈ three → name_ok (D := SpecDisk) i = true.
Proof. done. Qed.

Lemma empty_hard i : hard (emptyDisks i) = zeroHardState.
Proof. done. Qed.
Lemma empty_records i : records (emptyDisks i) = [].
Proof. done. Qed.
Lemma empty_snap i : snapOf (emptyDisks i) = None.
Proof. done. Qed.

Definition e1 : LogEntry := mkEntry 1 1 "x".
Definition append1 : AppendEntriesArgs := mkAEArgs 1 "a" 0 0 [e1] 0.
Definition commit1 : AppendEntriesArgs := mkAEArgs 1 "a" 1 1 [] 1.
Definition accepted : AppendEntriesReply := mkAEReply 1 true 0 0.

Definition commit_x : list Event :=
  elect_a ++ [EAct "a" (APropose "x") late; EAct "a" (ARound 1) late;
              EAct "b" (AAppendEntries "a" append1) late;
              EAct "a" (AAppendReply "b" 1 append1 accepted) late;
              EAct "a" (ARound 1) late; EAct "b" (AAppendEntries "a" commit1) late;
              EAct "a" AApplier late; EAct "a" AApplier late; EAct "a" AApplier late].

Definition takeover : list Event :=
  [ECrash "a"; EAct "b" ATick (mkEnv 9000000000 0);
   EAct "c" (ARequestVote "b" (mkRVArgs 2 "b" 1 1)) late;
   EAct "b" (AVoteReply "c" 2 (mkRVReply 2 true)) late].

Definition runFresh : list Event → option (Cluster SpecDisk Counter) :=
  run three threeCfg (genesis (SM := Counter)) emptyDisks admits.

Definition committedCluster : Cluster SpecDisk Counter :=
  default (initial emptyDisks) (runFresh commit_x).
Definition takenOver : Cluster SpecDisk Counter :=
  default (initial emptyDisks)
    (execs three threeCfg (genesis (SM := Counter)) admits takeover committedCluster).

Definition nodeOf (c : Cluster SpecDisk Counter) (i : string) : RaftNode Counter :=
  default (initialNode (threeCfg i)) (p_node (procs c i)).

Lemma committedCluster_reachable :
  reachable three threeCfg (genesis (SM := Counter)) emptyDisks admits committedCluster.
Proof. apply (run_reachable three threeCfg genesis emptyDisks admits commit_x). by vm_compute. Qed.

Lemma takenOver_later : later three threeCfg admits committedCluster takenOver.
Proof.
  eapply (execs_steps three threeCfg genesis emptyDisks admits takeover);
    [apply committedCluster_reachable|by vm_compute].
Qed.

Lemma committed_a : p_node (procs committedCluster "a") = Some (nodeOf committedCluster "a").
Proof. by vm_compute. Qed.
Lemma committed_b : p_node (procs committedCluster "b") = Some (nodeOf committedCluster "b").
Proof. by vm_compute. Qed.
Lemma takenOver_b : p_node (procs takenOver "b") = Some (nodeOf takenOver "b").
Proof. by vm_compute. Qed.

Lemma holds_a : holdsCommitted (nodeOf committedCluster "a") 1.
Proof. exists 0. split; [by vm_compute|]. split; by vm_compute. Qed.
Lemma holds_b : holdsCommitted (nodeOf takenOver "b") 1.
Proof. exists 0. split; [by vm_compute|]. split; by vm_compute. Qed.

(** The state machine of [a] has applied the command. *)
Lemma state_machine_safety_witness :
  stateMachine (nodeOf committedCluster "a") = Some 1%nat ∧
  ∃ CL : list LogEntry, CL !! 0%nat = Some e1.
Proof.
  split; [by vm_compute|].
  destruct (state_machine_safety three threeCfg emptyDisks admits names_ok (λ _ _ H, H)
    (λ _, I) empty_hard empty_records empty_snap committedCluster committedCluster_reachable) as [CL HCL].
  exists CL. destruct (HCL "a" _ committed_a) as (_ & Hent & _).
  destruct (Hent 1 holds_a) as [He _].
  change (CL !! (N.to_nat 1 - 1)%nat = Some e1). rewrite <-He. by vm_compute.
Defined.

Lemma committed_forever_witness :
  entryAt (log (nodeOf takenOver "b")) 1 = Some e1.
Proof.
  rewrite <-(committed_forever three threeCfg emptyDisks admits names_ok (λ _ _ H, H)
    (λ _, I) empty_hard empty_records empty_snap committedCluster takenOver "a" (nodeOf committedCluster "a") "b" (nodeOf takenOver "b") 1
    committedCluster_reachable takenOver_later committed_a takenOver_b holds_a holds_b).
  by vm_compute.
Defined.

(** Node [b] leads term 2 and has what [a] committed in term 1: the term the
    theorem gives is one that a majority of the disks had reached, so not above 2. *)
Lemma leader_completeness_witness :
  state (nodeOf takenOver "b") = Leader ∧
  ∃ base last, baseIndex (log (nodeOf takenOver "b")) = Some base ∧
    lastLogIndex (log (nodeOf takenOver "b")) = Some last ∧ 1 ≤ last ∧
    (base < 1 → entryAt (log (nodeOf takenOver "b")) 1 = entryAt (log (nodeOf committedCluster "a")) 1).
Proof.
  assert (state (nodeOf takenOver "b") = Leader) as Hlead by (by vm_compute). split; [exact Hlead|].
  destruct (leader_completeness three threeCfg emptyDisks admits names_ok (λ _ _ H, H)
    (λ _, I) empty_hard empty_records empty_snap committedCluster "a" (nodeOf committedCluster "a") 1
    committedCluster_reachable committed_a holds_a) as (t & Q & _ & Hsub & Hlen & Hreached & Hall).
  apply (Hall takenOver "b"); [apply takenOver_later|apply takenOver_b|exact Hlead|].
  destruct Q as [|w Q]; [simpl in Hlen; lia|]. specialize (Hreached w (list_elem_of_here _ _)).
  specialize (Hsub w (list_elem_of_here _ _)).
  assert (currentTerm (nodeOf takenOver "b") = 2) as -> by (by vm_compute).
  assert (∀ i, i ∈ three → HS_CurrentTerm (hard (p_disk (procs committedCluster i))) ≤ 2) as Hmax.
  { apply Forall_forall. vm_compute. repeat constructor; done. }
  specialize (Hmax w Hsub). lia.
Defined.

Lemma log_matching_witness :
  entryAt (log (nodeOf committedCluster "a")) 1 = entryAt (log (nodeOf committedCluster "b")) 1.
Proof.
  apply (log_matching three threeCfg emptyDisks admits names_ok (λ _ _ H, H)
    (λ _, I) empty_hard empty_records empty_snap committedCluster "a" _ "b" _ 1 1 e1 e1 committedCluster_reachable committed_a committed_b);
    try (by vm_compute); exists 0, 1; (split; [by vm_compute|]; split; [by vm_compute|]; split; by vm_compute).
Defined.

Lemma committed_durable_witness :
  ∃ Q, NoDup Q ∧ Q ⊆ three ∧ (length three < 2 * length Q)%nat ∧
       ∀ w, w ∈ Q → keepsEntry (SM := Counter) (p_disk (procs committedCluster w)) 1 e1.
Proof.
  apply (committed_durable three threeCfg emptyDisks admits names_ok (λ _ _ H, H)
    (λ _, I) empty_hard empty_records empty_snap committedCluster "a" (nodeOf committedCluster "a") 1 e1 committedCluster_reachable
    committed_a holds_a). by vm_compute.
Defined.

Lemma cluster_refines_witness :
  ∃ s, rtc (pstep (isQ three)) pinit s ∧ Rel three committedCluster s.
Proof.
  apply (cluster_refines three threeCfg emptyDisks admits names_ok (λ _ _ H, H)
    (λ _, I) empty_hard empty_records empty_snap committedCluster committedCluster_reachable).
Defined.

(** ** The nodes of these clusters *)

Definition diskOf (c : Cluster SpecDisk Counter) (i : string) : SpecDisk := p_disk (procs c i).
Definition nodeA : RaftNode Counter := nodeOf committedCluster "a".
Definition nodeB : RaftNode Counter := nodeOf committedCluster "b".

Lemma node_invariant_witness :
  log_wf (log nodeA) ∧
  (∃ base last, baseIndex (log nodeA) = Some base ∧ lastLogIndex (log nodeA) = Some last ∧
     base ≤ commitIndex nodeA ∧ lastApplied nodeA ≤ commitIndex nodeA ∧ commitIndex nodeA ≤ last ∧
     (base ≤ lastApplied nodeA ∨
      ∃ sn, (pendingSnapshot nodeA = Some sn ∨ applier nodeA = ApRestoring sn) ∧ base ≤ LastIncludedIndex sn)) ∧
  hard (diskOf committedCluster "a") = node_hs nodeA ∧
  (state nodeA = Leader → termsUpTo (log nodeA) (currentTerm nodeA)).
Proof.
  apply (node_invariant three threeCfg emptyDisks admits names_ok (λ _ _ H, H)
    (λ _, I) empty_hard empty_records empty_snap committedCluster "a" nodeA committedCluster_reachable committed_a).
Defined.

(** [a] leads, and [c], whose log is still empty, is enough to commit a second
    command: the leader starts from where it believes [c] to be. *)
Lemma proposal_commits_witness :
  ∃ c' j, later three threeCfg admits committedCluster c' ∧ leading (λ _, True) c' "a" j ∧ currentTerm j = 1 ∧
    entryAt (log j) 2 = Some (mkEntry 1 2 "y") ∧ 2 ≤ commitIndex j.
Proof.
  apply (proposal_commits three threeCfg emptyDisks names_ok (λ _, I) empty_hard empty_records empty_snap (λ _, True)
    committedCluster "a" nodeA "y" ["c"]).
  - exact committedCluster_reachable.
  - apply (in_rangeb_sound three threeCfg genesis emptyDisks admits); [exact committedCluster_reachable|by vm_compute].
  - split; [|by vm_compute]. split; [exact committed_a|]. split; [exact I|by vm_compute].
  - done.
  - by vm_compute.
  - apply NoDup_singleton.
  - by vm_compute.
  - intros q ->%list_elem_of_singleton. split; [apply (bool_decide_unpack _); by vm_compute|].
    exists (nodeOf committedCluster "c"). split; [split; [by vm_compute|]; split; [exact I|by vm_compute]|].
    split; [by vm_compute|]. split; [by vm_compute|]. left. by vm_compute.
Defined.

(** [c] voted in term 2 after the crash of [a]; [b] keeps its own vote. *)
Lemma vote_kept_witness :
  HS_CurrentTerm (hard (diskOf committedCluster "b")) ≤ HS_CurrentTerm (hard (diskOf takenOver "b")).
Proof.
  apply (vote_kept three threeCfg emptyDisks admits names_ok (λ _ _ H, H)
    (λ _, I) empty_hard empty_records empty_snap committedCluster takenOver "b" committedCluster_reachable takenOver_later).
Defined.

Lemma takenOver_reachable :
  reachable three threeCfg (genesis (SM := Counter)) emptyDisks admits takenOver.
Proof. apply (execs_reachable three threeCfg genesis emptyDisks admits takeover committedCluster); [apply committedCluster_reachable|by vm_compute]. Qed.

Lemma request_vote_spec_witness :
  let args := mkRVArgs 2 "c" 1 1 in
  grants nodeB args = true ∧
  match HandleRequestVote args late (mkCtx nodeB (diskOf committedCluster "b") [] []) with
  | Ret r x => RVR_VoteGranted r = grants nodeB args
  | Panic _ x => save_failed (diskOf committedCluster "b") x
  end.
Proof.
  intros args. split; [by vm_compute|].
  pose proof (request_vote_spec nodeB (diskOf committedCluster "b") late args) as H.
  destruct (HandleRequestVote args late _) as [r x|w x].
  - apply H; by vm_compute.
  - apply H; by vm_compute.
Defined.

(** Node [a] with the acknowledgement of [b] counted and nothing committed yet. *)
Definition readyA : RaftNode Counter := nodeA <| commitIndex := 0 |>.

Lemma readyA_terms : termsUpTo (log readyA) (currentTerm readyA).
Proof.
  assert (log readyA = [mkEntry 0 0 ""; e1]) as -> by (by vm_compute).
  assert (currentTerm readyA = 1) as -> by (by vm_compute).
  assert (∀ k v, k < u64_size → termAt [mkEntry 0 0 ""; e1] k = Some v → v = k ∧ k ≤ 1) as Hat.
  { intros k v Hk. unfold termAt. cbn [baseIndex head fmap option_fmap option_map mbind option_bind Index].
    rewrite u64_sub_small, N.sub_0_r, slice_get_lookup by lia.
    destruct (N.to_nat k) as [|[|m]] eqn:Hn; cbn; [| |done]; intros [= <-]; lia. }
  intros i j t u Hij Hj Ht Hu. destruct (Hat i t ltac:(lia) Ht). destruct (Hat j u Hj Hu). lia.
Qed.

Lemma commit_rule_witness :
  ∃ ci o, advanceCommitIndexLocked late (mkCtx readyA (diskOf committedCluster "a") [] []) =
          Ret tt (mkCtx (readyA <| commitIndex := ci |>) (diskOf committedCluster "a") [] o) ∧ ci = 1 ∧ o = [Signal].
Proof.
  destruct (commit_rule readyA (diskOf committedCluster "a") late 0 1) as (ci & o & Hrun & Hci & Hmax);
    [by vm_compute|apply (bool_decide_unpack _); by vm_compute|apply readyA_terms|by vm_compute|by vm_compute|by vm_compute|].
  exists ci, o. split; [exact Hrun|]. vm_compute in Hrun. by injection Hrun as <- <-.
Defined.

Lemma append_merge_witness :
  let en := mkEntry 1 2 "y" in
  match appendWalk 0 [en] late (mkCtx nodeB (diskOf committedCluster "b") [] []) with
  | Ret _ x => merged (log nodeB) 0 2 [en] (log (rn x))
  | Panic _ x => append_failed [en] (diskOf committedCluster "b") x ∨ ∃ en', en' ∈ [en] ∧ conflicts (log nodeB) 0 en' ∧ Index en' ≤ commitIndex nodeB
  end.
Proof.
  intros en. pose proof (append_merge nodeB (diskOf committedCluster "b") late 0 2 [en]) as H.
  destruct (appendWalk 0 [en] late _) as [u x|w x]; apply H;
    first [apply (bool_decide_unpack _); by vm_compute | by vm_compute].
Defined.

Lemma propose_spec_witness :
  match Propose "y" late (mkCtx nodeA (diskOf committedCluster "a") [] []) with
  | Ret (inr (idx, t)) x => idx = 2 ∧ t = 1
  | _ => False
  end.
Proof.
  pose proof (propose_spec nodeA (diskOf committedCluster "a") late "y" 0 1
    ltac:(apply (bool_decide_unpack _); by vm_compute) ltac:(by vm_compute) ltac:(by vm_compute) ltac:(by vm_compute)
    ltac:(by vm_compute)) as H.
  assert (match Propose "y" late (mkCtx nodeA (diskOf committedCluster "a") [] []) with Ret (inr _) _ => True | _ => False end) as Hok
    by (by vm_compute).
  destruct (Propose "y" late _) as [[err|[idx t]] x|w x]; [done| |done].
  destruct H as (_ & -> & -> & _). by vm_compute.
Defined.

Lemma heartbeat_defers_witness :
  ∃ r x, HandleAppendEntries commit1 late (mkCtx nodeB (diskOf committedCluster "b") [] []) = Ret r x ∧
         electionTick (mkEnv 1000000001 0) x = Ret tt x.
Proof.
  destruct (HandleAppendEntries commit1 late (mkCtx nodeB (diskOf committedCluster "b") [] [])) as [r x|w x] eqn:Hrun.
  - exists r, x. split; [done|].
    apply (heartbeat_defers nodeB (diskOf committedCluster "b") late (mkEnv 1000000001 0) commit1 r x); [by vm_compute|by vm_compute|exact Hrun|by vm_compute].
  - exfalso. by vm_compute in Hrun.
Defined.
