(* ===== verification/Findings.v ===== *)
(** * Executions the code does not handle

    Four runs on the reference store, with no disk failure in any of them: a
    node whose applier panics, a node that can never be started again although a
    write it acknowledged was committed, a follower to which the same snapshot
    is sent for as long as the leader leads and keeps its boundary, and a snapshot sent by a deposed leader that makes the
    Leader Completeness assertion of another node fail. *)

From S2P Require Import Prelude Types Effects Log Node Election Handlers Replication Contracts Cluster ElectionSafety Replay LogContract Refinement Safety Starvation Bounds SpecStore Sim Scenarios.

Definition applies (i : string) : Event := EAct i AApplier late.

(** The cluster a run ends in. *)
Definition ranTo (evs : list Event) : Cluster SpecDisk Counter := default (initial emptyDisks) (runFresh evs).

Definition completes (evs : list Event) : bool := match runFresh evs with Some _ => true | None => false end.

Lemma ranTo_reachable evs :
  completes evs = true → reachable three threeCfg (genesis (SM := Counter)) emptyDisks admits (ranTo evs).
Proof.
  unfold completes, ranTo. destruct (runFresh evs) as [c|] eqn:Hr; [|done]. intros _.
  exact (run_reachable three threeCfg genesis emptyDisks admits evs c Hr).
Qed.

(** A section ends in that panic. *)
Definition panicsWith {D SM A} (r : Result D SM A) (w : string) : bool :=
  match r with Panic w' _ => String.eqb w' w | Ret _ _ => false end.

Lemma panicsWith_spec {D SM A} (r : Result D SM A) w : panicsWith r w = true → ∃ x, r = Panic w x.
Proof. destruct r as [|w' x]; [done|]. intros ->%String.eqb_eq. by exists x. Qed.

(** ** A batch of the applier overtaken by a snapshot *)

Definition e2 : LogEntry := mkEntry 1 2 "y".
Definition e3 : LogEntry := mkEntry 1 3 "z".
Definition e4 : LogEntry := mkEntry 1 4 "w".
Definition beat11 : AppendEntriesArgs := mkAEArgs 1 "a" 1 1 [] 1.
Definition append23 : AppendEntriesArgs := mkAEArgs 1 "a" 1 1 [e2; e3] 1.
Definition append4 : AppendEntriesArgs := mkAEArgs 1 "a" 3 1 [e4] 3.
Definition snapshot3 : InstallSnapshotArgs := mkISArgs 1 "a" 3 1 0 (Some "xxx") true.

(** [c] has committed entry 1 and its applier has taken it; meanwhile [a] and [b]
    commit entries 2 and 3, and [a] compacts its log and sends [c] a snapshot. *)
Definition lagging : list Event :=
  elect_a ++
  [EAct "a" (APropose "x") late; EAct "a" (ARound 1) late;
   EAct "b" (AAppendEntries "a" append1) late; EAct "c" (AAppendEntries "a" append1) late;
   EAct "a" (AAppendReply "b" 1 append1 accepted) late; EAct "a" (AAppendReply "c" 1 append1 accepted) late;
   EAct "a" (ARound 1) late; EAct "c" (AAppendEntries "a" beat11) late; applies "c";
   EAct "a" (APropose "y") late; EAct "a" (APropose "z") late; EAct "a" (ARound 1) late;
   EAct "b" (AAppendEntries "a" append23) late; EAct "a" (AAppendReply "b" 1 append23 accepted) late;
   applies "a"; applies "a"; applies "a"; applies "a"; applies "a"; applies "a";
   EAct "a" (ARound 1) late; EAct "a" (ASendSnapshot "c" 1) late].

Definition overtaken : list Event :=
  lagging ++ [EAct "c" (AInstallSnapshot "a" snapshot3) late; applies "c"].

(** C34. The applier can panic: a node that installs a snapshot while its applier is
    in the middle of a batch finishes the batch with lastApplied below the new
    compaction boundary; the unsigned difference of the two wraps around in
    maybeSnapshotLocked, passes the threshold test, and the access to the log
    below its boundary is out of range. *)
Theorem applier_panics :
  let c := ranTo overtaken in
  reachable three threeCfg (genesis (SM := Counter)) emptyDisks admits c ∧
  ∃ n x, p_node (procs c "c") = Some n ∧
    runAction AApplier late (mkCtx n (p_disk (procs c "c")) [] []) = Panic "index out of range" x.
Proof.
  intros c. split; [apply ranTo_reachable; by vm_compute|].
  exists (default (initialNode (threeCfg "c")) (p_node (procs c "c"))).
  destruct (panicsWith_spec (runAction AApplier late (mkCtx (default (initialNode (threeCfg "c"))
    (p_node (procs c "c"))) (p_disk (procs c "c")) [] [])) "index out of range") as [x Hx]; [by vm_compute|].
  exists x. split; [by vm_compute|exact Hx].
Qed.

(** The panic is the one that the characterisation of all panics leaves to the
    applier: lastApplied is below the boundary after the batch. *)
Lemma panics_explained_witness :
  let c := ranTo overtaken in
  ∃ n, p_node (procs c "c") = Some n ∧ outrun n.
Proof.
  intros c. assert (reachable three threeCfg (genesis (SM := Counter)) emptyDisks admits c) as Hc.
  { apply ranTo_reachable. by vm_compute. }
  assert (in_range c) as Hrange.
  { apply (in_rangeb_sound three threeCfg genesis emptyDisks admits); [exact Hc|by vm_compute]. }
  set (n := default (initialNode (threeCfg "c")) (p_node (procs c "c"))).
  assert (p_node (procs c "c") = Some n) as Hn by (by vm_compute).
  exists n. split; [exact Hn|].
  destruct (runAction AApplier late (mkCtx n (p_disk (procs c "c")) [] [])) as [a x|w x] eqn:Hrun; [by vm_compute in Hrun|].
  assert (w = "index out of range") as -> by (vm_compute in Hrun; congruence).
  destruct (panics_explained three threeCfg emptyDisks admits names_ok (λ _ _ H, H) (λ _, I) empty_hard empty_records
    empty_snap c "c" n AApplier late "index out of range" x Hc Hrange Hn I Hrun) as [Hs|[Hs|[_ Ho]]]; [|done|exact Ho].
  exfalso. clear -Hs. apply (bool_decide_pack _) in Hs. by vm_compute in Hs.
Defined.

(** ** A crash between SaveSnapshot and Compact *)

(** [c] dies after the received snapshot is saved and before its log is compacted;
    it starts again, takes entry 4 from [a], which commits it with that
    acknowledgement, and dies once more. *)
Definition gapped : list Event :=
  lagging ++
  [EActDies "c" (AInstallSnapshot "a" snapshot3) late 1; EBoot "c"; EAct "c" AStart late;
   EAct "c" (AInstallSnapshot "a" snapshot3) late; EAct "a" (ASnapshotReply "c" 1 snapshot3 (mkISReply 1)) late;
   EAct "a" (APropose "w") late; EAct "a" (ARound 1) late; EAct "c" (AAppendEntries "a" append4) late;
   EAct "a" (AAppendReply "c" 1 append4 accepted) late; ECrash "c"].

(** C35. A node can become unable to start: after a crash between SaveSnapshot and
    Compact the log file still ends before the snapshot; the next entry is
    appended behind it, so the file has a gap, which every later start refuses,
    although the entry was acknowledged and counted for its commit. *)
Theorem restart_refused :
  let c := ranTo gapped in
  reachable three threeCfg (genesis (SM := Counter)) emptyDisks admits c ∧
  (∃ n, p_node (procs c "a") = Some n ∧ state n = Leader ∧ commitIndex n = 4 ∧ matchIndex n !! "c" = Some 4 ∧
        matchIndex n !! "b" = Some 3) ∧
  let r := boot (genesis (SM := Counter)) (threeCfg "c") (p_disk (procs c "c")) in
  io_res r = inl "raft: loading log: storage: wal append record out of order" ∧ io_disk r = p_disk (procs c "c").
Proof.
  intros c. split; [apply ranTo_reachable; by vm_compute|]. split.
  - exists (default (initialNode (threeCfg "a")) (p_node (procs c "a"))). split_and!; by vm_compute.
  - split; by vm_compute.
Qed.

(** ** A late rejection behind the compaction boundary *)

Definition probe : AppendEntriesArgs := mkAEArgs 2 "b" 1 1 [] 1.
Definition rejected : AppendEntriesReply := mkAEReply 2 false 1 0.
Definition accepted2 : AppendEntriesReply := mkAEReply 2 true 0 0.
Definition repair : AppendEntriesArgs := mkAEArgs 2 "b" 0 0 [e1] 1.
Definition append23b : AppendEntriesArgs := mkAEArgs 2 "b" 1 1 [mkEntry 2 2 "y"; mkEntry 2 3 "z"] 1.
Definition beat33 : AppendEntriesArgs := mkAEArgs 2 "b" 3 2 [] 3.
Definition snapshot3b : InstallSnapshotArgs := mkISArgs 2 "b" 3 2 0 (Some "xxx") true.

(** [a] is down and [b] leads.  Two probes to [c] are rejected; the first rejection
    repairs the log of [c], entries 2 and 3 are committed and compacted away at
    [b]; then the second rejection arrives. *)
Definition lateRejection : list Event :=
  commit_x ++ takeover ++
  [EAct "b" (ARound 2) late; EAct "b" (ARound 2) late;
   EAct "c" (AAppendEntries "b" probe) late; EAct "c" (AAppendEntries "b" probe) late;
   EAct "b" (AAppendReply "c" 2 probe rejected) late;
   EAct "b" (ARound 2) late; EAct "c" (AAppendEntries "b" repair) late;
   EAct "b" (AAppendReply "c" 2 repair accepted2) late;
   EAct "b" (APropose "y") late; EAct "b" (APropose "z") late; EAct "b" (ARound 2) late;
   EAct "c" (AAppendEntries "b" append23b) late; EAct "b" (AAppendReply "c" 2 append23b accepted2) late;
   applies "b"; applies "b"; applies "b"; applies "b"; applies "b"; applies "b";
   EAct "b" (ARound 2) late; EAct "c" (AAppendEntries "b" beat33) late;
   EAct "b" (AAppendReply "c" 2 beat33 accepted2) late;
   EAct "b" (AAppendReply "c" 2 probe rejected) late; EAct "b" (APropose "w") late].

(** One round of the leader and everything it leads to. *)
Definition exchange : list Event :=
  [EAct "b" (ARound 2) late; EAct "b" (ASendSnapshot "c" 2) late;
   EAct "c" (AInstallSnapshot "b" snapshot3b) late;
   EAct "b" (ASnapshotReply "c" 2 snapshot3b (mkISReply 2)) late].

Definition exchanged (c : Cluster SpecDisk Counter) : Cluster SpecDisk Counter :=
  default c (execs three threeCfg (genesis (SM := Counter)) admits exchange c).

(** The messages of [b] for [c] so far, none of them beyond index 3. *)
Definition no_newsb (i : string) (t K : N) (y : Effect) : bool :=
  match y with
  | GoAppendEntries p t' args =>
    negb (String.eqb p i) || negb (t' =? t) || (AEA_PrevLogIndex args +w lenN (AEA_Entries args) <=? K)
  | GoInstallSnapshot p t' args => negb (String.eqb p i) || negb (t' =? t) || (ISA_LastIncludedIndex args <=? K)
  | _ => true
  end.

Lemma no_newsb_sound i t K y : no_newsb i t K y = true → no_news i t K y.
Proof.
  destruct y; simpl; try done; intros H -> ->; rewrite String.eqb_refl, N.eqb_refl in H; by apply N.leb_le.
Qed.

Lemma lateRejection_starved : starved "b" "c" 2 3 (ranTo lateRejection).
Proof.
  set (c := ranTo lateRejection). set (n := default (initialNode (threeCfg "b")) (p_node (procs c "b"))). split.
  - exists n. unfold in_office, behind. split_and!; by vm_compute.
  - assert (forallb (λ x, negb (String.eqb x.1 "b") || no_newsb "c" 2 3 x.2) (sent c) = true) as Hall by (by vm_compute).
    rewrite forallb_forall in Hall. intros y Hy%list_elem_of_In. specialize (Hall _ Hy). by apply no_newsb_sound.
Qed.

(** C36. Replication to a follower can stop: a rejection that arrives late moves
    nextIndex behind the compaction boundary although matchIndex has reached it.
    There is a reachable state in which [b] leads term 2, its log compacted up to
    index 3 and with an entry 4 that [c] lacks, such that in every execution from
    there, for as long as [b] leads that term and does not compact its log
    further, whatever else happens and whatever messages arrive, every round of
    [b] has the snapshot for [c], and [b] never sends [c] any entries: what
    AppendEntries of that term it has ever sent to [c] were sent before, and do
    not reach beyond index 3.  A round with all that it leads to, the snapshot
    being sent, received and answered, changes neither of them. *)
Theorem snapshot_resent_forever :
  let c := ranTo lateRejection in
  reachable three threeCfg (genesis (SM := Counter)) emptyDisks admits c ∧
  (∃ n m, p_node (procs c "b") = Some n ∧ in_office 2 3 n ∧ lastLogIndex (log n) = Some 4 ∧
     p_node (procs c "c") = Some m ∧ lastLogIndex (log m) = Some 3) ∧
  (completes (lateRejection ++ exchange) = true ∧
   procs (exchanged c) "b" = procs c "b" ∧ procs (exchanged c) "c" = procs c "c") ∧
  ∀ c', rtc (office_step three threeCfg admits "b" 2 3) c c' →
    (∃ n, p_node (procs c' "b") = Some n ∧ in_office 2 3 n ∧ outboundFor n 3 2 "c" = Some (GoSendSnapshot "c" 2)) ∧
    ∀ args, ("b", GoAppendEntries "c" 2 args) ∈ sent c' →
      ("b", GoAppendEntries "c" 2 args) ∈ sent c ∧ AEA_PrevLogIndex args +w lenN (AEA_Entries args) ≤ 3.
Proof.
  intros c. assert (reachable three threeCfg (genesis (SM := Counter)) emptyDisks admits c) as Hc.
  { apply ranTo_reachable. by vm_compute. }
  pose proof lateRejection_starved as Hs. split; [exact Hc|]. split; [|split].
  - exists (default (initialNode (threeCfg "b")) (p_node (procs c "b"))),
           (default (initialNode (threeCfg "c")) (p_node (procs c "c"))).
    unfold in_office. split_and!; by vm_compute.
  - split; [by vm_compute|]. split; by vm_compute.
  - intros c' Hrun. destruct (starved_forever three threeCfg emptyDisks admits names_ok (λ _ _ H, H) (λ _, I) empty_hard
      empty_records empty_snap "b" "c" 2 3 c c' Hc Hs Hrun) as [[(n & Hn & Ho & Hbe) Hsent] Hw].
    split; [exists n; split; [done|]; split; [done|]; by apply starved_round|].
    intros args Hargs. split; [by apply Hw|]. by apply (Hsent _ Hargs).
Qed.

(** ** A snapshot sent by a deposed leader *)

Definition seven : list string := ["a"; "b"; "c"; "d"; "f"; "w"; "z"].

Definition sevenCfg (i : string) : Config :=
  mkConfig i (filter (λ p, p ≠ i) seven) true true true true 2 0 0 0 0.

#[export] Instance seven_membership : Membership seven sevenCfg.
Proof.
  split; try done; apply (bool_decide_unpack _); by vm_compute.
Qed.

(** The steps of an election and of a replication round. *)
Definition stands (i : string) (k : Z) : Event := EAct i ATick (mkEnv (k * 1000000000) 0).
Definition voteFor (i : string) (args : RequestVoteArgs) (ws : list string) : list Event :=
  ((λ w, EAct w (ARequestVote i args) late) <$> ws) ++
  ((λ w, EAct i (AVoteReply w (RVA_Term args) (mkRVReply (RVA_Term args) true)) late) <$> ws).
Definition proposes (i cmd : string) : Event := EAct i (APropose cmd) late.
Definition round (i : string) (t : N) : Event := EAct i (ARound t) late.
Definition gets (i : string) (args : AppendEntriesArgs) (ws : list string) : list Event :=
  (λ w, EAct w (AAppendEntries i args) late) <$> ws.
Definition reply (i : string) (args : AppendEntriesArgs) (r : AppendEntriesReply) (ws : list string) : list Event :=
  (λ w, EAct i (AAppendReply w (AEA_Term args) args r) late) <$> ws.
Definition accept (i : string) (args : AppendEntriesArgs) (ws : list string) : list Event :=
  gets i args ws ++ reply i args (mkAEReply (AEA_Term args) true 0 0) ws.

Definition entriesPQ : list LogEntry := [mkEntry 1 1 "p"; mkEntry 1 2 "q"].
Definition entriesRST : list LogEntry := [mkEntry 1 3 "r"; mkEntry 1 4 "s"; mkEntry 1 5 "t"].
Definition entryY : LogEntry := mkEntry 2 3 "y".
Definition entryU : LogEntry := mkEntry 4 4 "u".

(** Term 1: [f] leads, commits entries 1 and 2 and compacts them; entries 3 to 5 it
    only gets to [z].  A goroutine that shall send the snapshot to [w] is started,
    and a message with all five entries to [w] is on its way. *)
Definition appendPQ : AppendEntriesArgs := mkAEArgs 1 "f" 0 0 entriesPQ 0.
Definition append5 : AppendEntriesArgs := mkAEArgs 1 "f" 0 0 (entriesPQ ++ entriesRST) 2.
Definition term1 : list Event :=
  (EBoot <$> seven) ++ ((λ i, EAct i AStart early) <$> seven) ++
  [stands "f" 1] ++ voteFor "f" (mkRVArgs 1 "f" 0 0) ["a"; "b"; "c"] ++
  [proposes "f" "p"; proposes "f" "q"; round "f" 1] ++ accept "f" appendPQ ["a"; "b"; "c"] ++
  gets "f" appendPQ ["d"] ++ [proposes "f" "r"; proposes "f" "s"; proposes "f" "t"; round "f" 1] ++
  gets "f" append5 ["z"] ++ replicate 6 (applies "f") ++ [round "f" 1].

(** Term 2: [d] leads, and gets entry 3 to [a] and [b]: one short of a majority.
    Term 3: [z] stands, and is one vote short of a majority. *)
Definition appendY : AppendEntriesArgs := mkAEArgs 2 "d" 2 1 [entryY] 0.
Definition terms23 : list Event :=
  [stands "d" 9] ++ voteFor "d" (mkRVArgs 2 "d" 2 1) ["a"; "b"; "c"] ++
  [proposes "d" "y"; round "d" 2] ++ accept "d" appendY ["a"; "b"] ++
  [stands "z" 9; stands "z" 19] ++ voteFor "z" (mkRVArgs 3 "z" 5 1) ["c"; "f"].

(** Term 4: [b] leads and commits entries 3 and 4 with [a], [c] and [f]; [f]
    compacts them.  Only now the goroutine of term 1 reads the snapshot. *)
Definition appendU : AppendEntriesArgs := mkAEArgs 4 "b" 3 2 [entryU] 0.
Definition appendYU : AppendEntriesArgs := mkAEArgs 4 "b" 2 1 [entryY; entryU] 0.
Definition term4 : list Event :=
  [stands "b" 9; stands "b" 19] ++ voteFor "b" (mkRVArgs 4 "b" 3 2) ["a"; "c"; "f"] ++
  [proposes "b" "u"; round "b" 4] ++ accept "b" appendU ["a"] ++ gets "b" appendU ["c"; "f"] ++
  reply "b" appendU (mkAEReply 4 false 3 0) ["c"] ++ reply "b" appendU (mkAEReply 4 false 3 1) ["f"] ++
  [round "b" 4] ++ accept "b" appendYU ["c"; "f"] ++ [round "b" 4] ++
  gets "b" (mkAEArgs 4 "b" 4 4 [] 4) ["f"] ++ replicate 6 (applies "f") ++ [EAct "f" (ASendSnapshot "w" 1) late].

(** The snapshot of term 4 reaches [w], which is still in term 1, and after it the
    message of term 1, whose entry 5 is beyond the snapshot; then [d] in term 2
    gets the acknowledgement of [w] and [z] in term 3 its vote. *)
Definition lateSnapshot : list Event :=
  term1 ++ terms23 ++ term4 ++
  [EAct "w" (AInstallSnapshot "f" (mkISArgs 1 "f" 4 4 0 (Some "xxxx") true)) late] ++ gets "f" append5 ["w"] ++
  accept "d" appendY ["w"] ++ voteFor "z" (mkRVArgs 3 "z" 5 1) ["w"].

(** [z] finds out what [d] has. *)
Definition probe5 : AppendEntriesArgs := mkAEArgs 3 "z" 5 1 [] 2.
Definition probe3 : AppendEntriesArgs := mkAEArgs 3 "z" 3 1 (drop 1 entriesRST) 2.
Definition appendRST : AppendEntriesArgs := mkAEArgs 3 "z" 2 1 entriesRST 2.
Definition probing : list Event :=
  [round "z" 3] ++ gets "z" probe5 ["d"] ++ reply "z" probe5 (mkAEReply 3 false 4 0) ["d"] ++
  [round "z" 3] ++ gets "z" probe3 ["d"] ++ reply "z" probe3 (mkAEReply 3 false 3 2) ["d"] ++ [round "z" 3].

Definition run7 (evs : list Event) : option (Cluster SpecDisk Counter) :=
  run seven sevenCfg (genesis (SM := Counter)) emptyDisks admits evs.
Definition ranTo7 (evs : list Event) : Cluster SpecDisk Counter := default (initial emptyDisks) (run7 evs).

Lemma ranTo7_reachable evs :
  match run7 evs with Some _ => true | None => false end = true →
  reachable seven sevenCfg (genesis (SM := Counter)) emptyDisks admits (ranTo7 evs).
Proof.
  unfold ranTo7. destruct (run7 evs) as [c|] eqn:Hr; [|done]. intros _.
  exact (run_reachable seven sevenCfg genesis emptyDisks admits evs c Hr).
Qed.

(** C33. Leader completeness in the form the code asserts does not hold: sendSnapshot
    reads the snapshot without the lock and without checking that its node
    still leads, so it can send a snapshot of a later term in the name of its
    own.  There is an execution in which [d], leading term 2, has committed
    entry 3, [z] leads term 3 with another entry at that index, and the
    AppendEntries of [z] makes [d] panic. *)
Theorem stale_snapshot_panics :
  let c := ranTo7 lateSnapshot in
  let c' := ranTo7 (lateSnapshot ++ probing) in
  reachable seven sevenCfg (genesis (SM := Counter)) emptyDisks admits c ∧
  reachable seven sevenCfg (genesis (SM := Counter)) emptyDisks admits c' ∧
  (∃ n m, p_node (procs c "d") = Some n ∧ p_node (procs c "z") = Some m ∧
     state n = Leader ∧ currentTerm n = 2 ∧ commitIndex n = 3 ∧ entryAt (log n) 3 = Some entryY ∧
     state m = Leader ∧ currentTerm m = 3 ∧ entryAt (log m) 3 = Some (mkEntry 1 3 "r")) ∧
  ∃ n x, p_node (procs c' "d") = Some n ∧ enabled c' "d" n (AAppendEntries "z" appendRST) ∧
    runAction (AAppendEntries "z" appendRST) late (mkCtx n (p_disk (procs c' "d")) [] []) =
      Panic "Leader Completeness violated" x.
Proof.
  intros c c'. split; [apply ranTo7_reachable; by vm_compute|]. split; [apply ranTo7_reachable; by vm_compute|]. split.
  - exists (default (initialNode (sevenCfg "d")) (p_node (procs c "d"))),
           (default (initialNode (sevenCfg "z")) (p_node (procs c "z"))). split_and!; by vm_compute.
  - set (n := default (initialNode (sevenCfg "d")) (p_node (procs c' "d"))).
    destruct (panicsWith_spec (runAction (AAppendEntries "z" appendRST) late
      (mkCtx n (p_disk (procs c' "d")) [] [])) "Leader Completeness violated") as [x Hx]; [by vm_compute|].
    exists n, x. split; [by vm_compute|]. split; [apply enabledb_sound; by vm_compute|exact Hx].
Qed.
